(* ===== verification/_CoqProject ===== *)
-Q . S2P
Prelude.v
Errors.v
Util.v
TreePath.v
OddEvenSort.v
Bucket.v
Stash.v
Eviction.v
PositionMap.v
Statistics.v
PathOram.v
ReadPath.v
PathOramSpec.v
OramInterface.v
OramPositionMap.v
OramTheorems.v
OHTable.v
RobinHood.v
OHTableSpec.v
OHTableTheorems.v
Queue.v
PbEncoder.v
PbDecoder.v
PbWire.v
PbParse.v
PbSafety.v
PbPacked.v
PbPrograms.v
PbTheorems.v
Shard.v
ShardTheorems.v
OCompact.v
UtilJasmin.v
HalfSipHash.v
ShardedOHTable.v
ShardedSpec.v
ShardedTable.v
ShardedPut.v
ShardedGet.v
ShardedTheorems.v
FixedSet.v
FixedSetSpec.v
FixedSetTheorems.v
Messages.v
RateLimit.v
AciPniUak.v
Noise.v
StateError.v
Enclave.v
Clients.v
EnclaveSpec.v
EnclaveRun.v
EnclaveLoad.v
EnclaveTheorems.v
ClientState.v
SessionTheorems.v
JniShim.v
JniTheorems.v
