(* ===== verification/Prelude.v ===== *)
(** * Contact discovery service, enclave side: verification library

    The service answers, for the phone numbers of a client's address book, which
    of them are registered, without learning the numbers.  Its C and Jasmin code
    runs in an SGX enclave (sources under [src/c]).  This library translates that
    code into Rocq functions and proves what the parts of it promise.

    ** The program

    A host process calls the enclave through the entry points of [enclave/enc.c]:
    it initialises it, loads the directory, opens a client, passes on the client's
    messages and runs the worker threads.  In the service the host is a JVM that
    loads [jnishim]; [testhost] has the client's side of a session.  A client takes
    the enclave's key from its attestation, and then it and the enclave share a Noise
    channel ([noiseutil]).  Over it the client sends a protobuf message ([proto])
    with its numbers; the enclave checks and issues rate-limit tokens
    ([ratelimit]), looks the numbers up in the directory, and releases the account
    identifiers (ACI) of those records whose access key (UAK) the client knows
    ([aci_pni_uak_helpers], with the hash set of [fixedset]).

    The directory is a hash table split into shards ([sharded_ohtable]).  A batch
    of requests is sorted, padded and compacted obliviously so that each shard gets
    the same number of records; every shard has a worker thread that takes requests
    from a queue and works on a Robin Hood hash table ([ohtable]), whose blocks lie
    in a Path ORAM ([path_oram]) with a recursive position map, a stash and a tree of
    buckets.  [util] and [halfsiphash] have the arithmetic, sorting and hashing all
    of this uses.

    ** The library

    The files are in dependency order; each says at its top which source files it
    models, and a definition has the name of the function it translates.

    - Shared: this file (64-bit words with explicit wrap-around, bytes, lists,
      tactics and hints), [Errors] ([util/error.h]), [Util] ([util/util.h],
      [uint128div.c]), [OddEvenSort] ([osort.jinc] and the sort of [stash.jinc]),
      [OCompact], [UtilJasmin] ([util/util.jinc]), [HalfSipHash], [Statistics].
    - Path ORAM: [TreePath], [Bucket], [Stash], [PositionMap], [PathOram] have the
      operations on records that mirror the C structures; [Eviction], [ReadPath]
      and [PathOramSpec] the proofs; [OramInterface] the classes [ObliviousRam] and
      [ObliviousRamSpec], what an ORAM promises to its clients; [OramPositionMap]
      the recursive map, itself a client of that interface; [OramTheorems].
    - Hash table: [OHTable] over any [ObliviousRam]; [RobinHood] is the invariant on
      a flat table, [OHTableSpec] the simulation of the flat table by the blocks,
      [OHTableTheorems].
    - Shards: [Queue] (the blocking queue as critical sections and as a step
      relation), [Shard] and [ShardTheorems] (the handler of requests, and workers,
      stoppers and clients as a step relation), [ShardedOHTable] and its proofs
      [ShardedSpec], [ShardedTable], [ShardedPut], [ShardedGet], [ShardedTheorems].
    - Protobuf runtime: [PbEncoder], [PbDecoder]; the wire format and proofs in
      [PbWire], [PbParse], [PbSafety], [PbPacked], [PbTheorems]; [PbPrograms] has the
      programs that generated code can be, with their interpreter.
    - Requests: [FixedSet], [FixedSetSpec], [FixedSetTheorems] (the hash set),
      [Messages] (the structures of [cdsi.proto]), [RateLimit], [AciPniUak], [Noise].
    - Entry points: [StateError] (a state and error monad for the code's early
      returns and labels), [Enclave] (every call of [enc.c] on the enclave's global
      state), [Clients] (acquisition of a client by concurrent calls as a step
      relation over words of memory), [EnclaveSpec] (the invariant between calls),
      [EnclaveRun], [EnclaveLoad] (what the calls compute), [EnclaveTheorems].
    - Around the enclave: [ClientState] ([testhost/client_state.c], over a world of a
      client and the enclave) and [SessionTheorems]; [JniShim] ([jnishim/jnishim.c]:
      the native functions over the enclave's state, and the shards' threads with the
      thread that opens and closes the enclave as a step relation), [JniTheorems].

    State is passed explicitly.  Arrays are lists, with the out-of-range cases of
    the source written out; a failed [CHECK] and a loop that runs out of fuel are
    [None], an error code is a value of [error_t] or the [Err] side of [result].
    Randomness is an argument: a stream of entropy for the ORAM, bytes elsewhere.
    Jasmin code, which is branch-free, is translated by its effect: a conditional
    move is a conditional, a network of swaps is the list of its swaps.

    ** What is proved

    - Enclave: any sequence of calls leaves a well-formed state; a run answers the
      numbers with exactly what the client may learn and changes no record; a load
      makes the table a map with the message's records; the rate limit call issues a
      token that the next call accepts; the loop that gathers the numbers stays in the
      workspace, and does not for one form of message; concurrent calls never share
      or reuse a client.
    - Sessions: in every state after attestation a new client accepts the enclave's
      key and completes the handshake, and the two channels are in step.
    - JNI shim: native calls keep the enclave's state well formed and names of clients
      survive the signed words of Java; the count of the shards' threads is exact, a
      close without an exception leaves no thread, and ends when all workers run; only
      a close that threw leaves threads that use freed memory.
    - Tokens bind the numbers they were issued for, up to collisions of SHA-256;
      records are released only for a matching access key; messages survive the
      cut into Noise packets.
    - Sharded table: batches of puts and gets implement a map over all shards, for
      keys in the range of a shard, records within the reach of a lookup and shards
      without errors; every shard's batch has the same size and no request is lost.
    - Shards and queue: one worker at a time, waits are barriers, the queue is first
      in first out and loses no wakeup, in every interleaving.
    - Hash table: put and get implement a map, for every ORAM with the interface's
      laws.
    - Path ORAM: sequences of accesses implement an array; an access fails only
      without room in the stash; the recursive position map has the interface's laws;
      eviction keeps the path invariant; creation establishes it.
    - Protobuf: round trips for scalar and packed fields; on arbitrary bytes every
      program over the decoder, repeated fields and sub-messages included, stays in
      its buffer; both passes over a varint field count the same items.
    - Sorting, compaction, constant-time division, conditional swaps in memory and
      the hash are functionally correct for every input length.
    - Some theorems state where the code departs from its intention; they say so.

    Witness lemmas apply each theorem that has hypotheses to a small instance:
    two shards over an ORAM of one block, a polynomial checksum in the place of
    SHA-256, a counter in the place of a Noise channel.

    ** Bounds and fuel

    Words are integers with the reduction modulo [2 ^ 64] written at each
    operation.  Loops whose end is not structural take fuel, and the theorems prove
    that it is enough: the sorting networks have as many rounds as elements, the
    insertion into the hash table passes each block at most twice, insertion and
    removal in the set end at the first empty entry, which exists since the set is
    never full, the Noise loops consume at least one byte per round, a varint has at
    most ten bytes.  An execution of the JNI shim's threads needs no fuel: a measure
    bounds its steps.  The hash table's theorems need fewer than [2 ^ 53] slots, where
    the load test in floating point is exact; batches have fewer than [2 ^ 31]
    requests, which keeps the sums and products of the batch sizes in 64 bits.

    ** Outside code

    SHA-256, the Noise library, Open Enclave, the generated message code, the
    allocator and random sources are arguments, classes ([NoiseLibrary],
    [NoisePair], [EnclaveLibrary], [HandshakeLaws], [ClientLibrary],
    [HandshakePair], [AttestationLaws]) or section variables; what is relied on is a
    named hypothesis, and an instance shows that it can hold.

    ** Not modelled

    - Release of memory ([free] and the destructors), and the bytes of padding.
    - Timing, memory access patterns and the cache: the oblivious routines are
      proved correct, not oblivious.
    - The reader-writer lock of the handshake data, and the memory model below
      sequential consistency; the enclave's threads enter a call of [enc.c] with the
      results of [shard_run] and [shard_stop].
    - The test programs of [testhost] ([host.c], [crud_test_fns.c],
      [ohtable_stats.c]), [fuzz.c] and the stubs of [enclave/shim.h] for it: they call
      the modelled code and print.  [util/log.c], the log macros and the logging
      callback of [jnishim] only write output.
    - The exported wrappers in Jasmin ([.jazz] files and those they include), which copy
      arguments and call the modelled inline functions, and code that the build
      compiles for tests only.
    - The functions generated from [cdsi.proto], which are not part of the sources. *)

From Stdlib Require Export ZArith Lia.
From stdpp Require Export base tactics numbers option list list_numbers sets.

#[export] Set Default Goal Selector "!".

(** ** 64-bit words

    A C [u64]/[size_t]/[uint64_t] (and a Jasmin [reg u64]) is an integer in
    [[0, 2^64)]; every operation that can leave that range is written with an
    explicit reduction.  The operators live in a scope of their own. *)

Local Open Scope Z_scope.

Definition UINT64_MAX : Z := 18446744073709551615.

Definition is_u64 (x : Z) : Prop := 0 <= x < 2 ^ 64.

Definition wrap64 (x : Z) : Z := x mod 2 ^ 64.

Definition add64 (x y : Z) : Z := wrap64 (x + y).
Definition sub64 (x y : Z) : Z := wrap64 (x - y).
Definition mul64 (x y : Z) : Z := wrap64 (x * y).
(** Shifts take their count modulo 64, as the x86-64 instructions the C shifts
    compile to; C leaves larger counts undefined, and the theorems that use a
    shift show that its count is below 64. *)
Definition shl64 (x s : Z) : Z := wrap64 (Z.shiftl x (s mod 64)).
Definition shr64 (x s : Z) : Z := Z.shiftr x (s mod 64).

Declare Scope u64_scope.
Delimit Scope u64_scope with u64.
Infix "[+]" := add64 (at level 50, left associativity) : u64_scope.
Infix "[-]" := sub64 (at level 50, left associativity) : u64_scope.
Infix "[*]" := mul64 (at level 40, left associativity) : u64_scope.
Infix "[<<]" := shl64 (at level 35, no associativity) : u64_scope.
Infix "[>>]" := shr64 (at level 35, no associativity) : u64_scope.
#[global] Open Scope u64_scope.

#[export] Instance is_u64_dec x : Decision (is_u64 x).
Proof. unfold is_u64. apply _. Defined.

(** ** Automation *)

(** Arithmetic with division and modulus by constants or positive terms. *)
Ltac dlia := Z.div_mod_to_equations; lia.
Ltac dnia := Z.div_mod_to_equations; nia.

(** Case analysis on the innermost condition of a goal or hypothesis. *)
Ltac case_cond :=
  match goal with
  | |- context [if ?b then _ else _] => let E := fresh "E" in destruct b eqn:E
  | H : context [if ?b then _ else _] |- _ => let E := fresh "E" in destruct b eqn:E
  end.

(** Turn boolean comparisons into propositions. *)
Ltac breflect :=
  repeat match goal with
  | H : (_ && _)%bool = true |- _ => apply andb_prop in H as [??]
  | H : (_ || _)%bool = true |- _ => apply orb_prop in H as [?|?]
  | H : (_ || _)%bool = false |- _ => apply orb_false_elim in H as [??]
  | H : negb _ = true |- _ => apply negb_true_iff in H
  | H : negb _ = false |- _ => apply negb_false_iff in H
  | H : (_ <? _)%Z = true |- _ => apply Z.ltb_lt in H
  | H : (_ <? _)%Z = false |- _ => apply Z.ltb_ge in H
  | H : (_ <=? _)%Z = true |- _ => apply Z.leb_le in H
  | H : (_ <=? _)%Z = false |- _ => apply Z.leb_gt in H
  | H : (_ >? _)%Z = true |- _ => rewrite Z.gtb_ltb in H; apply Z.ltb_lt in H
  | H : (_ >? _)%Z = false |- _ => rewrite Z.gtb_ltb in H; apply Z.ltb_ge in H
  | H : (_ >=? _)%Z = true |- _ => rewrite Z.geb_leb in H; apply Z.leb_le in H
  | H : (_ >=? _)%Z = false |- _ => rewrite Z.geb_leb in H; apply Z.leb_gt in H
  | H : (_ =? _)%Z = true |- _ => apply Z.eqb_eq in H
  | H : (_ =? _)%Z = false |- _ => apply Z.eqb_neq in H
  | H : (_ <? _)%nat = true |- _ => apply Nat.ltb_lt in H
  | H : (_ <? _)%nat = false |- _ => apply Nat.ltb_ge in H
  | H : (_ <=? _)%nat = true |- _ => apply Nat.leb_le in H
  | H : (_ <=? _)%nat = false |- _ => apply Nat.leb_gt in H
  | H : (_ =? _)%nat = true |- _ => apply Nat.eqb_eq in H
  | H : (_ =? _)%nat = false |- _ => apply Nat.eqb_neq in H
  end.

Create HintDb u64 discriminated.

(** ** Lemmas on words *)

Lemma wrap64_range x : is_u64 (wrap64 x).
Proof. unfold wrap64, is_u64. apply Z.mod_pos_bound. lia. Qed.

Lemma wrap64_small x : is_u64 x -> wrap64 x = x.
Proof. unfold wrap64, is_u64. apply Z.mod_small. Qed.

Lemma add64_range x y : is_u64 (x [+] y).
Proof. apply wrap64_range. Qed.
Lemma sub64_range x y : is_u64 (x [-] y).
Proof. apply wrap64_range. Qed.
Lemma mul64_range x y : is_u64 (x [*] y).
Proof. apply wrap64_range. Qed.
Lemma shl64_range x s : is_u64 (x [<<] s).
Proof. apply wrap64_range. Qed.

Lemma add64_small x y : 0 <= x + y < 2 ^ 64 -> x [+] y = x + y.
Proof. apply wrap64_small. Qed.
Lemma sub64_small x y : 0 <= x - y < 2 ^ 64 -> x [-] y = x - y.
Proof. apply wrap64_small. Qed.
Lemma mul64_small x y : 0 <= x * y < 2 ^ 64 -> x [*] y = x * y.
Proof. apply wrap64_small. Qed.

Lemma shr64_div x s : 0 <= s < 64 -> x [>>] s = x / 2 ^ s.
Proof.
  intros. unfold shr64. rewrite Z.mod_small by lia. by rewrite Z.shiftr_div_pow2 by lia.
Qed.

Lemma shl64_mul x s : 0 <= s < 64 -> x [<<] s = (x * 2 ^ s) mod 2 ^ 64.
Proof.
  intros. unfold shl64, wrap64. rewrite (Z.mod_small s) by lia.
  by rewrite Z.shiftl_mul_pow2 by lia.
Qed.

Lemma shl64_small x s : 0 <= s < 64 -> 0 <= x * 2 ^ s < 2 ^ 64 -> x [<<] s = x * 2 ^ s.
Proof. intros. rewrite shl64_mul by done. by apply Z.mod_small. Qed.

Lemma shr64_range x s : is_u64 x -> is_u64 (x [>>] s).
Proof.
  unfold is_u64. intros [??]. unfold shr64.
  pose proof (Z.mod_pos_bound s 64 ltac:(lia)).
  rewrite Z.shiftr_div_pow2 by lia.
  assert (1 <= 2 ^ (s mod 64)) by (pose proof (Z.pow_pos_nonneg 2 (s mod 64)); lia).
  split; [apply Z.div_pos; lia|].
  apply Z.div_lt_upper_bound; nia.
Qed.

#[export] Hint Resolve wrap64_range add64_range sub64_range mul64_range
  shl64_range shr64_range : u64.

(** Disjoint bits add up: [a * 2^k | b] for [b] below [2^k]. *)
Lemma lor_shift_add a b k : 0 <= k -> 0 <= b < 2 ^ k -> Z.lor (a * 2 ^ k) b = a * 2 ^ k + b.
Proof.
  intros Hk Hb. symmetry. apply Z.add_nocarry_lor.
  apply Z.bits_inj'; intros i Hi. rewrite Z.land_spec, Z.bits_0, <- Z.shiftl_mul_pow2 by lia.
  destruct (Z.lt_ge_cases i k).
  - by rewrite Z.shiftl_spec_low by lia.
  - assert (Z.testbit b i = false) as ->; [|by rewrite andb_false_r].
    apply Z.testbit_false; [lia|]. rewrite (Z.div_small b (2 ^ i)); [done|].
    pose proof (Z.pow_le_mono_r 2 k i). lia.
Qed.

(** ** Counting *)

Fixpoint countb {A} (f : A -> bool) (l : list A) : nat :=
  match l with [] => 0 | x :: l => (if f x then 1 else 0) + countb f l end.

Lemma countb_app {A} (f : A -> bool) l l' : countb f (l ++ l') = (countb f l + countb f l')%nat.
Proof. induction l; simpl; lia. Qed.

Lemma countb_insert {A} (f : A -> bool) l i x y : l !! i = Some x ->
  (countb f (<[i := y]> l) + (if f x then 1 else 0) = countb f l + (if f y then 1 else 0))%nat.
Proof.
  revert i. induction l as [|z l IH]; intros [|i] H; simplify_eq/=; [lia|].
  specialize (IH i H). lia.
Qed.

Lemma countb_perm {A} (f : A -> bool) l l' : l ≡ₚ l' -> countb f l = countb f l'.
Proof. induction 1; simpl; lia. Qed.

Lemma countb_le {A} (f : A -> bool) l : (countb f l <= length l)%nat.
Proof. induction l as [|x l IH]; simpl; [lia|]. destruct (f x); lia. Qed.

Lemma countb_ext {A} (f g : A -> bool) l : (forall x, x ∈ l -> f x = g x) -> countb f l = countb g l.
Proof.
  induction l as [|x l IH]; intros H; simpl; [done|].
  rewrite (H x) by left. rewrite IH; [done|]. intros y Hy. apply H. by right.
Qed.

Lemma countb_false {A} (f : A -> bool) l : (forall x, x ∈ l -> f x = false) -> countb f l = 0%nat.
Proof.
  induction l as [|x l IH]; intros H; simpl; [done|].
  rewrite (H x) by left. rewrite IH; [done|]. intros y Hy. apply H. by right.
Qed.

Lemma countb_orb {A} (f g : A -> bool) l : (forall x, x ∈ l -> f x = true -> g x = false) ->
  countb (fun x => f x || g x) l = (countb f l + countb g l)%nat.
Proof.
  induction l as [|x l IH]; intros H; simpl; [done|].
  rewrite IH by (intros y Hy; apply H; by right). specialize (H x ltac:(left)).
  destruct (f x), (g x); simpl; lia || (exfalso; naive_solver).
Qed.

Lemma countb_negb {A} (f : A -> bool) l : (countb f l + countb (fun x => negb (f x)) l = length l)%nat.
Proof. induction l as [|x l IH]; simpl; [done|]. destruct (f x); simpl; lia. Qed.

Lemma countb_pos {A} (f : A -> bool) l : (0 < countb f l)%nat -> exists x, x ∈ l /\ f x = true.
Proof.
  induction l as [|x l IH]; simpl; [lia|]. destruct (f x) eqn:E.
  - intros _. exists x. split; [left|done].
  - intros H. destruct (IH H) as (y & ? & ?). exists y. split; [by right|done].
Qed.

Lemma sum_list_insert (l : list nat) i x y : l !! i = Some x ->
  (sum_list (<[i := y]> l) + x = sum_list l + y)%nat.
Proof.
  revert i. induction l as [|z l IH]; intros [|i] H; simplify_eq/=; [lia|].
  specialize (IH i H). lia.
Qed.

(** A list of [n] counters that never exceed [b]. *)
Lemma sum_list_le_bound b (l : list nat) : Forall (fun x => x <= b)%nat l -> (sum_list l <= b * length l)%nat.
Proof. induction 1; simpl; lia. Qed.

Lemma sum_list_full b (l : list nat) : Forall (fun x => x <= b)%nat l ->
  sum_list l = (b * length l)%nat -> Forall (fun x => x = b) l.
Proof.
  induction 1 as [|x l Hx Hl IH]; simpl; intros H; [constructor|].
  pose proof (sum_list_le_bound b l Hl). constructor; [lia|]. apply IH. lia.
Qed.

(** ** First index that satisfies a predicate *)

Fixpoint find_first (P : nat -> bool) (start n : nat) : option nat :=
  match n with
  | O => None
  | S n => if P start then Some start else find_first P (S start) n
  end.

Lemma find_first_Some P start n i : find_first P start n = Some i ->
  (start <= i < start + n)%nat /\ P i = true /\ forall j, (start <= j < i)%nat -> P j = false.
Proof.
  revert start. induction n as [|n IH]; intros start H; simpl in H; [done|].
  destruct (P start) eqn:E.
  - injection H as <-. split_and!; [lia..|done|]. intros j Hj. lia.
  - destruct (IH _ H) as (? & ? & Hj). split_and!; [lia..|done|].
    intros j Hr. destruct (decide (j = start)) as [->|]; [done|]. apply Hj. lia.
Qed.

Lemma find_first_None P start n : find_first P start n = None ->
  forall j, (start <= j < start + n)%nat -> P j = false.
Proof.
  revert start. induction n as [|n IH]; intros start H j Hj; simpl in H; [lia|].
  destruct (P start) eqn:E; [done|].
  destruct (decide (j = start)) as [->|]; [done|]. apply (IH _ H). lia.
Qed.

Lemma find_first_is_Some P start n j : (start <= j < start + n)%nat -> P j = true ->
  is_Some (find_first P start n).
Proof.
  intros Hj Hp. destruct (find_first P start n) eqn:E; [done|].
  by rewrite (find_first_None _ _ _ E j Hj) in Hp.
Qed.

(** Counting through indices. *)
Lemma countb_seq {A} (f : A -> bool) d l :
  countb f l = countb (fun i => f (default d (l !! i))) (seq 0 (length l)).
Proof.
  induction l as [|x l IH] using rev_ind; [done|].
  rewrite length_app, seq_app, !countb_app, IH. simpl. f_equal.
  - apply countb_ext. intros i Hi%elem_of_seq. rewrite lookup_app_l by lia. done.
  - rewrite lookup_app_r, Nat.sub_diag by lia. done.
Qed.

Lemma countb_seq_mono (f : nat -> bool) n m : (n <= m)%nat ->
  (countb f (seq 0 n) <= countb f (seq 0 m))%nat.
Proof.
  intros H. replace m with (n + (m - n))%nat by lia. rewrite seq_app, countb_app. lia.
Qed.

Lemma countb_seq_le (f : nat -> bool) s n : (countb f (seq s n) <= n)%nat.
Proof. pose proof (countb_le f (seq s n)). by rewrite length_seq in H. Qed.

(** Predicates that cover the indices. *)
Lemma countb_cover (P Q R : nat -> bool) l : (forall i, i ∈ l -> P i || Q i || R i = true) ->
  (length l <= countb P l + countb Q l + countb R l)%nat.
Proof.
  induction l as [|x l IH]; intros H; simpl; [lia|].
  pose proof (H x ltac:(left)). specialize (IH (fun i Hi => H i ltac:(by right))).
  destruct (P x), (Q x), (R x); simpl in *; lia || done.
Qed.

(** Elements selected by [f] that sit at indices [m, k). *)
Lemma countb_range {A} (f : A -> bool) l m k :
  (forall i x, l !! i = Some x -> f x = true -> (m <= i < k)%nat) -> (countb f l <= k - m)%nat.
Proof.
  revert m k. induction l as [|x l IH]; intros m k H; simpl; [lia|].
  assert (countb f l <= (k - 1) - (m - 1))%nat.
  { apply IH. intros i y Hi Hf. specialize (H (S i) y Hi Hf). lia. }
  destruct (f x) eqn:E; [specialize (H 0%nat x eq_refl E)|]; lia.
Qed.

(** In a list where [f] holds of a prefix, that prefix has [countb f] elements. *)
Lemma countb_prefix {A} (f : A -> bool) l :
  (forall i j x y, (i < j)%nat -> l !! i = Some x -> l !! j = Some y -> f y = true -> f x = true) ->
  forall i x, l !! i = Some x -> (f x = true <-> (i < countb f l)%nat).
Proof.
  induction l as [|z l IH]; intros H i x Hi; [done|]. simpl.
  assert (H' : forall i j x y, (i < j)%nat -> l !! i = Some x -> l !! j = Some y -> f y = true -> f x = true)
    by (intros i' j' x' y' ? ? ?; apply (H (S i') (S j') x' y'); (done || lia)).
  destruct (f z) eqn:E.
  - destruct i as [|i]; simpl in Hi; [injection Hi as <-; split; [lia|done]|].
    rewrite (IH H' i x Hi). lia.
  - rewrite countb_false.
    + split; [|lia]. destruct i as [|i]; simpl in Hi; [congruence|].
      intros Hx. rewrite (H 0%nat (S i) z x) in E; (done || lia).
    + intros y [j Hj]%list_elem_of_lookup. destruct (f y) eqn:Ey; [|done].
      rewrite (H 0%nat (S j) z y) in E; (done || lia).
Qed.

Lemma countb_map {A B} (g : A -> B) (f : B -> bool) l : countb f (map g l) = countb (fun x => f (g x)) l.
Proof. induction l as [|x l IH]; simpl; [done|]. by rewrite IH. Qed.

(** Indexing a concatenation of lists of the same length. *)
Lemma concat_lookup_uniform {A} (ls : list (list A)) k i x : (0 < k)%nat ->
  Forall (fun l => length l = k) ls -> concat ls !! i = Some x ->
  exists l, ls !! (i / k)%nat = Some l /\ l !! (i mod k)%nat = Some x.
Proof.
  intros Hk Hf. revert i. induction Hf as [|l ls Hl Hf IH]; intros i Hi; [done|]. simpl in Hi.
  destruct (decide (i < k)%nat).
  - rewrite lookup_app_l in Hi by lia. rewrite Nat.div_small, Nat.mod_small by done. by exists l.
  - rewrite lookup_app_r in Hi by lia. rewrite Hl in Hi. destruct (IH _ Hi) as (l' & H1 & H2).
    exists l'. replace i with ((i - k) + 1 * k)%nat at 1 2 by lia.
    rewrite Nat.div_add, Nat.Div0.mod_add by lia. split; [|done].
    by rewrite Nat.add_1_r.
Qed.

Lemma length_concat_uniform {A} (ls : list (list A)) k : Forall (fun l => length l = k) ls ->
  length (concat ls) = (length ls * k)%nat.
Proof. induction 1 as [|l ls Hl _ IH]; [done|]. simpl. by rewrite length_app, Hl, IH. Qed.

(** ** 32-bit words and bytes *)

Definition wrap32 (x : Z) : Z := x mod 2 ^ 32.
Definition is_u32 (x : Z) : Prop := 0 <= x < 2 ^ 32.
Definition is_byte (x : Z) : Prop := 0 <= x < 256.

#[export] Instance is_byte_dec x : Decision (is_byte x).
Proof. unfold is_byte. apply _. Defined.

(** The [n] little-endian bytes of a number, and the number of such bytes. *)
Fixpoint le_bytes (n : nat) (v : Z) : list Z :=
  match n with O => [] | S n => v mod 256 :: le_bytes n (v / 256) end.
Definition of_le (l : list Z) : Z := foldr (fun b acc => b + 256 * acc) 0 l.

Lemma of_le_app l l' : of_le (l ++ l') = of_le l + 256 ^ Z.of_nat (length l) * of_le l'.
Proof.
  induction l as [|x l IH]; simpl; [lia|]. unfold of_le in *. simpl. rewrite IH.
  rewrite Nat2Z.inj_succ, Z.pow_succ_r by lia. ring.
Qed.

Lemma le_bytes_length k v : length (le_bytes k v) = k.
Proof. revert v. induction k as [|k IH]; intros v; simpl; [done|]. by rewrite IH. Qed.

Lemma le_bytes_bytes k v : Forall is_byte (le_bytes k v).
Proof.
  revert v. induction k as [|k IH]; intros v; simpl; constructor; [|done].
  apply Z.mod_pos_bound. lia.
Qed.

Lemma of_le_range l : Forall is_byte l -> 0 <= of_le l < 256 ^ Z.of_nat (length l).
Proof.
  unfold of_le. induction 1 as [|b l Hb _ IH]; simpl; [lia|]. unfold is_byte in Hb.
  rewrite Nat2Z.inj_succ, Z.pow_succ_r by lia. lia.
Qed.

Lemma of_le_le_bytes k v : 0 <= v < 256 ^ Z.of_nat k -> of_le (le_bytes k v) = v.
Proof.
  unfold of_le. revert v. induction k as [|k IH]; intros v Hv; simpl in *; [lia|].
  rewrite Nat2Z.inj_succ, Z.pow_succ_r in Hv by lia. rewrite IH by dlia. dlia.
Qed.

Lemma le_bytes_of_le l : Forall is_byte l -> le_bytes (length l) (of_le l) = l.
Proof.
  unfold of_le. induction 1 as [|b l Hb _ IH]; simpl; [done|]. unfold is_byte in Hb.
  rewrite Z.mul_comm, Z_mod_plus_full, Z.mod_small, Z.div_add, Z.div_small, Z.add_0_l, IH by lia. done.
Qed.

(** ** Arrays of equal pieces

    [n] pieces of [k] elements, as an array of structures laid over a buffer. *)
Fixpoint chunks {A} (k n : nat) (l : list A) : list (list A) :=
  match n with O => [] | S n => take k l :: chunks k n (drop k l) end.

Lemma length_chunks {A} k n (l : list A) : length (chunks k n l) = n.
Proof. revert l. induction n as [|n IH]; intros l; simpl; [done|]. by rewrite IH. Qed.

Lemma chunks_uniform {A} k n (l : list A) : length l = (n * k)%nat -> Forall (fun c => length c = k) (chunks k n l).
Proof.
  revert l. induction n as [|n IH]; intros l Hl; simpl in *; constructor.
  - rewrite length_take. lia.
  - apply IH. rewrite length_drop. lia.
Qed.

Lemma concat_chunks {A} k n (l : list A) : length l = (n * k)%nat -> concat (chunks k n l) = l.
Proof.
  revert l. induction n as [|n IH]; intros l Hl; simpl in *; [by destruct l|].
  rewrite IH, take_drop; [done|]. rewrite length_drop. lia.
Qed.

Lemma chunks_concat {A} k n (ls : list (list A)) : length ls = n -> Forall (fun c => length c = k) ls ->
  chunks k n (concat ls) = ls.
Proof.
  intros <-. induction 1 as [|l ls Hl _ IH]; simpl; [done|].
  by rewrite take_app_length', drop_app_length', IH.
Qed.

Lemma chunks_app {A} k n m (l l' : list A) : length l = (n * k)%nat ->
  chunks k (n + m) (l ++ l') = chunks k n l ++ chunks k m l'.
Proof.
  revert l. induction n as [|n IH]; intros l Hl; simpl in *; [by destruct l|].
  rewrite take_app_le, drop_app_le, IH by (rewrite ?length_drop; lia). done.
Qed.

Lemma chunks_Forall {A} (P : A -> Prop) k n l : Forall P l -> Forall (Forall P) (chunks k n l).
Proof.
  revert l. induction n as [|n IH]; intros l Hl; simpl; constructor; [by apply Forall_take|].
  by apply IH, Forall_drop.
Qed.

(** A buffer read as 64-bit words, and its bytes. *)
Definition u64s_of (l : list Z) : list Z := map of_le (chunks 8 (length l / 8) l).
Definition bytes_of (ws : list Z) : list Z := concat (map (le_bytes 8) ws).

Lemma bytes_of_length ws : length (bytes_of ws) = (length ws * 8)%nat.
Proof.
  unfold bytes_of. rewrite (length_concat_uniform _ 8), length_map; [done|].
  apply Forall_map, Forall_true. intros w. apply le_bytes_length.
Qed.

Lemma bytes_of_bytes ws : Forall is_byte (bytes_of ws).
Proof. apply Forall_concat, Forall_map, Forall_true. intros w. apply le_bytes_bytes. Qed.

Lemma u64s_of_length l : length (u64s_of l) = (length l / 8)%nat.
Proof. unfold u64s_of. by rewrite length_map, length_chunks. Qed.

Lemma u64s_of_u64 l : Forall is_byte l -> Forall is_u64 (u64s_of l).
Proof.
  intros Hl. apply Forall_map, Forall_forall. intros c Hc.
  pose proof (proj1 (Forall_forall _ _) (chunks_Forall _ 8 (length l / 8) l Hl) c Hc) as Hb.
  pose proof (of_le_range c Hb). simpl. unfold is_u64.
  assert (length c <= 8)%nat.
  { clear Hb H Hl. revert Hc. generalize (length l / 8)%nat as n. intros n. revert l. induction n as [|n IH]; intros l; simpl; [by intros ?%not_elem_of_nil|].
    intros [->|Hc]%elem_of_cons; [rewrite length_take; lia|by eapply IH]. }
  pose proof (Z.pow_le_mono_r 256 (Z.of_nat (length c)) 8). change (2 ^ 64) with (256 ^ 8). lia.
Qed.

Lemma bytes_of_u64s_of l : Forall is_byte l -> (length l mod 8 = 0)%nat -> bytes_of (u64s_of l) = l.
Proof.
  intros Hb Hl. assert (Hn : length l = (length l / 8 * 8)%nat) by (pose proof (Nat.div_mod_eq (length l) 8); lia).
  transitivity (concat (chunks 8 (length l / 8) l)); [|by apply concat_chunks].
  unfold bytes_of, u64s_of. rewrite map_map. f_equal.
  rewrite <- (map_id (chunks 8 _ l)) at 2. apply map_ext_Forall.
  pose proof (chunks_uniform 8 _ l Hn) as Hu. pose proof (chunks_Forall _ 8 (length l / 8) l Hb) as Hf.
  apply Forall_forall. intros c Hc. rewrite Forall_forall in Hu, Hf.
  rewrite <- (Hu c Hc). by apply le_bytes_of_le, Hf.
Qed.

Lemma u64s_of_bytes_of ws : Forall is_u64 ws -> u64s_of (bytes_of ws) = ws.
Proof.
  intros Hw. unfold u64s_of. rewrite bytes_of_length, Nat.div_mul by done. unfold bytes_of.
  rewrite chunks_concat; [|by rewrite length_map|apply Forall_map, Forall_true; intros; apply le_bytes_length].
  rewrite map_map. rewrite <- (map_id ws) at 2. apply map_ext_Forall.
  eapply Forall_impl; [exact Hw|]. intros w Hr. by apply of_le_le_bytes.
Qed.

Lemma u64s_of_app l l' : (length l mod 8 = 0)%nat -> u64s_of (l ++ l') = u64s_of l ++ u64s_of l'.
Proof.
  intros Hl. assert (Hn : length l = (length l / 8 * 8)%nat) by (pose proof (Nat.div_mod_eq (length l) 8); lia).
  unfold u64s_of. rewrite <- map_app, <- chunks_app by done. do 2 f_equal.
  rewrite length_app, Hn, Nat.add_comm, Nat.div_add by done. rewrite Nat.div_mul by done. lia.
Qed.

Lemma bytes_of_app ws ws' : bytes_of (ws ++ ws') = bytes_of ws ++ bytes_of ws'.
Proof. unfold bytes_of. by rewrite map_app, concat_app. Qed.

Lemma bytes_of_inj ws ws' : Forall is_u64 ws -> Forall is_u64 ws' -> bytes_of ws = bytes_of ws' -> ws = ws'.
Proof. intros H H' E. by rewrite <- (u64s_of_bytes_of ws H), <- (u64s_of_bytes_of ws' H'), E. Qed.
