(* ===== verification/Errors.v ===== *)
(** * Error codes and results ([c/util/error.h])

    The enumeration [error_t] with the numeric value of each enumerator, and
    the result type of the functions that return an error code and fill in out
    parameters on success.  [RETURN_IF_ERROR] is the bind of that type. *)

From S2P Require Import Prelude.
Local Open Scope Z_scope.

(** The enumerators, in the order of the header.  A C enumeration object can
    hold an integer that no enumerator names ([noise_errort] builds such codes
    by adding a library code to the base of an error space): [err_code]. *)
Inductive error_t : Type :=
  | err_SUCCESS
  | err_OOM
  | err_ENCLAVE__GENERAL__
  | err_ENCLAVE__GENERAL__LOAD_MODULE_HOST_FILE_SYSTEM
  | err_ENCLAVE__GENERAL__MOUNT_ROOT
  | err_ENCLAVE__GENERAL__SIGNAL_RECORD_SIZE_INVALID
  | err_ENCLAVE__GENERAL__CLIENT_STATE
  | err_ENCLAVE__GENERAL__GET_EVIDENCE
  | err_ENCLAVE__GENERAL__EREPORT_SIZE
  | err_ENCLAVE__GENERAL__ENTROPY
  | err_ENCLAVE__GENERAL__INVALID_PRIVATE_KEY
  | err_ENCLAVE__GENERAL__REINIT
  | err_ENCLAVE__GENERAL__EREPORT_PB_NEW
  | err_ENCLAVE__GENERAL__EREPORT_PB_ENCODE
  | err_ENCLAVE__GENERAL__OE_ATTESTER_INITIALIZE
  | err_ENCLAVE__GENERAL__OE_SERIALIZE_CUSTOM_CLAIMS
  | err_ENCLAVE__GENERAL__BUFFER_TOO_SMALL
  | err_ENCLAVE__GENERAL__INVALID_LOAD_FACTOR
  | err_ENCLAVE__GENERAL__CLIENT_ADD_FAILED
  | err_ENCLAVE__GENERAL__CLIENT_GET_FAILED
  | err_ENCLAVE__GENERAL__CLIENT_REMOVE_FAILED
  | err_ENCLAVE__GENERAL__CLIENT_LOCK_FAILED
  | err_ENCLAVE__GENERAL__NOINIT
  | err_ENCLAVE__GENERAL__OE_ATTESTER_SELECT_FORMAT
  | err_ENCLAVE__LOADPB__
  | err_ENCLAVE__LOADPB__REQUEST_PB_NEW
  | err_ENCLAVE__LOADPB__SECRET_TOO_LARGE
  | err_ENCLAVE__LOADPB__TUPLES_INVALID
  | err_ENCLAVE__LOADPB__REQUEST_PB_DECODE
  | err_ENCLAVE__NEWCLIENT__
  | err_ENCLAVE__NEWCLIENT__EREPORT_TOO_LARGE
  | err_ENCLAVE__NEWCLIENT__LOCK_INIT_FAILED
  | err_ENCLAVE__RATELIMIT__
  | err_ENCLAVE__RATELIMIT__REQUEST_PB_NEW
  | err_ENCLAVE__RATELIMIT__RESPONSE_PB_NEW
  | err_ENCLAVE__RATELIMIT__INVALID_TOKEN
  | err_ENCLAVE__RATELIMIT__INVALID_E164S
  | err_ENCLAVE__RATELIMIT__MERGE_FAILED
  | err_ENCLAVE__RATELIMIT__MERGE_NOT_SORTED
  | err_ENCLAVE__RATELIMIT__BAD_OUTPUT
  | err_ENCLAVE__RATELIMIT__NO_TOKEN
  | err_ENCLAVE__RATELIMIT__UNSUPPORTED_VERSION
  | err_ENCLAVE__RATELIMIT__REQUEST_PB_DECODE
  | err_ENCLAVE__RATELIMIT__RESPONSE_PB_ENCODE
  | err_ENCLAVE__RATELIMIT__REQUEST_PB_INVALID
  | err_ENCLAVE__RATELIMIT__INVALID_TOKEN_FORMAT
  | err_ENCLAVE__RUN__
  | err_ENCLAVE__RUN__INVALID_CLIENT
  | err_ENCLAVE__RUN__REQUEST_PB_NEW
  | err_ENCLAVE__RUN__NO_TOKEN_ACK
  | err_ENCLAVE__RUN__INDEX_PAIRS
  | err_ENCLAVE__RUN__RESPONSE_PB_NEW
  | err_ENCLAVE__RUN__REQUEST_PB_DECODE
  | err_ENCLAVE__RUN__RESPONSE_PB_ENCODE
  | err_ENCLAVE__HANDSHAKE__
  | err_ENCLAVE__HANDSHAKE__INVALID_STATE
  | err_ENCLAVE__HANDSHAKE__EXTRACT_PUBKEY_PB
  | err_ENCLAVE__HANDSHAKE__EXTRACT_PUBKEY_VERIFICATION
  | err_FIXEDSET__
  | err_FIXEDSET__RESIZE_INVALID
  | err_ORAM__
  | err_ORAM__PUT_FAILURE
  | err_ORAM__GET_FAILURE
  | err_ORAM__ACCESS_UNALLOCATED_BLOCK
  | err_ORAM__POSITION_MAP_NOT_FOUND
  | err_ORAM__STASH_NOT_FOUND
  | err_ORAM__STASH_EXHAUSTION
  | err_OHTABLE__
  | err_OHTABLE__PUT__FAILURE
  | err_OHTABLE__GET__FAILURE
  | err_OHTABLE__ROBIN_HOOD_UPSERT__RECORD_EMPTY
  | err_OHTABLE__TABLE_FULL
  | err_ENCLAVE__RETRYRESPONSE__DEPRECATED__
  | err_JNISHIM__
  | err_JNISHIM__CREATE_ENCLAVE
  | err_JNISHIM__INIT_ENCLAVE
  | err_JNISHIM__METHOD_CALL_FAILURE
  | err_QUEUE__
  | err_QUEUE__CLOSED
  | err_SHARD__
  | err_SHARD__DESTROYING
  | err_SHARD__ALREADY_RUNNING
  | err_SHARD__NOT_RUNNING
  | err_ENCLAVE__TABLE_STATISTICS__
  | err_ENCLAVE__TABLE_STATISTICS__RESPONSE_PB_NEW
  | err_ENCLAVE__TABLE_STATISTICS__RESPONSE_PB_ENCODE
  | err_ENCLAVE__TABLE_STATISTICS__RESPONSE_PB_ALLOC_SHARDS
  | err_ENCLAVE__TABLE_STATISTICS__RESPONSE_PB_ALLOC_VALUES
  | err_TEST__
  | err_TEST__ASSERTION
  | err_HOST__
  | err_HOST__GENERAL__
  | err_HOST__GENERAL_OE_ERROR
  | err_HOST__LOADPB__
  | err_HOST__LOADPB__REQUEST_PB
  | err_HOST__LOADPB__TOO_MANY_SAMPLES
  | err_HOST__LOADPB__ENCLAVE_CALL
  | err_HOST__NEWCLIENT__
  | err_HOST__NEWCLIENT__NOISE_HANDSHAKE_NEW
  | err_HOST__RATELIMIT__
  | err_HOST__RATELIMIT__REQUEST_PB
  | err_HOST__RATELIMIT__RESPONSE_ENCODE
  | err_HOST__RATELIMIT__ENCRYPT
  | err_HOST__RATELIMIT__DECRYPT
  | err_HOST__RATELIMIT__CALL_ENCLAVE
  | err_HOST__RUN__
  | err_HOST__RUN__DECRYPT
  | err_HOST__RUN__REQUEST_PB
  | err_HOST__RUN__RESPONSE_PB
  | err_HOST__RUN__ENCRYPT
  | err_HOST__RUN__CALL_ENCLAVE
  | err_HOST__HANDSHAKE__
  | err_HOST__HANDSHAKE__NEW
  | err_HOST__HANDSHAKE__START
  | err_HOST__HANDSHAKE__INVALID_STATE
  | err_HOST__HANDSHAKE__READ
  | err_HOST__HANDSHAKE__WRITE
  | err_HOST__HANDSHAKE__SPLIT
  | err_HOST__HANDSHAKE__CALL_ENCLAVE
  | err_HOST__HANDSHAKE__INITIALIZE_VERIFIER
  | err_HOST__HANDSHAKE__INVALID_REPORT
  | err_HOST__HANDSHAKE__INVALID_CLAIMS
  | err_HOST__TABLE_STATISTICS__
  | err_HOST__TABLE_STATISTICS__PB_NEW
  | err_HOST__TABLE_STATISTICS__PB_DECODE
  | err_NOISE__CIPHERSTATE__ENCRYPT__
  | err_NOISE__CIPHERSTATE__DECRYPT__
  | err_NOISE__HANDSHAKESTATE__NEW__
  | err_NOISE__HANDSHAKESTATE__READ__
  | err_NOISE__HANDSHAKESTATE__WRITE__
  | err_NOISE__HANDSHAKESTATE__SPLIT__
  | err_NOISE__HANDSHAKESTATE__START__
  | err_NOISE__DHSTATE__NEW__
  | err_NOISE__DHSTATE__GET_PUBLIC_KEY__
  | err_NOISE__DHSTATE__SET_KEYPAIR_PRIVATE__
  | err_NOISE__DHSTATE__SET_PUBLIC_KEY__
  | err_code (z : Z).

Definition error_code (e : error_t) : Z :=
  match e with
  | err_SUCCESS => 0
  | err_OOM => 1
  | err_ENCLAVE__GENERAL__ => 100
  | err_ENCLAVE__GENERAL__LOAD_MODULE_HOST_FILE_SYSTEM => 101
  | err_ENCLAVE__GENERAL__MOUNT_ROOT => 102
  | err_ENCLAVE__GENERAL__SIGNAL_RECORD_SIZE_INVALID => 103
  | err_ENCLAVE__GENERAL__CLIENT_STATE => 104
  | err_ENCLAVE__GENERAL__GET_EVIDENCE => 105
  | err_ENCLAVE__GENERAL__EREPORT_SIZE => 106
  | err_ENCLAVE__GENERAL__ENTROPY => 107
  | err_ENCLAVE__GENERAL__INVALID_PRIVATE_KEY => 108
  | err_ENCLAVE__GENERAL__REINIT => 109
  | err_ENCLAVE__GENERAL__EREPORT_PB_NEW => 110
  | err_ENCLAVE__GENERAL__EREPORT_PB_ENCODE => 111
  | err_ENCLAVE__GENERAL__OE_ATTESTER_INITIALIZE => 112
  | err_ENCLAVE__GENERAL__OE_SERIALIZE_CUSTOM_CLAIMS => 113
  | err_ENCLAVE__GENERAL__BUFFER_TOO_SMALL => 114
  | err_ENCLAVE__GENERAL__INVALID_LOAD_FACTOR => 115
  | err_ENCLAVE__GENERAL__CLIENT_ADD_FAILED => 116
  | err_ENCLAVE__GENERAL__CLIENT_GET_FAILED => 117
  | err_ENCLAVE__GENERAL__CLIENT_REMOVE_FAILED => 118
  | err_ENCLAVE__GENERAL__CLIENT_LOCK_FAILED => 119
  | err_ENCLAVE__GENERAL__NOINIT => 120
  | err_ENCLAVE__GENERAL__OE_ATTESTER_SELECT_FORMAT => 121
  | err_ENCLAVE__LOADPB__ => 200
  | err_ENCLAVE__LOADPB__REQUEST_PB_NEW => 201
  | err_ENCLAVE__LOADPB__SECRET_TOO_LARGE => 202
  | err_ENCLAVE__LOADPB__TUPLES_INVALID => 203
  | err_ENCLAVE__LOADPB__REQUEST_PB_DECODE => 204
  | err_ENCLAVE__NEWCLIENT__ => 300
  | err_ENCLAVE__NEWCLIENT__EREPORT_TOO_LARGE => 301
  | err_ENCLAVE__NEWCLIENT__LOCK_INIT_FAILED => 302
  | err_ENCLAVE__RATELIMIT__ => 400
  | err_ENCLAVE__RATELIMIT__REQUEST_PB_NEW => 401
  | err_ENCLAVE__RATELIMIT__RESPONSE_PB_NEW => 402
  | err_ENCLAVE__RATELIMIT__INVALID_TOKEN => 403
  | err_ENCLAVE__RATELIMIT__INVALID_E164S => 404
  | err_ENCLAVE__RATELIMIT__MERGE_FAILED => 405
  | err_ENCLAVE__RATELIMIT__MERGE_NOT_SORTED => 406
  | err_ENCLAVE__RATELIMIT__BAD_OUTPUT => 407
  | err_ENCLAVE__RATELIMIT__NO_TOKEN => 408
  | err_ENCLAVE__RATELIMIT__UNSUPPORTED_VERSION => 409
  | err_ENCLAVE__RATELIMIT__REQUEST_PB_DECODE => 410
  | err_ENCLAVE__RATELIMIT__RESPONSE_PB_ENCODE => 411
  | err_ENCLAVE__RATELIMIT__REQUEST_PB_INVALID => 412
  | err_ENCLAVE__RATELIMIT__INVALID_TOKEN_FORMAT => 413
  | err_ENCLAVE__RUN__ => 500
  | err_ENCLAVE__RUN__INVALID_CLIENT => 501
  | err_ENCLAVE__RUN__REQUEST_PB_NEW => 502
  | err_ENCLAVE__RUN__NO_TOKEN_ACK => 503
  | err_ENCLAVE__RUN__INDEX_PAIRS => 504
  | err_ENCLAVE__RUN__RESPONSE_PB_NEW => 505
  | err_ENCLAVE__RUN__REQUEST_PB_DECODE => 506
  | err_ENCLAVE__RUN__RESPONSE_PB_ENCODE => 507
  | err_ENCLAVE__HANDSHAKE__ => 600
  | err_ENCLAVE__HANDSHAKE__INVALID_STATE => 601
  | err_ENCLAVE__HANDSHAKE__EXTRACT_PUBKEY_PB => 602
  | err_ENCLAVE__HANDSHAKE__EXTRACT_PUBKEY_VERIFICATION => 603
  | err_FIXEDSET__ => 700
  | err_FIXEDSET__RESIZE_INVALID => 701
  | err_ORAM__ => 800
  | err_ORAM__PUT_FAILURE => 801
  | err_ORAM__GET_FAILURE => 802
  | err_ORAM__ACCESS_UNALLOCATED_BLOCK => 803
  | err_ORAM__POSITION_MAP_NOT_FOUND => 804
  | err_ORAM__STASH_NOT_FOUND => 805
  | err_ORAM__STASH_EXHAUSTION => 806
  | err_OHTABLE__ => 900
  | err_OHTABLE__PUT__FAILURE => 901
  | err_OHTABLE__GET__FAILURE => 902
  | err_OHTABLE__ROBIN_HOOD_UPSERT__RECORD_EMPTY => 903
  | err_OHTABLE__TABLE_FULL => 904
  | err_ENCLAVE__RETRYRESPONSE__DEPRECATED__ => 1000
  | err_JNISHIM__ => 1100
  | err_JNISHIM__CREATE_ENCLAVE => 1101
  | err_JNISHIM__INIT_ENCLAVE => 1102
  | err_JNISHIM__METHOD_CALL_FAILURE => 1103
  | err_QUEUE__ => 1200
  | err_QUEUE__CLOSED => 1201
  | err_SHARD__ => 1300
  | err_SHARD__DESTROYING => 1301
  | err_SHARD__ALREADY_RUNNING => 1302
  | err_SHARD__NOT_RUNNING => 1303
  | err_ENCLAVE__TABLE_STATISTICS__ => 1400
  | err_ENCLAVE__TABLE_STATISTICS__RESPONSE_PB_NEW => 1401
  | err_ENCLAVE__TABLE_STATISTICS__RESPONSE_PB_ENCODE => 1402
  | err_ENCLAVE__TABLE_STATISTICS__RESPONSE_PB_ALLOC_SHARDS => 1403
  | err_ENCLAVE__TABLE_STATISTICS__RESPONSE_PB_ALLOC_VALUES => 1404
  | err_TEST__ => 1000000
  | err_TEST__ASSERTION => 1000001
  | err_HOST__ => 2000000
  | err_HOST__GENERAL__ => 2000100
  | err_HOST__GENERAL_OE_ERROR => 2000101
  | err_HOST__LOADPB__ => 2000200
  | err_HOST__LOADPB__REQUEST_PB => 2000201
  | err_HOST__LOADPB__TOO_MANY_SAMPLES => 2000202
  | err_HOST__LOADPB__ENCLAVE_CALL => 2000203
  | err_HOST__NEWCLIENT__ => 2000300
  | err_HOST__NEWCLIENT__NOISE_HANDSHAKE_NEW => 2000301
  | err_HOST__RATELIMIT__ => 2000400
  | err_HOST__RATELIMIT__REQUEST_PB => 2000401
  | err_HOST__RATELIMIT__RESPONSE_ENCODE => 2000402
  | err_HOST__RATELIMIT__ENCRYPT => 2000403
  | err_HOST__RATELIMIT__DECRYPT => 2000404
  | err_HOST__RATELIMIT__CALL_ENCLAVE => 2000405
  | err_HOST__RUN__ => 2000500
  | err_HOST__RUN__DECRYPT => 2000501
  | err_HOST__RUN__REQUEST_PB => 2000502
  | err_HOST__RUN__RESPONSE_PB => 2000503
  | err_HOST__RUN__ENCRYPT => 2000504
  | err_HOST__RUN__CALL_ENCLAVE => 2000505
  | err_HOST__HANDSHAKE__ => 2000600
  | err_HOST__HANDSHAKE__NEW => 2000601
  | err_HOST__HANDSHAKE__START => 2000602
  | err_HOST__HANDSHAKE__INVALID_STATE => 2000603
  | err_HOST__HANDSHAKE__READ => 2000604
  | err_HOST__HANDSHAKE__WRITE => 2000605
  | err_HOST__HANDSHAKE__SPLIT => 2000606
  | err_HOST__HANDSHAKE__CALL_ENCLAVE => 2000607
  | err_HOST__HANDSHAKE__INITIALIZE_VERIFIER => 2000608
  | err_HOST__HANDSHAKE__INVALID_REPORT => 2000609
  | err_HOST__HANDSHAKE__INVALID_CLAIMS => 2000610
  | err_HOST__TABLE_STATISTICS__ => 2000700
  | err_HOST__TABLE_STATISTICS__PB_NEW => 2000701
  | err_HOST__TABLE_STATISTICS__PB_DECODE => 2000702
  | err_NOISE__CIPHERSTATE__ENCRYPT__ => 3001000
  | err_NOISE__CIPHERSTATE__DECRYPT__ => 3001100
  | err_NOISE__HANDSHAKESTATE__NEW__ => 3001200
  | err_NOISE__HANDSHAKESTATE__READ__ => 3001300
  | err_NOISE__HANDSHAKESTATE__WRITE__ => 3001400
  | err_NOISE__HANDSHAKESTATE__SPLIT__ => 3001500
  | err_NOISE__HANDSHAKESTATE__START__ => 3001600
  | err_NOISE__DHSTATE__NEW__ => 3001700
  | err_NOISE__DHSTATE__GET_PUBLIC_KEY__ => 3001800
  | err_NOISE__DHSTATE__SET_KEYPAIR_PRIVATE__ => 3001900
  | err_NOISE__DHSTATE__SET_PUBLIC_KEY__ => 3002000
  | err_code z => z
  end.

(** The named enumerators. *)
Definition error_names : list error_t :=
  [err_SUCCESS;
   err_OOM;
   err_ENCLAVE__GENERAL__;
   err_ENCLAVE__GENERAL__LOAD_MODULE_HOST_FILE_SYSTEM;
   err_ENCLAVE__GENERAL__MOUNT_ROOT;
   err_ENCLAVE__GENERAL__SIGNAL_RECORD_SIZE_INVALID;
   err_ENCLAVE__GENERAL__CLIENT_STATE;
   err_ENCLAVE__GENERAL__GET_EVIDENCE;
   err_ENCLAVE__GENERAL__EREPORT_SIZE;
   err_ENCLAVE__GENERAL__ENTROPY;
   err_ENCLAVE__GENERAL__INVALID_PRIVATE_KEY;
   err_ENCLAVE__GENERAL__REINIT;
   err_ENCLAVE__GENERAL__EREPORT_PB_NEW;
   err_ENCLAVE__GENERAL__EREPORT_PB_ENCODE;
   err_ENCLAVE__GENERAL__OE_ATTESTER_INITIALIZE;
   err_ENCLAVE__GENERAL__OE_SERIALIZE_CUSTOM_CLAIMS;
   err_ENCLAVE__GENERAL__BUFFER_TOO_SMALL;
   err_ENCLAVE__GENERAL__INVALID_LOAD_FACTOR;
   err_ENCLAVE__GENERAL__CLIENT_ADD_FAILED;
   err_ENCLAVE__GENERAL__CLIENT_GET_FAILED;
   err_ENCLAVE__GENERAL__CLIENT_REMOVE_FAILED;
   err_ENCLAVE__GENERAL__CLIENT_LOCK_FAILED;
   err_ENCLAVE__GENERAL__NOINIT;
   err_ENCLAVE__GENERAL__OE_ATTESTER_SELECT_FORMAT;
   err_ENCLAVE__LOADPB__;
   err_ENCLAVE__LOADPB__REQUEST_PB_NEW;
   err_ENCLAVE__LOADPB__SECRET_TOO_LARGE;
   err_ENCLAVE__LOADPB__TUPLES_INVALID;
   err_ENCLAVE__LOADPB__REQUEST_PB_DECODE;
   err_ENCLAVE__NEWCLIENT__;
   err_ENCLAVE__NEWCLIENT__EREPORT_TOO_LARGE;
   err_ENCLAVE__NEWCLIENT__LOCK_INIT_FAILED;
   err_ENCLAVE__RATELIMIT__;
   err_ENCLAVE__RATELIMIT__REQUEST_PB_NEW;
   err_ENCLAVE__RATELIMIT__RESPONSE_PB_NEW;
   err_ENCLAVE__RATELIMIT__INVALID_TOKEN;
   err_ENCLAVE__RATELIMIT__INVALID_E164S;
   err_ENCLAVE__RATELIMIT__MERGE_FAILED;
   err_ENCLAVE__RATELIMIT__MERGE_NOT_SORTED;
   err_ENCLAVE__RATELIMIT__BAD_OUTPUT;
   err_ENCLAVE__RATELIMIT__NO_TOKEN;
   err_ENCLAVE__RATELIMIT__UNSUPPORTED_VERSION;
   err_ENCLAVE__RATELIMIT__REQUEST_PB_DECODE;
   err_ENCLAVE__RATELIMIT__RESPONSE_PB_ENCODE;
   err_ENCLAVE__RATELIMIT__REQUEST_PB_INVALID;
   err_ENCLAVE__RATELIMIT__INVALID_TOKEN_FORMAT;
   err_ENCLAVE__RUN__;
   err_ENCLAVE__RUN__INVALID_CLIENT;
   err_ENCLAVE__RUN__REQUEST_PB_NEW;
   err_ENCLAVE__RUN__NO_TOKEN_ACK;
   err_ENCLAVE__RUN__INDEX_PAIRS;
   err_ENCLAVE__RUN__RESPONSE_PB_NEW;
   err_ENCLAVE__RUN__REQUEST_PB_DECODE;
   err_ENCLAVE__RUN__RESPONSE_PB_ENCODE;
   err_ENCLAVE__HANDSHAKE__;
   err_ENCLAVE__HANDSHAKE__INVALID_STATE;
   err_ENCLAVE__HANDSHAKE__EXTRACT_PUBKEY_PB;
   err_ENCLAVE__HANDSHAKE__EXTRACT_PUBKEY_VERIFICATION;
   err_FIXEDSET__;
   err_FIXEDSET__RESIZE_INVALID;
   err_ORAM__;
   err_ORAM__PUT_FAILURE;
   err_ORAM__GET_FAILURE;
   err_ORAM__ACCESS_UNALLOCATED_BLOCK;
   err_ORAM__POSITION_MAP_NOT_FOUND;
   err_ORAM__STASH_NOT_FOUND;
   err_ORAM__STASH_EXHAUSTION;
   err_OHTABLE__;
   err_OHTABLE__PUT__FAILURE;
   err_OHTABLE__GET__FAILURE;
   err_OHTABLE__ROBIN_HOOD_UPSERT__RECORD_EMPTY;
   err_OHTABLE__TABLE_FULL;
   err_ENCLAVE__RETRYRESPONSE__DEPRECATED__;
   err_JNISHIM__;
   err_JNISHIM__CREATE_ENCLAVE;
   err_JNISHIM__INIT_ENCLAVE;
   err_JNISHIM__METHOD_CALL_FAILURE;
   err_QUEUE__;
   err_QUEUE__CLOSED;
   err_SHARD__;
   err_SHARD__DESTROYING;
   err_SHARD__ALREADY_RUNNING;
   err_SHARD__NOT_RUNNING;
   err_ENCLAVE__TABLE_STATISTICS__;
   err_ENCLAVE__TABLE_STATISTICS__RESPONSE_PB_NEW;
   err_ENCLAVE__TABLE_STATISTICS__RESPONSE_PB_ENCODE;
   err_ENCLAVE__TABLE_STATISTICS__RESPONSE_PB_ALLOC_SHARDS;
   err_ENCLAVE__TABLE_STATISTICS__RESPONSE_PB_ALLOC_VALUES;
   err_TEST__;
   err_TEST__ASSERTION;
   err_HOST__;
   err_HOST__GENERAL__;
   err_HOST__GENERAL_OE_ERROR;
   err_HOST__LOADPB__;
   err_HOST__LOADPB__REQUEST_PB;
   err_HOST__LOADPB__TOO_MANY_SAMPLES;
   err_HOST__LOADPB__ENCLAVE_CALL;
   err_HOST__NEWCLIENT__;
   err_HOST__NEWCLIENT__NOISE_HANDSHAKE_NEW;
   err_HOST__RATELIMIT__;
   err_HOST__RATELIMIT__REQUEST_PB;
   err_HOST__RATELIMIT__RESPONSE_ENCODE;
   err_HOST__RATELIMIT__ENCRYPT;
   err_HOST__RATELIMIT__DECRYPT;
   err_HOST__RATELIMIT__CALL_ENCLAVE;
   err_HOST__RUN__;
   err_HOST__RUN__DECRYPT;
   err_HOST__RUN__REQUEST_PB;
   err_HOST__RUN__RESPONSE_PB;
   err_HOST__RUN__ENCRYPT;
   err_HOST__RUN__CALL_ENCLAVE;
   err_HOST__HANDSHAKE__;
   err_HOST__HANDSHAKE__NEW;
   err_HOST__HANDSHAKE__START;
   err_HOST__HANDSHAKE__INVALID_STATE;
   err_HOST__HANDSHAKE__READ;
   err_HOST__HANDSHAKE__WRITE;
   err_HOST__HANDSHAKE__SPLIT;
   err_HOST__HANDSHAKE__CALL_ENCLAVE;
   err_HOST__HANDSHAKE__INITIALIZE_VERIFIER;
   err_HOST__HANDSHAKE__INVALID_REPORT;
   err_HOST__HANDSHAKE__INVALID_CLAIMS;
   err_HOST__TABLE_STATISTICS__;
   err_HOST__TABLE_STATISTICS__PB_NEW;
   err_HOST__TABLE_STATISTICS__PB_DECODE;
   err_NOISE__CIPHERSTATE__ENCRYPT__;
   err_NOISE__CIPHERSTATE__DECRYPT__;
   err_NOISE__HANDSHAKESTATE__NEW__;
   err_NOISE__HANDSHAKESTATE__READ__;
   err_NOISE__HANDSHAKESTATE__WRITE__;
   err_NOISE__HANDSHAKESTATE__SPLIT__;
   err_NOISE__HANDSHAKESTATE__START__;
   err_NOISE__DHSTATE__NEW__;
   err_NOISE__DHSTATE__GET_PUBLIC_KEY__;
   err_NOISE__DHSTATE__SET_KEYPAIR_PRIVATE__;
   err_NOISE__DHSTATE__SET_PUBLIC_KEY__].

Definition is_named (e : error_t) : bool :=
  match e with err_code _ => false | _ => true end.

(** [if (_x != err_SUCCESS)] *)
Definition is_success (e : error_t) : bool := error_code e =? 0.

(** The outcome of a function that returns [error_t] and has out parameters. *)
Inductive result (A : Type) : Type :=
  | Ok (a : A)
  | Err (e : error_t).
Arguments Ok {A} a.
Arguments Err {A} e.

Definition rbind {A B} (m : result A) (k : A -> result B) : result B :=
  match m with Ok a => k a | Err e => Err e end.

Notation "'let?' x := m 'in' k" := (rbind m (fun x => k))
  (at level 10, x pattern, m at level 100, k at level 200).

(** [ASSERT_ERR(x, err)] *)
Definition assert_err (b : bool) (e : error_t) : result unit := if b then Ok tt else Err e.

Lemma rbind_ok {A B} (m : result A) (k : A -> result B) b :
  rbind m k = Ok b <-> exists a, m = Ok a /\ k a = Ok b.
Proof.
  destruct m as [a|e]; simpl; split.
  - intros H. by exists a.
  - by intros (a' & [= ->] & H).
  - discriminate.
  - by intros (a' & H & _).
Qed.

Lemma error_names_codes_NoDup : NoDup (map error_code error_names).
Proof. apply (bool_decide_unpack _). vm_compute. exact I. Qed.

Lemma named_in e : is_named e = true -> e ∈ error_names.
Proof. destruct e; intros; try discriminate; repeat constructor. Qed.

(** No two enumerators share a value, so a code names at most one error. *)
Lemma named_code_inj x y :
  is_named x = true -> is_named y = true -> error_code x = error_code y -> x = y.
Proof.
  intros Hx%named_in Hy%named_in E.
  apply list_elem_of_lookup in Hx as [i Hi]. apply list_elem_of_lookup in Hy as [j Hj].
  assert (i = j) as ->; [|congruence].
  eapply (NoDup_lookup _ i j (error_code x) error_names_codes_NoDup);
    rewrite list_lookup_fmap; [by rewrite Hi|by rewrite Hj, E].
Qed.

#[export] Instance error_t_eq_dec : EqDecision error_t.
Proof.
  refine (fun x y => match decide (error_code x = error_code y) with
    | left E => _ | right N => right (fun H => N (f_equal error_code H)) end).
  destruct (is_named x) eqn:Ex, (is_named y) eqn:Ey.
  - left. exact (named_code_inj _ _ Ex Ey E).
  - right. intros ->. congruence.
  - right. intros ->. congruence.
  - left. destruct x; try discriminate Ex. destruct y; try discriminate Ey. simpl in E. congruence.
Defined.

(** ** Property *)

(** The named error codes are pairwise distinct as integers, so a caller
    that sees a code knows which error was meant, and only [err_SUCCESS] among
    them counts as success. *)
Theorem error_codes_distinct x y :
  is_named x = true -> is_named y = true -> error_code x = error_code y -> x = y.
Proof. apply named_code_inj. Qed.

Lemma error_codes_distinct_witness :
  is_named err_ORAM__STASH_EXHAUSTION = true /\ error_code err_ORAM__STASH_EXHAUSTION <> error_code err_SUCCESS.
Proof.
  split; [reflexivity|]. intros H.
  pose proof (error_codes_distinct err_ORAM__STASH_EXHAUSTION err_SUCCESS eq_refl eq_refl H) as E. discriminate.
Defined.
