(* ===== verification/Util.v ===== *)
(** * Arithmetic helpers ([c/util/util.h], [c/util/uint128div.c])

    Constant-time selection, integer logarithms, the 128-by-64 division of
    Knuth's algorithm D and the division by an invariant divisor of Granlund
    and Montgomery that the ORAM, the hash table and the shards use instead of
    the variable-time division instruction. *)

From S2P Require Import Prelude.
Local Open Scope Z_scope.

(** ** Definitions *)

(** [while (n > 1) { n >>= 1; result += 1; }]; a 64-bit [n] leaves the loop
    after at most 64 rounds. *)
Fixpoint floor_log2_loop (fuel : nat) (n result : Z) : Z :=
  match fuel with
  | O => result
  | S fuel => if n >? 1 then floor_log2_loop fuel (n [>>] 1) (result [+] 1) else result
  end.
Definition floor_log2 (n : Z) : Z := floor_log2_loop 64 n 0.

Definition ceil_log2 (n : Z) : Z :=
  let floor := floor_log2 n in
  if n >? 1 [<<] floor then floor [+] 1 else floor.

(** [boolval != false] as the integer the macro subtracts and adds. *)
Definition b2z (b : bool) : Z := if b then 1 else 0.

Definition U64_TERNARY (boolval : bool) (u64true u64false : Z) : Z :=
  Z.lor (Z.land (0 [-] b2z boolval) u64true)
        (Z.land (UINT64_MAX [+] b2z boolval) u64false).

(** The new value of [*dest]. *)
Definition cond_obv_cpy_u64 (cond : bool) (dest src : Z) : Z := U64_TERNARY cond src dest.

(** The new values of [*a] and [*b]; [tmp] starts uninitialised, so its first
    value is an argument. *)
Definition cond_obv_swap_u64 (cond : bool) (tmp a b : Z) : Z * Z :=
  let tmp := cond_obv_cpy_u64 cond tmp a in
  let a := cond_obv_cpy_u64 cond a b in
  let b := cond_obv_cpy_u64 cond b tmp in
  (a, b).

(** [__builtin_clzll] on a non-zero 64-bit argument. *)
Definition builtin_clzll (n : Z) : Z := 63 - Z.log2 n.

Definition first_pow2_leq (n : Z) : Z :=
  let msb := 64 [-] builtin_clzll n in
  1 [<<] (msb [-] 1).

Definition muluh64 (a b : Z) : Z := Z.shiftr (a * b) 64.

(** The correction loop of one digit of algorithm D: [low] is the next digit
    of the dividend, [vs1] and [vs0] the digits of the divisor.  The loop runs
    at most twice for a normalised divisor ([correct_loop_fuel] below). *)
Fixpoint correct_loop (fuel : nat) (vs1 vs0 low qs rhat left right : Z) : Z :=
  match fuel with
  | O => qs
  | S fuel =>
      if (qs >=? 2 ^ 32) || (left >? right) then
        let qs := qs [-] 1 in
        let rhat := rhat [+] vs1 in
        if rhat <? 2 ^ 32 then
          correct_loop fuel vs1 vs0 low qs rhat (left [-] vs0)
            (Z.lor (rhat [<<] 32) low)
        else qs
      else qs
  end.

Definition divmod128by64 (u1 u0 v : Z) : Z :=
  let s := builtin_clzll v in
  let v := v [<<] s in
  let vs1 := v [>>] 32 in
  let vs0 := Z.land v 0xffffffff in
  let '(u32, u10) :=
    if s >? 0 then (Z.lor (u1 [<<] s) (u0 [>>] (64 [-] s)), u0 [<<] s) else (u1, u0) in
  let low_us1 := u10 [>>] 32 in
  let low_us0 := Z.land u10 0xffffffff in
  let qs1 := u32 / vs1 in
  let rhat := u32 mod vs1 in
  let left := qs1 [*] vs0 in
  let right := (rhat [<<] 32) [+] low_us1 in
  let qs1 := correct_loop 4 vs1 vs0 low_us1 qs1 rhat left right in
  let u21 := (u32 [<<] 32) [+] (low_us1 [-] (qs1 [*] v)) in
  let qs0 := u21 / vs1 in
  let rhat := u21 mod vs1 in
  let left := qs0 [*] vs0 in
  let right := Z.lor (rhat [<<] 32) low_us0 in
  let qs0 := correct_loop 4 vs1 vs0 low_us0 qs0 rhat left right in
  Z.lor (qs1 [<<] 32) qs0.

Definition div128by64 (u v : Z) : Z :=
  let u1 := wrap64 (Z.shiftr u 64) in
  let u2 := wrap64 (Z.land u UINT64_MAX) in
  divmod128by64 u1 u2 v.

(** [m_prime], [shift1] and [shift2], the out parameters of [prep_ct_div]. *)
Record ct_div_params := CtDiv { m_prime : Z; shift1 : Z; shift2 : Z }.

Definition prep_ct_div (d : Z) : ct_div_params :=
  let l := ceil_log2 d in
  let dividend := (2 ^ 64 * ((1 [<<] l) [-] d)) mod 2 ^ 128 in
  let q := div128by64 dividend d in
  {| m_prime := 1 [+] q;
     shift1 := if l <? 1 then l else 1;
     shift2 := if (l [-] 1) >? 0 then l [-] 1 else 0 |}.

Definition ct_div (n d : Z) (c : ct_div_params) : Z :=
  let t1 := muluh64 (m_prime c) n in
  (t1 [+] ((n [-] t1) [>>] shift1 c)) [>>] shift2 c.

Definition ct_mod (n d : Z) (c : ct_div_params) : Z :=
  let q := ct_div n d c in
  n [-] (q [*] d).

(** ** Logarithms *)

Lemma floor_log2_loop_spec fuel n r :
  1 <= n < 2 ^ (Z.of_nat fuel + 1) -> 0 <= r -> r + Z.of_nat fuel < 2 ^ 64 ->
  floor_log2_loop fuel n r = r + Z.log2 n.
Proof.
  revert n r. induction fuel as [|fuel IH]; intros n r Hn Hr Hb; cbn [floor_log2_loop].
  - assert (n = 1) as -> by (simpl in Hn; lia). simpl. lia.
  - destruct (Z.gtb_spec n 1).
    + rewrite shr64_div, add64_small by lia. change (2 ^ 1) with 2.
      rewrite Nat2Z.inj_succ, <- Z.add_1_l, <- Z.add_assoc, Z.pow_add_r in Hn by lia.
      rewrite IH by dlia.
      rewrite <- Z.div2_div, Z.div2_spec, Z.log2_shiftr by lia. pose proof (Z.log2_pos n). lia.
    + assert (n = 1) as -> by lia. simpl. lia.
Qed.

Lemma floor_log2_log2 n : is_u64 n -> 1 <= n -> floor_log2 n = Z.log2 n.
Proof. unfold is_u64, floor_log2. intros. rewrite floor_log2_loop_spec; lia. Qed.

Lemma log2_u64_bound n : is_u64 n -> 1 <= n -> 0 <= Z.log2 n < 64.
Proof.
  unfold is_u64. intros. split; [apply Z.log2_nonneg|]. apply Z.log2_lt_pow2; lia.
Qed.

Lemma ceil_log2_log2_up n : is_u64 n -> 1 <= n -> ceil_log2 n = Z.log2_up n.
Proof.
  intros Hu Hn. unfold ceil_log2. rewrite floor_log2_log2 by done.
  pose proof (log2_u64_bound n Hu Hn) as Hl. pose proof (Z.log2_spec n ltac:(lia)) as [H1 H2].
  pose proof (Z.pow_lt_mono_r 2 (Z.log2 n) 64 ltac:(lia) ltac:(lia) ltac:(lia)) as Hp.
  rewrite shl64_small by lia. rewrite Z.mul_1_l.
  destruct (Z.gtb_spec n (2 ^ Z.log2 n)).
  - rewrite add64_small by lia. symmetry. apply Z.log2_up_unique; [lia|]. split; [|lia].
    by replace (Z.pred (Z.log2 n + 1)) with (Z.log2 n) by lia.
  - assert (n = 2 ^ Z.log2 n) as Hq by lia. rewrite Hq at 2. by rewrite Z.log2_up_pow2 by lia.
Qed.

(** ** Selection *)

Lemma U64_TERNARY_spec b t f :
  is_u64 t -> is_u64 f -> U64_TERNARY b t f = if b then t else f.
Proof.
  intros Ht Hf. unfold U64_TERNARY.
  assert (Hones : forall x, is_u64 x -> Z.land UINT64_MAX x = x).
  { intros x Hx. change UINT64_MAX with (Z.ones 64).
    rewrite Z.land_comm, Z.land_ones by lia. by apply wrap64_small. }
  destruct b; simpl.
  - change (0 [-] 1) with UINT64_MAX. change (UINT64_MAX [+] 1) with 0.
    by rewrite Hones, Z.land_0_l, Z.lor_0_r.
  - change (0 [-] 0) with 0. change (UINT64_MAX [+] 0) with UINT64_MAX.
    by rewrite Hones, Z.land_0_l, Z.lor_0_l.
Qed.

Lemma cond_obv_swap_u64_spec cond tmp a b :
  is_u64 tmp -> is_u64 a -> is_u64 b ->
  cond_obv_swap_u64 cond tmp a b = if cond then (b, a) else (a, b).
Proof.
  intros. unfold cond_obv_swap_u64, cond_obv_cpy_u64.
  rewrite !U64_TERNARY_spec by (try (rewrite U64_TERNARY_spec by done); by destruct cond).
  by destruct cond.
Qed.

Lemma first_pow2_leq_log2 n : is_u64 n -> 1 <= n -> first_pow2_leq n = 2 ^ Z.log2 n.
Proof.
  intros Hu Hn. pose proof (log2_u64_bound n Hu Hn).
  pose proof (Z.pow_lt_mono_r 2 (Z.log2 n) 64).
  unfold first_pow2_leq, builtin_clzll.
  rewrite (sub64_small 64), sub64_small by lia.
  replace (64 - (63 - Z.log2 n) - 1) with (Z.log2 n) by lia.
  rewrite shl64_small by lia. lia.
Qed.

(** ** Knuth's algorithm D *)

Section Digit.
(** A normalised divisor and its digits in base [2^32], and the part [U] of
    the dividend that the digit's quotient is taken of. *)
Context (vs1 vs0 low U : Z).
Local Abbreviation B := (2 ^ 32).
Let v := vs1 * B + vs0.
Context (Hvs1 : 2 ^ 31 <= vs1 < B) (Hvs0 : 0 <= vs0 < B) (Hlow : 0 <= low < B)
        (HU : 0 <= U < v).

Let q := (U * B + low) / v.

Lemma digit_range : 0 <= q < B.
Proof.
  subst q. split; [apply Z.div_pos; nia|]. apply Z.div_lt_upper_bound; nia.
Qed.

Lemma digit_le_qhat : q <= U / vs1 <= B + 1.
Proof.
  subst q v. split.
  - apply Z.div_le_lower_bound; [lia|]. rewrite Z.mul_comm.
    apply Z.le_trans with ((U * B + low) / (vs1 * B) * vs1).
    + apply Z.mul_le_mono_nonneg_r; [lia|].
      apply Z.div_le_compat_l; nia.
    + rewrite <- (Z.mul_comm B vs1), <- Z.div_div, Z.div_add_l, (Z.div_small low) by lia.
      rewrite Z.add_0_r. pose proof (Z.mul_div_le U vs1 ltac:(lia)). lia.
  - apply Z.lt_succ_r, Z.div_lt_upper_bound; [lia|]. nia.
Qed.

Lemma correct_loop_spec fuel qs rhat :
  0 <= rhat < B -> B <= rhat + Z.of_nat fuel * vs1 -> q <= qs <= B + 1 ->
  qs * vs1 + rhat = U ->
  correct_loop fuel vs1 vs0 low qs rhat (qs * vs0) (rhat * B + low) = q.
Proof.
  pose proof digit_range as Hq. revert qs rhat.
  assert (Hqv : q * v <= U * B + low < (q + 1) * v).
  { subst q. pose proof (Z.mul_div_le (U * B + low) v ltac:(lia)).
    pose proof (Z.mul_succ_div_gt (U * B + low) v ltac:(lia)). lia. }
  assert (HB : B * B = 2 ^ 64) by reflexivity.
  induction fuel as [|fuel IH]; intros qs rhat Hr Hf Hqs HqU; [lia|].
  cbn [correct_loop].
  destruct ((qs >=? B) || (qs * vs0 >? rhat * B + low)) eqn:Hc.
  - assert (q < qs) by (breflect; [lia|nia]).
    rewrite (sub64_small qs), (add64_small rhat) by lia.
    destruct (Z.ltb_spec (rhat + vs1) B) as [Hlt|Hge].
    + rewrite shl64_small by nia.
      rewrite lor_shift_add by lia.
      rewrite sub64_small by nia.
      replace (qs * vs0 - vs0) with ((qs - 1) * vs0) by ring.
      apply IH; lia.
    + assert ((qs - 1) * vs0 <= B * B) by nia.
      assert ((qs - 1) * v <= U * B + low); [subst v; nia|].
      assert (qs - 1 < q + 1) by nia. lia.
  - breflect. assert (qs * v <= U * B + low) by (subst v; nia).
    assert (qs < q + 1) by nia. lia.
Qed.

Lemma digit_spec :
  correct_loop 4 vs1 vs0 low (U / vs1) (U mod vs1) ((U / vs1) * vs0)
    ((U mod vs1) * B + low) = q.
Proof.
  pose proof digit_le_qhat. pose proof (Z.mod_pos_bound U vs1 ltac:(lia)).
  apply correct_loop_spec; [lia..|]. rewrite Z.mul_comm. symmetry. apply Z.div_mod. lia.
Qed.
End Digit.

(** Splitting a word into its 32-bit halves. *)
Lemma word_halves x : is_u64 x ->
  x = (x [>>] 32) * 2 ^ 32 + Z.land x 0xffffffff /\
  0 <= x [>>] 32 < 2 ^ 32 /\ 0 <= Z.land x 0xffffffff < 2 ^ 32.
Proof.
  unfold is_u64. intros Hx. change 0xffffffff with (Z.ones 32).
  rewrite Z.land_ones, shr64_div by lia. dlia.
Qed.

(** The dividend after normalisation: the two words hold [(u1 * 2^64 + u0) * 2^s]. *)
Lemma normalise_spec u1 u0 s : is_u64 u1 -> is_u64 u0 -> 0 <= s < 64 ->
  u1 * 2 ^ s < 2 ^ 64 ->
  let '(u32, u10) :=
    if s >? 0 then (Z.lor (u1 [<<] s) (u0 [>>] (64 [-] s)), u0 [<<] s) else (u1, u0) in
  is_u64 u10 /\ u32 * 2 ^ 64 + u10 = (u1 * 2 ^ 64 + u0) * 2 ^ s /\ 0 <= u32.
Proof.
  unfold is_u64. intros H1 H0 Hs Hb.
  destruct (Z.gtb_spec s 0); [|assert (s = 0) as -> by lia; simpl; lia].
  pose proof (Z.pow_pos_nonneg 2 s). pose proof (Z.pow_pos_nonneg 2 (64 - s)).
  rewrite (sub64_small 64), (shl64_small u1), shr64_div, shl64_mul by nia.
  assert (Hp : 2 ^ 64 = 2 ^ s * 2 ^ (64 - s)) by (rewrite <- Z.pow_add_r by lia; f_equal; lia).
  assert (0 <= u0 / 2 ^ (64 - s) < 2 ^ s).
  { split; [apply Z.div_pos; lia|]. apply Z.div_lt_upper_bound; lia. }
  rewrite lor_shift_add by lia.
  assert ((u0 * 2 ^ s) mod 2 ^ 64 = (u0 mod 2 ^ (64 - s)) * 2 ^ s) as ->.
  { rewrite Hp, (Z.mul_comm (2 ^ s)). apply Zmult_mod_distr_r. }
  pose proof (Z.div_mod u0 (2 ^ (64 - s)) ltac:(lia)).
  pose proof (Z.mod_pos_bound u0 (2 ^ (64 - s)) ltac:(lia)).
  rewrite Hp. split_and!; [nia..| |nia].
  rewrite (Z.div_mod u0 (2 ^ (64 - s))) at 3 by lia. ring.
Qed.

(** Two digits make the quotient. *)
Lemma div_two_digits U low1 low0 v : 0 < v -> 
  let q1 := (U * 2 ^ 32 + low1) / v in
  let U' := U * 2 ^ 32 + low1 - q1 * v in
  (U * 2 ^ 64 + (low1 * 2 ^ 32 + low0)) / v = q1 * 2 ^ 32 + (U' * 2 ^ 32 + low0) / v.
Proof.
  intros Hv q1 U'.
  replace (U * 2 ^ 64 + (low1 * 2 ^ 32 + low0))
    with (q1 * 2 ^ 32 * v + (U' * 2 ^ 32 + low0)) by (subst U'; ring).
  by rewrite Z.div_add_l by lia.
Qed.

(** The operands of a digit's first comparison do not wrap. *)
Lemma digit_operands vs1 vs0 U :
  2 ^ 31 <= vs1 < 2 ^ 32 -> 0 <= vs0 < 2 ^ 32 -> 0 <= U < vs1 * 2 ^ 32 + vs0 ->
  U / vs1 [*] vs0 = U / vs1 * vs0 /\ (U mod vs1) [<<] 32 = U mod vs1 * 2 ^ 32.
Proof.
  intros H1 H0 HU. pose proof (digit_le_qhat vs1 vs0 0 U H1 H0 ltac:(lia) HU) as [Ha Hb].
  pose proof (Z.div_pos U vs1 ltac:(lia) ltac:(lia)).
  pose proof (Z.mod_pos_bound U vs1 ltac:(lia)).
  split; [apply mul64_small; nia|apply shl64_small; lia].
Qed.

(** Both unrolled steps of the outer loop, on a normalised divisor. *)
Lemma two_digits_spec u32 low1 low0 vs1 vs0 :
  2 ^ 31 <= vs1 < 2 ^ 32 -> 0 <= vs0 < 2 ^ 32 -> 0 <= low1 < 2 ^ 32 -> 0 <= low0 < 2 ^ 32 ->
  0 <= u32 < vs1 * 2 ^ 32 + vs0 ->
  (let qs1 := correct_loop 4 vs1 vs0 low1 (u32 / vs1) (u32 mod vs1) (u32 / vs1 [*] vs0)
                (((u32 mod vs1) [<<] 32) [+] low1) in
   let u21 := (u32 [<<] 32) [+] (low1 [-] (qs1 [*] (vs1 * 2 ^ 32 + vs0))) in
   let qs0 := correct_loop 4 vs1 vs0 low0 (u21 / vs1) (u21 mod vs1) (u21 / vs1 [*] vs0)
                (Z.lor ((u21 mod vs1) [<<] 32) low0) in
   Z.lor (qs1 [<<] 32) qs0)
  = (u32 * 2 ^ 64 + (low1 * 2 ^ 32 + low0)) / (vs1 * 2 ^ 32 + vs0).
Proof.
  intros Hv1 Hv0 Hl1 Hl0 HU. cbv zeta. set (v := vs1 * 2 ^ 32 + vs0) in *.
  destruct (digit_operands vs1 vs0 u32 Hv1 Hv0 HU) as [-> ->].
  rewrite add64_small by (pose proof (Z.mod_pos_bound u32 vs1); lia).
  rewrite (digit_spec vs1 vs0 low1 u32 Hv1 Hv0 Hl1 HU).
  pose proof (digit_range vs1 vs0 low1 u32 Hv1 Hv0 Hl1 HU) as Hq1.
  rewrite div_two_digits by lia. fold v in Hq1 |- *. cbv zeta.
  set (q1 := (u32 * 2 ^ 32 + low1) / v) in *.
  assert (HU' : 0 <= u32 * 2 ^ 32 + low1 - q1 * v < v) by (subst q1; dnia).
  assert ((u32 [<<] 32) [+] (low1 [-] (q1 [*] v)) = u32 * 2 ^ 32 + low1 - q1 * v) as ->.
  { rewrite shl64_mul by lia. unfold add64, sub64, mul64, wrap64.
    rewrite Zminus_mod_idemp_r, <- Zplus_mod. rewrite Z.mod_small; lia. }
  set (U' := u32 * 2 ^ 32 + low1 - q1 * v) in *. clearbody U' q1.
  destruct (digit_operands vs1 vs0 U' Hv1 Hv0 HU') as [-> ->].
  rewrite lor_shift_add by lia.
  rewrite (digit_spec vs1 vs0 low0 U' Hv1 Hv0 Hl0 HU').
  pose proof (digit_range vs1 vs0 low0 U' Hv1 Hv0 Hl0 HU') as Hq0. fold v in Hq0 |- *.
  rewrite shl64_small by lia. by rewrite lor_shift_add by lia.
Qed.

Lemma divmod128by64_spec u1 u0 v :
  is_u64 u1 -> is_u64 u0 -> is_u64 v -> u1 < v ->
  divmod128by64 u1 u0 v = (u1 * 2 ^ 64 + u0) / v.
Proof.
  intros H1 H0 Hv Huv. unfold divmod128by64, builtin_clzll.
  assert (1 <= v) by (unfold is_u64 in *; lia).
  pose proof (log2_u64_bound v Hv ltac:(lia)) as Hl.
  set (s := 63 - Z.log2 v). assert (Hs : 0 <= s < 64) by lia.
  assert (Hnorm : 2 ^ 63 <= v * 2 ^ s < 2 ^ 64).
  { pose proof (Z.log2_spec v ltac:(lia)) as [Ha Hb].
    assert (2 ^ 63 = 2 ^ Z.log2 v * 2 ^ s) by (rewrite <- Z.pow_add_r by lia; f_equal; lia).
    assert (2 ^ 64 = 2 ^ Z.succ (Z.log2 v) * 2 ^ s) by (rewrite <- Z.pow_add_r by lia; f_equal; lia).
    pose proof (Z.pow_pos_nonneg 2 s). nia. }
  rewrite (shl64_small v) by lia.
  pose proof (normalise_spec u1 u0 s H1 H0 Hs ltac:(unfold is_u64 in *; nia)) as Hn.
  destruct (if s >? 0 then _ else _) as [u32 u10]. destruct Hn as (Hu10 & Hu & Hu32).
  rewrite <- (Z.div_mul_cancel_r _ v (2 ^ s)), <- Hu by (pose proof (Z.pow_pos_nonneg 2 s); lia).
  assert (Hlt : u32 < v * 2 ^ s) by (unfold is_u64 in *; pose proof (Z.pow_pos_nonneg 2 s); nia).
  clear Hu H1 H0 Huv. set (w := v * 2 ^ s) in *. clearbody w.
  assert (Hw : is_u64 w) by (unfold is_u64; lia).
  destruct (word_halves w Hw) as (Ew & Hw1 & Hw0).
  destruct (word_halves u10 Hu10) as (Eu & Hl1 & Hl0).
  set (vs1 := w [>>] 32) in *. set (vs0 := Z.land w 0xffffffff) in *.
  set (low1 := u10 [>>] 32) in *. set (low0 := Z.land u10 0xffffffff) in *.
  clearbody vs1 vs0 low1 low0. subst w u10.
  exact (two_digits_spec u32 low1 low0 vs1 vs0 ltac:(lia) ltac:(lia) ltac:(lia) ltac:(lia) ltac:(lia)).
Qed.

Lemma div128by64_spec u v : 0 <= u -> is_u64 v -> u < v * 2 ^ 64 -> div128by64 u v = u / v.
Proof.
  intros Hu Hv Hlt. unfold div128by64. change UINT64_MAX with (Z.ones 64).
  rewrite Z.land_ones, Z.shiftr_div_pow2 by lia. unfold is_u64 in *.
  rewrite !wrap64_small by (unfold is_u64; dlia).
  rewrite divmod128by64_spec by (unfold is_u64; dlia).
  f_equal. rewrite Z.mul_comm. symmetry. apply Z.div_mod. lia.
Qed.

(** ** Division by an invariant divisor *)

(** The precomputed constants: the multiplier is the rounded-up scaled
    reciprocal without its top bit, and both shift counts are below 64. *)
Lemma prep_ct_div_spec d : 2 <= d <= 2 ^ 63 ->
  exists l e, 1 <= l <= 63 /\ d <= 2 ^ l < 2 * d /\ 1 <= e <= d /\
    0 <= m_prime (prep_ct_div d) < 2 ^ 64 /\
    (m_prime (prep_ct_div d) + 2 ^ 64) * d = 2 ^ 64 * 2 ^ l + e /\
    shift1 (prep_ct_div d) = 1 /\ shift2 (prep_ct_div d) = l - 1.
Proof.
  intros Hd. assert (Hu : is_u64 d) by (unfold is_u64; lia).
  set (l := Z.log2_up d). exists l, (d - (2 ^ 64 * (2 ^ l - d)) mod d).
  assert (Hl : 1 <= l <= 63).
  { subst l. split; [pose proof (Z.log2_up_pos d); lia|].
    etransitivity; [apply (Z.log2_up_le_mono d (2 ^ 63)); lia|]. by rewrite Z.log2_up_pow2. }
  assert (Hdl : d <= 2 ^ l < 2 * d).
  { pose proof (Z.log2_up_spec d ltac:(lia)) as [Ha Hb]. fold l in Ha, Hb. split; [lia|].
    replace l with (Z.succ (Z.pred l)) at 1 by lia. rewrite Z.pow_succ_r by lia. lia. }
  unfold prep_ct_div. rewrite ceil_log2_log2_up by (done || lia). fold l. cbn [m_prime shift1 shift2].
  rewrite shl64_small, Z.mul_1_l, !sub64_small by lia.
  rewrite (Z.mod_small _ (2 ^ 128)) by lia.
  rewrite div128by64_spec by (done || nia).
  set (r := 2 ^ l - d) in *.
  assert (Hq : 0 <= 2 ^ 64 * r / d <= 2 ^ 64 - 2).
  { split; [apply Z.div_pos; lia|]. apply Z.lt_succ_r, Z.div_lt_upper_bound; [lia|]. nia. }
  rewrite add64_small by lia.
  pose proof (Z.div_mod (2 ^ 64 * r) d ltac:(lia)). pose proof (Z.mod_pos_bound (2 ^ 64 * r) d ltac:(lia)).
  split_and!; [lia..| | |].
  - subst r. lia.
  - by destruct (Z.ltb_spec l 1); [lia|].
  - by destruct (Z.gtb_spec (l - 1) 0); lia.
Qed.

(** The arithmetic core: multiplying by the rounded-up reciprocal [m / 2^(64+l)]
    and truncating divides every 64-bit [n] exactly. *)
Lemma reciprocal_div n m d l e : 0 <= n < 2 ^ 64 -> 0 < d <= 2 ^ l -> 0 <= l -> 1 <= e <= d ->
  m * d = 2 ^ 64 * 2 ^ l + e -> (m * n) / (2 ^ 64 * 2 ^ l) = n / d.
Proof.
  intros Hn Hd Hl He Hm. symmetry. apply Z.div_unique_pos with ((m * n) - (2 ^ 64 * 2 ^ l) * (n / d)); [|lia].
  pose proof (Z.div_mod n d ltac:(lia)) as Hdm. pose proof (Z.mod_pos_bound n d ltac:(lia)).
  set (q := n / d) in *. set (r := n mod d) in *.
  set (X := 2 ^ 64 * 2 ^ l) in *. assert (0 <= q) by (apply Z.div_pos; lia).
  assert (Hx : (m * n - X * q) * d = X * r + e * n).
  { rewrite Z.mul_sub_distr_r. replace (m * n * d) with ((X + e) * n) by (rewrite <- Hm; ring).
    rewrite Hdm. ring. }
  assert (e * n < X) by (subst X; nia).
  split; [nia|]. apply Z.mul_lt_mono_pos_r with d; [lia|]. rewrite Hx. nia.
Qed.

Lemma ct_div_spec n d : is_u64 n -> 2 <= d <= 2 ^ 63 -> ct_div n d (prep_ct_div d) = n / d.
Proof.
  intros Hn Hd. destruct (prep_ct_div_spec d Hd) as (l & e & Hl & Hdl & He & Hm & Hme & H1 & H2).
  unfold ct_div. rewrite H1, H2. set (m := m_prime (prep_ct_div d)) in *. clearbody m.
  unfold muluh64, is_u64 in *. rewrite Z.shiftr_div_pow2 by lia.
  assert (Ht : 0 <= m * n / 2 ^ 64 <= n).
  { split; [apply Z.div_pos; nia|]. apply Z.lt_succ_r, Z.div_lt_upper_bound; [lia|]. nia. }
  set (t := m * n / 2 ^ 64) in *.
  rewrite (sub64_small n), (shr64_div _ 1) by lia. change (2 ^ 1) with 2.
  rewrite add64_small by dlia. rewrite shr64_div by lia.
  replace (t + (n - t) / 2) with ((t + n) / 2)
    by (replace (t + n) with (t * 2 + (n - t)) by ring; by rewrite Z.div_add_l).
  rewrite Z.div_div by lia. rewrite <- Z.pow_succ_r by lia. replace (Z.succ (l - 1)) with l by lia.
  rewrite <- (reciprocal_div n (m + 2 ^ 64) d l e) by lia.
  rewrite <- Z.div_div by lia. f_equal. subst t.
  rewrite Z.mul_add_distr_r, (Z.mul_comm (2 ^ 64) n), Z.div_add by lia. done.
Qed.

Lemma ct_mod_spec n d : is_u64 n -> 2 <= d <= 2 ^ 63 -> ct_mod n d (prep_ct_div d) = n mod d.
Proof.
  intros Hn Hd. unfold ct_mod. rewrite ct_div_spec by done. unfold is_u64 in *.
  pose proof (Z.div_mod n d ltac:(lia)). pose proof (Z.mod_pos_bound n d ltac:(lia)).
  pose proof (Z.div_pos n d ltac:(lia) ltac:(lia)).
  rewrite mul64_small by nia. rewrite sub64_small by nia. lia.
Qed.

(** ** Properties *)

(** C35. Constant-time division and remainder by an invariant divisor are exact
    for every 64-bit dividend and every divisor from 2 to [2^63]. *)
Theorem ct_div_mod_correct n d : is_u64 n -> 2 <= d <= 2 ^ 63 ->
  ct_div n d (prep_ct_div d) = n / d /\ ct_mod n d (prep_ct_div d) = n mod d.
Proof. split; [by apply ct_div_spec|by apply ct_mod_spec]. Qed.

Lemma ct_div_mod_correct_witness :
  ct_div UINT64_MAX 336 (prep_ct_div 336) = UINT64_MAX / 336 /\
  ct_mod UINT64_MAX 336 (prep_ct_div 336) = UINT64_MAX mod 336.
Proof. apply ct_div_mod_correct; [done|lia]. Defined.

(** The schoolbook division of a 128-bit dividend by a 64-bit divisor
    returns the quotient whenever it fits into 64 bits: both digits are
    corrected to the exact value by the two-step loops. *)
Theorem divmod128by64_correct u1 u0 v : is_u64 u1 -> is_u64 u0 -> is_u64 v -> u1 < v ->
  divmod128by64 u1 u0 v = (u1 * 2 ^ 64 + u0) / v.
Proof. apply divmod128by64_spec. Qed.

Lemma divmod128by64_correct_witness :
  divmod128by64 12345678901234567890 9876543210987654321 (2 ^ 64 - 59) =
  (12345678901234567890 * 2 ^ 64 + 9876543210987654321) / (2 ^ 64 - 59).
Proof. apply divmod128by64_correct; done. Defined.

(** The logarithms are exact on every positive 64-bit number: rounded down,
    rounded up, and the largest power of two not above the argument. *)
Theorem logarithms_correct n : is_u64 n -> 1 <= n ->
  floor_log2 n = Z.log2 n /\ ceil_log2 n = Z.log2_up n /\ first_pow2_leq n = 2 ^ Z.log2 n.
Proof.
  intros. split_and!; [by apply floor_log2_log2|by apply ceil_log2_log2_up|by apply first_pow2_leq_log2].
Qed.

Lemma logarithms_correct_witness : floor_log2 1000 = 9 /\ ceil_log2 1000 = 10 /\ first_pow2_leq 1000 = 512.
Proof. apply (logarithms_correct 1000); [done|lia]. Defined.

(** The branch-free selections select: [U64_TERNARY] and the conditional
    copy return the chosen word, and the conditional swap exchanges its
    arguments exactly when the condition holds. *)
Theorem oblivious_select_correct cond tmp a b : is_u64 tmp -> is_u64 a -> is_u64 b ->
  U64_TERNARY cond a b = (if cond then a else b) /\
  cond_obv_cpy_u64 cond a b = (if cond then b else a) /\
  cond_obv_swap_u64 cond tmp a b = if cond then (b, a) else (a, b).
Proof.
  intros. split_and!; [by apply U64_TERNARY_spec| |by apply cond_obv_swap_u64_spec].
  by apply (U64_TERNARY_spec cond b a).
Qed.

Lemma oblivious_select_correct_witness :
  U64_TERNARY true 7 UINT64_MAX = 7 /\ cond_obv_cpy_u64 true 7 UINT64_MAX = UINT64_MAX /\
  cond_obv_swap_u64 true 3 7 UINT64_MAX = (UINT64_MAX, 7).
Proof. apply (oblivious_select_correct true 3 7 UINT64_MAX); done. Defined.

(** The precomputation does not support the divisor 1: [l - 1] wraps around
    to [SIZE_MAX] there, so the quotient of every [n] below [2^63] comes out as
    0 instead of [n]. *)
Theorem ct_div_by_one n : 0 <= n < 2 ^ 63 -> ct_div n 1 (prep_ct_div 1) = 0.
Proof.
  intros Hn. assert (prep_ct_div 1 = {| m_prime := 1; shift1 := 0; shift2 := 2 ^ 64 - 1 |}) as -> by done.
  unfold ct_div, muluh64. cbn [m_prime shift1 shift2].
  rewrite Z.mul_1_l, Z.shiftr_div_pow2, Z.div_small by lia.
  rewrite sub64_small by lia. unfold shr64. change (0 mod 64) with 0. change ((2 ^ 64 - 1) mod 64) with 63.
  rewrite Z.shiftr_0_r, Z.sub_0_r, add64_small, Z.shiftr_div_pow2 by lia. apply Z.div_small. lia.
Qed.

Lemma ct_div_by_one_witness : ct_div 5 1 (prep_ct_div 1) = 0 /\ 5 / 1 = 5.
Proof. split; [apply (ct_div_by_one 5); lia|reflexivity]. Defined.
