(* ===== verification/TreePath.v ===== *)
(** * Paths in the bucket tree ([c/path_oram/tree_path.c], [tree_path.jinc])

    The nodes of the complete binary tree of [L] levels are numbered in order:
    leaves are the even numbers, level [k] holds the numbers congruent to
    [2^k - 1] modulo [2^(k+1)].  A [tree_path] is the list of nodes from a leaf
    to the root.  The lemmas give the coordinates of every node, the subtree
    test by [lower_bound]/[upper_bound], and that the test is equivalent to
    membership in the leaf's path. *)

From S2P Require Import Prelude.
Local Open Scope Z_scope.

(** ** Definitions *)

(** The x86 [TZCNT] instruction on a 64-bit operand: 64 on zero. *)
Fixpoint tzcnt_from (fuel : nat) (v : Z) : Z :=
  match fuel with
  | O => 0
  | S fuel => if Z.odd v then 0 else 1 + tzcnt_from fuel (Z.div2 v)
  end.
Definition tzcnt64 (v : Z) : Z := tzcnt_from 64 v.

(** [!v] *)
Definition not64 (v : Z) : Z := UINT64_MAX [-] v.

Definition level (n : Z) : Z := tzcnt64 (not64 n).

Record tree_coords := TreeCoords { tc_level : Z; tc_offset : Z }.

Definition parent (node : tree_coords) : tree_coords :=
  {| tc_offset := tc_offset node [>>] 1; tc_level := tc_level node [+] 1 |}.

Definition node_val (node : tree_coords) : Z :=
  let level_modulus := 1 [<<] (tc_level node [+] 1) in
  let level_residue := (level_modulus / 2) [-] 1 in
  (level_modulus [*] tc_offset node) [+] level_residue.

(** The offset of an in-order number within its level. *)
Definition coords_for_val (val : Z) : Z :=
  let level := level val [+] 1 in
  let lmod := 1 [<<] level in
  let lres := (lmod [>>] 1) [-] 1 in
  (val [-] lres) [>>] level.

Record tree_path := TreePath { tp_length : nat; tp_values : list Z }.

(** The loop of [update]: entries [level ..] of the path, [n] of them. *)
Fixpoint update_loop (n : nat) (level offset : Z) : list Z :=
  match n with
  | O => []
  | S n =>
      let offset := offset [>>] 1 in
      node_val (TreeCoords level offset) :: update_loop n (level [+] 1) offset
  end.

Definition tree_path_update (t : tree_path) (leaf : Z) : tree_path :=
  {| tp_length := tp_length t;
     tp_values := leaf :: update_loop (tp_length t - 1) 1 (coords_for_val leaf) |}.

(** [tree_path_create]: the path of leaf 0, in memory that [malloc] returned. *)
Definition tree_path_create (length : nat) : tree_path :=
  tree_path_update {| tp_length := length; tp_values := replicate length 0 |} 0.

Definition tree_path_num_nodes (num_levels : Z) : Z := (1 [<<] num_levels) [-] 1.

Definition lower_bound (val : Z) : Z := val [-] ((1 [<<] level val) [-] 1).
Definition upper_bound (val : Z) : Z := ((1 [<<] level val) [-] 1) [+] val.

(** The node at level [k] and offset [o], as a number. *)
Definition node (k o : Z) : Z := 2 ^ (k + 1) * o + 2 ^ k - 1.

(** A node of a tree that fits the word. *)
Definition node_ok (k o : Z) : Prop := 0 <= k <= 62 /\ 0 <= o /\ node k o < 2 ^ 63.

(** The path of [leaf] in a tree of [L] levels. *)
Definition path_of (L : nat) (leaf : Z) : list Z :=
  map (fun i => node (Z.of_nat i) (leaf / 2 ^ (Z.of_nat i + 1))) (seq 0 L).

(** A leaf of a tree of [L] levels. *)
Definition is_leaf (L : nat) (p : Z) : Prop :=
  0 <= p < 2 ^ Z.of_nat L /\ p mod 2 = 0.

(** ** Levels *)

Lemma tzcnt_from_spec fuel k o : 0 <= k < Z.of_nat fuel ->
  tzcnt_from fuel (2 ^ k * (2 * o + 1)) = k.
Proof.
  revert k. induction fuel as [|fuel IH]; intros k Hk; [lia|]. cbn [tzcnt_from].
  destruct (decide (k = 0)) as [->|].
  - rewrite Z.mul_1_l, Z.add_comm, Z.odd_add_mul_2. done.
  - replace (2 ^ k * (2 * o + 1)) with (2 * (2 ^ (k - 1) * (2 * o + 1))).
    + rewrite Z.odd_mul. simpl (Z.odd 2 && _). rewrite Z.div2_div, Z.mul_comm, Z.div_mul by lia.
      rewrite IH by lia. lia.
    + replace k with (Z.succ (k - 1)) at 2 by lia. rewrite Z.pow_succ_r by lia. ring.
Qed.

Lemma pow2_le_63 k : 0 <= k <= 62 -> 2 ^ k * 2 ^ (63 - k) = 2 ^ 63.
Proof. intros. rewrite <- Z.pow_add_r by lia. f_equal. lia. Qed.

Lemma level_node k o : node_ok k o -> level (node k o) = k.
Proof.
  intros (Hk & Ho & Hb). unfold level, not64, node in *. pose proof (Z.pow_pos_nonneg 2 k).
  rewrite Z.pow_add_r in * by lia. change (2 ^ 1) with 2 in *. change UINT64_MAX with (2 ^ 64 - 1).
  rewrite sub64_small by nia.
  replace (2 ^ 64 - 1 - (2 ^ k * 2 * o + 2 ^ k - 1)) with (2 ^ k * (2 * (2 ^ (63 - k) - o - 1) + 1)).
  - apply tzcnt_from_spec. lia.
  - pose proof (pow2_le_63 k ltac:(lia)). change (2 ^ 64) with (2 * 2 ^ 63). nia.
Qed.

Lemma node_val_node k o : node_ok k o -> node_val (TreeCoords k o) = node k o.
Proof.
  intros (Hk & Ho & Hb). unfold node_val, node in *; simpl. pose proof (Z.pow_pos_nonneg 2 k).
  rewrite (add64_small k) by lia.
  assert (2 ^ (k + 1) <= 2 ^ 63) by (apply Z.pow_le_mono_r; lia).
  rewrite shl64_small, Z.mul_1_l by lia.
  rewrite Z.pow_add_r, Z.div_mul in * by lia. change (2 ^ 1) with 2 in *.
  rewrite sub64_small, mul64_small, add64_small by nia. lia.
Qed.

Lemma coords_for_node k o : node_ok k o -> coords_for_val (node k o) = o.
Proof.
  intros Hn. unfold coords_for_val. rewrite level_node by done.
  destruct Hn as (Hk & Ho & Hb). unfold node in *. pose proof (Z.pow_pos_nonneg 2 k).
  rewrite (add64_small k) by lia.
  assert (2 ^ (k + 1) <= 2 ^ 63) by (apply Z.pow_le_mono_r; lia).
  rewrite (shl64_small 1), Z.mul_1_l, !shr64_div by lia.
  rewrite Z.pow_add_r, Z.div_mul in * by lia. change (2 ^ 1) with 2 in *.
  rewrite (sub64_small (2 ^ k)), sub64_small by nia.
  replace (2 ^ k * 2 * o + 2 ^ k - 1 - (2 ^ k - 1)) with (o * (2 ^ k * 2)) by ring.
  by rewrite Z.div_mul by lia.
Qed.

Lemma parent_coords k o : 0 <= k < 64 -> 0 <= o ->
  parent (TreeCoords k o) = TreeCoords (k + 1) (o / 2).
Proof.
  intros. unfold parent; simpl. rewrite shr64_div, add64_small by lia. done.
Qed.

Lemma lower_bound_node k o : node_ok k o -> lower_bound (node k o) = 2 ^ (k + 1) * o.
Proof.
  intros Hn. unfold lower_bound. rewrite level_node by done.
  destruct Hn as (Hk & Ho & Hb). unfold node in *. pose proof (Z.pow_pos_nonneg 2 k).
  assert (2 ^ k <= 2 ^ 62) by (apply Z.pow_le_mono_r; lia).
  rewrite Z.pow_add_r in * by lia.
  rewrite shl64_small, (sub64_small (1 * 2 ^ k)), sub64_small by nia. ring.
Qed.

Lemma upper_bound_node k o : node_ok k o -> upper_bound (node k o) = 2 ^ (k + 1) * (o + 1) - 2.
Proof.
  intros Hn. unfold upper_bound. rewrite level_node by done.
  destruct Hn as (Hk & Ho & Hb). unfold node in *. pose proof (Z.pow_pos_nonneg 2 k).
  assert (2 ^ k <= 2 ^ 62) by (apply Z.pow_le_mono_r; lia).
  rewrite Z.pow_add_r in * by lia. change (2 ^ 1) with 2 in *.
  rewrite shl64_small, (sub64_small (1 * 2 ^ k)), add64_small by nia. ring.
Qed.

(** ** Paths *)

Lemma path_of_length L p : length (path_of L p) = L.
Proof. unfold path_of. by rewrite length_map, length_seq. Qed.

Lemma path_of_lookup L p i : (i < L)%nat ->
  path_of L p !! i = Some (node (Z.of_nat i) (p / 2 ^ (Z.of_nat i + 1))).
Proof.
  intros Hi. unfold path_of. rewrite list_lookup_fmap, lookup_seq_lt by done. done.
Qed.

Lemma path_of_lookup_inv L p i v : path_of L p !! i = Some v ->
  (i < L)%nat /\ v = node (Z.of_nat i) (p / 2 ^ (Z.of_nat i + 1)).
Proof.
  intros H. pose proof (lookup_lt_Some _ _ _ H) as Hi. rewrite path_of_length in Hi.
  rewrite path_of_lookup in H by done. split; congruence.
Qed.

(** Nodes of a path are nodes of the tree. *)
Lemma path_node_bound L p i : 0 <= p < 2 ^ Z.of_nat L -> (i < L)%nat ->
  0 <= node (Z.of_nat i) (p / 2 ^ (Z.of_nat i + 1)) < 2 ^ Z.of_nat L - 1.
Proof.
  intros Hp Hi. unfold node.
  assert (HL : 2 ^ Z.of_nat L = 2 ^ (Z.of_nat i + 1) * 2 ^ (Z.of_nat L - Z.of_nat i - 1))
    by (rewrite <- Z.pow_add_r by lia; f_equal; lia).
  pose proof (Z.pow_pos_nonneg 2 (Z.of_nat i) ltac:(lia) ltac:(lia)).
  set (m := 2 ^ (Z.of_nat i + 1)) in *.
  assert (Hm : m = 2 * 2 ^ Z.of_nat i) by (subst m; rewrite Z.pow_add_r by lia; lia).
  pose proof (Z.pow_pos_nonneg 2 (Z.of_nat L - Z.of_nat i - 1) ltac:(lia) ltac:(lia)).
  assert (0 <= p / m < 2 ^ (Z.of_nat L - Z.of_nat i - 1)).
  { split; [apply Z.div_pos; lia|]. apply Z.div_lt_upper_bound; lia. }
  nia.
Qed.

Lemma path_node_ok L p i : (L <= 62)%nat -> 0 <= p < 2 ^ Z.of_nat L -> (i < L)%nat ->
  node_ok (Z.of_nat i) (p / 2 ^ (Z.of_nat i + 1)).
Proof.
  intros HL Hp Hi. pose proof (path_node_bound L p i Hp Hi).
  assert (2 ^ Z.of_nat L <= 2 ^ 62) by (apply Z.pow_le_mono_r; lia).
  split_and!; [lia..| |lia]. apply Z.div_pos; [lia|]. apply Z.pow_pos_nonneg; lia.
Qed.

Lemma update_loop_path L p k n : (L <= 62)%nat -> 0 <= p < 2 ^ Z.of_nat L -> (k + n < L)%nat ->
  update_loop n (Z.of_nat k + 1) (p / 2 ^ (Z.of_nat k + 1)) =
  map (fun i => node (Z.of_nat i) (p / 2 ^ (Z.of_nat i + 1))) (seq (S k) n).
Proof.
  intros HL Hp. revert k. induction n as [|n IH]; intros k Hk; [done|].
  cbn [update_loop seq map].
  assert (Hpos : 0 < 2 ^ (Z.of_nat k + 1)) by (apply Z.pow_pos_nonneg; lia).
  rewrite shr64_div, Z.div_div, <- Z.pow_add_r by lia.
  rewrite (add64_small (Z.of_nat k + 1)) by lia.
  replace (Z.of_nat k + 1) with (Z.of_nat (S k)) by lia.
  rewrite node_val_node by (apply (path_node_ok L); (done || lia)). f_equal. apply IH. lia.
Qed.

Lemma leaf_node p : p mod 2 = 0 -> node 0 (p / 2) = p.
Proof. intros. unfold node. simpl. dlia. Qed.

(** [tree_path_update] writes the path of the leaf. *)
Lemma tree_path_update_values t p : (1 <= tp_length t <= 62)%nat -> is_leaf (tp_length t) p ->
  tp_values (tree_path_update t p) = path_of (tp_length t) p.
Proof.
  intros HL [Hp He]. unfold tree_path_update, path_of. cbn [tp_values].
  destruct (tp_length t) as [|L] eqn:E; [lia|]. simpl (S L - 1)%nat. rewrite Nat.sub_0_r.
  assert (Hok := path_node_ok (S L) p 0 ltac:(lia) Hp ltac:(lia)).
  change (Z.of_nat 0) with 0 in Hok. change (2 ^ (0 + 1)) with 2 in Hok.
  assert (coords_for_val p = p / 2) as ->.
  { rewrite <- (leaf_node p He) at 1. by apply coords_for_node. }
  cbn [seq map]. f_equal.
  - symmetry. by apply leaf_node.
  - rewrite <- (update_loop_path (S L) p 0 L) by (done || lia). done.
Qed.

(** ** The subtree test *)

(** A leaf is between the bounds of the node [(k, o)] iff that node is the
    leaf's ancestor at level [k]. *)
Lemma subtree_test k o p : node_ok k o -> p mod 2 = 0 ->
  lower_bound (node k o) <= p <= upper_bound (node k o) <-> o = p / 2 ^ (k + 1).
Proof.
  intros Hn He. rewrite lower_bound_node, upper_bound_node by done.
  destruct Hn as (Hk & Ho & _).
  assert (Hm : 2 ^ (k + 1) = 2 * 2 ^ k) by (rewrite Z.pow_add_r by lia; lia).
  pose proof (Z.pow_pos_nonneg 2 k ltac:(lia) ltac:(lia)).
  set (h := 2 ^ k) in *. clearbody h. rewrite Hm. clear Hm. split.
  - intros Hb. apply Z.div_unique_pos with (p - 2 * h * o); [|lia]. 
    split; [lia|]. assert (p <> 2 * h * (o + 1) - 1); [|lia]. intros ->. dlia.
  - intros ->. pose proof (Z.div_mod p (2 * h) ltac:(lia)).
    pose proof (Z.mod_pos_bound p (2 * h) ltac:(lia)).
    assert (p mod (2 * h) mod 2 = 0).
    { rewrite Z.rem_mul_r by lia. dlia. }
    dlia.
Qed.

(** For leaves [p] and [q] of the same tree: node [i] of the path of [p] is
    within whose bounds [q] lies exactly when it is node [i] of the path of [q]. *)
Lemma subtree_test_path L p q i : (L <= 62)%nat -> (i < L)%nat -> is_leaf L p -> is_leaf L q ->
  let v := node (Z.of_nat i) (p / 2 ^ (Z.of_nat i + 1)) in
  lower_bound v <= q <= upper_bound v <-> path_of L q !! i = Some v.
Proof.
  intros HL Hi [Hp _] [Hq Heq] v. subst v.
  rewrite subtree_test by (eauto using path_node_ok). rewrite path_of_lookup by done.
  split; [by intros ->|]. intros [= H]. unfold node in H.
  pose proof (Z.pow_pos_nonneg 2 (Z.of_nat i + 1) ltac:(lia) ltac:(lia)). nia.
Qed.

(** Nodes of one path sit on distinct levels, so the path has no duplicates. *)
Lemma path_level L p i v : (L <= 62)%nat -> 0 <= p < 2 ^ Z.of_nat L ->
  path_of L p !! i = Some v -> level v = Z.of_nat i.
Proof.
  intros HL Hp [Hi ->]%path_of_lookup_inv. apply level_node. eauto using path_node_ok.
Qed.

Lemma path_NoDup L p : (L <= 62)%nat -> 0 <= p < 2 ^ Z.of_nat L -> NoDup (path_of L p).
Proof.
  intros HL Hp. apply NoDup_alt. intros i j v Hi Hj.
  apply (path_level L) in Hi; [|done..]. apply (path_level L) in Hj; [|done..]. lia.
Qed.

Lemma path_parent L p i v w : (L <= 62)%nat -> 0 <= p < 2 ^ Z.of_nat L ->
  path_of L p !! i = Some v -> path_of L p !! S i = Some w ->
  parent (TreeCoords (level v) (coords_for_val v)) = TreeCoords (level w) (coords_for_val w).
Proof.
  intros HL Hp [Hi ->]%path_of_lookup_inv [Hi' ->]%path_of_lookup_inv.
  pose proof (path_node_ok L p i HL Hp Hi). pose proof (path_node_ok L p (S i) HL Hp Hi').
  rewrite !level_node, !coords_for_node by done.
  rewrite parent_coords by (lia || (apply Z.div_pos; lia)).
  rewrite Z.div_div by lia. f_equal; [lia|]. f_equal.
  rewrite Nat2Z.inj_succ, <- Z.add_1_r, (Z.pow_add_r 2 (Z.of_nat i + 1)) by lia. lia.
Qed.

(** ** Properties *)

(** [tree_path_update] computes the path of a leaf: it starts at the leaf,
    has one node per level, each entry's coordinates are the parent of the
    entry before, no node occurs twice and all are nodes of the tree. *)
Theorem tree_path_update_correct t leaf :
  (1 <= tp_length t <= 62)%nat -> is_leaf (tp_length t) leaf ->
  let values := tp_values (tree_path_update t leaf) in
  length values = tp_length t /\ NoDup values /\ values !! 0%nat = Some leaf /\
  (forall i v, values !! i = Some v -> level v = Z.of_nat i /\ 0 <= v < 2 ^ Z.of_nat (tp_length t) - 1) /\
  forall i v w, values !! i = Some v -> values !! S i = Some w ->
    parent (TreeCoords (level v) (coords_for_val v)) = TreeCoords (level w) (coords_for_val w).
Proof.
  intros HL [Hp He] values. subst values. rewrite tree_path_update_values by done. split_and!.
  - apply path_of_length.
  - apply path_NoDup; lia.
  - rewrite path_of_lookup by lia. f_equal. by apply leaf_node.
  - intros i v Hv. split; [apply (path_level (tp_length t) leaf i v ltac:(lia) Hp Hv)|].
    apply path_of_lookup_inv in Hv as [Hi ->]. by apply path_node_bound.
  - intros i v w. by apply path_parent; [lia|].
Qed.

Lemma tree_path_update_correct_witness : tp_values (tree_path_update (tree_path_create 4) 10) = [10; 9; 11; 7] /\
  NoDup [10; 9; 11; 7].
Proof.
  split; [reflexivity|].
  apply (tree_path_update_correct (tree_path_create 4) 10); [simpl; lia|split; [split; done|done]].
Defined.

(** The interval test used for eviction is the ancestor test: leaf [q] lies
    between the bounds of the node at level [i] of [p]'s path exactly when that
    node is on [q]'s path too. *)
Theorem bounds_test_correct L p q i : (L <= 62)%nat -> (i < L)%nat -> is_leaf L p -> is_leaf L q ->
  let v := node (Z.of_nat i) (p / 2 ^ (Z.of_nat i + 1)) in
  (lower_bound v <= q <= upper_bound v <-> path_of L q !! i = Some v) /\
  path_of L p !! i = Some v.
Proof.
  intros HL Hi Hp Hq v. split; [by apply subtree_test_path|]. by apply path_of_lookup.
Qed.

Lemma bounds_test_correct_witness :
  lower_bound 11 <= 14 <= upper_bound 11 /\ path_of 4 14 !! 2%nat = Some 11.
Proof.
  pose proof (bounds_test_correct 4 10 14 2 ltac:(lia) ltac:(lia) ltac:(split; [split; done|done]) ltac:(split; [split; done|done])) as [H _].
  assert (Hb : lower_bound 11 <= 14 <= upper_bound 11) by (vm_compute; split; discriminate).
  split; [exact Hb|apply H; exact Hb].
Defined.
