(* ===== verification/OddEvenSort.v ===== *)
(** * The oblivious odd-even merge sort

    [_odd_even_msort] of [c/path_oram/stash.jinc] and [osort] of
    [c/util/osort.jinc] run the same four nested loops over array indices and
    compare-exchange some pairs.  Which pairs are compared depends on the array
    length only, so the loops are modelled as the functions that list those
    pairs, and a sort as the compare-exchanges of that list run in order.

    The main result: for every length the network sorts (by the 0-1 principle)
    and permutes the elements; both loop structures produce the same network. *)

From S2P Require Import Prelude.
From Stdlib Require Import Morphisms.

(** ** The loops *)

(** [while (i != mini)]: [count] rounds from [i]. *)
Fixpoint i_loop (count i k two_p : nat) : list (nat * nat) :=
  match count with
  | O => []
  | S count =>
      (if i / two_p =? (i + k) / two_p then [(i, i + k)] else [])
        ++ i_loop count (i + 1) k two_p
  end.

(** The [do ... while (j < n - k)] loop; [j] grows by [2k > 0] each round, so
    [n] rounds of fuel are enough. *)
Fixpoint j_loop (fuel j k two_p n : nat) : list (nat * nat) :=
  match fuel with
  | O => []
  | S fuel =>
      let mini := if k <? n - k - j then k else n - k - j in
      i_loop mini j k two_p ++
      (if j + 2 * k <? n - k then j_loop fuel (j + 2 * k) k two_p n else [])
  end.

(** [do ... while ((k >>= 1) != 0)] *)
Fixpoint k_loop (fuel k p n : nat) : list (nat * nat) :=
  match fuel with
  | O => []
  | S fuel =>
      j_loop n (Nat.land (p - 1) k) k (2 * p) n ++
      (if Nat.div2 k =? 0 then [] else k_loop fuel (Nat.div2 k) p n)
  end.

(** [do ... while ((p = 2p) < n)] *)
Fixpoint p_loop (fuel p n : nat) : list (nat * nat) :=
  match fuel with
  | O => []
  | S fuel => k_loop p p p n ++ (if 2 * p <? n then p_loop fuel (2 * p) n else [])
  end.

(** [_odd_even_msort]: the pairs compared on an array range of [n] elements. *)
Definition msort_network (n : nat) : list (nat * nat) :=
  if 1 <? n then p_loop n 1 n else [].

(** [osort] enters its [j] loop only if [j < len - k] and the [k] loop only if
    [p != 0]. *)
Fixpoint osort_k_loop (fuel k p n : nat) : list (nat * nat) :=
  match fuel with
  | O => []
  | S fuel =>
      (if Nat.land (p - 1) k <? n - k
       then j_loop n (Nat.land (p - 1) k) k (2 * p) n else []) ++
      (if Nat.div2 k =? 0 then [] else osort_k_loop fuel (Nat.div2 k) p n)
  end.
Fixpoint osort_p_loop (fuel p n : nat) : list (nat * nat) :=
  match fuel with
  | O => []
  | S fuel =>
      (if negb (p =? 0) then osort_k_loop p p p n else []) ++
      (if 2 * p <? n then osort_p_loop fuel (2 * p) n else [])
  end.
Definition osort_network (n : nat) : list (nat * nat) :=
  if 1 <? n then osort_p_loop n 1 n else [].

Section Run.
Context {A : Type} (gt : A -> A -> bool).

(** Compare-exchange of two cells: [cmp_function] says whether the first
    element is greater, then the two are swapped. *)
Definition comp_and_swap (l : list A) (ij : nat * nat) : list A :=
  match l !! ij.1, l !! ij.2 with
  | Some x, Some y => if gt x y then <[ij.1 := y]> (<[ij.2 := x]> l) else l
  | _, _ => l
  end.

Definition run_network (cs : list (nat * nat)) (l : list A) : list A :=
  fold_left comp_and_swap cs l.

(** A sort of the range [lb, ub) of an array. *)
Definition sort_range (network : nat -> list (nat * nat)) (lb ub : nat) (l : list A) : list A :=
  run_network (map (fun ij => (lb + ij.1, lb + ij.2)) (network (ub - lb))) l.

Definition odd_even_msort (lb ub : nat) (l : list A) : list A := sort_range msort_network lb ub l.
Definition osort (lb ub : nat) (l : list A) : list A := sort_range osort_network lb ub l.
End Run.

(** The orders the network is used with: [gt] is a strict weak order. *)
Class StrictWeakOrder {A} (gt : A -> A -> bool) : Prop := {
  gt_irrefl x : gt x x = false;
  gt_trans x y z : gt x y = true -> gt y z = true -> gt x z = true;
  gt_cotrans x y z : gt x z = true -> gt x y = true \/ gt y z = true;
}.

(** Ascending with respect to [gt]. *)
Definition ascending {A} (gt : A -> A -> bool) (l : list A) : Prop :=
  forall i j x y, i < j -> l !! i = Some x -> l !! j = Some y -> gt x y = false.

Lemma ascending_cons {A} (gt : A -> A -> bool) x l : ascending gt (x :: l) ->
  Forall (fun y => gt x y = false) l /\ ascending gt l.
Proof.
  intros Ha. split.
  - apply Forall_lookup. intros i y Hy. by apply (Ha 0%nat (S i)); [lia|..].
  - intros i j y z Hij Hy Hz. by apply (Ha (S i) (S j)); [lia|..].
Qed.

(** A linear order has one ascending arrangement of the elements. *)
Lemma ascending_unique {A} (gt : A -> A -> bool) l l' : (forall x y, gt x y = false -> gt y x = false -> x = y) ->
  ascending gt l -> ascending gt l' -> l ≡ₚ l' -> l = l'.
Proof.
  intros Hanti. revert l'. induction l as [|x l IH]; intros l' Ha Ha' Hp; [by apply Permutation_nil_l in Hp|].
  destruct l' as [|y l']; [by apply Permutation_nil_r in Hp|].
  apply ascending_cons in Ha as [Hx Ha]. apply ascending_cons in Ha' as [Hy Ha']. rewrite Forall_forall in Hx, Hy.
  assert (x = y) as <-.
  { assert (Hyl : y ∈ x :: l) by (rewrite Hp; left). assert (Hxl : x ∈ y :: l') by (rewrite <- Hp; left).
    apply elem_of_cons in Hyl as [->|Hyl]; [done|]. apply elem_of_cons in Hxl as [->|Hxl]; [done|]. auto. }
  f_equal. apply IH; [done..|]. by apply Permutation_cons_inv in Hp.
Qed.

#[export] Instance gtb_order : StrictWeakOrder Z.gtb.
Proof. constructor; intros *; rewrite ?Z.gtb_ltb, ?Z.ltb_irrefl, ?Z.ltb_lt; lia. Qed.

Lemma gtb_anti x y : (x >? y)%Z = false -> (y >? x)%Z = false -> x = y.
Proof. rewrite !Z.gtb_ltb, !Z.ltb_ge. lia. Qed.

(** ** The pairs of one layer *)

Lemma i_loop_in count i k two_p a b :
  (a, b) ∈ i_loop count i k two_p <->
  b = a + k /\ i <= a < i + count /\ a / two_p = (a + k) / two_p.
Proof.
  revert i. induction count as [|count IH]; intros i; cbn [i_loop].
  - split; [by intros ?%elem_of_nil|lia].
  - rewrite elem_of_app, IH. destruct (Nat.eqb_spec (i / two_p) ((i + k) / two_p)) as [E|E].
    + rewrite list_elem_of_singleton. split.
      * intros [[= -> ->]|(-> & ? & ?)]; (split_and!; [done|lia..|done]).
      * intros (-> & Hr & Hd). destruct (decide (a = i)) as [->|]; [by left|]. right. split_and!; [done|lia..|done].
    + rewrite elem_of_nil. split.
      * intros [[]|(-> & ? & ?)]. split_and!; [done|lia..|done].
      * intros (-> & Hr & Hd). destruct (decide (a = i)) as [->|]; [done|]. right. split_and!; [done|lia..|done].
Qed.

(** The first components are strictly increasing. *)
Lemma i_loop_fst_ge count i k two_p c : c ∈ i_loop count i k two_p -> i <= c.1 < i + count.
Proof. destruct c as [a b]. rewrite i_loop_in. simpl. lia. Qed.

Lemma i_loop_NoDup count i k two_p : NoDup (map fst (i_loop count i k two_p)).
Proof.
  revert i. induction count as [|count IH]; intros i; cbn [i_loop]; [constructor|].
  rewrite map_app. apply NoDup_app. split_and!; [case_match; [apply NoDup_singleton|constructor]| |apply IH].
  intros x Hx (c & -> & Hc)%list_elem_of_fmap. apply i_loop_fst_ge in Hc.
  case_match; [|by apply elem_of_nil in Hx]. apply list_elem_of_singleton in Hx. simpl in Hx. lia.
Qed.

Lemma j_loop_fst_ge fuel j k two_p n c : c ∈ j_loop fuel j k two_p n -> j <= c.1.
Proof.
  revert j. induction fuel as [|fuel IH]; intros j; cbn [j_loop]; [by intros ?%elem_of_nil|].
  rewrite elem_of_app. intros [H|H].
  - apply i_loop_fst_ge in H. lia.
  - case_match; [|by apply elem_of_nil in H]. apply IH in H. lia.
Qed.

Lemma j_loop_NoDup fuel j k two_p n : NoDup (map fst (j_loop fuel j k two_p n)).
Proof.
  revert j. induction fuel as [|fuel IH]; intros j; cbn [j_loop]; [constructor|].
  rewrite map_app. apply NoDup_app. split_and!; [apply i_loop_NoDup| |case_match; [apply IH|constructor]].
  intros x (c & -> & Hc)%list_elem_of_fmap (c' & E & Hc')%list_elem_of_fmap.
  apply i_loop_fst_ge in Hc. case_match; [|by apply elem_of_nil in Hc'].
  apply j_loop_fst_ge in Hc'. case_match; breflect; lia.
Qed.

Lemma j_loop_in fuel j k two_p n a b : 0 < k -> n <= j + fuel ->
  (a, b) ∈ j_loop fuel j k two_p n <->
  b = a + k /\ j <= a /\ (a - j) mod (2 * k) < k /\ a + k < n /\ a / two_p = (a + k) / two_p.
Proof.
  intros Hk. revert j. induction fuel as [|fuel IH]; intros j Hf; cbn [j_loop].
  - split; [by intros ?%elem_of_nil|lia].
  - set (mini := if k <? n - k - j then k else n - k - j).
    assert (Hm : mini = Nat.min k (n - k - j)) by (subst mini; case_match; breflect; lia).
    rewrite elem_of_app, i_loop_in, Hm. clear mini Hm.
    assert (Hrest : (a, b) ∈ (if j + 2 * k <? n - k then j_loop fuel (j + 2 * k) k two_p n else []) <->
      b = a + k /\ j + 2 * k <= a /\ (a - j) mod (2 * k) < k /\ a + k < n /\ a / two_p = (a + k) / two_p).
    { destruct (Nat.ltb_spec (j + 2 * k) (n - k)).
      - assert (Hmod : j + 2 * k <= a -> (a - j) mod (2 * k) = (a - (j + 2 * k)) mod (2 * k)).
        { intros. replace (a - j) with (a - (j + 2 * k) + 1 * (2 * k)) by lia. apply Nat.Div0.mod_add. }
        rewrite IH by lia. split; intros (? & Hle & ? & ?); specialize (Hmod Hle); split_and!; lia.
      - split; [by intros ?%elem_of_nil|]. intros. lia. }
    rewrite Hrest. clear Hrest. split.
    + intros [(-> & Hr & E)|(-> & ? & ? & ? & ?)]; [|split_and!; (done || lia)].
      split_and!; [done|lia| |lia|done]. rewrite Nat.mod_small by lia. lia.
    + intros (-> & Hj & Hmod & Hn & E). destruct (decide (j + 2 * k <= a)); [by right; split_and!|].
      left. rewrite Nat.mod_small in Hmod by lia. split_and!; [done|lia..|done].
Qed.

(** ** Compare-exchange on 0-1 sequences

    A 0-1 sequence is a function from positions, with ones past the end. *)

Definition cx (f : nat -> bool) (ij : nat * nat) (x : nat) : bool :=
  if x =? ij.1 then f ij.1 && f ij.2
  else if x =? ij.2 then f ij.1 || f ij.2 else f x.

Definition run01 (cs : list (nat * nat)) (f : nat -> bool) : nat -> bool := fold_left cx cs f.

Notation "f ≐ g" := (pointwise_relation nat (@eq bool) f g) (at level 70).

#[export] Instance cx_proper : Proper (pointwise_relation _ eq ==> eq ==> pointwise_relation _ eq) cx.
Proof. intros f g E ij ? <- x. unfold cx. by rewrite !E. Qed.

#[export] Instance run01_proper cs :
  Proper (pointwise_relation _ eq ==> pointwise_relation _ eq) (run01 cs).
Proof.
  induction cs as [|c cs IH]; intros f g E; [done|]. simpl. apply IH. by rewrite E.
Qed.

Lemma run01_app cs1 cs2 f : run01 (cs1 ++ cs2) f = run01 cs2 (run01 cs1 f).
Proof. apply fold_left_app. Qed.

(** Pairs at distance [k] whose first components are distinct and never second
    components act independently. *)
Lemma run01_parallel k low cs f : 0 < k ->
  (forall a b, (a, b) ∈ cs -> b = a + k /\ low a = true /\ low b = false) ->
  NoDup (map fst cs) ->
  forall x, run01 cs f x =
    if decide ((x, x + k) ∈ cs) then f x && f (x + k)
    else if decide (k <= x /\ (x - k, x) ∈ cs) then f (x - k) || f x else f x.
Proof.
  intros Hk. revert f. induction cs as [|[a b] cs IH]; intros f Hcs Hnd x.
  { rewrite !decide_False by (rewrite ?elem_of_nil; tauto). done. }
  apply NoDup_cons in Hnd as [Ha Hnd].
  assert (Ha' : (a, a + k) ∉ cs) by (intros H; apply Ha, (list_elem_of_fmap_2 fst _ _ H)).
  destruct (Hcs a b ltac:(left)) as (-> & La & Lb).
  assert (Hcs' : forall a b, (a, b) ∈ cs -> b = a + k /\ low a = true /\ low b = false)
    by (intros; apply Hcs; by right).
  change (run01 ((a, a + k) :: cs) f x) with (run01 cs (cx f (a, a + k)) x).
  rewrite IH by done. unfold cx; simpl.
  destruct (decide (x = a)) as [->|Hxa].
  - rewrite (decide_False (P := (a, a + k) ∈ cs)) by done.
    rewrite (decide_False (P := k <= a /\ (a - k, a) ∈ cs))
      by (intros [? (_ & _ & ?)%Hcs']; congruence).
    rewrite decide_True by left. by rewrite Nat.eqb_refl.
  - destruct (decide (x = a + k)) as [->|Hxb].
    + rewrite (decide_False (P := (a + k, a + k + k) ∈ cs)) by (intros (_ & ? & _)%Hcs'; congruence).
      rewrite (decide_False (P := k <= a + k /\ (a + k - k, a + k) ∈ cs))
        by (rewrite Nat.add_sub; tauto).
      rewrite (decide_False (P := (a + k, a + k + k) ∈ _ :: cs))
        by (intros [[=]|(_ & ? & _)%Hcs']%elem_of_cons; [lia|congruence]).
      rewrite decide_True by (rewrite Nat.add_sub; split; [lia|left]).
      rewrite Nat.eqb_refl, Nat.add_sub. by destruct (Nat.eqb_spec (a + k) a); [lia|].
    + assert (Hd1 : (x, x + k) ∈ (a, a + k) :: cs <-> (x, x + k) ∈ cs)
        by (rewrite elem_of_cons; split; [intros [[= ]|]; [lia|done]|auto]).
      assert (Hd2 : (k <= x /\ (x - k, x) ∈ (a, a + k) :: cs) <-> (k <= x /\ (x - k, x) ∈ cs))
        by (rewrite elem_of_cons; split; [intros [? [[= ]|]]; [lia|done]|intros []; auto]).
      rewrite (decide_ext _ _ _ _ Hd1), (decide_ext _ _ _ _ Hd2).
      destruct (Nat.eqb_spec x a), (Nat.eqb_spec x (a + k)); try lia.
      destruct (decide ((x, x + k) ∈ cs)) as [Hin|].
      * destruct (Hcs' _ _ Hin) as (_ & ? & ?).
        destruct (Nat.eqb_spec (x + k) a), (Nat.eqb_spec (x + k) (a + k)); try lia; congruence.
      * destruct (decide (k <= x /\ (x - k, x) ∈ cs)) as [[? Hin]|]; [|done].
        destruct (Hcs' _ _ Hin) as (_ & ? & ?).
        destruct (Nat.eqb_spec (x - k) a), (Nat.eqb_spec (x - k) (a + k)); try lia; try done. congruence.
Qed.

(** ** One layer *)

(** [x] is the first component of a pair of the layer that starts at [j]. *)
Definition low (j k x : nat) : bool := (j <=? x) && ((x - j) mod (2 * k) <? k).
Definition same_region (two_p k x : nat) : bool := x / two_p =? (x + k) / two_p.

Lemma low_add j k x : 0 < k -> low j k x = true -> low j k (x + k) = false.
Proof.
  unfold low. intros Hk H. breflect. apply andb_false_iff. right. apply Nat.ltb_ge.
  replace (x + k - j) with (x - j + k) by lia.
  rewrite (Nat.div_mod_eq (x - j) (2 * k)) at 1.
  replace (2 * k * ((x - j) / (2 * k)) + (x - j) mod (2 * k) + k)
    with ((x - j) mod (2 * k) + k + (x - j) / (2 * k) * (2 * k)) by lia.
  rewrite Nat.Div0.mod_add, Nat.mod_small by lia. lia.
Qed.

Lemma layer_run j k two_p n f x : 0 < k -> (forall y, n <= y -> f y = true) ->
  run01 (j_loop n j k two_p n) f x =
    if low j k x && same_region two_p k x then f x && f (x + k)
    else if (k <=? x) && low j k (x - k) && same_region two_p k (x - k)
    then f (x - k) || f x else f x.
Proof.
  intros Hk Hf.
  assert (Hin : forall a b, (a, b) ∈ j_loop n j k two_p n <->
    b = a + k /\ low j k a = true /\ same_region two_p k a = true /\ a + k < n).
  { intros a b. rewrite j_loop_in by lia. unfold low, same_region.
    rewrite andb_true_iff, Nat.leb_le, Nat.ltb_lt, Nat.eqb_eq. tauto. }
  rewrite (run01_parallel k (low j k)); [|done| |apply j_loop_NoDup].
  2:{ intros a b (-> & Hl & _ & _)%Hin. split_and!; [done..|]. by apply low_add. }
  destruct (decide _) as [(_ & -> & -> & _)%Hin|Hn1]; [done|].
  rewrite Hin in Hn1. destruct (low j k x && same_region two_p k x) eqn:E1.
  - apply andb_prop in E1 as [El Es].
    rewrite (Hf (x + k)), andb_true_r by (apply Nat.le_ngt; intros ?; apply Hn1; split_and!; (done || lia)).
    rewrite decide_False; [done|]. intros [Hkx (_ & Hl & _)%Hin].
    apply low_add in Hl; [|done]. rewrite Nat.sub_add in Hl by done. congruence.
  - destruct (decide _) as [[Hkx (_ & -> & -> & _)%Hin]|Hn2].
    + by rewrite (proj2 (Nat.leb_le k x) Hkx).
    + destruct (Nat.leb_spec k x); [|done]. rewrite Hin, Nat.sub_add in Hn2 by done. simpl.
      destruct (low j k (x - k) && same_region two_p k (x - k)) eqn:E2; [|done].
      apply andb_prop in E2 as [??]. rewrite (Hf x), orb_true_r; [done|].
      apply Nat.le_ngt. intros ?. apply Hn2. split_and!; (done || lia).
Qed.

(** Where a position of block [m] lies relative to a layer. *)
Lemma same_region_spec p k m y : y < 2 * p ->
  same_region (2 * p) k (2 * p * m + y) = (y + k <? 2 * p) || false.
Proof.
  intros Hy. unfold same_region. rewrite orb_false_r.
  assert ((2 * p * m + y) / (2 * p) = m) as ->.
  { symmetry. apply (Nat.div_unique _ _ _ y); lia. }
  destruct (Nat.ltb_spec (y + k) (2 * p)).
  - apply Nat.eqb_eq. apply (Nat.div_unique _ _ _ (y + k)); lia.
  - apply Nat.eqb_neq. intros E.
    pose proof (Nat.mul_succ_div_gt (2 * p * m + y + k) (2 * p) ltac:(lia)). nia.
Qed.

Lemma low_first k q s : s < 2 * k -> low 0 k (2 * k * q + s) = (s <? k).
Proof.
  intros Hs. unfold low. rewrite Nat.sub_0_r. f_equal.
  rewrite (Nat.mul_comm (2 * k)), Nat.add_comm, Nat.Div0.mod_add, Nat.mod_small by lia. done.
Qed.

Lemma low_next k q s : s < 2 * k -> low k k (2 * k * q + s) = (k <=? s).
Proof.
  intros Hs. unfold low. destruct (Nat.leb_spec k s).
  - replace (2 * k * q + s - k) with (s - k + q * (2 * k)) by lia.
    rewrite Nat.Div0.mod_add, Nat.mod_small by lia.
    apply andb_true_iff. rewrite Nat.leb_le, Nat.ltb_lt. nia.
  - destruct (Nat.leb_spec k (2 * k * q + s)); [|done]. rewrite andb_true_l. apply Nat.ltb_ge.
    destruct q as [|q]; [lia|].
    replace (2 * k * S q + s - k) with (s + k + q * (2 * k)) by lia.
    rewrite Nat.Div0.mod_add, Nat.mod_small by lia. lia.
Qed.

(** The first layer of a stage compares the halves of every block. *)
Lemma first_layer p n f m x : (forall y, n <= y -> f y = true) -> x < p ->
  let g := run01 (j_loop n 0 p (2 * p) n) f in
  g (2 * p * m + x) = f (2 * p * m + x) && f (2 * p * m + p + x) /\
  g (2 * p * m + p + x) = f (2 * p * m + x) || f (2 * p * m + p + x).
Proof.
  intros Hf Hx g. subst g. rewrite !layer_run by (done || lia).
  replace (2 * p * m + p + x - p) with (2 * p * m + x) by lia.
  replace (2 * p * m + x + p) with (2 * p * m + p + x) by lia.
  rewrite <- !Nat.add_assoc, !low_first, !same_region_spec by lia.
  rewrite (proj2 (Nat.ltb_lt x p)), (proj2 (Nat.ltb_ge (p + x) p)) by lia.
  rewrite (proj2 (Nat.ltb_lt (x + p) (2 * p))) by lia.
  by rewrite (proj2 (Nat.leb_le p (2 * p * m + (p + x)))) by lia.
Qed.

(** A later layer, at distance [h], compares the upper half of each row of
    width [2h] with the lower half of the next row of the same block; a block
    has [R] rows. *)
Lemma next_layer p h R n f m c s : (forall y, n <= y -> f y = true) ->
  2 * p = 2 * h * R -> c < R -> s < h ->
  let g := run01 (j_loop n h h (2 * p) n) f in
  g (2 * p * m + 2 * h * c + h + s) =
    (if c + 1 <? R then f (2 * p * m + 2 * h * c + h + s) && f (2 * p * m + 2 * h * (c + 1) + s)
     else f (2 * p * m + 2 * h * c + h + s)) /\
  g (2 * p * m + 2 * h * c + s) =
    (if c =? 0 then f (2 * p * m + 2 * h * c + s)
     else f (2 * p * m + 2 * h * (c - 1) + h + s) || f (2 * p * m + 2 * h * c + s)).
Proof.
  intros Hf HR Hc Hs g. subst g. rewrite !layer_run by (done || lia). split.
  - replace (2 * p * m + 2 * h * c + h + s) with (2 * h * (R * m + c) + (h + s)) at 1 by nia.
    rewrite low_next by lia. rewrite (proj2 (Nat.leb_le h (h + s))) by lia.
    replace (2 * p * m + 2 * h * c + h + s) with (2 * p * m + (2 * h * c + h + s)) at 1 by lia.
    rewrite same_region_spec by nia.
    replace (2 * p * m + 2 * h * c + h + s - h) with (2 * h * (R * m + c) + s) by nia.
    rewrite (low_next h _ s) by lia. rewrite (proj2 (Nat.leb_gt h s)) by lia.
    rewrite andb_false_r, orb_false_r, andb_true_l, andb_false_l.
    replace (2 * p * m + 2 * h * c + h + s + h) with (2 * p * m + 2 * h * (c + 1) + s) by lia.
    destruct (Nat.ltb_spec (c + 1) R) as [Hc1|Hc1].
    + pose proof (Nat.mul_le_mono_l (c + 2) R (2 * h) ltac:(lia)).
      by rewrite (proj2 (Nat.ltb_lt _ (2 * p))) by lia.
    + assert (c + 1 = R) as <- by lia. by rewrite (proj2 (Nat.ltb_ge _ (2 * p))) by lia.
  - replace (2 * p * m + 2 * h * c + s) with (2 * h * (R * m + c) + s) at 1 by nia.
    rewrite low_next by lia. rewrite (proj2 (Nat.leb_gt h s)) by lia. rewrite andb_false_l.
    destruct (Nat.eqb_spec c 0) as [->|Hc0].
    + destruct m as [|m].
      * destruct (Nat.leb_spec h (2 * p * 0 + 2 * h * 0 + s)); [lia|done].
      * replace (2 * p * S m + 2 * h * 0 + s - h) with (2 * p * m + (2 * h * (R - 1) + (h + s))) by nia.
        rewrite same_region_spec by nia.
        rewrite (proj2 (Nat.ltb_ge (2 * h * (R - 1) + (h + s) + h) (2 * p))) by nia.
        by rewrite !andb_false_r.
    + replace (2 * p * m + 2 * h * c + s - h) with (2 * p * m + 2 * h * (c - 1) + h + s) by nia.
      replace (2 * p * m + 2 * h * (c - 1) + h + s) with (2 * h * (R * m + (c - 1)) + (h + s)) at 1 by nia.
      rewrite low_next by lia. rewrite (proj2 (Nat.leb_le h (h + s))) by lia.
      replace (2 * p * m + 2 * h * (c - 1) + h + s) with (2 * p * m + (2 * h * (c - 1) + h + s)) at 1 by lia.
      rewrite same_region_spec by nia.
      rewrite (proj2 (Nat.ltb_lt (2 * h * (c - 1) + h + s + h) (2 * p))) by nia.
      by rewrite (proj2 (Nat.leb_le h _)) by nia.
Qed.

(** ** One stage merges the sorted halves of every block *)

Definition ones_from (n : nat) (f : nat -> bool) : Prop := forall y, n <= y -> f y = true.

(** The number of elements below [a] that are congruent to [r] modulo [k]. *)
Definition cnt (k r a : nat) : nat := (a + (k - 1 - r)) / k.

(** Block [m] (of size [2p = k * R]) seen as [R] rows of width [k]: column [r]
    is sorted, with as many zeros as both halves had in that column. *)
Definition columns (p k R : nat) (f : nat -> bool) (m a b : nat) : Prop :=
  forall c r, c < R -> r < k -> f (2 * p * m + k * c + r) = (cnt k r a + cnt k r b <=? c).

Definition block_sorted (q : nat) (f : nat -> bool) (m a : nat) : Prop :=
  forall x, x < q -> f (q * m + x) = (a <=? x).

(** Every block of [q] positions is sorted. *)
Definition blocks_sorted (q : nat) (f : nat -> bool) : Prop :=
  forall m, exists a, a <= q /\ block_sorted q f m a.

Lemma layer_ones n j k two_p f : 0 < k -> ones_from n f -> ones_from n (run01 (j_loop n j k two_p n) f).
Proof.
  intros Hk Hf y Hy. rewrite layer_run by done.
  rewrite (Hf y), (Hf (y + k)), orb_true_r by lia. by repeat case_match.
Qed.

Lemma cnt_first p r a : r < p -> a <= p -> cnt p r a = if r <? a then 1 else 0.
Proof.
  intros Hr Ha. unfold cnt. destruct (Nat.ltb_spec r a).
  - symmetry. apply (Nat.div_unique _ _ _ (a - 1 - r)); lia.
  - apply Nat.div_small. lia.
Qed.

Lemma columns_first p n f m a b : ones_from n f -> a <= p -> b <= p ->
  (forall x, x < p -> f (2 * p * m + x) = (a <=? x)) ->
  (forall x, x < p -> f (2 * p * m + p + x) = (b <=? x)) ->
  columns p p 2 (run01 (j_loop n 0 p (2 * p) n) f) m a b.
Proof.
  intros Hf Ha Hb HA HB c r Hc Hr.
  destruct (first_layer p n f m r Hf Hr) as [E1 E2].
  rewrite !cnt_first by done. destruct c as [|[|c]]; [| |lia].
  - rewrite Nat.mul_0_r, Nat.add_0_r, E1, HA, HB by done.
    destruct (Nat.leb_spec a r), (Nat.leb_spec b r), (Nat.ltb_spec r a), (Nat.ltb_spec r b); (done || lia).
  - rewrite Nat.mul_1_r, E2, HA, HB by done.
    destruct (Nat.leb_spec a r), (Nat.leb_spec b r), (Nat.ltb_spec r a), (Nat.ltb_spec r b); (done || lia).
Qed.

(** Splitting a column of width [2h] into two columns of width [h]. *)
Lemma cnt_split h s a : s < h ->
  cnt h s a = cnt (2 * h) s a + cnt (2 * h) (s + h) a /\
  cnt (2 * h) (s + h) a <= cnt (2 * h) s a <= cnt (2 * h) (s + h) a + 1.
Proof.
  intros Hs. unfold cnt.
  replace (2 * h - 1 - s) with (h - 1 - s + h) by lia.
  replace (2 * h - 1 - (s + h)) with (h - 1 - s) by lia.
  rewrite !Nat.add_assoc. set (X := a + (h - 1 - s)).
  pose proof (Nat.div_mod_eq X h) as HX. pose proof (Nat.mod_upper_bound X h ltac:(lia)) as Hr.
  set (q := X / h) in *. set (r := X mod h) in *. clearbody q r X. subst X.
  assert (forall q, (h * q + r) / (2 * h) = q / 2) as Hd.
  { intros q'. rewrite (Nat.mul_comm 2), <- Nat.Div0.div_div. f_equal.
    symmetry. apply (Nat.div_unique _ _ _ r); lia. }
  replace (h * q + r + h) with (h * (q + 1) + r) by lia. rewrite !Hd.
  pose proof (Nat.div_mod_eq q 2). pose proof (Nat.div_mod_eq (q + 1) 2).
  pose proof (Nat.mod_upper_bound q 2). pose proof (Nat.mod_upper_bound (q + 1) 2). lia.
Qed.

Lemma cnt_bound k Q r a : r < k -> a <= k * Q -> cnt k r a <= Q.
Proof.
  intros Hr Ha. unfold cnt. apply Nat.lt_succ_r, Nat.Div0.div_lt_upper_bound. lia.
Qed.

Lemma columns_next p h Q n f m a b : ones_from n f -> p = 2 * h * Q -> a <= p -> b <= p ->
  columns p (2 * h) (2 * Q) f m a b ->
  columns p h (4 * Q) (run01 (j_loop n h h (2 * p) n) f) m a b.
Proof.
  intros Hf HR Hap Hbp Hcol c r Hc Hr.
  pose proof (cnt_bound (2 * h) Q r a ltac:(lia) ltac:(lia)) as HaQ.
  pose proof (cnt_bound (2 * h) Q r b ltac:(lia) ltac:(lia)) as HbQ.
  set (R := 2 * Q) in *. assert (H2 : 2 * p = 2 * h * R) by lia. assert (HR2 : R = 2 * Q) by done.
  clearbody R. clear HR.
  pose proof (cnt_split h r a Hr) as [-> Ha]. pose proof (cnt_split h r b Hr) as [-> Hb].
  set (ua := cnt (2 * h) r a) in *. set (ub := cnt (2 * h) r b) in *.
  set (wa := cnt (2 * h) (r + h) a) in *. set (wb := cnt (2 * h) (r + h) b) in *.
  assert (Hlo : forall d, d < R -> f (2 * p * m + 2 * h * d + r) = (ua + ub <=? d))
    by (intros; apply Hcol; lia).
  assert (Hhi : forall d, d < R -> f (2 * p * m + 2 * h * d + h + r) = (wa + wb <=? d)).
  { intros. rewrite <- Nat.add_assoc, (Nat.add_comm h r). apply Hcol; lia. }
  destruct (Nat.Even_or_Odd c) as [[d ->]|[d ->]].
  - destruct (next_layer p h R n f m d r Hf H2 ltac:(lia) Hr) as [_ E].
    replace (h * (2 * d)) with (2 * h * d) by lia. rewrite E.
    destruct (Nat.eqb_spec d 0) as [->|]; rewrite ?Hlo, ?Hhi by lia;
      apply eq_iff_eq_true; rewrite ?orb_true_iff, ?Nat.leb_le; lia.
  - destruct (next_layer p h R n f m d r Hf H2 ltac:(lia) Hr) as [E _].
    replace (2 * p * m + h * (2 * d + 1) + r) with (2 * p * m + 2 * h * d + h + r) by lia. rewrite E.
    destruct (Nat.ltb_spec (d + 1) R); rewrite ?Hlo, ?Hhi by lia;
      apply eq_iff_eq_true; rewrite ?andb_true_iff, ?Nat.leb_le; lia.
Qed.

Lemma land_pred_pow2 g e : e <= g -> Nat.land (2 ^ g - 1) (2 ^ e) = if e =? g then 0 else 2 ^ e.
Proof.
  intros He. rewrite Nat.land_comm, Nat.sub_1_r, <- Nat.ones_equiv, Nat.land_ones.
  destruct (Nat.eqb_spec e g) as [->|]; [apply Nat.Div0.mod_same|].
  apply Nat.mod_small. apply Nat.pow_lt_mono_r; lia.
Qed.

Lemma div2_pow2_succ e : Nat.div2 (2 ^ S e) = 2 ^ e.
Proof. rewrite Nat.pow_succ_r'. apply Nat.div2_double. Qed.

Lemma pow2_pos e : 0 < 2 ^ e.
Proof. pose proof (Nat.pow_nonzero 2 e). lia. Qed.

(** The layers at distances [2^e, 2^(e-1), ..., 1] of a stage. *)
Lemma k_loop_columns g n m a b : a <= 2 ^ g -> b <= 2 ^ g ->
  forall e fuel Q f, e < g -> e < fuel -> ones_from n f -> 2 ^ g = 2 * 2 ^ e * Q ->
  columns (2 ^ g) (2 * 2 ^ e) (2 * Q) f m a b ->
  columns (2 ^ g) 1 (2 * 2 ^ g) (run01 (k_loop fuel (2 ^ e) (2 ^ g) n) f) m a b.
Proof.
  intros Ha Hb. induction e as [|e IH]; intros fuel Q f He Hf Hn HQ Hcol;
    (destruct fuel as [|fuel]; [lia|]); cbn [k_loop];
    rewrite land_pred_pow2, (proj2 (Nat.eqb_neq _ g)), run01_app by lia.
  - change (2 ^ 0) with 1 in *. change (Nat.div2 1 =? 0) with true.
    pose proof (columns_next _ 1 Q n f m a b Hn HQ Ha Hb Hcol) as H.
    by replace (4 * Q) with (2 * 2 ^ g) in H by lia.
  - rewrite div2_pow2_succ, (proj2 (Nat.eqb_neq (2 ^ e) 0)) by (pose proof (pow2_pos e); lia).
    apply (IH _ (2 * Q)); [lia..| | |].
    + apply layer_ones; [apply pow2_pos|done].
    + rewrite Nat.pow_succ_r' in HQ. lia.
    + rewrite <- Nat.pow_succ_r'. replace (2 * (2 * Q)) with (4 * Q) by lia. by apply columns_next.
Qed.

Lemma k_loop_ones g n e fuel f : ones_from n f -> ones_from n (run01 (k_loop fuel (2 ^ e) (2 ^ g) n) f).
Proof.
  revert fuel f. induction e as [|e IH]; intros [|fuel] f Hf; cbn [k_loop]; try done; rewrite run01_app.
  - change (Nat.div2 (2 ^ 0) =? 0) with true. apply layer_ones; [simpl; lia|done].
  - rewrite div2_pow2_succ. case_match; [|apply IH]; (apply layer_ones; [apply pow2_pos|done]).
Qed.

(** A stage turns sorted blocks into sorted blocks of twice the size. *)
Lemma stage_sorts g n f : ones_from n f -> blocks_sorted (2 ^ g) f ->
  blocks_sorted (2 * 2 ^ g) (run01 (k_loop (2 ^ g) (2 ^ g) (2 ^ g) n) f).
Proof.
  intros Hf Hs m. destruct (Hs (2 * m)) as (a & Ha & HA). destruct (Hs (2 * m + 1)) as (b & Hb & HB).
  exists (a + b). split; [lia|].
  enough (Hcol : columns (2 ^ g) 1 (2 * 2 ^ g) (run01 (k_loop (2 ^ g) (2 ^ g) (2 ^ g) n) f) m a b).
  { intros x Hx. specialize (Hcol x 0 Hx ltac:(lia)). rewrite Nat.mul_1_l, Nat.add_0_r in Hcol.
    rewrite Hcol. unfold cnt. simpl (1 - 1 - 0). by rewrite !Nat.div_1_r, !Nat.add_0_r. }
  assert (H1 : columns (2 ^ g) (2 ^ g) 2 (run01 (j_loop n 0 (2 ^ g) (2 * 2 ^ g) n) f) m a b).
  { apply columns_first; [done..| |].
    - intros x Hx. rewrite <- HA by done. f_equal. lia.
    - intros x Hx. rewrite <- HB by done. f_equal. lia. }
  assert (Hfuel : g < 2 ^ g) by (apply Nat.pow_gt_lin_r; lia). revert Hfuel.
  generalize (2 ^ g) at 1 4. intros [|fuel] Hfuel; [lia|]. cbn [k_loop].
  rewrite land_pred_pow2, Nat.eqb_refl, run01_app by lia.
  destruct g as [|g]; [exact H1|].
  rewrite div2_pow2_succ, (proj2 (Nat.eqb_neq (2 ^ g) 0)) by (pose proof (pow2_pos g); lia).
  apply (k_loop_columns (S g) n m a b Ha Hb g fuel 1); [lia..| | |].
  - apply layer_ones; [apply pow2_pos|done].
  - rewrite Nat.pow_succ_r'. lia.
  - by rewrite <- Nat.pow_succ_r'.
Qed.

Lemma p_loop_sorts n : forall fuel g f, ones_from n f -> n < 2 ^ g + fuel * 2 ^ g -> 0 < fuel ->
  blocks_sorted (2 ^ g) f ->
  exists g', n <= 2 ^ g' /\ blocks_sorted (2 ^ g') (run01 (p_loop fuel (2 ^ g) n) f).
Proof.
  induction fuel as [|fuel IH]; intros g f Hf Hn Hfu Hs; [lia|]. cbn [p_loop].
  rewrite run01_app. pose proof (stage_sorts g n f Hf Hs) as Hst.
  rewrite <- Nat.pow_succ_r' in *. destruct (Nat.ltb_spec (2 ^ S g) n).
  - pose proof (pow2_pos g). rewrite Nat.pow_succ_r' in H.
    apply IH; [by apply k_loop_ones| |nia|done]. rewrite Nat.pow_succ_r'. nia.
  - exists (S g). by split.
Qed.

(** The network sorts every 0-1 sequence of length [n]. *)
Lemma msort_network_01 n f i j : ones_from n f -> i < j -> j < n ->
  let g := run01 (msort_network n) f in g i = true -> g j = true.
Proof.
  intros Hf Hij Hj. cbv zeta. unfold msort_network.
  rewrite (proj2 (Nat.ltb_lt 1 n)) by lia.
  destruct (p_loop_sorts n n 0 f Hf) as (g' & Hg & Hs); [simpl; lia..| |].
  - intros m. exists (if f m then 0 else 1). split; [case_match; simpl; lia|].
    intros x Hx. simpl in Hx. assert (x = 0) as -> by lia. simpl. rewrite !Nat.add_0_r. by destruct (f m).
  - destruct (Hs 0) as (a & _ & Ha). pose proof (Ha i ltac:(lia)) as Ei. pose proof (Ha j ltac:(lia)) as Ej.
    rewrite Nat.mul_0_r, !Nat.add_0_l in *. change (2 ^ 0) with 1 in *. rewrite Ei, Ej, !Nat.leb_le. lia.
Qed.

(** ** From 0-1 sequences to arrays *)

Section Sorting.
Context {A : Type} (gt : A -> A -> bool).

Lemma comp_and_swap_length l ij : length (comp_and_swap gt l ij) = length l.
Proof. unfold comp_and_swap. repeat case_match; by rewrite ?length_insert. Qed.

Lemma run_network_length cs l : length (run_network gt cs l) = length l.
Proof.
  revert l. induction cs as [|c cs IH]; intros l; [done|]. simpl.
  rewrite IH. apply comp_and_swap_length.
Qed.

Lemma run_network_perm cs l : run_network gt cs l ≡ₚ l.
Proof.
  revert l. induction cs as [|c cs IH]; intros l; [done|]. simpl. rewrite IH.
  unfold comp_and_swap. destruct (l !! c.1) eqn:E1, (l !! c.2) eqn:E2; try done.
  case_match; [|done]. by apply Permutation_insert_swap.
Qed.

(** Comparators inside the middle of an array leave the rest alone. *)
Lemma run_network_middle cs l1 l2 l3 :
  (forall a b, (a, b) ∈ cs -> a < length l2 /\ b < length l2) ->
  run_network gt (map (fun ij => (length l1 + ij.1, length l1 + ij.2)) cs) (l1 ++ l2 ++ l3) =
  l1 ++ run_network gt cs l2 ++ l3.
Proof.
  revert l2. induction cs as [|[a b] cs IH]; intros l2 Hcs; [done|]. simpl.
  destruct (Hcs a b ltac:(left)) as [Ha Hb].
  assert (comp_and_swap gt (l1 ++ l2 ++ l3) (length l1 + a, length l1 + b) =
    l1 ++ comp_and_swap gt l2 (a, b) ++ l3) as ->.
  { unfold comp_and_swap; simpl. rewrite !(lookup_app_r l1), !Nat.add_sub' by lia.
    rewrite !(lookup_app_l l2) by done.
    destruct (lookup_lt_is_Some_2 l2 a Ha) as [u ->], (lookup_lt_is_Some_2 l2 b Hb) as [v ->].
    case_match; [|done]. by rewrite !insert_app_r, !insert_app_l by (rewrite ?length_insert; done). }
  apply IH. intros a' b' Hin. rewrite comp_and_swap_length. apply Hcs. by right.
Qed.

Context `{!StrictWeakOrder gt}.

(** The 0-1 image of an array under the threshold [b]. *)
Definition image01 (b : A -> bool) (l : list A) (x : nat) : bool :=
  match l !! x with Some v => b v | None => true end.

(** Thresholding commutes with compare-exchange when [b] is an up-set. *)
Lemma image01_comp_and_swap b l i j : i <> j -> i < length l -> j < length l ->
  (forall x y, gt x y = true -> b y = true -> b x = true) ->
  (forall x y, gt x y = false -> b x = true -> b y = true) ->
  image01 b (comp_and_swap gt l (i, j)) ≐ cx (image01 b l) (i, j).
Proof.
  intros Hij [u Hi]%lookup_lt_is_Some_2 [v Hj]%lookup_lt_is_Some_2 Hup Hdown x.
  unfold comp_and_swap, cx, image01; simpl. rewrite Hi, Hj.
  specialize (Hup u v). specialize (Hdown u v).
  pose proof (lookup_lt_Some _ _ _ Hi). pose proof (lookup_lt_Some _ _ _ Hj).
  destruct (Nat.eqb_spec x i) as [->|]; [|destruct (Nat.eqb_spec x j) as [->|]].
  - destruct (gt u v); rewrite ?list_lookup_insert_eq, ?Hi by (by rewrite length_insert);
      destruct (b u), (b v); naive_solver.
  - destruct (gt u v); rewrite ?list_lookup_insert_ne, ?list_lookup_insert_eq, ?Hj by done;
      destruct (b u), (b v); naive_solver.
  - destruct (gt u v); [|done]. by rewrite !list_lookup_insert_ne by done.
Qed.

Lemma image01_run b cs l :
  (forall i j, (i, j) ∈ cs -> i < j < length l) ->
  (forall x y, gt x y = true -> b y = true -> b x = true) ->
  (forall x y, gt x y = false -> b x = true -> b y = true) ->
  image01 b (run_network gt cs l) ≐ run01 cs (image01 b l).
Proof.
  intros Hcs Hup Hdown. revert l Hcs. induction cs as [|[i j] cs IH]; intros l Hcs; [done|]. simpl.
  destruct (Hcs i j ltac:(left)). rewrite IH.
  - apply run01_proper, image01_comp_and_swap; (done || lia).
  - intros. rewrite comp_and_swap_length. apply Hcs. by right.
Qed.

(** The 0-1 principle, at the threshold "greater than the [j]-th output". *)
Lemma network_sorts cs l :
  (forall i j, (i, j) ∈ cs -> i < j < length l) ->
  (forall f i j, ones_from (length l) f -> i < j -> j < length l ->
     run01 cs f i = true -> run01 cs f j = true) ->
  ascending gt (run_network gt cs l).
Proof.
  intros Hcs H01 i j x y Hij Hi Hj. destruct (gt x y) eqn:E; [|done]. exfalso.
  set (b := fun z => gt z y).
  assert (Himg : image01 b (run_network gt cs l) ≐ run01 cs (image01 b l)).
  { apply image01_run; [done|..]; unfold b; intros z w Hzw Hz.
    - by apply (gt_trans (gt := gt) z w y).
    - destruct (gt_cotrans (gt := gt) z w y Hz); congruence. }
  assert (Hlen := lookup_lt_Some _ _ _ Hj). rewrite run_network_length in Hlen.
  specialize (H01 (image01 b l) i j). rewrite <- !Himg in H01.
  unfold image01 at 2 3 in H01. rewrite Hi, Hj in H01. unfold b in H01.
  rewrite (gt_irrefl (gt := gt) y), E in H01. discriminate H01; try done.
  intros z Hz. unfold image01. by rewrite (lookup_ge_None_2 l z Hz).
Qed.
End Sorting.

(** ** The loops stay inside the range *)

Lemma j_loop_bound fuel j k two_p n a b : 0 < k -> (a, b) ∈ j_loop fuel j k two_p n -> a < b < n.
Proof.
  intros Hk. revert j. induction fuel as [|fuel IH]; intros j; cbn [j_loop]; [by intros ?%elem_of_nil|].
  rewrite elem_of_app. intros [H|H].
  - apply i_loop_in in H as (-> & Hr & _). case_match; breflect; lia.
  - case_match; [by eapply IH|by apply elem_of_nil in H].
Qed.

Lemma k_loop_bound fuel k p n a b : 0 < k -> (a, b) ∈ k_loop fuel k p n -> a < b < n.
Proof.
  revert k. induction fuel as [|fuel IH]; intros k Hk; cbn [k_loop]; [by intros ?%elem_of_nil|].
  rewrite elem_of_app. intros [H|H]; [by eapply j_loop_bound|].
  destruct (Nat.eqb_spec (Nat.div2 k) 0); [by apply elem_of_nil in H|].
  apply (IH (Nat.div2 k)); [|done]. by apply Nat.neq_0_lt_0.
Qed.

Lemma p_loop_bound fuel p n a b : 0 < p -> (a, b) ∈ p_loop fuel p n -> a < b < n.
Proof.
  revert p. induction fuel as [|fuel IH]; intros p Hp; cbn [p_loop]; [by intros ?%elem_of_nil|].
  rewrite elem_of_app. intros [H|H]; [by eapply k_loop_bound|].
  case_match; [|by apply elem_of_nil in H]. apply (IH (2 * p)); [lia|done].
Qed.

Lemma msort_network_bound n a b : (a, b) ∈ msort_network n -> a < b < n.
Proof.
  unfold msort_network. case_match; [|by intros ?%elem_of_nil]. apply p_loop_bound. lia.
Qed.

(** ** Correctness of the sorts *)

Lemma array_split {A} (l : list A) lb ub : lb <= ub <= length l ->
  l = take lb l ++ take (ub - lb) (drop lb l) ++ drop ub l.
Proof.
  intros H. rewrite <- (take_drop lb l) at 1. f_equal.
  rewrite <- (take_drop (ub - lb) (drop lb l)) at 1. f_equal.
  rewrite drop_drop. f_equal. lia.
Qed.

Lemma msort_range_split {A} (gt : A -> A -> bool) lb ub l : lb <= ub <= length l ->
  odd_even_msort gt lb ub l =
  take lb l ++ run_network gt (msort_network (ub - lb)) (take (ub - lb) (drop lb l)) ++ drop ub l.
Proof.
  intros H. unfold odd_even_msort, sort_range. rewrite (array_split l lb ub) at 1 by done.
  assert (length (take lb l) = lb) as Hl by (rewrite length_take; lia).
  rewrite <- (run_network_middle gt _ (take lb l)), Hl; [done|].
  intros a b Hin%msort_network_bound. rewrite length_take, length_drop. lia.
Qed.

(** The sort of a range: the rest of the array is untouched, the range is
    permuted and ends up ascending. *)
Lemma odd_even_msort_spec {A} (gt : A -> A -> bool) `{!StrictWeakOrder gt} lb ub l :
  lb <= ub <= length l ->
  exists s, odd_even_msort gt lb ub l = take lb l ++ s ++ drop ub l /\
    s ≡ₚ take (ub - lb) (drop lb l) /\ ascending gt s.
Proof.
  intros H. eexists. split; [by apply msort_range_split|]. split; [apply run_network_perm|].
  assert (Hlen : length (take (ub - lb) (drop lb l)) = ub - lb) by (rewrite length_take, length_drop; lia).
  apply network_sorts; [done|..].
  - intros i j Hin%msort_network_bound. lia.
  - rewrite Hlen. intros f i j. apply msort_network_01.
Qed.

Lemma odd_even_msort_length {A} (gt : A -> A -> bool) lb ub l :
  length (odd_even_msort gt lb ub l) = length l.
Proof. apply run_network_length. Qed.

Lemma odd_even_msort_perm {A} (gt : A -> A -> bool) lb ub l : odd_even_msort gt lb ub l ≡ₚ l.
Proof. apply run_network_perm. Qed.

(** [osort] compares the same pairs in the same order. *)
Lemma osort_k_loop_eq g n : 2 ^ g < n -> forall e fuel, e <= g ->
  osort_k_loop fuel (2 ^ e) (2 ^ g) n = k_loop fuel (2 ^ e) (2 ^ g) n.
Proof.
  intros Hn. induction e as [|e IH]; intros [|fuel] He; try done; cbn [osort_k_loop k_loop];
    rewrite land_pred_pow2 by done; pose proof (pow2_pos g).
  - rewrite (proj2 (Nat.ltb_lt _ (n - 2 ^ 0))); [done|]. case_match; breflect; simpl; [lia|].
    assert (2 <= 2 ^ g) by (apply (Nat.pow_le_mono_r 2 1 g); lia). lia.
  - rewrite (proj2 (Nat.ltb_lt _ (n - 2 ^ S e))).
    + rewrite div2_pow2_succ. f_equal. case_match; [done|]. apply IH. lia.
    + case_match; breflect; [subst; lia|].
      pose proof (Nat.pow_le_mono_r 2 (S (S e)) g ltac:(lia) ltac:(lia)) as Hp.
      rewrite (Nat.pow_succ_r' 2 (S e)) in Hp. lia.
Qed.

Lemma osort_p_loop_eq n : forall fuel g, 2 ^ g < n -> osort_p_loop fuel (2 ^ g) n = p_loop fuel (2 ^ g) n.
Proof.
  induction fuel as [|fuel IH]; intros g Hg; [done|]. cbn [osort_p_loop p_loop].
  rewrite (proj2 (Nat.eqb_neq (2 ^ g) 0)) by (pose proof (pow2_pos g); lia). simpl (negb false). cbv iota.
  rewrite osort_k_loop_eq by done. f_equal. rewrite <- Nat.pow_succ_r'.
  destruct (Nat.ltb_spec (2 ^ S g) n); [by apply IH|done].
Qed.

Lemma osort_network_eq n : osort_network n = msort_network n.
Proof.
  unfold osort_network, msort_network. destruct (Nat.ltb_spec 1 n); [|done].
  by apply (osort_p_loop_eq n n 0).
Qed.

Lemma osort_msort {A} (gt : A -> A -> bool) lb ub l : osort gt lb ub l = odd_even_msort gt lb ub l.
Proof. unfold osort, odd_even_msort, sort_range. by rewrite osort_network_eq. Qed.

(** ** Properties *)

(** C33. Batcher's odd-even merge sort, for any length and any strict weak order:
    the network sorts the range and only the range, and the result is a
    permutation of the input. *)
Theorem odd_even_msort_sorts {A} (gt : A -> A -> bool) `{!StrictWeakOrder gt} lb ub l :
  lb <= ub <= length l ->
  exists s, odd_even_msort gt lb ub l = take lb l ++ s ++ drop ub l /\
    s ≡ₚ take (ub - lb) (drop lb l) /\ ascending gt s.
Proof. by apply odd_even_msort_spec. Qed.

#[local] Instance nat_gt_order : StrictWeakOrder (fun x y : nat => y <? x).
Proof. constructor; intros *; rewrite ?Nat.ltb_irrefl, ?Nat.ltb_lt; lia. Qed.

Lemma odd_even_msort_sorts_witness :
  odd_even_msort (fun x y => y <? x) 1 6 [9; 5; 3; 8; 1; 4; 0] = [9; 1; 3; 4; 5; 8; 0] /\
  exists s, odd_even_msort (fun x y => y <? x) 1 6 [9; 5; 3; 8; 1; 4; 0] = [9] ++ s ++ [0] /\
    ascending (fun x y => y <? x) s.
Proof.
  split; [reflexivity|].
  destruct (odd_even_msort_sorts (fun x y => y <? x) 1 6 [9; 5; 3; 8; 1; 4; 0] ltac:(simpl; lia)) as (s & Hs & _ & Ha).
  exists s. split; [exact Hs|exact Ha].
Defined.

(** The general oblivious sort, which bounds its inner loop differently,
    performs the same comparisons in the same order as the stash's sort. *)
Theorem osort_equals_msort {A} (gt : A -> A -> bool) lb ub l :
  osort gt lb ub l = odd_even_msort gt lb ub l /\ osort_network (ub - lb) = msort_network (ub - lb).
Proof. split; [apply osort_msort|apply osort_network_eq]. Qed.
