(* ===== verification/Bucket.v ===== *)
(** * Blocks and the bucket store ([c/path_oram/bucket.h], [bucket.c], [bucket.jinc])

    A block holds an id, the leaf it is assigned to and 168 data words; a block
    whose id is [EMPTY_BLOCK_ID] is vacant.  The store is the array of the
    tree's buckets, three blocks each, indexed by the in-order node number. *)

From S2P Require Import Prelude TreePath.
Local Open Scope Z_scope.

(** ** Definitions *)

Definition ENCRYPTED_BUCKET_SIZE : Z := 4096.
Definition DECRYPTED_BUCKET_SIZE : Z := ENCRYPTED_BUCKET_SIZE.
Definition BLOCKS_PER_BUCKET : nat := 3.
Definition DECRYPTED_BLOCK_SIZE : Z := DECRYPTED_BUCKET_SIZE / Z.of_nat BLOCKS_PER_BUCKET.
Definition DECRYPTED_BLOCK_SIZE_QWORDS : Z := DECRYPTED_BLOCK_SIZE / 8.
Definition UNROUNDED_BLOCK_DATA_SIZE_BYTES : Z := DECRYPTED_BLOCK_SIZE - 16.
Definition BLOCK_DATA_SIZE_QWORDS : nat := Z.to_nat (UNROUNDED_BLOCK_DATA_SIZE_BYTES / 8).
Definition BLOCK_DATA_SIZE_BYTES : Z := Z.of_nat BLOCK_DATA_SIZE_QWORDS * 8.
Definition EMPTY_BLOCK_ID : Z := UINT64_MAX.

Record block := Block { id : Z; position : Z; data : list Z }.

(** A block whose bytes are all 255. *)
Definition blank_block : block :=
  {| id := UINT64_MAX; position := UINT64_MAX;
     data := replicate BLOCK_DATA_SIZE_QWORDS UINT64_MAX |}.

Definition block_is_empty (b : block) : bool := id b =? EMPTY_BLOCK_ID.

(** The bytes of the store, grouped into buckets of three blocks; the 16 bytes
    of a page past its third block are never accessed. *)
Record bucket_store := BucketStore { size_bytes : Z; buckets : list (list block) }.

Definition blank_bucket : list block := replicate BLOCKS_PER_BUCKET blank_block.

(** [memset(data, 255, size_bytes)] *)
Definition blank_buckets (size_bytes : Z) : list (list block) :=
  replicate (Z.to_nat (size_bytes / ENCRYPTED_BUCKET_SIZE)) blank_bucket.

Definition bucket_store_create (num_levels : Z) : bucket_store :=
  let num_buckets := tree_path_num_nodes num_levels in
  let size_bytes := num_buckets [*] ENCRYPTED_BUCKET_SIZE in
  {| size_bytes := size_bytes; buckets := blank_buckets size_bytes |}.

Definition bucket_store_clear (s : bucket_store) : bucket_store :=
  {| size_bytes := size_bytes s; buckets := blank_buckets (size_bytes s) |}.

Definition bucket_store_block_data_size (s : bucket_store) : nat := BLOCK_DATA_SIZE_QWORDS.

(** The blocks of bucket [bucket_id]; the callers pass node numbers of the tree. *)
Definition read_bucket_blocks (s : bucket_store) (bucket_id : Z) : list block :=
  default [] (buckets s !! Z.to_nat bucket_id).

Definition write_bucket_blocks (s : bucket_store) (bucket_id : Z) (bucket_data : list block) :
    bucket_store :=
  {| size_bytes := size_bytes s;
     buckets := <[Z.to_nat bucket_id := bucket_data]> (buckets s) |}.

#[export] Instance block_eq_dec : EqDecision block.
Proof. solve_decision. Defined.

(** Well-formed blocks: 168 data words; an occupied block sits at a leaf. *)
Definition block_wf (L : nat) (b : block) : Prop :=
  length (data b) = BLOCK_DATA_SIZE_QWORDS /\ (block_is_empty b = false -> is_leaf L (position b)).

(** The occupied blocks of a list. *)
Definition live (l : list block) : list block := filter (fun b => block_is_empty b = false) l.

Definition store_wf (L : nat) (s : bucket_store) : Prop :=
  length (buckets s) = Z.to_nat (2 ^ Z.of_nat L - 1) /\
  Forall (fun bk => length bk = BLOCKS_PER_BUCKET) (buckets s) /\
  size_bytes s = (2 ^ Z.of_nat L - 1) * ENCRYPTED_BUCKET_SIZE.

(** ** Lemmas *)

Lemma block_sizes : DECRYPTED_BLOCK_SIZE_QWORDS = 170 /\ BLOCK_DATA_SIZE_QWORDS = 168%nat /\
  Z.of_nat BLOCKS_PER_BUCKET * DECRYPTED_BLOCK_SIZE_QWORDS * 8 <= ENCRYPTED_BUCKET_SIZE.
Proof. by vm_compute. Qed.

Lemma blank_block_empty : block_is_empty blank_block = true.
Proof. done. Qed.

Lemma live_perm l l' : l ≡ₚ l' -> live l ≡ₚ live l'.
Proof. intros H. unfold live. by rewrite H. Qed.

#[export] Instance live_proper : Proper (Permutation ==> Permutation) live.
Proof. intros l l'. apply live_perm. Qed.

Lemma live_app l l' : live (l ++ l') = live l ++ live l'.
Proof. apply filter_app. Qed.

Lemma live_cons_empty b l : block_is_empty b = true -> live (b :: l) = live l.
Proof. intros H. unfold live. rewrite filter_cons_False; congruence. Qed.

Lemma live_cons b l : block_is_empty b = false -> live (b :: l) = b :: live l.
Proof. intros H. unfold live. by rewrite filter_cons_True. Qed.

Lemma elem_of_live b l : b ∈ live l <-> block_is_empty b = false /\ b ∈ l.
Proof. unfold live. by rewrite list_elem_of_filter. Qed.

Lemma live_replicate_blank n : live (replicate n blank_block) = [].
Proof. induction n; [done|]. simpl. by rewrite live_cons_empty. Qed.

Lemma bucket_store_create_buckets L : (1 <= L <= 50)%nat ->
  store_wf L (bucket_store_create (Z.of_nat L)) /\
  buckets (bucket_store_create (Z.of_nat L)) =
    replicate (Z.to_nat (2 ^ Z.of_nat L - 1)) blank_bucket.
Proof.
  intros HL. unfold store_wf, bucket_store_create, blank_buckets, tree_path_num_nodes. simpl.
  pose proof (Z.pow_le_mono_r 2 (Z.of_nat L) 50 ltac:(lia) ltac:(lia)).
  pose proof (Z.pow_pos_nonneg 2 (Z.of_nat L) ltac:(lia) ltac:(lia)).
  rewrite shl64_small, Z.mul_1_l, sub64_small, mul64_small by (unfold ENCRYPTED_BUCKET_SIZE; lia).
  rewrite Z.div_mul by done. rewrite length_replicate.
  split_and!; try done. by apply Forall_replicate.
Qed.

Lemma store_wf_clear L s : store_wf L s -> 
  store_wf L (bucket_store_clear s) /\
  buckets (bucket_store_clear s) = replicate (Z.to_nat (2 ^ Z.of_nat L - 1)) blank_bucket.
Proof.
  intros (H1 & H2 & H3). unfold store_wf, bucket_store_clear, blank_buckets. simpl.
  rewrite H3, Z.div_mul by done. rewrite length_replicate.
  split_and!; try done. by apply Forall_replicate.
Qed.
