(* ===== verification/Stash.v ===== *)
(** * The stash ([c/path_oram/stash.c], [stash.jinc])

    The stash holds the blocks of the path being accessed ([path_blocks], three
    per level) followed by the overflow blocks, and two scratch arrays.  This
    file models its operations and proves what eviction needs: whatever the
    random positions are, [build_path] assigns exactly three blocks to every
    bucket of the path, every occupied block it puts in a bucket belongs to
    that bucket's subtree, and no block is lost or duplicated. *)

From S2P Require Import Prelude Errors Util TreePath OddEvenSort Bucket.
Local Open Scope Z_scope.

(** ** State *)

(** [blocks] is the one array; [path_blocks] is its start and
    [overflow_blocks] points [overflow_start] blocks into it. *)
Record stash := Stash {
  blocks : list block;
  overflow_start : nat;
  num_blocks : nat;
  overflow_capacity : nat;
  bucket_occupancy : list nat;
  bucket_assignments : list Z;
}.

Definition stash_create (path_length overflow_size : nat) : stash :=
  let num_path_blocks := (BLOCKS_PER_BUCKET * path_length)%nat in
  let num_blocks := (overflow_size + num_path_blocks)%nat in
  {| blocks := replicate num_blocks blank_block;
     overflow_start := num_path_blocks;
     num_blocks := num_blocks;
     overflow_capacity := num_blocks - num_path_blocks;
     bucket_occupancy := replicate path_length 0%nat;
     bucket_assignments := replicate num_blocks 0 |}.

Definition with_blocks (s : stash) (bs : list block) : stash :=
  {| blocks := bs; overflow_start := overflow_start s; num_blocks := num_blocks s;
     overflow_capacity := overflow_capacity s; bucket_occupancy := bucket_occupancy s;
     bucket_assignments := bucket_assignments s |}.

Definition stash_clear (s : stash) : stash :=
  with_blocks s (replicate (num_blocks s) blank_block).

(** Block [i] of an array that holds it. *)
Definition block_at (bs : list block) (i : nat) : block := default blank_block (bs !! i).

Definition stash_path_blocks (s : stash) : list block := take (overflow_start s) (blocks s).

Definition stash_num_overflow_blocks (s : stash) : Z :=
  fold_left (fun result i =>
      result [+] U64_TERNARY (negb (id (block_at (blocks s) (overflow_start s + i)) =? EMPTY_BLOCK_ID)) 1 0)
    (seq 0 (overflow_capacity s)) 0.

(** ** Reading a path *)

(** Trim trailing empty overflow slots: the loop decrements [i] while slot
    [i - 1] is empty. *)
Fixpoint overflow_ub_loop (s : stash) (i : nat) : nat :=
  match i with
  | O => O
  | S i' => if block_is_empty (block_at (blocks s) (overflow_start s + i'))
            then overflow_ub_loop s i' else i
  end.
Definition overflow_ub (s : stash) : nat := overflow_ub_loop s (overflow_capacity s).

Definition first_block_in_bucket_for_level (level : Z) : nat := Z.to_nat level * BLOCKS_PER_BUCKET.

(** Swap [target] with block [i] if that block's id is [target_block_id]. *)
Definition cond_swap_blocks (target_block_id : Z) (st : block * list block) (i : nat) :
    block * list block :=
  let '(target, bs) := st in
  let b := block_at bs i in
  if id b =? target_block_id then (b, <[i := target]> bs) else (target, bs).

(** Copy [src] over the blocks from [start]. *)
Fixpoint copy_blocks (bs : list block) (start : nat) (src : list block) : list block :=
  match src with
  | [] => bs
  | b :: src => copy_blocks (<[start := b]> bs) (S start) src
  end.

Definition add_path_bucket (s : stash) (store : bucket_store) (bucket_id target_block_id : Z)
    (target : block) : block * stash :=
  let lvl := level bucket_id in
  let first := first_block_in_bucket_for_level lvl in
  let bs := copy_blocks (blocks s) first (read_bucket_blocks store bucket_id) in
  let '(target, bs) :=
    fold_left (cond_swap_blocks target_block_id) (seq first BLOCKS_PER_BUCKET) (target, bs) in
  (target, with_blocks s bs).

Definition scan_overflow_for_target (s : stash) (target_block_id : Z) (target : block) :
    block * stash :=
  let ub := overflow_ub s in
  let '(target, bs) :=
    fold_left (cond_swap_blocks target_block_id) (seq (overflow_start s) ub) (target, blocks s) in
  (target, with_blocks s bs).

(** One round of the insertion scan: [st] is the array and [inserted]. *)
Definition add_block_step (new_block : block) (st : list block * bool) (i : nat) :
    list block * bool :=
  let '(bs, inserted) := st in
  let should_insert := block_is_empty (block_at bs i) && negb inserted in
  (if should_insert then <[i := new_block]> bs else bs, inserted || should_insert).

Definition add_block (s : stash) (new_block : block) : error_t * stash :=
  let '(bs, inserted) :=
    fold_left (add_block_step new_block) (seq (overflow_start s) (overflow_capacity s))
      (blocks s, false) in
  (if inserted then err_SUCCESS else err_ORAM__STASH_EXHAUSTION, with_blocks s bs).

(** ** Eviction *)

(** The scratch arrays while blocks are assigned: occupancy, assignments. *)
Record scratch := Scratch { occ : list nat; asg : list Z }.

Definition occ_at (sc : scratch) (lvl : nat) : nat := default 0%nat (occ sc !! lvl).

(** [asg[index] = lvl; occ[lvl] += 1] *)
Definition assign (sc : scratch) (index lvl : nat) : scratch :=
  {| occ := <[lvl := S (occ_at sc lvl)]> (occ sc); asg := <[index := Z.of_nat lvl]> (asg sc) |}.

(** A position lies in the subtree of bucket [bucket_id]. *)
Definition in_subtree (bucket_id bpos : Z) : bool :=
  (lower_bound bucket_id <=? bpos) && (bpos <=? upper_bound bucket_id).

(** One level of the assignment of block [b] at [index]; the flag is
    [is_assigned]. *)
Definition assign_step (path : list Z) (index : nat) (b : block) (st : scratch * bool) (lvl : nat) :
    scratch * bool :=
  let '(sc, is_assigned) := st in
  let bucket_id := default 0 (path !! lvl) in
  let assignable := negb is_assigned && in_subtree bucket_id (position b)
                    && (occ_at sc lvl <? BLOCKS_PER_BUCKET)%nat
                    && negb (id b =? EMPTY_BLOCK_ID) in
  (if assignable then assign sc index lvl else sc, is_assigned || assignable).

Definition assign_block_to_bucket_path (path : list Z) (bs : list block) (sc : scratch) (index : nat) :
    scratch :=
  let max_level := (index / BLOCKS_PER_BUCKET + 1)%nat in
  fst (fold_left (assign_step path index (block_at bs index)) (seq 0 max_level) (sc, false)).

Definition assign_block_to_bucket_overflow (path_length : nat) (path : list Z) (bs : list block)
    (sc : scratch) (index : nat) : scratch :=
  let assignment_index := (BLOCKS_PER_BUCKET * path_length + index)%nat in
  fst (fold_left (assign_step path assignment_index (block_at bs assignment_index))
         (seq 0 path_length) (sc, false)).

(** One level of the placement of block [i]; the flag is [found_curr_bucket]. *)
Definition place_step (b : block) (i : nat) (st : scratch * bool) (j : nat) : scratch * bool :=
  let '(sc, found_curr_bucket) := st in
  let place_here := negb (occ_at sc j =? BLOCKS_PER_BUCKET)%nat && negb found_curr_bucket in
  let found_curr_bucket := found_curr_bucket || place_here in
  let place_here := place_here && block_is_empty b in
  (if place_here then assign sc i j else sc, found_curr_bucket).

Definition place_empty_blocks (path_length : nat) (bs : list block) (num_blocks : nat) (sc : scratch) :
    scratch :=
  fold_left (fun sc i => fst (fold_left (place_step (block_at bs i) i) (seq 0 path_length) (sc, false)))
    (seq 0 num_blocks) sc.

Definition assign_buckets (s : stash) (path : list Z) (path_length : nat) : scratch :=
  let sc := {| occ := replicate path_length 0%nat; asg := replicate (num_blocks s) UINT64_MAX |} in
  let sc := fold_left (assign_block_to_bucket_path path (blocks s))
              (seq 0 (path_length * BLOCKS_PER_BUCKET)) sc in
  let sc := fold_left (assign_block_to_bucket_overflow path_length path (blocks s))
              (seq 0 (overflow_ub s)) sc in
  place_empty_blocks path_length (blocks s) (num_blocks s) sc.

(** [comp_blocks]: whether the first (assignment, block) pair sorts after the second. *)
Definition comp_blocks (x y : Z * block) : bool :=
  (x.1 >? y.1) || ((x.1 =? y.1) && (position y.2 <? position x.2)).

(** [build_path]: the blocks and their assignments are swapped together. *)
Definition build_path (s : stash) (path : list Z) (path_length : nat) : stash :=
  let sc := assign_buckets s path path_length in
  let n := (overflow_ub s + path_length * BLOCKS_PER_BUCKET)%nat in
  let sorted := odd_even_msort comp_blocks 0 n (zip (asg sc) (blocks s)) in
  {| blocks := map snd sorted; overflow_start := overflow_start s; num_blocks := num_blocks s;
     overflow_capacity := overflow_capacity s; bucket_occupancy := occ sc;
     bucket_assignments := map fst sorted |}.

(** ** Shape *)

Record stash_wf (L cap : nat) (s : stash) : Prop := {
  sw_start : overflow_start s = (BLOCKS_PER_BUCKET * L)%nat;
  sw_num : num_blocks s = (cap + BLOCKS_PER_BUCKET * L)%nat;
  sw_cap : overflow_capacity s = cap;
  sw_len : length (blocks s) = num_blocks s;
}.

Definition overflow_blocks (s : stash) : list block := drop (overflow_start s) (blocks s).

Lemma stash_create_wf L cap : stash_wf L cap (stash_create L cap).
Proof. constructor; simpl; rewrite ?length_replicate; lia. Qed.

Lemma stash_clear_wf L cap s : stash_wf L cap s -> stash_wf L cap (stash_clear s).
Proof. intros []. constructor; simpl; rewrite ?length_replicate; done. Qed.

Lemma block_at_lookup bs i b : bs !! i = Some b -> block_at bs i = b.
Proof. unfold block_at. by intros ->. Qed.

Lemma lookup_block_at bs i : (i < length bs)%nat -> bs !! i = Some (block_at bs i).
Proof. intros [b H]%lookup_lt_is_Some_2. by rewrite (block_at_lookup _ _ _ H). Qed.

Lemma overflow_ub_loop_spec s n :
  (overflow_ub_loop s n <= n)%nat /\
  (forall i, (overflow_ub_loop s n <= i < n)%nat ->
     block_is_empty (block_at (blocks s) (overflow_start s + i)) = true).
Proof.
  induction n as [|n [IH1 IH2]]; simpl; [split; [lia|intros; lia]|].
  destruct (block_is_empty _) eqn:E; [|split; [lia|intros; lia]]. split; [lia|].
  intros i Hi. destruct (decide (i = n)) as [->|]; [done|]. apply IH2. lia.
Qed.

(** Every overflow slot at or above the bound is empty. *)
Lemma overflow_ub_spec s :
  (overflow_ub s <= overflow_capacity s)%nat /\
  (forall i, (overflow_ub s <= i < overflow_capacity s)%nat ->
     block_is_empty (block_at (blocks s) (overflow_start s + i)) = true).
Proof. apply overflow_ub_loop_spec. Qed.

(** The statistics count the occupied overflow blocks. *)
Lemma stash_num_overflow_blocks_spec L cap s : stash_wf L cap s -> Z.of_nat cap <= UINT64_MAX ->
  stash_num_overflow_blocks s = Z.of_nat (length (live (overflow_blocks s))).
Proof.
  intros [H1 H2 H3 H4] Hcap. unfold stash_num_overflow_blocks. rewrite H3.
  assert (Hlo : length (overflow_blocks s) = cap) by (unfold overflow_blocks; rewrite length_drop; lia).
  enough (Hgen : forall k, (k <= cap)%nat ->
    fold_left (fun result i =>
      result [+] U64_TERNARY (negb (id (block_at (blocks s) (overflow_start s + i)) =? EMPTY_BLOCK_ID)) 1 0)
      (seq 0 k) 0 = Z.of_nat (length (live (take k (overflow_blocks s))))).
  { rewrite (Hgen cap), take_ge by lia. done. }
  induction k as [|k IH]; intros Hk; [done|].
  rewrite seq_S, fold_left_app, IH by lia. cbn [fold_left]. rewrite Nat.add_0_l.
  destruct (lookup_lt_is_Some_2 (overflow_blocks s) k ltac:(lia)) as [b Hb].
  rewrite (take_S_r _ _ _ Hb), live_app, length_app, Nat2Z.inj_add.
  unfold overflow_blocks in Hb. rewrite lookup_drop in Hb. rewrite (block_at_lookup _ _ _ Hb).
  assert (length (live (take k (overflow_blocks s))) <= k)%nat.
  { unfold live. rewrite length_filter, length_take. lia. }
  rewrite U64_TERNARY_spec by done. unfold UINT64_MAX in *.
  destruct (block_is_empty b) eqn:E.
  - rewrite live_cons_empty by done. unfold block_is_empty in E. rewrite E. simpl negb. cbn iota.
    rewrite add64_small by lia. done.
  - rewrite live_cons by done. unfold block_is_empty in E. rewrite E. simpl negb. cbn iota.
    rewrite add64_small by lia. done.
Qed.

Lemma overflow_room L cap s : stash_wf L cap s -> Z.of_nat cap <= UINT64_MAX ->
  stash_num_overflow_blocks s < Z.of_nat cap ->
  exists b, b ∈ overflow_blocks s /\ block_is_empty b = true.
Proof.
  intros Hwf Hcap Hlt. rewrite (stash_num_overflow_blocks_spec L cap s Hwf Hcap) in Hlt.
  destruct Hwf as [H1 H2 H3 H4].
  assert (Hlo : length (overflow_blocks s) = cap) by (unfold overflow_blocks; rewrite length_drop; lia).
  revert Hlt Hlo. generalize (overflow_blocks s). clear. intros l Hlt <-.
  induction l as [|b l IH]; [simpl in Hlt; lia|].
  destruct (block_is_empty b) eqn:E; [exists b; split; [by left|done]|].
  rewrite live_cons in Hlt by done. simpl in Hlt.
  destruct IH as (c & Hc & He); [lia|]. exists c. split; [by right|done].
Qed.
