(* ===== verification/Eviction.v ===== *)
(** * Eviction: the assignment of stash blocks to the buckets of a path

    Proofs about [assign_buckets] and [build_path] of [Stash].  For a path of
    [L] buckets read into the stash, every bucket receives exactly three
    blocks; no run of the algorithm fails, whatever the positions are. *)

From S2P Require Import Prelude Errors Util TreePath OddEvenSort Bucket Stash.
Local Open Scope Z_scope.

(** ** The level loops pick the first suitable level *)

Definition assignable (path : list Z) (b : block) (sc : scratch) (lvl : nat) : bool :=
  in_subtree (default 0 (path !! lvl)) (position b) && (occ_at sc lvl <? BLOCKS_PER_BUCKET)%nat
    && negb (block_is_empty b).

Lemma assign_fold_done path i b sc start n :
  fold_left (assign_step path i b) (seq start n) (sc, true) = (sc, true).
Proof. revert start. induction n as [|n IH]; intros start; [done|]. simpl. apply IH. Qed.

Lemma assign_fold path i b sc start n :
  fold_left (assign_step path i b) (seq start n) (sc, false) =
  match find_first (assignable path b sc) start n with
  | Some l => (assign sc i l, true)
  | None => (sc, false)
  end.
Proof.
  revert start. induction n as [|n IH]; intros start; [done|]. cbn [seq fold_left find_first].
  unfold assign_step at 2. rewrite andb_true_l, orb_false_l. fold (block_is_empty b).
  fold (assignable path b sc start). destruct (assignable path b sc start); [|apply IH].
  apply assign_fold_done.
Qed.

Definition has_room (sc : scratch) (j : nat) : bool := negb (occ_at sc j =? BLOCKS_PER_BUCKET)%nat.

Lemma place_fold_done b i sc start n :
  fold_left (place_step b i) (seq start n) (sc, true) = (sc, true).
Proof.
  revert start. induction n as [|n IH]; intros start; [done|]. cbn [seq fold_left].
  unfold place_step at 2. rewrite andb_false_r, andb_false_l. apply IH.
Qed.

Lemma place_fold b i sc start n :
  fold_left (place_step b i) (seq start n) (sc, false) =
  match find_first (has_room sc) start n with
  | Some j => (if block_is_empty b then assign sc i j else sc, true)
  | None => (sc, false)
  end.
Proof.
  revert start. induction n as [|n IH]; intros start; [done|]. cbn [seq fold_left find_first].
  unfold place_step at 2. rewrite andb_true_r, orb_false_l. fold (has_room sc start).
  destruct (has_room sc start); [|apply IH]. rewrite andb_true_l. apply place_fold_done.
Qed.

(** ** The invariant of the scratch arrays *)

Section Assign.
Context (L N : nat) (path : list Z) (bs : list block).

(** Block [i] may be written to level [l]. *)
Definition may_hold (i l : nat) : Prop :=
  block_is_empty (block_at bs i) = false ->
  in_subtree (default 0 (path !! l)) (position (block_at bs i)) = true.

Definition unassigned (sc : scratch) (i : nat) : Prop := asg sc !! i = Some UINT64_MAX.

Record scratch_inv (sc : scratch) : Prop := {
  si_occ_len : length (occ sc) = L;
  si_asg_len : length (asg sc) = N;
  si_count l : (l < L)%nat -> occ_at sc l = countb (Z.eqb (Z.of_nat l)) (asg sc);
  si_cap : Forall (fun x => x <= BLOCKS_PER_BUCKET)%nat (occ sc);
  si_sum : sum_list (occ sc) = countb (fun a => negb (a =? UINT64_MAX)) (asg sc);
  si_levels i a : asg sc !! i = Some a ->
    a = UINT64_MAX \/ exists l, (l < L)%nat /\ a = Z.of_nat l /\ may_hold i l;
}.

Context (HL : (L <= 62)%nat).

Lemma occ_at_lookup sc l : scratch_inv sc -> (l < L)%nat -> occ sc !! l = Some (occ_at sc l).
Proof.
  intros Hi Hl. unfold occ_at. destruct (occ sc !! l) eqn:E; [done|].
  apply lookup_ge_None in E. rewrite (si_occ_len _ Hi) in E. lia.
Qed.

Lemma level_ne_max l : (l < L)%nat -> Z.of_nat l <> UINT64_MAX.
Proof. unfold UINT64_MAX. lia. Qed.

Lemma assign_inv sc i l : scratch_inv sc -> unassigned sc i -> (l < L)%nat ->
  (occ_at sc l < BLOCKS_PER_BUCKET)%nat -> may_hold i l -> scratch_inv (assign sc i l).
Proof.
  intros Hi Hu Hl Hr Hm. pose proof (occ_at_lookup _ _ Hi Hl) as Ho.
  pose proof (level_ne_max l Hl) as Hne. pose proof (lookup_lt_Some _ _ _ Ho) as Hlt.
  constructor; simpl.
  - rewrite length_insert. apply Hi.
  - rewrite length_insert. apply Hi.
  - intros l' Hl'. pose proof (countb_insert (Z.eqb (Z.of_nat l')) _ _ _ (Z.of_nat l) Hu) as Hc.
    rewrite <- (si_count _ Hi l' Hl') in Hc.
    rewrite (proj2 (Z.eqb_neq (Z.of_nat l') UINT64_MAX)) in Hc by (by apply level_ne_max).
    unfold occ_at at 1; simpl. destruct (decide (l' = l)) as [->|].
    + rewrite list_lookup_insert_eq by done. rewrite Z.eqb_refl in Hc. simpl. lia.
    + rewrite list_lookup_insert_ne by done. fold (occ_at sc l').
      rewrite (proj2 (Z.eqb_neq (Z.of_nat l') (Z.of_nat l))) in Hc by lia. lia.
  - apply Forall_insert; [apply Hi|]. unfold BLOCKS_PER_BUCKET in *. lia.
  - pose proof (sum_list_insert _ _ _ (S (occ_at sc l)) Ho).
    pose proof (countb_insert (fun a => negb (a =? UINT64_MAX)) _ _ _ (Z.of_nat l) Hu) as Hc.
    rewrite <- (si_sum _ Hi), Z.eqb_refl, (proj2 (Z.eqb_neq _ _) Hne) in Hc. simpl in Hc. lia.
  - intros i' a Ha. destruct (decide (i' = i)) as [->|].
    + rewrite list_lookup_insert_eq in Ha by (by eapply lookup_lt_Some). injection Ha as <-.
      right. by exists l.
    + rewrite list_lookup_insert_ne in Ha by done. by apply Hi.
Qed.

Lemma assign_unassigned sc i l j : j <> i -> unassigned (assign sc i l) j <-> unassigned sc j.
Proof. intros. unfold unassigned; simpl. by rewrite list_lookup_insert_ne. Qed.

Lemma assign_assigned sc i l : (l < L)%nat -> unassigned sc i -> ~ unassigned (assign sc i l) i.
Proof.
  intros Hl Hu. unfold unassigned in *; simpl. rewrite list_lookup_insert_eq by (by eapply lookup_lt_Some).
  intros [= E]. by apply (level_ne_max l).
Qed.

Local Abbreviation empty i := (block_is_empty (block_at bs i)).

(** Blocks below [k] have been handled: occupied blocks in [0, k) that are
    path blocks are assigned, everything else that is empty or above is not. *)
Record phase (k : nat) (sc : scratch) : Prop := {
  ph_inv : scratch_inv sc;
  ph_rest i : (i < N)%nat -> (k <= i)%nat \/ empty i = true -> unassigned sc i;
  ph_path i : (i < k)%nat -> (i < L * BLOCKS_PER_BUCKET)%nat -> empty i = false -> ~ unassigned sc i;
}.

(** A path block goes to its own level or a lower one. *)
Definition low_levels (sc : scratch) : Prop :=
  forall i l, asg sc !! i = Some (Z.of_nat l) -> (l < L)%nat -> (l <= i / BLOCKS_PER_BUCKET)%nat.

Context (HN : (L * BLOCKS_PER_BUCKET <= N)%nat).
Context (Hpath : forall i, (i < L * BLOCKS_PER_BUCKET)%nat -> may_hold i (i / BLOCKS_PER_BUCKET)).

(** Handling one occupied or empty block with the first suitable level below [n]. *)
Lemma phase_step k sc n : (k < N)%nat -> (n <= L)%nat -> phase k sc ->
  ((k < L * BLOCKS_PER_BUCKET)%nat -> empty k = false ->
     exists l, (l < n)%nat /\ assignable path (block_at bs k) sc l = true) ->
  phase (S k) (fst (fold_left (assign_step path k (block_at bs k)) (seq 0 n) (sc, false))).
Proof.
  intros Hk Hn [Hi Hr Hp] Hex. rewrite assign_fold.
  destruct (find_first _ 0 n) as [l|] eqn:E; simpl.
  - apply find_first_Some in E as (Hl & Ha & _).
    unfold assignable in Ha. breflect.
    constructor.
    + apply assign_inv; [done|apply Hr; lia|lia|done|]. intros _. done.
    + intros i HiN Hc. rewrite assign_unassigned by (intros ->; destruct Hc; [lia|congruence]).
      apply Hr; [done|]. destruct Hc; [left; lia|by right].
    + intros i Hik HiP He. destruct (decide (i = k)) as [->|].
      * apply assign_assigned; [lia|apply Hr; lia].
      * rewrite assign_unassigned by done. apply Hp; [lia|done..].
  - constructor; [done| |].
    + intros i HiN Hc. apply Hr; [done|]. destruct Hc; [left; lia|by right].
    + intros i Hik HiP He. destruct (decide (i = k)) as [->|]; [|apply Hp; (done || lia)].
      destruct (Hex HiP He) as (l & Hl & Ha).
      by rewrite (find_first_None _ _ _ E l) in Ha by lia.
Qed.

Lemma path_block_assignable k sc : (k < L * BLOCKS_PER_BUCKET)%nat -> phase k sc -> low_levels sc ->
  empty k = false ->
  assignable path (block_at bs k) sc (k / BLOCKS_PER_BUCKET) = true.
Proof.
  intros Hk [Hi Hr _] Hlow He. unfold assignable. rewrite He, (Hpath k Hk He).
  rewrite andb_true_l, andb_true_r. apply Nat.ltb_lt. unfold BLOCKS_PER_BUCKET in *.
  assert (Hl : (k / 3 < L)%nat) by (apply Nat.Div0.div_lt_upper_bound; lia).
  rewrite (si_count _ Hi _ Hl).
  apply Nat.le_lt_trans with (k - 3 * (k / 3))%nat; [|pose proof (Nat.div_mod_eq k 3);
    pose proof (Nat.mod_upper_bound k 3); lia].
  apply countb_range. intros i a Ha Heq. apply Z.eqb_eq in Heq. subst a.
  pose proof (Hlow _ _ Ha Hl) as Hle. unfold BLOCKS_PER_BUCKET in Hle.
  pose proof (Nat.Div0.mul_div_le i 3). split; [lia|].
  apply Nat.lt_nge. intros Hki. pose proof (lookup_lt_Some _ _ _ Ha) as HiN.
  rewrite (si_asg_len _ Hi) in HiN. specialize (Hr i HiN (or_introl Hki)). unfold unassigned in Hr.
  rewrite Ha in Hr. injection Hr. by apply level_ne_max.
Qed.

Lemma path_phase_step k sc : (k < L * BLOCKS_PER_BUCKET)%nat -> phase k sc -> low_levels sc ->
  let sc' := assign_block_to_bucket_path path bs sc k in phase (S k) sc' /\ low_levels sc'.
Proof.
  intros Hk Hp Hlow. cbv zeta. unfold assign_block_to_bucket_path.
  assert (k / BLOCKS_PER_BUCKET < L)%nat by (apply Nat.Div0.div_lt_upper_bound; lia).
  split.
  - apply phase_step; [lia..|done|]. intros _ He. exists (k / BLOCKS_PER_BUCKET)%nat.
    split; [lia|]. by apply path_block_assignable.
  - rewrite assign_fold. destruct (find_first _ 0 _) as [l|] eqn:E; [|done].
    apply find_first_Some in E as (Hl & _). intros i l'. cbn [assign asg fst].
    destruct (decide (i = k)) as [->|]; [|rewrite list_lookup_insert_ne by done; apply Hlow].
    intros Ha _. rewrite list_lookup_insert_eq in Ha; [injection Ha; lia|].
    rewrite (si_asg_len _ (ph_inv _ _ Hp)). lia.
Qed.

Lemma path_phase k sc n : (k + n <= L * BLOCKS_PER_BUCKET)%nat -> phase k sc -> low_levels sc ->
  phase (k + n) (fold_left (assign_block_to_bucket_path path bs) (seq k n) sc).
Proof.
  revert k sc. induction n as [|n IH]; intros k sc Hk Hp Hlow; [by rewrite Nat.add_0_r|].
  simpl. destruct (path_phase_step k sc ltac:(lia) Hp Hlow) as [Hp' Hlow'].
  replace (k + S n)%nat with (S k + n)%nat by lia. apply IH; [lia|done..].
Qed.

Lemma overflow_phase it sc n : (L * BLOCKS_PER_BUCKET + (it + n) <= N)%nat ->
  phase (L * BLOCKS_PER_BUCKET + it) sc ->
  phase (L * BLOCKS_PER_BUCKET + (it + n))
    (fold_left (assign_block_to_bucket_overflow L path bs) (seq it n) sc).
Proof.
  revert it sc. induction n as [|n IH]; intros it sc Hk Hp; [by rewrite Nat.add_0_r|].
  simpl. replace (it + S n)%nat with (S it + n)%nat by lia. apply IH; [lia|].
  unfold assign_block_to_bucket_overflow. rewrite (Nat.mul_comm BLOCKS_PER_BUCKET).
  rewrite Nat.add_succ_r. apply phase_step; [lia..|done|]. lia.
Qed.

(** ** Filling up with empty blocks *)

Definition empties (k : nat) : nat := countb (fun j => empty j) (seq 0 k).

Lemma empties_succ k : empties (S k) = (empties k + if empty k then 1 else 0)%nat.
Proof. unfold empties. rewrite seq_S, countb_app. simpl. lia. Qed.

(** There are enough empty blocks below [L * 3 + ub] to fill every bucket:
    only overflow blocks can be left unassigned. *)
Lemma enough_empties ub sc : (L * BLOCKS_PER_BUCKET + ub <= N)%nat ->
  phase (L * BLOCKS_PER_BUCKET + ub) sc ->
  (L * BLOCKS_PER_BUCKET <= sum_list (occ sc) + empties (L * BLOCKS_PER_BUCKET + ub))%nat.
Proof.
  intros Hub [Hi Hr Hp]. set (n := (L * BLOCKS_PER_BUCKET + ub)%nat) in *.
  rewrite (si_sum _ Hi), (countb_seq _ UINT64_MAX), (si_asg_len _ Hi).
  set (assigned i := negb (default UINT64_MAX (asg sc !! i) =? UINT64_MAX)).
  pose proof (countb_seq_mono assigned n N Hub) as Hmono.
  pose proof (countb_cover (fun j => empty j) assigned (fun i => L * BLOCKS_PER_BUCKET <=? i)%nat
    (seq 0 n)) as Hcov.
  assert (Htail : (countb (fun i => L * BLOCKS_PER_BUCKET <=? i)%nat (seq 0 n) <= ub)%nat).
  { unfold n. rewrite seq_app, countb_app, countb_false.
    - apply countb_seq_le.
    - intros x Hx%elem_of_seq. apply Nat.leb_gt. lia. }
  rewrite length_seq in Hcov. unfold empties.
  cut (forall i, i ∈ seq 0 n -> empty i || assigned i || (L * BLOCKS_PER_BUCKET <=? i)%nat = true);
    [intros Hall; specialize (Hcov Hall); lia|]. clear Hcov Htail.
  intros i Hin%elem_of_seq. destruct (empty i) eqn:He; [done|]. rewrite orb_false_l.
  destruct (Nat.leb_spec (L * BLOCKS_PER_BUCKET) i) as [|Hlt]; [apply orb_true_r|]. rewrite orb_false_r.
  apply negb_true_iff, Z.eqb_neq. intros Heq. apply (Hp i ltac:(lia) Hlt He). unfold unassigned.
  destruct (lookup_lt_is_Some_2 (asg sc) i) as [a Ha]; [rewrite (si_asg_len _ Hi); lia|].
  rewrite Ha in Heq |- *. simpl in Heq. congruence.
Qed.

Record filling (T0 n k : nat) (sc : scratch) : Prop := {
  fi_inv : scratch_inv sc;
  fi_rest i : (k <= i < N)%nat -> empty i = true -> unassigned sc i;
  fi_sum : sum_list (occ sc) = Nat.min (L * BLOCKS_PER_BUCKET) (T0 + empties k);
  fi_above i : (n <= i < N)%nat -> unassigned sc i;
}.

Lemma no_room_full sc : scratch_inv sc -> find_first (has_room sc) 0 L = None ->
  sum_list (occ sc) = (L * BLOCKS_PER_BUCKET)%nat.
Proof.
  intros Hi Hf.
  assert (Hall : Forall (fun x => x = BLOCKS_PER_BUCKET) (occ sc)).
  { apply Forall_lookup. intros l x Hx. pose proof (lookup_lt_Some _ _ _ Hx) as Hl.
    rewrite (si_occ_len _ Hi) in Hl. pose proof (find_first_None _ _ _ Hf l ltac:(lia)) as Hr.
    unfold has_room in Hr. breflect. unfold occ_at in Hr. by rewrite Hx in Hr. }
  rewrite <- (si_occ_len _ Hi). clear -Hall.
  induction Hall as [|x l -> _ IH]; [done|]. cbn [length]. rewrite Nat.mul_succ_l, <- IH. apply Nat.add_comm.
Qed.

Lemma room_not_full sc l : scratch_inv sc -> (l < L)%nat -> has_room sc l = true ->
  (occ_at sc l < BLOCKS_PER_BUCKET)%nat /\ (sum_list (occ sc) < L * BLOCKS_PER_BUCKET)%nat.
Proof.
  intros Hi Hl Hr. unfold has_room in Hr. breflect. pose proof (occ_at_lookup _ _ Hi Hl) as Ho.
  pose proof (proj1 (Forall_lookup _ _) (si_cap _ Hi) _ _ Ho) as Hcap. simpl in Hcap.
  assert (Hlt : (occ_at sc l < BLOCKS_PER_BUCKET)%nat) by lia. split; [done|].
  apply Nat.le_neq. split.
  - pose proof (sum_list_le_bound _ _ (si_cap _ Hi)). rewrite (si_occ_len _ Hi) in *. lia.
  - intros Hs. pose proof (sum_list_full _ _ (si_cap _ Hi)) as Hfull.
    rewrite (si_occ_len _ Hi), Hs, Nat.mul_comm in Hfull. specialize (Hfull eq_refl).
    rewrite Forall_lookup in Hfull. specialize (Hfull _ _ Ho). simpl in Hfull. lia.
Qed.

Lemma filling_step T0 n k sc : (k < N)%nat -> (L * BLOCKS_PER_BUCKET <= T0 + empties n)%nat ->
  filling T0 n k sc ->
  filling T0 n (S k) (fst (fold_left (place_step (block_at bs k) k) (seq 0 L) (sc, false))).
Proof.
  intros Hk Hen [Hi Hr Hs Ha]. rewrite place_fold.
  destruct (find_first (has_room sc) 0 L) as [l|] eqn:E; cbn [fst].
  - apply find_first_Some in E as (Hl & Hroom & _).
    destruct (room_not_full sc l Hi ltac:(lia) Hroom) as [Hocc Hsum].
    destruct (empty k) eqn:He.
    + constructor.
      * apply assign_inv; [done|apply Hr; (done || lia)|lia|done|]. intros ?. congruence.
      * intros i Hik Hei. rewrite assign_unassigned by lia. apply Hr; (done || lia).
      * cbn [assign occ]. pose proof (sum_list_insert _ _ _ (S (occ_at sc l)) (occ_at_lookup sc l Hi ltac:(lia))).
        rewrite empties_succ, He. lia.
      * intros i Hin. rewrite assign_unassigned; [by apply Ha|]. intros ->.
        assert (empties n <= empties k)%nat by (apply countb_seq_mono; lia). lia.
    + constructor; [done|intros; apply Hr; (done || lia)| |done]. rewrite empties_succ, He. lia.
  - pose proof (no_room_full sc Hi E).
    constructor; [done|intros; apply Hr; (done || lia)| |done]. rewrite empties_succ. lia.
Qed.

Lemma filling_all T0 n k m sc : (k + m <= N)%nat -> (L * BLOCKS_PER_BUCKET <= T0 + empties n)%nat ->
  filling T0 n k sc ->
  filling T0 n (k + m) (fold_left (fun sc i =>
    fst (fold_left (place_step (block_at bs i) i) (seq 0 L) (sc, false))) (seq k m) sc).
Proof.
  intros Hk Hen. revert k sc Hk. induction m as [|m IH]; intros k sc Hk Hf; [by rewrite Nat.add_0_r|].
  cbn [seq fold_left]. replace (k + S m)%nat with (S k + m)%nat by lia.
  apply IH; [lia|]. apply filling_step; [lia|done..].
Qed.
End Assign.

#[export] Instance comp_blocks_order : StrictWeakOrder comp_blocks.
Proof.
  constructor; unfold comp_blocks.
  - intros [a b]; simpl. rewrite Z.gtb_ltb, !Z.ltb_irrefl. by rewrite andb_false_r.
  - intros [a1 b1] [a2 b2] [a3 b3]; simpl. rewrite !orb_true_iff, !andb_true_iff, !Z.gtb_lt, !Z.eqb_eq, !Z.ltb_lt. lia.
  - intros [a1 b1] [a2 b2] [a3 b3]; simpl. rewrite !orb_true_iff, !andb_true_iff, !Z.gtb_lt, !Z.eqb_eq, !Z.ltb_lt. lia.
Qed.

(** ** The assignment as a whole *)

Section Evict.
Context (L cap : nat) (HL : (L <= 62)%nat) (path : list Z) (s : stash) (Hwf : stash_wf L cap s).
Context (Hpath : forall i, (i < L * BLOCKS_PER_BUCKET)%nat -> may_hold path (blocks s) i (i / BLOCKS_PER_BUCKET)).

Let N := num_blocks s.
Let n := (overflow_ub s + L * BLOCKS_PER_BUCKET)%nat.

Lemma evict_range : (n <= N)%nat.
Proof.
  unfold n, N. pose proof (overflow_ub_spec s) as [Hub _].
  rewrite (sw_cap _ _ _ Hwf) in Hub. rewrite (sw_num _ _ _ Hwf). lia.
Qed.

Lemma initial_phase :
  phase L N path (blocks s) 0 {| occ := replicate L 0%nat; asg := replicate N UINT64_MAX |} /\
  low_levels L {| occ := replicate L 0%nat; asg := replicate N UINT64_MAX |}.
Proof.
  split; [constructor; [constructor; simpl| |lia]|].
  - apply length_replicate.
  - apply length_replicate.
  - intros l Hl. unfold occ_at; simpl. rewrite lookup_replicate_2 by done. simpl.
    rewrite countb_false; [done|]. intros x [-> _]%elem_of_replicate.
    apply Z.eqb_neq. by apply (level_ne_max L).
  - apply Forall_replicate. unfold BLOCKS_PER_BUCKET. lia.
  - rewrite sum_list_replicate, Nat.mul_0_r.
    rewrite countb_false; [done|]. intros x [-> _]%elem_of_replicate. done.
  - intros i a [-> _]%lookup_replicate. by left.
  - intros i Hi _. by apply lookup_replicate_2.
  - intros i l [Hl _]%lookup_replicate Hlt. by apply (level_ne_max L) in Hl.
Qed.

(** Every level receives exactly three blocks, all of them below [n]. *)
Lemma assign_buckets_spec :
  let sc := assign_buckets s path L in
  scratch_inv L N path (blocks s) sc /\
  (forall l, (l < L)%nat -> countb (Z.eqb (Z.of_nat l)) (asg sc) = BLOCKS_PER_BUCKET) /\
  (forall i, (n <= i < N)%nat -> unassigned sc i).
Proof.
  cbv zeta. unfold assign_buckets. pose proof evict_range as Hn.
  destruct initial_phase as [H0 Hlow]. fold N.
  assert (HN : (L * BLOCKS_PER_BUCKET <= N)%nat) by (unfold n in Hn; lia).
  pose proof (path_phase L N path (blocks s) HL HN Hpath 0%nat _ (L * BLOCKS_PER_BUCKET) ltac:(lia) H0 Hlow) as H1.
  set (sc1 := fold_left _ (seq 0 (L * BLOCKS_PER_BUCKET)) _) in *. clearbody sc1.
  rewrite <- (Nat.add_0_r (0 + _)) in H1.
  pose proof (overflow_phase L N path (blocks s) HL HN 0%nat sc1 (overflow_ub s) ltac:(unfold n in Hn; lia) H1) as H2.
  set (sc2 := fold_left _ (seq 0 (overflow_ub s)) _) in *. clearbody sc2. simpl in H2.
  pose proof (enough_empties L N path (blocks s) HL HN (overflow_ub s) sc2 ltac:(unfold n in Hn; lia) H2) as Hen.
  replace (L * BLOCKS_PER_BUCKET + overflow_ub s)%nat with n in * by (unfold n; lia).
  assert (Hfill : filling L N path (blocks s) (sum_list (occ sc2)) n 0 sc2).
  { constructor; [apply H2| | |].
    - intros i Hi He. apply (ph_rest _ _ _ _ _ _ H2); [lia|by right].
    - unfold empties; simpl. pose proof (sum_list_le_bound _ _ (si_cap _ _ _ _ _ (ph_inv _ _ _ _ _ _ H2))) as Hb.
      rewrite (si_occ_len _ _ _ _ _ (ph_inv _ _ _ _ _ _ H2)) in Hb. lia.
    - intros i Hi. apply (ph_rest _ _ _ _ _ _ H2); [lia|left; lia]. }
  pose proof (filling_all L N path (blocks s) HL HN _ n 0%nat N sc2 ltac:(lia) Hen Hfill) as H3.
  unfold place_empty_blocks. set (sc3 := fold_left _ (seq 0 N) sc2) in *. clearbody sc3.
  destruct H3 as [Hi _ Hs Ha]. split_and!; [done| |done].
  intros l Hl. rewrite <- (si_count _ _ _ _ _ Hi l Hl).
  assert (Hfull : sum_list (occ sc3) = (L * BLOCKS_PER_BUCKET)%nat).
  { rewrite Hs. assert (empties (blocks s) n <= empties (blocks s) N)%nat by (by apply countb_seq_mono).
    simpl. lia. }
  pose proof (sum_list_full _ _ (si_cap _ _ _ _ _ Hi)) as Hf.
  rewrite (si_occ_len _ _ _ _ _ Hi), Hfull, Nat.mul_comm in Hf. specialize (Hf eq_refl).
  rewrite Forall_lookup in Hf. by apply (Hf l), (occ_at_lookup L N path (blocks s)).
Qed.

(** ** The sorted path *)

Let sorted := odd_even_msort comp_blocks 0 n (zip (asg (assign_buckets s path L)) (blocks s)).

Lemma evict_zip_length : length (zip (asg (assign_buckets s path L)) (blocks s)) = N.
Proof.
  destruct assign_buckets_spec as (Hi & _ & _).
  rewrite length_zip_with, (si_asg_len _ _ _ _ _ Hi), (sw_len _ _ _ Hwf). unfold N. lia.
Qed.

Lemma take_count_lt l : (l <= L)%nat ->
  countb (fun x => x.1 <? Z.of_nat l) (take n (zip (asg (assign_buckets s path L)) (blocks s))) =
  (l * BLOCKS_PER_BUCKET)%nat.
Proof.
  destruct assign_buckets_spec as (Hinv & Hcount & Habove). set (sc := assign_buckets s path L) in *.
  assert (Hall : forall l, (l <= L)%nat -> countb (fun a => a <? Z.of_nat l) (asg sc) = (l * BLOCKS_PER_BUCKET)%nat).
  { clear l. induction l as [|l IH]; intros Hl.
    - apply countb_false. intros a [i Ha]%list_elem_of_lookup. apply Z.ltb_ge.
      destruct (si_levels _ _ _ _ _ Hinv i a Ha) as [->|(l & _ & -> & _)]; [done|lia].
    - rewrite Nat.mul_succ_l, <- IH, <- (Hcount l) by lia.
      rewrite <- countb_orb; [apply countb_ext|]; intros a _.
      + destruct (Z.ltb_spec a (Z.of_nat l)), (Z.eqb_spec (Z.of_nat l) a), (Z.ltb_spec a (Z.of_nat (S l))); (done || lia).
      + intros ?. breflect. apply Z.eqb_neq. lia. }
  intros Hl. rewrite <- (Hall l Hl).
  transitivity (countb (fun a => a <? Z.of_nat l) (take n (asg sc))).
  - rewrite <- (countb_map fst (fun a => a <? Z.of_nat l)), <- firstn_map. f_equal. f_equal.
    apply fst_zip. rewrite (si_asg_len _ _ _ _ _ Hinv), (sw_len _ _ _ Hwf). done.
  - rewrite <- (take_drop n (asg sc)) at 2. rewrite countb_app, (countb_false _ (drop n _)); [lia|].
    intros a [i Ha]%list_elem_of_lookup. rewrite lookup_drop in Ha.
    pose proof (lookup_lt_Some _ _ _ Ha) as Hlt. rewrite (si_asg_len _ _ _ _ _ Hinv) in Hlt.
    specialize (Habove (n + i)%nat ltac:(lia)). unfold unassigned in Habove.
    assert (a = UINT64_MAX) as -> by congruence. apply Z.ltb_ge. unfold UINT64_MAX. lia.
Qed.

(** Block [i] of the sorted array is assigned to level [i / 3]. *)
Lemma sorted_levels i x : sorted !! i = Some x -> (i < L * BLOCKS_PER_BUCKET)%nat ->
  x.1 = Z.of_nat (i / BLOCKS_PER_BUCKET).
Proof.
  intros Hx Hi. destruct assign_buckets_spec as (Hinv & Hcount & Habove).
  pose proof evict_range as Hn. pose proof evict_zip_length as Hzl.
  destruct (odd_even_msort_spec comp_blocks 0 n (zip (asg (assign_buckets s path L)) (blocks s)))
    as (srt & Hsrt & Hperm & Hasc); [lia|].
  fold sorted in Hsrt. rewrite take_0, app_nil_l in Hsrt. rewrite drop_0, Nat.sub_0_r in Hperm.
  assert (Hlen : length srt = n) by (rewrite (Permutation_length Hperm), length_take; lia).
  rewrite Hsrt, lookup_app_l in Hx by (unfold n in Hlen; lia).
  assert (Hlt : forall l, (l <= L)%nat ->
    countb (fun x => x.1 <? Z.of_nat l) srt = (l * BLOCKS_PER_BUCKET)%nat).
  { intros l Hl. rewrite (countb_perm _ _ _ Hperm). by apply take_count_lt. }
  assert (Hpre : forall l, (l <= L)%nat ->
    ((x.1 <? Z.of_nat l) = true <-> (i < l * BLOCKS_PER_BUCKET)%nat)).
  { intros l Hl. rewrite <- (Hlt l Hl).
    apply (countb_prefix (fun x : Z * block => x.1 <? Z.of_nat l)); [|done].
    intros i' j' x' y' Hij Hi' Hj'. specialize (Hasc _ _ _ _ Hij Hi' Hj').
    unfold comp_blocks in Hasc. breflect. rewrite !Z.ltb_lt. lia. }
  unfold BLOCKS_PER_BUCKET in *. set (q := (i / 3)%nat).
  assert (Hq : (q * 3 <= i < S q * 3)%nat) by (subst q; pose proof (Nat.div_mod_eq i 3);
    pose proof (Nat.mod_upper_bound i 3); lia).
  pose proof (proj1 (Hpre q ltac:(lia))) as H1. pose proof (proj2 (Hpre (S q) ltac:(lia))) as H2.
  rewrite Z.ltb_lt in H1, H2. lia.
Qed.

Lemma sorted_perm : map snd sorted ≡ₚ blocks s.
Proof.
  unfold sorted. rewrite odd_even_msort_perm.
  destruct assign_buckets_spec as (Hi & _ & _).
  change (map snd ?l) with (l.*2). rewrite snd_zip; [done|].
  rewrite (si_asg_len _ _ _ _ _ Hi), (sw_len _ _ _ Hwf). done.
Qed.

Lemma build_path_wf : stash_wf L cap (build_path s path L).
Proof.
  destruct Hwf. constructor; try done. unfold build_path; cbn [blocks num_blocks].
  fold n sorted. by rewrite (Permutation_length sorted_perm).
Qed.

(** No block is lost or duplicated. *)
Lemma build_path_perm : blocks (build_path s path L) ≡ₚ blocks s.
Proof. exact sorted_perm. Qed.

(** Every occupied block of the new path belongs to its bucket's subtree. *)
Lemma build_path_levels i : (i < L * BLOCKS_PER_BUCKET)%nat ->
  may_hold path (blocks (build_path s path L)) i (i / BLOCKS_PER_BUCKET).
Proof.
  intros Hi. unfold build_path; cbn [blocks]. fold n sorted.
  destruct assign_buckets_spec as (Hinv & _ & _).
  assert (Hlen : length sorted = N) by (unfold sorted; by rewrite odd_even_msort_length, evict_zip_length).
  destruct (lookup_lt_is_Some_2 sorted i) as [[a b] Hx]; [pose proof evict_range; unfold n in *; lia|].
  pose proof (sorted_levels i (a, b) Hx Hi) as Ha. cbn [fst] in Ha.
  assert (Hin : (a, b) ∈ zip (asg (assign_buckets s path L)) (blocks s)).
  { rewrite <- (odd_even_msort_perm comp_blocks 0 n). fold sorted. by eapply list_elem_of_lookup_2. }
  apply list_elem_of_lookup in Hin as [j Hj]. apply lookup_zip_with_Some in Hj as (a' & b' & [= <- <-] & Hja & Hjb).
  unfold may_hold. rewrite (block_at_lookup _ i b) by (by rewrite list_lookup_fmap, Hx).
  assert (i / BLOCKS_PER_BUCKET < L)%nat by (apply Nat.Div0.div_lt_upper_bound; lia).
  destruct (si_levels _ _ _ _ _ Hinv j a Hja) as [->|(l & Hl & -> & Hm)].
  - exfalso. by apply (level_ne_max L HL (i / BLOCKS_PER_BUCKET)).
  - apply Nat2Z.inj in Ha as <-. unfold may_hold in Hm. by rewrite (block_at_lookup _ j b Hjb) in Hm.
Qed.
End Evict.

(** ** Properties *)

(** C19. Eviction assigns every bucket of the path exactly three blocks: each
    level receives exactly [BLOCKS_PER_BUCKET] slots of the stash, an occupied
    block is assigned only to a level whose bucket lies on its own path, and
    slots beyond the scanned range stay unassigned. *)
Theorem assign_buckets_correct L cap path s :
  (L <= 62)%nat -> stash_wf L cap s ->
  (forall i, (i < L * BLOCKS_PER_BUCKET)%nat -> may_hold path (blocks s) i (i / BLOCKS_PER_BUCKET)) ->
  let sc := assign_buckets s path L in
  (forall l, (l < L)%nat -> countb (Z.eqb (Z.of_nat l)) (asg sc) = BLOCKS_PER_BUCKET) /\
  (forall i l, asg sc !! i = Some (Z.of_nat l) -> (l < L)%nat -> may_hold path (blocks s) i l) /\
  (forall i, (overflow_ub s + L * BLOCKS_PER_BUCKET <= i < num_blocks s)%nat -> asg sc !! i = Some UINT64_MAX).
Proof.
  intros HL Hwf Hp sc. destruct (assign_buckets_spec L cap HL path s Hwf Hp) as (Hinv & Hcount & Hrest).
  split_and!; [done| |done]. intros i l Hi Hl.
  destruct (si_levels _ _ _ _ _ Hinv i _ Hi) as [E|(l' & Hl' & E & Hm)].
  - exfalso. unfold UINT64_MAX in E. lia.
  - by apply Nat2Z.inj in E as ->.
Qed.

(** A stash of a two-level tree with two occupied overflow blocks. *)
Definition toy_stash : stash :=
  with_blocks (stash_create 2 2)
    (replicate 6 blank_block ++
     [{| id := 7; position := 0; data := [] |}; {| id := 8; position := 2; data := [] |}]).

Lemma toy_stash_ok : stash_wf 2 2 toy_stash /\
  forall i, (i < 2 * BLOCKS_PER_BUCKET)%nat -> may_hold [0; 1] (blocks toy_stash) i (i / BLOCKS_PER_BUCKET).
Proof.
  split; [by constructor|]. intros i Hi. unfold BLOCKS_PER_BUCKET in Hi.
  destruct i as [|[|[|[|[|[|i]]]]]]; [intros Hb; vm_compute in Hb; discriminate..|lia].
Qed.

Lemma assign_buckets_correct_witness :
  asg (assign_buckets toy_stash [0; 1] 2) = [0; 0; 1; 1; UINT64_MAX; UINT64_MAX; 0; 1] /\
  countb (Z.eqb (Z.of_nat 1)) (asg (assign_buckets toy_stash [0; 1] 2)) = BLOCKS_PER_BUCKET.
Proof.
  split; [vm_compute; reflexivity|].
  destruct (assign_buckets_correct 2 2 [0; 1] toy_stash ltac:(lia) (proj1 toy_stash_ok) (proj2 toy_stash_ok)) as [H _].
  exact (H 1%nat ltac:(lia)).
Defined.

(** C20. Building the path to write back keeps the stash well-formed, loses and
    duplicates no block, and leaves in the slots of each level only blocks that
    may be stored in that level's bucket. *)
Theorem build_path_correct L cap path s :
  (L <= 62)%nat -> stash_wf L cap s ->
  (forall i, (i < L * BLOCKS_PER_BUCKET)%nat -> may_hold path (blocks s) i (i / BLOCKS_PER_BUCKET)) ->
  let s' := build_path s path L in
  stash_wf L cap s' /\ blocks s' ≡ₚ blocks s /\
  forall i, (i < L * BLOCKS_PER_BUCKET)%nat -> may_hold path (blocks s') i (i / BLOCKS_PER_BUCKET).
Proof.
  intros HL Hwf Hp s'. split_and!; [by apply build_path_wf|by apply (build_path_perm L cap HL path s Hwf Hp)|].
  intros i Hi. by apply (build_path_levels L cap HL path s Hwf Hp).
Qed.

Lemma build_path_correct_witness :
  map id (blocks (build_path toy_stash [0; 1] 2)) =
    [7; UINT64_MAX; UINT64_MAX; 8; UINT64_MAX; UINT64_MAX; UINT64_MAX; UINT64_MAX] /\
  blocks (build_path toy_stash [0; 1] 2) ≡ₚ blocks toy_stash.
Proof.
  split; [vm_compute; reflexivity|].
  destruct (build_path_correct 2 2 [0; 1] toy_stash ltac:(lia) (proj1 toy_stash_ok) (proj2 toy_stash_ok)) as (_ & H & _).
  exact H.
Defined.
