(* ===== verification/PositionMap.v ===== *)
(** * Position maps ([c/path_oram/position_map.c], [position_map.jinc],
    [oram_position_map.jinc])

    The interface the ORAM relies on, as a class: a map from block ids to
    positions with one operation that returns a block's position and replaces
    it.  This file has the class and its linear-scan instance; the recursive
    instance, whose entries live in a smaller ORAM, is in [OramPositionMap]. *)

From S2P Require Import Prelude Errors Util.
Local Open Scope Z_scope.

(** ** Random words

    [#randombytes] and [getentropy] return arbitrary words.  The model draws
    them from a sequence; every theorem holds for every sequence. *)

Record entropy := Entropy { source : nat -> Z; drawn : nat }.

Definition draw64 (e : entropy) : Z * entropy :=
  (wrap64 (source e (drawn e)), {| source := source e; drawn := S (drawn e) |}).

Definition draw32 (e : entropy) : Z * entropy :=
  ((source e (drawn e)) mod 2 ^ 32, {| source := source e; drawn := S (drawn e) |}).

(** [_random_mod_by_pow_of_2] *)
Definition random_mod_by_pow_of_2 (e : entropy) (modulus : Z) : Z * entropy :=
  let '(r, e) := draw64 e in
  (Z.land r (modulus - 1), e).

(** ** The interface *)

(** The operation: the error code, the previous position, the new map. *)
Class PositionMap (PM : Type) := {
  read_then_set : PM -> entropy -> Z -> Z -> error_t * Z * PM * entropy;
}.

(** What a position map over block ids below [n] with positions below [npos]
    promises when it reports success. *)
Class PositionMapSpec (PM : Type) `{PositionMap PM} := {
  pm_inv : Z -> Z -> PM -> Prop;
  pm_get : PM -> Z -> Z;
  pm_get_range n npos pm i : pm_inv n npos pm -> 0 <= i < n -> 0 <= pm_get pm i < npos;
  read_then_set_spec n npos pm e i pos err prev pm' e' :
    pm_inv n npos pm -> 0 <= i < n -> 0 <= pos < npos ->
    read_then_set pm e i pos = (err, prev, pm', e') -> is_success err = true ->
    prev = pm_get pm i /\ pm_inv n npos pm' /\
    forall j, 0 <= j < n -> pm_get pm' j = if j =? i then pos else pm_get pm j;
}.

(** ** The linear scan *)

Record scan_position_map := ScanPositionMap { scan_size : Z; scan_data : list Z }.

(** One round of [_scan_position_map_set]: slot [i] and the carried value. *)
Definition scan_step (block_id : Z) (st : list Z * Z) (i : nat) : list Z * Z :=
  let '(data, prev_position) := st in
  let cond := Z.of_nat i =? block_id in
  let va := default 0 (data !! i) in
  (if cond then <[i := prev_position]> data else data, if cond then va else prev_position).

(** The data and the previous position; positions are 32-bit values. *)
Definition scan_position_map_set (data : list Z) (block_id position : Z) : list Z * Z :=
  fold_left (scan_step block_id) (seq 0 (length data)) (data, position mod 2 ^ 32).

Definition read_then_set_linear (m : scan_position_map) (block_id position : Z) :
    Z * scan_position_map :=
  let '(data, prev) := scan_position_map_set (scan_data m) block_id position in
  (prev, {| scan_size := scan_size m; scan_data := data |}).

(** [scan_position_map_create]: one word of [getentropy] per slot. *)
Fixpoint scan_fill (n : nat) (num_positions : Z) (e : entropy) : list Z * entropy :=
  match n with
  | O => ([], e)
  | S n =>
      let '(v, e) := draw32 e in
      let '(data, e) := scan_fill n num_positions e in
      (v mod num_positions :: data, e)
  end.

Definition scan_position_map_create (size : nat) (num_positions : Z) (e : entropy) :
    scan_position_map * entropy :=
  let '(data, e) := scan_fill size num_positions e in
  ({| scan_size := Z.of_nat size; scan_data := data |}, e).

Definition scan_position_map_capacity (m : scan_position_map) : Z := scan_size m.

#[export] Instance scan_position_map_ops : PositionMap scan_position_map := {
  read_then_set m e i pos :=
    let '(prev, m) := read_then_set_linear m i pos in (err_SUCCESS, prev, m, e);
}.

(** ** Lemmas *)

Lemma random_range e k r e' : 0 <= k <= 62 -> random_mod_by_pow_of_2 e (2 ^ k) = (r, e') -> 0 <= r < 2 ^ k.
Proof.
  intros Hk. unfold random_mod_by_pow_of_2, draw64. intros [= <- <-].
  replace (2 ^ k - 1) with (Z.ones k) by (rewrite Z.ones_equiv; lia).
  rewrite Z.land_ones by lia. apply Z.mod_pos_bound, Z.pow_pos_nonneg; lia.
Qed.

Lemma scan_step_other block_id data prev i : Z.of_nat i <> block_id ->
  scan_step block_id (data, prev) i = (data, prev).
Proof. intros H. unfold scan_step. by rewrite (proj2 (Z.eqb_neq _ _) H). Qed.

Lemma scan_fold_other block_id data prev start n :
  (forall i, (start <= i < start + n)%nat -> Z.of_nat i <> block_id) ->
  fold_left (scan_step block_id) (seq start n) (data, prev) = (data, prev).
Proof.
  revert start. induction n as [|n IH]; intros start H; [done|]. cbn [seq fold_left].
  rewrite scan_step_other by (apply H; lia). apply IH. intros i Hi. apply H. lia.
Qed.

(** The scan swaps exactly the slot of the block. *)
Lemma scan_position_map_set_spec data i pos v : data !! i = Some v -> 0 <= pos < 2 ^ 32 ->
  scan_position_map_set data (Z.of_nat i) pos = (<[i := pos]> data, v).
Proof.
  intros Hi Hpos. unfold scan_position_map_set. rewrite Z.mod_small by done.
  pose proof (lookup_lt_Some _ _ _ Hi) as Hlt.
  replace (length data) with (i + (1 + (length data - i - 1)))%nat by lia.
  rewrite !seq_app, !fold_left_app, scan_fold_other by lia. cbn [seq fold_left].
  rewrite Nat.add_0_l. unfold scan_step at 2. rewrite Z.eqb_refl, Hi. apply scan_fold_other. lia.
Qed.

(** An id outside the map leaves it unchanged and returns the new position. *)
Lemma scan_position_map_set_absent data block_id pos :
  (forall i, (i < length data)%nat -> Z.of_nat i <> block_id) ->
  scan_position_map_set data block_id pos = (data, pos mod 2 ^ 32).
Proof. intros H. apply scan_fold_other. intros i Hi. apply H. lia. Qed.

Definition scan_inv (n npos : Z) (m : scan_position_map) : Prop :=
  scan_size m = n /\ Z.of_nat (length (scan_data m)) = n /\ npos <= 2 ^ 32 /\
  Forall (fun v => 0 <= v < npos) (scan_data m).

Definition scan_get (m : scan_position_map) (i : Z) : Z := default 0 (scan_data m !! Z.to_nat i).

Lemma scan_lookup n npos m i : scan_inv n npos m -> 0 <= i < n ->
  exists v, scan_data m !! Z.to_nat i = Some v /\ 0 <= v < npos.
Proof.
  intros (_ & Hl & _ & Hf) Hi. destruct (lookup_lt_is_Some_2 (scan_data m) (Z.to_nat i)) as [v Hv]; [lia|].
  exists v. split; [done|]. by apply (proj1 (Forall_lookup _ _) Hf _ _ Hv).
Qed.

#[export] Program Instance scan_position_map_spec : PositionMapSpec scan_position_map := {
  pm_inv := scan_inv; pm_get := scan_get;
}.
Next Obligation.
  intros n npos m i Hm Hi. destruct (scan_lookup n npos m i Hm Hi) as (v & Hv & Hr).
  unfold scan_get. by rewrite Hv.
Qed.
Next Obligation.
  intros n npos m e i pos err prev pm' e' Hm Hi Hpos Hrun _.
  destruct (scan_lookup n npos m i Hm Hi) as (v & Hv & Hr). destruct Hm as (Hs & Hl & Hnp & Hf).
  simpl in Hrun. unfold read_then_set_linear in Hrun.
  replace i with (Z.of_nat (Z.to_nat i)) in Hrun at 1 by lia.
  rewrite (scan_position_map_set_spec _ _ _ v) in Hrun by (done || lia). injection Hrun as <- <- <- <-.
  split_and!.
  - unfold scan_get. by rewrite Hv.
  - split_and!; simpl; [done|by rewrite length_insert|done|]. by apply Forall_insert.
  - intros j Hj. unfold scan_get; simpl. destruct (Z.eqb_spec j i) as [->|].
    + rewrite list_lookup_insert_eq; [done|]. by eapply lookup_lt_Some.
    + rewrite list_lookup_insert_ne by lia. done.
Qed.

Lemma scan_fill_spec n npos e data e' : 0 < npos -> scan_fill n npos e = (data, e') ->
  length data = n /\ Forall (fun v => 0 <= v < npos) data.
Proof.
  intros Hp. revert e data e'. induction n as [|n IH]; intros e data e' H; simpl in H.
  - injection H as <- <-. done.
  - destruct (scan_fill n npos _) as [d e1] eqn:E. injection H as <- <-.
    destruct (IH _ _ _ E) as [Hl Hf]. simpl. split; [lia|]. constructor; [|done].
    apply Z.mod_pos_bound. lia.
Qed.

(** Creation establishes the invariant. *)
Lemma scan_position_map_create_inv size npos e m e' : 0 < npos <= 2 ^ 32 ->
  scan_position_map_create size npos e = (m, e') -> pm_inv (Z.of_nat size) npos m.
Proof.
  intros Hp. unfold scan_position_map_create. destruct (scan_fill size npos e) as [d e1] eqn:E.
  intros [= <- <-]. destruct (scan_fill_spec size npos e d e1 ltac:(lia) E) as [Hl Hf].
  split_and!; simpl; [done|lia|lia|done].
Qed.

(** ** Property *)

(** The linear scan visits every entry and still reads and replaces exactly
    one: for an id in the map it returns that entry and stores the new
    position there; for any other id it changes nothing and returns the new
    position. *)
Theorem scan_map_correct data block_id pos : 0 <= pos < 2 ^ 32 -> 0 <= block_id ->
  scan_position_map_set data block_id pos =
  match data !! Z.to_nat block_id with
  | Some v => (<[Z.to_nat block_id := pos]> data, v)
  | None => (data, pos)
  end.
Proof.
  intros Hp Hb. destruct (data !! Z.to_nat block_id) as [v|] eqn:E.
  - rewrite <- (Z2Nat.id block_id) at 1 by done. by apply scan_position_map_set_spec.
  - apply lookup_ge_None in E. rewrite scan_position_map_set_absent by lia. by rewrite Z.mod_small.
Qed.

Lemma scan_map_correct_witness : scan_position_map_set [4; 5; 6] 1 9 = ([4; 9; 6], 5) /\
  scan_position_map_set [4; 5; 6] 7 9 = ([4; 5; 6], 9).
Proof. split; [apply (scan_map_correct [4; 5; 6] 1 9); lia|apply (scan_map_correct [4; 5; 6] 7 9); lia]. Defined.
