(* ===== verification/Statistics.v ===== *)
(** * Statistics records ([c/util/statistics.h])

    The counters the ORAM and the hash table report.  The [double] fields use
    the IEEE 754 binary64 arithmetic of the standard library's specification
    of floating point. *)

From Stdlib Require Import SpecFloat.
From S2P Require Import Prelude.
Local Open Scope Z_scope.

(** ** Doubles *)

Definition double : Type := spec_float.
Definition double_of_u64 (n : Z) : double := binary_normalize 53 1024 n 0 false.
Definition dadd (x y : double) : double := SFadd 53 1024 x y.
Definition dsub (x y : double) : double := SFsub 53 1024 x y.
Definition dmul (x y : double) : double := SFmul 53 1024 x y.
Definition ddiv (x y : double) : double := SFdiv 53 1024 x y.
(** [x > y] *)
Definition dgt (x y : double) : bool := SFltb y x.
Definition dzero : double := S754_zero false.
Definition done_ : double := double_of_u64 1.

(** ** Records *)

Record oram_statistics := OramStatistics {
  recursion_depth : Z;
  access_count : Z;
  stash_overflow_count : Z;
  max_stash_overflow_count : Z;
  sum_stash_overflow_count : Z;
  stash_overflow_ema10k : double;
  posmap_stash_overflow_count : Z;
  posmap_max_stash_overflow_count : Z;
  posmap_sum_stash_overflow_count : Z;
  posmap_stash_overflow_ema10k : double;
}.

Record ohtable_statistics := OhtableStatistics {
  os_max_trace_length : Z;
  os_total_displacement : Z;
  os_num_items : Z;
  os_capacity : Z;
  os_oram_recursion_depth : Z;
  os_oram_access_count : Z;
  os_stash_overflow_count : Z;
  os_max_stash_overflow_count : Z;
  os_sum_stash_overflow_count : Z;
  os_stash_overflow_ema10k : double;
  os_posmap_stash_overflow_count : Z;
  os_posmap_max_stash_overflow_count : Z;
  os_posmap_sum_stash_overflow_count : Z;
  os_posmap_stash_overflow_ema10k : double;
}.

(** [(oram_statistics){ .max_stash_overflow_count = 0 }]: every field zero. *)
Definition zero_oram_statistics : oram_statistics :=
  {| recursion_depth := 0; access_count := 0; stash_overflow_count := 0;
     max_stash_overflow_count := 0; sum_stash_overflow_count := 0;
     stash_overflow_ema10k := dzero; posmap_stash_overflow_count := 0;
     posmap_max_stash_overflow_count := 0; posmap_sum_stash_overflow_count := 0;
     posmap_stash_overflow_ema10k := dzero |}.

(** ** Facts about doubles *)

Lemma digits2_pos_size p : digits2_pos p = Pos.size p.
Proof. induction p as [p IH|p IH|]; simpl; by rewrite ?IH. Qed.

Lemma digits2_pos_le p n : 0 <= n -> Zpos p < 2 ^ n -> Zpos (digits2_pos p) <= n.
Proof.
  intros Hn Hp. rewrite digits2_pos_size. pose proof (Pos.size_le p) as Hs.
  apply Pos2Z.pos_le_pos in Hs. rewrite Pos2Z.inj_pow in Hs.
  destruct (Z.le_gt_cases (Zpos (Pos.size p)) n) as [|Hgt]; [done|exfalso].
  assert (2 ^ (n + 1) <= 2 ^ Zpos (Pos.size p)) by (apply Z.pow_le_mono_r; lia).
  rewrite Z.pow_add_r in * by lia. lia.
Qed.

Lemma digits2_shift p k : Zpos (digits2_pos (Pos.iter xO p k)) = Zpos (digits2_pos p) + Zpos k.
Proof.
  revert p. induction k as [|k IH] using Pos.peano_ind; intros p; [simpl; lia|].
  rewrite Pos.iter_succ. simpl. rewrite !Pos2Z.inj_succ, IH. lia.
Qed.

(** Integers below [2^53] are finite doubles. *)
Lemma double_of_u64_finite n : 0 < n < 2 ^ 53 -> exists m e, double_of_u64 n = S754_finite false m e.
Proof.
  intros Hn. destruct n as [|p|p]; [lia| |lia]. unfold double_of_u64, binary_normalize, binary_round.
  pose proof (digits2_pos_le p 53 ltac:(lia) ltac:(lia)) as Hd.
  assert (Hal : exists m e, shl_align p 0 (fexp 53 1024 (Zpos (digits2_pos p) + 0)) = (m, e) /\
    Zpos (digits2_pos m) + e = Zpos (digits2_pos p) /\ e = Zpos (digits2_pos p) - 53).
  { unfold fexp, emin. rewrite Z.max_l by lia. unfold shl_align.
    destruct (Zpos (digits2_pos p) + 0 - 53 - 0) as [|k|k] eqn:E; [|lia|].
    - exists p, 0. split; [done|lia].
    - eexists _, _. split; [done|]. rewrite digits2_shift. lia. }
  destruct Hal as (m & e & -> & Hme & He). exists m, e. unfold binary_round_aux.
  assert (Hz : fexp 53 1024 (Zdigits2 (Zpos m) + e) - e = 0).
  { unfold fexp, emin. simpl Zdigits2. rewrite Z.max_l by lia. lia. }
  assert (Hs : shr_fexp 53 1024 (Zpos m) e loc_Exact = ({| shr_m := Zpos m; shr_r := false; shr_s := false |}, e)).
  { unfold shr_fexp. by rewrite Hz. }
  rewrite Hs. cbn [shr_m loc_of_shr_record round_nearest_even]. rewrite Hs. cbn [shr_m].
  by rewrite (proj2 (Z.leb_le _ _)) by lia.
Qed.

(** A finite positive double divided by itself is one. *)
Lemma ddiv_self m e : ddiv (S754_finite false m e) (S754_finite false m e) = done_.
Proof.
  unfold ddiv, SFdiv, SFdiv_core_binary.
  replace (Zdigits2 (Zpos m) + e - (Zdigits2 (Zpos m) + e)) with 0 by lia. rewrite !Z.sub_diag.
  change (Z.min (fexp 53 1024 0) 0) with (-53). change (0 - -53) with 53. cbv iota.
  rewrite Z.shiftl_mul_pow2 by lia.
  assert (Hq : Z.div_eucl (Zpos m * 2 ^ 53) (Zpos m) = (2 ^ 53, 0)).
  { pose proof (Z_div_mod (Zpos m * 2 ^ 53) (Zpos m) ltac:(lia)) as Hd.
    destruct (Z.div_eucl _ _) as [q r]. assert (q = 2 ^ 53) as -> by nia. f_equal. lia. }
  rewrite Hq. assert (Hl : new_location (Zpos m) 0 = loc_Exact).
  { unfold new_location. destruct (Z.even (Zpos m)); reflexivity. }
  rewrite Hl. reflexivity.
Qed.
