(* ===== verification/PathOram.v ===== *)
(** * Path ORAM ([c/path_oram/path_oram.c], [path_oram.jinc])

    One access to the ORAM: draw a fresh position, exchange it with the old one
    in the position map, read the old position's path into the stash, apply the
    accessor to the block, put the block back and evict along the path.  The
    position map is any instance of the [PositionMap] class. *)

From Stdlib Require Import SpecFloat.
From S2P Require Import Prelude Errors Util TreePath Bucket Stash PositionMap Statistics.
Local Open Scope Z_scope.

Record oram (PM : Type) := Oram {
  o_bucket_store : bucket_store;
  o_position_map : PM;
  o_stash : stash;
  o_path : tree_path;
  o_capacity_blocks : Z;
  o_statistics : oram_statistics;
}.
Arguments Oram {PM}.
Arguments o_bucket_store {PM}.
Arguments o_position_map {PM}.
Arguments o_stash {PM}.
Arguments o_path {PM}.
Arguments o_capacity_blocks {PM}.
Arguments o_statistics {PM}.

(** ** Accessors

    What is done to the 168 data words of the block: an accessor returns its
    output and the new data. *)

Definition accessor (A : Type) : Type := list Z -> A * list Z.

Definition block_data_to_buffer : accessor (list Z) := fun block_data => (block_data, block_data).

Definition block_data_from_buffer (in_data : list Z) : accessor unit :=
  fun _ => (tt, take BLOCK_DATA_SIZE_QWORDS in_data).

(** The block's data as an array of 32-bit values, two per word. *)
Definition u32_get (block_data : list Z) (i : nat) : Z :=
  (default 0 (block_data !! (i / 2)%nat) / 2 ^ (32 * Z.of_nat (i mod 2))) mod 2 ^ 32.
Definition u32_set (block_data : list Z) (i : nat) (v : Z) : list Z :=
  let w := default 0 (block_data !! (i / 2)%nat) in
  <[(i / 2)%nat :=
     if (i mod 2 =? 0)%nat then (w / 2 ^ 32) * 2 ^ 32 + v else v * 2 ^ 32 + w mod 2 ^ 32]> block_data.

(** One round of the scans of the partial accessors. *)
Definition write_partial_step (write_at_idx in_data_32 : Z) (st : Z * list Z) (i : nat) : Z * list Z :=
  let '(out_data, block_data) := st in
  let c1 := write_at_idx =? Z.of_nat i in
  (if c1 then u32_get block_data i else out_data,
   if c1 then u32_set block_data i in_data_32 else block_data).

Definition write_partial_out (write_at_idx in_data : Z) : accessor Z := fun block_data =>
  fold_left (write_partial_step write_at_idx (in_data mod 2 ^ 32))
    (seq 0 (BLOCK_DATA_SIZE_QWORDS * 2)) (0, block_data).

Definition read_partial_step (read_at_idx : Z) (block_data : list Z) (out_data : Z) (i : nat) : Z :=
  if read_at_idx =? Z.of_nat i then u32_get block_data i else out_data.

Definition read_partial (read_at_idx : Z) : accessor Z := fun block_data =>
  (fold_left (read_partial_step read_at_idx block_data) (seq 0 (BLOCK_DATA_SIZE_QWORDS * 2)) 0, block_data).

(** ** An access *)

(** Read the buckets of the path, in order from the leaf, then the overflow. *)
Definition read_path_for_block (st : stash) (store : bucket_store) (path : list Z)
    (target_block_id : Z) (target : block) (new_position : Z) : block * stash :=
  let '(target, st) :=
    fold_left (fun '(target, st) bucket_id => add_path_bucket st store bucket_id target_block_id target)
      path (target, st) in
  let '(target, st) := scan_overflow_for_target st target_block_id target in
  ({| id := target_block_id; position := new_position; data := data target |}, st).

(** Write the path's buckets back: three blocks from [path_blocks] per bucket. *)
Fixpoint write_path (store : bucket_store) (path : list Z) (path_blocks : list block) : bucket_store :=
  match path with
  | [] => store
  | bucket_id :: path =>
      write_path (write_bucket_blocks store bucket_id (take BLOCKS_PER_BUCKET path_blocks)) path
        (drop BLOCKS_PER_BUCKET path_blocks)
  end.

Section Access.
Context {PM : Type} `{PositionMap PM} {A : Type}.

(** Steps 4 to 7, on the path of leaf [x]; the accessor's output is returned
    even when the stash is exhausted, since the accessor has run. *)
Definition access_path (acc : accessor A) (o : oram PM) (x block_id new_position : Z) :
    error_t * A * oram PM :=
  let path := tree_path_update (o_path o) x in
  let '(target, st) :=
    read_path_for_block (o_stash o) (o_bucket_store o) (tp_values path) block_id blank_block new_position in
  let '(out, new_data) := acc (data target) in
  let target := {| id := id target; position := position target; data := new_data |} in
  let '(abort, st) := add_block st target in
  if is_success abort then
    let st := build_path st (tp_values path) (tp_length path) in
    let store := write_path (o_bucket_store o) (tp_values path) (stash_path_blocks st) in
    (abort, out,
     {| o_bucket_store := store; o_position_map := o_position_map o; o_stash := st; o_path := path;
        o_capacity_blocks := o_capacity_blocks o; o_statistics := o_statistics o |})
  else
    (abort, out,
     {| o_bucket_store := o_bucket_store o; o_position_map := o_position_map o; o_stash := st;
        o_path := path; o_capacity_blocks := o_capacity_blocks o; o_statistics := o_statistics o |}).

Definition with_position_map (o : oram PM) (pm : PM) : oram PM :=
  {| o_bucket_store := o_bucket_store o; o_position_map := pm; o_stash := o_stash o;
     o_path := o_path o; o_capacity_blocks := o_capacity_blocks o; o_statistics := o_statistics o |}.

(** The whole access; no output if the position map fails. *)
Definition access (acc : accessor A) (o : oram PM) (e : entropy) (block_id : Z) :
    error_t * option A * oram PM * entropy :=
  let max_position := 2 ^ (Z.of_nat (tp_length (o_path o)) - 1) in
  let '(new_position, e) := random_mod_by_pow_of_2 e max_position in
  let '(abort, x, pm, e) := read_then_set (o_position_map o) e block_id new_position in
  let o := with_position_map o pm in
  if is_success abort then
    let '(abort, out, o) := access_path acc o (x [*] 2) block_id (new_position [*] 2) in
    (abort, Some out, o, e)
  else (abort, None, o, e).
End Access.

(** ** Statistics *)

(** [0.99993068768415357] as a binary64 number. *)
Definition tenthousandth_root_one_half : double := S754_finite false 9006574944901356 (-53).

Definition with_statistics {PM} (o : oram PM) (s : oram_statistics) : oram PM :=
  {| o_bucket_store := o_bucket_store o; o_position_map := o_position_map o; o_stash := o_stash o;
     o_path := o_path o; o_capacity_blocks := o_capacity_blocks o; o_statistics := s |}.

Definition oram_collect_statistics {PM} (o : oram PM) : oram PM :=
  let stash_sz := stash_num_overflow_blocks (o_stash o) in
  let stats := o_statistics o in
  with_statistics o
    {| recursion_depth := recursion_depth stats;
       access_count := access_count stats [+] 1;
       stash_overflow_count := stash_sz;
       max_stash_overflow_count :=
         U64_TERNARY (stash_sz >? max_stash_overflow_count stats) stash_sz (max_stash_overflow_count stats);
       sum_stash_overflow_count := sum_stash_overflow_count stats [+] stash_sz;
       stash_overflow_ema10k :=
         dadd (dmul (dsub done_ tenthousandth_root_one_half) (double_of_u64 stash_sz))
              (dmul tenthousandth_root_one_half (stash_overflow_ema10k stats));
       posmap_stash_overflow_count := posmap_stash_overflow_count stats;
       posmap_max_stash_overflow_count := posmap_max_stash_overflow_count stats;
       posmap_sum_stash_overflow_count := posmap_sum_stash_overflow_count stats;
       posmap_stash_overflow_ema10k := posmap_stash_overflow_ema10k stats |}.

Definition oram_clear {PM} (o : oram PM) : oram PM :=
  {| o_bucket_store := bucket_store_clear (o_bucket_store o); o_position_map := o_position_map o;
     o_stash := stash_clear (o_stash o); o_path := o_path o; o_capacity_blocks := o_capacity_blocks o;
     o_statistics := zero_oram_statistics |}.

Definition oram_block_size {PM} (o : oram PM) : Z := Z.of_nat BLOCK_DATA_SIZE_QWORDS.
Definition oram_capacity_blocks {PM} (o : oram PM) : Z := o_capacity_blocks o.

(** ** Entry points: the access, then the statistics *)

Section EntryPoints.
Context {PM : Type} `{PositionMap PM}.

Definition collect {A} (r : error_t * option A * oram PM * entropy) :
    error_t * option A * oram PM * entropy :=
  let '(err, out, o, e) := r in (err, out, oram_collect_statistics o, e).

Definition oram_put (o : oram PM) (e : entropy) (block_id : Z) (data : list Z) :=
  collect (access (block_data_from_buffer data) o e block_id).

Definition oram_get (o : oram PM) (e : entropy) (block_id : Z) :=
  collect (access block_data_to_buffer o e block_id).

(** [oram_function_access_get] and [oram_function_access_put]: the accessor
    arguments are the accessor itself. *)
Definition oram_function_access {A} (acc : accessor A) (o : oram PM) (e : entropy) (block_id : Z) :=
  collect (access acc o e block_id).

(** [oram_position_map_put], used on an ORAM with a linear-scan map. *)
Definition oram_position_map_put (o : oram PM) (e : entropy) (block_id : Z) (data : list Z) :=
  collect (access (block_data_from_buffer data) o e block_id).
End EntryPoints.
