(* ===== verification/ReadPath.v ===== *)
(** * Reading a path into the stash, putting a block back, writing the path

    [read_path_for_block] amounts to one scan over the blocks of the path and
    of the overflow that exchanges the target for the block with the wanted id;
    [add_block] fills the first empty overflow slot; [write_path] replaces the
    path's buckets.  The lemmas say so, and what each step does to the occupied
    blocks. *)

From S2P Require Import Prelude Errors Util TreePath Bucket Stash PathOram.
Local Open Scope Z_scope.

(** ** The scan for the target *)

Fixpoint scan_list (tid : Z) (t : block) (l : list block) : block * list block :=
  match l with
  | [] => (t, [])
  | b :: l =>
      if id b =? tid then let '(t', l') := scan_list tid b l in (t', t :: l')
      else let '(t', l') := scan_list tid t l in (t', b :: l')
  end.

Definition has_id (tid : Z) (b : block) : bool := id b =? tid.

Lemma scan_list_app tid t l1 l2 :
  scan_list tid t (l1 ++ l2) =
  let '(t1, l1') := scan_list tid t l1 in
  let '(t2, l2') := scan_list tid t1 l2 in (t2, l1' ++ l2').
Proof.
  revert t. induction l1 as [|b l1 IH]; intros t; simpl.
  - by destruct (scan_list tid t l2).
  - destruct (id b =? tid); rewrite IH; destruct (scan_list tid _ l1) as [t1 l1'];
      by destruct (scan_list tid t1 l2).
Qed.

Lemma scan_list_length tid t l : length (snd (scan_list tid t l)) = length l.
Proof.
  revert t. induction l as [|b l IH]; intros t; [done|]. simpl. destruct (id b =? tid).
  - specialize (IH b). destruct (scan_list tid b l). simpl in *. lia.
  - specialize (IH t). destruct (scan_list tid t l). simpl in *. lia.
Qed.

Lemma scan_list_perm tid t l : fst (scan_list tid t l) :: snd (scan_list tid t l) ≡ₚ t :: l.
Proof.
  revert t. induction l as [|b l IH]; intros t; [done|]. simpl. destruct (id b =? tid).
  - specialize (IH b). destruct (scan_list tid b l) as [t' l']. simpl in *.
    by rewrite Permutation_swap, IH.
  - specialize (IH t). destruct (scan_list tid t l) as [t' l']. simpl in *.
    rewrite Permutation_swap, IH. apply Permutation_swap.
Qed.

Lemma scan_list_absent tid t l : countb (has_id tid) l = 0%nat -> scan_list tid t l = (t, l).
Proof.
  revert t. induction l as [|b l IH]; intros t H; [done|]. simpl in *. unfold has_id in H at 1.
  destruct (id b =? tid); [lia|]. by rewrite IH.
Qed.

(** If at most one block has the id, the scan leaves no block with it. *)
Lemma scan_list_removes tid t l : (countb (has_id tid) (t :: l) <= 1)%nat ->
  countb (has_id tid) (snd (scan_list tid t l)) = 0%nat.
Proof.
  revert t. induction l as [|b l IH]; intros t H; [done|]. simpl in *.
  unfold has_id in H at 2. destruct (id b =? tid) eqn:E.
  - rewrite scan_list_absent by lia. simpl. destruct (has_id tid t); lia.
  - specialize (IH t). destruct (scan_list tid t l). simpl in *. unfold has_id at 1. rewrite E.
    apply IH. lia.
Qed.

(** A slot with another id keeps its block. *)
Lemma scan_list_keep tid t l i b : l !! i = Some b -> id b <> tid -> snd (scan_list tid t l) !! i = Some b.
Proof.
  revert t i. induction l as [|c l IH]; intros t i Hi Hne; [done|]. simpl.
  destruct i as [|i].
  - injection Hi as ->. rewrite (proj2 (Z.eqb_neq _ _) Hne). by destruct (scan_list tid t l).
  - destruct (id c =? tid).
    + specialize (IH c i Hi Hne). by destruct (scan_list tid c l).
    + specialize (IH t i Hi Hne). by destruct (scan_list tid t l).
Qed.

(** A slot keeps its block or receives the initial target. *)
Lemma scan_list_slots tid t l i b : (countb (has_id tid) (t :: l) <= 1)%nat ->
  snd (scan_list tid t l) !! i = Some b -> l !! i = Some b \/ b = t.
Proof.
  revert t i. induction l as [|c l IH]; intros t i H Hi; [done|]. simpl in *.
  unfold has_id in H at 2. destruct (id c =? tid) eqn:E.
  - rewrite scan_list_absent in Hi by lia. destruct i as [|i]; simpl in *; [right; congruence|by left].
  - specialize (IH t). destruct (scan_list tid t l). simpl in *.
    destruct i as [|i]; simpl in *; [by left|]. apply IH; [lia|done].
Qed.

Lemma cond_swap_fold tid t l1 l l3 :
  fold_left (cond_swap_blocks tid) (seq (length l1) (length l)) (t, l1 ++ l ++ l3) =
  (fst (scan_list tid t l), l1 ++ snd (scan_list tid t l) ++ l3).
Proof.
  revert t l1. induction l as [|b l IH]; intros t l1; [done|]. cbn [length seq fold_left].
  assert (Hb : block_at (l1 ++ (b :: l) ++ l3) (length l1) = b).
  { apply block_at_lookup. by rewrite lookup_app_r, Nat.sub_diag by lia. }
  unfold cond_swap_blocks at 2. rewrite Hb. simpl scan_list. destruct (id b =? tid).
  - assert (<[length l1 := t]> (l1 ++ (b :: l) ++ l3) = (l1 ++ [t]) ++ l ++ l3) as ->.
    { rewrite insert_app_r_alt, Nat.sub_diag by lia. simpl. by rewrite <- app_assoc. }
    replace (S (length l1)) with (length (l1 ++ [t])) by (rewrite length_app; simpl; lia).
    rewrite IH. destruct (scan_list tid b l). simpl. by rewrite <- app_assoc.
  - replace (l1 ++ (b :: l) ++ l3) with ((l1 ++ [b]) ++ l ++ l3) by (by rewrite <- app_assoc).
    replace (S (length l1)) with (length (l1 ++ [b])) by (rewrite length_app; simpl; lia).
    rewrite IH. destruct (scan_list tid t l). simpl. by rewrite <- app_assoc.
Qed.

(** ** Reading the buckets *)

Lemma copy_blocks_app l1 l src l3 : length l = length src ->
  copy_blocks (l1 ++ l ++ l3) (length l1) src = l1 ++ src ++ l3.
Proof.
  revert l1 l. induction src as [|b src IH]; intros l1 [|x l] Hl; simplify_eq/=; [done|].
  rewrite insert_app_r_alt, Nat.sub_diag by lia. simpl.
  replace (l1 ++ b :: l ++ l3) with ((l1 ++ [b]) ++ l ++ l3) by (by rewrite <- app_assoc).
  replace (S (length l1)) with (length (l1 ++ [b])) by (rewrite length_app; simpl; lia).
  rewrite IH by done. by rewrite <- app_assoc.
Qed.

Lemma add_path_bucket_spec s store v tid t l1 l l3 bk :
  blocks s = l1 ++ l ++ l3 -> read_bucket_blocks store v = bk -> length bk = BLOCKS_PER_BUCKET ->
  length l = BLOCKS_PER_BUCKET -> length l1 = (Z.to_nat (level v) * BLOCKS_PER_BUCKET)%nat ->
  add_path_bucket s store v tid t =
  (fst (scan_list tid t bk), with_blocks s (l1 ++ snd (scan_list tid t bk) ++ l3)).
Proof.
  intros Hs Hbk Hlb Hl Hl1. unfold add_path_bucket, first_block_in_bucket_for_level.
  rewrite Hs, Hbk, <- Hl1, copy_blocks_app by congruence. rewrite <- Hlb at 1.
  by rewrite cond_swap_fold.
Qed.

(** The buckets of the path, from the leaf up. *)
Definition path_contents (store : bucket_store) (path : list Z) : list block :=
  concat (map (read_bucket_blocks store) path).

Lemma read_path_fold store tid path : forall k s t l1 l3,
  (forall j v, path !! j = Some v -> level v = Z.of_nat (k + j) /\
     length (read_bucket_blocks store v) = BLOCKS_PER_BUCKET) ->
  blocks s = l1 ++ l3 -> length l1 = (k * BLOCKS_PER_BUCKET)%nat ->
  (length path * BLOCKS_PER_BUCKET <= length l3)%nat ->
  fold_left (fun '(target, st) bucket_id => add_path_bucket st store bucket_id tid target) path (t, s) =
  (fst (scan_list tid t (path_contents store path)),
   with_blocks s (l1 ++ snd (scan_list tid t (path_contents store path)) ++
                  drop (length path * BLOCKS_PER_BUCKET) l3)).
Proof.
  induction path as [|v path IH]; intros k s t l1 l3 Hp Hs Hl1 Hl3.
  { simpl. rewrite drop_0. rewrite <- Hs. by destruct s. }
  cbn [fold_left]. destruct (Hp 0%nat v eq_refl) as [Hv Hbk]. rewrite Nat.add_0_r in Hv.
  cbn [length] in Hl3.
  rewrite (add_path_bucket_spec s store v tid t l1 (take BLOCKS_PER_BUCKET l3) (drop BLOCKS_PER_BUCKET l3) _
    ltac:(by rewrite take_drop) eq_refl Hbk ltac:(rewrite length_take; lia) ltac:(by rewrite Hl1, Hv, Nat2Z.id)).
  set (bk := read_bucket_blocks store v) in *.
  pose proof (scan_list_length tid t bk) as Hsl.
  change (path_contents store (v :: path)) with (bk ++ path_contents store path).
  rewrite scan_list_app. destruct (scan_list tid t bk) as [t1 bk'] eqn:Esc. cbn [fst snd] in *.
  rewrite (IH (S k) _ t1 (l1 ++ bk') (drop BLOCKS_PER_BUCKET l3)).
  - destruct (scan_list tid t1 (path_contents store path)) as [t2 rest]. cbn [fst snd length].
    rewrite drop_drop, <- !app_assoc. unfold with_blocks; simpl. repeat f_equal.
  - intros j w Hj. destruct (Hp (S j) w Hj) as [-> ?]. split; [f_equal; lia|done].
  - simpl. by rewrite <- app_assoc.
  - rewrite length_app, Hl1, Hsl, Hbk. lia.
  - rewrite length_drop. lia.
Qed.

(** ** The overflow *)

(** The stash as path blocks followed by overflow blocks. *)
Definition stash_split (s : stash) (pb ov : list block) : Prop :=
  blocks s = pb ++ ov /\ overflow_start s = length pb /\ overflow_capacity s = length ov.

Lemma stash_wf_split L cap s : stash_wf L cap s ->
  stash_split s (stash_path_blocks s) (overflow_blocks s) /\
  length (stash_path_blocks s) = (L * BLOCKS_PER_BUCKET)%nat /\ length (overflow_blocks s) = cap.
Proof.
  intros [H1 H2 H3 H4]. unfold stash_split, stash_path_blocks, overflow_blocks.
  rewrite length_take, length_drop, take_drop. split_and!; [done|lia..].
Qed.

Lemma has_id_empty tid b : tid <> EMPTY_BLOCK_ID -> block_is_empty b = true -> has_id tid b = false.
Proof. unfold block_is_empty, has_id. intros H ->%Z.eqb_eq. apply Z.eqb_neq. congruence. Qed.

Lemma scan_overflow_spec s pb ov tid t : stash_split s pb ov -> tid <> EMPTY_BLOCK_ID ->
  scan_overflow_for_target s tid t =
  (fst (scan_list tid t ov), with_blocks s (pb ++ snd (scan_list tid t ov))).
Proof.
  intros (Hs & Hst & Hc) Hne. unfold scan_overflow_for_target.
  destruct (overflow_ub_spec s) as [Hub Htail]. set (ub := overflow_ub s) in *. clearbody ub.
  rewrite Hs, Hst in *. rewrite Hc in *.
  assert (Hlen : length (take ub ov) = ub) by (rewrite length_take; lia).
  rewrite <- (take_drop ub ov) at 1. rewrite <- Hlen at 1. rewrite cond_swap_fold.
  assert (Habs : countb (has_id tid) (drop ub ov) = 0%nat).
  { apply countb_false. intros b [i Hi]%list_elem_of_lookup. apply has_id_empty; [done|].
    rewrite lookup_drop in Hi. pose proof (lookup_lt_Some _ _ _ Hi).
    rewrite <- (Htail (ub + i)%nat ltac:(lia)). f_equal. symmetry. apply block_at_lookup.
    rewrite lookup_app_r by lia. rewrite <- Hi. f_equal. lia. }
  pose proof (scan_list_app tid t (take ub ov) (drop ub ov)) as Happ. rewrite take_drop in Happ.
  rewrite Happ. destruct (scan_list tid t (take ub ov)) as [t1 l1]. by rewrite scan_list_absent.
Qed.

Lemma add_block_done nb bs start n :
  fold_left (add_block_step nb) (seq start n) (bs, true) = (bs, true).
Proof.
  revert start. induction n as [|n IH]; intros start; [done|]. cbn [seq fold_left].
  unfold add_block_step at 2. rewrite andb_false_r. apply IH.
Qed.

(** The first empty slot of the overflow takes the block. *)
Lemma add_block_fold nb pb ov :
  (exists l1 b l2, ov = l1 ++ b :: l2 /\ block_is_empty b = true /\ live l1 = l1 /\
     fold_left (add_block_step nb) (seq (length pb) (length ov)) (pb ++ ov, false) =
       (pb ++ l1 ++ nb :: l2, true)) \/
  (live ov = ov /\
   fold_left (add_block_step nb) (seq (length pb) (length ov)) (pb ++ ov, false) = (pb ++ ov, false)).
Proof.
  revert pb. induction ov as [|b ov IH]; intros pb; [by right|]. cbn [length seq fold_left].
  assert (Hb : block_at (pb ++ b :: ov) (length pb) = b).
  { apply block_at_lookup. by rewrite lookup_app_r, Nat.sub_diag by lia. }
  unfold add_block_step at 2 4. rewrite Hb, andb_true_r. destruct (block_is_empty b) eqn:E.
  - left. exists [], b, ov. split_and!; [done..|].
    rewrite insert_app_r_alt, Nat.sub_diag by lia. simpl. apply add_block_done.
  - specialize (IH (pb ++ [b])). rewrite length_app in IH. simpl in IH.
    rewrite Nat.add_1_r, <- app_assoc in IH. simpl in IH. rewrite !live_cons by done.
    destruct IH as [(l1 & b' & l2 & -> & He & Hl & Hf)|[Hl Hf]].
    + left. exists (b :: l1), b', l2. split_and!; [done..|rewrite live_cons by done; by rewrite Hl|].
      simpl. rewrite Hf. by rewrite <- app_assoc.
    + right. simpl. rewrite Hl, Hf. done.
Qed.

Lemma add_block_spec s pb ov nb err s' : stash_split s pb ov -> add_block s nb = (err, s') ->
  (err = err_SUCCESS /\ exists l1 b l2, ov = l1 ++ b :: l2 /\ block_is_empty b = true /\
     s' = with_blocks s (pb ++ l1 ++ nb :: l2)) \/
  (err = err_ORAM__STASH_EXHAUSTION /\ live ov = ov /\ s' = with_blocks s (blocks s)).
Proof.
  intros (Hs & Hst & Hc) Hadd. unfold add_block in Hadd. rewrite Hs, Hst, Hc in Hadd.
  destruct (add_block_fold nb pb ov) as [(l1 & b & l2 & E & He & _ & Hf)|[Hl Hf]];
    rewrite Hf in Hadd; injection Hadd as <- <-.
  - left. split; [done|]. by exists l1, b, l2.
  - right. by rewrite Hs.
Qed.

(** ** The buckets of a path and the rest of the tree *)

(** The buckets with those at [ns] emptied. *)
Definition clear_at (ns : list nat) (ls : list (list block)) : list (list block) :=
  foldr (fun i acc => <[i := []]> acc) ls ns.

Lemma clear_at_length ns ls : length (clear_at ns ls) = length ls.
Proof. induction ns as [|i ns IH]; [done|]. simpl. by rewrite length_insert. Qed.

Lemma clear_at_lookup ns ls j : (j < length ls)%nat ->
  clear_at ns ls !! j = if decide (j ∈ ns) then Some [] else ls !! j.
Proof.
  intros Hj. induction ns as [|i ns IH]; [by rewrite decide_False by set_solver|]. simpl.
  destruct (decide (j = i)) as [->|].
  - rewrite list_lookup_insert_eq by (by rewrite clear_at_length). by rewrite decide_True by left.
  - rewrite list_lookup_insert_ne, IH by done.
    destruct (decide (j ∈ ns)); [by rewrite decide_True by (by right)|].
    rewrite decide_False; [done|]. rewrite elem_of_cons. tauto.
Qed.

Lemma concat_insert_perm (ls : list (list block)) i l : ls !! i = Some l ->
  concat ls ≡ₚ l ++ concat (<[i := []]> ls).
Proof.
  revert i. induction ls as [|x ls IH]; intros [|i] H; simplify_eq/=; [done|].
  rewrite (IH i H) at 1. rewrite !app_assoc. f_equiv. apply Permutation_app_comm.
Qed.

Lemma concat_path_perm ns (ls : list (list block)) : NoDup ns -> Forall (fun i => i < length ls)%nat ns ->
  concat ls ≡ₚ concat (map (fun i => default [] (ls !! i)) ns) ++ concat (clear_at ns ls).
Proof.
  induction 1 as [|i ns Hi Hnd IH]; intros Hf; [done|]. apply Forall_cons in Hf as [Hlt Hf].
  simpl. rewrite IH by done.
  destruct (lookup_lt_is_Some_2 ls i Hlt) as [l Hl]. rewrite Hl. simpl.
  rewrite (concat_insert_perm (clear_at ns ls) i l).
  - rewrite !app_assoc. f_equiv. apply Permutation_app_comm.
  - rewrite clear_at_lookup by done. by rewrite decide_False.
Qed.

(** ** Writing the path back *)

Local Abbreviation nodes path := (map Z.to_nat path).

Lemma write_path_length store path pb : length (buckets (write_path store path pb)) = length (buckets store).
Proof.
  revert store pb. induction path as [|v path IH]; intros store pb; [done|]. simpl.
  rewrite IH. simpl. apply length_insert.
Qed.

Lemma write_path_size store path pb : size_bytes (write_path store path pb) = size_bytes store.
Proof. revert store pb. induction path as [|v path IH]; intros store pb; [done|]. simpl. by rewrite IH. Qed.

Lemma write_path_other store path pb j : j ∉ nodes path ->
  buckets (write_path store path pb) !! j = buckets store !! j.
Proof.
  revert store pb. induction path as [|v path IH]; intros store pb Hj; [done|]. simpl in *.
  rewrite not_elem_of_cons in Hj. destruct Hj. rewrite IH by done. simpl.
  by rewrite list_lookup_insert_ne.
Qed.

Lemma write_path_at store path pb i v : NoDup (nodes path) ->
  Forall (fun n => n < length (buckets store))%nat (nodes path) -> path !! i = Some v ->
  buckets (write_path store path pb) !! Z.to_nat v =
  Some (take BLOCKS_PER_BUCKET (drop (i * BLOCKS_PER_BUCKET) pb)).
Proof.
  revert store pb i. induction path as [|w path IH]; intros store pb i Hnd Hf Hi; [done|].
  simpl in Hnd, Hf. apply NoDup_cons in Hnd as [Hw Hnd]. apply Forall_cons in Hf as [Hlt Hf].
  cbn [write_path]. destruct i as [|i]; simpl in Hi.
  - injection Hi as ->. rewrite write_path_other by done. simpl (buckets (write_bucket_blocks _ _ _)).
    by rewrite list_lookup_insert_eq.
  - rewrite (IH _ _ i Hnd); [|by simpl; rewrite length_insert|done].
    by rewrite drop_drop.
Qed.

(** The blocks found on the path after it was written. *)
Lemma write_path_contents store path pb : NoDup (nodes path) ->
  Forall (fun n => n < length (buckets store))%nat (nodes path) ->
  length pb = (length path * BLOCKS_PER_BUCKET)%nat ->
  path_contents (write_path store path pb) path = pb.
Proof.
  intros Hnd Hf Hl. unfold path_contents, read_bucket_blocks.
  assert (Hgen : forall k path', (forall j v, path' !! j = Some v -> path !! (k + j)%nat = Some v) ->
    (k + length path' = length path)%nat ->
    concat (map (fun v => default [] (buckets (write_path store path pb) !! Z.to_nat v)) path') =
    drop (k * BLOCKS_PER_BUCKET) pb).
  { intros k path'. revert k. induction path' as [|v path' IH]; intros k Hp Hk; simpl in Hk.
    - simpl. rewrite drop_ge; [done|]. rewrite Hl. lia.
    - simpl. rewrite (write_path_at store path pb k v) by (done || (rewrite <- (Nat.add_0_r k) at 1; by apply Hp)).
      rewrite (IH (S k)).
      + simpl (default _ _). rewrite <- (take_drop BLOCKS_PER_BUCKET (drop (k * _) pb)) at 2.
        f_equal. rewrite drop_drop. f_equal. lia.
      + intros j w Hj. rewrite Nat.add_succ_comm. by apply Hp.
      + lia. }
  apply (Hgen 0%nat); [done|lia].
Qed.

Lemma write_path_clear store path pb :
  clear_at (nodes path) (buckets (write_path store path pb)) = clear_at (nodes path) (buckets store).
Proof.
  apply list_eq. intros j. destruct (decide (j < length (buckets store))%nat).
  - rewrite !clear_at_lookup by (rewrite ?write_path_length; done).
    case_decide; [done|]. by apply write_path_other.
  - rewrite !lookup_ge_None_2; [done|..]; rewrite ?clear_at_length, ?write_path_length; lia.
Qed.

(** ** A whole path read *)

Lemma read_path_spec s pb ov store path tid np :
  stash_split s pb ov -> tid <> EMPTY_BLOCK_ID ->
  (forall j v, path !! j = Some v -> level v = Z.of_nat j /\
     length (read_bucket_blocks store v) = BLOCKS_PER_BUCKET) ->
  length pb = (length path * BLOCKS_PER_BUCKET)%nat ->
  let r := scan_list tid blank_block (path_contents store path ++ ov) in
  read_path_for_block s store path tid blank_block np =
  ({| id := tid; position := np; data := data (fst r) |}, with_blocks s (snd r)).
Proof.
  intros (Hs & Hst & Hc) Hne Hp Hl. cbv zeta. unfold read_path_for_block.
  rewrite (read_path_fold store tid path 0 s blank_block [] (pb ++ ov) Hp Hs eq_refl)
    by (rewrite length_app; lia).
  rewrite scan_list_app. rewrite app_nil_l, drop_app_length' by lia.
  pose proof (scan_list_length tid blank_block (path_contents store path)) as Hlen.
  destruct (scan_list tid blank_block (path_contents store path)) as [t1 pb'] eqn:E. cbn [fst snd] in *.
  assert (Hpc : length (path_contents store path) = length pb).
  { rewrite Hl. unfold path_contents. clear -Hp. revert Hp.
    induction path as [|v path IH] using rev_ind; intros Hp; [done|].
    rewrite map_app, concat_app, !length_app, IH; simpl.
    - rewrite app_nil_r. destruct (Hp (length path) v) as [_ ->];
        [by rewrite lookup_app_r, Nat.sub_diag by lia|]. unfold BLOCKS_PER_BUCKET. lia.
    - intros j w Hj. apply Hp. by apply lookup_app_l_Some. }
  rewrite (scan_overflow_spec _ pb' ov tid t1); [|split_and!; simpl; [done|lia|done]|done].
  by destruct (scan_list tid t1 ov).
Qed.
