(* ===== verification/PathOramSpec.v ===== *)
(** * Path ORAM implements a map from block ids to block data

    The invariant of the ORAM and the refinement theorem: whatever positions
    are drawn, an access that reports success applies its accessor to the data
    last stored under the block id and leaves every other block's data alone. *)

From S2P Require Import Prelude Errors Util TreePath Bucket Stash Eviction PositionMap PathOram ReadPath.
Local Open Scope Z_scope.

(** ** The invariant *)

(** All blocks outside the path scratch area of the stash. *)
Definition tree_blocks (store : bucket_store) (s : stash) : list block :=
  concat (buckets store) ++ overflow_blocks s.

(** [posn] gives each id its position: every occupied block sits in the
    overflow or in a bucket on the path of its position's leaf. *)
Record tree_inv (L cap : nat) (n : Z) (posn : Z -> Z) (store : bucket_store) (s : stash) : Prop := {
  ti_store : store_wf L store;
  ti_stash : stash_wf L cap s;
  ti_tree v bk b : buckets store !! v = Some bk -> b ∈ bk -> block_is_empty b = false ->
    Z.of_nat v ∈ path_of L (position b);
  ti_ids : NoDup (map id (live (tree_blocks store s)));
  ti_live b : b ∈ live (tree_blocks store s) ->
    0 <= id b < n /\ length (data b) = BLOCK_DATA_SIZE_QWORDS /\ position b = 2 * posn (id b);
}.

(** The data of block [i]: all ones if it was never written. *)
Definition lookup_data (l : list block) (i : Z) : list Z :=
  match find (has_id i) l with Some b => data b | None => data blank_block end.

(** An accessor that returns a full block. *)
Definition accessor_ok {A} (acc : accessor A) : Prop :=
  forall d, length d = BLOCK_DATA_SIZE_QWORDS -> length (acc d).2 = BLOCK_DATA_SIZE_QWORDS.

(** ** Finding blocks by id *)

Lemma find_has_id_Some l i b : NoDup (map id l) -> b ∈ l -> id b = i -> find (has_id i) l = Some b.
Proof.
  induction l as [|c l IH]; intros Hnd Hin Hi; [by apply elem_of_nil in Hin|].
  simpl in *. apply NoDup_cons in Hnd as [Hc Hnd]. unfold has_id at 1.
  apply elem_of_cons in Hin as [->|Hin].
  - by rewrite Hi, Z.eqb_refl.
  - destruct (Z.eqb_spec (id c) i) as [E|]; [|by apply IH].
    exfalso. apply Hc. rewrite E, <- Hi. by apply (list_elem_of_fmap_2 id).
Qed.

Lemma find_has_id_None l i : i ∉ map id l -> find (has_id i) l = None.
Proof.
  induction l as [|c l IH]; intros H; [done|]. simpl in *. rewrite not_elem_of_cons in H.
  destruct H as [Hc Hl]. unfold has_id at 1. destruct (Z.eqb_spec (id c) i); [congruence|]. by apply IH.
Qed.

Lemma lookup_data_perm l l' i : NoDup (map id l) -> l ≡ₚ l' -> lookup_data l i = lookup_data l' i.
Proof.
  intros Hnd Hp. unfold lookup_data.
  assert (Hnd' : NoDup (map id l')) by (by rewrite <- Hp).
  destruct (decide (i ∈ map id l)) as [(b & Hb & Hin)%list_elem_of_fmap|Hn].
  - rewrite (find_has_id_Some l i b), (find_has_id_Some l' i b); (done || by rewrite <- Hp).
  - rewrite !find_has_id_None; [done| |done]. by rewrite <- Hp.
Qed.

Lemma lookup_data_cons b l i : lookup_data (b :: l) i = if i =? id b then data b else lookup_data l i.
Proof. unfold lookup_data; simpl. unfold has_id at 1. rewrite Z.eqb_sym. by destruct (i =? id b). Qed.

Lemma lookup_data_absent l i : i ∉ map id l -> lookup_data l i = data blank_block.
Proof. intros H. unfold lookup_data. by rewrite find_has_id_None. Qed.

(** Occupied blocks have distinct ids, so at most one block has a given id. *)
Lemma live_id_count l i : i <> EMPTY_BLOCK_ID -> NoDup (map id (live l)) ->
  (countb (has_id i) l <= 1)%nat.
Proof.
  intros Hi. induction l as [|b l IH]; intros Hnd; simpl; [lia|].
  destruct (block_is_empty b) eqn:E.
  - rewrite live_cons_empty in Hnd by done. rewrite has_id_empty by done. simpl. by apply IH.
  - rewrite live_cons in Hnd by done. simpl in Hnd. apply NoDup_cons in Hnd as [Hb Hnd].
    destruct (has_id i b) eqn:Eb; [|by apply IH].
    rewrite (countb_false _ l); [lia|]. intros c Hc. destruct (has_id i c) eqn:Ec; [|done]. exfalso.
    unfold has_id in *. breflect. apply Hb. rewrite Eb, <- Ec. apply (list_elem_of_fmap_2 id).
    apply elem_of_live. split; [|done]. unfold block_is_empty. apply Z.eqb_neq. congruence.
Qed.

Lemma countb_has_id_0 l i : i <> EMPTY_BLOCK_ID -> countb (has_id i) l = 0%nat -> i ∉ map id (live l).
Proof.
  intros Hi Hc (b & Hb & Hin)%list_elem_of_fmap. apply elem_of_live in Hin as [_ Hin].
  apply list_elem_of_lookup in Hin as [k Hk].
  pose proof (list_elem_of_split_length _ _ _ Hk) as (l1 & l2 & -> & _).
  rewrite countb_app in Hc. simpl in Hc. unfold has_id in Hc at 2. rewrite Hb, Z.eqb_refl in Hc. lia.
Qed.

Lemma scan_list_target tid t l : fst (scan_list tid t l) = t \/ id (fst (scan_list tid t l)) = tid.
Proof.
  revert t. induction l as [|b l IH]; intros t; [by left|]. simpl.
  destruct (Z.eqb_spec (id b) tid).
  - specialize (IH b). destruct (scan_list tid b l). simpl in *. right. destruct IH; congruence.
  - specialize (IH t). by destruct (scan_list tid t l).
Qed.

(** What the scan for [tid] does to the occupied blocks. *)
Lemma scan_live tid l : tid <> EMPTY_BLOCK_ID -> (countb (has_id tid) l <= 1)%nat ->
  let '(t, l') := scan_list tid blank_block l in
  (tid ∉ map id (live l')) /\
  ((t = blank_block /\ live l ≡ₚ live l') \/ (id t = tid /\ live l ≡ₚ t :: live l')).
Proof.
  intros Hne Hc. pose proof (scan_list_perm tid blank_block l) as Hp.
  pose proof (scan_list_removes tid blank_block l) as Hr.
  pose proof (scan_list_target tid blank_block l) as Ht.
  destruct (scan_list tid blank_block l) as [t l']. cbn [fst snd] in *.
  split; [apply countb_has_id_0; [done|]; apply Hr; simpl; rewrite has_id_empty by done; lia|].
  apply live_perm in Hp. rewrite (live_cons_empty blank_block) in Hp by done.
  destruct Ht as [->|Ht].
  - left. split; [done|]. by rewrite live_cons_empty in Hp.
  - right. split; [done|]. rewrite live_cons in Hp; [done|].
    unfold block_is_empty. apply Z.eqb_neq. congruence.
Qed.

(** ** One access on a path *)

Section Path.
Context (L cap : nat) (n : Z) (posn : Z -> Z) (store : bucket_store) (s : stash).
Context (HL : (1 <= L <= 50)%nat) (Hn : n <= UINT64_MAX).
Context (Hinv : tree_inv L cap n posn store s).
Context (Hposn : forall i, 0 <= i < n -> 0 <= posn i < 2 ^ (Z.of_nat L - 1)).
Context (tid : Z) (Htid : 0 <= tid < n).

Let leaf := 2 * posn tid.
Let path := path_of L leaf.
Let nodes := map Z.to_nat path.
Let rest := concat (clear_at nodes (buckets store)).

Lemma posn_leaf i : 0 <= i < n -> is_leaf L (2 * posn i).
Proof.
  intros Hi. specialize (Hposn i Hi). split; [|dlia].
  replace (Z.of_nat L) with (1 + (Z.of_nat L - 1)) by lia. rewrite Z.pow_add_r by lia. lia.
Qed.

Lemma leaf_ok : is_leaf L leaf.
Proof. by apply posn_leaf. Qed.

Lemma tid_nonempty : tid <> EMPTY_BLOCK_ID.
Proof. unfold EMPTY_BLOCK_ID. lia. Qed.

Lemma path_lookup i v : path !! i = Some v ->
  (i < L)%nat /\ v = node (Z.of_nat i) (leaf / 2 ^ (Z.of_nat i + 1)) /\
  level v = Z.of_nat i /\ 0 <= v < 2 ^ Z.of_nat L - 1.
Proof.
  intros Hv. pose proof leaf_ok as [Hleaf _]. pose proof (path_of_lookup_inv _ _ _ _ Hv) as [Hi E].
  pose proof (path_node_bound L leaf i Hleaf Hi) as Hb. rewrite <- E in Hb.
  split_and!; [done..| |lia|lia]. apply (path_level L leaf i _ ltac:(lia) Hleaf Hv).
Qed.

Lemma nodes_range : Forall (fun v => v < length (buckets store))%nat nodes.
Proof.
  destruct (ti_store _ _ _ _ _ _ Hinv) as (Hlen & _ & _).
  apply Forall_lookup. intros i v Hv. unfold nodes in Hv. rewrite list_lookup_fmap in Hv.
  destruct (path !! i) as [w|] eqn:E; [|done]. injection Hv as <-.
  apply path_lookup in E as (_ & _ & _ & Hr). rewrite Hlen. lia.
Qed.

Lemma nodes_NoDup : NoDup nodes.
Proof.
  apply NoDup_alt. intros i j v Hi Hj. unfold nodes in *. rewrite list_lookup_fmap in Hi, Hj.
  destruct (path !! i) as [x|] eqn:Ei; [|done]. destruct (path !! j) as [y|] eqn:Ej; [|done].
  apply path_lookup in Ei as (_ & _ & Hx & ?). apply path_lookup in Ej as (_ & _ & Hy & ?).
  injection Hi as <-. injection Hj as Exy. assert (x = y) by lia. subst. lia.
Qed.

Lemma read_bucket_lookup v : 0 <= v -> (Z.to_nat v < length (buckets store))%nat ->
  buckets store !! Z.to_nat v = Some (read_bucket_blocks store v) /\
  length (read_bucket_blocks store v) = BLOCKS_PER_BUCKET.
Proof.
  intros Hv Hlt. unfold read_bucket_blocks. destruct (lookup_lt_is_Some_2 _ _ Hlt) as [bk Hbk].
  rewrite Hbk. split; [done|]. destruct (ti_store _ _ _ _ _ _ Hinv) as (_ & Hf & _).
  by apply (proj1 (Forall_lookup _ _) Hf _ _ Hbk).
Qed.

Lemma path_buckets j v : path !! j = Some v ->
  level v = Z.of_nat j /\ length (read_bucket_blocks store v) = BLOCKS_PER_BUCKET.
Proof.
  intros Hv. destruct (path_lookup j v Hv) as (_ & _ & Hl & Hr). split; [done|].
  apply read_bucket_lookup; [lia|]. destruct (ti_store _ _ _ _ _ _ Hinv) as (Hlen & _ & _). lia.
Qed.

(** The tree is the path's buckets and the rest. *)
Lemma tree_split : concat (buckets store) ≡ₚ path_contents store path ++ rest.
Proof.
  rewrite (concat_path_perm nodes (buckets store) nodes_NoDup nodes_range).
  unfold path_contents, nodes, rest. by rewrite map_map.
Qed.

(** A block with the wanted id is on the path or in the overflow. *)
Lemma tid_not_in_rest : tid ∉ map id (live rest).
Proof.
  intros (b & Hb & Hin)%list_elem_of_fmap. pose proof Hin as [Hne Hr]%elem_of_live.
  assert (Hlive : b ∈ live (tree_blocks store s)).
  { apply elem_of_live. split; [done|]. apply elem_of_app. left.
    rewrite tree_split. apply elem_of_app. by right. }
  destruct (ti_live _ _ _ _ _ _ Hinv b Hlive) as (_ & _ & Hpos).
  apply list_elem_of_In, in_concat in Hr as (bk & Hbk & Hbb). apply list_elem_of_In in Hbk, Hbb.
  apply list_elem_of_lookup in Hbk as [v Hv].
  pose proof (lookup_lt_Some _ _ _ Hv) as Hlt. rewrite clear_at_length in Hlt.
  rewrite clear_at_lookup in Hv by done. case_decide as Hd.
  { injection Hv as <-. by apply elem_of_nil in Hbb. }
  apply Hd. pose proof (ti_tree _ _ _ _ _ _ Hinv v bk b Hv Hbb Hne) as Hin'.
  rewrite Hpos, <- Hb in Hin'. apply (list_elem_of_fmap_2 Z.to_nat) in Hin'.
  by rewrite Nat2Z.id in Hin'.
Qed.

Let contents := path_contents store path ++ overflow_blocks s.

Lemma tree_contents : tree_blocks store s ≡ₚ contents ++ rest.
Proof.
  unfold tree_blocks, contents. rewrite tree_split, <- !app_assoc. f_equiv. apply Permutation_app_comm.
Qed.

Lemma contents_count : (countb (has_id tid) contents <= 1)%nat.
Proof.
  pose proof (live_id_count _ tid tid_nonempty (ti_ids _ _ _ _ _ _ Hinv)) as Hc.
  rewrite (countb_perm _ _ _ tree_contents), countb_app in Hc. lia.
Qed.

Lemma path_buckets_length :
  Forall (fun bk => length bk = BLOCKS_PER_BUCKET) (map (read_bucket_blocks store) path).
Proof.
  apply Forall_lookup. intros i bk Hbk. rewrite list_lookup_fmap in Hbk.
  destruct (path !! i) as [v|] eqn:E; [|done]. injection Hbk as <-. by apply (path_buckets i).
Qed.

Lemma path_contents_length : length (path_contents store path) = (L * BLOCKS_PER_BUCKET)%nat.
Proof.
  unfold path_contents. rewrite (length_concat_uniform _ _ path_buckets_length), length_map.
  unfold path. by rewrite path_of_length.
Qed.

(** A block in bucket [v] of the path may stay in that bucket. *)
Lemma on_path_in_subtree l v p : path !! l = Some v -> is_leaf L p -> v ∈ path_of L p ->
  in_subtree v p = true.
Proof.
  intros Hv Hp [j Hj]%list_elem_of_lookup. pose proof (path_lookup l v Hv) as (Hl & -> & Hlev & _).
  rewrite (path_level L p j _ ltac:(lia) (proj1 Hp) Hj) in Hlev. apply Nat2Z.inj in Hlev as ->.
  apply (subtree_test_path L leaf p l ltac:(lia) Hl leaf_ok Hp) in Hj.
  unfold in_subtree. apply andb_true_iff. rewrite !Z.leb_le. done.
Qed.

Lemma live_leaf b : b ∈ live (tree_blocks store s) -> is_leaf L (position b).
Proof. intros Hb. destruct (ti_live _ _ _ _ _ _ Hinv b Hb) as (Hi & _ & ->). by apply posn_leaf. Qed.

Lemma path_slot_subtree i b : path_contents store path !! i = Some b -> block_is_empty b = false ->
  in_subtree (default 0 (path !! (i / BLOCKS_PER_BUCKET)%nat)) (position b) = true.
Proof.
  intros Hi Hne. pose proof Hi as Hin%list_elem_of_lookup_2.
  apply (concat_lookup_uniform _ BLOCKS_PER_BUCKET) in Hi as (bk & Hbk & Hb).
  - rewrite list_lookup_fmap in Hbk. destruct (path !! _) as [v|] eqn:Ev; [|done].
    injection Hbk as <-. simpl. destruct (path_lookup _ _ Ev) as (_ & _ & _ & Hr).
    destruct (ti_store _ _ _ _ _ _ Hinv) as (Hlen & _ & _).
    destruct (read_bucket_lookup v ltac:(lia) ltac:(lia)) as [Hbk _].
    apply (on_path_in_subtree _ _ _ Ev).
    + apply live_leaf, elem_of_live. split; [done|]. rewrite tree_contents. unfold contents. rewrite !elem_of_app. auto.
    + pose proof (ti_tree _ _ _ _ _ _ Hinv _ _ b Hbk ltac:(by eapply list_elem_of_lookup_2) Hne) as Ht.
      by rewrite Z2Nat.id in Ht by lia.
  - unfold BLOCKS_PER_BUCKET. lia.
  - apply path_buckets_length.
Qed.

(** ** Putting the block back and evicting *)

Context (np : Z) (nd : list Z) (Hnp : is_leaf L np) (Hnd : length nd = BLOCK_DATA_SIZE_QWORDS).
Let r := scan_list tid blank_block contents.
Let nb := {| id := tid; position := np; data := nd |}.
Let s1 := with_blocks s (snd r).

Lemma s1_wf : stash_wf L cap s1.
Proof.
  clear Hnp Hnd. destruct (stash_wf_split _ _ _ (ti_stash _ _ _ _ _ _ Hinv)) as (_ & _ & Hov).
  destruct (ti_stash _ _ _ _ _ _ Hinv) as [H1 H2 H3 H4]. constructor; try done.
  unfold s1, r; simpl. rewrite scan_list_length. unfold contents.
  rewrite length_app, path_contents_length, Hov, H2. lia.
Qed.

Lemma live_new : block_is_empty nb = false.
Proof. unfold block_is_empty. apply Z.eqb_neq. apply tid_nonempty. Qed.

(** The state handed to eviction. *)
Definition ready (s2 : stash) : Prop :=
  stash_wf L cap s2 /\ live (blocks s2) ≡ₚ nb :: live (snd r) /\
  forall i, (i < L * BLOCKS_PER_BUCKET)%nat -> may_hold path (blocks s2) i (i / BLOCKS_PER_BUCKET).

Lemma add_block_ready err s2 : add_block s1 nb = (err, s2) -> is_success err = true -> ready s2.
Proof.
  intros Hadd Hok. destruct (stash_wf_split _ _ _ s1_wf) as (Hsp & Hlp & Hlo).
  destruct (add_block_spec _ _ _ _ _ _ Hsp Hadd) as [(_ & l1 & b & l2 & Hov & Hb & ->)|[-> _]]; [|done].
  set (pb := stash_path_blocks s1) in *. destruct Hsp as (Hbl & _).
  rewrite Hov in Hbl. change (blocks s1) with (snd r) in Hbl.
  assert (Hlen : length (pb ++ l1 ++ nb :: l2) = num_blocks s1).
  { rewrite <- (sw_len _ _ _ s1_wf). change (blocks s1) with (snd r). rewrite Hbl, !length_app. done. }
  split_and!.
  - destruct s1_wf. by constructor.
  - simpl. rewrite Hbl, !live_app, (live_cons nb), (live_cons_empty b) by (done || apply live_new).
    rewrite !app_assoc. symmetry. apply Permutation_middle.
  - intros i Hi. unfold may_hold; simpl. intros Hne.
    assert (Hsl : snd r !! i = Some (block_at (pb ++ l1 ++ nb :: l2) i)).
    { rewrite Hbl, lookup_app_l by lia. destruct (lookup_lt_is_Some_2 pb i ltac:(lia)) as [c Hc].
      rewrite Hc. f_equal. symmetry. apply block_at_lookup. by rewrite lookup_app_l by lia. }
    destruct (scan_list_slots tid blank_block contents i _
      ltac:(simpl; rewrite has_id_empty by (done || apply tid_nonempty); apply contents_count) Hsl) as [Hc|Hc].
    + unfold contents in Hc. rewrite lookup_app_l in Hc by (rewrite path_contents_length; done).
      by apply path_slot_subtree.
    + rewrite Hc in Hne. done.
Qed.

(** A free overflow slot is enough for the target block. *)
Lemma add_block_succeeds err s2 b : b ∈ overflow_blocks s -> block_is_empty b = true ->
  add_block s1 nb = (err, s2) -> is_success err = true.
Proof.
  clear Hnp Hnd. intros Hin Hb Hadd. destruct (stash_wf_split _ _ _ s1_wf) as (Hsp & Hlp & Hlo).
  destruct (add_block_spec _ _ _ _ _ _ Hsp Hadd) as [(-> & _)|(_ & Hlive & _)]; [done|exfalso].
  destruct (stash_wf_split _ _ _ (ti_stash _ _ _ _ _ _ Hinv)) as (Hsp' & Hlp' & Hlo').
  apply list_elem_of_lookup in Hin as [k Hk].
  assert (Hc : contents !! (L * BLOCKS_PER_BUCKET + k)%nat = Some b).
  { unfold contents. rewrite lookup_app_r by (rewrite path_contents_length; lia).
    rewrite path_contents_length. by replace (_ + k - _)%nat with k by lia. }
  apply (scan_list_keep tid blank_block) in Hc.
  2:{ pose proof tid_nonempty. unfold block_is_empty in Hb. breflect. congruence. }
  assert (Hov : overflow_blocks s1 !! k = Some b).
  { unfold overflow_blocks. rewrite lookup_drop. rewrite (sw_start _ _ _ s1_wf), Nat.mul_comm. exact Hc. }
  apply list_elem_of_lookup_2 in Hov. rewrite <- Hlive in Hov.
  apply elem_of_live in Hov as [? _]. congruence.
Qed.

Context (s2 : stash) (Hready : ready s2).
Let s3 := build_path s2 path L.
Let store' := write_path store path (stash_path_blocks s3).
Let R := live (snd r) ++ live rest.

Lemma s3_wf : stash_wf L cap s3.
Proof. destruct Hready as (Hwf & _ & Hm). apply (build_path_wf L cap ltac:(lia) path s2 Hwf Hm). Qed.

Lemma path_blocks_length : length (stash_path_blocks s3) = (length path * BLOCKS_PER_BUCKET)%nat.
Proof.
  destruct (stash_wf_split _ _ _ s3_wf) as (_ & -> & _). unfold path. by rewrite path_of_length.
Qed.

(** The occupied blocks afterwards: the new block and the others. *)
Lemma access_live : live (tree_blocks store' s3) ≡ₚ nb :: R.
Proof.
  destruct Hready as (Hwf & Hlive & Hm). unfold tree_blocks.
  assert (Hconcat : concat (buckets store') ≡ₚ stash_path_blocks s3 ++ rest).
  { rewrite (concat_path_perm nodes (buckets store') nodes_NoDup)
      by (unfold store'; rewrite write_path_length; apply nodes_range).
    unfold store', rest, nodes. rewrite write_path_clear. f_equiv.
    rewrite map_map. fold store'. change (concat _) with (path_contents store' path) at 1.
    unfold store'. by rewrite (write_path_contents store path _ nodes_NoDup nodes_range path_blocks_length). }
  rewrite Hconcat, <- app_assoc, (Permutation_app_comm rest), app_assoc, live_app.
  unfold R. rewrite app_comm_cons. f_equiv. rewrite <- Hlive. apply live_perm.
  unfold stash_path_blocks, overflow_blocks. rewrite take_drop.
  apply (build_path_perm L cap ltac:(lia) path s2 Hwf Hm).
Qed.

(** The occupied blocks before: the target, if there was one, and the others. *)
Lemma R_spec : (tid ∉ map id R) /\
  ((fst r = blank_block /\ live (tree_blocks store s) ≡ₚ R) \/
   (id (fst r) = tid /\ live (tree_blocks store s) ≡ₚ fst r :: R)).
Proof.
  pose proof (scan_live tid contents tid_nonempty contents_count) as Hs.
  change (scan_list tid blank_block contents) with r in Hs. unfold R.
  rewrite tree_contents, live_app. destruct r as [t B]. cbn [fst snd] in *.
  destruct Hs as [Hnot Hcase]. split.
  - rewrite map_app, elem_of_app. intros [?|?]; [done|]. by apply tid_not_in_rest.
  - destruct Hcase as [[-> Hp]|[Ht Hp]]; [left|right]; split; try done; by rewrite Hp.
Qed.

Lemma R_sub b : b ∈ R -> b ∈ live (tree_blocks store s) /\ id b <> tid.
Proof.
  destruct R_spec as [Hnot Hcase]. intros Hb. split.
  - destruct Hcase as [[_ ->]|[_ ->]]; [done|]. by right.
  - intros E. apply Hnot. rewrite <- E. by apply (list_elem_of_fmap_2 id).
Qed.

Lemma R_NoDup : NoDup (map id R).
Proof.
  destruct R_spec as [_ Hcase]. pose proof (ti_ids _ _ _ _ _ _ Hinv) as Hnd0.
  destruct Hcase as [[_ Hp]|[_ Hp]]; rewrite Hp in Hnd0; [done|].
  simpl in Hnd0. by apply NoDup_cons in Hnd0 as [_ ?].
Qed.

Lemma new_ids_NoDup : NoDup (map id (nb :: R)).
Proof. simpl. constructor; [apply R_spec|apply R_NoDup]. Qed.

(** The map before and after. *)
Lemma lookup_before j : lookup_data (live (tree_blocks store s)) j =
  if j =? tid then data (fst r) else lookup_data R j.
Proof.
  pose proof (ti_ids _ _ _ _ _ _ Hinv) as Hnd0. destruct R_spec as [Hnot [[Ht Hp]|[Ht Hp]]];
    rewrite (lookup_data_perm _ _ _ Hnd0 Hp).
  - destruct (Z.eqb_spec j tid) as [->|]; [|done]. by rewrite lookup_data_absent, Ht.
  - by rewrite lookup_data_cons, Ht.
Qed.

Lemma lookup_after j : lookup_data (live (tree_blocks store' s3)) j =
  if j =? tid then nd else lookup_data R j.
Proof.
  rewrite (lookup_data_perm _ (nb :: R)), lookup_data_cons; [done| |apply access_live].
  rewrite access_live. apply new_ids_NoDup.
Qed.

Lemma write_bucket_cases v bk : buckets store' !! v = Some bk ->
  ((v ∉ nodes) /\ buckets store !! v = Some bk) \/
  (exists l w, path !! l = Some w /\ v = Z.to_nat w /\
     bk = take BLOCKS_PER_BUCKET (drop (l * BLOCKS_PER_BUCKET) (stash_path_blocks s3))).
Proof.
  intros Hbk. destruct (decide (v ∈ nodes)) as [Hin|Hn'].
  - right. apply list_elem_of_fmap in Hin as (w & -> & [l Hl]%list_elem_of_lookup).
    exists l, w. split_and!; [done..|].
    unfold store' in Hbk. rewrite (write_path_at _ _ _ l w nodes_NoDup nodes_range Hl) in Hbk. congruence.
  - left. split; [done|]. unfold store' in Hbk. by rewrite write_path_other in Hbk.
Qed.

Lemma access_store_wf : store_wf L store'.
Proof.
  destruct (ti_store _ _ _ _ _ _ Hinv) as (H1 & H2 & H3). unfold store_wf, store'.
  rewrite write_path_length, write_path_size. split_and!; [done| |done].
  apply Forall_lookup. intros v bk Hbk.
  destruct (write_bucket_cases v bk Hbk) as [[_ Hb]|(l & w & Hl & _ & ->)].
  - by apply (proj1 (Forall_lookup _ _) H2 _ _ Hb).
  - pose proof (lookup_lt_Some _ _ _ Hl). pose proof path_blocks_length.
    rewrite length_take, length_drop. unfold BLOCKS_PER_BUCKET in *. lia.
Qed.

Lemma new_position b : b ∈ live (tree_blocks store' s3) -> is_leaf L (position b).
Proof.
  rewrite access_live. intros [->|Hb]%elem_of_cons; [done|].
  apply live_leaf. by apply R_sub.
Qed.

(** Every block of the new tree sits on the path of its position. *)
Lemma access_tree v bk b : buckets store' !! v = Some bk -> b ∈ bk -> block_is_empty b = false ->
  Z.of_nat v ∈ path_of L (position b).
Proof.
  intros Hbk Hb Hne.
  assert (Hleaf : is_leaf L (position b)).
  { apply new_position, elem_of_live. split; [done|]. apply elem_of_app. left.
    apply list_elem_of_In, in_concat. exists bk. split; [|by apply list_elem_of_In].
    apply list_elem_of_In. by eapply list_elem_of_lookup_2. }
  destruct (write_bucket_cases v bk Hbk) as [[_ Hold]|(l & w & Hl & -> & ->)].
  - by apply (ti_tree _ _ _ _ _ _ Hinv v bk b).
  - destruct (path_lookup l w Hl) as (HlL & Hw & _ & Hr).
    apply list_elem_of_lookup in Hb as [i Hi]. apply lookup_take_Some in Hi as [Hi Hi3].
    rewrite lookup_drop in Hi. unfold stash_path_blocks in Hi. apply lookup_take_Some in Hi as [Hi Hlt].
    rewrite (sw_start _ _ _ s3_wf) in Hlt.
    destruct Hready as (Hwf & _ & Hm).
    pose proof (build_path_levels L cap ltac:(lia) path s2 Hwf Hm (l * BLOCKS_PER_BUCKET + i)%nat ltac:(lia)) as Hmay.
    fold s3 in Hmay. unfold may_hold in Hmay. rewrite (block_at_lookup _ _ _ Hi) in Hmay.
    assert ((l * BLOCKS_PER_BUCKET + i) / BLOCKS_PER_BUCKET = l)%nat as Hdiv.
    { symmetry. apply (Nat.div_unique _ _ _ i); unfold BLOCKS_PER_BUCKET in *; lia. }
    rewrite Hdiv, Hl in Hmay. specialize (Hmay Hne). simpl in Hmay. unfold in_subtree in Hmay. breflect.
    rewrite Z2Nat.id by lia. apply list_elem_of_lookup. exists l. rewrite Hw in *.
    apply (subtree_test_path L leaf (position b) l ltac:(lia) HlL leaf_ok Hleaf). lia.
Qed.

Lemma access_tree_inv posn' : 2 * posn' tid = np ->
  (forall i, 0 <= i < n -> i <> tid -> posn' i = posn i) -> tree_inv L cap n posn' store' s3.
Proof.
  intros Htp Hop. constructor.
  - apply access_store_wf.
  - apply s3_wf.
  - apply access_tree.
  - rewrite access_live. apply new_ids_NoDup.
  - intros b. rewrite access_live. intros [->|Hb]%elem_of_cons; [by simpl|].
    destruct (R_sub b Hb) as [Hl Hne]. destruct (ti_live _ _ _ _ _ _ Hinv b Hl) as (? & ? & ?).
    split_and!; try done; [lia..|]. by rewrite Hop.
Qed.
End Path.

(** ** The whole access *)

Definition oram_data {PM} (o : oram PM) (i : Z) : list Z :=
  lookup_data (live (tree_blocks (o_bucket_store o) (o_stash o))) i.

(** An ORAM of [L] levels with [cap] overflow blocks and block ids below [n]. *)
Record oram_inv {PM} `{PositionMapSpec PM} (L cap : nat) (n : Z) (o : oram PM) : Prop := {
  oi_levels : tp_length (o_path o) = L /\ (1 <= L <= 50)%nat;
  oi_ids : n <= UINT64_MAX;
  oi_tree : tree_inv L cap n (pm_get (o_position_map o)) (o_bucket_store o) (o_stash o);
  oi_pm : pm_inv n (2 ^ (Z.of_nat L - 1)) (o_position_map o);
}.

Section AccessSpec.
Context {PM : Type} `{PositionMapSpec PM} {A : Type} (acc : accessor A) (Hacc : accessor_ok acc).

Lemma double_leaf L v : (1 <= L <= 50)%nat -> 0 <= v < 2 ^ (Z.of_nat L - 1) ->
  v [*] 2 = 2 * v /\ is_leaf L (2 * v).
Proof.
  intros HL Hv. pose proof (Z.pow_le_mono_r 2 (Z.of_nat L - 1) 50 ltac:(lia) ltac:(lia)).
  split; [rewrite mul64_small; lia|]. split; [|dlia].
  replace (Z.of_nat L) with (1 + (Z.of_nat L - 1)) by lia. rewrite Z.pow_add_r by lia. lia.
Qed.

Lemma lookup_data_length L cap n posn store s i : tree_inv L cap n posn store s ->
  length (lookup_data (live (tree_blocks store s)) i) = BLOCK_DATA_SIZE_QWORDS.
Proof.
  intros Hinv. unfold lookup_data. destruct (find _ _) as [b|] eqn:E.
  - apply find_some in E as [Hin _]. apply list_elem_of_In in Hin.
    by apply (ti_live _ _ _ _ _ _ Hinv b).
  - apply length_replicate.
Qed.

(** Steps 4 to 7 on an ORAM whose position map already holds the new position. *)
Lemma access_path_spec L cap n posn posn' (o : oram PM) tid np err out o' :
  tp_length (o_path o) = L -> (1 <= L <= 50)%nat -> n <= UINT64_MAX ->
  tree_inv L cap n posn (o_bucket_store o) (o_stash o) ->
  (forall i, 0 <= i < n -> 0 <= posn i < 2 ^ (Z.of_nat L - 1)) ->
  (forall i, 0 <= i < n -> posn' i = if i =? tid then np else posn i) ->
  0 <= tid < n -> 0 <= np < 2 ^ (Z.of_nat L - 1) ->
  access_path acc o (posn tid [*] 2) tid (np [*] 2) = (err, out, o') -> is_success err = true ->
  out = (acc (oram_data o tid)).1 /\
  tree_inv L cap n posn' (o_bucket_store o') (o_stash o') /\ tp_length (o_path o') = L /\
  o_position_map o' = o_position_map o /\
  forall j, oram_data o' j = if j =? tid then (acc (oram_data o tid)).2 else oram_data o j.
Proof.
  intros HtL HL Hn Hinv Hposn Hposn' Htid Hnp Hrun Hok.
  destruct (double_leaf L _ HL (Hposn tid Htid)) as [-> Hleaf] in Hrun.
  destruct (double_leaf L _ HL Hnp) as [-> Hleaf'] in Hrun.
  unfold access_path in Hrun. rewrite tree_path_update_values, HtL in Hrun by (rewrite HtL; (done || lia)).
  destruct (stash_wf_split _ _ _ (ti_stash _ _ _ _ _ _ Hinv)) as (Hsp & Hlp & Hlo).
  rewrite (read_path_spec _ _ _ _ _ _ _ Hsp) in Hrun.
  2:{ unfold EMPTY_BLOCK_ID. lia. }
  2:{ apply (path_buckets L cap n posn _ _ HL Hinv Hposn tid Htid). }
  2:{ by rewrite path_of_length. }
  cbn [data id position] in Hrun.
  set (r := scan_list tid blank_block _) in Hrun.
  assert (Hdata : data (fst r) = oram_data o tid).
  { unfold oram_data. rewrite (lookup_before L cap n posn _ _ HL Hn Hinv Hposn tid Htid).
    by rewrite Z.eqb_refl. }
  rewrite Hdata in Hrun. destruct (acc (oram_data o tid)) as [out' nd] eqn:Eacc.
  assert (Hnd : length nd = BLOCK_DATA_SIZE_QWORDS).
  { pose proof (Hacc (oram_data o tid) (lookup_data_length _ _ _ _ _ _ _ Hinv)) as Hl. by rewrite Eacc in Hl. }
  destruct (add_block _ _) as [abort s2] eqn:Eadd. destruct (is_success abort) eqn:Eab.
  2:{ injection Hrun as ->. congruence. }
  injection Hrun as <- <- <-. cbn [o_bucket_store o_stash o_path o_position_map tree_path_update tp_length].
  rewrite HtL.
  pose proof (add_block_ready L cap n posn _ _ HL Hn Hinv Hposn tid Htid (2 * np) nd Hnd abort s2 Eadd Hok) as Hready.
  split_and!; [done| |done|done|].
  - apply (access_tree_inv L cap n posn _ _ HL Hn Hinv Hposn tid Htid (2 * np) nd Hleaf' Hnd s2 Hready).
    + by rewrite Hposn', Z.eqb_refl.
    + intros i Hi Hne. rewrite Hposn' by done. by rewrite (proj2 (Z.eqb_neq _ _) Hne).
  - intros j. unfold oram_data at 1. cbn [o_bucket_store o_stash tree_path_update tp_length].
    rewrite ?HtL.
    rewrite (lookup_after L cap n posn _ _ HL Hn Hinv Hposn tid Htid (2 * np) nd Hnd s2 Hready).
    unfold oram_data. rewrite (lookup_before L cap n posn _ _ HL Hn Hinv Hposn tid Htid j).
    by destruct (j =? tid).
Qed.

(** An access that reports success is an access to a map. *)
Lemma access_spec L cap n o e tid err out o' e' :
  oram_inv L cap n o -> 0 <= tid < n ->
  access acc o e tid = (err, out, o', e') -> is_success err = true ->
  oram_inv L cap n o' /\ out = Some (acc (oram_data o tid)).1 /\
  forall j, oram_data o' j = if j =? tid then (acc (oram_data o tid)).2 else oram_data o j.
Proof.
  intros [[HtL HL] Hn Hinv Hpm] Htid Hrun Hok. unfold access in Hrun. rewrite HtL in Hrun.
  destruct (random_mod_by_pow_of_2 e _) as [np e1] eqn:Ernd.
  apply random_range in Ernd; [|lia].
  destruct (read_then_set (o_position_map o) e1 tid np) as [[[abort x] pm] e2] eqn:Erts.
  destruct (is_success abort) eqn:Eab.
  2:{ injection Hrun as ->. congruence. }
  destruct (read_then_set_spec _ _ _ _ _ _ _ _ _ _ Hpm Htid Ernd Erts Eab) as (-> & Hpm' & Hget).
  destruct (access_path acc _ _ _ _) as [[abort' out'] o''] eqn:Eap.
  injection Hrun as <- <- <- <-.
  apply (access_path_spec L cap n (pm_get (o_position_map o)) (pm_get pm)) in Eap; try done.
  - destruct Eap as (-> & Hti & HtL' & Hpme & Hd). split_and!; [|done|done].
    constructor; [done|done| |]; rewrite Hpme; done.
  - intros i Hi. by apply (pm_get_range n _ _ i Hpm).
Qed.

(** With a free overflow slot the steps on the path cannot fail. *)
Lemma access_path_succeeds L cap n posn (o : oram PM) tid np b :
  tp_length (o_path o) = L -> (1 <= L <= 50)%nat -> n <= UINT64_MAX ->
  tree_inv L cap n posn (o_bucket_store o) (o_stash o) ->
  (forall i, 0 <= i < n -> 0 <= posn i < 2 ^ (Z.of_nat L - 1)) ->
  0 <= tid < n -> 0 <= np < 2 ^ (Z.of_nat L - 1) ->
  b ∈ overflow_blocks (o_stash o) -> block_is_empty b = true ->
  is_success (access_path acc o (posn tid [*] 2) tid (np [*] 2)).1.1 = true.
Proof.
  intros HtL HL Hn Hinv Hposn Htid Hnp Hin Hb.
  destruct (double_leaf L _ HL (Hposn tid Htid)) as [-> Hleaf].
  destruct (double_leaf L _ HL Hnp) as [-> Hleaf'].
  unfold access_path. rewrite tree_path_update_values, HtL by (rewrite HtL; (done || lia)).
  destruct (stash_wf_split _ _ _ (ti_stash _ _ _ _ _ _ Hinv)) as (Hsp & Hlp & Hlo).
  rewrite (read_path_spec _ _ _ _ _ _ _ Hsp).
  2:{ unfold EMPTY_BLOCK_ID. lia. }
  2:{ apply (path_buckets L cap n posn _ _ HL Hinv Hposn tid Htid). }
  2:{ by rewrite path_of_length. }
  cbn [data id position].
  destruct (acc _) as [out nd]. destruct (add_block _ _) as [abort s2] eqn:Eadd.
  apply (add_block_succeeds L cap n posn _ _ HL Hn Hinv Hposn tid Htid (2 * np) nd abort s2 b Hin Hb) in Eadd.
  by rewrite Eadd.
Qed.

(** The only other failure is the position map's. *)
Lemma access_succeeds L cap n o e tid b :
  oram_inv L cap n o -> 0 <= tid < n ->
  b ∈ overflow_blocks (o_stash o) -> block_is_empty b = true ->
  (forall np e1, is_success (read_then_set (o_position_map o) e1 tid np).1.1.1 = true) ->
  is_success (access acc o e tid).1.1.1 = true.
Proof.
  intros [[HtL HL] Hn Hinv Hpm] Htid Hin Hb Hok. unfold access. rewrite HtL.
  destruct (random_mod_by_pow_of_2 e _) as [np e1] eqn:Ernd.
  apply random_range in Ernd; [|lia]. specialize (Hok np e1).
  destruct (read_then_set (o_position_map o) e1 tid np) as [[[abort x] pm] e2] eqn:Erts.
  cbn [fst] in Hok. rewrite Hok.
  destruct (read_then_set_spec _ _ _ _ _ _ _ _ _ _ Hpm Htid Ernd Erts Hok) as (-> & Hpm' & Hget).
  pose proof (access_path_succeeds L cap n (pm_get (o_position_map o)) (with_position_map o pm) tid np b
    HtL HL Hn Hinv) as Hs.
  destruct (access_path acc _ _ _ _) as [[abort' out'] o''] eqn:Eap. apply Hs; try done.
  intros i Hi. by apply (pm_get_range n _ _ i Hpm).
Qed.
End AccessSpec.

(** ** Creation, clearing, statistics *)

Lemma concat_blank_live k m : live (concat (replicate k (replicate m blank_block))) = [].
Proof.
  induction k as [|k IH]; [done|]. simpl. by rewrite live_app, live_replicate_blank, IH.
Qed.

(** A tree and a stash full of blanks hold no block. *)
Lemma blank_tree_inv L cap n posn store s :
  store_wf L store -> stash_wf L cap s ->
  buckets store = replicate (Z.to_nat (2 ^ Z.of_nat L - 1)) blank_bucket ->
  blocks s = replicate (num_blocks s) blank_block ->
  tree_inv L cap n posn store s /\ live (tree_blocks store s) = [].
Proof.
  intros Hst Hsw Hb Hbl.
  assert (Hlive : live (tree_blocks store s) = []).
  { unfold tree_blocks, overflow_blocks. rewrite Hb, Hbl, live_app, drop_replicate.
    unfold blank_bucket. by rewrite concat_blank_live, live_replicate_blank. }
  split; [|done]. constructor; [done|done| | |].
  - intros v bk b Hv Hin Hne. rewrite Hb in Hv. apply lookup_replicate in Hv as [-> _].
    apply elem_of_replicate in Hin as [-> _]. done.
  - rewrite Hlive. constructor.
  - intros b. rewrite Hlive. by intros ?%elem_of_nil.
Qed.

Section Lifecycle.
Context {PM : Type} `{PositionMapSpec PM}.

(** [oram_clear] forgets every block and keeps the invariant. *)
Lemma oram_clear_spec L cap n (o : oram PM) : oram_inv L cap n o ->
  oram_inv L cap n (oram_clear o) /\ forall i, oram_data (oram_clear o) i = data blank_block.
Proof.
  intros [HL Hn Hinv Hpm]. destruct (store_wf_clear L _ (ti_store _ _ _ _ _ _ Hinv)) as [Hst Hb].
  destruct (blank_tree_inv L cap n (pm_get (o_position_map o)) _ (stash_clear (o_stash o)) Hst
    (stash_clear_wf _ _ _ (ti_stash _ _ _ _ _ _ Hinv)) Hb eq_refl) as [Hti Hlive].
  split; [by constructor|]. intros i. unfold oram_data; simpl. by rewrite Hlive.
Qed.

Lemma collect_statistics_inv L cap n (o : oram PM) : oram_inv L cap n o ->
  oram_inv L cap n (oram_collect_statistics o).
Proof. by intros []. Qed.

Lemma collect_statistics_data (o : oram PM) i : oram_data (oram_collect_statistics o) i = oram_data o i.
Proof. done. Qed.

Lemma oram_data_length L cap n (o : oram PM) i : oram_inv L cap n o ->
  length (oram_data o i) = BLOCK_DATA_SIZE_QWORDS.
Proof. intros Ho. eapply lookup_data_length, Ho. Qed.
End Lifecycle.
