(* ===== verification/OramInterface.v ===== *)
(** * The interface of an ORAM

    What the clients of an ORAM (the recursive position map and the hash
    table) rely on: a map from block ids to blocks of 168 words, read and
    written through accessors.  [oram] implements it for every position map. *)

From S2P Require Import Prelude Errors Bucket PositionMap PathOram PathOramSpec.
Local Open Scope Z_scope.

Class ObliviousRam (O : Type) := {
  ram_access : forall {A}, accessor A -> O -> entropy -> Z -> error_t * option A * O * entropy;
  (** The access of [oram_position_map.jinc], which collects no statistics. *)
  ram_inner_access : forall {A}, accessor A -> O -> entropy -> Z -> error_t * option A * O * entropy;
  ram_clear : O -> O;
}.

Class ObliviousRamSpec (O : Type) `{ObliviousRam O} := {
  (** [ram_inv n o]: a well-formed ORAM for block ids below [n]. *)
  ram_inv : Z -> O -> Prop;
  ram_get : O -> Z -> list Z;
  ram_get_length n o i : ram_inv n o -> length (ram_get o i) = BLOCK_DATA_SIZE_QWORDS;
  ram_access_spec {A} (acc : accessor A) n o e i err out o' e' :
    accessor_ok acc -> ram_inv n o -> 0 <= i < n ->
    ram_access acc o e i = (err, out, o', e') -> is_success err = true ->
    ram_inv n o' /\ out = Some (acc (ram_get o i)).1 /\
    forall j, ram_get o' j = if j =? i then (acc (ram_get o i)).2 else ram_get o j;
  ram_inner_access_spec {A} (acc : accessor A) n o e i err out o' e' :
    accessor_ok acc -> ram_inv n o -> 0 <= i < n ->
    ram_inner_access acc o e i = (err, out, o', e') -> is_success err = true ->
    ram_inv n o' /\ out = Some (acc (ram_get o i)).1 /\
    forall j, ram_get o' j = if j =? i then (acc (ram_get o i)).2 else ram_get o j;
  ram_clear_spec n o : ram_inv n o ->
    ram_inv n (ram_clear o) /\ forall i, ram_get (ram_clear o) i = replicate BLOCK_DATA_SIZE_QWORDS UINT64_MAX;
}.

#[export] Instance oram_ram {PM} `{PositionMap PM} : ObliviousRam (oram PM) := {
  ram_access A acc o e i := oram_function_access acc o e i;
  ram_inner_access A acc o e i := access acc o e i;
  ram_clear := oram_clear;
}.

#[export] Program Instance oram_ram_spec {PM} `{PositionMapSpec PM} : ObliviousRamSpec (oram PM) := {
  ram_inv n o := exists L cap, oram_inv L cap n o;
  ram_get := oram_data;
}.
Next Obligation.
  intros PM ?? n o i (L & cap & Ho). by eapply oram_data_length.
Qed.
Next Obligation.
  intros PM ?? A acc n o e i err out o' e' Hacc (L & cap & Ho) Hi Hrun Hok.
  simpl in Hrun. unfold oram_function_access, collect in Hrun.
  destruct (access acc o e i) as [[[err1 out1] o1] e1] eqn:E. injection Hrun as <- <- <- <-.
  destruct (access_spec acc Hacc L cap n o e i _ _ _ _ Ho Hi E Hok) as (Ho1 & Hout & Hd).
  split_and!; [|done|done]. exists L, cap. by apply collect_statistics_inv.
Qed.
Next Obligation.
  intros PM ?? A acc n o e i err out o' e' Hacc (L & cap & Ho) Hi Hrun Hok.
  destruct (access_spec acc Hacc L cap n o e i _ _ _ _ Ho Hi Hrun Hok) as (Ho1 & Hout & Hd).
  split_and!; [by exists L, cap|done|done].
Qed.
Next Obligation.
  intros PM ?? n o (L & cap & Ho). destruct (oram_clear_spec L cap n o Ho) as [Ho' Hd].
  split; [by exists L, cap|exact Hd].
Qed.

(** Accessors that keep the block's length. *)
Lemma to_buffer_ok : accessor_ok block_data_to_buffer.
Proof. by intros d. Qed.

Lemma from_buffer_ok in_data : (BLOCK_DATA_SIZE_QWORDS <= length in_data)%nat ->
  accessor_ok (block_data_from_buffer in_data).
Proof. intros H d _. simpl. rewrite length_take. lia. Qed.
