(* ===== verification/OramPositionMap.v ===== *)
(** * The recursive position map and the creation of ORAMs
    ([c/path_oram/position_map.c], [oram_position_map.jinc], [path_oram.c])

    The positions of the main ORAM's blocks live in the blocks of a smaller
    ORAM, 336 32-bit entries each; the smaller ORAM uses the linear scan.  The
    recursive map satisfies the [PositionMapSpec] interface whenever its inner
    ORAM satisfies [ObliviousRamSpec], so the main ORAM is correct as well.
    The creation functions build both and fill in random positions. *)

From S2P Require Import Prelude Errors Util TreePath Bucket Stash PositionMap Statistics PathOram PathOramSpec OramInterface.
Local Open Scope Z_scope.

(** ** The structure *)

(** [struct position_map]; the type parameter is the tag of the union. *)
Record position_map (I : Type) := PMap { num_positions : Z; impl : I }.
Arguments PMap {I}.
Arguments num_positions {I}.
Arguments impl {I}.

Record oram_position_map (O : Type) := OramPMap {
  opm_size : Z;
  opm_oram : O;
  entries_per_block : Z;
  entries_per_block_ct : ct_div_params;
}.
Arguments OramPMap {O}.
Arguments opm_size {O}.
Arguments opm_oram {O}.
Arguments entries_per_block {O}.
Arguments entries_per_block_ct {O}.

Definition oram_position_map_capacity {O} (m : oram_position_map O) : Z := opm_size m.

Definition ENTRIES : Z := Z.of_nat BLOCK_DATA_SIZE_QWORDS * 2.

(** ** Access *)

Section Ops.
Context {O : Type} `{ObliviousRam O}.

Definition block_id_for_index_ct (m : oram_position_map O) (index : Z) : Z :=
  ct_div index (entries_per_block m) (entries_per_block_ct m).

(** [oram_position_map_access], with the accessor for the entry at an index;
    [_oram_inner_access] is the access of the inner ORAM. *)
Definition oram_position_map_access (m : oram_position_map O) (e : entropy) (block_id : Z)
    (acc : Z -> accessor Z) : error_t * Z * oram_position_map O * entropy :=
  let idx_in_block := ct_mod block_id ENTRIES (entries_per_block_ct m) in
  let bid_for_index := block_id_for_index_ct m block_id in
  let '(abort, prev, o, e) := ram_inner_access (acc idx_in_block) (opm_oram m) e bid_for_index in
  (abort, default 0 prev,
   {| opm_size := opm_size m; opm_oram := o; entries_per_block := entries_per_block m;
      entries_per_block_ct := entries_per_block_ct m |}, e).

#[export] Instance oram_position_map_ops : PositionMap (oram_position_map O) := {
  read_then_set m e block_id position :=
    oram_position_map_access m e block_id (fun i => write_partial_out i position);
}.

(** [PositionMap::read] *)
Definition position_map_read (m : oram_position_map O) (e : entropy) (block_id : Z) :=
  oram_position_map_access m e block_id read_partial.
End Ops.

#[export] Instance position_map_ops {I} `{PositionMap I} : PositionMap (position_map I) := {
  read_then_set m e i pos :=
    let '(err, prev, x, e) := read_then_set (impl m) e i pos in
    (err, prev, {| num_positions := num_positions m; impl := x |}, e);
}.

(** ** Creation *)

Definition inner_oram : Type := oram (position_map scan_position_map).
Definition main_oram : Type := oram (position_map (oram_position_map inner_oram)).

(** The pieces common to the [oram_create_*] functions. *)
Definition oram_new {PM} (num_levels stash_overflow_size : nat) (num_blocks recursion_depth : Z) (pm : PM) :
    oram PM :=
  {| o_bucket_store := bucket_store_create (Z.of_nat num_levels);
     o_stash := stash_create num_levels stash_overflow_size;
     o_path := tree_path_create num_levels;
     o_position_map := pm;
     o_capacity_blocks := num_blocks;
     o_statistics :=
       {| recursion_depth := recursion_depth; access_count := 0; stash_overflow_count := 0;
          max_stash_overflow_count := 0; sum_stash_overflow_count := 0; stash_overflow_ema10k := dzero;
          posmap_stash_overflow_count := 0; posmap_max_stash_overflow_count := 0;
          posmap_sum_stash_overflow_count := 0; posmap_stash_overflow_ema10k := dzero |} |}.

Definition scan_position_map_new (num_block_ids_in_domain : nat) (num_positions_in_range : Z) (e : entropy) :
    position_map scan_position_map * entropy :=
  let '(m, e) := scan_position_map_create num_block_ids_in_domain num_positions_in_range e in
  ({| num_positions := num_positions_in_range; impl := m |}, e).

Definition scan_position_map_create_120G_16shards (e : entropy) := scan_position_map_new 2536 4096 e.
Definition scan_position_map_create_depth16 (e : entropy) := scan_position_map_new 159 256 e.

(** [position_map_recursion_depth] of a scan map. *)
Definition scan_recursion_depth : Z := 1.

Definition oram_create_120G_16shards_posmap (e : entropy) : inner_oram * entropy :=
  let '(pm, e) := scan_position_map_create_120G_16shards e in
  (oram_new 13 100 (1 [<<] 13) scan_recursion_depth pm, e).

Definition oram_create_depth16_posmap (e : entropy) : inner_oram * entropy :=
  let '(pm, e) := scan_position_map_create_depth16 e in
  (oram_new 9 100 159 scan_recursion_depth pm, e).

(** A block of random positions: 336 draws packed as 168 words. *)
Fixpoint random_words (n : nat) (npos : Z) (e : entropy) : list Z * entropy :=
  match n with
  | O => ([], e)
  | S n =>
      let '(lo, e) := draw32 e in
      let '(hi, e) := draw32 e in
      let '(ws, e) := random_words n npos e in
      ((lo mod npos) + (hi mod npos) * 2 ^ 32 :: ws, e)
  end.

(** The initialisation loop over the blocks [i ..], [n] of them; the result
    code of each put is returned here and ignored by the C code. *)
Fixpoint fill_blocks (n : nat) (i : Z) (npos : Z) (o : inner_oram) (e : entropy) :
    list error_t * inner_oram * entropy :=
  match n with
  | O => ([], o, e)
  | S n =>
      let '(buf, e) := random_words BLOCK_DATA_SIZE_QWORDS npos e in
      let '(err, _, o, e) := oram_position_map_put o e i buf in
      let '(errs, o, e) := fill_blocks n (i + 1) npos o e in
      (err :: errs, o, e)
  end.

Definition blocks_needed (num_block_ids : Z) : Z :=
  num_block_ids / ENTRIES + (if num_block_ids mod ENTRIES =? 0 then 0 else 1).

Definition oram_position_map_new (num_block_ids_in_domain num_positions_in_range : Z)
    (o : inner_oram) (e : entropy) :
    list error_t * position_map (oram_position_map inner_oram) * entropy :=
  let '(errs, o, e) :=
    fill_blocks (Z.to_nat (blocks_needed num_block_ids_in_domain)) 0 num_positions_in_range o e in
  (errs,
   {| num_positions := num_positions_in_range;
      impl := {| opm_size := num_block_ids_in_domain; opm_oram := o; entries_per_block := ENTRIES;
                 entries_per_block_ct := prep_ct_div ENTRIES |} |}, e).

Definition oram_position_map_create_120G_16shards (e : entropy) :=
  let '(o, e) := oram_create_120G_16shards_posmap e in oram_position_map_new 851968 524288 o e.
Definition oram_position_map_create_depth16 (e : entropy) :=
  let '(o, e) := oram_create_depth16_posmap e in oram_position_map_new 53248 32768 o e.

(** ** Statistics and capacity *)

(** [oram_report_statistics]: copy the counters of the position map's ORAM,
    zeros if it has none. *)
Definition oram_report {PM} (pos_map_stats : option oram_statistics) (o : oram PM) : oram PM :=
  let s := o_statistics o in
  let p := default zero_oram_statistics pos_map_stats in
  with_statistics o
    {| recursion_depth := recursion_depth s; access_count := access_count s;
       stash_overflow_count := stash_overflow_count s;
       max_stash_overflow_count := max_stash_overflow_count s;
       sum_stash_overflow_count := sum_stash_overflow_count s;
       stash_overflow_ema10k := stash_overflow_ema10k s;
       posmap_stash_overflow_count := stash_overflow_count p;
       posmap_max_stash_overflow_count := max_stash_overflow_count p;
       posmap_sum_stash_overflow_count := sum_stash_overflow_count p;
       posmap_stash_overflow_ema10k := stash_overflow_ema10k p |}.

Definition inner_report_statistics (o : inner_oram) : inner_oram := oram_report None o.

Definition position_map_with_oram (m : position_map (oram_position_map inner_oram)) (o : inner_oram) :
    position_map (oram_position_map inner_oram) :=
  {| num_positions := num_positions m;
     impl := {| opm_size := opm_size (impl m); opm_oram := o;
                entries_per_block := entries_per_block (impl m);
                entries_per_block_ct := entries_per_block_ct (impl m) |} |}.

Definition main_report_statistics (o : main_oram) : main_oram :=
  let inner := inner_report_statistics (opm_oram (impl (o_position_map o))) in
  oram_report (Some (o_statistics inner))
    (with_position_map o (position_map_with_oram (o_position_map o) inner)).

(** [position_map_recursion_depth] of a recursive map. *)
Definition oram_recursion_depth (m : position_map (oram_position_map inner_oram)) : Z :=
  1 [+] recursion_depth (o_statistics (inner_report_statistics (opm_oram (impl m)))).

(** [1.625 * 2^(num_levels-1)] blocks. *)
Definition overloaded_capacity (num_levels : Z) : Z := (1 [<<] (num_levels - 1)) * 13 / 8.

Definition oram_create (num_levels : nat) (r : list error_t * position_map (oram_position_map inner_oram) * entropy) :
    list error_t * main_oram * entropy :=
  let '(errs, pm, e) := r in
  (errs, oram_new num_levels 100 (overloaded_capacity (Z.of_nat num_levels)) (oram_recursion_depth pm)
     (position_map_with_oram pm (inner_report_statistics (opm_oram (impl pm)))), e).

Definition oram_create_120G_16shards (e : entropy) := oram_create 20 (oram_position_map_create_120G_16shards e).
Definition oram_create_depth16 (e : entropy) := oram_create 16 (oram_position_map_create_depth16 e).

(** ** Entries of a block *)

Lemma u32_get_set_eq d i v : (i / 2 < length d)%nat -> 0 <= v < 2 ^ 32 -> u32_get (u32_set d i v) i = v.
Proof.
  intros Hi Hv. unfold u32_get, u32_set. rewrite list_lookup_insert_eq by done. change (default 0 (Some ?a)) with a.
  pose proof (Nat.mod_upper_bound i 2 ltac:(lia)).
  destruct (Nat.eqb_spec (i mod 2) 0) as [->|].
  - change (2 ^ (32 * Z.of_nat 0)) with 1. rewrite Z.div_1_r.
    rewrite (Z.add_comm _ v), Z.mod_add by lia. by apply Z.mod_small.
  - assert (i mod 2 = 1)%nat as -> by lia. change (32 * Z.of_nat 1) with 32.
    rewrite Z.div_add_l by lia. rewrite (Z.div_small (_ mod _)) by (apply Z.mod_pos_bound; lia).
    rewrite Z.add_0_r. by apply Z.mod_small.
Qed.

Lemma u32_get_set_ne d i j v : (i / 2 < length d)%nat -> 0 <= v < 2 ^ 32 -> i <> j ->
  u32_get (u32_set d i v) j = u32_get d j.
Proof.
  intros Hi Hv Hne. unfold u32_get, u32_set.
  destruct (decide (i / 2 = j / 2)%nat) as [E|]; [|by rewrite list_lookup_insert_ne].
  rewrite <- E, list_lookup_insert_eq by done. change (default 0 (Some ?a)) with a. set (w := default 0 (d !! (i / 2)%nat)).
  pose proof (Nat.mod_upper_bound i 2 ltac:(lia)). pose proof (Nat.mod_upper_bound j 2 ltac:(lia)).
  pose proof (Nat.div_mod_eq i 2). pose proof (Nat.div_mod_eq j 2).
  destruct (Nat.eqb_spec (i mod 2) 0).
  - assert (j mod 2 = 1)%nat as -> by lia. change (32 * Z.of_nat 1) with 32.
    rewrite Z.div_add_l by lia. by rewrite (Z.div_small v), Z.add_0_r by done.
  - assert (j mod 2 = 0)%nat as -> by lia. change (2 ^ (32 * Z.of_nat 0)) with 1. rewrite !Z.div_1_r.
    rewrite (Z.add_comm (v * _)), Z.mod_add, Z.mod_mod by lia. done.
Qed.

Lemma u32_set_length d i v : length (u32_set d i v) = length d.
Proof. apply length_insert. Qed.

Lemma write_partial_other idx v out d start n :
  (forall i, (start <= i < start + n)%nat -> Z.of_nat i <> idx) ->
  fold_left (write_partial_step idx v) (seq start n) (out, d) = (out, d).
Proof.
  revert start. induction n as [|n IH]; intros start Hi; [done|]. cbn [seq fold_left].
  unfold write_partial_step at 2. rewrite (proj2 (Z.eqb_neq idx (Z.of_nat start))) by (specialize (Hi start); lia).
  apply IH. intros i Hr. apply Hi. lia.
Qed.

(** The write accessor returns the old entry and replaces it. *)
Lemma write_partial_out_spec i v d : (i < BLOCK_DATA_SIZE_QWORDS * 2)%nat ->
  write_partial_out (Z.of_nat i) v d = (u32_get d i, u32_set d i (v mod 2 ^ 32)).
Proof.
  intros Hi. unfold write_partial_out.
  replace (BLOCK_DATA_SIZE_QWORDS * 2)%nat with (i + (1 + (BLOCK_DATA_SIZE_QWORDS * 2 - i - 1)))%nat by lia.
  rewrite !seq_app, !fold_left_app, write_partial_other by lia. cbn [seq fold_left].
  rewrite Nat.add_0_l. unfold write_partial_step at 2. rewrite Z.eqb_refl.
  apply write_partial_other. lia.
Qed.

Lemma read_partial_other idx d out start n :
  (forall i, (start <= i < start + n)%nat -> Z.of_nat i <> idx) ->
  fold_left (read_partial_step idx d) (seq start n) out = out.
Proof.
  revert start. induction n as [|n IH]; intros start Hi; [done|]. cbn [seq fold_left].
  unfold read_partial_step at 2. rewrite (proj2 (Z.eqb_neq idx (Z.of_nat start))) by (specialize (Hi start); lia).
  apply IH. intros i Hr. apply Hi. lia.
Qed.

Lemma read_partial_spec i d : (i < BLOCK_DATA_SIZE_QWORDS * 2)%nat ->
  read_partial (Z.of_nat i) d = (u32_get d i, d).
Proof.
  intros Hi. unfold read_partial. f_equal.
  replace (BLOCK_DATA_SIZE_QWORDS * 2)%nat with (i + (1 + (BLOCK_DATA_SIZE_QWORDS * 2 - i - 1)))%nat by lia.
  rewrite !seq_app, !fold_left_app, (read_partial_other _ _ 0 0 i) by lia. cbn [seq fold_left].
  rewrite Nat.add_0_l. unfold read_partial_step at 2. rewrite Z.eqb_refl.
  apply read_partial_other. lia.
Qed.

Lemma write_partial_ok idx v : accessor_ok (write_partial_out idx v).
Proof.
  intros d Hd. unfold write_partial_out.
  enough (Hgen : forall l st, length (fold_left (write_partial_step idx (v mod 2 ^ 32)) l st).2 = length st.2)
    by (rewrite Hgen; done).
  induction l as [|i l IH]; intros [out d']; [done|]. simpl. rewrite IH. simpl.
  destruct (idx =? Z.of_nat i); [apply u32_set_length|done].
Qed.

Lemma read_partial_ok idx : accessor_ok (read_partial idx).
Proof. by intros d Hd. Qed.

(** ** The recursive map implements the position-map interface *)

Section OpmSpec.
Context {O : Type} `{ObliviousRamSpec O}.

(** Where entry [i] lives. *)
Definition entry_block (i : Z) : Z := i / ENTRIES.
Definition entry_index (i : Z) : nat := Z.to_nat (i mod ENTRIES).

Definition opm_get (m : oram_position_map O) (i : Z) : Z :=
  u32_get (ram_get (opm_oram m) (entry_block i)) (entry_index i).

Definition opm_inv (n npos : Z) (m : oram_position_map O) : Prop :=
  opm_size m = n /\ n <= 2 ^ 64 /\ npos <= 2 ^ 32 /\
  entries_per_block m = ENTRIES /\ entries_per_block_ct m = prep_ct_div ENTRIES /\
  ram_inv (blocks_needed n) (opm_oram m) /\
  forall i, 0 <= i < n -> 0 <= opm_get m i < npos.

Lemma entry_range i : (entry_index i < BLOCK_DATA_SIZE_QWORDS * 2)%nat.
Proof.
  unfold entry_index. pose proof (Z.mod_pos_bound i ENTRIES ltac:(done)). unfold ENTRIES in *. lia.
Qed.

Lemma entry_block_range i n : 0 <= i < n -> 0 <= entry_block i < blocks_needed n.
Proof.
  intros Hi. unfold entry_block, blocks_needed. change ENTRIES with 336.
  destruct (Z.eqb_spec (n mod 336) 0); dlia.
Qed.

Lemma entry_inj i j : 0 <= i -> 0 <= j -> entry_block i = entry_block j -> entry_index i = entry_index j -> i = j.
Proof. unfold entry_block, entry_index. change ENTRIES with 336. intros. dlia. Qed.

Lemma opm_access_split n npos (m : oram_position_map O) e i acc err prev m' e' :
  opm_inv n npos m -> 0 <= i < n ->
  oram_position_map_access m e i acc = (err, prev, m', e') ->
  exists out o', ram_inner_access (acc (Z.of_nat (entry_index i))) (opm_oram m) e (entry_block i) = (err, out, o', e') /\
    prev = default 0 out /\
    m' = {| opm_size := n; opm_oram := o'; entries_per_block := ENTRIES; entries_per_block_ct := prep_ct_div ENTRIES |}.
Proof.
  intros (Hs & Hn & _ & He & Hct & _) Hi. unfold oram_position_map_access, block_id_for_index_ct.
  rewrite Hs, He, Hct. assert (is_u64 i) by (unfold is_u64; lia).
  rewrite ct_mod_spec, ct_div_spec by (done || (change ENTRIES with 336; lia)).
  unfold entry_index, entry_block. rewrite Z2Nat.id by (apply Z.mod_pos_bound; done).
  destruct (ram_inner_access _ _ _ _) as [[[err1 out1] o1] e1]. intros [= <- <- <- <-]. by exists out1, o1.
Qed.

Lemma opm_read_then_set n npos (m : oram_position_map O) e i pos err prev m' e' :
  opm_inv n npos m -> 0 <= i < n -> 0 <= pos < npos ->
  read_then_set m e i pos = (err, prev, m', e') -> is_success err = true ->
  prev = opm_get m i /\ opm_inv n npos m' /\
  forall j, 0 <= j < n -> opm_get m' j = if j =? i then pos else opm_get m j.
Proof.
  intros Hm Hi Hpos Hrun Hok. simpl in Hrun.
  destruct (opm_access_split _ _ _ _ _ _ _ _ _ _ Hm Hi Hrun) as (out & o' & Hacc & -> & ->).
  destruct Hm as (Hs & Hn & Hnp & He & Hct & Hram & Hrange).
  destruct (ram_inner_access_spec _ _ _ _ _ _ _ _ _ (write_partial_ok _ _) Hram (entry_block_range i n Hi) Hacc Hok)
    as (Hram' & -> & Hget).
  rewrite write_partial_out_spec in Hget |- * by apply entry_range. cbn [fst snd] in Hget.
  rewrite (Z.mod_small pos) in Hget by lia.
  set (m' := {| opm_size := n; opm_oram := o'; entries_per_block := ENTRIES; entries_per_block_ct := _ |}).
  assert (Hnew : forall j, 0 <= j < n -> opm_get m' j = if j =? i then pos else opm_get m j).
  { intros j Hj. unfold opm_get; simpl. rewrite Hget.
    assert (Hlen : (entry_index i / 2 < length (ram_get (opm_oram m) (entry_block i)))%nat).
    { rewrite (ram_get_length _ _ _ Hram). apply Nat.Div0.div_lt_upper_bound.
      pose proof (entry_range i). lia. }
    destruct (Z.eqb_spec (entry_block j) (entry_block i)) as [Eb|Eb].
    - destruct (decide (entry_index i = entry_index j)) as [Ei|Ei].
      + assert (j = i) as -> by (apply entry_inj; (done || lia)). rewrite Z.eqb_refl.
        apply u32_get_set_eq; [done|lia].
      + rewrite u32_get_set_ne by (done || lia). rewrite <- Eb.
        destruct (Z.eqb_spec j i) as [->|]; [done|done].
    - destruct (Z.eqb_spec j i) as [->|]; [done|done]. }
  split_and!; [done| |done]. split_and!; try done.
  intros j Hj. rewrite Hnew by done. destruct (j =? i); [done|by apply Hrange].
Qed.

#[export] Instance oram_position_map_spec : PositionMapSpec (oram_position_map O) := {
  pm_inv := opm_inv;
  pm_get := opm_get;
  pm_get_range n npos pm i Hpm Hi := proj2 (proj2 (proj2 (proj2 (proj2 (proj2 Hpm))))) i Hi;
  read_then_set_spec := opm_read_then_set;
}.
End OpmSpec.

#[export] Program Instance position_map_spec {I} `{PositionMapSpec I} : PositionMapSpec (position_map I) := {
  pm_inv n npos m := pm_inv n npos (impl m);
  pm_get m i := pm_get (impl m) i;
}.
Next Obligation. intros I ?? n npos m i Hm Hi. by apply (pm_get_range n). Qed.
Next Obligation.
  intros I ?? n npos m e i pos err prev m' e' Hm Hi Hpos Hrun Hok. simpl in Hrun.
  destruct (read_then_set (impl m) e i pos) as [[[err1 prev1] x] e1] eqn:E. injection Hrun as <- <- <- <-.
  by apply (read_then_set_spec n npos _ _ _ _ _ _ _ _ Hm Hi Hpos E).
Qed.

(** ** Creation establishes the invariant *)

Lemma oram_new_inv {PM} `{PositionMapSpec PM} L cap n nb rd (pm : PM) :
  (1 <= L <= 50)%nat -> n <= UINT64_MAX -> pm_inv n (2 ^ (Z.of_nat L - 1)) pm ->
  oram_inv L cap n (oram_new L cap nb rd pm).
Proof.
  intros HL Hn Hpm. destruct (bucket_store_create_buckets L HL) as [Hst Hb].
  constructor; [done|done| |done].
  by apply (blank_tree_inv L cap n _ _ (stash_create L cap) Hst (stash_create_wf L cap) Hb eq_refl).
Qed.

Lemma oram_new_data {PM} L cap nb rd (pm : PM) i : (1 <= L <= 50)%nat ->
  oram_data (oram_new L cap nb rd pm) i = data blank_block.
Proof.
  intros HL. destruct (bucket_store_create_buckets L HL) as [Hst Hb].
  destruct (blank_tree_inv L cap 0 (fun _ => 0) _ (stash_create L cap) Hst (stash_create_wf L cap) Hb eq_refl) as [_ Hl].
  unfold oram_data; simpl. by rewrite Hl.
Qed.

Lemma scan_position_map_new_inv size npos e pm e' : 0 < npos <= 2 ^ 32 ->
  scan_position_map_new size npos e = (pm, e') -> pm_inv (Z.of_nat size) npos pm.
Proof.
  intros Hp. unfold scan_position_map_new. destruct (scan_position_map_create size npos e) as [m e1] eqn:E.
  intros [= <- <-]. by apply (scan_position_map_create_inv _ _ _ _ _ Hp E).
Qed.

(** Every entry of a block is a valid position. *)
Definition entries_ok (npos : Z) (d : list Z) : Prop :=
  forall i, (i < length d * 2)%nat -> 0 <= u32_get d i < npos.

Lemma u32_get_cons w d i : u32_get (w :: d) (S (S i)) = u32_get d i.
Proof.
  unfold u32_get. replace (S (S i)) with (i + 1 * 2)%nat by lia.
  rewrite Nat.div_add, Nat.Div0.mod_add by lia. by rewrite Nat.add_1_r.
Qed.

Lemma random_words_spec n npos e ws e' : 0 < npos <= 2 ^ 32 -> random_words n npos e = (ws, e') ->
  length ws = n /\ entries_ok npos ws.
Proof.
  intros Hp. revert e ws e'. induction n as [|n IH]; intros e ws e' H; simpl in H.
  - injection H as <- <-. split; [done|]. intros i Hi. simpl in Hi. lia.
  - destruct (random_words n npos _) as [ws1 e1] eqn:E. injection H as <- <-.
    destruct (IH _ _ _ E) as [Hl Hok]. split; [simpl; lia|].
    set (lo := _ mod npos). set (hi := _ mod npos).
    assert (0 <= lo < npos) by (apply Z.mod_pos_bound; lia).
    assert (0 <= hi < npos) by (apply Z.mod_pos_bound; lia).
    intros [|[|i]] Hi.
    + unfold u32_get. simpl. rewrite Z.div_1_r, Z.mod_add, Z.mod_small by lia. lia.
    + unfold u32_get. simpl. change (Z.pow_pos 2 32) with (2 ^ 32).
      rewrite Z.div_add, (Z.div_small lo), Z.add_0_l, Z.mod_small by lia. lia.
    + rewrite u32_get_cons. apply Hok. simpl in Hi. lia.
Qed.

#[local] Opaque random_words.

Lemma fill_blocks_spec L cap n npos : 0 < npos <= 2 ^ 32 -> forall k i o e errs o' e',
  oram_inv L cap n o -> 0 <= i -> i + Z.of_nat k <= n ->
  fill_blocks k i npos o e = (errs, o', e') -> forallb is_success errs = true ->
  oram_inv L cap n o' /\
  (forall j, i <= j < i + Z.of_nat k -> entries_ok npos (oram_data o' j)) /\
  (forall j, ~ (i <= j < i + Z.of_nat k) -> oram_data o' j = oram_data o j).
Proof.
  intros Hp. induction k as [|k IH]; intros i o e errs o' e' Ho Hi Hk Hrun Hok; cbn [fill_blocks] in Hrun.
  { injection Hrun as <- <- <-. split_and!; [done|intros; lia|done]. }
  destruct (random_words BLOCK_DATA_SIZE_QWORDS npos e) as [buf e1] eqn:Eb.
  destruct (random_words_spec _ _ _ _ _ Hp Eb) as [Hbl Hbok].
  unfold oram_position_map_put, collect in Hrun.
  destruct (access _ o e1 i) as [[[err1 out1] o1] e2] eqn:Ea.
  destruct (fill_blocks k (i + 1) npos _ _) as [[errs2 o2] e3] eqn:Ef. injection Hrun as <- <- <-.
  cbn [forallb] in Hok. apply andb_prop in Hok as [Hok1 Hok2].
  destruct (access_spec (PM := position_map scan_position_map) _ (from_buffer_ok buf ltac:(lia)) L cap n o e1 i _ _ _ _ Ho ltac:(lia) Ea Hok1)
    as (Ho1 & _ & Hd1).
  destruct (IH (i + 1) _ _ _ _ _ (collect_statistics_inv _ _ _ _ Ho1) ltac:(lia) ltac:(lia) Ef Hok2) as (Ho2 & Hin & Hout).
  unfold block_data_from_buffer in Hd1. cbn [snd] in Hd1.
  rewrite take_ge in Hd1 by lia. split_and!; [done| |].
  - intros j Hj. destruct (decide (j = i)) as [->|]; [|apply Hin; lia].
    rewrite Hout, collect_statistics_data, Hd1, Z.eqb_refl by lia. done.
  - intros j Hj. rewrite Hout, collect_statistics_data, Hd1 by lia.
    by rewrite (proj2 (Z.eqb_neq j i)) by lia.
Qed.

Lemma oram_position_map_new_inv L cap n npos o e errs pm e' :
  0 < n <= UINT64_MAX -> 0 < npos <= 2 ^ 32 -> oram_inv L cap (blocks_needed n) o ->
  oram_position_map_new n npos o e = (errs, pm, e') -> forallb is_success errs = true ->
  pm_inv n npos pm.
Proof.
  intros Hn Hp Ho Hrun Hok. unfold oram_position_map_new in Hrun.
  destruct (fill_blocks _ 0 npos o e) as [[errs1 o1] e1] eqn:Ef. injection Hrun as <- <- <-.
  assert (Hbn : 0 < blocks_needed n) by (pose proof (entry_block_range 0 n ltac:(lia)); unfold entry_block in *; lia).
  destruct (fill_blocks_spec L cap (blocks_needed n) npos Hp (Z.to_nat (blocks_needed n)) 0 o e _ _ _ Ho ltac:(lia) ltac:(lia) Ef Hok)
    as (Ho1 & Hent & _).
  unfold UINT64_MAX in Hn. split_and!; simpl; [done|lia|lia|done|done|by exists L, cap|].
  intros i Hi. unfold opm_get; simpl.
  apply (Hent (entry_block i)); [pose proof (entry_block_range i n Hi); lia|].
  rewrite (oram_data_length L cap (blocks_needed n)) by done. apply entry_range.
Qed.

(** The main ORAM, from a recursive map over an inner ORAM over a scan map. *)
Lemma oram_create_inv L0 cap0 L n nb0 e pm0 e0 errs pm e1 :
  (1 <= L0 <= 32)%nat -> (1 <= L <= 32)%nat -> 0 < n <= UINT64_MAX ->
  scan_position_map_new (Z.to_nat (blocks_needed n)) (2 ^ (Z.of_nat L0 - 1)) e = (pm0, e0) ->
  oram_position_map_new n (2 ^ (Z.of_nat L - 1)) (oram_new L0 cap0 nb0 scan_recursion_depth pm0) e0 = (errs, pm, e1) ->
  forallb is_success errs = true ->
  oram_inv L 100 n (oram_create L (errs, pm, e1)).1.2.
Proof.
  intros HL0 HL Hn Hs Hnew Hok.
  assert (Hpow : forall l, (1 <= l <= 32)%nat -> 0 < 2 ^ (Z.of_nat l - 1) <= 2 ^ 32).
  { intros l Hl. split; [apply Z.pow_pos_nonneg; lia|apply Z.pow_le_mono_r; lia]. }
  assert (Hbn : 0 < blocks_needed n) by (pose proof (entry_block_range 0 n ltac:(lia)); unfold entry_block in *; lia).
  assert (Hbu : blocks_needed n <= UINT64_MAX).
  { unfold blocks_needed, UINT64_MAX in *. change ENTRIES with 336. destruct (_ =? 0); dlia. }
  apply scan_position_map_new_inv in Hs; [|by apply Hpow]. rewrite Z2Nat.id in Hs by lia.
  assert (Hinner := oram_new_inv L0 cap0 (blocks_needed n) nb0 scan_recursion_depth pm0 ltac:(lia) Hbu Hs).
  apply (oram_position_map_new_inv L0 cap0) in Hnew; [|done|by apply Hpow|done|done].
  simpl. apply oram_new_inv; [lia|lia|].
  destruct Hnew as (H1 & H2 & H3 & H4 & H5 & (L1 & cap1 & [? ? ? ?]) & H7).
  split_and!; try done. exists L1, cap1. by constructor.
Qed.
