(* ===== verification/OramTheorems.v ===== *)
(** * The theorems about the ORAM

    Sequences of operations on a Path ORAM against the same sequence on a map,
    totality of an access, creation, clearing and the position maps; each with
    a small concrete ORAM that satisfies its hypotheses. *)

From S2P Require Import Prelude Errors Util TreePath Bucket Stash Eviction PositionMap Statistics PathOram ReadPath PathOramSpec OramInterface OramPositionMap.
Local Open Scope Z_scope.

(** ** Sequences of operations *)

Inductive op := Put (block_id : Z) (block_data : list Z) | Get (block_id : Z).

Definition op_id (o : op) : Z := match o with Put i _ => i | Get i => i end.

Definition op_ok (n : Z) (o : op) : bool :=
  (0 <=? op_id o) && (op_id o <? n) &&
  match o with Put _ d => (length d =? BLOCK_DATA_SIZE_QWORDS)%nat | Get _ => true end.

Section Sequences.
Context {PM : Type} `{PositionMapSpec PM}.

(** Run the operations on the ORAM; the result of each: its error code and, for
    a [Get] that produced one, the block. *)
Fixpoint run_oram (ops : list op) (o : oram PM) (e : entropy) :
    list (error_t * option (list Z)) * oram PM * entropy :=
  match ops with
  | [] => ([], o, e)
  | Put i d :: ops =>
      let '(err, _, o, e) := oram_put o e i d in
      let '(rs, o, e) := run_oram ops o e in ((err, None) :: rs, o, e)
  | Get i :: ops =>
      let '(err, out, o, e) := oram_get o e i in
      let '(rs, o, e) := run_oram ops o e in ((err, out) :: rs, o, e)
  end.

(** The same operations on a map. *)
Fixpoint run_map (ops : list op) (m : Z -> list Z) : list (option (list Z)) * (Z -> list Z) :=
  match ops with
  | [] => ([], m)
  | Put i d :: ops =>
      let '(rs, m) := run_map ops (fun j => if j =? i then d else m j) in (None :: rs, m)
  | Get i :: ops =>
      let '(rs, m') := run_map ops m in (Some (m i) :: rs, m')
  end.

Definition all_succeed (rs : list (error_t * option (list Z))) : bool := forallb (fun r => is_success r.1) rs.

Lemma oram_put_spec L cap n (o : oram PM) e i d err out o' e' :
  oram_inv L cap n o -> 0 <= i < n -> length d = BLOCK_DATA_SIZE_QWORDS ->
  oram_put o e i d = (err, out, o', e') -> is_success err = true ->
  oram_inv L cap n o' /\ forall j, oram_data o' j = if j =? i then d else oram_data o j.
Proof.
  intros Ho Hi Hd. unfold oram_put, collect.
  destruct (access _ o e i) as [[[err1 out1] o1] e1] eqn:E. intros [= <- <- <- <-] Hok.
  destruct (access_spec _ (from_buffer_ok d ltac:(lia)) L cap n o e i _ _ _ _ Ho Hi E Hok) as (Ho1 & _ & Hd1).
  unfold block_data_from_buffer in Hd1. cbn [snd] in Hd1. rewrite take_ge in Hd1 by lia.
  split; [by apply collect_statistics_inv|exact Hd1].
Qed.

Lemma oram_get_spec L cap n (o : oram PM) e i err out o' e' :
  oram_inv L cap n o -> 0 <= i < n ->
  oram_get o e i = (err, out, o', e') -> is_success err = true ->
  oram_inv L cap n o' /\ out = Some (oram_data o i) /\ forall j, oram_data o' j = oram_data o j.
Proof.
  intros Ho Hi. unfold oram_get, collect.
  destruct (access _ o e i) as [[[err1 out1] o1] e1] eqn:E. intros [= <- <- <- <-] Hok.
  destruct (access_spec _ to_buffer_ok L cap n o e i _ _ _ _ Ho Hi E Hok) as (Ho1 & -> & Hd1).
  split_and!; [by apply collect_statistics_inv|done|]. intros j. rewrite collect_statistics_data, Hd1.
  destruct (Z.eqb_spec j i) as [->|]; done.
Qed.

Lemma op_ok_id n o : op_ok n o = true -> 0 <= op_id o < n.
Proof. unfold op_ok. rewrite !andb_true_iff. intros [[? ?] _]. breflect. lia. Qed.

Lemma run_oram_sim L cap n ops : forall (o : oram PM) e m rs o' e',
  oram_inv L cap n o -> (forall i, oram_data o i = m i) -> forallb (op_ok n) ops = true ->
  run_oram ops o e = (rs, o', e') -> all_succeed rs = true ->
  oram_inv L cap n o' /\ map snd rs = (run_map ops m).1 /\ forall i, oram_data o' i = (run_map ops m).2 i.
Proof.
  induction ops as [|a ops IH]; intros o e m rs o' e' Ho Hm Hops Hrun Hok.
  { injection Hrun as <- <- <-. done. }
  apply andb_prop in Hops as [Ha Hops]. pose proof (op_ok_id _ _ Ha) as Hid. destruct a as [i d|i]; cbn [run_oram run_map op_id] in *.
  - destruct (oram_put o e i d) as [[[err out] o1] e1] eqn:E.
    destruct (run_oram ops o1 e1) as [[rs1 o2] e2] eqn:Er. injection Hrun as <- <- <-.
    apply andb_prop in Hok as [Hok1 Hok].
    assert (Hd : length d = BLOCK_DATA_SIZE_QWORDS) by (unfold op_ok in Ha; breflect; tauto).
    destruct (oram_put_spec _ _ _ _ _ _ _ _ _ _ _ Ho Hid Hd E Hok1) as [Ho1 Hd1].
    edestruct (IH o1 e1 (fun j => if j =? i then d else m j)) as (H1 & H2 & H3); [done| |done|done|done|].
    { intros j. rewrite Hd1. by destruct (j =? i). }
    destruct (run_map ops _) as [rs' m'] eqn:Em. simpl in *. split_and!; [done|by f_equal|done].
  - destruct (oram_get o e i) as [[[err out] o1] e1] eqn:E.
    destruct (run_oram ops o1 e1) as [[rs1 o2] e2] eqn:Er. injection Hrun as <- <- <-.
    apply andb_prop in Hok as [Hok1 Hok].
    destruct (oram_get_spec _ _ _ _ _ _ _ _ _ _ Ho Hid E Hok1) as (Ho1 & -> & Hd1).
    destruct (IH o1 e1 m _ _ _ Ho1 ltac:(intros j; by rewrite Hd1) Hops Er Hok) as (H1 & H2 & H3).
    destruct (run_map ops _) as [rs' m'] eqn:Em. simpl in *. split_and!; [done|by rewrite Hm, H2|done].
Qed.
End Sequences.

(** ** A small ORAM for the examples *)

Definition toy_entropy : entropy := {| source := fun k => (Z.of_nat k * 7919) mod 2 ^ 64; drawn := 0 |}.

Definition toy_oram : inner_oram := oram_new 2 4 3 scan_recursion_depth (scan_position_map_new 3 2 toy_entropy).1.

Definition toy_block (x : Z) : list Z := replicate BLOCK_DATA_SIZE_QWORDS x.

Lemma toy_oram_inv : oram_inv 2 4 3 toy_oram.
Proof.
  apply oram_new_inv; [lia|done|].
  destruct (scan_position_map_new 3 2 toy_entropy) as [pm e] eqn:E.
  by apply (scan_position_map_new_inv 3 2 toy_entropy pm e).
Qed.

Definition toy_ops : list op := [Put 0 (toy_block 5); Put 2 (toy_block 6); Get 0; Put 0 (toy_block 7); Get 2; Get 0; Get 1].

(** ** The properties *)

(** C16. A Path ORAM implements a map from block ids to blocks: whatever random
    positions are drawn, a sequence of puts and gets whose every operation
    reports success returns, for each get, exactly what the same sequence
    returns on the map of the blocks stored at the start, leaves the ORAM
    well-formed and leaves it holding the map the sequence produces. *)
Theorem oram_refines_map {PM} `{PositionMapSpec PM} L cap n (o : oram PM) e ops :
  oram_inv L cap n o -> forallb (op_ok n) ops = true ->
  let '(rs, o', _) := run_oram ops o e in
  all_succeed rs = true ->
  map snd rs = (run_map ops (oram_data o)).1 /\ oram_inv L cap n o' /\
  forall i, oram_data o' i = (run_map ops (oram_data o)).2 i.
Proof.
  intros Ho Hops. destruct (run_oram ops o e) as [[rs o'] e'] eqn:E. intros Hok.
  destruct (run_oram_sim L cap n ops o e (oram_data o) rs o' e' Ho) as (? & ? & ?); done.
Qed.

Lemma oram_refines_map_witness :
  all_succeed (run_oram toy_ops toy_oram toy_entropy).1.1 = true /\
  map snd (run_oram toy_ops toy_oram toy_entropy).1.1 = (run_map toy_ops (oram_data toy_oram)).1.
Proof.
  pose proof (oram_refines_map 2 4 3 toy_oram toy_entropy toy_ops toy_oram_inv eq_refl) as Hr.
  assert (Hok : all_succeed (run_oram toy_ops toy_oram toy_entropy).1.1 = true) by (vm_compute; reflexivity).
  destruct (run_oram toy_ops toy_oram toy_entropy) as [[rs o'] e']. split; [exact Hok|apply (Hr Hok)].
Defined.

(** C17. An access is total: when the position map answers and the stash's
    overflow area is not full, the access reports success, returns the
    accessor's output on the block's data, stores the accessor's new data under
    the id and nothing else, and keeps the invariant. *)
Theorem access_total {PM} `{PositionMapSpec PM} {A} (acc : accessor A) L cap n (o : oram PM) e block_id :
  accessor_ok acc -> oram_inv L cap n o -> 0 <= block_id < n -> Z.of_nat cap <= UINT64_MAX ->
  stash_num_overflow_blocks (o_stash o) < Z.of_nat cap ->
  (forall np e1, is_success (read_then_set (o_position_map o) e1 block_id np).1.1.1 = true) ->
  let '(err, out, o', _) := access acc o e block_id in
  is_success err = true /\ out = Some (acc (oram_data o block_id)).1 /\ oram_inv L cap n o' /\
  forall j, oram_data o' j = if j =? block_id then (acc (oram_data o block_id)).2 else oram_data o j.
Proof.
  intros Hacc Ho Hi Hcap Hroom Hpm.
  destruct (overflow_room L cap (o_stash o) (ti_stash _ _ _ _ _ _ (oi_tree _ _ _ _ Ho)) Hcap Hroom) as (b & Hin & Hb).
  pose proof (access_succeeds acc L cap n o e block_id b Ho Hi Hin Hb Hpm) as Hok.
  destruct (access acc o e block_id) as [[[err out] o'] e'] eqn:E. cbn [fst] in Hok.
  destruct (access_spec acc Hacc L cap n o e block_id err out o' e' Ho Hi E Hok) as (? & ? & ?). done.
Qed.

Lemma access_total_witness :
  let '(err, out, _, _) := access (block_data_from_buffer (toy_block 9)) toy_oram toy_entropy 1 in
  is_success err = true /\ out = Some tt.
Proof.
  pose proof (access_total (block_data_from_buffer (toy_block 9)) 2 4 3 toy_oram toy_entropy 1
    (from_buffer_ok (toy_block 9) ltac:(vm_compute; lia)) toy_oram_inv ltac:(lia) ltac:(done) ltac:(done)
    ltac:(intros; reflexivity)) as Hr.
  destruct (access (block_data_from_buffer (toy_block 9)) toy_oram toy_entropy 1) as [[[err out] o'] e'].
  split; [apply Hr|apply Hr].
Defined.

(** C34. The creation functions build a well-formed ORAM: a recursive position
    map whose inner ORAM has [L0] levels, filled with random positions, and a
    main ORAM of [L] levels over it satisfy the invariant and hold only blank
    blocks, provided every store of the initialisation reported success (the C
    code ignores those results).  The production parameters, [L0 = 13] and
    [L = 20] for 851968 ids or [L0 = 9] and [L = 16] for 53248 ids, are
    instances. *)
Theorem oram_create_invariant L0 cap0 L n nb0 e :
  (1 <= L0 <= 32)%nat -> (1 <= L <= 32)%nat -> 0 < n <= UINT64_MAX ->
  let '(pm0, e0) := scan_position_map_new (Z.to_nat (blocks_needed n)) (2 ^ (Z.of_nat L0 - 1)) e in
  let r := oram_position_map_new n (2 ^ (Z.of_nat L - 1)) (oram_new L0 cap0 nb0 scan_recursion_depth pm0) e0 in
  let '(errs, o, _) := oram_create L r in
  forallb is_success errs = true ->
  oram_inv L 100 n o /\ forall i, oram_data o i = data blank_block.
Proof.
  intros HL0 HL Hn.
  destruct (scan_position_map_new _ _ e) as [pm0 e0] eqn:Es.
  destruct (oram_position_map_new _ _ _ _) as [[errs pm] e1] eqn:Eo.
  intros r. simpl. intros Hok. split.
  - apply (oram_create_inv L0 cap0 L n nb0 e pm0 e0 errs pm e1 HL0 HL Hn Es Eo Hok).
  - intros i. apply oram_new_data. lia.
Qed.

Lemma oram_create_invariant_witness :
  let '(pm0, e0) := scan_position_map_new (Z.to_nat (blocks_needed 5)) (2 ^ (Z.of_nat 2 - 1)) toy_entropy in
  let r := oram_position_map_new 5 (2 ^ (Z.of_nat 3 - 1)) (oram_new 2 3 1 scan_recursion_depth pm0) e0 in
  let '(errs, o, _) := oram_create 3 r in
  forallb is_success errs = true /\ oram_inv 3 100 5 o.
Proof.
  pose proof (oram_create_invariant 2 3 3 5 1 toy_entropy ltac:(lia) ltac:(lia) ltac:(done)) as Hc.
  assert (Hok : forallb is_success
    (let '(pm0, e0) := scan_position_map_new (Z.to_nat (blocks_needed 5)) (2 ^ (Z.of_nat 2 - 1)) toy_entropy in
     (oram_position_map_new 5 (2 ^ (Z.of_nat 3 - 1)) (oram_new 2 3 1 scan_recursion_depth pm0) e0).1.1) = true)
    by (vm_compute; reflexivity).
  destruct (scan_position_map_new _ _ toy_entropy) as [pm0 e0].
  destruct (oram_position_map_new _ _ _ _) as [[errs pm] e1].
  split; [exact Hok|apply (Hc Hok)].
Defined.

(** C18. The recursive position map, over any ORAM that satisfies the ORAM
    interface: reading and replacing the position of id [i] returns the last
    position stored for [i], changes the positions of no other id and keeps
    every position in range. *)
Theorem recursive_map_read_then_set {O} `{ObliviousRamSpec O} n npos (m : oram_position_map O) e i pos :
  opm_inv n npos m -> 0 <= i < n -> 0 <= pos < npos ->
  let '(err, prev, m', _) := read_then_set m e i pos in
  is_success err = true ->
  prev = opm_get m i /\ opm_inv n npos m' /\
  forall j, 0 <= j < n -> opm_get m' j = if j =? i then pos else opm_get m j.
Proof.
  intros Hm Hi Hp. destruct (read_then_set m e i pos) as [[[err prev] m'] e'] eqn:E. intros Hok.
  apply (opm_read_then_set n npos m e i pos err prev m' e' Hm Hi Hp E Hok).
Qed.

(** A recursive map over a fresh ORAM of two blocks whose entries were set. *)
Definition toy_map : position_map (oram_position_map inner_oram) :=
  (oram_position_map_new 5 4 (oram_new 2 3 1 scan_recursion_depth (scan_position_map_new 1 2 toy_entropy).1) toy_entropy).1.2.

Lemma toy_map_inv : opm_inv 5 4 (impl toy_map).
Proof.
  assert (Hok : forallb is_success (oram_position_map_new 5 4 (oram_new 2 3 1 scan_recursion_depth
    (scan_position_map_new 1 2 toy_entropy).1) toy_entropy).1.1 = true) by (vm_compute; reflexivity).
  unfold toy_map. destruct (scan_position_map_new 1 2 toy_entropy) as [pm0 e0] eqn:Es. cbn [fst] in *.
  destruct (oram_position_map_new 5 4 _ toy_entropy) as [[errs pm] e1] eqn:Eo.
  pose proof (scan_position_map_new_inv 1 2 toy_entropy pm0 e0 ltac:(lia) Es) as Hs.
  assert (Hnew : oram_inv 2 3 (blocks_needed 5) (oram_new 2 3 1 scan_recursion_depth pm0)).
  { apply oram_new_inv; [lia|vm_compute; discriminate|exact Hs]. }
  exact (oram_position_map_new_inv 2 3 5 4 _ toy_entropy errs pm e1 ltac:(unfold UINT64_MAX; lia) ltac:(lia) Hnew Eo Hok).
Qed.

Lemma recursive_map_read_then_set_witness :
  let '(err, prev, _, _) := read_then_set (impl toy_map) toy_entropy 3 2 in
  is_success err = true /\ prev = opm_get (impl toy_map) 3.
Proof.
  pose proof (recursive_map_read_then_set 5 4 (impl toy_map) toy_entropy 3 2 toy_map_inv ltac:(lia) ltac:(lia)) as Hr.
  assert (Hok : is_success (read_then_set (impl toy_map) toy_entropy 3 2).1.1.1 = true) by (vm_compute; reflexivity).
  destruct (read_then_set (impl toy_map) toy_entropy 3 2) as [[[err prev] m'] e']. split; [exact Hok|apply (Hr Hok)].
Defined.

(** [oram_clear] empties the ORAM: afterwards every block reads as blank
    and the invariant still holds, so the ORAM can be reused. *)
Theorem oram_clear_blank {PM} `{PositionMapSpec PM} L cap n (o : oram PM) : oram_inv L cap n o ->
  oram_inv L cap n (oram_clear o) /\ forall i, oram_data (oram_clear o) i = data blank_block.
Proof. apply oram_clear_spec. Qed.

Lemma oram_clear_blank_witness :
  oram_data (oram_clear (run_oram toy_ops toy_oram toy_entropy).1.2) 0 = data blank_block.
Proof.
  pose proof (run_oram_sim 2 4 3 toy_ops toy_oram toy_entropy (oram_data toy_oram)) as Hs.
  assert (Hok : all_succeed (run_oram toy_ops toy_oram toy_entropy).1.1 = true) by (vm_compute; reflexivity).
  destruct (run_oram toy_ops toy_oram toy_entropy) as [[rs o'] e'] eqn:E.
  destruct (Hs rs o' e' toy_oram_inv ltac:(done) ltac:(reflexivity) eq_refl Hok) as (Ho & _).
  apply (oram_clear_blank 2 4 3 o' Ho).
Defined.

(** Adding a block to the stash takes one free overflow slot and touches no
    other, or, exactly when every overflow slot is occupied, reports
    [err_ORAM__STASH_EXHAUSTION] and leaves the stash's blocks as they were. *)
Theorem add_block_correct L cap s nb : stash_wf L cap s ->
  let '(err, s') := add_block s nb in
  (err = err_SUCCESS /\ exists l1 b l2, overflow_blocks s = l1 ++ b :: l2 /\ block_is_empty b = true /\
     blocks s' = stash_path_blocks s ++ l1 ++ nb :: l2) \/
  (err = err_ORAM__STASH_EXHAUSTION /\ (forall b, b ∈ overflow_blocks s -> block_is_empty b = false) /\
     blocks s' = blocks s).
Proof.
  intros Hwf. destruct (add_block s nb) as [err s'] eqn:E.
  destruct (stash_wf_split L cap s Hwf) as (Hsp & _ & _).
  destruct (add_block_spec s _ _ nb err s' Hsp E) as [(-> & l1 & b & l2 & Hov & Hb & ->)|(-> & Hlive & ->)].
  - left. split; [done|]. by exists l1, b, l2.
  - right. split_and!; [done| |done]. intros b. rewrite <- Hlive. intros [? _]%elem_of_live. done.
Qed.

Lemma add_block_correct_witness :
  (add_block toy_stash blank_block).1 = err_ORAM__STASH_EXHAUSTION /\
  blocks (add_block toy_stash blank_block).2 = blocks toy_stash.
Proof.
  pose proof (add_block_correct 2 2 toy_stash blank_block (proj1 toy_stash_ok)) as H.
  assert (He : (add_block toy_stash blank_block).1 = err_ORAM__STASH_EXHAUSTION) by (vm_compute; reflexivity).
  destruct (add_block toy_stash blank_block) as [err s']. cbn [fst] in He. subst err.
  destruct H as [[H _]|(_ & _ & H)]; [discriminate|]. split; [reflexivity|exact H].
Defined.

(** The statistics follow the accesses: each call counts one access, records
    the number of occupied overflow blocks, adds it to the running sum and
    raises the maximum to it when it is larger; nothing else of the ORAM
    changes. *)
Theorem collect_statistics_correct {PM} `{PositionMapSpec PM} L cap n (o : oram PM) :
  oram_inv L cap n o -> Z.of_nat cap <= UINT64_MAX ->
  is_u64 (max_stash_overflow_count (o_statistics o)) ->
  let size := Z.of_nat (length (live (overflow_blocks (o_stash o)))) in
  let s := o_statistics o in
  let s' := o_statistics (oram_collect_statistics o) in
  access_count s' = access_count s [+] 1 /\ stash_overflow_count s' = size /\
  sum_stash_overflow_count s' = sum_stash_overflow_count s [+] size /\
  max_stash_overflow_count s' = Z.max size (max_stash_overflow_count s) /\
  oram_inv L cap n (oram_collect_statistics o) /\
  forall i, oram_data (oram_collect_statistics o) i = oram_data o i.
Proof.
  intros Ho Hcap Hmax size s s'. pose proof (ti_stash _ _ _ _ _ _ (oi_tree _ _ _ _ Ho)) as Hwf.
  assert (Hsz : stash_num_overflow_blocks (o_stash o) = size) by (by apply (stash_num_overflow_blocks_spec L cap)).
  assert (Hle : 0 <= size <= Z.of_nat cap).
  { destruct (stash_wf_split _ _ _ Hwf) as (_ & _ & Hlo). unfold size, live.
    pose proof (length_filter (fun b => block_is_empty b = false) (overflow_blocks (o_stash o))). lia. }
  unfold s', oram_collect_statistics. cbn [o_statistics with_statistics access_count stash_overflow_count
    sum_stash_overflow_count max_stash_overflow_count]. rewrite Hsz.
  split_and!; [done|done|done| |by destruct Ho|done].
  rewrite U64_TERNARY_spec by (unfold is_u64 in *; unfold UINT64_MAX in *; lia). subst s.
  destruct (Z.gtb_spec size (max_stash_overflow_count (o_statistics o))); lia.
Qed.

Lemma collect_statistics_correct_witness :
  access_count (o_statistics (oram_collect_statistics toy_oram)) = 1.
Proof.
  destruct (collect_statistics_correct 2 4 3 toy_oram toy_oram_inv ltac:(done) ltac:(done)) as [H _]. exact H.
Defined.
