(* ===== verification/OHTable.v ===== *)
(** * The oblivious hash table ([c/ohtable/ohtable.c], [ohtable.jinc])

    A Robin Hood hash table whose slots are the records of the blocks of an
    ORAM: 24 records of seven words per block, the first word the key.  The
    operations are written against the interface [ObliviousRam]; an accessor
    runs over all 24 records of a block. *)

From S2P Require Import Prelude Errors Util Bucket PositionMap Statistics PathOram OramInterface OramPositionMap.
Local Open Scope Z_scope.

(** ** Records *)

(** [RECORD_SIZE] of [record.jinc]. *)
Definition RECORD_SIZE : nat := 7.

Definition records_per_block : nat := BLOCK_DATA_SIZE_QWORDS / RECORD_SIZE.

Definition record_key (record : list Z) : Z := default 0 (record !! 0%nat).

(** Record [i] of a block. *)
Definition record_at (block_data : list Z) (i : nat) : list Z :=
  take RECORD_SIZE (drop (i * RECORD_SIZE) block_data).

Definition set_record (block_data : list Z) (i : nat) (record : list Z) : list Z :=
  take (i * RECORD_SIZE) block_data ++ record ++ drop (i * RECORD_SIZE + RECORD_SIZE) block_data.

Definition record_empty (record : list Z) : bool := record_key record =? UINT64_MAX.

Definition record_empty_or_matches (record : list Z) (key : Z) : bool :=
  (record_key record =? UINT64_MAX) || (record_key record =? key).

(** ** Hashing *)

Definition FNV_OFFSET_BASIS : Z := 14695981039346656037.
Definition FNV_PRIME : Z := 1099511628211.

(** 64-bit FNV-1a over the eight bytes of the key, least significant first. *)
Definition raw_hash (key : Z) : Z :=
  fold_left (fun hash i => Z.lxor hash ((key / 2 ^ (8 * Z.of_nat i)) mod 256) [*] FNV_PRIME) (seq 0 8)
    FNV_OFFSET_BASIS.

Record location := Location { loc_block_id : Z; loc_index : Z }.

Definition hash_location (key capacity items_per_block : Z) (capacity_ct items_per_block_ct : ct_div_params) :
    location :=
  let h := ct_mod (raw_hash key) capacity capacity_ct in
  {| loc_block_id := ct_div h items_per_block items_per_block_ct;
     loc_index := ct_mod h items_per_block items_per_block_ct |}.

Definition distance_to_hash (ohtable_capacity hash target_hash : Z) : Z :=
  let c0 := target_hash [-] hash in
  if target_hash <? hash then c0 [+] ohtable_capacity else c0.

(** ** The Robin Hood accessor *)

Record robinhood_accessor_args := RobinhoodArgs {
  start_index : Z;
  insert_complete : bool;
  in_record : list Z;
  curr_jump : Z;
  curr_record_hash : Z;
  curr_slot_hash : Z;
  trace : Z;
  inserted_new_item : bool;
  args_max_offset : Z;
  ohtable_capacity : Z;
  args_capacity_ct : ct_div_params;
}.

(** One record slot.  [inserted] is local to the block. *)
Definition robinhood_slot (search_started : bool) (record : list Z)
    (args : robinhood_accessor_args) (inserted : bool) : robinhood_accessor_args * bool * list Z :=
  let key := record_key (in_record args) in
  let should_store := record_empty_or_matches record key && search_started && negb (insert_complete args) in
  let candidate_hash := ct_mod (raw_hash (record_key record)) (ohtable_capacity args) (args_capacity_ct args) in
  let candidate_jump := distance_to_hash (ohtable_capacity args) candidate_hash (curr_slot_hash args) in
  let jump_smaller :=
    ((candidate_jump =? curr_jump args) && (raw_hash (record_key record) <? raw_hash key)) ||
    (candidate_jump <? curr_jump args) in
  let should_swap := negb should_store && negb (insert_complete args) && search_started && jump_smaller in
  let new_here := ((record_empty record && should_store) || should_swap) && negb inserted in
  let stored := if should_store then in_record args else record in
  let '(slot, carried) := if should_swap then (in_record args, stored) else (stored, in_record args) in
  let complete := insert_complete args || should_store in
  let max_offset :=
    if ((curr_jump args >? args_max_offset args) && should_store) || should_swap
    then curr_jump args else args_max_offset args in
  let jump := if should_swap then candidate_jump else curr_jump args in
  let inc := if negb complete && search_started then 1 else 0 in
  ({| start_index := start_index args;
      insert_complete := complete;
      in_record := carried;
      curr_jump := jump [+] inc;
      curr_record_hash := if should_swap then candidate_hash else curr_record_hash args;
      curr_slot_hash := curr_slot_hash args [+] (if search_started then 1 else 0);
      trace := trace args [+] inc;
      inserted_new_item := inserted_new_item args || new_here;
      args_max_offset := max_offset;
      ohtable_capacity := ohtable_capacity args;
      args_capacity_ct := args_capacity_ct args |},
   inserted || should_store || should_swap, slot).

Definition robinhood_step (st : robinhood_accessor_args * bool * list Z) (i : nat) :
    robinhood_accessor_args * bool * list Z :=
  let '(args, inserted, block_data) := st in
  let '(args', inserted', slot) :=
    robinhood_slot (start_index args <=? Z.of_nat i) (record_at block_data i) args inserted in
  (args', inserted', set_record block_data i slot).

Definition robinhood (args : robinhood_accessor_args) : accessor robinhood_accessor_args := fun block_data =>
  let '(args, _, block_data) := fold_left robinhood_step (seq 0 records_per_block) (args, false, block_data) in
  (args, block_data).

(** ** The lookup accessor *)

Record get_record_accessor_args := GetRecordArgs {
  g_start_index : Z;
  search_complete : bool;
  out_record : list Z;
  g_key : Z;
}.

Definition get_record_step (block_data : list Z) (args : get_record_accessor_args) (i : nat) :
    get_record_accessor_args :=
  let search_started := g_start_index args <=? Z.of_nat i in
  let should_copy := record_empty_or_matches (record_at block_data i) (g_key args) && search_started &&
                     negb (search_complete args) in
  {| g_start_index := g_start_index args;
     search_complete := search_complete args || should_copy;
     out_record := if should_copy then record_at block_data i else out_record args;
     g_key := g_key args |}.

Definition get_record (args : get_record_accessor_args) : accessor get_record_accessor_args := fun block_data =>
  (fold_left (get_record_step block_data) (seq 0 records_per_block) args, block_data).

(** ** The table *)

Record ohtable (O : Type) := OHTable {
  t_oram : O;
  t_capacity : Z;
  t_record_size_qwords : nat;
  t_items_per_block : Z;
  t_num_blocks : Z;
  t_temp_record : list Z;
  t_max_offset : Z;
  t_max_trace_length : Z;
  t_total_displacement : Z;
  t_num_items : Z;
  t_swap_buf : list Z;
  t_capacity_ct : ct_div_params;
  t_items_per_block_ct : ct_div_params;
}.
Arguments OHTable {O}.
Arguments t_oram {O}.
Arguments t_capacity {O}.
Arguments t_record_size_qwords {O}.
Arguments t_items_per_block {O}.
Arguments t_num_blocks {O}.
Arguments t_temp_record {O}.
Arguments t_max_offset {O}.
Arguments t_max_trace_length {O}.
Arguments t_total_displacement {O}.
Arguments t_num_items {O}.
Arguments t_swap_buf {O}.
Arguments t_capacity_ct {O}.
Arguments t_items_per_block_ct {O}.

(** [_create]; [num_blocks] is the ORAM's capacity. *)
Definition ohtable_create_on {O} (oram : O) (num_blocks : Z) (record_size_qwords : nat) : ohtable O :=
  let items_per_block := Z.of_nat (BLOCK_DATA_SIZE_QWORDS / record_size_qwords) in
  let capacity := num_blocks [*] items_per_block in
  {| t_oram := oram; t_capacity := capacity; t_record_size_qwords := record_size_qwords;
     t_items_per_block := items_per_block; t_num_blocks := num_blocks;
     t_temp_record := replicate record_size_qwords 0; t_max_offset := 0; t_max_trace_length := 0;
     t_total_displacement := 0; t_num_items := 0; t_swap_buf := replicate record_size_qwords 0;
     t_capacity_ct := prep_ct_div capacity; t_items_per_block_ct := prep_ct_div items_per_block |}.

(** [ohtable_create]: production and the smaller table of tests and staging. *)
Definition ohtable_create (is_staging : bool) (record_size_qwords : nat) (e : entropy) :
    list error_t * ohtable main_oram * entropy :=
  let '(errs, o, e) := if is_staging then oram_create_depth16 e else oram_create_120G_16shards e in
  (errs, ohtable_create_on o (oram_capacity_blocks o) record_size_qwords, e).

Definition ohtable_hash {O} (t : ohtable O) (key : Z) : location :=
  hash_location key (t_capacity t) (t_items_per_block t) (t_capacity_ct t) (t_items_per_block_ct t).

Definition ohtable_hash_from_location {O} (t : ohtable O) (loc : location) : Z :=
  (loc_block_id loc [*] t_items_per_block t) [+] loc_index loc.

Definition ohtable_num_items {O} (t : ohtable O) : Z := t_num_items t.

Definition ohtable_mean_displacement {O} (t : ohtable O) : double :=
  ddiv (double_of_u64 (t_total_displacement t)) (double_of_u64 (t_num_items t)).

(** [0.98] as a binary64 number. *)
Definition full_ratio : double := SpecFloat.S754_finite false 8827055269646172 (-53).

Definition is_full {O} (t : ohtable O) : bool :=
  dgt (ddiv (double_of_u64 (t_num_items t)) (double_of_u64 (t_capacity t))) full_ratio.

Definition next_block (num_blocks block_id : Z) : Z :=
  U64_TERNARY (block_id [+] 1 =? num_blocks) 0 (block_id [+] 1).

Definition with_start_index (args : robinhood_accessor_args) (i : Z) : robinhood_accessor_args :=
  {| start_index := i; insert_complete := insert_complete args; in_record := in_record args;
     curr_jump := curr_jump args; curr_record_hash := curr_record_hash args;
     curr_slot_hash := curr_slot_hash args; trace := trace args;
     inserted_new_item := inserted_new_item args; args_max_offset := args_max_offset args;
     ohtable_capacity := ohtable_capacity args; args_capacity_ct := args_capacity_ct args |}.

Section Ops.
Context {RAM : Type} `{ObliviousRam RAM}.

(** The loop of [ohtable_put]: one ORAM access per block until the insertion is
    complete; [None] if [fuel] accesses do not complete it. *)
Fixpoint put_loop (fuel : nat) (num_blocks : Z) (o : RAM) (e : entropy) (block_id : Z)
    (args : robinhood_accessor_args) : option (error_t * robinhood_accessor_args * RAM * entropy) :=
  if insert_complete args then Some (err_SUCCESS, args, o, e)
  else
    match fuel with
    | O => None
    | S fuel =>
        let '(err, out, o, e) := ram_access (robinhood args) o e block_id in
        let args := default args out in
        if is_success err
        then put_loop fuel num_blocks o e (next_block num_blocks block_id) (with_start_index args 0)
        else Some (err, args, o, e)
    end.

Definition initial_args (t : ohtable RAM) (loc : location) (record : list Z) : robinhood_accessor_args :=
  let curr_record_hash := ohtable_hash_from_location t loc in
  {| start_index := loc_index loc; insert_complete := false; in_record := record; curr_jump := 0;
     curr_record_hash := curr_record_hash; curr_slot_hash := curr_record_hash; trace := 0;
     inserted_new_item := false; args_max_offset := 0; ohtable_capacity := t_capacity t;
     args_capacity_ct := t_capacity_ct t |}.

(** The table after the loop: the ORAM and the temporary record always, the
    counters only on success. *)
Definition after_put (t : ohtable RAM) (err : error_t) (args : robinhood_accessor_args) (o : RAM) : ohtable RAM :=
  {| t_oram := o; t_capacity := t_capacity t; t_record_size_qwords := t_record_size_qwords t;
     t_items_per_block := t_items_per_block t; t_num_blocks := t_num_blocks t;
     t_temp_record := in_record args;
     t_max_offset :=
       if is_success err then
         U64_TERNARY (args_max_offset args >? t_max_offset t) (args_max_offset args) (t_max_offset t)
       else t_max_offset t;
     t_max_trace_length :=
       if is_success err then
         U64_TERNARY (trace args >? t_max_trace_length t) (trace args) (t_max_trace_length t)
       else t_max_trace_length t;
     t_total_displacement :=
       if is_success err then t_total_displacement t [+] trace args else t_total_displacement t;
     t_num_items :=
       if is_success err then t_num_items t [+] U64_TERNARY (inserted_new_item args) 1 0 else t_num_items t;
     t_swap_buf := t_swap_buf t; t_capacity_ct := t_capacity_ct t;
     t_items_per_block_ct := t_items_per_block_ct t |}.

Definition ohtable_put (t : ohtable RAM) (e : entropy) (record : list Z) :
    option (error_t * ohtable RAM * entropy) :=
  if is_full t then Some (err_OHTABLE__TABLE_FULL, t, e)
  else
    let loc := ohtable_hash t (record_key record) in
    match put_loop (2 * Z.to_nat (t_num_blocks t)) (t_num_blocks t) (t_oram t) e (loc_block_id loc)
            (initial_args t loc (take (t_record_size_qwords t) record)) with
    | Some (err, args, o, e) => Some (err, after_put t err args o, e)
    | None => None
    end.

(** The loop of [ohtable_get]. *)
Fixpoint get_loop (blocks_to_scan : nat) (num_blocks : Z) (o : RAM) (e : entropy) (block_id : Z)
    (args : get_record_accessor_args) : error_t * get_record_accessor_args * RAM * entropy :=
  match blocks_to_scan with
  | O => (err_SUCCESS, args, o, e)
  | S blocks_to_scan =>
      let '(err, out, o, e) := ram_access (get_record args) o e block_id in
      let args := default args out in
      if is_success err
      then get_loop blocks_to_scan num_blocks o e (next_block num_blocks block_id)
             {| g_start_index := 0; search_complete := search_complete args;
                out_record := out_record args; g_key := g_key args |}
      else (err, args, o, e)
  end.

Definition with_oram (t : ohtable RAM) (o : RAM) : ohtable RAM :=
  {| t_oram := o; t_capacity := t_capacity t; t_record_size_qwords := t_record_size_qwords t;
     t_items_per_block := t_items_per_block t; t_num_blocks := t_num_blocks t;
     t_temp_record := t_temp_record t; t_max_offset := t_max_offset t;
     t_max_trace_length := t_max_trace_length t; t_total_displacement := t_total_displacement t;
     t_num_items := t_num_items t; t_swap_buf := t_swap_buf t; t_capacity_ct := t_capacity_ct t;
     t_items_per_block_ct := t_items_per_block_ct t |}.

Definition blocks_to_scan (t : ohtable RAM) : Z :=
  1 [+] ((t_max_offset t [+] t_items_per_block t) [-] 1) / t_items_per_block t.

(** [record] is the caller's buffer; the ORAM changes with every lookup. *)
Definition ohtable_get (t : ohtable RAM) (e : entropy) (key : Z) (record : list Z) :
    error_t * list Z * ohtable RAM * entropy :=
  let loc := ohtable_hash t key in
  let '(err, args, o, e) :=
    get_loop (Z.to_nat (blocks_to_scan t)) (t_num_blocks t) (t_oram t) e (loc_block_id loc)
      {| g_start_index := loc_index loc; search_complete := false; out_record := record; g_key := key |} in
  (err, out_record args, with_oram t o, e).

Definition ohtable_clear (t : ohtable RAM) : ohtable RAM :=
  {| t_oram := ram_clear (t_oram t); t_capacity := t_capacity t;
     t_record_size_qwords := t_record_size_qwords t; t_items_per_block := t_items_per_block t;
     t_num_blocks := t_num_blocks t; t_temp_record := t_temp_record t; t_max_offset := t_max_offset t;
     t_max_trace_length := 0; t_total_displacement := 0; t_num_items := 0; t_swap_buf := t_swap_buf t;
     t_capacity_ct := t_capacity_ct t; t_items_per_block_ct := t_items_per_block_ct t |}.
End Ops.

(** [ohtable_statistics_create]: the counters with those the ORAM reports. *)
Definition ohtable_statistics_create (t : ohtable main_oram) : ohtable_statistics * ohtable main_oram :=
  let o := main_report_statistics (t_oram t) in
  let s := o_statistics o in
  ({| os_max_trace_length := t_max_trace_length t; os_total_displacement := t_total_displacement t;
      os_num_items := t_num_items t; os_capacity := t_capacity t;
      os_oram_recursion_depth := recursion_depth s; os_oram_access_count := access_count s;
      os_stash_overflow_count := stash_overflow_count s;
      os_max_stash_overflow_count := max_stash_overflow_count s;
      os_sum_stash_overflow_count := sum_stash_overflow_count s;
      os_stash_overflow_ema10k := stash_overflow_ema10k s;
      os_posmap_stash_overflow_count := posmap_stash_overflow_count s;
      os_posmap_max_stash_overflow_count := posmap_max_stash_overflow_count s;
      os_posmap_sum_stash_overflow_count := posmap_sum_stash_overflow_count s;
      os_posmap_stash_overflow_ema10k := posmap_stash_overflow_ema10k s |},
   with_oram t o).
