(* ===== verification/RobinHood.v ===== *)
(** * Robin Hood probing on a flat table

    The invariant behind the hash table of [ohtable.jinc], on the table as one
    list of records: every record can be reached from the slot its key hashes
    to over occupied slots, and no record on that way would have given up its
    slot to it.  Positions are not reduced modulo the capacity while a probe
    runs past the end of the table, as in the accessor, so the displacement the
    accessor computes for an occupant there can be too large by the capacity;
    the invariant is stated with the computed displacement. *)

From S2P Require Import Prelude Errors Util Bucket OHTable.
Local Open Scope nat_scope.
#[local] Opaque raw_hash.

Section Table.
Context (N : nat).

(** The slot a key hashes to. *)
Definition home (k : Z) : nat := Z.to_nat (raw_hash k mod Z.of_nat N).

(** The slot of an unreduced position below [2 * N]. *)
Definition slot (u : nat) : nat := if u <? N then u else u - N.

(** The displacement computed for key [k] at unreduced position [u]. *)
Definition dist (h u : nat) : nat := if h <=? u then u - h else u + N - h.
Definition jump_at (k : Z) (u : nat) : nat := dist (home k) u.

(** A carried record with key [k] and displacement [j] takes the slot of an
    occupant with key [k'] at [u]. *)
Definition beats (j : nat) (k k' : Z) (u : nat) : bool :=
  ((jump_at k' u =? j) && (raw_hash k' <? raw_hash k)%Z) || (jump_at k' u <? j).

Definition occupied (r : list Z) : Prop := record_key r <> UINT64_MAX.

Definition path_ok (T : list (list Z)) (k : Z) (d : nat) : Prop :=
  forall i, i < d -> exists r, T !! slot (home k + i) = Some r /\ occupied r /\
    beats i k (record_key r) (home k + i) = false.

Record rh_inv (T : list (list Z)) : Prop := {
  ri_length : length T = N;
  ri_sizes : Forall (fun r => length r = RECORD_SIZE) T;
  ri_blank s r : T !! s = Some r -> record_key r = UINT64_MAX -> r = replicate RECORD_SIZE UINT64_MAX;
  ri_keys s s' r r' : T !! s = Some r -> T !! s' = Some r' -> occupied r ->
    record_key r = record_key r' -> s = s';
  ri_path s r : T !! s = Some r -> occupied r -> path_ok T (record_key r) (jump_at (record_key r) s);
}.

(** The invariant of a record that is being carried to its slot. *)
Record carry_inv (T : list (list Z)) (C : list Z) (j : nat) : Prop := {
  ci_size : length C = RECORD_SIZE;
  ci_key : occupied C;
  ci_jump : j < N;
  ci_path : path_ok T (record_key C) j;
  ci_ahead s r : T !! s = Some r -> record_key r = record_key C -> j <= jump_at (record_key C) s;
}.

Definition has_empty (T : list (list Z)) : Prop := exists s r, T !! s = Some r /\ record_key r = UINT64_MAX.

(** The records of the table, and the records after storing [C]. *)
Definition stored (T : list (list Z)) (r : list Z) : Prop := occupied r /\ r ∈ T.
Definition stored_with (T : list (list Z)) (C r : list Z) : Prop :=
  (stored T r /\ record_key r <> record_key C) \/ r = C.

Definition num_occupied (T : list (list Z)) : nat := countb (fun r => negb (record_empty r)) T.

Context (HN : 0 < N).

(** ** Positions *)

Lemma home_range k : home k < N.
Proof. unfold home. pose proof (Z.mod_pos_bound (raw_hash k) (Z.of_nat N)). lia. Qed.

Lemma slot_range u : u < 2 * N -> slot u < N.
Proof. unfold slot. destruct (Nat.ltb_spec u N); lia. Qed.

(** The same facts on numbers. *)
Lemma dist_displaced hc hr j : hc < N -> hr < N -> j < N -> dist hr (hc + j) <= j ->
  dist hr (hc + j) = dist hr (slot (hc + j)) /\ hr + dist hr (hc + j) = hc + j.
Proof.
  intros. unfold dist, slot in *.
  destruct (Nat.leb_spec hr (hc + j)); destruct (Nat.ltb_spec (hc + j) N); case_match; breflect; lia.
Qed.

Lemma dist_passable hc hr hk j i : hc < N -> hr < N -> hk < N -> j < N -> i < N ->
  slot (hk + i) = slot (hc + j) -> dist hr (hc + j) <= j ->
  dist hc (hk + i) = j /\ dist hr (hk + i) = dist hr (hc + j) \/ i < dist hc (hk + i).
Proof. intros. unfold dist, slot in *. repeat (case_match; breflect); lia. Qed.

Lemma jump_slot k s : s < N -> jump_at k s < N /\ slot (home k + jump_at k s) = s.
Proof.
  intros Hs. pose proof (home_range k). unfold jump_at, dist, slot. generalize dependent (home k). intros h ?.
  destruct (Nat.leb_spec h s); case_match; breflect; lia.
Qed.

Lemma jump_of_slot k i : i < N -> jump_at k (slot (home k + i)) = i.
Proof.
  intros Hi. pose proof (home_range k). unfold jump_at, dist, slot. generalize dependent (home k). intros h ?.
  destruct (Nat.ltb_spec (h + i) N); case_match; breflect; lia.
Qed.

Lemma jump_home k i : jump_at k (home k + i) = i.
Proof. unfold jump_at, dist. rewrite (proj2 (Nat.leb_le _ _)) by lia. lia. Qed.

Lemma slot_inj k i i' : i < N -> i' < N -> slot (home k + i) = slot (home k + i') -> i = i'.
Proof. intros Hi Hi' E. by rewrite <- (jump_of_slot k i), <- (jump_of_slot k i'), E by done. Qed.

Lemma beats_spec j k k' u : beats j k k' u = true <->
  jump_at k' u < j \/ (jump_at k' u = j /\ (raw_hash k' < raw_hash k)%Z).
Proof. unfold beats. rewrite orb_true_iff, andb_true_iff, Nat.eqb_eq, Nat.ltb_lt, Z.ltb_lt. tauto. Qed.

Lemma beats_false j k k' u : beats j k k' u = false <->
  j < jump_at k' u \/ (jump_at k' u = j /\ (raw_hash k <= raw_hash k')%Z).
Proof. rewrite <- not_true_iff_false, beats_spec. lia. Qed.

(** With an empty slot left no probe can go around the table. *)
Lemma path_lt T k j : length T = N -> has_empty T -> path_ok T k j -> j <= N -> j < N.
Proof.
  intros Hl (s & r & Hs & Hr) Hp Hj. destruct (decide (j = N)) as [->|]; [exfalso|lia].
  pose proof (lookup_lt_Some _ _ _ Hs) as Hlt. destruct (jump_slot k s ltac:(lia)) as [Hjs Hss].
  destruct (Hp (jump_at k s) Hjs) as (r' & Hr' & Ho & _). rewrite Hss in Hr'.
  unfold occupied in Ho. congruence.
Qed.

(** ** One step of a probe *)

Section Step.
Context (T : list (list Z)) (C R : list Z) (j : nat).
Context (HT : rh_inv T) (HC : carry_inv T C j).
Let u := home (record_key C) + j.
Let s := slot u.
Context (HR : T !! s = Some R).

Lemma position_range : u < 2 * N.
Proof. unfold u. pose proof (home_range (record_key C)). pose proof (ci_jump _ _ _ HC). lia. Qed.

(** The occupant that gives way is carried on from its true displacement. *)
Lemma displaced_jump : beats j (record_key C) (record_key R) u = true ->
  jump_at (record_key R) u = jump_at (record_key R) s /\ home (record_key R) + jump_at (record_key R) u = u.
Proof.
  rewrite beats_spec. intros Hb. apply dist_displaced; [apply home_range..|apply HC|]. unfold jump_at, u in Hb. lia.
Qed.

(** A record that can take the slot is not in the table already. *)
Lemma beats_not_present : beats j (record_key C) (record_key R) u = true ->
  forall s' r, T !! s' = Some r -> record_key r <> record_key C.
Proof.
  intros Hb s' r Hr E. pose proof (ci_ahead _ _ _ HC s' r Hr E) as Hj.
  pose proof (lookup_lt_Some _ _ _ Hr) as Hlt. rewrite (ri_length _ HT) in Hlt.
  destruct (decide (j = jump_at (record_key C) s')) as [->|].
  - pose proof (proj2 (jump_slot (record_key C) s' Hlt)) as Hs. unfold s, u in HR. rewrite Hs in HR.
    assert (r = R) as -> by congruence. rewrite beats_spec, E in Hb. unfold u in Hb.
    rewrite jump_home in Hb. lia.
  - assert (Ho : occupied r) by (unfold occupied; rewrite E; apply (ci_key _ _ _ HC)).
    destruct (ri_path _ HT s' r Hr Ho j) as (r' & Hr' & _ & Hb'); [rewrite E; lia|].
    rewrite E in Hr', Hb'. change (slot (home (record_key C) + j)) with s in Hr'.
    assert (r' = R) as -> by congruence. unfold u in Hb. congruence.
Qed.

Lemma empty_not_present : record_key R = UINT64_MAX ->
  forall s' r, T !! s' = Some r -> record_key r <> record_key C.
Proof.
  intros He s' r Hr E. pose proof (ci_ahead _ _ _ HC s' r Hr E) as Hj.
  pose proof (lookup_lt_Some _ _ _ Hr) as Hlt. rewrite (ri_length _ HT) in Hlt.
  assert (Ho : occupied r) by (unfold occupied; rewrite E; apply (ci_key _ _ _ HC)).
  destruct (decide (j = jump_at (record_key C) s')) as [->|].
  - pose proof (proj2 (jump_slot (record_key C) s' Hlt)) as Hs. unfold s, u in HR. rewrite Hs in HR.
    unfold occupied in Ho. congruence.
  - destruct (ri_path _ HT s' r Hr Ho j) as (r' & Hr' & Ho' & _); [rewrite E; lia|].
    rewrite E in Hr'. change (slot (home (record_key C) + j)) with s in Hr'.
    unfold occupied in Ho'. congruence.
Qed.

(** Putting [C] into the slot keeps the ways of the other records intact. *)
Definition passable : Prop := forall k i, i < N -> slot (home k + i) = s -> occupied R ->
  beats i k (record_key R) (home k + i) = false -> beats i k (record_key C) (home k + i) = false.

Lemma passable_beats : beats j (record_key C) (record_key R) u = true -> passable.
Proof.
  rewrite beats_spec. intros Hb k i Hi Hs _. rewrite !beats_false.
  destruct (dist_passable (home (record_key C)) (home (record_key R)) (home k) j i) as [[H1 H2]|H1];
    [apply home_range..|apply HC|done|done|unfold jump_at, u in Hb; lia| |];
    unfold jump_at, u in *; lia.
Qed.

Lemma path_ok_insert k d : passable -> path_ok T k d -> d <= N -> path_ok (<[s := C]> T) k d.
Proof.
  intros Hpass Hp Hd i Hi. destruct (Hp i Hi) as (r & Hr & Ho & Hb).
  destruct (decide (slot (home k + i) = s)) as [E|E].
  - exists C. rewrite E in Hr |- *. assert (r = R) as -> by congruence.
    rewrite list_lookup_insert_eq by (by eapply lookup_lt_Some). split_and!; [done|apply (ci_key _ _ _ HC)|].
    apply Hpass; (done || lia).
  - exists r. by rewrite list_lookup_insert_ne.
Qed.

Lemma insert_inv : passable ->
  (forall s' r, T !! s' = Some r -> s' <> s -> record_key r <> record_key C) -> rh_inv (<[s := C]> T).
Proof.
  intros Hpass Hnew. pose proof (lookup_lt_Some _ _ _ HR) as Hs.
  assert (Hjs : forall k, s < N -> jump_at k s <= N) by (intros k Hk; pose proof (jump_slot k s Hk); lia).
  constructor.
  - rewrite length_insert. apply HT.
  - apply Forall_insert; [apply HT|apply HC].
  - intros s1 r1 H1 Hk. apply list_lookup_insert_Some in H1 as [(<- & <- & _)|[Hn1 H1]].
    + exfalso. by apply (ci_key _ _ _ HC).
    + by apply (ri_blank _ HT s1).
  - intros s1 s2 r1 r2 H1 H2 Ho Ek.
    apply list_lookup_insert_Some in H1 as [(<- & <- & _)|[Hn1 H1]];
      apply list_lookup_insert_Some in H2 as [(<- & <- & _)|[Hn2 H2]]; [done| | |].
    + exfalso. by apply (Hnew s2 r2 H2).
    + exfalso. by apply (Hnew s1 r1 H1).
    + by apply (ri_keys _ HT s1 s2 r1 r2).
  - intros s1 r1 H1 Ho. apply list_lookup_insert_Some in H1 as [(<- & <- & _)|[Hn1 H1]].
    + assert (Hj : jump_at (record_key C) s = j) by (apply jump_of_slot, HC). rewrite Hj.
      intros i Hi. destruct (ci_path _ _ _ HC i Hi) as (r & Hr & Hro & Hb). exists r. split_and!; [|done|done].
      rewrite list_lookup_insert_ne; [done|]. unfold s, u. intros E.
      apply slot_inj in E; [lia|apply HC|]. pose proof (ci_jump _ _ _ HC). lia.
    + pose proof (lookup_lt_Some _ _ _ H1) as Hs1. rewrite (ri_length _ HT) in Hs1.
      apply path_ok_insert; [done|by apply (ri_path _ HT s1)|]. pose proof (jump_slot (record_key r1) s1 Hs1). lia.
Qed.

(** After a swap the displaced record is carried on from the next slot. *)
Lemma swap_carry : has_empty T -> beats j (record_key C) (record_key R) u = true -> occupied R ->
  carry_inv (<[s := C]> T) R (S (jump_at (record_key R) u)).
Proof.
  intros He Hb Ho. pose proof (displaced_jump Hb) as [Hj Hu]. pose proof (passable_beats Hb) as Hpass.
  pose proof (lookup_lt_Some _ _ _ HR) as Hs. rewrite (ri_length _ HT) in Hs.
  pose proof (proj1 (jump_slot (record_key R) s Hs)) as Hjn.
  assert (Hp : path_ok (<[s := C]> T) (record_key R) (S (jump_at (record_key R) u))).
  { intros i Hi. destruct (decide (i = jump_at (record_key R) u)) as [->|].
    - rewrite Hu. exists C. fold s. rewrite list_lookup_insert_eq by (by eapply lookup_lt_Some).
      split_and!; [done|apply HC|]. rewrite beats_false. rewrite beats_spec in Hb.
      assert (jump_at (record_key C) u = j) as -> by apply jump_home. lia.
    - apply (path_ok_insert _ (jump_at (record_key R) u)); [done| |lia|lia].
      rewrite Hj. by apply (ri_path _ HT s R). }
  constructor; [|done| |done|].
  - by apply (proj1 (Forall_lookup _ _) (ri_sizes _ HT) s R).
  - apply (path_lt (<[s := C]> T) (record_key R)); [rewrite length_insert; apply HT| |done|lia].
    destruct He as (s' & r & Hr & Hk). exists s', r. split; [|done]. rewrite list_lookup_insert_ne; [done|].
    intros <-. unfold occupied in Ho. congruence.
  - intros s' r Hr E. apply list_lookup_insert_Some in Hr as [(<- & <- & _)|[Hn Hr]].
    + exfalso. apply (beats_not_present Hb s R HR). done.
    + exfalso. apply Hn. by apply (ri_keys _ HT s s' R r).
Qed.

(** A record that does not take the slot is carried past it. *)
Lemma skip_carry : has_empty T -> record_empty_or_matches R (record_key C) = false ->
  beats j (record_key C) (record_key R) u = false -> carry_inv T C (S j).
Proof.
  intros He Hm Hb. apply orb_false_iff in Hm as [Hm1 Hm2]. breflect.
  assert (Hp : path_ok T (record_key C) (S j)).
  { intros i Hi. destruct (decide (i = j)) as [->|]; [|apply HC; lia]. exists R. fold u s. done. }
  constructor; [apply HC|apply HC| |done|].
  - apply (path_lt T (record_key C)); [apply HT|done|done|]. pose proof (ci_jump _ _ _ HC). lia.
  - intros s' r Hr E. pose proof (ci_ahead _ _ _ HC s' r Hr E) as Hj.
    destruct (decide (j = jump_at (record_key C) s')) as [Ej|]; [exfalso|lia].
    pose proof (lookup_lt_Some _ _ _ Hr) as Hlt. rewrite (ri_length _ HT) in Hlt.
    pose proof (proj2 (jump_slot (record_key C) s' Hlt)) as Hs. rewrite <- Ej in Hs. fold u s in Hs.
    subst s'. congruence.
Qed.

(** What the table holds after a store or a swap. *)
Lemma elem_insert r : r ∈ <[s := C]> T <-> r = C \/ exists s', s' <> s /\ T !! s' = Some r.
Proof.
  pose proof (lookup_lt_Some _ _ _ HR) as Hs. rewrite list_elem_of_lookup. split.
  - intros [s' H]. apply list_lookup_insert_Some in H as [(<- & <- & _)|[Hn H]]; [by left|right; eauto].
  - intros [->|(s' & Hn & H)]; [exists s; by rewrite list_lookup_insert_eq|].
    exists s'. by rewrite list_lookup_insert_ne.
Qed.

Lemma store_stored : record_empty_or_matches R (record_key C) = true ->
  (forall s' r, T !! s' = Some r -> s' <> s -> record_key r <> record_key C) ->
  forall r, stored (<[s := C]> T) r <-> stored_with T C r.
Proof.
  intros Hm Hnew r. unfold stored_with, stored. rewrite elem_insert. split.
  - intros [Ho [->|(s' & Hn & H)]]; [by right|left]. split; [split; [done|by eapply list_elem_of_lookup_2]|].
    by apply (Hnew s').
  - intros [[[Ho Hin] Hk]| ->]; [|split; [apply HC|by left]]. split; [done|right].
    apply list_elem_of_lookup in Hin as [s' H]. exists s'. split; [|done]. intros ->.
    assert (r = R) as -> by congruence. unfold record_empty_or_matches in Hm. unfold occupied in Ho.
    rewrite orb_true_iff, !Z.eqb_eq in Hm. tauto.
Qed.

Lemma swap_stored : beats j (record_key C) (record_key R) u = true -> occupied R ->
  record_key R <> record_key C ->
  forall r, stored_with (<[s := C]> T) R r <-> stored_with T C r.
Proof.
  intros Hb Ho Hne r. unfold stored_with, stored. rewrite elem_insert. split.
  - intros [[[Hor [->|(s' & Hn & H)]] Hk]| ->].
    + by right.
    + left. split; [split; [done|by eapply list_elem_of_lookup_2]|]. by apply (beats_not_present Hb s').
    + left. split; [split; [done|by eapply list_elem_of_lookup_2]|done].
  - intros [[[Hor Hin] Hk]| ->].
    + apply list_elem_of_lookup in Hin as [s' H]. destruct (decide (s' = s)) as [->|Hn].
      * right. congruence.
      * left. split; [split; [done|right; eauto]|]. intros E. apply Hn. by apply (ri_keys _ HT s' s r R).
    + left. split; [split; [apply HC|by left]|done].
Qed.

Lemma num_occupied_insert :
  num_occupied (<[s := C]> T) = num_occupied T + (if record_empty R then 1 else 0).
Proof.
  unfold num_occupied. pose proof (countb_insert (fun r => negb (record_empty r)) T s R C HR) as Hc.
  assert (record_empty C = false) as HeC by (apply Z.eqb_neq, HC). cbn beta in Hc. rewrite HeC in Hc.
  destruct (record_empty R); simpl in *; lia.
Qed.
End Step.

(** ** The accessor's state along a probe *)

Context (HN2 : (2 <= Z.of_nat N <= 2 ^ 62)%Z).

Lemma raw_hash_range k : is_u64 (raw_hash k).
Proof. Transparent raw_hash. unfold raw_hash. cbn [seq fold_left]. apply mul64_range. Qed.
#[local] Opaque raw_hash.

Lemma candidate_hash_spec k :
  ct_mod (raw_hash k) (Z.of_nat N) (prep_ct_div (Z.of_nat N)) = Z.of_nat (home k).
Proof.
  rewrite ct_mod_spec by (apply raw_hash_range || lia). unfold home.
  pose proof (Z.mod_pos_bound (raw_hash k) (Z.of_nat N)). lia.
Qed.

Lemma candidate_jump_spec k u : u < 2 * N ->
  distance_to_hash (Z.of_nat N) (Z.of_nat (home k)) (Z.of_nat u) = Z.of_nat (jump_at k u).
Proof.
  intros Hu. pose proof (home_range k). unfold distance_to_hash, jump_at, dist.
  destruct (Z.ltb_spec (Z.of_nat u) (Z.of_nat (home k))); case_match; breflect; try lia.
  - unfold add64, sub64, wrap64. rewrite Zplus_mod_idemp_l, Z.mod_small; lia.
  - rewrite sub64_small by lia. lia.
Qed.

(** The insertion of [C0] into [T0] has reached position [u]; the table is now
    [T].  [inserted] is the accessor's flag for the current block. *)
Record running (T0 : list (list Z)) (C0 : list Z) (T : list (list Z)) (args : robinhood_accessor_args)
    (inserted : bool) (u : nat) : Prop := {
  ru_capacity : ohtable_capacity args = Z.of_nat N /\ args_capacity_ct args = prep_ct_div (Z.of_nat N);
  ru_incomplete : insert_complete args = false;
  ru_position : curr_slot_hash args = Z.of_nat u;
  ru_jump : exists j, curr_jump args = Z.of_nat j /\ u = home (record_key (in_record args)) + j /\
    carry_inv T (in_record args) j;
  ru_table : rh_inv T /\ has_empty T;
  ru_stored r : stored_with T (in_record args) r <-> stored_with T0 C0 r;
  ru_count : num_occupied T = num_occupied T0;
  ru_offset : (0 <= args_max_offset args < Z.of_nat N)%Z;
  ru_inserted : inserted = true -> inserted_new_item args = true;
  ru_new : if inserted_new_item args
    then (forall r, r ∈ T0 -> record_key r <> record_key C0) /\
         (forall r, r ∈ T -> record_key r <> record_key (in_record args))
    else T = T0 /\ in_record args = C0;
}.

(** The insertion is complete. *)
Record finished (T0 : list (list Z)) (C0 : list Z) (T : list (list Z)) (args : robinhood_accessor_args) : Prop := {
  fi_complete : insert_complete args = true;
  fi_table : rh_inv T;
  fi_stored r : stored T r <-> stored_with T0 C0 r;
  fi_count : num_occupied T = num_occupied T0 + (if inserted_new_item args then 1 else 0);
  fi_offset : (0 <= args_max_offset args < Z.of_nat N)%Z;
  fi_new : inserted_new_item args = true <-> forall r, r ∈ T0 -> record_key r <> record_key C0;
}.

Section Visit.
Context (T0 T : list (list Z)) (C0 : list Z) (args : robinhood_accessor_args) (inserted : bool) (u : nat).
Context (Hrun : running T0 C0 T args inserted u) (R : list Z) (HR : T !! slot u = Some R).
Let C := in_record args.

(** The three branches of the accessor at one slot. *)
Lemma robinhood_slot_eq :
  let store := record_empty_or_matches R (record_key C) in
  let j := Z.to_nat (curr_jump args) in
  let swap := negb store && beats j (record_key C) (record_key R) u in
  let '(args', inserted', slot') := robinhood_slot true R args inserted in
  slot' = (if store || swap then C else R) /\
  insert_complete args' = store /\
  in_record args' = (if swap then R else C) /\
  curr_slot_hash args' = Z.of_nat (S u) /\
  curr_jump args' = Z.of_nat ((if swap then jump_at (record_key R) u else j) + (if store then 0 else 1)) /\
  inserted_new_item args' = inserted_new_item args || (((record_empty R && store) || swap) && negb inserted) /\
  inserted' = inserted || store || swap /\
  (0 <= args_max_offset args' < Z.of_nat N)%Z /\
  ohtable_capacity args' = ohtable_capacity args /\ args_capacity_ct args' = args_capacity_ct args.
Proof.
  destruct Hrun as [[Hc1 Hc2] Hinc Hpos (j & Hj & Hu & HC) [HT He] _ _ Hoff _ _].
  pose proof (ci_jump _ _ _ HC). pose proof (home_range (record_key (in_record args))).
  intros store j' swap. assert (Ej : j' = j) by (unfold j'; rewrite Hj; apply Nat2Z.id).
  assert (Esw : swap = negb store && beats j (record_key C) (record_key R) u) by (unfold swap; by rewrite Ej).
  clearbody swap j'. subst j'. unfold robinhood_slot. rewrite Hc1, Hc2, Hinc, Hpos, candidate_hash_spec, Hj.
  rewrite candidate_jump_spec by lia. fold C.
  change (record_empty_or_matches R (record_key C)) with store. rewrite !andb_true_r.
  assert (Hb : ((Z.of_nat (jump_at (record_key R) u) =? Z.of_nat j)%Z &&
      (raw_hash (record_key R) <? raw_hash (record_key C))%Z) ||
      (Z.of_nat (jump_at (record_key R) u) <? Z.of_nat j)%Z = beats j (record_key C) (record_key R) u).
  { unfold beats. rewrite (Z.eqb_compare), (Z.ltb_compare (Z.of_nat _)), !Nat2Z.inj_compare.
    by rewrite Nat.eqb_compare, Nat.ltb_compare. }
  cbv zeta. rewrite Hb, <- Esw.
  assert (Hjr : swap = true -> jump_at (record_key R) u < N).
  { rewrite Esw. intros [_ Hs]%andb_prop. rewrite beats_spec in Hs. lia. }
  clear Hb. destruct store eqn:Es, swap; try discriminate;
    cbn [negb andb orb insert_complete in_record curr_slot_hash curr_jump inserted_new_item
      args_max_offset ohtable_capacity args_capacity_ct];
    rewrite ?add64_small by (unfold is_u64; try (specialize (Hjr eq_refl)); lia);
    split_and!; try done; try lia; try (case_match; lia); by rewrite ?orb_true_r, ?orb_false_r.
Qed.

Lemma run_carry : exists j, curr_jump args = Z.of_nat j /\ u = home (record_key C) + j /\ carry_inv T C j /\
  T !! slot (home (record_key C) + j) = Some R.
Proof. destruct Hrun as [_ _ _ (j & Hj & Hu & HC) _ _ _ _ _ _]. exists j. unfold C. by rewrite <- Hu. Qed.

(** Whether the store creates a record. *)
Lemma store_new : record_empty_or_matches R (record_key C) = true ->
  inserted_new_item args || (record_empty R && negb inserted) = record_empty R /\
  (record_empty R = true <-> forall r, r ∈ T0 -> record_key r <> record_key C0).
Proof.
  intros Em. destruct run_carry as (j & _ & _ & HC & HR'). destruct Hrun as [_ _ _ _ [HT _] _ _ _ Hins Hnew].
  assert (HRT : R ∈ T) by (by eapply list_elem_of_lookup_2).
  unfold record_empty_or_matches in Em. fold (record_empty R) in Em. fold C in Hnew.
  destruct (inserted_new_item args).
  - destruct Hnew as [H0 H1]. apply orb_true_iff in Em as [Em|Em]; [by rewrite Em|].
    breflect. by elim (H1 R HRT).
  - destruct Hnew as [<- <-]. destruct inserted; [by specialize (Hins eq_refl)|].
    rewrite andb_true_r, orb_false_l. split; [done|]. destruct (record_empty R) eqn:Er.
    + split; [|done]. intros _ r Hr. apply list_elem_of_lookup in Hr as [s' Hr].
      apply (empty_not_present T C R j HT HC HR') with s'; [by apply Z.eqb_eq|done].
    + split; [done|]. intros Hall. rewrite orb_false_l in Em. breflect. by elim (Hall R HRT).
Qed.

Lemma store_finishes args' : record_empty_or_matches R (record_key C) = true ->
  insert_complete args' = true -> (0 <= args_max_offset args' < Z.of_nat N)%Z ->
  inserted_new_item args' = inserted_new_item args || (record_empty R && negb inserted) ->
  finished T0 C0 (<[slot u := C]> T) args'.
Proof.
  intros Em Hcomp Hoff Hn. destruct (store_new Em) as [Hn' Hiff]. rewrite Hn' in Hn.
  destruct run_carry as (j & _ & -> & HC & HR'). destruct Hrun as [_ _ _ _ [HT _] Hst Hcount _ _ _].
  assert (Hother : forall s' r, T !! s' = Some r -> s' <> slot (home (record_key C) + j) -> record_key r <> record_key C).
  { intros s' r Hr Hs Ek. unfold record_empty_or_matches in Em. rewrite orb_true_iff, !Z.eqb_eq in Em.
    destruct Em as [Em|Em]; [by apply (empty_not_present T C R j HT HC HR' Em s' r)|].
    apply Hs, (ri_keys _ HT s' _ r R); [done|done| |congruence].
    unfold occupied. rewrite Ek. apply HC. }
  constructor; [done| | | |done|by rewrite Hn].
  - apply (insert_inv T C R j HT HC HR'); [|done].
    intros k i Hi Hs Ho Hb. unfold record_empty_or_matches in Em. rewrite orb_true_iff, !Z.eqb_eq in Em.
    destruct Em as [Em|Em]; [by elim Ho|]. by rewrite <- Em.
  - intros r. rewrite <- Hst. by apply (store_stored T C R j HC HR').
  - by rewrite (num_occupied_insert T C R j HC HR'), Hcount, Hn.
Qed.

Lemma swap_new : beats (Z.to_nat (curr_jump args)) (record_key C) (record_key R) u = true ->
  record_empty_or_matches R (record_key C) = false ->
  inserted_new_item args || negb inserted = true /\
  (forall r, r ∈ T0 -> record_key r <> record_key C0) /\
  (forall r, r ∈ <[slot u := C]> T -> record_key r <> record_key R).
Proof.
  intros Hb Em. destruct run_carry as (j & Hj & -> & HC & HR'). rewrite Hj, Nat2Z.id in Hb.
  destruct Hrun as [_ _ _ _ [HT _] _ _ _ Hins Hnew]. fold C in Hnew.
  apply orb_false_iff in Em as [Em1 Em2]. breflect. split_and!.
  - destruct inserted; [by rewrite Hins|by rewrite orb_true_r].
  - destruct (inserted_new_item args); [by apply Hnew|]. destruct Hnew as [<- <-].
    intros r [s' Hr]%list_elem_of_lookup. by apply (beats_not_present T C R j HT HC HR' Hb s').
  - intros r. rewrite (elem_insert T C R j HR'). intros [->|(s' & Hn & Hr)] E; [congruence|].
    apply Hn. apply (ri_keys _ HT s' _ r R Hr HR'); [|done]. unfold occupied. by rewrite E.
Qed.

Lemma swap_continues args' inserted' :
  beats (Z.to_nat (curr_jump args)) (record_key C) (record_key R) u = true ->
  record_empty_or_matches R (record_key C) = false ->
  insert_complete args' = false -> in_record args' = R -> curr_slot_hash args' = Z.of_nat (S u) ->
  curr_jump args' = Z.of_nat (S (jump_at (record_key R) u)) ->
  inserted_new_item args' = inserted_new_item args || negb inserted ->
  (0 <= args_max_offset args' < Z.of_nat N)%Z ->
  ohtable_capacity args' = ohtable_capacity args -> args_capacity_ct args' = args_capacity_ct args ->
  running T0 C0 (<[slot u := C]> T) args' inserted' (S u).
Proof.
  intros Hb Em Hcomp Hin Hsl Hjmp Hn Hoff Hc1 Hc2. destruct (swap_new Hb Em) as (Hn' & H0 & H1). rewrite Hn' in Hn. clear Hn'.
  destruct run_carry as (j & Hj & Hu & HC & HR'). rewrite Hj, Nat2Z.id in Hb. rewrite Hu in Hb, Hjmp, H1 |- *.
  pose proof Hrun as [Hc _ _ _ [HT He] Hst Hcount _ _ _]. fold C in Hst.
  apply orb_false_iff in Em as [Em1 Em2]. breflect. assert (Ho : occupied R) by done.
  pose proof (displaced_jump T C R j HC Hb) as [_ Hpos].
  constructor; [by rewrite Hc1, Hc2|done|by rewrite Hsl, Hu| | | | |done|done|by rewrite Hn, Hin].
  - rewrite Hin. exists (S (jump_at (record_key R) (home (record_key C) + j))).
    split_and!; [done|lia|]. by apply swap_carry.
  - split.
    + apply (insert_inv T C R j HT HC HR'); [by apply (passable_beats T C R j HC)|].
      intros s' r Hr _. by apply (beats_not_present T C R j HT HC HR' Hb s').
    + destruct He as (s' & r & Hr & Hk). exists s', r. split; [|done]. rewrite list_lookup_insert_ne; [done|].
      intros <-. unfold occupied in Ho. congruence.
  - intros r. rewrite Hin, <- Hst. by apply (swap_stored T C R j HT HC HR').
  - rewrite (num_occupied_insert T C R j HC HR'), Hcount. unfold record_empty.
    rewrite (proj2 (Z.eqb_neq _ _)) by done. lia.
Qed.

Lemma skip_continues args' inserted' :
  beats (Z.to_nat (curr_jump args)) (record_key C) (record_key R) u = false ->
  record_empty_or_matches R (record_key C) = false ->
  insert_complete args' = false -> in_record args' = C -> curr_slot_hash args' = Z.of_nat (S u) ->
  curr_jump args' = Z.of_nat (S (Z.to_nat (curr_jump args))) -> inserted' = inserted ->
  inserted_new_item args' = inserted_new_item args ->
  (0 <= args_max_offset args' < Z.of_nat N)%Z ->
  ohtable_capacity args' = ohtable_capacity args -> args_capacity_ct args' = args_capacity_ct args ->
  running T0 C0 (<[slot u := R]> T) args' inserted' (S u).
Proof.
  intros Hb Em Hcomp Hin Hsl Hjmp -> Hn Hoff Hc1 Hc2. rewrite (list_insert_id _ _ _ HR).
  destruct run_carry as (j & Hj & Hu & HC & HR'). rewrite Hj, Nat2Z.id in Hb, Hjmp. rewrite Hu in Hb.
  pose proof Hrun as [Hc _ _ _ [HT He] Hst Hcount _ Hins Hnew]. fold C in Hst, Hnew.
  constructor; [by rewrite Hc1, Hc2|done|done| |done|by rewrite Hin|done|done|by rewrite Hn|by rewrite Hn, Hin].
  rewrite Hin. exists (S j). split_and!; [done|lia|]. by apply (skip_carry T C R j).
Qed.

(** One slot further, or done. *)
Lemma visit_step args' inserted' R' : robinhood_slot true R args inserted = (args', inserted', R') ->
  running T0 C0 (<[slot u := R']> T) args' inserted' (S u) \/ finished T0 C0 (<[slot u := R']> T) args'.
Proof.
  intros E. pose proof robinhood_slot_eq as Heq. rewrite E in Heq. cbv zeta in Heq.
  destruct (record_empty_or_matches R (record_key C)) eqn:Em.
  { destruct Heq as (-> & Hcomp & _ & _ & _ & Hn & _ & Hoff & _). right. simpl in Hn |- *.
    rewrite orb_false_r, andb_true_r in Hn. by apply store_finishes. }
  left. destruct (beats (Z.to_nat (curr_jump args)) (record_key C) (record_key R) u) eqn:Eb;
    destruct Heq as (-> & Hcomp & Hin & Hsl & Hjmp & Hn & Hi & Hoff & Hc1 & Hc2); cbn [negb andb orb] in *;
    rewrite ?Nat.add_1_r, ?andb_false_r, ?orb_true_r, ?orb_false_r in *.
  - by apply swap_continues.
  - by apply skip_continues.
Qed.
End Visit.

(** Once the insertion is complete the remaining slots are left alone. *)
Lemma finished_step started T0 C0 T args inserted R args' inserted' R' :
  finished T0 C0 T args -> robinhood_slot started R args inserted = (args', inserted', R') ->
  R' = R /\ finished T0 C0 T args' /\ start_index args' = start_index args.
Proof.
  intros [Hc HT Hst Hcount Hoff Hnew]. unfold robinhood_slot. rewrite Hc, !andb_false_r. simpl.
  intros [= <- <- <-]. split_and!; [done| |done].
  constructor; simpl; rewrite ?andb_false_r, ?orb_false_r; done.
Qed.

(** Slots before the start index are left alone as well. *)
Lemma waiting_step T0 C0 T args inserted u R args' inserted' R' :
  running T0 C0 T args inserted u -> robinhood_slot false R args inserted = (args', inserted', R') ->
  R' = R /\ running T0 C0 T args' inserted' u /\ start_index args' = start_index args.
Proof.
  intros [[Hc1 Hc2] Hinc Hpos (j & Hj & Hu & HC) HT Hst Hcount Hoff Hins Hnew]. unfold robinhood_slot.
  rewrite !andb_false_r. simpl. intros [= <- <- <-].
  pose proof (ci_jump _ _ _ HC). pose proof (home_range (record_key (in_record args))).
  split_and!; [done| |done]. rewrite !orb_false_r.
  constructor; simpl; rewrite ?orb_false_r, ?andb_false_r, ?orb_false_r; try done.
  - rewrite Hpos, add64_small by lia. lia.
  - exists j. split_and!; [|done|done]. rewrite Hj, add64_small by lia. lia.
Qed.

Lemma running_start T C args :
  rh_inv T -> has_empty T -> length C = RECORD_SIZE -> occupied C ->
  ohtable_capacity args = Z.of_nat N -> args_capacity_ct args = prep_ct_div (Z.of_nat N) ->
  insert_complete args = false -> in_record args = C -> curr_jump args = 0%Z ->
  curr_slot_hash args = Z.of_nat (home (record_key C)) -> inserted_new_item args = false ->
  args_max_offset args = 0%Z ->
  running T C T args false (home (record_key C)).
Proof.
  intros HT He Hl Ho H1 H2 H3 H4 H5 H6 H7 H8. constructor; rewrite ?H4, ?H7, ?H8; try done; [|lia].
  exists 0. split_and!; [done|lia|]. constructor; [done|done|lia| |lia]. intros i Hi. lia.
Qed.
End Table.
