(* ===== verification/OHTableSpec.v ===== *)
(** * The hash table implements a map

    The table of [OHTable] over any ORAM that satisfies [ObliviousRamSpec]:
    the records of its blocks form one flat table for which the invariant of
    [RobinHood] holds; a put that reports success stores its record under the
    key and no other, the insertion loop ends, and a get returns the record of
    the key. *)

From S2P Require Import Prelude Errors Util Bucket PositionMap Statistics PathOram PathOramSpec OramInterface OHTable RobinHood.
Local Open Scope nat_scope.
#[local] Opaque raw_hash.

(** ** Records of a block *)

Lemma records_per_block_eq : records_per_block = 24.
Proof. done. Qed.

Lemma block_words : BLOCK_DATA_SIZE_QWORDS = 24 * RECORD_SIZE.
Proof. done. Qed.

Lemma record_at_lookup bd i k : k < RECORD_SIZE -> record_at bd i !! k = bd !! (i * RECORD_SIZE + k).
Proof. intros Hk. unfold record_at. by rewrite lookup_take_lt, lookup_drop by done. Qed.

Lemma record_at_length bd i : length bd = BLOCK_DATA_SIZE_QWORDS -> i < 24 -> length (record_at bd i) = RECORD_SIZE.
Proof.
  intros Hl Hi. unfold record_at. rewrite length_take, length_drop, Hl, block_words. unfold RECORD_SIZE. lia.
Qed.

Lemma set_record_length bd i r : length bd = BLOCK_DATA_SIZE_QWORDS -> i < 24 -> length r = RECORD_SIZE ->
  length (set_record bd i r) = BLOCK_DATA_SIZE_QWORDS.
Proof.
  intros Hl Hi Hr. unfold set_record. rewrite !length_app, length_take, length_drop, Hl, Hr, block_words.
  unfold RECORD_SIZE. lia.
Qed.

Lemma record_at_set_eq bd i r : length bd = BLOCK_DATA_SIZE_QWORDS -> i < 24 -> length r = RECORD_SIZE ->
  record_at (set_record bd i r) i = r.
Proof.
  intros Hl Hi Hr. unfold record_at, set_record.
  rewrite drop_app_length' by (rewrite length_take, Hl, block_words; unfold RECORD_SIZE; lia).
  by rewrite take_app_length'.
Qed.

Lemma record_at_set_ne bd i m r : length bd = BLOCK_DATA_SIZE_QWORDS -> i < 24 -> length r = RECORD_SIZE ->
  m <> i -> record_at (set_record bd i r) m = record_at bd m.
Proof.
  intros Hl Hi Hr Hne. apply list_eq. intros k.
  destruct (decide (k < RECORD_SIZE)) as [Hk|Hk].
  2:{ unfold record_at. by rewrite !lookup_take_ge by lia. }
  rewrite !record_at_lookup by done. unfold set_record.
  assert (Htl : length (take (i * RECORD_SIZE) bd) = i * RECORD_SIZE).
  { rewrite length_take, Hl, block_words. unfold RECORD_SIZE. lia. }
  destruct (decide (m < i)).
  - rewrite lookup_app_l by (rewrite Htl; unfold RECORD_SIZE in *; lia). apply lookup_take_lt.
    unfold RECORD_SIZE in *. lia.
  - rewrite lookup_app_r by (rewrite Htl; unfold RECORD_SIZE in *; lia). rewrite Htl.
    rewrite lookup_app_r by (rewrite Hr; unfold RECORD_SIZE in *; lia). rewrite Hr, lookup_drop.
    f_equal. unfold RECORD_SIZE in *. lia.
Qed.

Lemma set_record_id bd i : length bd = BLOCK_DATA_SIZE_QWORDS -> i < 24 -> set_record bd i (record_at bd i) = bd.
Proof.
  intros Hl Hi. unfold set_record, record_at. rewrite <- drop_drop, take_drop. apply take_drop.
Qed.

Lemma record_at_blank i : i < 24 ->
  record_at (replicate BLOCK_DATA_SIZE_QWORDS UINT64_MAX) i = replicate RECORD_SIZE UINT64_MAX.
Proof.
  intros Hi. unfold record_at. rewrite drop_replicate, take_replicate, block_words. f_equal.
  unfold RECORD_SIZE. lia.
Qed.

(** ** The accessor on a block of the table *)

(** Block [b] of the flat table. *)
Definition holds_block (T : list (list Z)) (b : nat) (bd : list Z) : Prop :=
  length bd = BLOCK_DATA_SIZE_QWORDS /\ forall i, i < 24 -> T !! (24 * b + i) = Some (record_at bd i).

Lemma holds_block_insert T b bd i r : holds_block T b bd -> i < 24 -> length r = RECORD_SIZE ->
  holds_block (<[24 * b + i := r]> T) b (set_record bd i r).
Proof.
  intros [Hl Hb] Hi Hr. split; [by apply set_record_length|]. intros m Hm.
  destruct (decide (m = i)) as [->|Hne].
  - rewrite list_lookup_insert_eq by (eapply lookup_lt_Some, Hb, Hi). by rewrite record_at_set_eq.
  - rewrite list_lookup_insert_ne by lia. rewrite record_at_set_ne by done. by apply Hb.
Qed.

Section Blocks.
Context (nb : nat) (Hnb : 0 < nb) (HNb : (24 * Z.of_nat nb <= 2 ^ 62)%Z).
Let N := 24 * nb.

Lemma N_pos : 0 < N.
Proof. unfold N. lia. Qed.

Lemma N_range : (2 <= Z.of_nat N <= 2 ^ 62)%Z.
Proof. unfold N. lia. Qed.

Definition at_position (T0 : list (list Z)) (C0 : list Z) (T : list (list Z)) (args : robinhood_accessor_args)
    (inserted : bool) (u : nat) : Prop :=
  running N T0 C0 T args inserted u \/ finished N T0 C0 T args.

(** The first unreduced position of block [b] is [base]. *)
Definition base_of (b base : nat) : Prop := b < nb /\ (base = 24 * b \/ base = 24 * b + N).

Lemma base_slot b base i : base_of b base -> i < 24 -> slot N (base + i) = 24 * b + i.
Proof. intros [Hb [->| ->]] Hi; unfold slot, N in *; case_match; breflect; lia. Qed.

Lemma robinhood_slot_start started R args inserted args' inserted' R' :
  robinhood_slot started R args inserted = (args', inserted', R') -> start_index args' = start_index args.
Proof.
  unfold robinhood_slot. cbv zeta. case_match. by intros [= <- <- <-].
Qed.

Lemma at_position_step T0 C0 T args inserted b base i st bd args' inserted' R' :
  base_of b base -> i < 24 -> st < 24 -> start_index args = Z.of_nat st -> holds_block T b bd ->
  at_position T0 C0 T args inserted (base + max i st) ->
  robinhood_slot (start_index args <=? Z.of_nat i)%Z (record_at bd i) args inserted = (args', inserted', R') ->
  exists T', holds_block T' b (set_record bd i R') /\ (forall s, s <> 24 * b + i -> T' !! s = T !! s) /\
    at_position T0 C0 T' args' inserted' (base + max (S i) st).
Proof.
  intros Hbase Hi Hst Hs Hb Hpos E. pose proof Hb as [Hl Hbl]. destruct Hpos as [Hrun|Hfin].
  - rewrite Hs in E. destruct (Z.leb_spec (Z.of_nat st) (Z.of_nat i)).
    + rewrite Nat.max_l in Hrun by lia. pose proof (base_slot b base i Hbase Hi) as Hsl.
      assert (HR : T !! slot N (base + i) = Some (record_at bd i)) by (rewrite Hsl; by apply Hbl).
      pose proof (visit_step N N_pos N_range T0 T C0 args inserted _ Hrun _ HR _ _ _ E) as Hv. rewrite Hsl in Hv.
      exists (<[24 * b + i := R']> T).
      assert (Hr : length R' = RECORD_SIZE).
      { assert (Hin : <[24 * b + i := R']> T !! (24 * b + i) = Some R')
          by (apply list_lookup_insert_eq; eapply lookup_lt_Some, Hbl, Hi).
        destruct Hv as [[_ _ _ _ [HT _] _ _ _ _ _]|[_ HT _ _ _ _]];
          by apply (proj1 (Forall_lookup _ _) (ri_sizes _ _ HT) _ _ Hin). }
      split_and!; [by apply holds_block_insert| |].
      * intros s Hne. by apply list_lookup_insert_ne.
      * replace (base + max (S i) st) with (S (base + i)) by lia. done.
    + destruct (waiting_step N N_pos N_range _ _ _ _ _ _ _ _ _ _ Hrun E) as (-> & Hrun' & _). exists T.
      rewrite set_record_id by done. split_and!; [done|done|].
      replace (max (S i) st) with (max i st) by lia. by left.
  - destruct (finished_step N _ _ _ _ _ _ _ _ _ _ Hfin E) as (-> & Hfin' & _). exists T.
    rewrite set_record_id by done. split_and!; [done|done|by right].
Qed.

Lemma robinhood_fold T0 C0 b base st : base_of b base -> st < 24 -> forall n i args inserted bd T args' inserted' bd',
  i + n = 24 -> start_index args = Z.of_nat st -> holds_block T b bd ->
  at_position T0 C0 T args inserted (base + max i st) ->
  fold_left robinhood_step (seq i n) (args, inserted, bd) = (args', inserted', bd') ->
  exists T', holds_block T' b bd' /\ (forall s, s < 24 * b \/ 24 * b + 24 <= s -> T' !! s = T !! s) /\
    at_position T0 C0 T' args' inserted' (base + 24).
Proof.
  intros Hbase Hst. induction n as [|n IH]; intros i args inserted bd T args' inserted' bd' Hin Hs Hb Hpos Hrun.
  - injection Hrun as <- <- <-. exists T. replace (max i st) with 24 in Hpos by lia. done.
  - cbn [seq fold_left] in Hrun. unfold robinhood_step at 2 in Hrun.
    destruct (robinhood_slot _ (record_at bd i) args inserted) as [[args1 inserted1] R1] eqn:E.
    destruct (at_position_step T0 C0 T args inserted b base i st bd args1 inserted1 R1 Hbase ltac:(lia) Hst Hs Hb Hpos E) as (T1 & Hb1 & Ho1 & Hpos1).
    apply robinhood_slot_start in E.
    destruct (IH (S i) args1 inserted1 (set_record bd i R1) T1 args' inserted' bd' ltac:(lia) (eq_trans E Hs) Hb1 Hpos1 Hrun) as (T' & Hb' & Ho' & Hpos').
    exists T'. split_and!; [done| |done]. intros s Hsb. rewrite Ho', Ho1 by lia. done.
Qed.

(** One access of the insertion. *)
Lemma robinhood_block T0 C0 T args inserted b base st bd : base_of b base -> st < 24 ->
  start_index args = Z.of_nat st -> holds_block T b bd -> running N T0 C0 T args inserted (base + st) ->
  let '(args', bd') := robinhood args bd in
  exists T' inserted', holds_block T' b bd' /\ (forall s, s < 24 * b \/ 24 * b + 24 <= s -> T' !! s = T !! s) /\
    at_position T0 C0 T' args' inserted' (base + 24).
Proof.
  intros Hbase Hst Hs Hb Hrun. unfold robinhood. rewrite records_per_block_eq.
  destruct (fold_left _ _ _) as [[args' inserted'] bd'] eqn:E.
  assert (Hpos : at_position T0 C0 T args false (base + max 0 st)).
  { left. rewrite Nat.max_0_l. destruct Hrun. by constructor. }
  destruct (robinhood_fold T0 C0 b base st Hbase Hst 24 0 args false bd T args' inserted' bd' eq_refl Hs Hb Hpos E)
    as (T' & H1 & H2 & H3). by exists T', inserted'.
Qed.

(** The lookup over the slots of a block. *)
Definition stops (k : Z) (r : list Z) : bool := record_empty_or_matches r k.

Record scanning (T : list (list Z)) (k : Z) (buf : list Z) (h u : nat) (args : get_record_accessor_args) : Prop := {
  sc_key : g_key args = k;
  sc_state :
    (search_complete args = false /\ out_record args = buf /\
     forall p r, h <= p < u -> T !! (p mod N) = Some r -> stops k r = false) \/
    (search_complete args = true /\ exists p, h <= p < u /\ T !! (p mod N) = Some (out_record args) /\
     stops k (out_record args) = true /\
     forall q r, h <= q < p -> T !! (q mod N) = Some r -> stops k r = false);
}.

Lemma get_record_step_scan T k buf h b base bd args i st :
  holds_block T b bd -> i < 24 -> base mod N = 24 * b -> b < nb ->
  g_start_index args = Z.of_nat st -> h <= base + st ->
  scanning T k buf h (base + max i st) args ->
  scanning T k buf h (base + max (S i) st) (get_record_step bd args i).
Proof.
  intros [Hl Hbl] Hi Hbase Hb Hs Hh [Hk Hsc]. unfold get_record_step. rewrite Hs, Hk.
  assert (Hmod : (base + i) mod N = 24 * b + i).
  { rewrite <- Nat.Div0.add_mod_idemp_l, Hbase. apply Nat.mod_small. unfold N. lia. }
  destruct (Z.leb_spec (Z.of_nat st) (Z.of_nat i)) as [Hsi|Hsi].
  2:{ replace (max (S i) st) with (max i st) by lia. rewrite !andb_false_r.
      constructor; [done|]. simpl. by rewrite orb_false_r. }
  rewrite andb_true_r. replace (max i st) with i in Hsc by lia. replace (max (S i) st) with (S i) by lia.
  constructor; [done|]. destruct Hsc as [(Hc & Ho & Hn)|(Hc & p & Hp & Hr & Hst & Hn)]; simpl; rewrite Hc.
  - rewrite andb_true_r, orb_false_l. fold (stops k (record_at bd i)). destruct (stops k (record_at bd i)) eqn:E.
    + right. split; [done|]. exists (base + i). split_and!; [lia|lia|by rewrite Hmod, Hbl|done|done].
    + left. split_and!; [done|done|]. intros q r Hq Hqr. destruct (decide (q = base + i)) as [->|]; [|apply (Hn q); (done || lia)].
      rewrite Hmod, Hbl in Hqr by done. congruence.
  - right. rewrite andb_false_r. split; [done|]. exists p. split_and!; (done || lia).
Qed.

Lemma get_record_block T k buf h b base bd args st :
  holds_block T b bd -> base mod N = 24 * b -> b < nb -> st < 24 ->
  g_start_index args = Z.of_nat st -> h <= base + st -> scanning T k buf h (base + st) args ->
  scanning T k buf h (base + 24) (get_record args bd).1.
Proof.
  intros Hb Hbase Hbn Hst Hs Hh Hsc. unfold get_record. cbn [fst]. rewrite records_per_block_eq.
  enough (Hgen : forall n i a, i + n = 24 -> g_start_index a = Z.of_nat st ->
    scanning T k buf h (base + max i st) a ->
    scanning T k buf h (base + 24) (fold_left (get_record_step bd) (seq i n) a)).
  { apply (Hgen 24 0); [done|done|]. by rewrite Nat.max_0_l. }
  induction n as [|n IH]; intros i a Hin Ha Hsa.
  - replace (max i st) with 24 in Hsa by lia. done.
  - cbn [seq fold_left]. apply IH; [lia|by simpl|]. by apply (get_record_step_scan T k buf h b base bd a i st); [|lia|..].
Qed.
End Blocks.

(** ** The table over an ORAM *)

Lemma running_bound N T0 C0 T args inserted u : 0 < N -> running N T0 C0 T args inserted u -> u < 2 * N.
Proof.
  intros HN [_ _ _ (j & _ & -> & HC) _ _ _ _ _ _]. pose proof (home_range N HN (record_key (in_record args))).
  pose proof (ci_jump _ _ _ _ HC). lia.
Qed.

Lemma running_restart N T0 C0 T args inserted u i : running N T0 C0 T args inserted u ->
  running N T0 C0 T (with_start_index args i) inserted u.
Proof. intros []. by constructor. Qed.

Lemma finished_restart N T0 C0 T args i : finished N T0 C0 T args -> finished N T0 C0 T (with_start_index args i).
Proof. intros []. by constructor. Qed.

Lemma robinhood_slot_sizes started R args inserted args' inserted' R' :
  length R = RECORD_SIZE -> length (in_record args) = RECORD_SIZE ->
  robinhood_slot started R args inserted = (args', inserted', R') ->
  length R' = RECORD_SIZE /\ length (in_record args') = RECORD_SIZE.
Proof.
  intros HR HC. unfold robinhood_slot. cbv zeta.
  repeat case_match; intros [= <- <- <-]; simplify_eq/=; done.
Qed.

Lemma robinhood_ok args : length (in_record args) = RECORD_SIZE -> accessor_ok (robinhood args).
Proof.
  intros HC bd Hbd. unfold robinhood. rewrite records_per_block_eq.
  enough (Hgen : forall n i args inserted bd, i + n = 24 -> length (in_record args) = RECORD_SIZE ->
    length bd = BLOCK_DATA_SIZE_QWORDS ->
    length (fold_left robinhood_step (seq i n) (args, inserted, bd)).2 = BLOCK_DATA_SIZE_QWORDS).
  { specialize (Hgen 24 0 args false bd eq_refl HC Hbd). by destruct (fold_left _ _ _) as [[? ?] ?]. }
  clear. induction n as [|n IH]; intros i args inserted bd Hi HC Hbd; [done|].
  cbn [seq fold_left]. unfold robinhood_step at 2.
  destruct (robinhood_slot _ _ args inserted) as [[args1 inserted1] R1] eqn:E.
  destruct (robinhood_slot_sizes _ _ _ _ _ _ _ (record_at_length bd i Hbd ltac:(lia)) HC E) as [HR1 HC1].
  apply IH; [lia|done|]. apply set_record_length; (done || lia).
Qed.

Lemma get_record_ok args : accessor_ok (get_record args).
Proof. by intros bd Hbd. Qed.

Lemma get_record_snd args bd : (get_record args bd).2 = bd.
Proof. done. Qed.
#[local] Opaque get_record.

Lemma next_block_spec nb b : (Z.of_nat nb <= 2 ^ 62)%Z -> b < nb ->
  next_block (Z.of_nat nb) (Z.of_nat b) = Z.of_nat (if decide (S b = nb) then 0 else S b).
Proof.
  intros Hnb Hb. unfold next_block. rewrite add64_small by lia. rewrite U64_TERNARY_spec by (unfold is_u64; lia).
  case_decide; [rewrite (proj2 (Z.eqb_eq _ _)) by lia; done|].
  rewrite (proj2 (Z.eqb_neq _ _)) by lia. lia.
Qed.

Section TableSpec.
Context {RAM : Type} `{ObliviousRamSpec RAM}.
Context (nb : nat) (Hnb : 0 < nb) (HNb : (24 * Z.of_nat nb <= 2 ^ 62)%Z).

Definition slots_of (o : RAM) : list (list Z) :=
  map (fun s => record_at (ram_get o (Z.of_nat (s / 24))) (s mod 24)) (seq 0 (24 * nb)).

Lemma slots_of_length o : length (slots_of o) = 24 * nb.
Proof. unfold slots_of. by rewrite length_map, length_seq. Qed.

Lemma slots_of_lookup o b i : b < nb -> i < 24 ->
  slots_of o !! (24 * b + i) = Some (record_at (ram_get o (Z.of_nat b)) i).
Proof.
  intros Hb Hi. unfold slots_of. rewrite list_lookup_fmap, lookup_seq_lt by lia. rewrite Nat.add_0_l.
  cbn [fmap option_fmap option_map].
  by rewrite <- (Nat.div_unique (24 * b + i) 24 b i), <- (Nat.mod_unique (24 * b + i) 24 b i) by lia.
Qed.

Lemma slots_of_holds o b : ram_inv (Z.of_nat nb) o -> b < nb ->
  holds_block (slots_of o) b (ram_get o (Z.of_nat b)).
Proof.
  intros Ho Hb. split; [by apply (ram_get_length (Z.of_nat nb))|]. intros i Hi. by apply slots_of_lookup.
Qed.

Lemma slots_of_update o o' b bd T : b < nb -> length T = 24 * nb ->
  (forall j, ram_get o' j = if (j =? Z.of_nat b)%Z then bd else ram_get o j) ->
  holds_block T b bd -> (forall s, s < 24 * b \/ 24 * b + 24 <= s -> T !! s = slots_of o !! s) ->
  slots_of o' = T.
Proof.
  intros Hb HT Hget [_ Hh] Ho. apply list_eq. intros s.
  destruct (decide (s < 24 * nb)) as [Hs|Hs].
  2:{ rewrite !lookup_ge_None_2; [done|lia|rewrite slots_of_length; lia]. }
  pose proof (Nat.div_mod_eq s 24) as Hdm. pose proof (Nat.mod_upper_bound s 24 ltac:(lia)) as Hm.
  assert (s / 24 < nb) by (apply Nat.Div0.div_lt_upper_bound; lia).
  rewrite Hdm. rewrite slots_of_lookup, Hget by done.
  destruct (Z.eqb_spec (Z.of_nat (s / 24)) (Z.of_nat b)) as [E|E].
  - apply Nat2Z.inj in E. rewrite E. by rewrite Hh.
  - rewrite Ho by lia. by rewrite slots_of_lookup.
Qed.

(** One access of the insertion, on the flat table. *)
Lemma put_access o e b base st T0 C0 args inserted err out o' e' :
  ram_inv (Z.of_nat nb) o -> base_of nb b base -> st < 24 -> start_index args = Z.of_nat st ->
  running (24 * nb) T0 C0 (slots_of o) args inserted (base + st) ->
  ram_access (robinhood args) o e (Z.of_nat b) = (err, out, o', e') -> is_success err = true ->
  ram_inv (Z.of_nat nb) o' /\ exists args' inserted', out = Some args' /\
    at_position nb T0 C0 (slots_of o') args' inserted' (base + 24).
Proof.
  intros Ho Hbase Hst Hs Hrun Hacc Hok. pose proof Hbase as [Hb _].
  pose proof Hrun as [_ _ _ (j & _ & _ & HC) _ _ _ _ _ _].
  destruct (ram_access_spec (robinhood args) (Z.of_nat nb) o e (Z.of_nat b) err out o' e'
    (robinhood_ok args (ci_size _ _ _ _ HC)) Ho ltac:(lia) Hacc Hok) as (Ho' & -> & Hget).
  split; [done|].
  pose proof (robinhood_block nb Hnb HNb T0 C0 (slots_of o) args inserted b base st _ Hbase Hst Hs
    (slots_of_holds o b Ho Hb) Hrun) as Hblk.
  destruct (robinhood args _) as [args' bd'] eqn:E. destruct Hblk as (T' & inserted' & Hh & Hother & Hpos).
  exists args', inserted'. split; [done|].
  assert (HT' : length T' = 24 * nb).
  { destruct Hpos as [[_ _ _ _ [HT _] _ _ _ _ _]|[_ HT _ _ _ _]]; apply HT. }
  by rewrite (slots_of_update o o' b bd' T' Hb HT' Hget Hh Hother).
Qed.

(** The insertion loop ends, and on success the insertion is complete. *)
Lemma put_loop_spec T0 C0 : forall fuel o e b base st args inserted,
  ram_inv (Z.of_nat nb) o -> base_of nb b base -> st < 24 -> start_index args = Z.of_nat st ->
  running (24 * nb) T0 C0 (slots_of o) args inserted (base + st) ->
  2 * (24 * nb) <= base + 24 * fuel ->
  exists err args' o' e', put_loop fuel (Z.of_nat nb) o e (Z.of_nat b) args = Some (err, args', o', e') /\
    (is_success err = true -> ram_inv (Z.of_nat nb) o' /\ finished (24 * nb) T0 C0 (slots_of o') args').
Proof.
  induction fuel as [|fuel IH]; intros o e b base st args inserted Ho Hbase Hst Hs Hrun Hfuel;
    pose proof (running_bound _ _ _ _ _ _ _ (N_pos nb Hnb) Hrun) as Hbound; [lia|].
  cbn [put_loop]. rewrite (ru_incomplete _ _ _ _ _ _ _ Hrun).
  destruct (ram_access (robinhood args) o e (Z.of_nat b)) as [[[err out] o1] e1] eqn:Eacc.
  destruct (is_success err) eqn:Eok.
  2:{ exists err, (default args out), o1, e1. split; [done|]. congruence. }
  destruct (put_access o e b base st T0 C0 args inserted err out o1 e1 Ho Hbase Hst Hs Hrun Eacc Eok)
    as (Ho1 & args1 & inserted1 & -> & Hpos).
  change (default args (Some args1)) with args1.
  rewrite (next_block_spec nb b) by (destruct Hbase; lia).
  destruct Hpos as [Hrun1|Hfin].
  - pose proof (running_bound _ _ _ _ _ _ _ (N_pos nb Hnb) Hrun1) as Hbound1.
    apply (IH o1 e1 _ (base + 24) 0 (with_start_index args1 0) inserted1 Ho1); [|lia|done| |lia].
    + destruct Hbase as [Hb Hbase]. unfold base_of. case_decide; lia.
    + rewrite Nat.add_0_r. by apply running_restart.
  - exists err_SUCCESS, (with_start_index args1 0), o1, e1.
    assert (Hc : insert_complete (with_start_index args1 0) = true) by apply Hfin.
    split; [destruct fuel; cbn [put_loop]; by rewrite Hc|]. intros _. split; [done|]. by apply finished_restart.
Qed.

(** One access of the lookup. *)
Lemma get_access T k buf h o e b base st args err out o' e' :
  ram_inv (Z.of_nat nb) o -> slots_of o = T -> b < nb -> base mod (24 * nb) = 24 * b -> st < 24 ->
  g_start_index args = Z.of_nat st -> h <= base + st -> scanning nb T k buf h (base + st) args ->
  ram_access (get_record args) o e (Z.of_nat b) = (err, out, o', e') -> is_success err = true ->
  ram_inv (Z.of_nat nb) o' /\ slots_of o' = T /\
  exists args', out = Some args' /\ scanning nb T k buf h (base + 24) args'.
Proof.
  intros Ho HT Hb Hbase Hst Hs Hh Hsc Hacc Hok.
  destruct (ram_access_spec (get_record args) (Z.of_nat nb) o e (Z.of_nat b) err out o' e'
    (get_record_ok args) Ho ltac:(lia) Hacc Hok) as (Ho1 & -> & Hget).
  rewrite get_record_snd in Hget. split; [done|]. split.
  - rewrite <- HT. apply (slots_of_update o o' b (ram_get o (Z.of_nat b)) _ Hb); [apply slots_of_length|done| |done].
    by apply slots_of_holds.
  - eexists. split; [reflexivity|].
    apply (get_record_block nb Hnb T k buf h b base _ args st); try done. rewrite <- HT. by apply slots_of_holds.
Qed.

Lemma next_base b base : b < nb -> base mod (24 * nb) = 24 * b ->
  (base + 24) mod (24 * nb) = 24 * (if decide (S b = nb) then 0 else S b).
Proof.
  intros Hb Hbase. rewrite <- Nat.Div0.add_mod_idemp_l, Hbase. case_decide as Hd.
  - replace (24 * b + 24) with (24 * nb) by lia. by rewrite Nat.Div0.mod_same.
  - rewrite Nat.mod_small by lia. lia.
Qed.

Lemma scanning_restart T k buf h u args i : scanning nb T k buf h u args ->
  scanning nb T k buf h u {| g_start_index := i; search_complete := search_complete args;
    out_record := out_record args; g_key := g_key args |}.
Proof. intros [Hk Hst]. by constructor. Qed.

(** The lookup loop scans the blocks in order. *)
Lemma get_loop_spec T k buf h : forall n o e b base st args err args' o' e',
  ram_inv (Z.of_nat nb) o -> slots_of o = T -> b < nb -> base mod (24 * nb) = 24 * b -> st < 24 ->
  g_start_index args = Z.of_nat st -> h <= base + st -> scanning nb T k buf h (base + st) args ->
  get_loop (S n) (Z.of_nat nb) o e (Z.of_nat b) args = (err, args', o', e') -> is_success err = true ->
  ram_inv (Z.of_nat nb) o' /\ slots_of o' = T /\ scanning nb T k buf h (base + 24 * S n) args'.
Proof.
  induction n as [|n IH]; intros o e b base st args err args' o' e' Ho HT Hb Hbase Hst Hs Hh Hsc Hrun Hok;
    cbn [get_loop] in Hrun; destruct (ram_access _ o e _) as [[[err1 out] o1] e1] eqn:Eacc;
    (destruct (is_success err1) eqn:Eok; [|injection Hrun as -> <- <- <-; congruence]);
    destruct (get_access T k buf h o e b base st args err1 out o1 e1 Ho HT Hb Hbase Hst Hs Hh Hsc Eacc Eok)
      as (Ho1 & HT1 & a1 & -> & Hsc1); change (default args (Some a1)) with a1 in Hrun.
  - injection Hrun as <- <- <- <-. rewrite Nat.mul_1_r. split_and!; [done|done|by apply scanning_restart].
  - rewrite (next_block_spec nb b) in Hrun by lia.
    replace (base + 24 * S (S n)) with (base + 24 + 24 * S n) by lia.
    refine (IH o1 e1 _ (base + 24) 0 _ err args' o' e' Ho1 HT1 _ _ _ _ _ _ Hrun Hok); [| |lia|done|lia|].
    + case_decide; lia.
    + by apply next_base.
    + rewrite Nat.add_0_r. by apply scanning_restart.
Qed.
End TableSpec.

(** ** The invariant of the table *)

Record table_inv {RAM} `{ObliviousRamSpec RAM} (nb : nat) (t : ohtable RAM) : Prop := {
  tb_range : 0 < nb /\ (24 * Z.of_nat nb <= 2 ^ 62)%Z;
  tb_sizes : t_record_size_qwords t = RECORD_SIZE /\ t_items_per_block t = 24%Z /\
    t_num_blocks t = Z.of_nat nb /\ t_capacity t = Z.of_nat (24 * nb);
  tb_ct : t_capacity_ct t = prep_ct_div (Z.of_nat (24 * nb)) /\ t_items_per_block_ct t = prep_ct_div 24;
  tb_ram : ram_inv (Z.of_nat nb) (t_oram t);
  tb_slots : rh_inv (24 * nb) (slots_of nb (t_oram t));
  tb_count : t_num_items t = Z.of_nat (num_occupied (slots_of nb (t_oram t)));
  tb_offset : (0 <= t_max_offset t < Z.of_nat (24 * nb))%Z;
}.

Section TableOps.
Context {RAM : Type} `{ObliviousRamSpec RAM} (nb : nat).

Lemma ohtable_hash_spec (t : ohtable RAM) k : table_inv nb t ->
  ohtable_hash t k = {| loc_block_id := Z.of_nat (home (24 * nb) k / 24); loc_index := Z.of_nat (home (24 * nb) k mod 24) |}.
Proof.
  intros [[Hnb HNb] (_ & Hi & _ & Hc) [Hct Hit] _ _ _ _]. unfold ohtable_hash, hash_location.
  rewrite Hc, Hi, Hct, Hit. rewrite candidate_hash_spec by lia.
  pose proof (home_range (24 * nb) ltac:(lia) k).
  rewrite ct_div_spec, ct_mod_spec by (unfold is_u64; lia).
  by rewrite Nat2Z.inj_div, Nat2Z.inj_mod.
Qed.

Lemma ohtable_hash_home (t : ohtable RAM) k : table_inv nb t ->
  ohtable_hash_from_location t (ohtable_hash t k) = Z.of_nat (home (24 * nb) k).
Proof.
  intros Ht. rewrite ohtable_hash_spec by done. destruct Ht as [[Hnb HNb] (_ & Hi & _) _ _ _ _ _].
  unfold ohtable_hash_from_location; cbn [loc_block_id loc_index]. rewrite Hi. pose proof (home_range (24 * nb) ltac:(lia) k).
  pose proof (Nat.div_mod_eq (home (24 * nb) k) 24). pose proof (Nat.mod_upper_bound (home (24 * nb) k) 24 ltac:(lia)).
  rewrite mul64_small, add64_small; lia.
Qed.

(** Insertion: the loop ends; on success exactly the record of the key changed. *)
Lemma ohtable_put_spec (t : ohtable RAM) e record :
  table_inv nb t -> length record = RECORD_SIZE -> occupied record -> is_full t = false ->
  has_empty (slots_of nb (t_oram t)) ->
  exists err t' e', ohtable_put t e record = Some (err, t', e') /\
    (is_success err = true -> table_inv nb t' /\
     forall r, stored (slots_of nb (t_oram t')) r <-> stored_with (slots_of nb (t_oram t)) record r).
Proof.
  intros Ht Hl Ho Hfull He. unfold ohtable_put. rewrite Hfull.
  pose proof Ht as [[Hnb HNb] (Hs & Hi & Hb & Hc) [Hct Hit] Hram Hslots Hcount Hoff].
  set (h := home (24 * nb) (record_key record)).
  pose proof (home_range (24 * nb) ltac:(lia) (record_key record)) as Hh. fold h in Hh.
  pose proof (Nat.div_mod_eq h 24) as Hdm. pose proof (Nat.mod_upper_bound h 24 ltac:(lia)) as Hm.
  set (args := initial_args t (ohtable_hash t (record_key record)) (take (t_record_size_qwords t) record)).
  assert (Hin : in_record args = record) by (simpl; rewrite Hs; apply take_ge; lia).
  assert (Hrun : running (24 * nb) (slots_of nb (t_oram t)) record (slots_of nb (t_oram t)) args false (24 * (h / 24) + h mod 24)).
  { rewrite <- Hdm. apply running_start; try done; try lia. by apply ohtable_hash_home. }
  assert (Hbase : base_of nb (h / 24) (24 * (h / 24))).
  { split; [apply Nat.Div0.div_lt_upper_bound; lia|by left]. }
  assert (Hst : start_index args = Z.of_nat (h mod 24)) by (unfold args, initial_args; cbn [start_index]; by rewrite ohtable_hash_spec).
  destruct (put_loop_spec nb Hnb HNb _ _ (2 * Z.to_nat (t_num_blocks t)) (t_oram t) e (h / 24) (24 * (h / 24)) (h mod 24)
    args false Hram Hbase Hm Hst Hrun ltac:(lia)) as (err & args' & o' & e' & Hloop & Hfin).
  assert (Hblk : loc_block_id (ohtable_hash t (record_key record)) = Z.of_nat (h / 24)) by (by rewrite ohtable_hash_spec).
  cbv zeta. rewrite Hblk. fold args. rewrite Hb in Hloop |- *. rewrite Hloop.
  exists err, (after_put t err args' o'), e'. split; [done|]. intros Hok.
  destruct (Hfin Hok) as [Hram' [_ Hrh Hstored Hcnt Hmo _]]. split; [|exact Hstored].
  constructor; try done; unfold after_put; cbn [t_oram t_num_items t_max_offset]; rewrite Hok.
  - pose proof (countb_le (fun r => negb (record_empty r)) (slots_of nb (t_oram t))) as Hle.
    rewrite slots_of_length in Hle. fold (num_occupied (slots_of nb (t_oram t))) in Hle.
    rewrite Hcnt, U64_TERNARY_spec by done. destruct (inserted_new_item args'); rewrite add64_small; lia.
  - rewrite U64_TERNARY_spec by (unfold is_u64; lia). destruct (_ >? _)%Z; lia.
Qed.

Lemma blocks_to_scan_spec (t : ohtable RAM) : table_inv nb t ->
  exists n, Z.to_nat (blocks_to_scan t) = S n /\ (t_max_offset t <= 24 * Z.of_nat n)%Z.
Proof.
  intros [[Hnb HNb] (_ & Hi & _) _ _ _ _ Hoff]. unfold blocks_to_scan. rewrite Hi.
  rewrite (add64_small (t_max_offset t)), sub64_small by lia.
  exists (Z.to_nat ((t_max_offset t + 24 - 1) / 24)). rewrite add64_small by dlia. dlia.
Qed.

(** A lookup scans from the home slot for at least [t_max_offset] slots and
    leaves the table as it was. *)
Lemma ohtable_get_scan (t : ohtable RAM) e k buf err out t' e' :
  table_inv nb t -> ohtable_get t e k buf = (err, out, t', e') -> is_success err = true ->
  table_inv nb t' /\ slots_of nb (t_oram t') = slots_of nb (t_oram t) /\ t_max_offset t' = t_max_offset t /\
  exists args u, out = out_record args /\ (Z.of_nat (home (24 * nb) k) + t_max_offset t < Z.of_nat u)%Z /\
    scanning nb (slots_of nb (t_oram t)) k buf (home (24 * nb) k) u args.
Proof.
  intros Ht Hget Hok. unfold ohtable_get in Hget. destruct (blocks_to_scan_spec t Ht) as (n & Hn & Hmo).
  rewrite ohtable_hash_spec, Hn in Hget by done.
  pose proof Ht as [[Hnb HNb] (Hs & Hi & Hb & Hc) [Hct Hit] Hram Hslots Hcount Hoff].
  rewrite Hb in Hget. cbn [loc_block_id loc_index] in Hget. set (h := home (24 * nb) k) in *.
  pose proof (home_range (24 * nb) ltac:(lia) k) as Hh. fold h in Hh.
  pose proof (Nat.div_mod_eq h 24) as Hdm. pose proof (Nat.mod_upper_bound h 24 ltac:(lia)) as Hm.
  assert (Hhb : h / 24 < nb) by (apply Nat.Div0.div_lt_upper_bound; lia).
  destruct (get_loop _ _ _ _ _ _) as [[[err1 args] o1] e1] eqn:Eloop. injection Hget as <- <- <- <-.
  apply (get_loop_spec nb Hnb HNb (slots_of nb (t_oram t)) k buf h n (t_oram t) e (h / 24) (24 * (h / 24)) (h mod 24))
    in Eloop as (Ho1 & HT1 & Hsc); try done; [|apply Nat.mod_small; lia|lia|].
  - split_and!; [|done|done|].
    + constructor; unfold with_oram; cbn [t_oram t_max_offset t_num_items]; rewrite ?HT1; done.
    + exists args, (24 * (h / 24) + 24 * S n). split_and!; [done|lia|done].
  - constructor; [done|]. left. split_and!; [done|done|]. lia.
Qed.

Lemma mod_slot N p : 0 < N -> p < 2 * N -> p mod N = slot N p.
Proof.
  intros HN Hp. unfold slot. destruct (Nat.ltb_spec p N); [by apply Nat.mod_small|].
  replace p with ((p - N) + 1 * N) at 1 by lia. rewrite Nat.Div0.mod_add. apply Nat.mod_small. lia.
Qed.
End TableOps.

(** ** What a scan finds *)

Section Scan.
Context (nb : nat) (Hnb : 0 < nb) (T : list (list Z)) (HT : rh_inv (24 * nb) T).
Context (k : Z) (buf : list Z) (u : nat) (args : get_record_accessor_args).
Context (Hk : k <> UINT64_MAX) (Hsc : scanning nb T k buf (home (24 * nb) k) u args).

(** A stored record within the scanned range is found. *)
Lemma scan_found s r : T !! s = Some r -> record_key r = k -> home (24 * nb) k + jump_at (24 * nb) k s < u ->
  out_record args = r.
Proof.
  intros Hr Ek Hu. pose proof (lookup_lt_Some _ _ _ Hr) as Hs. rewrite (ri_length _ _ HT) in Hs.
  pose proof (home_range (24 * nb) ltac:(lia) k) as Hh.
  destruct (jump_slot (24 * nb) ltac:(lia) k s Hs) as [Hd Hsl]. set (d := jump_at (24 * nb) k s) in *.
  assert (Hp0 : T !! ((home (24 * nb) k + d) mod (24 * nb)) = Some r) by (rewrite mod_slot, Hsl; (done || lia)).
  assert (Hstop : stops k r = true) by (unfold stops, record_empty_or_matches; rewrite Ek, Z.eqb_refl; apply orb_true_r).
  destruct (sc_state _ _ _ _ _ _ _ Hsc) as [(_ & _ & Hn)|(_ & p & Hp & Hout & Hst & Hn)].
  { pose proof (Hn (home (24 * nb) k + d) r ltac:(lia) Hp0). congruence. }
  destruct (decide (home (24 * nb) k + d < p)) as [Hlt|Hge].
  { pose proof (Hn (home (24 * nb) k + d) r ltac:(lia) Hp0). congruence. }
  destruct (decide (p = home (24 * nb) k + d)) as [->|Hne]; [congruence|exfalso].
  destruct (ri_path _ _ HT s r Hr) with (i := p - home (24 * nb) k) as (r' & Hr' & Ho & _).
  { unfold occupied. congruence. }
  { rewrite Ek. fold d. lia. }
  rewrite Ek in Hr'. replace (home (24 * nb) k + _) with p in Hr' by lia.
  rewrite mod_slot in Hout by lia. assert (Eo : out_record args = r') by congruence. rewrite Eo in *.
  unfold stops, record_empty_or_matches in Hst. rewrite orb_true_iff, !Z.eqb_eq in Hst.
  destruct Hst as [Hst|Hst]; [by apply Ho|].
  assert (slot (24 * nb) p = s) as E by (apply (ri_keys _ _ HT _ _ r' r); [done|done|done|congruence]).
  replace p with (home (24 * nb) k + (p - home (24 * nb) k)) in E by lia. rewrite <- Hsl in E.
  apply slot_inj in E; lia.
Qed.

(** Without the key the scan ends at an empty slot, if it sees one. *)
Lemma scan_absent : (forall r, r ∈ T -> record_key r <> k) ->
  out_record args = replicate RECORD_SIZE UINT64_MAX \/
  (out_record args = buf /\ forall p r, home (24 * nb) k <= p < u -> T !! (p mod (24 * nb)) = Some r -> record_key r <> UINT64_MAX).
Proof.
  intros Habs. destruct (sc_state _ _ _ _ _ _ _ Hsc) as [(_ & Ho & Hn)|(_ & p & Hp & Hout & Hst & Hn)].
  - right. split; [done|]. intros p r Hp Hr Er. specialize (Hn p r Hp Hr).
    unfold stops, record_empty_or_matches in Hn. rewrite Er in Hn. done.
  - left. unfold stops, record_empty_or_matches in Hst. rewrite orb_true_iff, !Z.eqb_eq in Hst.
    destruct Hst as [Hst|Hst]; [by apply (ri_blank _ _ HT _ _ Hout)|].
    by elim (Habs (out_record args) (list_elem_of_lookup_2 _ _ _ Hout)).
Qed.
End Scan.

(** ** The table as a map *)

Section MapView.
Context {RAM : Type} `{ObliviousRamSpec RAM} (nb : nat).

(** The record stored under a key. *)
Definition table_lookup (t : ohtable RAM) (k : Z) : option (list Z) :=
  find (fun r => record_key r =? k)%Z (slots_of nb (t_oram t)).

Lemma find_record T k r N : rh_inv N T -> k <> UINT64_MAX ->
  find (fun r => record_key r =? k)%Z T = Some r <-> stored T r /\ record_key r = k.
Proof.
  intros HT Hk. split.
  - intros [Hin Ek]%find_some. apply Z.eqb_eq in Ek. apply list_elem_of_In in Hin.
    split; [split; [|done]|done]. unfold occupied. congruence.
  - intros [[Ho Hin] Ek]. destruct (find _ T) as [r'|] eqn:E.
    + apply find_some in E as [Hin' Ek']. apply Z.eqb_eq in Ek'. apply list_elem_of_In in Hin'.
      apply list_elem_of_lookup in Hin as [s Hs]. apply list_elem_of_lookup in Hin' as [s' Hs'].
      assert (s = s') as -> by (apply (ri_keys _ _ HT s s' r r'); (done || congruence)). congruence.
    + exfalso. apply list_elem_of_In in Hin. pose proof (find_none _ _ E _ Hin) as Hn. cbn beta in Hn.
      by rewrite Ek, Z.eqb_refl in Hn.
Qed.

Lemma table_lookup_Some t k r : table_inv nb t -> k <> UINT64_MAX ->
  table_lookup t k = Some r <-> stored (slots_of nb (t_oram t)) r /\ record_key r = k.
Proof. intros Ht Hk. by apply (find_record _ _ _ (24 * nb)); [apply Ht|]. Qed.

Lemma table_lookup_None t k : table_inv nb t -> table_lookup t k = None ->
  forall r, r ∈ slots_of nb (t_oram t) -> record_key r <> k.
Proof.
  intros Ht Hl r Hin Ek. apply list_elem_of_In in Hin. pose proof (find_none _ _ Hl _ Hin) as Hn. cbn beta in Hn.
  by rewrite Ek, Z.eqb_refl in Hn.
Qed.

Lemma table_lookup_put t t' record k : table_inv nb t -> table_inv nb t' -> k <> UINT64_MAX -> occupied record ->
  (forall r, stored (slots_of nb (t_oram t')) r <-> stored_with (slots_of nb (t_oram t)) record r) ->
  table_lookup t' k = if (k =? record_key record)%Z then Some record else table_lookup t k.
Proof.
  intros Ht Ht' Hk Ho Hst. apply option_eq. intros r. rewrite (table_lookup_Some t') by done. rewrite Hst.
  unfold stored_with. destruct (Z.eqb_spec k (record_key record)) as [->|Hne].
  - split; [|intros [= <-]; by auto]. intros [[[_ Hd]| ->] Ek]; [congruence|done].
  - rewrite (table_lookup_Some t) by done. split.
    + intros [[[Hs _]| ->] Ek]; [done|congruence].
    + intros [Hs Ek]. split; [left; split; [done|congruence]|done].
Qed.

(** A table with fewer items than slots has an empty slot. *)
Lemma table_has_empty t : table_inv nb t -> (t_num_items t < t_capacity t)%Z -> has_empty (slots_of nb (t_oram t)).
Proof.
  intros [_ (_ & _ & _ & Hc) _ _ _ Hcount _] Hlt. rewrite Hc, Hcount in Hlt. unfold num_occupied in Hlt.
  pose proof (countb_negb record_empty (slots_of nb (t_oram t))) as Hn. rewrite slots_of_length in Hn.
  destruct (countb_pos record_empty (slots_of nb (t_oram t))) as (r & Hr & He); [lia|].
  apply list_elem_of_lookup in Hr as [s Hs]. exists s, r. split; [done|]. by apply Z.eqb_eq.
Qed.

(** The 98% guard leaves room. *)
Lemma is_full_room t : table_inv nb t -> (24 * Z.of_nat nb < 2 ^ 53)%Z -> is_full t = false ->
  (t_num_items t < t_capacity t)%Z.
Proof.
  intros [[Hnb _] (_ & _ & _ & Hc) _ _ _ Hcount _] Hsmall Hfull.
  assert (Hle : (t_num_items t <= t_capacity t)%Z).
  { rewrite Hc, Hcount, <- (slots_of_length nb (t_oram t)). apply Nat2Z.inj_le, countb_le. }
  destruct (decide (t_num_items t = t_capacity t)) as [E|]; [exfalso|lia].
  unfold is_full in Hfull. rewrite E in Hfull.
  destruct (double_of_u64_finite (t_capacity t)) as (m & e & Hd); [rewrite Hc; lia|].
  rewrite Hd, ddiv_self in Hfull. vm_compute in Hfull. discriminate.
Qed.

(** ** Creation and clearing *)

Lemma slots_of_blank o : (forall i, ram_get o i = replicate BLOCK_DATA_SIZE_QWORDS UINT64_MAX) ->
  slots_of nb o = replicate (24 * nb) (replicate RECORD_SIZE UINT64_MAX).
Proof.
  intros Hget. unfold slots_of. apply list_eq_same_length with (24 * nb).
  - by rewrite length_replicate.
  - by rewrite length_map, length_seq.
  - intros i x y Hi Hx Hy. apply lookup_replicate in Hy as [-> _].
    rewrite list_lookup_fmap, lookup_seq_lt in Hx by done. cbn [fmap option_fmap option_map] in Hx.
    rewrite Hget, record_at_blank in Hx by (apply Nat.mod_upper_bound; lia). by injection Hx as <-.
Qed.

Lemma blank_rh_inv N : rh_inv N (replicate N (replicate RECORD_SIZE UINT64_MAX)).
Proof.
  assert (Hb : forall s r, replicate N (replicate RECORD_SIZE UINT64_MAX) !! s = Some r ->
    r = replicate RECORD_SIZE UINT64_MAX) by (intros s r [-> _]%lookup_replicate; done).
  constructor.
  - apply length_replicate.
  - apply Forall_lookup. intros s r Hr. by rewrite (Hb s r Hr).
  - intros s r Hr _. by apply (Hb s).
  - intros s s' r r' Hr _ Ho. by rewrite (Hb s r Hr) in Ho.
  - intros s r Hr Ho. by rewrite (Hb s r Hr) in Ho.
Qed.

Lemma blank_num_occupied N : num_occupied (replicate N (replicate RECORD_SIZE UINT64_MAX)) = 0.
Proof. unfold num_occupied. apply countb_false. intros r [-> _]%elem_of_replicate. done. Qed.

Lemma ohtable_create_inv (o : RAM) : 0 < nb -> (24 * Z.of_nat nb <= 2 ^ 62)%Z -> ram_inv (Z.of_nat nb) o ->
  (forall i, ram_get o i = replicate BLOCK_DATA_SIZE_QWORDS UINT64_MAX) ->
  table_inv nb (ohtable_create_on o (Z.of_nat nb) RECORD_SIZE).
Proof.
  intros Hnb HNb Hram Hget. pose proof (slots_of_blank o Hget) as Hsl.
  assert (Hcap : t_capacity (ohtable_create_on o (Z.of_nat nb) RECORD_SIZE) = Z.of_nat (24 * nb)).
  { cbn [ohtable_create_on t_capacity]. change (Z.of_nat (BLOCK_DATA_SIZE_QWORDS / RECORD_SIZE)) with 24%Z.
    rewrite mul64_small by lia. lia. }
  constructor.
  - done.
  - by rewrite Hcap.
  - split; [|done]. rewrite <- Hcap. done.
  - done.
  - simpl t_oram. rewrite Hsl. apply blank_rh_inv.
  - simpl t_oram. by rewrite Hsl, blank_num_occupied.
  - cbn [ohtable_create_on t_max_offset]. lia.
Qed.

Lemma ohtable_clear_inv t : table_inv nb t ->
  table_inv nb (ohtable_clear t) /\ forall k, k <> UINT64_MAX -> table_lookup (ohtable_clear t) k = None.
Proof.
  intros Ht. destruct (ram_clear_spec _ _ (tb_ram _ _ Ht)) as [Hram Hget].
  pose proof (slots_of_blank _ Hget) as Hsl.
  assert (Hinv : table_inv nb (ohtable_clear t)).
  { destruct Ht. constructor; try done; cbn [ohtable_clear t_oram t_num_items]; rewrite Hsl;
      [apply blank_rh_inv|by rewrite blank_num_occupied]. }
  split; [done|]. intros k Hk. destruct (table_lookup (ohtable_clear t) k) as [r|] eqn:E; [exfalso|done].
  apply table_lookup_Some in E as [[Ho Hin] _]; [|done|done]. cbn [ohtable_clear t_oram] in Hin. rewrite Hsl in Hin.
  apply elem_of_replicate in Hin as [-> _]. done.
Qed.
End MapView.

(** ** The operations as operations on a map *)

Section MapOps.
Context {RAM : Type} `{ObliviousRamSpec RAM} (nb : nat).
Local Open Scope Z_scope.

Lemma ohtable_put_lookup (t : ohtable RAM) e record :
  table_inv nb t -> length record = RECORD_SIZE -> record_key record <> UINT64_MAX ->
  24 * Z.of_nat nb < 2 ^ 53 -> is_full t = false ->
  exists err t' e', ohtable_put t e record = Some (err, t', e') /\
    (is_success err = true -> table_inv nb t' /\
     forall k, k <> UINT64_MAX ->
       table_lookup nb t' k = if k =? record_key record then Some record else table_lookup nb t k).
Proof.
  intros Ht Hl Hk Hnb Hfull. pose proof (is_full_room nb t Ht Hnb Hfull) as Hroom.
  destruct (ohtable_put_spec nb t e record Ht Hl Hk Hfull (table_has_empty nb t Ht Hroom)) as (err & t' & e' & Hput & Hspec).
  exists err, t', e'. split; [done|]. intros Hok. destruct (Hspec Hok) as [Ht' Hst]. split; [done|].
  intros k Hk'. by apply table_lookup_put.
Qed.

(** A lookup, with the displacement that it can reach. *)
Lemma ohtable_get_lookup (t : ohtable RAM) e k buf err out t' e' : table_inv nb t -> k <> UINT64_MAX ->
  ohtable_get t e k buf = (err, out, t', e') -> is_success err = true ->
  table_inv nb t' /\ slots_of nb (t_oram t') = slots_of nb (t_oram t) /\ t_max_offset t' = t_max_offset t /\
  (forall s r, slots_of nb (t_oram t) !! s = Some r -> record_key r = k ->
     Z.of_nat (jump_at (24 * nb) k s) <= t_max_offset t -> out = r) /\
  (table_lookup nb t k = None ->
     out = replicate RECORD_SIZE UINT64_MAX \/
     (out = buf /\ forall i r, Z.of_nat i <= t_max_offset t ->
        slots_of nb (t_oram t) !! ((home (24 * nb) k + i) mod (24 * nb))%nat = Some r -> record_key r <> UINT64_MAX)).
Proof.
  intros Ht Hk E Hok.
  destruct (ohtable_get_scan nb t e k buf err out t' e' Ht E Hok) as (Ht' & Hsl & Hmo & args & u & -> & Hu & Hsc).
  pose proof (proj1 (tb_range _ _ Ht)) as Hnb. pose proof (tb_slots _ _ Ht) as Hrh.
  split_and!; [done|done|done| |].
  - intros s r Hr Ek Hj. apply (scan_found nb Hnb _ Hrh k buf u args Hk Hsc s r Hr Ek). lia.
  - intros Hl. destruct (scan_absent nb _ Hrh k buf u args Hsc (table_lookup_None nb t k Ht Hl)) as [->|[-> Hn]]; [by left|right].
    split; [done|]. intros i r Hi. apply Hn. lia.
Qed.

(** What a lookup can return: a record of the key, an empty one, or the buffer. *)
Lemma ohtable_get_answer (t : ohtable RAM) e k buf err out t' e' : table_inv nb t ->
  ohtable_get t e k buf = (err, out, t', e') -> is_success err = true ->
  out = buf \/ (length out = RECORD_SIZE /\ (record_key out = k \/ out = replicate RECORD_SIZE UINT64_MAX)).
Proof.
  intros Ht E Hok. destruct (ohtable_get_scan nb t e k buf err out t' e' Ht E Hok) as (_ & _ & _ & args & u & -> & _ & Hsc).
  destruct (sc_state _ _ _ _ _ _ _ Hsc) as [(_ & Ho & _)|(_ & p & _ & Hout & Hst & _)]; [by left|right].
  pose proof (tb_slots _ _ Ht) as Hrh. split; [exact (Forall_lookup_1 _ _ _ _ (ri_sizes _ _ Hrh) Hout)|].
  unfold stops, record_empty_or_matches in Hst. rewrite orb_true_iff, !Z.eqb_eq in Hst.
  destruct Hst as [Hst|Hst]; [right; by apply (ri_blank _ _ Hrh _ _ Hout)|by left].
Qed.
End MapOps.
