(* ===== verification/OHTableTheorems.v ===== *)
(** * The theorems about the hash table

    Insertion, lookup, clearing and creation of the table over any ORAM that
    satisfies the ORAM interface, with a table of one block over a Path ORAM as
    the example; and the underestimated [max_offset]. *)

From S2P Require Import Prelude Errors Util Bucket PositionMap PathOram PathOramSpec OramInterface OramPositionMap OHTable RobinHood OHTableSpec.
Local Open Scope Z_scope.

(** ** A table of one block *)

Definition small_entropy : entropy := {| source := fun k => (Z.of_nat k * 7919) mod 2 ^ 64; drawn := 0 |}.

Definition small_oram : inner_oram :=
  oram_new 2 4 1 scan_recursion_depth (scan_position_map_new 1 2 small_entropy).1.

Definition small_table : ohtable inner_oram := ohtable_create_on small_oram 1 RECORD_SIZE.

Definition small_record (k v : Z) : list Z := k :: replicate 6 v.

Lemma small_oram_inv : oram_inv 2 4 1 small_oram.
Proof.
  apply oram_new_inv; [lia|done|].
  destruct (scan_position_map_new 1 2 small_entropy) as [pm e] eqn:E.
  apply (scan_position_map_new_inv 1 2 small_entropy pm e); [lia|exact E].
Qed.

Lemma small_table_inv : table_inv 1 small_table.
Proof.
  apply ohtable_create_inv; [lia|lia|exists 2%nat, 4%nat; apply small_oram_inv|].
  intros i. apply oram_new_data. lia.
Qed.

(** ** The properties *)

(** C14. Insertion into the hash table: below the 98% mark the insertion loop
    ends; if no ORAM access failed, the table stays well-formed (every record
    can be reached from its home slot, no key occurs twice, the item count is
    exact), the key now maps to the record, and every other key maps to what it
    mapped to before. *)
Theorem ohtable_put_correct {RAM} `{ObliviousRamSpec RAM} nb (t : ohtable RAM) e record :
  table_inv nb t -> length record = RECORD_SIZE -> record_key record <> UINT64_MAX ->
  24 * Z.of_nat nb < 2 ^ 53 -> is_full t = false ->
  exists err t' e', ohtable_put t e record = Some (err, t', e') /\
    (is_success err = true -> table_inv nb t' /\
     forall k, k <> UINT64_MAX ->
       table_lookup nb t' k = if k =? record_key record then Some record else table_lookup nb t k).
Proof. apply ohtable_put_lookup. Qed.

Lemma ohtable_put_correct_witness :
  exists t' e', ohtable_put small_table small_entropy (small_record 58 7) = Some (err_SUCCESS, t', e') /\
    table_inv 1 t' /\ table_lookup 1 t' 58 = Some (small_record 58 7).
Proof.
  destruct (ohtable_put_correct 1 small_table small_entropy (small_record 58 7) small_table_inv eq_refl
    ltac:(discriminate) ltac:(lia) ltac:(vm_compute; reflexivity)) as (err & t' & e' & Hput & Hspec).
  assert (Herr : match ohtable_put small_table small_entropy (small_record 58 7) with
    | Some (err, _, _) => err | None => err_OHTABLE__TABLE_FULL end = err_SUCCESS) by (vm_compute; reflexivity).
  rewrite Hput in Herr. subst err. exists t', e'. split; [exact Hput|].
  destruct (Hspec eq_refl) as [Ht' Hl]. split; [exact Ht'|]. exact (Hl 58 ltac:(discriminate)).
Defined.

(** C15. Lookup in the hash table: a get whose ORAM accesses succeed leaves the
    table's contents as they were and returns the record stored under the key,
    if the record's displacement is at most the recorded [max_offset]; for a
    key that is not stored it returns the all-ones record, or leaves the
    caller's buffer untouched if it saw no empty slot. *)
Theorem ohtable_get_correct {RAM} `{ObliviousRamSpec RAM} nb (t : ohtable RAM) e k buf :
  table_inv nb t -> k <> UINT64_MAX ->
  let '(err, out, t', _) := ohtable_get t e k buf in
  is_success err = true ->
  table_inv nb t' /\ slots_of nb (t_oram t') = slots_of nb (t_oram t) /\
  (forall s r, slots_of nb (t_oram t) !! s = Some r -> record_key r = k ->
     Z.of_nat (jump_at (24 * nb) k s) <= t_max_offset t -> out = r) /\
  (table_lookup nb t k = None ->
     out = replicate RECORD_SIZE UINT64_MAX \/
     (out = buf /\ forall i r, Z.of_nat i <= t_max_offset t ->
        slots_of nb (t_oram t) !! ((home (24 * nb) k + i) mod (24 * nb))%nat = Some r -> record_key r <> UINT64_MAX)).
Proof.
  intros Ht Hk. destruct (ohtable_get t e k buf) as [[[err out] t'] e'] eqn:E. intros Hok.
  destruct (ohtable_get_lookup nb t e k buf err out t' e' Ht Hk E Hok) as (? & ? & _ & ? & ?). done.
Qed.

(** The table after a put. *)
Definition stored_table : ohtable inner_oram :=
  match ohtable_put small_table small_entropy (small_record 58 7) with Some (_, t, _) => t | None => small_table end.

Lemma stored_table_inv : table_inv 1 stored_table.
Proof.
  destruct (ohtable_put_lookup 1 small_table small_entropy (small_record 58 7) small_table_inv eq_refl
    ltac:(discriminate) ltac:(lia) ltac:(vm_compute; reflexivity)) as (err & t' & e' & Hput & Hspec).
  assert (Herr : match ohtable_put small_table small_entropy (small_record 58 7) with
    | Some (err, _, _) => err | None => err_OHTABLE__TABLE_FULL end = err_SUCCESS) by (vm_compute; reflexivity).
  unfold stored_table. rewrite Hput in *. subst err. by apply Hspec.
Qed.

(** The stored record is found; another key is answered with the all-ones
    record, as its slots are empty. *)
Lemma ohtable_get_correct_witness :
  (ohtable_get stored_table small_entropy 58 []).1.1.2 = small_record 58 7 /\
  (ohtable_get stored_table small_entropy 19 []).1.1.2 = replicate RECORD_SIZE UINT64_MAX.
Proof.
  assert (Hok : andb (is_success (ohtable_get stored_table small_entropy 58 []).1.1.1) (is_success (ohtable_get stored_table small_entropy 19 []).1.1.1) = true)
    by (vm_compute; reflexivity).
  apply andb_true_iff in Hok as [H1 H2]. split.
  - pose proof (ohtable_get_correct 1 stored_table small_entropy 58 [] stored_table_inv ltac:(discriminate)) as Hg.
    destruct (ohtable_get stored_table small_entropy 58 []) as [[[err out] t'] e'].
    destruct (Hg H1) as (_ & _ & Hf & _). apply (Hf (home 24 58)); vm_compute; [reflexivity|reflexivity|discriminate].
  - pose proof (ohtable_get_correct 1 stored_table small_entropy 19 [] stored_table_inv ltac:(discriminate)) as Hg.
    destruct (ohtable_get stored_table small_entropy 19 []) as [[[err out] t'] e'].
    destruct (Hg H2) as (_ & _ & _ & Ha). destruct Ha as [Ha|[_ Ha]]; [vm_compute; reflexivity|exact Ha|].
    exfalso. apply (Ha 0%nat (replicate RECORD_SIZE UINT64_MAX)); vm_compute; [discriminate|reflexivity|reflexivity].
Defined.

(** Clearing the hash table removes every record and leaves a well-formed
    table; so does creating it over an ORAM of blank blocks. *)
Theorem ohtable_clear_create_correct {RAM} `{ObliviousRamSpec RAM} nb (t : ohtable RAM) (o : RAM) :
  table_inv nb t -> ram_inv (Z.of_nat nb) o ->
  (forall i, ram_get o i = replicate BLOCK_DATA_SIZE_QWORDS UINT64_MAX) ->
  (table_inv nb (ohtable_clear t) /\ t_num_items (ohtable_clear t) = 0 /\
   forall k, k <> UINT64_MAX -> table_lookup nb (ohtable_clear t) k = None) /\
  table_inv nb (ohtable_create_on o (Z.of_nat nb) RECORD_SIZE).
Proof.
  intros Ht Ho Hget. pose proof (tb_range _ _ Ht) as [Hnb HNb]. split; [|by apply ohtable_create_inv].
  destruct (ohtable_clear_inv nb t Ht) as [Hc Hl]. done.
Qed.

Lemma ohtable_clear_create_correct_witness : table_inv 1 (ohtable_clear small_table).
Proof.
  apply (ohtable_clear_create_correct 1 small_table small_oram small_table_inv
    ltac:(exists 2%nat, 4%nat; apply small_oram_inv) ltac:(intros i; apply oram_new_data; lia)).
Defined.

(** Above 98% load every put is refused with [err_OHTABLE__TABLE_FULL] and
    changes nothing, also an update of a stored key. *)
Theorem ohtable_put_full {RAM} `{ObliviousRam RAM} (t : ohtable RAM) e record : is_full t = true ->
  ohtable_put t e record = Some (err_OHTABLE__TABLE_FULL, t, e).
Proof. intros Hf. unfold ohtable_put. by rewrite Hf. Qed.

Definition full_table : ohtable inner_oram :=
  {| t_oram := small_oram; t_capacity := 24; t_record_size_qwords := RECORD_SIZE; t_items_per_block := 24;
     t_num_blocks := 1; t_temp_record := []; t_max_offset := 0; t_max_trace_length := 0;
     t_total_displacement := 0; t_num_items := 24; t_swap_buf := []; t_capacity_ct := prep_ct_div 24;
     t_items_per_block_ct := prep_ct_div 24 |}.

Lemma ohtable_put_full_witness :
  ohtable_put full_table small_entropy (small_record 1 2) = Some (err_OHTABLE__TABLE_FULL, full_table, small_entropy).
Proof. apply (ohtable_put_full full_table small_entropy (small_record 1 2)). vm_compute. reflexivity. Defined.
