(* ===== verification/Queue.v ===== *)
(** * The blocking queue ([c/sharded_ohtable/queue.c])

    The critical sections of the queue's operations, which run under its mutex,
    refine a bounded first-in first-out list.  The blocking is a step relation
    on the queue and the threads that wait on its condition variables or have
    been woken; the invariant says that no wake-up is lost. *)

From S2P Require Import Prelude Errors.
Local Open Scope nat_scope.

(** ** Definitions *)

Definition QUEUE_SIZE : nat := 20.

(** [struct queue] without the mutex and the condition variables; [None] is the
    null pointer. *)
Record queue (A : Type) := Queue {
  items : list (option A);
  num_items : nat;
  add : nat;
  rem : nat;
  closed : bool;
}.
Arguments Queue {A}.
Arguments items {A}.
Arguments num_items {A}.
Arguments add {A}.
Arguments rem {A}.
Arguments closed {A}.

Definition queue_create {A} : queue A :=
  {| items := replicate QUEUE_SIZE None; num_items := 0; add := 0; rem := 0; closed := false |}.

Definition queue_close {A} (q : queue A) : queue A :=
  {| items := items q; num_items := num_items q; add := add q; rem := rem q; closed := true |}.

(** The condition on which a producer waits. *)
Definition add_blocked {A} (q : queue A) : bool := (num_items q =? QUEUE_SIZE) && negb (closed q).

(** [queue_add_item] after its wait loop. *)
Definition queue_add_item {A} (q : queue A) (item : A) : error_t * queue A :=
  if closed q then (err_QUEUE__CLOSED, q)
  else (err_SUCCESS,
        {| items := <[add q := Some item]> (items q); num_items := num_items q + 1;
           add := (add q + 1) mod QUEUE_SIZE; rem := rem q; closed := closed q |}).

(** [queue_next_item] after its wait loop; without [block] an empty queue gives
    the null pointer. *)
Definition queue_next_item {A} (q : queue A) : option A * queue A :=
  if num_items q =? 0 then (None, q)
  else (default None (items q !! rem q),
        {| items := items q; num_items := num_items q - 1; add := add q;
           rem := (rem q + 1) mod QUEUE_SIZE; closed := closed q |}).

(** The queue with the numbers of threads that wait on the producers' and the
    consumers' condition variable, and of threads that were woken and have not
    yet taken the mutex again. *)
Record monitor (A : Type) := Monitor {
  mq : queue A;
  wait_prod : nat;
  wait_cons : nat;
  woken_prod : nat;
  woken_cons : nat;
}.
Arguments Monitor {A}.
Arguments mq {A}.
Arguments wait_prod {A}.
Arguments wait_cons {A}.
Arguments woken_prod {A}.
Arguments woken_cons {A}.

(** [pthread_cond_signal] wakes a waiting thread, if there is one. *)
Definition signal_prod {A} (m : monitor A) : monitor A :=
  {| mq := mq m; wait_prod := wait_prod m - 1; wait_cons := wait_cons m;
     woken_prod := woken_prod m + (if wait_prod m =? 0 then 0 else 1); woken_cons := woken_cons m |}.
Definition signal_cons {A} (m : monitor A) : monitor A :=
  {| mq := mq m; wait_prod := wait_prod m; wait_cons := wait_cons m - 1;
     woken_prod := woken_prod m; woken_cons := woken_cons m + (if wait_cons m =? 0 then 0 else 1) |}.

Definition with_queue {A} (m : monitor A) (q : queue A) : monitor A :=
  {| mq := q; wait_prod := wait_prod m; wait_cons := wait_cons m; woken_prod := woken_prod m; woken_cons := woken_cons m |}.

(** The end of [queue_add_item] with its signals. *)
Definition do_add {A} (m : monitor A) (item : A) : error_t * monitor A :=
  let '(err, q) := queue_add_item (mq m) item in
  let m := with_queue m q in
  let m := if closed q then m else signal_cons m in
  (err, if num_items q <? QUEUE_SIZE then signal_prod m else m).

(** The end of [queue_next_item] on a non-empty queue with its signals. *)
Definition do_next {A} (m : monitor A) : option A * monitor A :=
  let '(r, q) := queue_next_item (mq m) in
  let m := signal_prod (with_queue m q) in
  (r, if 0 <? num_items q then signal_cons m else m).

(** [queue_close] wakes all producers. *)
Definition do_close {A} (m : monitor A) : monitor A :=
  {| mq := queue_close (mq m); wait_prod := 0; wait_cons := wait_cons m;
     woken_prod := woken_prod m + wait_prod m; woken_cons := woken_cons m |}.

(** What a step adds to, or takes from, the queue. *)
Inductive event (A : Type) := Added (item : A) | Refused (item : A) | Taken (result : option A) | Silent.
Arguments Added {A}.
Arguments Refused {A}.
Arguments Taken {A}.
Arguments Silent {A}.

(** A thread enters an operation with [w = 0], or comes back from its wait with
    [w = 1], which takes it from the woken threads. *)
Inductive step {A} : monitor A -> event A -> monitor A -> Prop :=
  | step_prod_wait m w : w <= woken_prod m -> w <= 1 -> add_blocked (mq m) = true ->
      step m Silent {| mq := mq m; wait_prod := wait_prod m + 1; wait_cons := wait_cons m;
                       woken_prod := woken_prod m - w; woken_cons := woken_cons m |}
  | step_add m w item m' : w <= woken_prod m -> w <= 1 -> add_blocked (mq m) = false -> closed (mq m) = false ->
      do_add {| mq := mq m; wait_prod := wait_prod m; wait_cons := wait_cons m;
                woken_prod := woken_prod m - w; woken_cons := woken_cons m |} item = (err_SUCCESS, m') ->
      step m (Added item) m'
  | step_refuse m w item m' : w <= woken_prod m -> w <= 1 -> closed (mq m) = true ->
      do_add {| mq := mq m; wait_prod := wait_prod m; wait_cons := wait_cons m;
                woken_prod := woken_prod m - w; woken_cons := woken_cons m |} item = (err_QUEUE__CLOSED, m') ->
      step m (Refused item) m'
  | step_cons_wait m w : w <= woken_cons m -> w <= 1 -> num_items (mq m) = 0 ->
      step m Silent {| mq := mq m; wait_prod := wait_prod m; wait_cons := wait_cons m + 1;
                       woken_prod := woken_prod m; woken_cons := woken_cons m - w |}
  | step_next m w r m' : w <= woken_cons m -> w <= 1 -> num_items (mq m) <> 0 ->
      do_next {| mq := mq m; wait_prod := wait_prod m; wait_cons := wait_cons m;
                 woken_prod := woken_prod m; woken_cons := woken_cons m - w |} = (r, m') ->
      step m (Taken r) m'
  | step_poll m : num_items (mq m) = 0 -> step m (Taken None) m
  | step_close m : step m Silent (do_close m)
  | step_spurious_prod m : wait_prod m <> 0 ->
      step m Silent {| mq := mq m; wait_prod := wait_prod m - 1; wait_cons := wait_cons m;
                       woken_prod := woken_prod m + 1; woken_cons := woken_cons m |}
  | step_spurious_cons m : wait_cons m <> 0 ->
      step m Silent {| mq := mq m; wait_prod := wait_prod m; wait_cons := wait_cons m - 1;
                       woken_prod := woken_prod m; woken_cons := woken_cons m + 1 |}.

(** Executions from a fresh queue, with their events in order. *)
Inductive reachable {A} : list (event A) -> monitor A -> Prop :=
  | reach_init : reachable [] {| mq := queue_create; wait_prod := 0; wait_cons := 0; woken_prod := 0; woken_cons := 0 |}
  | reach_step tr m ev m' : reachable tr m -> step m ev m' -> reachable (tr ++ [ev]) m'.

(** The items of a trace that went in and came out. *)
Fixpoint added {A} (tr : list (event A)) : list A :=
  match tr with
  | [] => []
  | Added x :: tr => x :: added tr
  | _ :: tr => added tr
  end.
Fixpoint taken {A} (tr : list (event A)) : list A :=
  match tr with
  | [] => []
  | Taken (Some x) :: tr => x :: taken tr
  | _ :: tr => taken tr
  end.

(** The items in the ring, oldest first. *)
Definition contents {A} (q : queue A) : list (option A) :=
  map (fun i => default None (items q !! ((rem q + i) mod QUEUE_SIZE))) (seq 0 (num_items q)).

Record queue_wf {A} (q : queue A) : Prop := {
  qw_length : length (items q) = QUEUE_SIZE;
  qw_num : num_items q <= QUEUE_SIZE;
  qw_rem : rem q < QUEUE_SIZE;
  qw_add : add q = (rem q + num_items q) mod QUEUE_SIZE;
}.

(** No wake-up is lost: a thread waits only while its condition holds or some
    thread of its kind is on its way to the mutex. *)
Record wakeups {A} (m : monitor A) : Prop := {
  wu_cons : wait_cons m <> 0 -> num_items (mq m) <> 0 -> woken_cons m <> 0;
  wu_prod : wait_prod m <> 0 -> add_blocked (mq m) = false -> woken_prod m <> 0;
  wu_closed : closed (mq m) = true -> wait_prod m = 0;
}.

(** ** The ring refines a list *)

Lemma added_app {A} (tr tr' : list (event A)) : added (tr ++ tr') = added tr ++ added tr'.
Proof. induction tr as [|[] tr IH]; simpl; by rewrite ?IH. Qed.

Lemma taken_app {A} (tr tr' : list (event A)) : taken (tr ++ tr') = taken tr ++ taken tr'.
Proof. induction tr as [|[|?|[?|]|] tr IH]; simpl; by rewrite ?IH. Qed.

Lemma ring_inj r i j : i < QUEUE_SIZE -> j < QUEUE_SIZE -> (r + i) mod QUEUE_SIZE = (r + j) mod QUEUE_SIZE -> i = j.
Proof.
  unfold QUEUE_SIZE. intros Hi Hj E.
  pose proof (Nat.div_mod_eq (r + i) 20). pose proof (Nat.div_mod_eq (r + j) 20). lia.
Qed.

Lemma queue_create_wf {A} : queue_wf (A := A) queue_create /\ contents (A := A) queue_create = [].
Proof. split; [|done]. constructor; simpl; unfold QUEUE_SIZE; dlia. Qed.

Lemma queue_add_spec {A} (q : queue A) item q' : queue_wf q -> add_blocked q = false -> closed q = false ->
  queue_add_item q item = (err_SUCCESS, q') ->
  queue_wf q' /\ contents q' = contents q ++ [Some item] /\ num_items q' = num_items q + 1 /\ closed q' = false.
Proof.
  intros [Hl Hn Hr Ha] Hb Hc. unfold add_blocked in Hb. rewrite Hc, andb_true_r in Hb. apply Nat.eqb_neq in Hb.
  unfold queue_add_item. rewrite Hc. intros E. apply (f_equal snd) in E. cbn [snd] in E. subst q'. split_and!; try done.
  - constructor; cbn [items num_items add rem]; rewrite ?length_insert; [done|lia|done|].
    rewrite Ha, Nat.Div0.add_mod_idemp_l. f_equal. lia.
  - unfold contents. cbn [items rem num_items]. rewrite Nat.add_1_r, seq_S, map_app. f_equal.
    + apply map_ext_in. intros i Hi. apply in_seq in Hi. rewrite list_lookup_insert_ne; [done|]. rewrite Ha.
      intros E. apply ring_inj in E; unfold QUEUE_SIZE in *; lia.
    + simpl map. rewrite Ha, list_lookup_insert_eq; [done|]. rewrite Hl. apply Nat.mod_upper_bound. done.
Qed.

Lemma queue_next_spec {A} (q : queue A) r q' : queue_wf q -> num_items q <> 0 -> queue_next_item q = (r, q') ->
  queue_wf q' /\ contents q = r :: contents q' /\ num_items q' = num_items q - 1 /\ closed q' = closed q.
Proof.
  intros [Hl Hn Hr Ha] Hne. unfold queue_next_item. rewrite (proj2 (Nat.eqb_neq _ _) Hne).
  intros E. pose proof (f_equal fst E) as E1. apply (f_equal snd) in E. cbn [fst snd] in E, E1. subst q' r.
  split_and!; try done.
  - constructor; cbn [items num_items add rem]; [done|lia|by apply Nat.mod_upper_bound|]. rewrite Ha, Nat.Div0.add_mod_idemp_l. f_equal. lia.
  - unfold contents. cbn [items rem num_items]. destruct (num_items q) as [|n] eqn:En; [done|].
    simpl (S n - 1). rewrite Nat.sub_0_r. cbn [seq map]. rewrite Nat.add_0_r, (Nat.mod_small (rem q)) by done.
    f_equal. rewrite <- seq_shift, map_map. apply map_ext. intros i. do 2 f_equal.
    rewrite Nat.Div0.add_mod_idemp_l. f_equal. lia.
Qed.

Lemma contents_length {A} (q : queue A) : length (contents q) = num_items q.
Proof. unfold contents. by rewrite length_map, length_seq. Qed.

(** ** The monitor's invariant *)

(** The state of the monitor and the trace that led to it. *)
Record monitor_inv {A} (tr : list (event A)) (m : monitor A) : Prop := {
  mi_wf : queue_wf (mq m);
  mi_wakeups : wakeups m;
  mi_fifo : map Some (added tr) = map Some (taken tr) ++ contents (mq m);
}.

Lemma do_add_state {A} (m : monitor A) item m' : closed (mq m) = false -> do_add m item = (err_SUCCESS, m') ->
  exists q, queue_add_item (mq m) item = (err_SUCCESS, q) /\ mq m' = q /\
  wait_cons m' = wait_cons m - 1 /\ woken_cons m' = woken_cons m + (if wait_cons m =? 0 then 0 else 1) /\
  (if num_items q <? QUEUE_SIZE
   then wait_prod m' = wait_prod m - 1 /\ woken_prod m' = woken_prod m + (if wait_prod m =? 0 then 0 else 1)
   else wait_prod m' = wait_prod m /\ woken_prod m' = woken_prod m).
Proof.
  intros Hc. unfold do_add, queue_add_item. rewrite Hc. cbn [closed num_items].
  intros E. apply (f_equal snd) in E. cbn [snd] in E. subst m'. eexists. split; [done|]. cbn [num_items].
  by case_cond.
Qed.

Lemma do_next_state {A} (m : monitor A) r m' : num_items (mq m) <> 0 -> do_next m = (r, m') ->
  exists q, queue_next_item (mq m) = (r, q) /\ mq m' = q /\
  wait_prod m' = wait_prod m - 1 /\ woken_prod m' = woken_prod m + (if wait_prod m =? 0 then 0 else 1) /\
  (if 0 <? num_items q
   then wait_cons m' = wait_cons m - 1 /\ woken_cons m' = woken_cons m + (if wait_cons m =? 0 then 0 else 1)
   else wait_cons m' = wait_cons m /\ woken_cons m' = woken_cons m).
Proof.
  intros Hne. unfold do_next. destruct (queue_next_item (mq m)) as [r0 q]. intros E.
  pose proof (f_equal fst E) as E1. apply (f_equal snd) in E. cbn [fst snd] in E, E1. subst m' r0.
  exists q. split; [done|]. by case_cond.
Qed.

(** Only stored items are in the ring, so what a consumer takes is one of them. *)
Lemma fifo_next {A} (a t : list A) r c : map Some a = map Some t ++ r :: c ->
  exists x, r = Some x /\ map Some a = map Some (t ++ [x]) ++ c.
Proof.
  intros E. assert (In r (map Some a)) as Hin by (rewrite E; apply in_elt).
  apply in_map_iff in Hin as (x & <- & _). exists x. split; [done|]. by rewrite map_app, <- app_assoc.
Qed.

Lemma add_blocked_false {A} (q : queue A) : add_blocked q = false <-> num_items q <> QUEUE_SIZE \/ closed q = true.
Proof. unfold add_blocked. rewrite andb_false_iff, negb_false_iff, Nat.eqb_neq. done. Qed.

Lemma add_blocked_true {A} (q : queue A) : add_blocked q = true <-> num_items q = QUEUE_SIZE /\ closed q = false.
Proof. unfold add_blocked. rewrite andb_true_iff, negb_true_iff, Nat.eqb_eq. done. Qed.

Lemma add_wakeups {A} (m : monitor A) w item m' : queue_wf (mq m) -> wakeups m -> w <= 1 ->
  add_blocked (mq m) = false -> closed (mq m) = false ->
  do_add {| mq := mq m; wait_prod := wait_prod m; wait_cons := wait_cons m;
            woken_prod := woken_prod m - w; woken_cons := woken_cons m |} item = (err_SUCCESS, m') ->
  queue_wf (mq m') /\ contents (mq m') = contents (mq m) ++ [Some item] /\ wakeups m'.
Proof.
  intros Hwf [Wc Wp Wx] H2 Hb Hc Hd. apply do_add_state in Hd as (q & Hq & Em & E1 & E2 & E3); [|done].
  apply queue_add_spec in Hq as (Hwf' & Hcs & Hn & Hc'); [|done..]. cbn [mq wait_prod wait_cons woken_prod woken_cons] in *.
  rewrite Em. split_and!; [done..|]. destruct (Nat.ltb_spec (num_items q) QUEUE_SIZE) as [Hlt|Hge];
    destruct E3 as [E3 E4]; pose proof (qw_num _ Hwf'); constructor; rewrite Em, ?add_blocked_false, ?E1, ?E2, ?E3, ?E4, ?Hc';
    try congruence; repeat case_cond; breflect; try lia; intros ? [?|?]; congruence || lia.
Qed.

Lemma next_wakeups {A} (m : monitor A) w r m' : queue_wf (mq m) -> wakeups m -> w <= 1 -> num_items (mq m) <> 0 ->
  do_next {| mq := mq m; wait_prod := wait_prod m; wait_cons := wait_cons m;
             woken_prod := woken_prod m; woken_cons := woken_cons m - w |} = (r, m') ->
  queue_wf (mq m') /\ contents (mq m) = r :: contents (mq m') /\ wakeups m'.
Proof.
  intros Hwf [Wc Wp Wx] H2 Hz Hd. apply do_next_state in Hd as (q & Hq & Em & E1 & E2 & E3); [|done].
  apply queue_next_spec in Hq as (Hwf' & Hcs & Hn & Hc'); [|done..]. cbn [mq wait_prod wait_cons woken_prod woken_cons] in *.
  rewrite Em. split_and!; [done..|]. destruct (Nat.ltb_spec 0 (num_items q)) as [Hlt|Hge]; destruct E3 as [E3 E4];
    constructor; rewrite Em, ?E1, ?E2, ?E3, ?E4, ?Hc'; repeat case_cond; breflect; try lia; intros Hcl; specialize (Wx Hcl); lia.
Qed.

Lemma refuse_state {A} (m : monitor A) item m' : closed (mq m) = true -> wait_prod m = 0 ->
  do_add m item = (err_QUEUE__CLOSED, m') ->
  mq m' = mq m /\ wait_prod m' = 0 /\ wait_cons m' = wait_cons m /\ woken_cons m' = woken_cons m.
Proof.
  intros Hc Hw. unfold do_add, queue_add_item. rewrite Hc. intros E. apply (f_equal snd) in E. cbn [snd] in E.
  rewrite Hc in E. subst m'. case_cond; cbn [signal_prod with_queue mq wait_prod wait_cons woken_cons]; by rewrite ?Hw.
Qed.

(** What one step keeps; the traces grow at the end. *)
Lemma step_inv {A} tr (m : monitor A) e m' : monitor_inv tr m -> step m e m' -> monitor_inv (tr ++ [e]) m'.
Proof.
  intros [Hwf Hwu Hf] Hs. pose proof Hwu as [Wc Wp Wx].
  destruct Hs as [m w H1 H2 Hb|m w item m' H1 H2 Hb Hc Hd|m w item m' H1 H2 Hc Hd|m w H1 H2 Hz|m w r m' H1 H2 Hz Hd|m Hz|m|m Hw|m Hw].
  - constructor; cbn [mq]; [done| |by rewrite added_app, taken_app, !app_nil_r].
    constructor; cbn [mq wait_prod wait_cons woken_prod woken_cons]; [done|congruence|].
    apply add_blocked_true in Hb as [_ Hb]. congruence.
  - apply add_wakeups in Hd as (Hwf' & Hcs & Hwu'); [|done..]. constructor; [done..|].
    rewrite added_app, taken_app, Hcs. cbn [added taken]. by rewrite map_app, Hf, app_nil_r, app_assoc.
  - apply refuse_state in Hd as (Em & E1 & E2 & E3); [|done|cbn [wait_prod]; auto]. cbn [mq wait_cons woken_cons] in *.
    constructor; rewrite ?Em; [done| |by rewrite added_app, taken_app, !app_nil_r].
    constructor; rewrite ?Em, ?E1, ?E2, ?E3; [done|lia|done].
  - constructor; cbn [mq]; [done| |by rewrite added_app, taken_app, !app_nil_r].
    constructor; cbn [mq wait_prod wait_cons woken_prod woken_cons]; [lia|done..].
  - apply next_wakeups in Hd as (Hwf' & Hcs & Hwu'); [|done..]. rewrite Hcs in Hf.
    apply fifo_next in Hf as (x & -> & Hf). constructor; [done..|].
    rewrite added_app, taken_app. cbn [added taken]. by rewrite app_nil_r.
  - constructor; [done..|]. rewrite added_app, taken_app. cbn [added taken]. by rewrite !app_nil_r.
  - constructor; [by destruct Hwf; constructor| |by rewrite added_app, taken_app, !app_nil_r].
    constructor; cbn [do_close mq wait_prod wait_cons woken_prod woken_cons]; [done|lia|done].
  - constructor; [done| |by rewrite added_app, taken_app, !app_nil_r].
    constructor; cbn [mq wait_prod wait_cons woken_prod woken_cons]; [done|lia|]. intros Hc. specialize (Wx Hc). lia.
  - constructor; [done| |by rewrite added_app, taken_app, !app_nil_r].
    constructor; cbn [mq wait_prod wait_cons woken_prod woken_cons]; [lia|done|done].
Qed.

Lemma reachable_inv {A} tr (m : monitor A) : reachable tr m -> monitor_inv tr m.
Proof.
  induction 1 as [|tr m e m' Hr IH Hs]; [|by eapply step_inv].
  constructor; [apply queue_create_wf| |done]. constructor; done.
Qed.

(** ** Properties *)

(** C37. In every interleaving of producers, consumers, polls, closings and
    spurious wake-ups of the queue, what the consumers have taken followed by
    what is in the ring is what the producers have added, in the order they
    added it: nothing is lost, duplicated, reordered or made up, and at most
    twenty items are in the ring. *)
Theorem queue_fifo {A} tr (m : monitor A) : reachable tr m ->
  map Some (added tr) = map Some (taken tr) ++ contents (mq m) /\
  length (contents (mq m)) = num_items (mq m) /\ num_items (mq m) <= QUEUE_SIZE.
Proof. intros [Hwf _ Hf]%reachable_inv. split_and!; [done|apply contents_length|apply Hwf]. Qed.

(** C38. No wake-up of the queue is lost: in every reachable state a consumer
    that waits while the ring has an item has another consumer woken before it,
    a producer that waits while the ring has room likewise, and no producer
    waits on a closed queue. *)
Theorem queue_no_lost_wakeup {A} tr (m : monitor A) : reachable tr m ->
  (wait_cons m <> 0 -> num_items (mq m) <> 0 -> woken_cons m <> 0) /\
  (wait_prod m <> 0 -> num_items (mq m) < QUEUE_SIZE -> woken_prod m <> 0) /\
  (closed (mq m) = true -> wait_prod m = 0).
Proof.
  intros [_ [Wc Wp Wx] _]%reachable_inv. split_and!; [done| |done].
  intros Hw Hn. apply Wp; [done|]. apply add_blocked_false. lia.
Qed.

(** A consumer waits, two items come in, and the woken consumer takes the
    first. *)
Definition waiting_run : list (event nat) := [Silent; Added 7; Added 8; Taken (Some 7)].

Definition waiting_0 : monitor nat :=
  {| mq := queue_create; wait_prod := 0; wait_cons := 0; woken_prod := 0; woken_cons := 0 |}.
Definition waiting_1 : monitor nat :=
  {| mq := queue_create; wait_prod := 0; wait_cons := 1; woken_prod := 0; woken_cons := 0 |}.
Definition waiting_2 : monitor nat := Eval vm_compute in snd (do_add waiting_1 7).
Definition waiting_3 : monitor nat := Eval vm_compute in snd (do_add waiting_2 8).
Definition waiting_4 : monitor nat := Eval vm_compute in
  snd (do_next {| mq := mq waiting_3; wait_prod := 0; wait_cons := 0; woken_prod := 0; woken_cons := 0 |}).

Lemma waiting_run_reachable : reachable waiting_run waiting_4.
Proof.
  apply (reach_step [Silent; Added 7; Added 8] waiting_3).
  - apply (reach_step [Silent; Added 7] waiting_2).
    + apply (reach_step [Silent] waiting_1).
      * apply (reach_step [] waiting_0); [apply reach_init|].
        refine (step_cons_wait waiting_0 0 _ _ _); simpl; lia.
      * apply (step_add waiting_1 0); [simpl; lia..|done|done|vm_compute; reflexivity].
    + apply (step_add waiting_2 0); [simpl; lia..|done|done|vm_compute; reflexivity].
  - apply (step_next waiting_3 1); [simpl; lia..|vm_compute; reflexivity].
Qed.

Lemma queue_fifo_witness : reachable waiting_run waiting_4 /\ contents (mq waiting_4) = [Some 8].
Proof.
  split; [exact waiting_run_reachable|].
  destruct (queue_fifo waiting_run waiting_4 waiting_run_reachable) as (Hf & _ & _).
  exact (eq_sym (f_equal tail Hf)).
Defined.

(** Two consumers wait and one item comes in: the first is woken, the second
    still waits while the ring has the item. *)
Definition both_waiting : monitor nat :=
  {| mq := queue_create; wait_prod := 0; wait_cons := 2; woken_prod := 0; woken_cons := 0 |}.
Definition one_waiting : monitor nat := Eval vm_compute in snd (do_add both_waiting 7).

Lemma one_waiting_reachable : reachable [Silent; Silent; Added 7] one_waiting.
Proof.
  apply (reach_step [Silent; Silent] both_waiting).
  - apply (reach_step [Silent] waiting_1).
    + apply (reach_step [] waiting_0); [apply reach_init|]. refine (step_cons_wait waiting_0 0 _ _ _); simpl; lia.
    + refine (step_cons_wait waiting_1 0 _ _ _); simpl; lia.
  - apply (step_add both_waiting 0); [simpl; lia..|done|done|vm_compute; reflexivity].
Qed.

Lemma queue_no_lost_wakeup_witness :
  wait_cons one_waiting = 1 /\ num_items (mq one_waiting) = 1 /\ woken_cons one_waiting <> 0.
Proof.
  split; [done|]. split; [done|].
  destruct (queue_no_lost_wakeup [Silent; Silent; Added 7] one_waiting one_waiting_reachable) as (Hc & _ & _).
  apply Hc; discriminate.
Defined.
