(* ===== verification/PbEncoder.v ===== *)
(** * Protobuf runtime: the encoder ([c/proto/pbtools.c])

    The encoder fills its buffer from the end to the front, so a field's value
    is written before its tag and a sub-message before its length.  A position
    below zero is an error that later writes keep. *)

From S2P Require Import Prelude.
Local Open Scope Z_scope.

(** ** Definitions *)

(** Conversions to the C types [uint32_t], [int32_t] (= [int]) and [int64_t]. *)
Definition to_i32 (z : Z) : Z := let w := wrap32 z in if w <? 2 ^ 31 then w else w - 2 ^ 32.
Definition to_i64 (z : Z) : Z := let w := wrap64 z in if w <? 2 ^ 63 then w else w - 2 ^ 64.

Definition INT_MAX : Z := 2147483647.

Definition PBTOOLS_BAD_WIRE_TYPE : Z := 1.
Definition PBTOOLS_OUT_OF_DATA : Z := 2.
Definition PBTOOLS_OUT_OF_MEMORY : Z := 3.
Definition PBTOOLS_ENCODE_BUFFER_FULL : Z := 4.
Definition PBTOOLS_BAD_FIELD_NUMBER : Z := 5.
Definition PBTOOLS_VARINT_OVERFLOW : Z := 6.
Definition PBTOOLS_SEEK_OVERFLOW : Z := 7.
Definition PBTOOLS_LENGTH_DELIMITED_OVERFLOW : Z := 8.

Definition PBTOOLS_WIRE_TYPE_VARINT : Z := 0.
Definition PBTOOLS_WIRE_TYPE_64_BIT : Z := 1.
Definition PBTOOLS_WIRE_TYPE_LENGTH_DELIMITED : Z := 2.
Definition PBTOOLS_WIRE_TYPE_32_BIT : Z := 5.

(** The encoder's buffer is a list of bytes, the fields [size] and [pos] are C
    [int]s. *)
Record pbtools_encoder_t := Encoder {
  e_buf : list Z;
  e_size : Z;
  e_pos : Z;
}.

(** [memcpy(&buf[i], bs, length bs)] *)
Definition write_at (buf : list Z) (i : nat) (bs : list Z) : list Z :=
  take i buf ++ bs ++ drop (i + length bs) buf.

Definition encoder_init (buf_p : list Z) (size : Z) : pbtools_encoder_t :=
  {| e_buf := buf_p; e_size := to_i32 size; e_pos := to_i32 size - 1 |}.

(** The result and the buffer after its [memmove]. *)
Definition encoder_get_result (e : pbtools_encoder_t) : Z * list Z :=
  if e_pos e >=? 0 then
    let length := e_size e - e_pos e - 1 in
    (length, write_at (e_buf e) 0 (take (Z.to_nat length) (drop (Z.to_nat (e_pos e + 1)) (e_buf e))))
  else (e_pos e, e_buf e).

Definition encoder_abort (e : pbtools_encoder_t) (error : Z) : pbtools_encoder_t :=
  if e_size e >=? 0 then {| e_buf := e_buf e; e_size := - error; e_pos := - error |} else e.

Definition encoder_write (e : pbtools_encoder_t) (buf_p : list Z) (size : Z) : pbtools_encoder_t :=
  if e_pos e >=? size then
    let pos := e_pos e - size in
    {| e_buf := write_at (e_buf e) (Z.to_nat (pos + 1)) (take (Z.to_nat size) buf_p); e_size := e_size e; e_pos := pos |}
  else encoder_abort e PBTOOLS_ENCODE_BUFFER_FULL.

(** The bytes that the loop of [encoder_write_varint] puts into its array of
    ten; a 64-bit value needs at most ten rounds. *)
Fixpoint varint_loop (fuel : nat) (value : Z) : list Z :=
  match fuel with
  | O => []
  | S fuel =>
      let byte := Z.land (Z.lor value 0x80) 0xff in
      let value := value [>>] 7 in
      byte :: (if value >? 0 then varint_loop fuel value else [])
  end.

(** [buf[pos - 1] &= 0x7f] *)
Definition varint_buf (value : Z) : list Z :=
  let buf := varint_loop 10 value in
  alter (fun b => Z.land b 0x7f) (length buf - 1)%nat buf.

Definition encoder_write_varint (e : pbtools_encoder_t) (value : Z) : pbtools_encoder_t :=
  encoder_write e (varint_buf value) (Z.of_nat (length (varint_buf value))).

Definition encoder_write_tag (e : pbtools_encoder_t) (field_number wire_type : Z) : pbtools_encoder_t :=
  encoder_write_varint e (Z.lor (wrap32 (Z.shiftl (wrap32 field_number) 3)) (wrap32 wire_type)).

Definition encoder_write_tagged_varint (e : pbtools_encoder_t) (field_number wire_type value : Z) : pbtools_encoder_t :=
  if value >? 0 then
    let e := encoder_write_varint e value in
    encoder_write_tag e field_number wire_type
  else e.

Definition encoder_write_tagged_varint_always (e : pbtools_encoder_t) (field_number wire_type value : Z) : pbtools_encoder_t :=
  let e := encoder_write_varint e value in
  encoder_write_tag e field_number wire_type.

Definition encoder_write_length_delimited (e : pbtools_encoder_t) (field_number value : Z) : pbtools_encoder_t :=
  let e := encoder_write_varint e value in
  encoder_write_tag e field_number PBTOOLS_WIRE_TYPE_LENGTH_DELIMITED.

(** [~x] on 32 and 64 bits. *)
Definition not32 (x : Z) : Z := 2 ^ 32 - 1 - x.
Definition not64 (x : Z) : Z := 2 ^ 64 - 1 - x.

Definition sint32_encode (value : Z) : Z :=
  if value <? 0 then not32 (wrap32 (Z.shiftl (wrap32 value) 1)) else wrap32 (Z.shiftl (wrap32 value) 1).

Definition sint32_decode (value : Z) : Z :=
  if negb (Z.land value 1 =? 0) then to_i32 (not64 (value [>>] 1)) else to_i32 (value [>>] 1).

Definition sint64_encode (value : Z) : Z :=
  if value <? 0 then not64 (wrap64 value [<<] 1) else wrap64 value [<<] 1.

Definition sint64_decode (value : Z) : Z :=
  if negb (Z.land value 1 =? 0) then to_i64 (not64 (value [>>] 1)) else to_i64 (value [>>] 1).

Definition encoder_write_32_bit_value (e : pbtools_encoder_t) (value : Z) : pbtools_encoder_t :=
  encoder_write e [Z.land value 0xff; Z.land (Z.shiftr value 8) 0xff; Z.land (Z.shiftr value 16) 0xff;
    Z.land (Z.shiftr value 24) 0xff] 4.

Definition encoder_write_64_bit_value (e : pbtools_encoder_t) (value : Z) : pbtools_encoder_t :=
  encoder_write e [Z.land value 0xff; Z.land (Z.shiftr value 8) 0xff; Z.land (Z.shiftr value 16) 0xff;
    Z.land (Z.shiftr value 24) 0xff; Z.land (Z.shiftr value 32) 0xff; Z.land (Z.shiftr value 40) 0xff;
    Z.land (Z.shiftr value 48) 0xff; Z.land (Z.shiftr value 56) 0xff] 8.

(** *** Field writers

    An omitted field has its default value.  A [float] or [double] is given by
    its bit pattern, a C string by the array that holds it, a [bytes] value by
    its bytes. *)

Section Fields.
Context (e : pbtools_encoder_t) (field_number : Z).

Definition pbtools_encoder_write_int32 (value : Z) : pbtools_encoder_t :=
  encoder_write_tagged_varint e field_number PBTOOLS_WIRE_TYPE_VARINT (wrap64 value).
Definition pbtools_encoder_write_int64 (value : Z) : pbtools_encoder_t :=
  encoder_write_tagged_varint e field_number PBTOOLS_WIRE_TYPE_VARINT (wrap64 value).
Definition pbtools_encoder_write_uint64 (value : Z) : pbtools_encoder_t :=
  encoder_write_tagged_varint e field_number PBTOOLS_WIRE_TYPE_VARINT value.
Definition pbtools_encoder_write_uint32 (value : Z) : pbtools_encoder_t :=
  pbtools_encoder_write_uint64 value.
Definition pbtools_encoder_write_sint64 (value : Z) : pbtools_encoder_t :=
  pbtools_encoder_write_uint64 (sint64_encode value).
Definition pbtools_encoder_write_sint32 (value : Z) : pbtools_encoder_t :=
  pbtools_encoder_write_sint64 value.

Definition pbtools_encoder_write_fixed32 (value : Z) : pbtools_encoder_t :=
  if negb (value =? 0) then
    encoder_write_tag (encoder_write_32_bit_value e value) field_number PBTOOLS_WIRE_TYPE_32_BIT
  else e.
Definition pbtools_encoder_write_fixed64 (value : Z) : pbtools_encoder_t :=
  if negb (value =? 0) then
    encoder_write_tag (encoder_write_64_bit_value e value) field_number PBTOOLS_WIRE_TYPE_64_BIT
  else e.
Definition pbtools_encoder_write_sfixed32 (value : Z) : pbtools_encoder_t :=
  pbtools_encoder_write_fixed32 (wrap32 value).
Definition pbtools_encoder_write_sfixed64 (value : Z) : pbtools_encoder_t :=
  pbtools_encoder_write_fixed64 (wrap64 value).
Definition pbtools_encoder_write_float (data : Z) : pbtools_encoder_t :=
  pbtools_encoder_write_fixed32 data.
Definition pbtools_encoder_write_double (data : Z) : pbtools_encoder_t :=
  pbtools_encoder_write_fixed64 data.

Definition pbtools_encoder_write_bool (value : bool) : pbtools_encoder_t :=
  if value then pbtools_encoder_write_int32 1 else e.
Definition pbtools_encoder_write_enum (value : Z) : pbtools_encoder_t :=
  pbtools_encoder_write_int32 value.

(** [strlen] *)
Fixpoint strlen (s : list Z) : nat :=
  match s with
  | [] => O
  | c :: s => if c =? 0 then O else S (strlen s)
  end.

Definition pbtools_encoder_write_string (value_p : list Z) : pbtools_encoder_t :=
  let length := Z.of_nat (strlen value_p) in
  if length >? 0 then
    encoder_write_tagged_varint (encoder_write e value_p (to_i32 length)) field_number
      PBTOOLS_WIRE_TYPE_LENGTH_DELIMITED length
  else e.
Definition pbtools_encoder_write_bytes (value_p : list Z) : pbtools_encoder_t :=
  let size := Z.of_nat (length value_p) in
  if size >? 0 then
    encoder_write_tagged_varint (encoder_write e value_p (to_i32 size)) field_number
      PBTOOLS_WIRE_TYPE_LENGTH_DELIMITED size
  else e.

Definition pbtools_encoder_write_int32_always (value : Z) : pbtools_encoder_t :=
  encoder_write_tagged_varint_always e field_number PBTOOLS_WIRE_TYPE_VARINT (wrap64 value).
Definition pbtools_encoder_write_int64_always (value : Z) : pbtools_encoder_t :=
  encoder_write_tagged_varint_always e field_number PBTOOLS_WIRE_TYPE_VARINT (wrap64 value).
Definition pbtools_encoder_write_uint64_always (value : Z) : pbtools_encoder_t :=
  encoder_write_tagged_varint_always e field_number PBTOOLS_WIRE_TYPE_VARINT value.
Definition pbtools_encoder_write_uint32_always (value : Z) : pbtools_encoder_t :=
  pbtools_encoder_write_uint64_always value.
Definition pbtools_encoder_write_sint64_always (value : Z) : pbtools_encoder_t :=
  pbtools_encoder_write_uint64_always (sint64_encode value).
Definition pbtools_encoder_write_sint32_always (value : Z) : pbtools_encoder_t :=
  pbtools_encoder_write_sint64_always value.
Definition pbtools_encoder_write_fixed32_always (value : Z) : pbtools_encoder_t :=
  encoder_write_tag (encoder_write_32_bit_value e value) field_number PBTOOLS_WIRE_TYPE_32_BIT.
Definition pbtools_encoder_write_fixed64_always (value : Z) : pbtools_encoder_t :=
  encoder_write_tag (encoder_write_64_bit_value e value) field_number PBTOOLS_WIRE_TYPE_64_BIT.
Definition pbtools_encoder_write_sfixed32_always (value : Z) : pbtools_encoder_t :=
  pbtools_encoder_write_fixed32_always (wrap32 value).
Definition pbtools_encoder_write_sfixed64_always (value : Z) : pbtools_encoder_t :=
  pbtools_encoder_write_fixed64_always (wrap64 value).
Definition pbtools_encoder_write_float_always (data : Z) : pbtools_encoder_t :=
  pbtools_encoder_write_fixed32_always data.
Definition pbtools_encoder_write_double_always (data : Z) : pbtools_encoder_t :=
  pbtools_encoder_write_fixed64_always data.
Definition pbtools_encoder_write_bool_always (value : bool) : pbtools_encoder_t :=
  pbtools_encoder_write_int32_always (if value then 1 else 0).
Definition pbtools_encoder_write_enum_always (value : Z) : pbtools_encoder_t :=
  pbtools_encoder_write_int32_always value.
Definition pbtools_encoder_write_string_always (value_p : list Z) : pbtools_encoder_t :=
  let length := Z.of_nat (strlen value_p) in
  encoder_write_tagged_varint_always (encoder_write e value_p (to_i32 length)) field_number
    PBTOOLS_WIRE_TYPE_LENGTH_DELIMITED length.
Definition pbtools_encoder_write_bytes_always (value_p : list Z) : pbtools_encoder_t :=
  let size := Z.of_nat (length value_p) in
  encoder_write_tagged_varint_always (encoder_write e value_p (to_i32 size)) field_number
    PBTOOLS_WIRE_TYPE_LENGTH_DELIMITED size.
End Fields.

(** *** Repeated fields

    The items of a repeated field are a list; the loops go from the last item
    to the first. *)

(** [(uint64_t)(pos - self_p->pos)] *)
Definition encoder_write_repeated {A} (e : pbtools_encoder_t) (field_number : Z) (items_p : list A)
    (item_write : pbtools_encoder_t -> A -> pbtools_encoder_t) : pbtools_encoder_t :=
  if (length items_p =? 0)%nat then e
  else
    let pos := e_pos e in
    let e := fold_right (fun item e => item_write e item) e items_p in
    encoder_write_tagged_varint e field_number PBTOOLS_WIRE_TYPE_LENGTH_DELIMITED (wrap64 (pos - e_pos e)).

Definition write_repeated_int32 (e : pbtools_encoder_t) (item : Z) := encoder_write_varint e (wrap64 item).
Definition write_repeated_int64 (e : pbtools_encoder_t) (item : Z) := encoder_write_varint e (wrap64 item).
Definition write_repeated_sint32 (e : pbtools_encoder_t) (item : Z) := encoder_write_varint e (sint32_encode item).
Definition write_repeated_sint64 (e : pbtools_encoder_t) (item : Z) := encoder_write_varint e (sint64_encode item).
Definition write_repeated_uint32 (e : pbtools_encoder_t) (item : Z) := encoder_write_varint e item.
Definition write_repeated_uint64 (e : pbtools_encoder_t) (item : Z) := encoder_write_varint e item.
Definition write_repeated_32bit (e : pbtools_encoder_t) (item : Z) := encoder_write_32_bit_value e (wrap32 item).
Definition write_repeated_64bit (e : pbtools_encoder_t) (item : Z) := encoder_write_64_bit_value e (wrap64 item).
Definition write_repeated_float (e : pbtools_encoder_t) (data : Z) := encoder_write_32_bit_value e data.
Definition write_repeated_double (e : pbtools_encoder_t) (data : Z) := encoder_write_64_bit_value e data.
Definition write_repeated_bool (e : pbtools_encoder_t) (item : bool) :=
  if item then encoder_write_varint e 1 else encoder_write_varint e 0.

Section Repeated.
Context (e : pbtools_encoder_t) (field_number : Z).

Definition pbtools_encoder_write_repeated_int32 (items_p : list Z) :=
  encoder_write_repeated e field_number items_p write_repeated_int32.
Definition pbtools_encoder_write_repeated_int64 (items_p : list Z) :=
  encoder_write_repeated e field_number items_p write_repeated_int64.
Definition pbtools_encoder_write_repeated_sint32 (items_p : list Z) :=
  encoder_write_repeated e field_number items_p write_repeated_sint32.
Definition pbtools_encoder_write_repeated_sint64 (items_p : list Z) :=
  encoder_write_repeated e field_number items_p write_repeated_sint64.
Definition pbtools_encoder_write_repeated_uint32 (items_p : list Z) :=
  encoder_write_repeated e field_number items_p write_repeated_uint32.
Definition pbtools_encoder_write_repeated_uint64 (items_p : list Z) :=
  encoder_write_repeated e field_number items_p write_repeated_uint64.
Definition pbtools_encoder_write_repeated_fixed32 (items_p : list Z) :=
  encoder_write_repeated e field_number items_p write_repeated_32bit.
Definition pbtools_encoder_write_repeated_fixed64 (items_p : list Z) :=
  encoder_write_repeated e field_number items_p write_repeated_64bit.
Definition pbtools_encoder_write_repeated_sfixed32 (items_p : list Z) :=
  encoder_write_repeated e field_number items_p write_repeated_32bit.
Definition pbtools_encoder_write_repeated_sfixed64 (items_p : list Z) :=
  encoder_write_repeated e field_number items_p write_repeated_64bit.
Definition pbtools_encoder_write_repeated_float (items_p : list Z) :=
  encoder_write_repeated e field_number items_p write_repeated_float.
Definition pbtools_encoder_write_repeated_double (items_p : list Z) :=
  encoder_write_repeated e field_number items_p write_repeated_double.
Definition pbtools_encoder_write_repeated_bool (items_p : list bool) :=
  encoder_write_repeated e field_number items_p write_repeated_bool.

Definition pbtools_encoder_write_repeated_string (items_pp : list (list Z)) : pbtools_encoder_t :=
  fold_right (fun item e =>
    let length := Z.of_nat (strlen item) in
    encoder_write_length_delimited (encoder_write e item (to_i32 length)) field_number length) e items_pp.
Definition pbtools_encoder_write_repeated_bytes (items_p : list (list Z)) : pbtools_encoder_t :=
  fold_right (fun item e =>
    let size := Z.of_nat (length item) in
    encoder_write_length_delimited (encoder_write e item (to_i32 size)) field_number size) e items_p.

(** *** Messages

    The encoders of the message types are generated code; they are the argument
    [message_encode_inner]. *)

Definition pbtools_encode_repeated_inner {M} (items_p : list M)
    (message_encode_inner : pbtools_encoder_t -> M -> pbtools_encoder_t) : pbtools_encoder_t :=
  fold_right (fun item e =>
    let pos := e_pos e in
    let e := message_encode_inner e item in
    encoder_write_length_delimited e field_number (wrap64 (pos - e_pos e))) e items_p.

(** [None] is the null pointer. *)
Definition pbtools_encoder_sub_message_encode {M} (message_p : option M)
    (encode_inner : pbtools_encoder_t -> M -> pbtools_encoder_t) : pbtools_encoder_t :=
  match message_p with
  | Some m =>
      let pos := e_pos e in
      let e := encode_inner e m in
      encoder_write_length_delimited e field_number (wrap64 (pos - e_pos e))
  | None => e
  end.
Definition pbtools_encoder_sub_message_encode_always {M} (message_p : M)
    (encode_inner : pbtools_encoder_t -> M -> pbtools_encoder_t) : pbtools_encoder_t :=
  let pos := e_pos e in
  let e := encode_inner e message_p in
  encoder_write_tagged_varint_always e field_number PBTOOLS_WIRE_TYPE_LENGTH_DELIMITED (wrap64 (pos - e_pos e)).
End Repeated.

Definition pbtools_message_encode {M} (message : M) (encoded_p : list Z) (size : Z)
    (message_encode_inner : pbtools_encoder_t -> M -> pbtools_encoder_t) : Z * list Z :=
  encoder_get_result (message_encode_inner (encoder_init encoded_p size) message).
