(* ===== verification/PbDecoder.v ===== *)
(** * Protobuf runtime: heap and decoder ([c/proto/pbtools.c])

    The decoder reads its buffer from the front.  A position below zero is an
    error that later reads keep.  The heap, which all decoders of a message
    share by a pointer, is passed from call to call. *)

From S2P Require Import Prelude PbEncoder.
Local Open Scope Z_scope.

(** ** Definitions *)

(** *** The heap

    [h_buf] is the address of the workspace.  Only the bump pointer is state of
    the heap; what is stored in an allocated block is the result of the
    operation that fills it. *)
Record pbtools_heap_t := Heap {
  h_buf : Z;
  h_size : Z;
  h_pos : Z;
}.

Definition SIZEOF_HEAP : Z := 16.

Definition heap_new (buf_p size : Z) : option pbtools_heap_t :=
  if size >=? SIZEOF_HEAP then Some {| h_buf := buf_p; h_size := to_i32 size; h_pos := SIZEOF_HEAP |} else None.

(** The address of the block, [None] for the null pointer. *)
Definition heap_alloc (h : pbtools_heap_t) (size alignment : Z) : option Z * pbtools_heap_t :=
  let left := h_size h - h_pos h in
  if to_i32 size <=? left then
    let addr := wrap64 (h_buf h + h_pos h) in
    let rest := Z.land addr (alignment - 1) in
    if rest =? 0 then (Some addr, {| h_buf := h_buf h; h_size := h_size h; h_pos := h_pos h + to_i32 size |})
    else
      let pad := alignment - rest in
      let size := size [+] pad in
      if to_i32 size <=? left then
        (Some (addr [+] pad), {| h_buf := h_buf h; h_size := h_size h; h_pos := h_pos h + to_i32 size |})
      else (None, h)
  else (None, h).

(** *** The decoder *)

Record pbtools_decoder_t := Decoder {
  d_buf : list Z;
  d_size : Z;
  d_pos : Z;
}.

Definition decoder_init (buf_p : list Z) (size : Z) : pbtools_decoder_t :=
  {| d_buf := buf_p; d_size := to_i32 size; d_pos := 0 |}.

Definition decoder_get_result (d : pbtools_decoder_t) : Z := d_pos d.

Definition decoder_abort (d : pbtools_decoder_t) (error : Z) : pbtools_decoder_t :=
  if d_pos d >=? 0 then {| d_buf := d_buf d; d_size := - error; d_pos := - error |} else d.

Definition decoder_heap_alloc (d : pbtools_decoder_t) (h : pbtools_heap_t) (size alignment : Z) :
    option Z * pbtools_decoder_t * pbtools_heap_t :=
  let '(buf_p, h) := heap_alloc h size alignment in
  match buf_p with
  | None => (None, decoder_abort d PBTOOLS_OUT_OF_MEMORY, h)
  | Some a => (Some a, d, h)
  end.

Definition decoder_left (d : pbtools_decoder_t) : Z := d_size d - d_pos d.

Definition pbtools_decoder_available (d : pbtools_decoder_t) : bool := d_pos d <? d_size d.

Definition decoder_init_slice (parent_p : pbtools_decoder_t) (size : Z) : pbtools_decoder_t :=
  let buf_p := drop (Z.to_nat (d_pos parent_p)) (d_buf parent_p) in
  if size <=? d_size parent_p - d_pos parent_p then {| d_buf := buf_p; d_size := size; d_pos := 0 |}
  else {| d_buf := buf_p; d_size := - PBTOOLS_OUT_OF_DATA; d_pos := - PBTOOLS_OUT_OF_DATA |}.

(** The sum of the two [unsigned int]s. *)
Definition decoder_seek (d : pbtools_decoder_t) (offset : Z) : pbtools_decoder_t :=
  if d_pos d <? 0 then d
  else if offset <? 0 then decoder_abort d (- offset)
  else if wrap32 (d_pos d + offset) >? INT_MAX then decoder_abort d PBTOOLS_SEEK_OVERFLOW
  else
    let d := {| d_buf := d_buf d; d_size := d_size d; d_pos := d_pos d + offset |} in
    if d_pos d >? d_size d then decoder_abort d PBTOOLS_OUT_OF_DATA else d.

Definition decoder_get (d : pbtools_decoder_t) : Z * pbtools_decoder_t :=
  if pbtools_decoder_available d then
    (default 0 (d_buf d !! Z.to_nat (d_pos d)), {| d_buf := d_buf d; d_size := d_size d; d_pos := d_pos d + 1 |})
  else (0, decoder_abort d PBTOOLS_OUT_OF_DATA).

(** The bytes written to the caller's buffer. *)
Definition decoder_read (d : pbtools_decoder_t) (size : Z) : list Z * pbtools_decoder_t :=
  if d_size d - d_pos d >=? to_i32 size then
    (take (Z.to_nat size) (drop (Z.to_nat (d_pos d)) (d_buf d)),
     {| d_buf := d_buf d; d_size := d_size d; d_pos := d_pos d + to_i32 size |})
  else (replicate (Z.to_nat size) 0, decoder_abort d PBTOOLS_OUT_OF_DATA).

(** The loop of [decoder_read_varint] with the value, the last byte read and the
    decoder; the offset passes 63 after ten rounds. *)
Fixpoint read_varint_loop (fuel : nat) (d : pbtools_decoder_t) (value offset : Z) : Z * Z * pbtools_decoder_t :=
  match fuel with
  | O => (value, 0, d)
  | S fuel =>
      let '(byte, d) := decoder_get d in
      let value := Z.lor value (Z.land byte 0x7f [<<] offset) in
      let offset := offset + 7 in
      if (offset <? 64) && negb (Z.land byte 0x80 =? 0) then read_varint_loop fuel d value offset
      else (value, byte, d)
  end.

Definition decoder_read_varint (d : pbtools_decoder_t) : Z * pbtools_decoder_t :=
  let '(value, byte, d) := read_varint_loop 10 d 0 0 in
  if negb (Z.land byte 0x80 =? 0) then (0, decoder_abort d PBTOOLS_VARINT_OVERFLOW) else (value, d).

Definition read_varint_check_wire_type (d : pbtools_decoder_t) (wire_type expected_wire_type : Z) : Z * pbtools_decoder_t :=
  if negb (wire_type =? expected_wire_type) then (0, decoder_abort d PBTOOLS_BAD_WIRE_TYPE)
  else decoder_read_varint d.

Definition read_varint_check_wire_type_varint (d : pbtools_decoder_t) (wire_type : Z) : Z * pbtools_decoder_t :=
  read_varint_check_wire_type d wire_type PBTOOLS_WIRE_TYPE_VARINT.

Definition decoder_read_length_delimited (d : pbtools_decoder_t) (wire_type : Z) : Z * pbtools_decoder_t :=
  let '(length, d) := read_varint_check_wire_type d wire_type PBTOOLS_WIRE_TYPE_LENGTH_DELIMITED in
  if length >=? INT_MAX then (0, decoder_abort d PBTOOLS_LENGTH_DELIMITED_OVERFLOW) else (length, d).

(** The field number, the wire type and the decoder. *)
Definition pbtools_decoder_read_tag (d : pbtools_decoder_t) : Z * Z * pbtools_decoder_t :=
  let '(v, d) := decoder_read_varint d in
  let value := wrap32 v in
  let field_number := to_i32 (Z.shiftr value 3) in
  (field_number, Z.land value 7, if field_number =? 0 then decoder_abort d PBTOOLS_BAD_FIELD_NUMBER else d).

(** *** Field readers *)

(** The value converted, the decoder kept. *)
Definition convert {A B} (f : A -> B) (r : A * pbtools_decoder_t) : B * pbtools_decoder_t := (f r.1, r.2).

Definition pbtools_decoder_read_int64 (d : pbtools_decoder_t) (wire_type : Z) : Z * pbtools_decoder_t :=
  convert to_i64 (read_varint_check_wire_type_varint d wire_type).
Definition pbtools_decoder_read_int32 (d : pbtools_decoder_t) (wire_type : Z) : Z * pbtools_decoder_t :=
  convert to_i32 (pbtools_decoder_read_int64 d wire_type).
Definition pbtools_decoder_read_sint64 (d : pbtools_decoder_t) (wire_type : Z) : Z * pbtools_decoder_t :=
  convert sint64_decode (read_varint_check_wire_type_varint d wire_type).
Definition pbtools_decoder_read_sint32 (d : pbtools_decoder_t) (wire_type : Z) : Z * pbtools_decoder_t :=
  convert to_i32 (pbtools_decoder_read_sint64 d wire_type).
Definition pbtools_decoder_read_uint64 (d : pbtools_decoder_t) (wire_type : Z) : Z * pbtools_decoder_t :=
  read_varint_check_wire_type_varint d wire_type.
Definition pbtools_decoder_read_uint32 (d : pbtools_decoder_t) (wire_type : Z) : Z * pbtools_decoder_t :=
  convert wrap32 (pbtools_decoder_read_uint64 d wire_type).

(** Little-endian combination of the bytes of a local array. *)
Fixpoint combine_le (buf : list Z) (shift : Z) : Z :=
  match buf with
  | [] => 0
  | b :: buf => Z.lor (Z.shiftl b shift) (combine_le buf (shift + 8))
  end.

Definition decoder_read_32_bit_value (d : pbtools_decoder_t) : Z * pbtools_decoder_t :=
  convert (fun buf => combine_le buf 0) (decoder_read d 4).
Definition pbtools_decoder_read_fixed32 (d : pbtools_decoder_t) (wire_type : Z) : Z * pbtools_decoder_t :=
  if negb (wire_type =? PBTOOLS_WIRE_TYPE_32_BIT) then (0, decoder_abort d PBTOOLS_BAD_WIRE_TYPE)
  else decoder_read_32_bit_value d.
Definition decoder_read_64_bit_value (d : pbtools_decoder_t) : Z * pbtools_decoder_t :=
  convert (fun buf => combine_le buf 0) (decoder_read d 8).
Definition pbtools_decoder_read_fixed64 (d : pbtools_decoder_t) (wire_type : Z) : Z * pbtools_decoder_t :=
  if negb (wire_type =? PBTOOLS_WIRE_TYPE_64_BIT) then (0, decoder_abort d PBTOOLS_BAD_WIRE_TYPE)
  else decoder_read_64_bit_value d.
Definition pbtools_decoder_read_sfixed32 (d : pbtools_decoder_t) (wire_type : Z) : Z * pbtools_decoder_t :=
  convert to_i32 (pbtools_decoder_read_fixed32 d wire_type).
Definition pbtools_decoder_read_sfixed64 (d : pbtools_decoder_t) (wire_type : Z) : Z * pbtools_decoder_t :=
  convert to_i64 (pbtools_decoder_read_fixed64 d wire_type).
(** The bit patterns of the [float] and the [double]. *)
Definition pbtools_decoder_read_float (d : pbtools_decoder_t) (wire_type : Z) : Z * pbtools_decoder_t :=
  pbtools_decoder_read_fixed32 d wire_type.
Definition pbtools_decoder_read_double (d : pbtools_decoder_t) (wire_type : Z) : Z * pbtools_decoder_t :=
  pbtools_decoder_read_fixed64 d wire_type.
Definition pbtools_decoder_read_bool (d : pbtools_decoder_t) (wire_type : Z) : bool * pbtools_decoder_t :=
  convert (fun v => negb (v =? 0)) (pbtools_decoder_read_int32 d wire_type).
Definition pbtools_decoder_read_enum (d : pbtools_decoder_t) (wire_type : Z) : Z * pbtools_decoder_t :=
  pbtools_decoder_read_int32 d wire_type.

(** The array that holds the string, with its terminating zero. *)
Definition pbtools_decoder_read_string (d : pbtools_decoder_t) (h : pbtools_heap_t) (wire_type : Z) :
    option (list Z) * pbtools_decoder_t * pbtools_heap_t :=
  let '(size, d) := decoder_read_length_delimited d wire_type in
  let '(value_p, d, h) := decoder_heap_alloc d h (size [+] 1) 1 in
  match value_p with
  | None => (None, d, h)
  | Some _ => let '(buf, d) := decoder_read d size in (Some (buf ++ [0]), d, h)
  end.

(** The size and the bytes of the [bytes] value. *)
Definition pbtools_decoder_read_bytes (d : pbtools_decoder_t) (h : pbtools_heap_t) (wire_type : Z) :
    Z * option (list Z) * pbtools_decoder_t * pbtools_heap_t :=
  let '(size, d) := decoder_read_length_delimited d wire_type in
  let '(buf_p, d, h) := decoder_heap_alloc d h size 1 in
  match buf_p with
  | None => (size, None, d, h)
  | Some _ => let '(buf, d) := decoder_read d size in (size, Some buf, d, h)
  end.

Definition pbtools_decoder_skip_field (d : pbtools_decoder_t) (wire_type : Z) : pbtools_decoder_t :=
  if wire_type =? PBTOOLS_WIRE_TYPE_VARINT then (decoder_read_varint d).2
  else if wire_type =? PBTOOLS_WIRE_TYPE_64_BIT then decoder_seek d 8
  else if wire_type =? PBTOOLS_WIRE_TYPE_LENGTH_DELIMITED then
    let '(value, d) := decoder_read_length_delimited d wire_type in
    decoder_seek d (to_i32 (to_i64 value))
  else if wire_type =? PBTOOLS_WIRE_TYPE_32_BIT then decoder_seek d 4
  else decoder_abort d PBTOOLS_BAD_WIRE_TYPE.

(** *** Repeated fields: first pass

    The first pass over a message counts the items of each repeated field and
    keeps a decoder at the first of them. *)

Record pbtools_repeated_info_t := RepeatedInfo {
  ri_decoder : pbtools_decoder_t;
  ri_length : Z;
  ri_tag : Z;
  ri_wire_type : Z;
}.

(** The fields that [pbtools_repeated_info_init] does not set are the
    arguments. *)
Definition pbtools_repeated_info_init (self_p : pbtools_repeated_info_t) (tag : Z) : pbtools_repeated_info_t :=
  {| ri_decoder := ri_decoder self_p; ri_length := 0; ri_tag := tag; ri_wire_type := ri_wire_type self_p |}.

Definition repeated_info_init_decode (self_p : pbtools_repeated_info_t) (d : pbtools_decoder_t) (wire_type : Z) :
    pbtools_repeated_info_t :=
  if ri_length self_p =? 0 then
    {| ri_decoder := decoder_init_slice d (decoder_left d); ri_length := ri_length self_p; ri_tag := ri_tag self_p;
       ri_wire_type := wire_type |}
  else self_p.

(** [self_p->length += n] *)
Definition add_length (self_p : pbtools_repeated_info_t) (n : Z) : pbtools_repeated_info_t :=
  {| ri_decoder := ri_decoder self_p; ri_length := ri_length self_p + n; ri_tag := ri_tag self_p;
     ri_wire_type := ri_wire_type self_p |}.

(** The number of varints up to the end of the slice.  Every round reads at
    least one byte, so as many rounds as bytes are enough. *)
Fixpoint count_varints (fuel : nat) (d : pbtools_decoder_t) (n : Z) : Z * pbtools_decoder_t :=
  match fuel with
  | O => (n, d)
  | S fuel =>
      if pbtools_decoder_available d then count_varints fuel (decoder_read_varint d).2 (n + 1) else (n, d)
  end.

Definition repeated_info_decode_varint (self_p : pbtools_repeated_info_t) (d : pbtools_decoder_t) (wire_type : Z) :
    pbtools_repeated_info_t * pbtools_decoder_t :=
  let self_p := repeated_info_init_decode self_p d wire_type in
  if wire_type =? PBTOOLS_WIRE_TYPE_VARINT then
    (add_length self_p 1, (decoder_read_varint d).2)
  else if wire_type =? PBTOOLS_WIRE_TYPE_LENGTH_DELIMITED then
    let '(size, d) := decoder_read_length_delimited d wire_type in
    let decoder := decoder_init_slice d (to_i32 size) in
    let '(n, decoder) := count_varints (Z.to_nat (decoder_left decoder)) decoder 0 in
    (add_length self_p n, decoder_seek d (decoder_get_result decoder))
  else (self_p, decoder_abort d PBTOOLS_BAD_WIRE_TYPE).

(** The common shape of [repeated_info_decode_32bit] and [_64bit]. *)
Definition repeated_info_decode_fixed (item_wire_type item_size : Z) (self_p : pbtools_repeated_info_t)
    (d : pbtools_decoder_t) (wire_type : Z) : pbtools_repeated_info_t * pbtools_decoder_t :=
  let self_p := repeated_info_init_decode self_p d wire_type in
  if wire_type =? item_wire_type then (add_length self_p 1, decoder_seek d item_size)
  else if wire_type =? PBTOOLS_WIRE_TYPE_LENGTH_DELIMITED then
    let '(size, d) := decoder_read_length_delimited d wire_type in
    (add_length self_p (to_i32 size / item_size), decoder_seek d (to_i32 size))
  else (self_p, decoder_abort d PBTOOLS_BAD_WIRE_TYPE).
Definition repeated_info_decode_32bit := repeated_info_decode_fixed PBTOOLS_WIRE_TYPE_32_BIT 4.
Definition repeated_info_decode_64bit := repeated_info_decode_fixed PBTOOLS_WIRE_TYPE_64_BIT 8.

Definition repeated_info_decode_length_delimited (self_p : pbtools_repeated_info_t) (d : pbtools_decoder_t)
    (wire_type : Z) : pbtools_repeated_info_t * pbtools_decoder_t :=
  let self_p := repeated_info_init_decode self_p d wire_type in
  let '(size, d) := decoder_read_length_delimited d wire_type in
  (add_length self_p 1, decoder_seek d (to_i32 size)).

(** *** Repeated fields: second pass

    [items_p[index] = ...] with a growing index; the list has the items in the
    order of their indices. *)

(** [decoder_read_repeated] on a field of the item's wire type or a packed
    field; every round reads at least one byte. *)
Fixpoint read_items {A} (item_read : pbtools_decoder_t -> A * pbtools_decoder_t) (fuel : nat) (d : pbtools_decoder_t) :
    list A * pbtools_decoder_t :=
  match fuel with
  | O => ([], d)
  | S fuel =>
      if pbtools_decoder_available d then
        let '(item, d) := item_read d in
        let '(items, d) := read_items item_read fuel d in
        (item :: items, d)
      else ([], d)
  end.

Definition decoder_read_repeated {A} (d : pbtools_decoder_t) (wire_type : Z)
    (item_read : pbtools_decoder_t -> A * pbtools_decoder_t) (item_wire_type : Z) : list A * pbtools_decoder_t :=
  if wire_type =? item_wire_type then
    let '(item, d) := item_read d in ([item], d)
  else if wire_type =? PBTOOLS_WIRE_TYPE_LENGTH_DELIMITED then
    let '(size, d) := decoder_read_length_delimited d wire_type in
    let decoder := decoder_init_slice d (to_i32 size) in
    let '(items, decoder) := read_items item_read (Z.to_nat (decoder_left decoder)) decoder in
    (items, decoder_seek d (decoder_get_result decoder))
  else ([], decoder_abort d PBTOOLS_BAD_WIRE_TYPE).

Definition decoder_read_repeated_varint {A} (d : pbtools_decoder_t) (wire_type : Z)
    (item_read : pbtools_decoder_t -> A * pbtools_decoder_t) : list A * pbtools_decoder_t :=
  decoder_read_repeated d wire_type item_read PBTOOLS_WIRE_TYPE_VARINT.
Definition decoder_read_repeated_32_bit {A} (d : pbtools_decoder_t) (wire_type : Z)
    (item_read : pbtools_decoder_t -> A * pbtools_decoder_t) : list A * pbtools_decoder_t :=
  decoder_read_repeated d wire_type item_read PBTOOLS_WIRE_TYPE_32_BIT.
Definition decoder_read_repeated_64_bit {A} (d : pbtools_decoder_t) (wire_type : Z)
    (item_read : pbtools_decoder_t -> A * pbtools_decoder_t) : list A * pbtools_decoder_t :=
  decoder_read_repeated d wire_type item_read PBTOOLS_WIRE_TYPE_64_BIT.

Definition are_more_items_to_decode (repeated_info_p : pbtools_repeated_info_t) (pos : Z) : bool :=
  pbtools_decoder_available (ri_decoder repeated_info_p) && (pos <? ri_length repeated_info_p).

(** The decoder of the information is advanced in place. *)
Definition with_decoder (self_p : pbtools_repeated_info_t) (d : pbtools_decoder_t) : pbtools_repeated_info_t :=
  {| ri_decoder := d; ri_length := ri_length self_p; ri_tag := ri_tag self_p; ri_wire_type := ri_wire_type self_p |}.

(** The loop of [decoder_decode_repeated]; [read_repeated] gives the items it
    stores from the index on.  Every round reads at least the tag's byte. *)
Fixpoint decode_repeated_loop {A}
    (read_repeated : pbtools_decoder_t -> pbtools_heap_t -> Z -> list A * pbtools_decoder_t * pbtools_heap_t)
    (fuel : nat) (repeated_info_p : pbtools_repeated_info_t) (h : pbtools_heap_t) (items : list A) :
    list A * pbtools_repeated_info_t * pbtools_heap_t :=
  match fuel with
  | O => (items, repeated_info_p, h)
  | S fuel =>
      if are_more_items_to_decode repeated_info_p (Z.of_nat (length items)) then
        let '(tag, wire_type, d) := pbtools_decoder_read_tag (ri_decoder repeated_info_p) in
        if tag =? ri_tag repeated_info_p then
          let '(more, d, h) := read_repeated d h wire_type in
          decode_repeated_loop read_repeated fuel (with_decoder repeated_info_p d) h (items ++ more)
        else
          decode_repeated_loop read_repeated fuel
            (with_decoder repeated_info_p (pbtools_decoder_skip_field d wire_type)) h items
      else (items, repeated_info_p, h)
  end.

(** The length of the allocated array and the items stored in it, if the field
    is present and the array could be allocated. *)
Definition decoder_decode_repeated {A} (d : pbtools_decoder_t) (h : pbtools_heap_t)
    (repeated_info_p : pbtools_repeated_info_t) (item_size : Z)
    (read_repeated : pbtools_decoder_t -> pbtools_heap_t -> Z -> list A * pbtools_decoder_t * pbtools_heap_t) :
    option (Z * list A) * pbtools_decoder_t * pbtools_heap_t :=
  if ri_length repeated_info_p =? 0 then (None, d, h)
  else
    let '(items_p, d, h) := decoder_heap_alloc d h (item_size [*] wrap64 (ri_length repeated_info_p)) 8 in
    match items_p with
    | None => (None, d, h)
    | Some _ =>
        let '(items, rd, h) := read_repeated (ri_decoder repeated_info_p) h (ri_wire_type repeated_info_p) in
        let '(items, repeated_info_p, h) := decode_repeated_loop read_repeated (Z.to_nat (decoder_left rd))
          (with_decoder repeated_info_p rd) h items in
        let res := decoder_get_result (ri_decoder repeated_info_p) in
        (Some (ri_length repeated_info_p, items), (if res <? 0 then decoder_abort d (- res) else d), h)
    end.

Definition read_repeated_int32_item (d : pbtools_decoder_t) := convert (fun v => to_i32 (to_i64 v)) (decoder_read_varint d).
Definition read_repeated_int64_item (d : pbtools_decoder_t) := convert to_i64 (decoder_read_varint d).
Definition read_repeated_sint32_item (d : pbtools_decoder_t) := convert sint32_decode (decoder_read_varint d).
Definition read_repeated_sint64_item (d : pbtools_decoder_t) := convert sint64_decode (decoder_read_varint d).
Definition read_repeated_uint32_item (d : pbtools_decoder_t) := convert wrap32 (decoder_read_varint d).
Definition read_repeated_uint64_item (d : pbtools_decoder_t) := decoder_read_varint d.
Definition read_repeated_fixed32_item (d : pbtools_decoder_t) := decoder_read_32_bit_value d.
Definition read_repeated_fixed64_item (d : pbtools_decoder_t) := decoder_read_64_bit_value d.
Definition read_repeated_sfixed32_item (d : pbtools_decoder_t) := convert to_i32 (decoder_read_32_bit_value d).
Definition read_repeated_sfixed64_item (d : pbtools_decoder_t) := convert to_i64 (decoder_read_64_bit_value d).
Definition read_repeated_bool_item (d : pbtools_decoder_t) := convert (fun v => negb (v =? 0)) (decoder_read_varint d).
Definition read_repeated_float_item (d : pbtools_decoder_t) := decoder_read_32_bit_value d.
Definition read_repeated_double_item (d : pbtools_decoder_t) := decoder_read_64_bit_value d.

Section ReadRepeated.
Context (d : pbtools_decoder_t) (h : pbtools_heap_t) (wire_type : Z).

Definition read_repeated_int32 := (decoder_read_repeated_varint d wire_type read_repeated_int32_item, h).
Definition read_repeated_int64 := (decoder_read_repeated_varint d wire_type read_repeated_int64_item, h).
Definition read_repeated_uint32 := (decoder_read_repeated_varint d wire_type read_repeated_uint32_item, h).
Definition read_repeated_uint64 := (decoder_read_repeated_varint d wire_type read_repeated_uint64_item, h).
Definition read_repeated_sint32 := (decoder_read_repeated_varint d wire_type read_repeated_sint32_item, h).
Definition read_repeated_sint64 := (decoder_read_repeated_varint d wire_type read_repeated_sint64_item, h).
Definition read_repeated_fixed32 := (decoder_read_repeated_32_bit d wire_type read_repeated_fixed32_item, h).
Definition read_repeated_fixed64 := (decoder_read_repeated_64_bit d wire_type read_repeated_fixed64_item, h).
Definition read_repeated_sfixed32 := (decoder_read_repeated_32_bit d wire_type read_repeated_sfixed32_item, h).
Definition read_repeated_sfixed64 := (decoder_read_repeated_64_bit d wire_type read_repeated_sfixed64_item, h).
Definition read_repeated_float := (decoder_read_repeated_32_bit d wire_type read_repeated_float_item, h).
Definition read_repeated_double := (decoder_read_repeated_64_bit d wire_type read_repeated_double_item, h).
Definition read_repeated_bool := (decoder_read_repeated_varint d wire_type read_repeated_bool_item, h).
Definition read_repeated_string : list (option (list Z)) * pbtools_decoder_t * pbtools_heap_t :=
  let '(s, d, h) := pbtools_decoder_read_string d h wire_type in ([s], d, h).
Definition read_repeated_bytes : list (Z * option (list Z)) * pbtools_decoder_t * pbtools_heap_t :=
  let '(size, buf, d, h) := pbtools_decoder_read_bytes d h wire_type in ([(size, buf)], d, h).
End ReadRepeated.

Definition pbtools_repeated_info_decode_int32 := repeated_info_decode_varint.
Definition pbtools_repeated_info_decode_int64 := repeated_info_decode_varint.
Definition pbtools_repeated_info_decode_uint32 := repeated_info_decode_varint.
Definition pbtools_repeated_info_decode_uint64 := repeated_info_decode_varint.
Definition pbtools_repeated_info_decode_sint32 := repeated_info_decode_varint.
Definition pbtools_repeated_info_decode_sint64 := repeated_info_decode_varint.
Definition pbtools_repeated_info_decode_fixed32 := repeated_info_decode_32bit.
Definition pbtools_repeated_info_decode_fixed64 := repeated_info_decode_64bit.
Definition pbtools_repeated_info_decode_sfixed32 := repeated_info_decode_32bit.
Definition pbtools_repeated_info_decode_sfixed64 := repeated_info_decode_64bit.
Definition pbtools_repeated_info_decode_float := repeated_info_decode_32bit.
Definition pbtools_repeated_info_decode_double := repeated_info_decode_64bit.
Definition pbtools_repeated_info_decode_bool := repeated_info_decode_varint.
Definition pbtools_repeated_info_decode_string := repeated_info_decode_length_delimited.
Definition pbtools_repeated_info_decode_bytes := repeated_info_decode_length_delimited.
Definition pbtools_repeated_info_decode := repeated_info_decode_length_delimited.

Section DecodeRepeated.
Context (d : pbtools_decoder_t) (h : pbtools_heap_t) (repeated_info_p : pbtools_repeated_info_t).

Definition pbtools_decoder_decode_repeated_int32 := decoder_decode_repeated d h repeated_info_p 4 read_repeated_int32.
Definition pbtools_decoder_decode_repeated_int64 := decoder_decode_repeated d h repeated_info_p 8 read_repeated_int64.
Definition pbtools_decoder_decode_repeated_uint32 := decoder_decode_repeated d h repeated_info_p 4 read_repeated_uint32.
Definition pbtools_decoder_decode_repeated_uint64 := decoder_decode_repeated d h repeated_info_p 8 read_repeated_uint64.
Definition pbtools_decoder_decode_repeated_sint32 := decoder_decode_repeated d h repeated_info_p 4 read_repeated_sint32.
Definition pbtools_decoder_decode_repeated_sint64 := decoder_decode_repeated d h repeated_info_p 8 read_repeated_sint64.
Definition pbtools_decoder_decode_repeated_fixed32 := decoder_decode_repeated d h repeated_info_p 4 read_repeated_fixed32.
Definition pbtools_decoder_decode_repeated_fixed64 := decoder_decode_repeated d h repeated_info_p 8 read_repeated_fixed64.
Definition pbtools_decoder_decode_repeated_sfixed32 := decoder_decode_repeated d h repeated_info_p 4 read_repeated_sfixed32.
Definition pbtools_decoder_decode_repeated_sfixed64 := decoder_decode_repeated d h repeated_info_p 8 read_repeated_sfixed64.
Definition pbtools_decoder_decode_repeated_float := decoder_decode_repeated d h repeated_info_p 4 read_repeated_float.
Definition pbtools_decoder_decode_repeated_double := decoder_decode_repeated d h repeated_info_p 8 read_repeated_double.
Definition pbtools_decoder_decode_repeated_bool := decoder_decode_repeated d h repeated_info_p 1 read_repeated_bool.
Definition pbtools_decoder_decode_repeated_string := decoder_decode_repeated d h repeated_info_p 8 read_repeated_string.
Definition pbtools_decoder_decode_repeated_bytes := decoder_decode_repeated d h repeated_info_p 16 read_repeated_bytes.
End DecodeRepeated.

(** *** Allocation of repeated fields for encoding

    The result code and the new array, whose items are zero. *)

Definition calloc_repeated {A} (zero : A) (h : pbtools_heap_t) (length item_size : Z) :
    Z * option (list A) * pbtools_heap_t :=
  let size := item_size [*] wrap64 length in
  let '(items_p, h) := heap_alloc h size 8 in
  match items_p with
  | None => (-1, None, h)
  | Some _ => (0, Some (replicate (Z.to_nat length) zero), h)
  end.

Definition alloc_repeated_int32 (h : pbtools_heap_t) (length : Z) := calloc_repeated 0 h length 4.
Definition alloc_repeated_uint32 (h : pbtools_heap_t) (length : Z) := calloc_repeated 0 h length 4.
Definition alloc_repeated_int64 (h : pbtools_heap_t) (length : Z) := calloc_repeated 0 h length 8.
Definition alloc_repeated_uint64 (h : pbtools_heap_t) (length : Z) := calloc_repeated 0 h length 8.

Definition pbtools_alloc_repeated_int32 := alloc_repeated_int32.
Definition pbtools_alloc_repeated_int64 := alloc_repeated_int64.
Definition pbtools_alloc_repeated_uint32 := alloc_repeated_uint32.
Definition pbtools_alloc_repeated_uint64 := alloc_repeated_uint64.
Definition pbtools_alloc_repeated_sint32 := alloc_repeated_int32.
Definition pbtools_alloc_repeated_sint64 := alloc_repeated_int64.
Definition pbtools_alloc_repeated_fixed32 := alloc_repeated_uint32.
Definition pbtools_alloc_repeated_fixed64 := alloc_repeated_uint64.
Definition pbtools_alloc_repeated_sfixed32 := alloc_repeated_int32.
Definition pbtools_alloc_repeated_sfixed64 := alloc_repeated_int64.
Definition pbtools_alloc_repeated_float (h : pbtools_heap_t) (length : Z) := calloc_repeated 0 h length 4.
Definition pbtools_alloc_repeated_double (h : pbtools_heap_t) (length : Z) := calloc_repeated 0 h length 8.
Definition pbtools_alloc_repeated_bool (h : pbtools_heap_t) (length : Z) := calloc_repeated false h length 1.
(** The loop sets every entry to the empty string. *)
Definition pbtools_alloc_repeated_string (h : pbtools_heap_t) (length : Z) : Z * option (list (list Z)) * pbtools_heap_t :=
  let '(items_pp, h) := heap_alloc h (8 [*] wrap64 length) 8 in
  match items_pp with
  | None => (-1, None, h)
  | Some _ => (0, Some (replicate (Z.to_nat length) [0]), h)
  end.
Definition pbtools_alloc_repeated_bytes (h : pbtools_heap_t) (length : Z) := calloc_repeated (@nil Z) h length 16.

(** *** Messages

    The initialisation and the decoder of a message type are generated code;
    they are the arguments [message_init] and [message_decode_inner].  The
    alignment of [struct pbtools_message_base_t], which holds a pointer, is 8. *)

Section Messages.
Context {M : Type}.
Variable message_init : M.
Variable message_decode_inner :
  pbtools_decoder_t -> pbtools_heap_t -> M -> M * pbtools_decoder_t * pbtools_heap_t.

Definition pbtools_message_new (workspace_p size message_size : Z) : option (M * pbtools_heap_t) :=
  match heap_new workspace_p size with
  | None => None
  | Some h =>
      let '(self_p, h) := heap_alloc h message_size 8 in
      match self_p with
      | None => None
      | Some _ => Some (message_init, h)
      end
  end.

Definition pbtools_message_decode (h : pbtools_heap_t) (self_p : M) (encoded_p : list Z) (size : Z) :
    Z * M * pbtools_heap_t :=
  let '(m, d, h) := message_decode_inner (decoder_init encoded_p size) h self_p in
  (decoder_get_result d, m, h).

Definition pbtools_sub_message_alloc (h : pbtools_heap_t) (sub_message_size : Z) : Z * option M * pbtools_heap_t :=
  let '(message_p, h) := heap_alloc h sub_message_size 8 in
  match message_p with
  | None => (-1, None, h)
  | Some _ => (0, Some message_init, h)
  end.

Definition pbtools_alloc_repeated (length : Z) (h : pbtools_heap_t) (item_size : Z) : Z * option (list M) * pbtools_heap_t :=
  let '(items_p, h) := heap_alloc h (item_size [*] wrap64 length) 8 in
  match items_p with
  | None => (-1, None, h)
  | Some _ => (0, Some (replicate (Z.to_nat length) message_init), h)
  end.

Definition pbtools_decoder_sub_message_decode (d : pbtools_decoder_t) (h : pbtools_heap_t) (wire_type : Z)
    (message_p : option M) (sub_message_size : Z) : option M * pbtools_decoder_t * pbtools_heap_t :=
  let '(new_p, d, h) := decoder_heap_alloc d h sub_message_size 8 in
  match new_p with
  | None => (message_p, d, h)
  | Some _ =>
      let '(size, d) := decoder_read_length_delimited d wire_type in
      let decoder := decoder_init_slice d (to_i32 size) in
      let '(m, decoder, h) := message_decode_inner decoder h message_init in
      (Some m, decoder_seek d (decoder_get_result decoder), h)
  end.

(** The item is decoded into the initialised entry [length] of the array. *)
Definition decode_repeated_inner_item (repeated_info_p : pbtools_repeated_info_t) (h : pbtools_heap_t)
    (items : list M) (length : nat) : list M * pbtools_repeated_info_t * pbtools_heap_t :=
  let '(size, rd) := decoder_read_length_delimited (ri_decoder repeated_info_p) PBTOOLS_WIRE_TYPE_LENGTH_DELIMITED in
  let decoder := decoder_init_slice rd (to_i32 size) in
  let '(m, decoder, h) := message_decode_inner decoder h (default message_init (items !! length)) in
  (<[length := m]> items, with_decoder repeated_info_p (decoder_seek rd (decoder_get_result decoder)), h).

Fixpoint decode_repeated_inner_loop (fuel : nat) (repeated_info_p : pbtools_repeated_info_t) (h : pbtools_heap_t)
    (items : list M) (length : nat) : list M * pbtools_repeated_info_t * pbtools_heap_t :=
  match fuel with
  | O => (items, repeated_info_p, h)
  | S fuel =>
      if are_more_items_to_decode repeated_info_p (Z.of_nat length) then
        let '(tag, wire_type, d) := pbtools_decoder_read_tag (ri_decoder repeated_info_p) in
        let repeated_info_p := with_decoder repeated_info_p d in
        if tag =? ri_tag repeated_info_p then
          let '(items, repeated_info_p, h) := decode_repeated_inner_item repeated_info_p h items length in
          decode_repeated_inner_loop fuel repeated_info_p h items (S length)
        else
          decode_repeated_inner_loop fuel
            (with_decoder repeated_info_p (pbtools_decoder_skip_field (ri_decoder repeated_info_p) wire_type)) h items length
      else (items, repeated_info_p, h)
  end.

(** When the array cannot be allocated the decoder is not aborted. *)
Definition pbtools_decode_repeated_inner (d : pbtools_decoder_t) (h : pbtools_heap_t)
    (repeated_info_p : pbtools_repeated_info_t) (item_size : Z) : option (list M) * pbtools_decoder_t * pbtools_heap_t :=
  if ri_length repeated_info_p =? 0 then (None, d, h)
  else
    let '(res, repeated_p, h) := pbtools_alloc_repeated (ri_length repeated_info_p) h item_size in
    match repeated_p with
    | None => (None, d, h)
    | Some items =>
        let '(items, repeated_info_p, h) := decode_repeated_inner_item repeated_info_p h items 0 in
        let '(items, repeated_info_p, h) := decode_repeated_inner_loop
          (Z.to_nat (decoder_left (ri_decoder repeated_info_p))) repeated_info_p h items 1 in
        let res := decoder_get_result (ri_decoder repeated_info_p) in
        (Some items, (if res <? 0 then decoder_abort d (- res) else d), h)
    end.
End Messages.
