(* ===== verification/PbWire.v ===== *)
(** * Protobuf wire format and the encoder's refinement of it

    The wire format as byte lists, defined from the format and not from the
    code, and the lemma for each writer that it puts exactly those bytes in
    front of what the encoder holds, or runs out of room. *)

From S2P Require Import Prelude PbEncoder.
Local Open Scope Z_scope.

(** ** The wire format *)

(** Base-128 digits, least significant first, with a continuation bit. *)
Fixpoint leb (fuel : nat) (n : Z) : list Z :=
  match fuel with
  | O => []
  | S fuel => if n <? 128 then [n] else (n mod 128 + 128) :: leb fuel (n / 128)
  end.
Definition leb128 (n : Z) : list Z := leb 10 n.

Definition tag_bytes (field_number wire_type : Z) : list Z := leb128 (field_number * 8 + wire_type).

(** The zigzag code of a signed integer. *)
Definition zigzag (v : Z) : Z := if v <? 0 then -2 * v - 1 else 2 * v.

Definition is_i32 (v : Z) : Prop := - 2 ^ 31 <= v < 2 ^ 31.
Definition is_i64 (v : Z) : Prop := - 2 ^ 63 <= v < 2 ^ 63.
Definition is_field_number (n : Z) : Prop := 0 < n < 2 ^ 29.
Definition is_wire_type (w : Z) : Prop := 0 <= w < 8.

(** ** Lemmas on conversions *)

Lemma to_i32_id v : is_i32 v -> to_i32 v = v.
Proof. unfold is_i32, to_i32, wrap32. intros. case_cond; breflect; dlia. Qed.

Lemma to_i32_small v : 0 <= v < 2 ^ 31 -> to_i32 v = v.
Proof. intros. apply to_i32_id. unfold is_i32. lia. Qed.

Lemma to_i32_wrap v w : is_i32 v -> w mod 2 ^ 32 = v mod 2 ^ 32 -> to_i32 w = v.
Proof. unfold is_i32, to_i32, wrap32. intros ? ->. case_cond; breflect; dlia. Qed.

Lemma to_i64_wrap v : is_i64 v -> to_i64 (wrap64 v) = v.
Proof. unfold is_i64, to_i64, wrap64. intros. case_cond; breflect; dlia. Qed.

Lemma to_i64_id v : is_i64 v -> to_i64 v = v.
Proof. unfold is_i64, to_i64, wrap64. intros. case_cond; breflect; dlia. Qed.

Lemma wrap32_small v : is_u32 v -> wrap32 v = v.
Proof. unfold is_u32, wrap32. apply Z.mod_small. Qed.

(** Equality of words from equality of their low bits. *)
Lemma low_bits_split k v m : 0 <= k -> Z.land v (Z.ones k) = v mod 2 ^ k /\ (m = Z.ones k -> Z.land v m = v mod 2 ^ k).
Proof. intros. rewrite Z.land_ones by done. split; [done|]. intros ->. by apply Z.land_ones. Qed.

Lemma land_127 v : Z.land v 127 = v mod 128.
Proof. by apply (low_bits_split 7). Qed.
Lemma land_255 v : Z.land v 255 = v mod 256.
Proof. by apply (low_bits_split 8). Qed.
Lemma land_1 v : Z.land v 1 = v mod 2.
Proof. by apply (low_bits_split 1). Qed.
Lemma land_7 v : Z.land v 7 = v mod 8.
Proof. by apply (low_bits_split 3). Qed.

(** The byte with its continuation bit. *)
Lemma continuation_byte v : Z.land (Z.lor v 128) 255 = v mod 128 + 128.
Proof.
  assert (v mod 128 + 128 = Z.lor 128 (Z.land v 127)) as ->.
  { pose proof (Z.mod_pos_bound v 128). rewrite land_127, (lor_shift_add 1 _ 7); lia. }
  apply Z.bits_inj'. intros i Hi.
  rewrite !Z.land_spec, !Z.lor_spec, !Z.land_spec. generalize (Z.testbit v i). intros b.
  destruct (Z.lt_ge_cases i 8) as [Hlt|Hge].
  - assert (i = 0 \/ i = 1 \/ i = 2 \/ i = 3 \/ i = 4 \/ i = 5 \/ i = 6 \/ i = 7) as Hc by lia.
    destruct Hc as [->|[->|[->|[->|[->|[->|[->| ->]]]]]]]; by destruct b.
  - rewrite !(Z.bits_above_log2 _ i); [|done|simpl; lia..]. by rewrite !andb_false_r.
Qed.

Lemma continuation_bit b : is_byte b -> Z.land b 128 = if b <? 128 then 0 else 128.
Proof.
  unfold is_byte. intros Hb.
  assert (forallb (fun b => Z.land b 128 =? (if b <? 128 then 0 else 128)) (map Z.of_nat (seq 0 256)) = true) as H
    by (vm_compute; reflexivity).
  rewrite forallb_forall in H. apply Z.eqb_eq, H, in_map_iff. exists (Z.to_nat b). split; [lia|]. apply in_seq. lia.
Qed.

(** ** The varint bytes *)

Lemma leb_range fuel n : 0 <= n -> Forall is_byte (leb fuel n).
Proof.
  revert n. induction fuel as [|fuel IH]; intros n Hn; simpl; [constructor|].
  case_cond; breflect; constructor; unfold is_byte in *; [lia|constructor|dlia|]. apply IH. dlia.
Qed.

Lemma leb_length fuel n : (length (leb fuel n) <= fuel)%nat.
Proof. revert n. induction fuel as [|fuel IH]; intros n; simpl; [lia|]. case_cond; simpl; [lia|]. specialize (IH (n / 128)). lia. Qed.

Lemma leb_nonempty fuel n : (1 <= length (leb (S fuel) n))%nat.
Proof. simpl. case_cond; simpl; lia. Qed.

Lemma alter_last_cons (f : Z -> Z) x l : l <> [] ->
  alter f (length (x :: l) - 1)%nat (x :: l) = x :: alter f (length l - 1)%nat l.
Proof. destruct l as [|y l]; [done|]. intros _. simpl length. by rewrite !Nat.sub_succ, !Nat.sub_0_r. Qed.

Lemma varint_loop_leb fuel v : 0 <= v < 2 ^ (7 * Z.of_nat (S fuel)) -> v < 2 ^ 64 ->
  alter (fun b => Z.land b 0x7f) (length (varint_loop (S fuel) v) - 1)%nat (varint_loop (S fuel) v) = leb (S fuel) v.
Proof.
  revert v. induction fuel as [|fuel IH]; intros v Hv H64.
  - change (7 * Z.of_nat 1) with 7 in Hv. cbn [varint_loop leb]. rewrite continuation_byte, shr64_div by lia.
    change (2 ^ 7) with 128 in *. rewrite Z.gtb_ltb.
    rewrite (proj2 (Z.ltb_ge _ _)) by dlia. rewrite (proj2 (Z.ltb_lt _ _)) by dlia.
    simpl. rewrite land_127. f_equal. dlia.
  - remember (S fuel) as k eqn:Ek. cbn [varint_loop leb]. rewrite continuation_byte, shr64_div, Z.gtb_ltb by lia.
    change (2 ^ 7) with 128 in *. destruct (v <? 128) eqn:E; breflect.
    + rewrite (proj2 (Z.ltb_ge _ _)) by dlia. simpl. rewrite land_127. f_equal. dlia.
    + rewrite (proj2 (Z.ltb_lt _ _)) by dlia. rewrite alter_last_cons by (subst k; done).
      rewrite IH; [done|..]; [|dlia]. subst k.
      replace (7 * Z.of_nat (S (S fuel))) with (7 * Z.of_nat (S fuel) + 7) in Hv by lia.
      rewrite Z.pow_add_r in Hv by lia. change (2 ^ 7) with 128 in Hv. split; [dlia|].
      apply Z.div_lt_upper_bound; lia.
Qed.

Lemma varint_buf_leb v : is_u64 v -> varint_buf v = leb128 v.
Proof. intros [??]. unfold varint_buf, leb128. rewrite <- (varint_loop_leb 9 v); [done|change (7 * Z.of_nat 10) with 70; lia..]. Qed.

(** ** The encoder's state *)

Record enc_ok (e : pbtools_encoder_t) : Prop := {
  eo_size : e_size e = Z.of_nat (length (e_buf e));
  eo_pos : 0 <= e_pos e < e_size e;
  eo_int : e_size e <= INT_MAX;
}.

(** The encoder ran out of room. *)
Definition enc_full (e : pbtools_encoder_t) : Prop := e_size e = - PBTOOLS_ENCODE_BUFFER_FULL /\ e_pos e = - PBTOOLS_ENCODE_BUFFER_FULL.

(** What has been written so far. *)
Definition written (e : pbtools_encoder_t) : list Z := drop (Z.to_nat (e_pos e + 1)) (e_buf e).

(** [f] puts [bs] in front of what is written, or fills up the encoder. *)
Definition emits (f : pbtools_encoder_t -> pbtools_encoder_t) (bs : list Z) : Prop :=
  (forall e, enc_ok e -> Z.of_nat (length bs) <= e_pos e ->
    enc_ok (f e) /\ e_size (f e) = e_size e /\ e_pos (f e) = e_pos e - Z.of_nat (length bs) /\ written (f e) = bs ++ written e) /\
  (forall e, enc_ok e -> e_pos e < Z.of_nat (length bs) -> enc_full (f e)) /\
  (forall e, enc_full e -> enc_full (f e)).

Lemma emits_ext f g bs : (forall e, f e = g e) -> emits f bs -> emits g bs.
Proof. intros E (H1 & H2 & H3). split_and!; intros e; rewrite <- E; auto. Qed.

Lemma emits_nil : emits (fun e => e) [].
Proof. split_and!; [|intros e [] ?; simpl in *; lia|done]. intros e ? _. split_and!; [done..|simpl; lia|done]. Qed.

Lemma emits_app f g bs bs' : emits f bs -> emits g bs' -> emits (fun e => g (f e)) (bs' ++ bs).
Proof.
  intros (F1 & F2 & F3) (G1 & G2 & G3). split_and!; [| |auto].
  - intros e He Hl. rewrite length_app in Hl. destruct (F1 e He) as (Ho & Hs & Hp & Hw); [lia|].
    destruct (G1 (f e) Ho) as (Ho' & Hs' & Hp' & Hw'); [lia|]. rewrite length_app, Hs', Hp', Hw', Hp, Hw, app_assoc.
    split_and!; [done..|lia|done].
  - intros e He Hl. rewrite length_app in Hl. destruct (Z.le_gt_cases (Z.of_nat (length bs)) (e_pos e)) as [Hle|Hgt]; [|auto].
    destruct (F1 e He Hle) as (Ho & Hs & Hp & Hw). apply G2; [done|lia].
Qed.

Lemma write_at_length buf i bs : (i + length bs <= length buf)%nat -> length (write_at buf i bs) = length buf.
Proof. intros. unfold write_at. rewrite !length_app, length_take, length_drop. lia. Qed.

Lemma write_at_drop buf i bs : (i <= length buf)%nat -> drop i (write_at buf i bs) = bs ++ drop (i + length bs) buf.
Proof. intros. unfold write_at. rewrite drop_app_length'; [done|]. rewrite length_take. lia. Qed.

(** [memcpy] copies the first [n] bytes of the array. *)
Lemma encoder_write_emits buf bs n : take (Z.to_nat n) buf = bs -> n = Z.of_nat (length bs) ->
  emits (fun e => encoder_write e buf n) bs.
Proof.
  intros Hb ->. unfold encoder_write. split_and!; intros e.
  - intros [Hs Hp Hi] Hl. rewrite Z.geb_leb, (proj2 (Z.leb_le _ _)) by done. rewrite Hb.
    split_and!; [|done|done|].
    + constructor; cbn [e_size e_buf e_pos]; [|lia|done]. rewrite write_at_length; [done|lia].
    + unfold written. cbn [e_pos e_buf]. rewrite write_at_drop by lia. do 2 f_equal. lia.
  - intros [Hs Hp Hi] Hl. rewrite Z.geb_leb, (proj2 (Z.leb_gt _ _)) by lia. unfold encoder_abort.
    rewrite Z.geb_leb, (proj2 (Z.leb_le _ _)) by lia. done.
  - intros [Hs Hp]. rewrite Z.geb_leb, Hp. unfold PBTOOLS_ENCODE_BUFFER_FULL in *.
    rewrite (proj2 (Z.leb_gt _ _)) by lia. unfold encoder_abort. rewrite Hs. done.
Qed.

Create HintDb pb discriminated.
#[export] Hint Resolve emits_nil : pb.

Lemma write_varint_emits v : is_u64 v -> emits (fun e => encoder_write_varint e v) (leb128 v).
Proof.
  intros Hv. unfold encoder_write_varint. rewrite varint_buf_leb by done.
  apply encoder_write_emits; [|done]. by rewrite Nat2Z.id, take_ge.
Qed.

Lemma tag_value n w : is_field_number n -> is_wire_type w ->
  Z.lor (wrap32 (Z.shiftl (wrap32 n) 3)) (wrap32 w) = n * 8 + w.
Proof.
  unfold is_field_number, is_wire_type. intros Hn Hw. rewrite (wrap32_small n), (wrap32_small w) by (unfold is_u32; lia).
  rewrite Z.shiftl_mul_pow2, wrap32_small by (unfold is_u32; lia). by rewrite (lor_shift_add n w 3) by lia.
Qed.

Lemma write_tag_emits n w : is_field_number n -> is_wire_type w ->
  emits (fun e => encoder_write_tag e n w) (tag_bytes n w).
Proof.
  intros Hn Hw. unfold encoder_write_tag. rewrite tag_value by done. apply write_varint_emits.
  unfold is_field_number, is_wire_type, is_u64 in *. lia.
Qed.

Lemma tagged_varint_always_emits n w v : is_field_number n -> is_wire_type w -> is_u64 v ->
  emits (fun e => encoder_write_tagged_varint_always e n w v) (tag_bytes n w ++ leb128 v).
Proof. intros. apply (emits_app _ _ _ _ (write_varint_emits v ltac:(done)) (write_tag_emits n w ltac:(done) ltac:(done))). Qed.

Lemma tagged_varint_emits n w v : is_field_number n -> is_wire_type w -> is_u64 v ->
  emits (fun e => encoder_write_tagged_varint e n w v) (if v =? 0 then [] else tag_bytes n w ++ leb128 v).
Proof.
  intros Hn Hw Hv. unfold encoder_write_tagged_varint, is_u64 in *. rewrite Z.gtb_ltb. destruct (Z.eqb_spec v 0).
  - rewrite (proj2 (Z.ltb_ge _ _)) by lia. apply emits_nil.
  - rewrite (proj2 (Z.ltb_lt _ _)) by lia. by apply tagged_varint_always_emits.
Qed.

Lemma length_delimited_emits n v : is_field_number n -> is_u64 v ->
  emits (fun e => encoder_write_length_delimited e n v) (tag_bytes n PBTOOLS_WIRE_TYPE_LENGTH_DELIMITED ++ leb128 v).
Proof. intros. by apply tagged_varint_always_emits. Qed.

Lemma byte_at v k : 0 <= k -> Z.land (Z.shiftr v k) 255 = (v / 2 ^ k) mod 256.
Proof. intros. by rewrite land_255, Z.shiftr_div_pow2. Qed.

Lemma write_32_emits v : emits (fun e => encoder_write_32_bit_value e v) (le_bytes 4 v).
Proof.
  apply encoder_write_emits; [|done]. simpl take. rewrite land_255, !byte_at by lia. cbn [le_bytes].
  rewrite !Z.div_div by lia. done.
Qed.

Lemma write_64_emits v : emits (fun e => encoder_write_64_bit_value e v) (le_bytes 8 v).
Proof.
  apply encoder_write_emits; [|done]. simpl take. rewrite land_255, !byte_at by lia. cbn [le_bytes].
  rewrite !Z.div_div by lia. done.
Qed.

Lemma sint64_encode_zigzag v : is_i64 v -> sint64_encode v = zigzag v.
Proof.
  unfold is_i64, sint64_encode, zigzag, not64, wrap64. intros Hv. rewrite !shl64_mul by lia.
  case_cond; breflect; change (2 ^ 1) with 2; dlia.
Qed.

Lemma sint32_encode_zigzag v : is_i32 v -> sint32_encode v = zigzag v.
Proof.
  unfold is_i32, sint32_encode, zigzag, not32, wrap32. intros Hv. rewrite !Z.shiftl_mul_pow2 by lia.
  case_cond; breflect; change (2 ^ 1) with 2; dlia.
Qed.

Lemma zigzag_range v : is_i64 v -> is_u64 (zigzag v).
Proof. unfold is_i64, is_u64, zigzag. intros. case_cond; breflect; lia. Qed.

(** ** Fields *)

(** The scalar types of the runtime with a value.  A [float] or [double] is its
    bit pattern; a string is its characters without the terminating zero. *)
Inductive field :=
  | FInt32 (v : Z) | FInt64 (v : Z) | FSint32 (v : Z) | FSint64 (v : Z) | FUint32 (v : Z) | FUint64 (v : Z)
  | FFixed32 (v : Z) | FFixed64 (v : Z) | FSfixed32 (v : Z) | FSfixed64 (v : Z) | FFloat (v : Z) | FDouble (v : Z)
  | FBool (b : bool) | FEnum (v : Z) | FString (s : list Z) | FBytes (s : list Z).

Definition write_field (n : Z) (f : field) (e : pbtools_encoder_t) : pbtools_encoder_t :=
  match f with
  | FInt32 v => pbtools_encoder_write_int32 e n v
  | FInt64 v => pbtools_encoder_write_int64 e n v
  | FSint32 v => pbtools_encoder_write_sint32 e n v
  | FSint64 v => pbtools_encoder_write_sint64 e n v
  | FUint32 v => pbtools_encoder_write_uint32 e n v
  | FUint64 v => pbtools_encoder_write_uint64 e n v
  | FFixed32 v => pbtools_encoder_write_fixed32 e n v
  | FFixed64 v => pbtools_encoder_write_fixed64 e n v
  | FSfixed32 v => pbtools_encoder_write_sfixed32 e n v
  | FSfixed64 v => pbtools_encoder_write_sfixed64 e n v
  | FFloat v => pbtools_encoder_write_float e n v
  | FDouble v => pbtools_encoder_write_double e n v
  | FBool b => pbtools_encoder_write_bool e n b
  | FEnum v => pbtools_encoder_write_enum e n v
  | FString s => pbtools_encoder_write_string e n (s ++ [0])
  | FBytes s => pbtools_encoder_write_bytes e n s
  end.

Definition write_field_always (n : Z) (f : field) (e : pbtools_encoder_t) : pbtools_encoder_t :=
  match f with
  | FInt32 v => pbtools_encoder_write_int32_always e n v
  | FInt64 v => pbtools_encoder_write_int64_always e n v
  | FSint32 v => pbtools_encoder_write_sint32_always e n v
  | FSint64 v => pbtools_encoder_write_sint64_always e n v
  | FUint32 v => pbtools_encoder_write_uint32_always e n v
  | FUint64 v => pbtools_encoder_write_uint64_always e n v
  | FFixed32 v => pbtools_encoder_write_fixed32_always e n v
  | FFixed64 v => pbtools_encoder_write_fixed64_always e n v
  | FSfixed32 v => pbtools_encoder_write_sfixed32_always e n v
  | FSfixed64 v => pbtools_encoder_write_sfixed64_always e n v
  | FFloat v => pbtools_encoder_write_float_always e n v
  | FDouble v => pbtools_encoder_write_double_always e n v
  | FBool b => pbtools_encoder_write_bool_always e n b
  | FEnum v => pbtools_encoder_write_enum_always e n v
  | FString s => pbtools_encoder_write_string_always e n (s ++ [0])
  | FBytes s => pbtools_encoder_write_bytes_always e n s
  end.

(** The values of each type; strings and bytes are short enough for the C
    [int] that holds their length, and a string has no zero inside. *)
Definition field_valid (f : field) : Prop :=
  match f with
  | FInt32 v | FSint32 v | FSfixed32 v | FEnum v => is_i32 v
  | FInt64 v | FSint64 v | FSfixed64 v => is_i64 v
  | FUint32 v | FFixed32 v | FFloat v => is_u32 v
  | FUint64 v | FFixed64 v | FDouble v => is_u64 v
  | FBool _ => True
  | FString s => Forall (fun b => is_byte b /\ b <> 0) s /\ Z.of_nat (length s) < INT_MAX
  | FBytes s => Forall is_byte s /\ Z.of_nat (length s) < INT_MAX
  end.

(** The value that an absent field has. *)
Definition field_default (f : field) : bool :=
  match f with
  | FInt32 v | FSint32 v | FSfixed32 v | FEnum v | FInt64 v | FSint64 v | FSfixed64 v
  | FUint32 v | FFixed32 v | FFloat v | FUint64 v | FFixed64 v | FDouble v => v =? 0
  | FBool b => negb b
  | FString s | FBytes s => (length s =? 0)%nat
  end.

Definition field_wire_type (f : field) : Z :=
  match f with
  | FFixed32 _ | FSfixed32 _ | FFloat _ => 5
  | FFixed64 _ | FSfixed64 _ | FDouble _ => 1
  | FString _ | FBytes _ => 2
  | _ => 0
  end.

Definition field_payload (f : field) : list Z :=
  match f with
  | FInt32 v | FInt64 v | FEnum v => leb128 (wrap64 v)
  | FSint32 v | FSint64 v => leb128 (zigzag v)
  | FUint32 v | FUint64 v => leb128 v
  | FFixed32 v | FFloat v => le_bytes 4 v
  | FFixed64 v | FDouble v => le_bytes 8 v
  | FSfixed32 v => le_bytes 4 (wrap32 v)
  | FSfixed64 v => le_bytes 8 (wrap64 v)
  | FBool b => leb128 (if b then 1 else 0)
  | FString s | FBytes s => leb128 (Z.of_nat (length s)) ++ s
  end.

Definition field_bytes (n : Z) (f : field) : list Z := tag_bytes n (field_wire_type f) ++ field_payload f.

Lemma strlen_app s : Forall (fun b => is_byte b /\ b <> 0) s -> strlen (s ++ [0]) = length s.
Proof. induction 1 as [|b s [_ Hb] _ IH]; simpl; [done|]. by rewrite (proj2 (Z.eqb_neq _ _) Hb), IH. Qed.

Lemma write_chars_emits s buf : take (length s) buf = s -> Z.of_nat (length s) < INT_MAX ->
  emits (fun e => encoder_write e buf (to_i32 (Z.of_nat (length s)))) s.
Proof.
  unfold INT_MAX. intros Hb Hl. rewrite to_i32_small by lia. apply encoder_write_emits; [|done]. by rewrite Nat2Z.id.
Qed.

(** The characters, then their length and the tag. *)
Lemma write_delimited_always_emits n s buf : is_field_number n -> take (length s) buf = s -> Z.of_nat (length s) < INT_MAX ->
  emits (fun e => encoder_write_tagged_varint_always (encoder_write e buf (to_i32 (Z.of_nat (length s)))) n 2 (Z.of_nat (length s)))
    (tag_bytes n 2 ++ leb128 (Z.of_nat (length s)) ++ s).
Proof.
  intros Hn Hb Hl. rewrite app_assoc. apply (emits_app _ (fun e => encoder_write_tagged_varint_always e n 2 _)).
  - by apply write_chars_emits.
  - apply tagged_varint_always_emits; unfold is_wire_type, is_u64, INT_MAX in *; [done|lia..].
Qed.

Lemma is_wire_0 : is_wire_type 0.
Proof. done. Qed.
Lemma is_wire_1 : is_wire_type 1.
Proof. done. Qed.
Lemma is_wire_2 : is_wire_type 2.
Proof. done. Qed.
Lemma is_wire_5 : is_wire_type 5.
Proof. done. Qed.
Lemma is_u64_of_u32 v : is_u32 v -> is_u64 v.
Proof. unfold is_u32, is_u64. lia. Qed.
Lemma is_i64_of_i32 v : is_i32 v -> is_i64 v.
Proof. unfold is_i32, is_i64. lia. Qed.
#[export] Hint Resolve is_wire_0 is_wire_1 is_wire_2 is_wire_5 is_u64_of_u32 is_i64_of_i32 zigzag_range wrap64_range : pb.

Lemma field_wire_type_ok f : is_wire_type (field_wire_type f).
Proof. destruct f; simpl; auto with pb. Qed.

(** A fixed-width value, then the tag. *)
Lemma write_fixed_emits n w f bs : is_field_number n -> is_wire_type w -> emits f bs ->
  emits (fun e => encoder_write_tag (f e) n w) (tag_bytes n w ++ bs).
Proof. intros. apply (emits_app f (fun e => encoder_write_tag e n w)); [done|]. by apply write_tag_emits. Qed.

Lemma write_field_always_emits n f : is_field_number n -> field_valid f -> emits (write_field_always n f) (field_bytes n f).
Proof.
  intros Hn Hf. unfold field_bytes, write_field_always. destruct f; simpl in *;
    unfold pbtools_encoder_write_sint32_always, pbtools_encoder_write_sint64_always, pbtools_encoder_write_uint64_always;
    rewrite ?sint64_encode_zigzag by auto with pb;
    try (apply tagged_varint_always_emits; auto with pb; unfold is_wire_type; fail);
    try (apply write_fixed_emits; auto using write_32_emits, write_64_emits with pb; fail).
  - by destruct b; apply tagged_varint_always_emits.
  - destruct Hf as [Hf Hl]. unfold pbtools_encoder_write_string_always. rewrite strlen_app by done.
    apply write_delimited_always_emits; [done| |done]. by rewrite take_app_length.
  - destruct Hf as [Hf Hl]. apply write_delimited_always_emits; [done| |done]. by rewrite take_ge.
Qed.

Lemma tagged_varint_default e n v : is_u64 v -> encoder_write_tagged_varint e n PBTOOLS_WIRE_TYPE_VARINT v =
  if v =? 0 then e else encoder_write_tagged_varint_always e n PBTOOLS_WIRE_TYPE_VARINT v.
Proof. unfold encoder_write_tagged_varint, is_u64. intros. case_cond; case_cond; breflect; done || lia. Qed.

Lemma wrap64_zero v : is_i64 v -> (wrap64 v =? 0) = (v =? 0).
Proof. unfold is_i64, wrap64. intros. destruct (Z.eqb_spec v 0) as [->|]; [done|]. apply Z.eqb_neq. dlia. Qed.
Lemma wrap32_zero v : is_i32 v -> (wrap32 v =? 0) = (v =? 0).
Proof. unfold is_i32, wrap32. intros. destruct (Z.eqb_spec v 0) as [->|]; [done|]. apply Z.eqb_neq. dlia. Qed.
Lemma zigzag_zero v : (zigzag v =? 0) = (v =? 0).
Proof. unfold zigzag. case_cond; breflect; destruct (Z.eqb_spec v 0); try apply Z.eqb_eq; try apply Z.eqb_neq; lia. Qed.

Lemma delimited_default e n (s buf : list Z) :
  (if Z.of_nat (length s) >? 0
   then encoder_write_tagged_varint (encoder_write e buf (to_i32 (Z.of_nat (length s)))) n 2 (Z.of_nat (length s)) else e) =
  if (length s =? 0)%nat then e
  else encoder_write_tagged_varint_always (encoder_write e buf (to_i32 (Z.of_nat (length s)))) n 2 (Z.of_nat (length s)).
Proof.
  unfold encoder_write_tagged_varint. rewrite Z.gtb_ltb. destruct (Nat.eqb_spec (length s) 0) as [E|E]; [by rewrite E|].
  by rewrite (proj2 (Z.ltb_lt _ _)) by lia.
Qed.

(** A writer skips a default value and otherwise is its [_always] variant. *)
Lemma write_field_default n f e : field_valid f ->
  write_field n f e = if field_default f then e else write_field_always n f e.
Proof.
  intros Hf. destruct f; simpl in *;
    unfold pbtools_encoder_write_enum, pbtools_encoder_write_sint32, pbtools_encoder_write_sint64,
      pbtools_encoder_write_int32, pbtools_encoder_write_int64, pbtools_encoder_write_uint32, pbtools_encoder_write_uint64,
      pbtools_encoder_write_sfixed32, pbtools_encoder_write_sfixed64, pbtools_encoder_write_float, pbtools_encoder_write_double,
      pbtools_encoder_write_fixed32, pbtools_encoder_write_fixed64;
    rewrite ?sint64_encode_zigzag by auto with pb; rewrite ?tagged_varint_default by auto with pb;
    rewrite ?wrap64_zero, ?wrap32_zero, ?zigzag_zero by auto with pb; try reflexivity;
    try (by unfold pbtools_encoder_write_sint32_always, pbtools_encoder_write_sint64_always, pbtools_encoder_write_uint64_always;
         rewrite sint64_encode_zigzag by auto with pb);
    try (by destruct (v =? 0)).
  - destruct b; [|done]. unfold pbtools_encoder_write_bool, pbtools_encoder_write_int32. by rewrite tagged_varint_default.
  - destruct Hf as [Hf Hl]. unfold pbtools_encoder_write_string, pbtools_encoder_write_string_always.
    rewrite strlen_app by done. apply delimited_default.
  - apply delimited_default.
Qed.

Lemma write_field_emits n f : is_field_number n -> field_valid f ->
  emits (write_field n f) (if field_default f then [] else field_bytes n f).
Proof.
  intros Hn Hf. apply (emits_ext (fun e => if field_default f then e else write_field_always n f e)).
  { intros e. by rewrite write_field_default. }
  destruct (field_default f); [apply emits_nil|by apply write_field_always_emits].
Qed.

(** ** Repeated fields and messages *)

(** A writer that measures what [f] wrote and puts a header with that length in
    front of it. *)
Lemma emits_measured f bs (header : pbtools_encoder_t -> Z -> pbtools_encoder_t) (hbytes : Z -> list Z) :
  emits f bs -> (forall v, is_u64 v -> emits (fun e => header e v) (hbytes v)) ->
  emits (fun e => header (f e) (wrap64 (e_pos e - e_pos (f e)))) (hbytes (Z.of_nat (length bs)) ++ bs).
Proof.
  intros (F1 & F2 & F3) HH.
  assert (Hfull : forall e v, enc_full e -> enc_full (header e (wrap64 v)))
    by (intros e v He; destruct (HH (wrap64 v) (wrap64_range v)) as (_ & _ & H3); auto).
  assert (Hok : forall e, enc_ok e -> Z.of_nat (length bs) <= e_pos e -> is_u64 (Z.of_nat (length bs))).
  { intros e [Hs Hp Hi] Hl. unfold is_u64, INT_MAX in *. lia. }
  split_and!; intros e He.
  - intros Hl. rewrite length_app in Hl. destruct (F1 e He) as (Ho & Hs & Hp & Hw); [lia|].
    rewrite Hp. replace (e_pos e - (e_pos e - Z.of_nat (length bs))) with (Z.of_nat (length bs)) by lia.
    rewrite wrap64_small by (apply (Hok e); [done|lia]).
    destruct (HH (Z.of_nat (length bs))) as (H1 & _ & _); [apply (Hok e); [done|lia]|].
    destruct (H1 (f e) Ho) as (Ho' & Hs' & Hp' & Hw'); [lia|]. rewrite Hs', Hp', Hw', length_app, Hp, Hw, app_assoc.
    split_and!; [done..|lia|done].
  - intros Hl. rewrite length_app in Hl. destruct (Z.le_gt_cases (Z.of_nat (length bs)) (e_pos e)) as [Hle|Hgt]; [|auto].
    destruct (F1 e He Hle) as (Ho & Hs & Hp & Hw). rewrite Hp.
    replace (e_pos e - (e_pos e - Z.of_nat (length bs))) with (Z.of_nat (length bs)) by lia.
    rewrite wrap64_small by (by apply (Hok e)). destruct (HH (Z.of_nat (length bs))) as (_ & H2 & _); [by apply (Hok e)|].
    apply H2; [done|lia].
  - auto.
Qed.

Lemma emits_fold {A} (iw : pbtools_encoder_t -> A -> pbtools_encoder_t) (enc : A -> list Z) items :
  Forall (fun x => emits (fun e => iw e x) (enc x)) items ->
  emits (fun e => fold_right (fun x e => iw e x) e items) (concat (map enc items)).
Proof.
  induction 1 as [|x items Hx _ IH]; simpl; [apply emits_nil|].
  apply (emits_app (fun e => fold_right (fun x e => iw e x) e items) (fun e => iw e x)); done.
Qed.

(** A packed field; a list of items that all have bytes is not empty. *)
Definition packed_bytes (n : Z) (payload : list Z) : list Z :=
  tag_bytes n 2 ++ leb128 (Z.of_nat (length payload)) ++ payload.

Lemma write_repeated_emits {A} n (iw : pbtools_encoder_t -> A -> pbtools_encoder_t) enc items : is_field_number n ->
  Forall (fun x => emits (fun e => iw e x) (enc x) /\ enc x <> []) items -> items <> [] ->
  emits (fun e => encoder_write_repeated e n items iw) (packed_bytes n (concat (map enc items))).
Proof.
  intros Hn Hf Hne. unfold encoder_write_repeated. destruct (Nat.eqb_spec (length items) 0) as [E|_]; [by destruct items|].
  assert (Hfold : emits (fun e => fold_right (fun x e => iw e x) e items) (concat (map enc items))).
  { apply emits_fold. eapply Forall_impl; [exact Hf|]. by intros x [? _]. }
  pose proof (emits_measured _ _ _ _ Hfold (fun v Hv => tagged_varint_emits n 2 v Hn is_wire_2 Hv)) as H.
  cbn beta in H. destruct (Z.eqb_spec (Z.of_nat (length (concat (map enc items)))) 0) as [E|_].
  - exfalso. destruct Hf as [|x items [_ Hx] _]; [done|]. simpl in E. rewrite length_app in E. by destruct (enc x).
  - unfold packed_bytes. rewrite app_assoc. exact H.
Qed.

Lemma encode_sub_message_emits {M} n (inner : pbtools_encoder_t -> M -> pbtools_encoder_t) m bs : is_field_number n ->
  emits (fun e => inner e m) bs ->
  emits (fun e => pbtools_encoder_sub_message_encode e n (Some m) inner) (packed_bytes n bs) /\
  emits (fun e => pbtools_encoder_sub_message_encode_always e n m inner) (packed_bytes n bs).
Proof.
  intros Hn Hi. unfold packed_bytes. rewrite app_assoc. split.
  - apply (emits_measured (fun e => inner e m) bs (fun e v => encoder_write_length_delimited e n v)
      (fun v => tag_bytes n 2 ++ leb128 v)); [done|]. intros. by apply length_delimited_emits.
  - apply (emits_measured (fun e => inner e m) bs (fun e v => encoder_write_tagged_varint_always e n 2 v)
      (fun v => tag_bytes n 2 ++ leb128 v)); [done|]. intros. by apply tagged_varint_always_emits.
Qed.

Lemma encode_repeated_inner_emits {M} n (inner : pbtools_encoder_t -> M -> pbtools_encoder_t) enc items : is_field_number n ->
  Forall (fun m => emits (fun e => inner e m) (enc m)) items ->
  emits (fun e => pbtools_encode_repeated_inner e n items inner) (concat (map (fun m => packed_bytes n (enc m)) items)).
Proof.
  intros Hn Hi. unfold pbtools_encode_repeated_inner.
  apply (emits_fold (fun e m => encoder_write_length_delimited (inner e m) n (wrap64 (e_pos e - e_pos (inner e m))))).
  eapply Forall_impl; [exact Hi|]. intros m Hm. by apply (encode_sub_message_emits n inner m).
Qed.

Lemma write_repeated_bytes_emits n items : is_field_number n ->
  Forall (fun s : list Z => Z.of_nat (length s) < INT_MAX) items ->
  emits (fun e => pbtools_encoder_write_repeated_bytes e n items) (concat (map (packed_bytes n) items)).
Proof.
  intros Hn Hf. unfold pbtools_encoder_write_repeated_bytes.
  apply (emits_fold (fun e s => encoder_write_length_delimited (encoder_write e s (to_i32 (Z.of_nat (length s)))) n (Z.of_nat (length s)))).
  eapply Forall_impl; [exact Hf|]. intros s Hs. apply write_delimited_always_emits; [done| |done]. by rewrite take_ge.
Qed.

(** The whole message: its bytes at the front of the buffer, or the error. *)
Lemma message_encode_spec {M} (m : M) buf (inner : pbtools_encoder_t -> M -> pbtools_encoder_t) bs :
  emits (fun e => inner e m) bs -> 0 < Z.of_nat (length buf) <= INT_MAX ->
  let '(res, buf') := pbtools_message_encode m buf (Z.of_nat (length buf)) inner in
  if Z.of_nat (length bs) <? Z.of_nat (length buf)
  then res = Z.of_nat (length bs) /\ take (length bs) buf' = bs /\ length buf' = length buf
  else res = - PBTOOLS_ENCODE_BUFFER_FULL.
Proof.
  intros (H1 & H2 & _) Hb. unfold pbtools_message_encode, encoder_init. rewrite to_i32_small by (unfold INT_MAX in *; lia).
  set (e0 := {| e_buf := buf; e_size := _; e_pos := _ |}).
  assert (He : enc_ok e0) by (constructor; cbn [e0 e_buf e_size e_pos]; [done|lia..]).
  assert (Hw : written e0 = []) by (unfold written, e0; cbn [e_pos e_buf]; apply drop_ge; lia).
  destruct (Z.ltb_spec (Z.of_nat (length bs)) (Z.of_nat (length buf))) as [Hlt|Hge].
  - destruct (H1 e0 He) as (Ho & Hs & Hp & Hwr); [cbn [e0 e_pos]; lia|]. rewrite Hw, app_nil_r in Hwr.
    unfold encoder_get_result. cbn [e0 e_size e_pos] in *. destruct Ho as [Hso Hpo _].
    rewrite Z.geb_leb, (proj2 (Z.leb_le _ _)) by lia. unfold written in Hwr. rewrite Hwr, Hs, Hp.
    replace (Z.of_nat (length buf) - (Z.of_nat (length buf) - 1 - Z.of_nat (length bs)) - 1) with (Z.of_nat (length bs)) by lia.
    rewrite Nat2Z.id, (take_ge bs) by lia. unfold write_at. rewrite take_0, app_nil_l. split_and!; [done|by rewrite take_app_length|].
    rewrite length_app, length_drop. lia.
  - destruct (H2 e0 He) as [Hs Hp]; [cbn [e0 e_pos]; lia|]. unfold encoder_get_result. by rewrite Hp.
Qed.
