(* ===== verification/PbParse.v ===== *)
(** * Protobuf runtime: reading back what the wire format holds

    Lemmas that each reader, in front of the bytes of a value, returns the value
    and stops behind them. *)

From S2P Require Import Prelude PbEncoder PbDecoder PbWire.
Local Open Scope Z_scope.

(** ** The decoder's state *)

Record dec_ok (d : pbtools_decoder_t) : Prop := {
  do_pos : 0 <= d_pos d <= d_size d;
  do_size : d_size d <= Z.of_nat (length (d_buf d));
  do_int : d_size d <= INT_MAX;
}.

(** What is left to read. *)
Definition remaining (d : pbtools_decoder_t) : list Z :=
  take (Z.to_nat (d_size d - d_pos d)) (drop (Z.to_nat (d_pos d)) (d_buf d)).

Definition advance (d : pbtools_decoder_t) (n : nat) : pbtools_decoder_t :=
  {| d_buf := d_buf d; d_size := d_size d; d_pos := d_pos d + Z.of_nat n |}.

(** In front of [bs], [f] returns [v] and reads exactly [bs]. *)
Definition parses {A} (f : pbtools_decoder_t -> A * pbtools_decoder_t) (v : A) (bs : list Z) : Prop :=
  forall d rest, dec_ok d -> remaining d = bs ++ rest -> f d = (v, advance d (length bs)).

Lemma remaining_length d : dec_ok d -> Z.of_nat (length (remaining d)) = d_size d - d_pos d.
Proof. intros [? ? ?]. unfold remaining. rewrite length_take, length_drop. lia. Qed.

Lemma advance_ok d bs rest : dec_ok d -> remaining d = bs ++ rest ->
  dec_ok (advance d (length bs)) /\ remaining (advance d (length bs)) = rest.
Proof.
  intros Hd Hr. pose proof (remaining_length d Hd) as Hl. rewrite Hr, length_app in Hl. destruct Hd as [Hp Hs Hi].
  split; [constructor; cbn [advance d_pos d_size d_buf]; lia|].
  unfold remaining, advance in *. cbn [d_pos d_size d_buf].
  apply (f_equal (drop (length bs))) in Hr. rewrite drop_app_length, skipn_firstn_comm, drop_drop in Hr. rewrite <- Hr.
  f_equal; [lia|]. f_equal. lia.
Qed.

Lemma advance_0 d : advance d 0 = d.
Proof. destruct d. unfold advance. simpl. f_equal. lia. Qed.

Lemma advance_pos d n : d_pos (advance d n) = d_pos d + Z.of_nat n.
Proof. done. Qed.

Lemma advance_advance d n m : advance (advance d n) m = advance d (n + m).
Proof. unfold advance. simpl. f_equal. lia. Qed.

Lemma parses_convert {A B} (g : A -> B) f v bs : parses f v bs -> parses (fun d => convert g (f d)) (g v) bs.
Proof. intros Hf d rest Hd Hr. unfold convert. by rewrite (Hf d rest Hd Hr). Qed.

(** Two readers in sequence. *)
Lemma parses_bind {A B} f (g : A -> pbtools_decoder_t -> B * pbtools_decoder_t) v w bs bs' :
  parses f v bs -> parses (g v) w bs' -> parses (fun d => let '(x, d) := f d in g x d) w (bs ++ bs').
Proof.
  intros Hf Hg d rest Hd Hr. rewrite <- app_assoc in Hr. rewrite (Hf d _ Hd Hr).
  destruct (advance_ok d _ _ Hd Hr) as [Hd' Hr']. rewrite (Hg _ _ Hd' Hr'), advance_advance, length_app. done.
Qed.

Lemma available_remaining d : dec_ok d -> pbtools_decoder_available d = negb (length (remaining d) =? 0)%nat.
Proof.
  intros Hd. pose proof (remaining_length d Hd). unfold pbtools_decoder_available.
  destruct (Nat.eqb_spec (length (remaining d)) 0); simpl; [apply Z.ltb_ge|apply Z.ltb_lt]; lia.
Qed.

Lemma get_parses b : parses decoder_get b [b].
Proof.
  intros d rest Hd Hr. unfold decoder_get. rewrite available_remaining, Hr by done. simpl.
  f_equal. unfold remaining in Hr. pose proof (f_equal (fun l => l !! 0%nat) Hr) as H0. simpl in H0.
  rewrite lookup_take in H0. case_decide; [|done]. rewrite lookup_drop, Nat.add_0_r in H0. by rewrite H0.
Qed.

Lemma read_parses n bs : n = Z.of_nat (length bs) -> n < 2 ^ 31 -> parses (fun d => decoder_read d n) bs bs.
Proof.
  intros -> Hn d rest Hd Hr. unfold decoder_read. rewrite to_i32_small by lia.
  pose proof (remaining_length d Hd) as Hl. rewrite Hr, length_app in Hl.
  rewrite Z.geb_leb, (proj2 (Z.leb_le _ _)) by lia. f_equal. rewrite Nat2Z.id.
  unfold remaining in Hr. apply (f_equal (take (length bs))) in Hr. rewrite take_app_length, take_take in Hr.
  rewrite <- Hr at 2. f_equal. lia.
Qed.

Lemma seek_advance d n bs rest : dec_ok d -> remaining d = bs ++ rest -> n = Z.of_nat (length bs) ->
  decoder_seek d n = advance d (length bs).
Proof.
  intros Hd Hr ->. pose proof (remaining_length d Hd) as Hl. rewrite Hr, length_app in Hl. destruct Hd as [Hp Hs Hi].
  unfold decoder_seek, INT_MAX in *. rewrite (proj2 (Z.ltb_ge _ _)), (proj2 (Z.ltb_ge _ _)) by lia.
  unfold wrap32. rewrite Z.mod_small, Z.gtb_ltb, (proj2 (Z.ltb_ge _ _)) by lia. cbn [d_pos d_size].
  by rewrite Z.gtb_ltb, (proj2 (Z.ltb_ge _ _)) by lia.
Qed.

(** ** Varints *)

Lemma lor_digit value digit offset : 0 <= offset < 64 -> 0 <= value < 2 ^ offset -> 0 <= digit * 2 ^ offset < 2 ^ 64 ->
  Z.lor value (digit [<<] offset) = value + digit * 2 ^ offset.
Proof. intros Ho Hv Hd. rewrite shl64_small by lia. rewrite Z.lor_comm, lor_shift_add by lia. lia. Qed.

Lemma loop_step fuel d value offset b : is_byte b ->
  forall rest, dec_ok d -> remaining d = b :: rest ->
  read_varint_loop (S fuel) d value offset =
  let value := Z.lor value ((b mod 128) [<<] offset) in
  if (offset + 7 <? 64) && (128 <=? b) then read_varint_loop fuel (advance d 1) value (offset + 7)
  else (value, b, advance d 1).
Proof.
  intros Hb rest Hd Hr. cbn [read_varint_loop]. rewrite (get_parses b d rest Hd Hr). cbn [length].
  rewrite land_127, continuation_bit by done. destruct (Z.ltb_spec b 128), (Z.leb_spec 128 b); done || lia.
Qed.

Lemma read_varint_loop_parses fuel d value offset n rest :
  dec_ok d -> remaining d = leb (S fuel) n ++ rest -> offset = 7 * (9 - Z.of_nat fuel) -> (fuel <= 9)%nat ->
  0 <= value < 2 ^ offset -> 0 <= n -> n * 2 ^ offset + value < 2 ^ 64 ->
  exists b, b < 128 /\ 0 <= b /\
  read_varint_loop (S fuel) d value offset = (value + n * 2 ^ offset, b, advance d (length (leb (S fuel) n))).
Proof.
  revert d value offset n. induction fuel as [|fuel IH]; intros d value offset n Hd Hr Ho Hf Hv Hn Hb.
  - change (7 * (9 - Z.of_nat 0)) with 63 in Ho. subst offset. assert (n < 2) by lia.
    cbn [leb] in *. rewrite (proj2 (Z.ltb_lt n 128)) in * by lia. exists n. split_and!; [lia..|].
    rewrite (loop_step 0 d value 63 n ltac:(unfold is_byte; lia) rest Hd Hr). cbn zeta.
    rewrite (Z.mod_small n), lor_digit by lia. done.
  - assert (Hpow : 0 < 2 ^ offset) by (apply Z.pow_pos_nonneg; lia).
    remember (S fuel) as k eqn:Ek. cbn [leb] in *. destruct (Z.ltb_spec n 128) as [Hlt|Hge].
    + exists n. split_and!; [lia..|]. rewrite (loop_step k d value offset n ltac:(unfold is_byte; lia) rest Hd Hr).
      cbn zeta. rewrite (Z.mod_small n), lor_digit by (lia || nia). rewrite (proj2 (Z.leb_gt 128 n)), andb_false_r by lia. done.
    + assert (Hbyte : is_byte (n mod 128 + 128)) by (unfold is_byte; dlia).
      pose proof (Z.mod_pos_bound n 128 ltac:(lia)). pose proof (Z.div_mod n 128 ltac:(lia)).
      rewrite (loop_step k d value offset _ Hbyte _ Hd Hr). cbn zeta.
      replace ((n mod 128 + 128) mod 128) with (n mod 128) by dlia. rewrite lor_digit by (lia || nia).
      rewrite (proj2 (Z.leb_le 128 _)) by lia. rewrite (proj2 (Z.ltb_lt (offset + 7) 64)) by lia. cbn [andb].
      destruct (advance_ok d [n mod 128 + 128] _ Hd Hr) as [Hd' Hr']. cbn [length] in Hd', Hr'. subst k.
      destruct (IH (advance d 1) (value + n mod 128 * 2 ^ offset) (offset + 7) (n / 128) Hd' Hr') as (b & Hb1 & Hb2 & E);
        [lia|lia| |dlia| |].
      * rewrite Z.pow_add_r by lia. change (2 ^ 7) with 128. nia.
      * rewrite Z.pow_add_r by lia. change (2 ^ 7) with 128. nia.
      * exists b. split_and!; [done..|]. rewrite E, advance_advance. cbn [length].
        do 2 f_equal. rewrite Z.pow_add_r by lia. change (2 ^ 7) with 128. nia.
Qed.

Lemma varint_parses n : is_u64 n -> parses decoder_read_varint n (leb128 n).
Proof.
  intros [Hn Hm] d rest Hd Hr. unfold decoder_read_varint.
  destruct (read_varint_loop_parses 9 d 0 0 n rest Hd Hr) as (b & Hb1 & Hb2 & ->); [lia..|].
  rewrite continuation_bit by (unfold is_byte; lia). rewrite (proj2 (Z.ltb_lt b 128)) by lia. simpl. f_equal. lia.
Qed.

(** ** Tags, lengths and fixed-width values *)

Lemma tag_range n w : is_field_number n -> is_wire_type w -> is_u64 (n * 8 + w).
Proof. unfold is_field_number, is_wire_type, is_u64. lia. Qed.

Lemma tag_read d n w rest : is_field_number n -> is_wire_type w -> dec_ok d -> remaining d = tag_bytes n w ++ rest ->
  pbtools_decoder_read_tag d = (n, w, advance d (length (tag_bytes n w))).
Proof.
  intros Hn Hw Hd Hr. unfold pbtools_decoder_read_tag. rewrite (varint_parses _ (tag_range n w Hn Hw) d rest Hd Hr).
  unfold is_field_number, is_wire_type in *. rewrite wrap32_small by (unfold is_u32; lia).
  rewrite land_7, Z.shiftr_div_pow2 by lia. change (2 ^ 3) with 8.
  replace ((n * 8 + w) / 8) with n by dlia. replace ((n * 8 + w) mod 8) with w by dlia.
  rewrite to_i32_small by lia. by rewrite (proj2 (Z.eqb_neq n 0)) by lia.
Qed.

Lemma varint_field_parses n : is_u64 n -> parses (fun d => read_varint_check_wire_type_varint d 0) n (leb128 n).
Proof. apply varint_parses. Qed.

Lemma length_parses n : 0 <= n < INT_MAX -> parses (fun d => decoder_read_length_delimited d 2) n (leb128 n).
Proof.
  unfold INT_MAX. intros Hn d rest Hd Hr. unfold decoder_read_length_delimited, read_varint_check_wire_type, INT_MAX. simpl negb. cbn iota.
  rewrite (varint_parses n ltac:(unfold is_u64; lia) d rest Hd Hr). by rewrite Z.geb_leb, (proj2 (Z.leb_gt _ _)) by lia.
Qed.

Lemma combine_le_bytes k v s : 0 <= s -> 0 <= v < 2 ^ (8 * Z.of_nat k) -> combine_le (le_bytes k v) s = v * 2 ^ s.
Proof.
  revert v s. induction k as [|k IH]; intros v s Hs Hv; cbn [le_bytes combine_le].
  { replace v with 0 by (change (8 * Z.of_nat 0) with 0 in Hv; lia). done. }
  replace (8 * Z.of_nat (S k)) with (8 * Z.of_nat k + 8) in Hv by lia. rewrite Z.pow_add_r in Hv by lia.
  change (2 ^ 8) with 256 in Hv. rewrite IH; [|lia|]; cycle 1.
  { split; [dlia|]. apply Z.div_lt_upper_bound; lia. }
  rewrite Z.shiftl_mul_pow2 by lia. rewrite Z.lor_comm, lor_shift_add; [|lia|].
  - rewrite Z.pow_add_r by lia. change (2 ^ 8) with 256. pose proof (Z.div_mod v 256). nia.
  - rewrite Z.pow_add_r by lia. change (2 ^ 8) with 256. pose proof (Z.mod_pos_bound v 256). pose proof (Z.pow_pos_nonneg 2 s). nia.
Qed.

Lemma read_32_parses v : is_u32 v -> parses decoder_read_32_bit_value v (le_bytes 4 v).
Proof.
  intros Hv. unfold decoder_read_32_bit_value. replace v with (combine_le (le_bytes 4 v) 0) at 1.
  - apply (parses_convert (fun buf => combine_le buf 0)), read_parses; [done|lia].
  - unfold is_u32 in Hv. rewrite combine_le_bytes by (change (8 * Z.of_nat 4) with 32; lia). lia.
Qed.

Lemma read_64_parses v : is_u64 v -> parses decoder_read_64_bit_value v (le_bytes 8 v).
Proof.
  intros Hv. unfold decoder_read_64_bit_value. replace v with (combine_le (le_bytes 8 v) 0) at 1.
  - apply (parses_convert (fun buf => combine_le buf 0)), read_parses; [done|lia].
  - unfold is_u64 in Hv. rewrite combine_le_bytes by (change (8 * Z.of_nat 8) with 64; lia). lia.
Qed.

Lemma sint64_decode_zigzag v : is_i64 v -> sint64_decode (zigzag v) = v.
Proof.
  unfold is_i64, sint64_decode, zigzag, not64. intros Hv. rewrite land_1, !shr64_div by lia. change (2 ^ 1) with 2.
  destruct (Z.ltb_spec v 0).
  - replace ((-2 * v - 1) mod 2) with 1 by dlia. simpl negb. cbn iota. replace ((-2 * v - 1) / 2) with (- v - 1) by dlia.
    unfold to_i64, wrap64. case_cond; breflect; dlia.
  - replace ((2 * v) mod 2) with 0 by dlia. simpl negb. cbn iota. replace (2 * v / 2) with v by dlia. apply to_i64_id. unfold is_i64. lia.
Qed.

Lemma sint32_decode_zigzag v : is_i32 v -> sint32_decode (zigzag v) = v.
Proof.
  unfold is_i32, sint32_decode, zigzag, not64. intros Hv. rewrite land_1, !shr64_div by lia. change (2 ^ 1) with 2.
  destruct (Z.ltb_spec v 0).
  - replace ((-2 * v - 1) mod 2) with 1 by dlia. simpl negb. cbn iota. replace ((-2 * v - 1) / 2) with (- v - 1) by dlia.
    apply to_i32_wrap; [unfold is_i32; lia|dlia].
  - replace ((2 * v) mod 2) with 0 by dlia. simpl negb. cbn iota. replace (2 * v / 2) with v by dlia. apply to_i32_id. unfold is_i32. lia.
Qed.

Lemma to_i32_wrap32 v : is_i32 v -> to_i32 (wrap32 v) = v.
Proof. intros. apply to_i32_wrap; [done|]. unfold wrap32. by rewrite Z.mod_mod. Qed.

(** ** Fields *)

Inductive kind :=
  | KInt32 | KInt64 | KSint32 | KSint64 | KUint32 | KUint64 | KFixed32 | KFixed64 | KSfixed32 | KSfixed64 | KFloat | KDouble
  | KBool | KEnum | KString | KBytes.

Definition field_kind (f : field) : kind :=
  match f with
  | FInt32 _ => KInt32 | FInt64 _ => KInt64 | FSint32 _ => KSint32 | FSint64 _ => KSint64
  | FUint32 _ => KUint32 | FUint64 _ => KUint64 | FFixed32 _ => KFixed32 | FFixed64 _ => KFixed64
  | FSfixed32 _ => KSfixed32 | FSfixed64 _ => KSfixed64 | FFloat _ => KFloat | FDouble _ => KDouble
  | FBool _ => KBool | FEnum _ => KEnum | FString _ => KString | FBytes _ => KBytes
  end.

(** A value without allocation. *)
Definition pure_field {A} (c : A -> field) (r : A * pbtools_decoder_t) (h : pbtools_heap_t) :
    option field * pbtools_decoder_t * pbtools_heap_t := (Some (c r.1), r.2, h).

(** The reader of each type; a string is read up to its terminating zero. *)
Definition read_field (k : kind) (d : pbtools_decoder_t) (h : pbtools_heap_t) (w : Z) :
    option field * pbtools_decoder_t * pbtools_heap_t :=
  match k with
  | KInt32 => pure_field FInt32 (pbtools_decoder_read_int32 d w) h
  | KInt64 => pure_field FInt64 (pbtools_decoder_read_int64 d w) h
  | KSint32 => pure_field FSint32 (pbtools_decoder_read_sint32 d w) h
  | KSint64 => pure_field FSint64 (pbtools_decoder_read_sint64 d w) h
  | KUint32 => pure_field FUint32 (pbtools_decoder_read_uint32 d w) h
  | KUint64 => pure_field FUint64 (pbtools_decoder_read_uint64 d w) h
  | KFixed32 => pure_field FFixed32 (pbtools_decoder_read_fixed32 d w) h
  | KFixed64 => pure_field FFixed64 (pbtools_decoder_read_fixed64 d w) h
  | KSfixed32 => pure_field FSfixed32 (pbtools_decoder_read_sfixed32 d w) h
  | KSfixed64 => pure_field FSfixed64 (pbtools_decoder_read_sfixed64 d w) h
  | KFloat => pure_field FFloat (pbtools_decoder_read_float d w) h
  | KDouble => pure_field FDouble (pbtools_decoder_read_double d w) h
  | KBool => pure_field FBool (pbtools_decoder_read_bool d w) h
  | KEnum => pure_field FEnum (pbtools_decoder_read_enum d w) h
  | KString =>
      let '(s, d, h) := pbtools_decoder_read_string d h w in
      (option_map (fun s => FString (take (strlen s) s)) s, d, h)
  | KBytes =>
      let '(size, s, d, h) := pbtools_decoder_read_bytes d h w in
      (option_map FBytes s, d, h)
  end.

(** The heap space that a value takes, none of it for alignment. *)
Definition field_space (f : field) : Z :=
  match f with
  | FString s => Z.of_nat (length s) + 1
  | FBytes s => Z.of_nat (length s)
  | _ => 0
  end.

Definition heap_room (h : pbtools_heap_t) (n : Z) : Prop := n <= h_size h - h_pos h.
Definition heap_take (h : pbtools_heap_t) (n : Z) : pbtools_heap_t :=
  {| h_buf := h_buf h; h_size := h_size h; h_pos := h_pos h + n |}.

Lemma heap_alloc_bytes d h n : 0 <= n <= INT_MAX -> heap_room h n ->
  exists a, decoder_heap_alloc d h n 1 = (Some a, d, heap_take h n).
Proof.
  unfold INT_MAX, heap_room. intros Hn Hr. unfold decoder_heap_alloc, heap_alloc.
  rewrite (to_i32_small n) by lia. rewrite (proj2 (Z.leb_le _ _)) by done. simpl (1 - 1). rewrite Z.land_0_r. simpl Z.eqb. cbn iota.
  eexists. reflexivity.
Qed.

Lemma heap_take_0 h : heap_take h 0 = h.
Proof. destruct h. unfold heap_take. simpl. f_equal. lia. Qed.

Lemma heap_take_take h n m : heap_take (heap_take h n) m = heap_take h (n + m).
Proof. unfold heap_take. simpl. f_equal. lia. Qed.

Lemma pure_field_reads {A} (c : A -> field) r v bs d h rest : parses r v bs -> dec_ok d -> remaining d = bs ++ rest ->
  pure_field c (r d) h = (Some (c v), advance d (length bs), heap_take h 0).
Proof. intros Hp Hd Hr. unfold pure_field. by rewrite (Hp d rest Hd Hr), heap_take_0. Qed.

(** A length and that many bytes, with room for them. *)
Lemma string_reads s d h rest : Forall (fun b => is_byte b /\ b <> 0) s -> Z.of_nat (length s) < INT_MAX -> dec_ok d ->
  remaining d = (leb128 (Z.of_nat (length s)) ++ s) ++ rest -> heap_room h (Z.of_nat (length s) + 1) ->
  pbtools_decoder_read_string d h 2 =
  (Some (s ++ [0]), advance d (length (leb128 (Z.of_nat (length s)) ++ s)), heap_take h (Z.of_nat (length s) + 1)).
Proof.
  unfold INT_MAX. intros Hs Hl Hd Hr Hh. rewrite <- app_assoc in Hr. unfold pbtools_decoder_read_string.
  rewrite (length_parses (Z.of_nat (length s)) ltac:(unfold INT_MAX; lia) d _ Hd Hr). rewrite add64_small by lia.
  destruct (advance_ok d _ _ Hd Hr) as [Hd' Hr'].
  edestruct (heap_alloc_bytes (advance d (length (leb128 (Z.of_nat (length s))))) h (Z.of_nat (length s) + 1)) as [a ->];
    [unfold INT_MAX; lia|done|]. cbn iota.
  rewrite (read_parses (Z.of_nat (length s)) s eq_refl ltac:(lia) _ _ Hd' Hr'), advance_advance, length_app. done.
Qed.

Lemma bytes_reads s d h rest : Z.of_nat (length s) < INT_MAX -> dec_ok d ->
  remaining d = (leb128 (Z.of_nat (length s)) ++ s) ++ rest -> heap_room h (Z.of_nat (length s)) ->
  pbtools_decoder_read_bytes d h 2 =
  (Z.of_nat (length s), Some s, advance d (length (leb128 (Z.of_nat (length s)) ++ s)), heap_take h (Z.of_nat (length s))).
Proof.
  unfold INT_MAX. intros Hl Hd Hr Hh. rewrite <- app_assoc in Hr. unfold pbtools_decoder_read_bytes.
  rewrite (length_parses (Z.of_nat (length s)) ltac:(unfold INT_MAX; lia) d _ Hd Hr).
  destruct (advance_ok d _ _ Hd Hr) as [Hd' Hr'].
  edestruct (heap_alloc_bytes (advance d (length (leb128 (Z.of_nat (length s))))) h (Z.of_nat (length s))) as [a ->];
    [unfold INT_MAX; lia|done|]. cbn iota.
  rewrite (read_parses (Z.of_nat (length s)) s eq_refl ltac:(lia) _ _ Hd' Hr'), advance_advance, length_app. done.
Qed.

(** Values that a conversion brings back. *)
Lemma int32_parses v : is_i32 v -> parses (fun d => pbtools_decoder_read_int32 d 0) v (leb128 (wrap64 v)).
Proof.
  intros Hv. replace v with (to_i32 (to_i64 (wrap64 v))) at 1.
  - apply (parses_convert to_i32), (parses_convert to_i64), varint_parses. apply wrap64_range.
  - rewrite to_i64_wrap by auto with pb. by apply to_i32_id.
Qed.

Lemma int64_parses v : is_i64 v -> parses (fun d => pbtools_decoder_read_int64 d 0) v (leb128 (wrap64 v)).
Proof.
  intros Hv. replace v with (to_i64 (wrap64 v)) at 1 by (by apply to_i64_wrap).
  apply (parses_convert to_i64), varint_parses. apply wrap64_range.
Qed.

Lemma sint64_parses v : is_i64 v -> parses (fun d => pbtools_decoder_read_sint64 d 0) v (leb128 (zigzag v)).
Proof.
  intros Hv. replace v with (sint64_decode (zigzag v)) at 1 by (by apply sint64_decode_zigzag).
  apply (parses_convert sint64_decode), varint_parses. by apply zigzag_range.
Qed.

Lemma sint32_parses v : is_i32 v -> parses (fun d => pbtools_decoder_read_sint32 d 0) v (leb128 (zigzag v)).
Proof.
  intros Hv. replace v with (to_i32 v) at 1 by (by apply to_i32_id).
  apply (parses_convert to_i32 (fun d => pbtools_decoder_read_sint64 d 0)), sint64_parses. auto with pb.
Qed.

Lemma uint32_parses v : is_u32 v -> parses (fun d => pbtools_decoder_read_uint32 d 0) v (leb128 v).
Proof.
  intros Hv. replace v with (wrap32 v) at 1 by (by apply wrap32_small).
  apply (parses_convert wrap32), varint_parses. auto with pb.
Qed.

Lemma sfixed32_parses v : is_i32 v -> parses (fun d => pbtools_decoder_read_sfixed32 d 5) v (le_bytes 4 (wrap32 v)).
Proof.
  intros Hv. replace v with (to_i32 (wrap32 v)) at 1 by (by apply to_i32_wrap32).
  apply (parses_convert to_i32), read_32_parses. unfold is_u32, wrap32. apply Z.mod_pos_bound. lia.
Qed.

Lemma sfixed64_parses v : is_i64 v -> parses (fun d => pbtools_decoder_read_sfixed64 d 1) v (le_bytes 8 (wrap64 v)).
Proof.
  intros Hv. replace v with (to_i64 (wrap64 v)) at 1 by (by apply to_i64_wrap).
  apply (parses_convert to_i64), read_64_parses. apply wrap64_range.
Qed.

Lemma bool_parses b : parses (fun d => pbtools_decoder_read_bool d 0) b (leb128 (if b then 1 else 0)).
Proof.
  destruct b; [exact (parses_convert (fun v => negb (v =? 0)) _ _ _ (int32_parses 1 ltac:(done)))|].
  exact (parses_convert (fun v => negb (v =? 0)) _ _ _ (int32_parses 0 ltac:(done))).
Qed.

#[export] Hint Resolve int32_parses int64_parses sint64_parses sint32_parses uint32_parses sfixed32_parses sfixed64_parses
  bool_parses read_32_parses read_64_parses varint_parses : pb.

Lemma read_field_payload f d h rest : field_valid f -> dec_ok d -> remaining d = field_payload f ++ rest ->
  heap_room h (field_space f) ->
  read_field (field_kind f) d h (field_wire_type f) =
  (Some f, advance d (length (field_payload f)), heap_take h (field_space f)).
Proof.
  intros Hf Hd Hr Hh. destruct f; cbn [field_kind read_field field_wire_type field_space field_payload field_valid] in *.
  - exact (pure_field_reads FInt32 (fun d => pbtools_decoder_read_int32 d 0) v _ d h rest (int32_parses v Hf) Hd Hr).
  - exact (pure_field_reads FInt64 (fun d => pbtools_decoder_read_int64 d 0) v _ d h rest (int64_parses v Hf) Hd Hr).
  - exact (pure_field_reads FSint32 (fun d => pbtools_decoder_read_sint32 d 0) v _ d h rest (sint32_parses v Hf) Hd Hr).
  - exact (pure_field_reads FSint64 (fun d => pbtools_decoder_read_sint64 d 0) v _ d h rest (sint64_parses v Hf) Hd Hr).
  - exact (pure_field_reads FUint32 (fun d => pbtools_decoder_read_uint32 d 0) v _ d h rest (uint32_parses v Hf) Hd Hr).
  - exact (pure_field_reads FUint64 (fun d => pbtools_decoder_read_uint64 d 0) v _ d h rest (varint_parses v Hf) Hd Hr).
  - exact (pure_field_reads FFixed32 (fun d => pbtools_decoder_read_fixed32 d 5) v _ d h rest (read_32_parses v Hf) Hd Hr).
  - exact (pure_field_reads FFixed64 (fun d => pbtools_decoder_read_fixed64 d 1) v _ d h rest (read_64_parses v Hf) Hd Hr).
  - exact (pure_field_reads FSfixed32 (fun d => pbtools_decoder_read_sfixed32 d 5) v _ d h rest (sfixed32_parses v Hf) Hd Hr).
  - exact (pure_field_reads FSfixed64 (fun d => pbtools_decoder_read_sfixed64 d 1) v _ d h rest (sfixed64_parses v Hf) Hd Hr).
  - exact (pure_field_reads FFloat (fun d => pbtools_decoder_read_float d 5) v _ d h rest (read_32_parses v Hf) Hd Hr).
  - exact (pure_field_reads FDouble (fun d => pbtools_decoder_read_double d 1) v _ d h rest (read_64_parses v Hf) Hd Hr).
  - exact (pure_field_reads FBool (fun d => pbtools_decoder_read_bool d 0) b _ d h rest (bool_parses b) Hd Hr).
  - exact (pure_field_reads FEnum (fun d => pbtools_decoder_read_enum d 0) v _ d h rest (int32_parses v Hf) Hd Hr).
  - destruct Hf as [Hf Hl]. rewrite (string_reads s d h rest Hf Hl Hd Hr Hh). simpl option_map.
    by rewrite strlen_app, take_app_length.
  - destruct Hf as [Hf Hl]. by rewrite (bytes_reads s d h rest Hl Hd Hr Hh).
Qed.
