(* ===== verification/PbSafety.v ===== *)
(** * Protobuf runtime: safety of the decoder on arbitrary input

    Whatever bytes it is given, no reader looks at or moves behind the end of
    its buffer, an error stays, and progress is never undone. *)

From S2P Require Import Prelude PbEncoder PbDecoder PbWire PbParse.
Local Open Scope Z_scope.

(** An error code in place of the position. *)
Definition dec_failed (d : pbtools_decoder_t) : Prop := d_pos d < 0 /\ d_size d = d_pos d.

Definition dec_inv (d : pbtools_decoder_t) : Prop := dec_ok d \/ dec_failed d.

(** Two decoders that differ at most in bytes behind the end of their buffers. *)
Record agree (d1 d2 : pbtools_decoder_t) : Prop := {
  ag_left : dec_inv d1;
  ag_right : dec_inv d2;
  ag_pos : d_pos d1 = d_pos d2;
  ag_size : d_size d1 = d_size d2;
  ag_buf : take (Z.to_nat (d_size d1)) (d_buf d1) = take (Z.to_nat (d_size d1)) (d_buf d2);
}.

(** A reader that depends only on the bytes inside the buffer, keeps an error,
    and never moves back. *)
Definition safe {A} (f : pbtools_decoder_t -> A * pbtools_decoder_t) : Prop :=
  forall d1 d2, agree d1 d2 ->
    (f d1).1 = (f d2).1 /\ agree (f d1).2 (f d2).2 /\
    d_buf (f d1).2 = d_buf d1 /\
    (d_pos d1 < 0 -> (f d1).2 = d1) /\ (0 <= d_pos (f d1).2 -> d_pos d1 <= d_pos (f d1).2).

Lemma agree_refl d : dec_inv d -> agree d d.
Proof. by constructor. Qed.

Lemma agree_sym d1 d2 : agree d1 d2 -> agree d2 d1.
Proof. intros [? ? ? E Eb]. constructor; try done. by rewrite <- E. Qed.

Lemma agree_failed d1 d2 : agree d1 d2 -> d_pos d1 < 0 -> dec_failed d1 /\ dec_failed d2.
Proof. intros [[[]|H1] [[]|H2] Ep _ _] Hp; (lia || done). Qed.

Lemma agree_ok d1 d2 : agree d1 d2 -> 0 <= d_pos d1 -> dec_ok d1 /\ dec_ok d2.
Proof. unfold dec_failed. intros [[H1|[]] [H2|[]] Ep _ _] Hp; (lia || done). Qed.

Lemma safe_ret {A} (v : A) : safe (fun d => (v, d)).
Proof. intros d1 d2 H. split_and!; [done..|simpl; lia]. Qed.

Lemma safe_convert {A B} (g : A -> B) f : safe f -> safe (fun d => convert g (f d)).
Proof. intros Hf d1 d2 H. destruct (Hf d1 d2 H) as (E & ? & ? & ? & ?). unfold convert. simpl. by rewrite E. Qed.

Lemma safe_bind {A B} f (g : A -> pbtools_decoder_t -> B * pbtools_decoder_t) : safe f -> (forall v, safe (g v)) ->
  safe (fun d => let '(v, d) := f d in g v d).
Proof.
  intros Hf Hg d1 d2 H. destruct (Hf d1 d2 H) as (E & Ha & Hb & Hs & Hp).
  destruct (f d1) as [v1 e1], (f d2) as [v2 e2]. simpl in *. subst v2.
  destruct (Hg v1 e1 e2 Ha) as (E' & Ha' & Hb' & Hs' & Hp'). split_and!; [done..|congruence| |].
  - intros Hn. specialize (Hs Hn). subst e1. auto.
  - intros Hn. specialize (Hp' Hn). destruct (Z.lt_ge_cases (d_pos e1) 0) as [Hlt|Hge]; [|lia].
    rewrite (Hs' Hlt) in Hn. lia.
Qed.

Lemma safe_abort {A} (v : A) err : 0 < err -> safe (fun d => (v, decoder_abort d err)).
Proof.
  intros He d1 d2 [I1 I2 Ep Es Eb]. simpl. unfold decoder_abort. rewrite <- Ep, Z.geb_leb.
  destruct (Z.leb_spec 0 (d_pos d1)); split_and!; simpl; try done; try lia.
  constructor; simpl; try done; try (right; unfold dec_failed; simpl; lia). by replace (Z.to_nat (- err)) with 0%nat by lia.
Qed.

(** The branches of a test that does not look at the decoder. *)
Lemma safe_if {A} (b : bool) (f g : pbtools_decoder_t -> A * pbtools_decoder_t) : safe f -> safe g ->
  safe (fun d => if b then f d else g d).
Proof. by destruct b. Qed.

(** Moving forward within the buffer. *)
Lemma agree_advance d1 d2 n : agree d1 d2 -> 0 <= d_pos d1 -> 0 <= n -> d_pos d1 + n <= d_size d1 ->
  agree {| d_buf := d_buf d1; d_size := d_size d1; d_pos := d_pos d1 + n |}
        {| d_buf := d_buf d2; d_size := d_size d2; d_pos := d_pos d2 + n |}.
Proof.
  intros H Hp Hn Hl. destruct (agree_ok _ _ H Hp) as [[? ? ?] [? ? ?]]. destruct H as [_ _ Ep Es Eb].
  constructor; cbn [d_buf d_size d_pos]; [left; constructor; cbn [d_buf d_size d_pos]; lia..|lia|done|done].
Qed.

(** Bytes between the position and the end. *)
Lemma agree_bytes d1 d2 n : agree d1 d2 -> 0 <= d_pos d1 -> Z.of_nat n <= d_size d1 - d_pos d1 ->
  take n (drop (Z.to_nat (d_pos d1)) (d_buf d1)) = take n (drop (Z.to_nat (d_pos d2)) (d_buf d2)).
Proof.
  intros [_ _ Ep _ Eb] Hp Hn. rewrite <- Ep. apply (f_equal (fun l => take n (drop (Z.to_nat (d_pos d1)) l))) in Eb.
  rewrite !skipn_firstn_comm, !take_take in Eb. by replace (n `min` _)%nat with n in Eb by lia.
Qed.

Lemma safe_get : safe decoder_get.
Proof.
  intros d1 d2 H. unfold decoder_get, pbtools_decoder_available. rewrite <- (ag_pos _ _ H), <- (ag_size _ _ H).
  destruct (Z.ltb_spec (d_pos d1) (d_size d1)) as [Hlt|Hge]; [|by apply (safe_abort 0 PBTOOLS_OUT_OF_DATA)].
  destruct (Z.lt_ge_cases (d_pos d1) 0) as [Hn|Hp].
  { destruct (agree_failed _ _ H Hn) as [[] _]. lia. }
  pose proof (agree_bytes d1 d2 1 H Hp ltac:(lia)) as E. cbn [fst snd]. split_and!; [| |done|lia|cbn [d_pos]; lia].
  - apply (f_equal (fun l => l !! 0%nat)) in E. rewrite !lookup_take, !lookup_drop, !Nat.add_0_r in E. simpl in E.
    by rewrite E, (ag_pos _ _ H).
  - pose proof (agree_advance d1 d2 1 H Hp ltac:(lia) ltac:(lia)) as Ha. by rewrite <- (ag_size _ _ H), <- (ag_pos _ _ H) in Ha.
Qed.

Lemma safe_read n : 0 <= n < 2 ^ 31 -> safe (fun d => decoder_read d n).
Proof.
  intros Hn d1 d2 H. unfold decoder_read. rewrite to_i32_small by done. rewrite <- (ag_pos _ _ H), <- (ag_size _ _ H), Z.geb_leb.
  destruct (Z.leb_spec n (d_size d1 - d_pos d1)) as [Hle|Hgt]; [|by apply (safe_abort _ PBTOOLS_OUT_OF_DATA)].
  destruct (Z.lt_ge_cases (d_pos d1) 0) as [Hneg|Hp].
  - destruct (agree_failed _ _ H Hneg) as [[? Es1] [? Es2]]. replace n with 0 by lia. cbn [fst snd]. rewrite Z.add_0_r.
    destruct d1 as [b1 s1 p1], d2 as [b2 s2 p2]. cbn [d_buf d_size d_pos] in *. destruct H as [I1 I2 Ep Es Eb].
    cbn [d_buf d_size d_pos] in *. subst. split_and!; [done| |done|done|lia]. by constructor.
  - cbn [fst snd]. split_and!; [|pose proof (agree_advance d1 d2 n H Hp ltac:(lia) ltac:(lia)) as Ha;
      by rewrite <- (ag_size _ _ H), <- (ag_pos _ _ H) in Ha|done|lia|cbn [d_pos]; lia].
    pose proof (agree_bytes d1 d2 (Z.to_nat n) H Hp ltac:(lia)) as E. by rewrite <- (ag_pos _ _ H) in E.
Qed.

(** Seeking, as a reader without a result. *)
Lemma safe_seek n : safe (fun d => (tt, decoder_seek d n)).
Proof.
  intros d1 d2 H. unfold decoder_seek. rewrite <- (ag_pos _ _ H), <- (ag_size _ _ H).
  destruct (Z.ltb_spec (d_pos d1) 0) as [Hn|Hp]; [split_and!; (done || lia)|].
  destruct (Z.ltb_spec n 0) as [Hneg|Hnn]; [apply (safe_abort tt); (done || lia)|].
  case_cond; [by apply (safe_abort tt)|]. cbn [d_pos d_size].
  destruct (agree_ok _ _ H Hp) as [[? ? Hi] [? ? ?]]. rewrite Z.gtb_ltb in *. breflect. unfold INT_MAX in *.
  destruct (Z.ltb_spec (d_size d1) (d_pos d1 + n)) as [Hgt|Hle].
  - split_and!; [done| | |lia|]; unfold decoder_abort; cbn [d_pos d_buf]; rewrite Z.geb_leb, (proj2 (Z.leb_le _ _)) by lia; cbn [snd d_pos]; [|done|unfold PBTOOLS_OUT_OF_DATA; lia].
    constructor; cbn [d_pos d_size d_buf]; try done; right; done.
  - split_and!; [done| |done|lia|cbn [snd d_pos]; lia].
    pose proof (agree_advance d1 d2 n H Hp Hnn ltac:(lia)) as Ha. by rewrite <- (ag_size _ _ H), <- (ag_pos _ _ H) in Ha.
Qed.

(** ** Composed readers *)

Lemma safe_ext {A} (f g : pbtools_decoder_t -> A * pbtools_decoder_t) : (forall d, f d = g d) -> safe f -> safe g.
Proof. intros E Hf d1 d2. rewrite <- !E. apply Hf. Qed.

#[export] Hint Resolve safe_ret safe_get safe_seek : pb.

Lemma safe_varint_loop fuel value offset :
  safe (fun d => let '(v, b, d) := read_varint_loop fuel d value offset in ((v, b), d)).
Proof.
  revert value offset. induction fuel as [|fuel IH]; intros value offset; [apply (safe_ret (value, 0))|].
  eapply (safe_ext (fun d => let '(byte, d) := decoder_get d in
    if (offset + 7 <? 64) && negb (Z.land byte 0x80 =? 0)
    then let '(v, b, d) := read_varint_loop fuel d (Z.lor value (Z.land byte 0x7f [<<] offset)) (offset + 7) in ((v, b), d)
    else ((Z.lor value (Z.land byte 0x7f [<<] offset), byte), d))).
  - intros d. cbn [read_varint_loop]. destruct (decoder_get d) as [byte d']. by case_cond.
  - apply safe_bind; [apply safe_get|]. intros byte. apply safe_if; [apply IH|apply safe_ret].
Qed.

Lemma safe_varint : safe decoder_read_varint.
Proof.
  apply (safe_ext (fun d => let '(vb, d) := (let '(v, b, d) := read_varint_loop 10 d 0 0 in ((v, b), d)) in
    if negb (Z.land vb.2 0x80 =? 0) then (0, decoder_abort d PBTOOLS_VARINT_OVERFLOW) else (vb.1, d))).
  - intros d. unfold decoder_read_varint. by destruct (read_varint_loop 10 d 0 0) as [[v b] d'].
  - apply safe_bind; [apply safe_varint_loop|]. intros [v b]. apply safe_if; [by apply safe_abort|apply safe_ret].
Qed.

Lemma safe_check_wire_type w w' : safe (fun d => read_varint_check_wire_type d w w').
Proof. unfold read_varint_check_wire_type. apply safe_if; [by apply safe_abort|apply safe_varint]. Qed.

Lemma safe_length_delimited w : safe (fun d => decoder_read_length_delimited d w).
Proof.
  unfold decoder_read_length_delimited. apply safe_bind; [apply safe_check_wire_type|].
  intros n. apply safe_if; [by apply safe_abort|apply safe_ret].
Qed.

Lemma safe_tag : safe (fun d => let '(n, w, d) := pbtools_decoder_read_tag d in ((n, w), d)).
Proof.
  apply (safe_ext (fun d => let '(v, d) := decoder_read_varint d in
    if to_i32 (Z.shiftr (wrap32 v) 3) =? 0
    then ((to_i32 (Z.shiftr (wrap32 v) 3), Z.land (wrap32 v) 7), decoder_abort d PBTOOLS_BAD_FIELD_NUMBER)
    else ((to_i32 (Z.shiftr (wrap32 v) 3), Z.land (wrap32 v) 7), d))).
  - intros d. unfold pbtools_decoder_read_tag. destruct (decoder_read_varint d) as [v d']. by case_cond.
  - apply safe_bind; [apply safe_varint|]. intros v. apply safe_if; [by apply safe_abort|apply safe_ret].
Qed.

Lemma safe_32 : safe decoder_read_32_bit_value.
Proof. apply safe_convert, safe_read. lia. Qed.
Lemma safe_64 : safe decoder_read_64_bit_value.
Proof. apply safe_convert, safe_read. lia. Qed.

(** The range of a length, which a reader may rely on. *)
Lemma varint_loop_nonneg fuel d value offset : 0 <= value -> 0 <= (read_varint_loop fuel d value offset).1.1.
Proof.
  revert d value offset. induction fuel as [|fuel IH]; intros d value offset Hv; [done|].
  cbn [read_varint_loop]. destruct (decoder_get d) as [byte d'].
  assert (0 <= Z.lor value (Z.land byte 0x7f [<<] offset)) by (apply Z.lor_nonneg; split; [done|apply shl64_range]).
  case_cond; [by apply IH|done].
Qed.

Lemma length_delimited_range d w : 0 <= (decoder_read_length_delimited d w).1 < INT_MAX.
Proof.
  assert (0 <= (decoder_read_varint d).1) as Hv.
  { unfold decoder_read_varint. pose proof (varint_loop_nonneg 10 d 0 0 ltac:(lia)).
    destruct (read_varint_loop 10 d 0 0) as [[v b] d']. by case_cond. }
  unfold decoder_read_length_delimited, read_varint_check_wire_type, INT_MAX. destruct (negb (w =? _)); [done|].
  destruct (decoder_read_varint d) as [v d']. simpl in Hv. rewrite Z.geb_leb. case_cond; breflect; simpl; lia.
Qed.

(** A reader that continues with the length it read. *)
Lemma safe_bind_length {B} w (g : Z -> pbtools_decoder_t -> B * pbtools_decoder_t) :
  (forall n, 0 <= n < INT_MAX -> safe (g n)) -> safe (fun d => let '(n, d) := decoder_read_length_delimited d w in g n d).
Proof.
  intros Hg. apply (safe_ext (fun d => let '(n, d) := decoder_read_length_delimited d w in
    (if bool_decide (0 <= n < INT_MAX) then g n else g 0) d)).
  - intros d. pose proof (length_delimited_range d w). destruct (decoder_read_length_delimited d w) as [n d'].
    by rewrite bool_decide_true.
  - apply safe_bind; [apply safe_length_delimited|]. intros n. case_bool_decide; by apply Hg.
Qed.

(** Allocation either succeeds whatever the decoder or aborts it. *)
Lemma safe_alloc {B} h n a (g : option Z -> pbtools_heap_t -> pbtools_decoder_t -> B * pbtools_decoder_t) :
  (forall p h, safe (g p h)) -> safe (fun d => let '(p, d, h) := decoder_heap_alloc d h n a in g p h d).
Proof.
  intros Hg. unfold decoder_heap_alloc. destruct (heap_alloc h n a) as [[p|] h']; [apply Hg|].
  apply (safe_bind (fun d => (tt, decoder_abort d PBTOOLS_OUT_OF_MEMORY)) (fun _ d => g None h' d)); [by apply safe_abort|].
  intros _. apply Hg.
Qed.

Lemma safe_string h w : safe (fun d => let '(s, d, h) := pbtools_decoder_read_string d h w in ((s, h), d)).
Proof.
  apply (safe_ext (fun d => let '(size, d) := decoder_read_length_delimited d w in
    let '(p, d, h) := decoder_heap_alloc d h (size [+] 1) 1 in
    match p with None => ((None, h), d) | Some _ => let '(buf, d) := decoder_read d size in ((Some (buf ++ [0]), h), d) end)).
  - intros d. unfold pbtools_decoder_read_string. destruct (decoder_read_length_delimited d w) as [size d'].
    destruct (decoder_heap_alloc d' h (size [+] 1) 1) as [[[p|] d''] h']; [|done]. by destruct (decoder_read d'' size).
  - apply safe_bind_length. unfold INT_MAX. intros n Hn. apply (safe_alloc h _ 1 (fun p h d =>
      match p with None => ((None, h), d) | Some _ => let '(buf, d) := decoder_read d n in ((Some (buf ++ [0]), h), d) end)).
    intros [p|] h'; [|apply safe_ret]. apply safe_bind; [apply safe_read; lia|]. intros buf. apply safe_ret.
Qed.

Lemma safe_bytes h w : safe (fun d => let '(n, s, d, h) := pbtools_decoder_read_bytes d h w in ((n, s, h), d)).
Proof.
  apply (safe_ext (fun d => let '(size, d) := decoder_read_length_delimited d w in
    let '(p, d, h) := decoder_heap_alloc d h size 1 in
    match p with None => ((size, None, h), d) | Some _ => let '(buf, d) := decoder_read d size in ((size, Some buf, h), d) end)).
  - intros d. unfold pbtools_decoder_read_bytes. destruct (decoder_read_length_delimited d w) as [size d'].
    destruct (decoder_heap_alloc d' h size 1) as [[[p|] d''] h']; [|done]. by destruct (decoder_read d'' size).
  - apply safe_bind_length. unfold INT_MAX. intros n Hn. apply (safe_alloc h n 1 (fun p h d =>
      match p with None => ((n, None, h), d) | Some _ => let '(buf, d) := decoder_read d n in ((n, Some buf, h), d) end)).
    intros [p|] h'; [|apply safe_ret]. apply safe_bind; [apply safe_read; lia|]. intros buf. apply safe_ret.
Qed.

Lemma safe_skip w : safe (fun d => (tt, pbtools_decoder_skip_field d w)).
Proof.
  unfold pbtools_decoder_skip_field.
  apply (safe_ext (fun d => if w =? 0 then convert (fun _ => tt) (decoder_read_varint d)
    else if w =? 1 then (tt, decoder_seek d 8)
    else if w =? 2 then let '(v, d) := decoder_read_length_delimited d w in (tt, decoder_seek d (to_i32 (to_i64 v)))
    else if w =? 5 then (tt, decoder_seek d 4) else (tt, decoder_abort d PBTOOLS_BAD_WIRE_TYPE))).
  - intros d. unfold PBTOOLS_WIRE_TYPE_VARINT, PBTOOLS_WIRE_TYPE_64_BIT, PBTOOLS_WIRE_TYPE_LENGTH_DELIMITED, PBTOOLS_WIRE_TYPE_32_BIT.
    repeat case_cond; try done. by destruct (decoder_read_length_delimited d w).
  - repeat apply safe_if; try apply safe_seek; [apply safe_convert, safe_varint| |by apply safe_abort].
    apply safe_bind; [apply safe_length_delimited|]. intros v. apply safe_seek.
Qed.

Lemma safe_pure_field {A} (c : A -> field) r h : safe r ->
  safe (fun d => let '(f, d, h) := pure_field c (r d) h in ((f, h), d)).
Proof. intros Hr. apply (safe_ext (fun d => convert (fun v => (Some (c v), h)) (r d))); [done|]. by apply safe_convert. Qed.

Lemma safe_fixed32 w : safe (fun d => pbtools_decoder_read_fixed32 d w).
Proof. unfold pbtools_decoder_read_fixed32. apply safe_if; [by apply safe_abort|apply safe_32]. Qed.
Lemma safe_fixed64 w : safe (fun d => pbtools_decoder_read_fixed64 d w).
Proof. unfold pbtools_decoder_read_fixed64. apply safe_if; [by apply safe_abort|apply safe_64]. Qed.

Ltac reader := repeat apply safe_convert; (apply safe_check_wire_type || apply safe_fixed32 || apply safe_fixed64).

(** Every reader of a field of a given type. *)
Lemma safe_field k h w : safe (fun d => let '(f, d, h) := read_field k d h w in ((f, h), d)).
Proof.
  destruct k; cbn [read_field].
  - apply (safe_pure_field FInt32 (fun d => pbtools_decoder_read_int32 d w)). reader.
  - apply (safe_pure_field FInt64 (fun d => pbtools_decoder_read_int64 d w)). reader.
  - apply (safe_pure_field FSint32 (fun d => pbtools_decoder_read_sint32 d w)). reader.
  - apply (safe_pure_field FSint64 (fun d => pbtools_decoder_read_sint64 d w)). reader.
  - apply (safe_pure_field FUint32 (fun d => pbtools_decoder_read_uint32 d w)). reader.
  - apply (safe_pure_field FUint64 (fun d => pbtools_decoder_read_uint64 d w)). reader.
  - apply (safe_pure_field FFixed32 (fun d => pbtools_decoder_read_fixed32 d w)). reader.
  - apply (safe_pure_field FFixed64 (fun d => pbtools_decoder_read_fixed64 d w)). reader.
  - apply (safe_pure_field FSfixed32 (fun d => pbtools_decoder_read_sfixed32 d w)). reader.
  - apply (safe_pure_field FSfixed64 (fun d => pbtools_decoder_read_sfixed64 d w)). reader.
  - apply (safe_pure_field FFloat (fun d => pbtools_decoder_read_float d w)). reader.
  - apply (safe_pure_field FDouble (fun d => pbtools_decoder_read_double d w)). reader.
  - apply (safe_pure_field FBool (fun d => pbtools_decoder_read_bool d w)). reader.
  - apply (safe_pure_field FEnum (fun d => pbtools_decoder_read_enum d w)). reader.
  - eapply safe_ext; [|exact (safe_convert (fun r => (option_map (fun s => FString (take (strlen s) s)) r.1, r.2)) _ (safe_string h w))].
    intros d. cbn beta. by destruct (pbtools_decoder_read_string d h w) as [[s d'] h'].
  - eapply safe_ext; [|exact (safe_convert (fun r => (option_map FBytes r.1.2, r.2)) _ (safe_bytes h w))].
    intros d. cbn beta. by destruct (pbtools_decoder_read_bytes d h w) as [[[n s] d'] h'].
Qed.
