(* ===== verification/PbPacked.v ===== *)
(** * Protobuf runtime: packed repeated fields

    The two passes of the decoder over a packed field: the first counts the
    items, the second allocates the array and reads them. *)

From S2P Require Import Prelude PbEncoder PbDecoder PbWire PbParse.
Local Open Scope Z_scope.

(** ** Slices and items *)

Lemma slice_ok d payload rest n : dec_ok d -> remaining d = payload ++ rest -> n = Z.of_nat (length payload) ->
  dec_ok (decoder_init_slice d n) /\ remaining (decoder_init_slice d n) = payload /\
  d_pos (decoder_init_slice d n) = 0 /\ decoder_left (decoder_init_slice d n) = n.
Proof.
  intros Hd Hr ->. pose proof (remaining_length d Hd) as Hl. rewrite Hr, length_app in Hl.
  unfold decoder_init_slice, decoder_left. rewrite (proj2 (Z.leb_le _ _)) by lia. cbn [d_pos d_size d_buf].
  destruct Hd as [Hp Hs Hi]. split_and!; [|unfold remaining in *|done|lia].
  - constructor; cbn [d_pos d_size d_buf]; rewrite ?length_drop; lia.
  - cbn [d_pos d_size d_buf]. rewrite drop_0, Z.sub_0_r, Nat2Z.id.
    apply (f_equal (take (length payload))) in Hr. rewrite take_app_length, take_take in Hr.
    rewrite <- Hr at 2. f_equal. lia.
Qed.

Section Items.
Context {A : Type} (item_read : pbtools_decoder_t -> A * pbtools_decoder_t) (enc : A -> list Z).

(** Every item is read back from its own bytes, of which there is one at least. *)
Definition readable (x : A) : Prop := parses item_read x (enc x) /\ (1 <= length (enc x))%nat.

Lemma items_bytes xs : Forall readable xs -> (length xs <= length (concat (map enc xs)))%nat.
Proof. induction 1 as [|x xs [_ Hx] _ IH]; simpl; [lia|]. rewrite length_app. lia. Qed.

Lemma read_items_spec xs fuel d : Forall readable xs -> dec_ok d -> remaining d = concat (map enc xs) ->
  (length xs <= fuel)%nat -> read_items item_read fuel d = (xs, advance d (length (remaining d))).
Proof.
  intros Hx. revert fuel d. induction Hx as [|x xs [Hp Hl] Hx IH]; intros fuel d Hd Hr Hf.
  - destruct fuel; cbn [read_items]; [|rewrite available_remaining by done]; rewrite Hr; simpl; by rewrite advance_0.
  - destruct fuel as [|fuel]; [simpl in Hf; lia|]. cbn [read_items map concat] in *. rewrite available_remaining, Hr by done.
    rewrite length_app. destruct (Nat.eqb_spec (length (enc x) + length (concat (map enc xs)))%nat 0) as [E|_]; [lia|]. cbn [negb].
    rewrite (Hp d _ Hd Hr). destruct (advance_ok d _ _ Hd Hr) as [Hd' Hr'].
    rewrite (IH fuel _ Hd' Hr') by (simpl in Hf; lia). by rewrite Hr', advance_advance.
Qed.

(** A packed field: its length, then the items. *)
Lemma read_repeated_packed wt xs d rest : Forall readable xs -> wt <> 2 -> Z.of_nat (length (concat (map enc xs))) < INT_MAX ->
  dec_ok d -> remaining d = (leb128 (Z.of_nat (length (concat (map enc xs)))) ++ concat (map enc xs)) ++ rest ->
  decoder_read_repeated d 2 item_read wt =
  (xs, advance d (length (leb128 (Z.of_nat (length (concat (map enc xs)))) ++ concat (map enc xs)))).
Proof.
  intros Hx Hw Hl Hd Hr. set (payload := concat (map enc xs)) in *. rewrite <- app_assoc in Hr.
  unfold decoder_read_repeated. rewrite (proj2 (Z.eqb_neq 2 wt)) by lia. change (2 =? PBTOOLS_WIRE_TYPE_LENGTH_DELIMITED) with true. cbn iota.
  rewrite (length_parses (Z.of_nat (length payload)) ltac:(lia) d _ Hd Hr). destruct (advance_ok d _ _ Hd Hr) as [Hd' Hr'].
  unfold INT_MAX in Hl. rewrite to_i32_small by lia. destruct (slice_ok _ payload rest _ Hd' Hr' eq_refl) as (Hs & Hrs & Hp & Hle).
  rewrite (read_items_spec xs _ _ Hx Hs Hrs) by (rewrite Hle, Nat2Z.id; by apply items_bytes). f_equal.
  unfold decoder_get_result. cbn [advance d_pos]. rewrite Hp, Hrs.
  rewrite (seek_advance _ _ payload rest Hd' Hr') by lia. by rewrite advance_advance, length_app.
Qed.
End Items.

(** Counting goes in step with reading. *)
Lemma count_varints_items {A} (item_read : pbtools_decoder_t -> A * pbtools_decoder_t) fuel d n :
  (forall d, (item_read d).2 = (decoder_read_varint d).2) ->
  count_varints fuel d n =
  (n + Z.of_nat (length (read_items item_read fuel d).1), (read_items item_read fuel d).2).
Proof.
  intros Hi. revert d n. induction fuel as [|fuel IH]; intros d n; cbn [count_varints read_items]; [simpl; f_equal; lia|].
  case_cond; [|simpl; f_equal; lia]. rewrite IH, <- (Hi d). destruct (item_read d) as [x d1]. cbn [snd].
  destruct (read_items item_read fuel d1) as [items d2]. cbn [fst snd length]. f_equal. lia.
Qed.

(** ** The heap *)

Record heap_wf (h : pbtools_heap_t) : Prop := {
  hw_pos : 0 <= h_pos h <= h_size h;
  hw_int : h_size h <= INT_MAX;
  hw_addr : 0 <= h_buf h /\ h_buf h + h_size h < 2 ^ 64;
}.

Lemma heap_alloc_spec h size k r h' : heap_wf h -> 0 <= k < 30 -> 0 <= size <= INT_MAX - 2 ^ k ->
  heap_alloc h size (2 ^ k) = (r, h') ->
  heap_wf h' /\ h_buf h' = h_buf h /\ h_size h' = h_size h /\
  match r with
  | Some addr => addr mod 2 ^ k = 0 /\ h_buf h + h_pos h <= addr /\ addr + size = h_buf h + h_pos h' /\ h_pos h' < h_pos h + size + 2 ^ k
  | None => h' = h /\ h_size h - h_pos h < size + 2 ^ k - 1
  end.
Proof.
  intros Hw Hk Hs. pose proof (Z.pow_pos_nonneg 2 k ltac:(lia) ltac:(lia)) as Hpow.
  pose proof (Z.pow_lt_mono_r 2 k 30 ltac:(lia) ltac:(lia) ltac:(lia)) as Hpow'.
  destruct Hw as [Hp Hi Ha]. unfold INT_MAX in *. unfold heap_alloc. rewrite (to_i32_small size) by lia.
  rewrite wrap64_small by (unfold is_u64; lia).
  replace (2 ^ k - 1) with (Z.ones k) by (rewrite Z.ones_equiv; lia). rewrite Z.land_ones by lia.
  pose proof (Z.mod_pos_bound (h_buf h + h_pos h) (2 ^ k) Hpow) as Hm.
  pose proof (Z.div_mod (h_buf h + h_pos h) (2 ^ k) ltac:(lia)) as Hdm.
  set (rest := (h_buf h + h_pos h) mod 2 ^ k) in *. set (q := (h_buf h + h_pos h) / 2 ^ k) in *.
  destruct (Z.leb_spec size (h_size h - h_pos h)) as [Hle|Hgt]; cycle 1.
  { intros [= <- <-]. split_and!; [by constructor|done|done|done|lia]. }
  destruct (Z.eqb_spec rest 0) as [Hz|Hnz].
  { intros [= <- <-]. cbn [h_buf h_size h_pos]. split_and!; try done; try lia. constructor; cbn [h_buf h_size h_pos]; unfold INT_MAX; lia. }
  rewrite add64_small, to_i32_small by lia.
  destruct (Z.leb_spec (size + (2 ^ k - rest)) (h_size h - h_pos h)) as [Hle'|Hgt'].
  - intros [= <- <-]. cbn [h_buf h_size h_pos]. rewrite add64_small by lia.
    split_and!; try done; try lia; [constructor; cbn [h_buf h_size h_pos]; unfold INT_MAX; lia|].
    replace (h_buf h + h_pos h + (2 ^ k - rest)) with ((q + 1) * 2 ^ k) by lia. apply Z.mod_mul. lia.
  - intros [= <- <-]. split_and!; [by constructor|done|done|done|lia].
Qed.

(** ** The packed types *)

Inductive packed :=
  | PInt32 | PInt64 | PSint32 | PSint64 | PUint32 | PUint64 | PFixed32 | PFixed64 | PSfixed32 | PSfixed64 | PFloat | PDouble.

(** An item as a field of its type. *)
Definition packed_field (p : packed) (v : Z) : field :=
  match p with
  | PInt32 => FInt32 v | PInt64 => FInt64 v | PSint32 => FSint32 v | PSint64 => FSint64 v
  | PUint32 => FUint32 v | PUint64 => FUint64 v | PFixed32 => FFixed32 v | PFixed64 => FFixed64 v
  | PSfixed32 => FSfixed32 v | PSfixed64 => FSfixed64 v | PFloat => FFloat v | PDouble => FDouble v
  end.

Definition packed_write (p : packed) (e : pbtools_encoder_t) (n : Z) (items : list Z) : pbtools_encoder_t :=
  match p with
  | PInt32 => pbtools_encoder_write_repeated_int32 e n items
  | PInt64 => pbtools_encoder_write_repeated_int64 e n items
  | PSint32 => pbtools_encoder_write_repeated_sint32 e n items
  | PSint64 => pbtools_encoder_write_repeated_sint64 e n items
  | PUint32 => pbtools_encoder_write_repeated_uint32 e n items
  | PUint64 => pbtools_encoder_write_repeated_uint64 e n items
  | PFixed32 => pbtools_encoder_write_repeated_fixed32 e n items
  | PFixed64 => pbtools_encoder_write_repeated_fixed64 e n items
  | PSfixed32 => pbtools_encoder_write_repeated_sfixed32 e n items
  | PSfixed64 => pbtools_encoder_write_repeated_sfixed64 e n items
  | PFloat => pbtools_encoder_write_repeated_float e n items
  | PDouble => pbtools_encoder_write_repeated_double e n items
  end.

Definition packed_info (p : packed) : pbtools_repeated_info_t -> pbtools_decoder_t -> Z -> pbtools_repeated_info_t * pbtools_decoder_t :=
  match p with
  | PInt32 => pbtools_repeated_info_decode_int32
  | PInt64 => pbtools_repeated_info_decode_int64
  | PSint32 => pbtools_repeated_info_decode_sint32
  | PSint64 => pbtools_repeated_info_decode_sint64
  | PUint32 => pbtools_repeated_info_decode_uint32
  | PUint64 => pbtools_repeated_info_decode_uint64
  | PFixed32 => pbtools_repeated_info_decode_fixed32
  | PFixed64 => pbtools_repeated_info_decode_fixed64
  | PSfixed32 => pbtools_repeated_info_decode_sfixed32
  | PSfixed64 => pbtools_repeated_info_decode_sfixed64
  | PFloat => pbtools_repeated_info_decode_float
  | PDouble => pbtools_repeated_info_decode_double
  end.

Definition packed_decode (p : packed) (d : pbtools_decoder_t) (h : pbtools_heap_t) (info : pbtools_repeated_info_t) :=
  match p with
  | PInt32 => pbtools_decoder_decode_repeated_int32 d h info
  | PInt64 => pbtools_decoder_decode_repeated_int64 d h info
  | PSint32 => pbtools_decoder_decode_repeated_sint32 d h info
  | PSint64 => pbtools_decoder_decode_repeated_sint64 d h info
  | PUint32 => pbtools_decoder_decode_repeated_uint32 d h info
  | PUint64 => pbtools_decoder_decode_repeated_uint64 d h info
  | PFixed32 => pbtools_decoder_decode_repeated_fixed32 d h info
  | PFixed64 => pbtools_decoder_decode_repeated_fixed64 d h info
  | PSfixed32 => pbtools_decoder_decode_repeated_sfixed32 d h info
  | PSfixed64 => pbtools_decoder_decode_repeated_sfixed64 d h info
  | PFloat => pbtools_decoder_decode_repeated_float d h info
  | PDouble => pbtools_decoder_decode_repeated_double d h info
  end.

Definition packed_item_read (p : packed) : pbtools_decoder_t -> Z * pbtools_decoder_t :=
  match p with
  | PInt32 => read_repeated_int32_item | PInt64 => read_repeated_int64_item
  | PSint32 => read_repeated_sint32_item | PSint64 => read_repeated_sint64_item
  | PUint32 => read_repeated_uint32_item | PUint64 => read_repeated_uint64_item
  | PFixed32 => read_repeated_fixed32_item | PFixed64 => read_repeated_fixed64_item
  | PSfixed32 => read_repeated_sfixed32_item | PSfixed64 => read_repeated_sfixed64_item
  | PFloat => read_repeated_float_item | PDouble => read_repeated_double_item
  end.

Definition packed_size (p : packed) : Z :=
  match p with PInt64 | PSint64 | PUint64 | PFixed64 | PSfixed64 | PDouble => 8 | _ => 4 end.
Definition packed_wire_type (p : packed) : Z := field_wire_type (packed_field p 0).
Definition packed_enc (p : packed) (v : Z) : list Z := field_payload (packed_field p v).

Lemma leb128_nonempty n : (1 <= length (leb128 n))%nat.
Proof. apply (leb_nonempty 9). Qed.

Lemma packed_enc_nonempty p v : (1 <= length (packed_enc p v))%nat.
Proof. destruct p; cbn [packed_enc packed_field field_payload]; try apply leb128_nonempty; rewrite le_bytes_length; lia. Qed.

Lemma wrap32_range v : is_u32 (wrap32 v).
Proof. unfold is_u32, wrap32. apply Z.mod_pos_bound. lia. Qed.

(** The item writers put the bytes of an item, the item readers read them. *)
Lemma packed_readable p v : field_valid (packed_field p v) -> readable (packed_item_read p) (packed_enc p) v.
Proof.
  intros Hv. split; [|apply packed_enc_nonempty]. destruct p; cbn [packed_field field_valid] in Hv.
  - exact (int32_parses v Hv).
  - exact (int64_parses v Hv).
  - pose proof (parses_convert sint32_decode _ _ _ (varint_parses (zigzag v) (zigzag_range v (is_i64_of_i32 v Hv)))) as H.
    rewrite sint32_decode_zigzag in H by done. exact H.
  - exact (sint64_parses v Hv).
  - exact (uint32_parses v Hv).
  - exact (varint_parses v Hv).
  - exact (read_32_parses v Hv).
  - exact (read_64_parses v Hv).
  - exact (sfixed32_parses v Hv).
  - exact (sfixed64_parses v Hv).
  - exact (read_32_parses v Hv).
  - exact (read_64_parses v Hv).
Qed.

Lemma packed_write_emits p n items : is_field_number n -> Forall (fun v => field_valid (packed_field p v)) items -> items <> [] ->
  emits (fun e => packed_write p e n items) (packed_bytes n (concat (map (packed_enc p) items))).
Proof.
  intros Hn Hv Hne.
  assert (Hitem : forall iw, (forall v, field_valid (packed_field p v) -> emits (fun e => iw e v) (packed_enc p v)) ->
    emits (fun e => encoder_write_repeated e n items iw) (packed_bytes n (concat (map (packed_enc p) items)))).
  { intros iw Hiw. apply write_repeated_emits; [done| |done]. eapply Forall_impl; [exact Hv|]. intros v Hvv.
    split; [by apply Hiw|]. pose proof (packed_enc_nonempty p v). by destruct (packed_enc p v); [simpl in *; lia|]. }
  destruct p; apply Hitem; intros v Hvv; cbn [packed_enc packed_field field_payload field_valid] in *.
  - apply write_varint_emits, wrap64_range.
  - apply write_varint_emits, wrap64_range.
  - unfold write_repeated_sint32. rewrite sint32_encode_zigzag by done. apply write_varint_emits. auto with pb.
  - unfold write_repeated_sint64. rewrite sint64_encode_zigzag by done. apply write_varint_emits. auto with pb.
  - apply write_varint_emits. auto with pb.
  - by apply write_varint_emits.
  - unfold write_repeated_32bit. rewrite wrap32_small by done. apply write_32_emits.
  - unfold write_repeated_64bit. rewrite wrap64_small by done. apply write_64_emits.
  - apply write_32_emits.
  - apply write_64_emits.
  - apply write_32_emits.
  - apply write_64_emits.
Qed.

(** ** The two passes *)

Lemma packed_info_varint p : packed_wire_type p = 0 ->
  packed_info p = repeated_info_decode_varint /\ (forall d, (packed_item_read p d).2 = (decoder_read_varint d).2).
Proof. destruct p; intros H; try discriminate H; done. Qed.

Lemma packed_info_fixed p : packed_wire_type p <> 0 ->
  packed_info p = repeated_info_decode_fixed (packed_wire_type p) (packed_size p) /\
  (packed_wire_type p =? 2) = false /\ (2 =? packed_wire_type p) = false /\
  forall v, Z.of_nat (length (packed_enc p v)) = packed_size p.
Proof. destruct p; intros H; try (exfalso; by apply H); done. Qed.

Lemma packed_decode_generic p d h info : packed_decode p d h info =
  decoder_decode_repeated d h info (packed_size p)
    (fun d h w => (decoder_read_repeated d w (packed_item_read p) (packed_wire_type p), h)).
Proof. by destruct p. Qed.

Lemma packed_wire_type_2 p : packed_wire_type p <> 2.
Proof. by destruct p. Qed.

Section Passes.
Context (p : packed) (items : list Z) (n : Z) (d : pbtools_decoder_t) (rest : list Z).
Let payload := concat (map (packed_enc p) items).
Hypothesis Hitems : Forall (fun v => field_valid (packed_field p v)) items.
Hypothesis Hlen : Z.of_nat (length payload) < INT_MAX.
Hypothesis Hd : dec_ok d.
Hypothesis Hr : remaining d = (leb128 (Z.of_nat (length payload)) ++ payload) ++ rest.

Lemma packed_all_readable : Forall (readable (packed_item_read p) (packed_enc p)) items.
Proof. eapply Forall_impl; [exact Hitems|]. apply packed_readable. Qed.

Lemma fixed_payload_length : packed_wire_type p <> 0 -> Z.of_nat (length payload) = packed_size p * Z.of_nat (length items).
Proof.
  intros Hw. destruct (packed_info_fixed p Hw) as (_ & _ & _ & He). clear - He. subst payload.
  induction items as [|v l IH]; simpl; [lia|]. rewrite length_app. specialize (He v). lia.
Qed.

(** What the first pass leaves in the information: the count, and a decoder at
    the field. *)
Lemma packed_first_pass i0 : ri_length i0 = 0 -> ri_tag i0 = n ->
  packed_info p i0 d 2 =
  ({| ri_decoder := decoder_init_slice d (decoder_left d); ri_length := Z.of_nat (length items); ri_tag := n; ri_wire_type := 2 |},
   advance d (length (leb128 (Z.of_nat (length payload)) ++ payload))).
Proof.
  intros Hl Ht. pose proof Hr as Hr0. rewrite <- app_assoc in Hr0. destruct (advance_ok d _ _ Hd Hr0) as [Hd' Hr'].
  pose proof (length_parses (Z.of_nat (length payload)) ltac:(lia) d _ Hd Hr0) as Hlen'.
  assert (Hint : to_i32 (Z.of_nat (length payload)) = Z.of_nat (length payload)) by (apply to_i32_small; unfold INT_MAX in Hlen; lia).
  assert (Hseek : decoder_seek (advance d (length (leb128 (Z.of_nat (length payload))))) (Z.of_nat (length payload)) =
    advance d (length (leb128 (Z.of_nat (length payload)) ++ payload)))
    by (rewrite (seek_advance _ _ payload rest Hd' Hr' eq_refl), advance_advance, length_app; done).
  destruct (decide (packed_wire_type p = 0)) as [Hw|Hw].
  - destruct (packed_info_varint p Hw) as [-> Hitem]. unfold repeated_info_decode_varint, repeated_info_init_decode. rewrite Hl. simpl Z.eqb. cbn iota.
    rewrite Hlen', Hint. destruct (slice_ok _ payload rest _ Hd' Hr' eq_refl) as (Hs & Hrs & Hp & Hle).
    rewrite (count_varints_items (packed_item_read p)) by done.
    rewrite (read_items_spec (packed_item_read p) (packed_enc p) items _ _ packed_all_readable Hs Hrs)
      by (rewrite Hle, Nat2Z.id; by apply (items_bytes (packed_item_read p)), packed_all_readable).
    cbn [fst snd]. unfold decoder_get_result. rewrite advance_pos, Hp, Hrs, !Z.add_0_l, Hseek.
    unfold add_length. cbn [ri_decoder ri_length ri_tag ri_wire_type]. by rewrite Ht.
  - destruct (packed_info_fixed p Hw) as (-> & Hw2 & Hw2' & _). unfold repeated_info_decode_fixed, repeated_info_init_decode.
    rewrite Hl, Hw2'. simpl Z.eqb. cbn iota. rewrite Hlen', Hint, Hseek. unfold add_length. cbn [ri_decoder ri_length ri_tag ri_wire_type].
    rewrite Ht, (fixed_payload_length Hw), Z.mul_comm, Z.div_mul; [done|]. by destruct p.
Qed.

(** The second pass allocates the array and fills it. *)
Lemma packed_second_pass d' h : items <> [] -> heap_wf h -> packed_size p * Z.of_nat (length items) + 8 <= h_size h - h_pos h ->
  exists h', heap_wf h' /\
  packed_decode p d' h {| ri_decoder := decoder_init_slice d (decoder_left d); ri_length := Z.of_nat (length items);
    ri_tag := n; ri_wire_type := 2 |} = (Some (Z.of_nat (length items), items), d', h').
Proof.
  intros Hne Hh Hroom. rewrite packed_decode_generic. unfold decoder_decode_repeated. cbn [ri_length ri_decoder ri_wire_type].
  destruct (Z.eqb_spec (Z.of_nat (length items)) 0) as [E|_]; [by destruct items|].
  assert (1 <= packed_size p <= 8) as Hps by (by destruct p).
  pose proof Hh as [Hp1 Hp2 _]. unfold INT_MAX in *.
  rewrite wrap64_small, mul64_small by (unfold is_u64; nia).
  unfold decoder_heap_alloc. destruct (heap_alloc h (packed_size p * Z.of_nat (length items)) 8) as [a h'] eqn:Ea.
  apply (heap_alloc_spec h _ 3) in Ea; [|done|lia|unfold INT_MAX; nia]. destruct Ea as (Hh' & _ & _ & Ha).
  change (2 ^ 3) with 8 in Ha. destruct a as [a|]; [|lia]. cbn iota. exists h'. split; [done|].
  destruct (slice_ok d ((leb128 (Z.of_nat (length payload)) ++ payload) ++ rest) [] (decoder_left d) Hd) as (Hs & Hrs & Hpos & Hleft).
  { by rewrite app_nil_r. }
  { rewrite <- Hr. unfold decoder_left. by rewrite remaining_length. }
  rewrite (read_repeated_packed (packed_item_read p) (packed_enc p) (packed_wire_type p) items _ rest packed_all_readable
    (packed_wire_type_2 p) Hlen Hs Hrs).
  destruct (advance_ok _ _ _ Hs Hrs) as [Hs' Hrs'].
  assert (Hloop : forall rr fuel info h, ri_length info = Z.of_nat (length items) -> decode_repeated_loop (A := Z) rr fuel info h items = (items, info, h)).
  { intros rr [|fuel] info h0 Hl; [done|]. cbn [decode_repeated_loop]. unfold are_more_items_to_decode.
    by rewrite Hl, Z.ltb_irrefl, andb_false_r. }
  rewrite Hloop by done. cbn [with_decoder ri_decoder ri_length]. unfold decoder_get_result.
  destruct Hs' as [[Hnn _] _ _]. rewrite (proj2 (Z.ltb_ge _ 0)); [done|exact Hnn].
Qed.
End Passes.
