(* ===== verification/PbPrograms.v ===== *)
(** * Protobuf runtime: programs over the decoder

    The code generated for a message type is a program over the runtime: it reads
    tags and fields, counts and decodes repeated fields, and decodes sub-messages
    with programs of their own.  [prog] is the type of all such programs; this file
    proves them safe on arbitrary bytes. *)

From S2P Require Import Prelude PbEncoder PbDecoder PbWire PbParse PbSafety PbPacked.
Local Open Scope Z_scope.

(** ** Programs *)

(** The types of repeated fields with items other than messages. *)
Inductive repeated := RNumber (p : packed) | RBool | RString | RBytes.
Inductive items := INumbers (l : list Z) | IBools (l : list bool) | IStrings (l : list (option (list Z))) | IBytes (l : list (Z * option (list Z))).

(** A program may use every result in what it does next.  Repeated fields have
    their counting information in numbered slots; [None] in place of the type is a
    repeated message. *)
Inductive prog : Type -> Type :=
  | Return {A} (a : A) : prog A
  | Available {A} (k : bool -> prog A) : prog A
  | ReadTag {A} (k : Z -> Z -> prog A) : prog A
  | ReadField {A} (t : kind) (wire_type : Z) (k : option field -> prog A) : prog A
  | SkipField {A} (wire_type : Z) (k : prog A) : prog A
  | Seek {A} (offset : Z) (k : prog A) : prog A
  | InfoInit {A} (tag : Z) (k : prog A) : prog A
  | InfoDecode {A} (t : option repeated) (slot : nat) (wire_type : Z) (k : prog A) : prog A
  | DecodeRepeated {A} (t : repeated) (slot : nat) (k : option (Z * items) -> prog A) : prog A
  | SubMessage {A M} (init : M) (inner : M -> prog M) (wire_type : Z) (old : option M) (size : Z) (k : option M -> prog A) : prog A
  | DecodeMessages {A M} (init : M) (inner : M -> prog M) (slot : nat) (size : Z) (k : option (list M) -> prog A) : prog A.

(** The two passes of the runtime for a repeated field. *)
Definition repeated_info (t : option repeated) : pbtools_repeated_info_t -> pbtools_decoder_t -> Z -> pbtools_repeated_info_t * pbtools_decoder_t :=
  match t with
  | Some (RNumber p) => packed_info p
  | Some RBool => pbtools_repeated_info_decode_bool
  | Some RString => pbtools_repeated_info_decode_string
  | Some RBytes => pbtools_repeated_info_decode_bytes
  | None => pbtools_repeated_info_decode
  end.

Definition got {A} (c : list A -> items) (r : option (Z * list A) * pbtools_decoder_t * pbtools_heap_t) :
    option (Z * items) * pbtools_decoder_t * pbtools_heap_t :=
  let '(o, d, h) := r in ((fun x => (x.1, c x.2)) <$> o, d, h).

Definition repeated_decode (t : repeated) (d : pbtools_decoder_t) (h : pbtools_heap_t) (info : pbtools_repeated_info_t) :=
  match t with
  | RNumber p => got INumbers (packed_decode p d h info)
  | RBool => got IBools (pbtools_decoder_decode_repeated_bool d h info)
  | RString => got IStrings (pbtools_decoder_decode_repeated_string d h info)
  | RBytes => got IBytes (pbtools_decoder_decode_repeated_bytes d h info)
  end.

Definition slots : Type := list (option pbtools_repeated_info_t).
Definition slot_info (infos : slots) (i : nat) : option pbtools_repeated_info_t := infos !! i ≫= id.

Section Run.
(** The memory in which the information of a repeated field is initialised. *)
Context (uninitialised : pbtools_repeated_info_t).

(** A program on a decoder.  The second pass uses a slot up; a slot without
    information is passed over. *)
Fixpoint run {A} (p : prog A) (infos : slots) (h : pbtools_heap_t) (d : pbtools_decoder_t) {struct p} :
    (A * pbtools_heap_t) * pbtools_decoder_t :=
  match p with
  | Return a => ((a, h), d)
  | Available k => run (k (pbtools_decoder_available d)) infos h d
  | ReadTag k => let '(n, w, d) := pbtools_decoder_read_tag d in run (k n w) infos h d
  | ReadField t w k => let '(f, d, h) := read_field t d h w in run (k f) infos h d
  | SkipField w k => run k infos h (pbtools_decoder_skip_field d w)
  | Seek offset k => run k infos h (decoder_seek d offset)
  | InfoInit tag k => run k (infos ++ [Some (pbtools_repeated_info_init uninitialised tag)]) h d
  | InfoDecode t i w k =>
      match slot_info infos i with
      | Some info => let '(info, d) := repeated_info t info d w in run k (<[i := Some info]> infos) h d
      | None => run k infos h d
      end
  | DecodeRepeated t i k =>
      match slot_info infos i with
      | Some info => let '(r, d, h) := repeated_decode t d h info in run (k r) (<[i := None]> infos) h d
      | None => run (k None) infos h d
      end
  | SubMessage init inner w old size k =>
      let '(m, d, h) := pbtools_decoder_sub_message_decode init
        (fun d h m => let '((m, h), d) := run (inner m) [] h d in (m, d, h)) d h w old size in
      run (k m) infos h d
  | DecodeMessages init inner i size k =>
      match slot_info infos i with
      | Some info =>
          let '(ms, d, h) := pbtools_decode_repeated_inner init
            (fun d h m => let '((m, h), d) := run (inner m) [] h d in (m, d, h)) d h info size in
          run (k ms) (<[i := None]> infos) h d
      | None => run (k None) infos h d
      end
  end.
End Run.

(** ** Related readers *)

(** Two readers on decoders that agree: related results, and decoders that agree. *)
Definition safe_rel {A} (R : A -> A -> Prop) (f g : pbtools_decoder_t -> A * pbtools_decoder_t) : Prop :=
  forall d1 d2, agree d1 d2 ->
    R (f d1).1 (g d2).1 /\ agree (f d1).2 (g d2).2 /\ d_buf (f d1).2 = d_buf d1 /\
    (d_pos d1 < 0 -> (f d1).2 = d1) /\ (0 <= d_pos (f d1).2 -> d_pos d1 <= d_pos (f d1).2).

Lemma rel_bind {A B} (R : A -> A -> Prop) (S : B -> B -> Prop) f g (k l : A -> pbtools_decoder_t -> B * pbtools_decoder_t) :
  safe_rel R f g -> (forall v w, R v w -> safe_rel S (k v) (l w)) ->
  safe_rel S (fun d => let '(v, d) := f d in k v d) (fun d => let '(v, d) := g d in l v d).
Proof.
  intros Hf Hk d1 d2 H. destruct (Hf d1 d2 H) as (E & Ha & Hb & Hs & Hp).
  destruct (f d1) as [v1 e1], (g d2) as [v2 e2]. simpl in *.
  destruct (Hk v1 v2 E e1 e2 Ha) as (E' & Ha' & Hb' & Hs' & Hp'). split_and!; [done..|congruence| |].
  - intros Hn. specialize (Hs Hn). subst e1. auto.
  - intros Hn. specialize (Hp' Hn). destruct (Z.lt_ge_cases (d_pos e1) 0) as [Hlt|Hge]; [|lia].
    rewrite (Hs' Hlt) in Hn. lia.
Qed.

Lemma rel_ext {A} (R : A -> A -> Prop) f g f' g' : (forall d, f d = f' d) -> (forall d, g d = g' d) -> safe_rel R f g -> safe_rel R f' g'.
Proof. intros Ef Eg H d1 d2. rewrite <- Ef, <- Eg. apply H. Qed.

(** Readers that look at the decoder's position. *)
Lemma safe_available {A} (f : bool -> pbtools_decoder_t -> A * pbtools_decoder_t) : (forall b, safe (f b)) ->
  safe (fun d => f (pbtools_decoder_available d) d).
Proof.
  intros Hf d1 d2 H. replace (pbtools_decoder_available d2) with (pbtools_decoder_available d1); [by apply Hf|].
  unfold pbtools_decoder_available. by rewrite (ag_pos _ _ H), (ag_size _ _ H).
Qed.
Lemma safe_left {A} (f : Z -> pbtools_decoder_t -> A * pbtools_decoder_t) : (forall n, safe (f n)) -> safe (fun d => f (decoder_left d) d).
Proof.
  intros Hf d1 d2 H. replace (decoder_left d2) with (decoder_left d1); [by apply Hf|]. unfold decoder_left. by rewrite (ag_pos _ _ H), (ag_size _ _ H).
Qed.

(** ** Slices *)

Lemma agree_slice d1 d2 n : 0 <= n -> agree d1 d2 -> agree (decoder_init_slice d1 n) (decoder_init_slice d2 n).
Proof.
  intros Hn H. unfold decoder_init_slice. pose proof (ag_pos _ _ H) as Ep. pose proof (ag_size _ _ H) as Es. rewrite <- Ep, <- Es.
  destruct (Z.leb_spec n (d_size d1 - d_pos d1)) as [Hle|Hgt].
  2:{ constructor; cbn [d_pos d_size d_buf]; try done; right; done. }
  destruct (Z.lt_ge_cases (d_pos d1) 0) as [Hneg|Hp].
  - destruct (agree_failed _ _ H Hneg) as [[? ?] _]. replace n with 0 by lia.
    constructor; cbn [d_pos d_size d_buf]; try done; left; constructor; cbn [d_pos d_size d_buf]; unfold INT_MAX; lia.
  - destruct (agree_ok _ _ H Hp) as [[? ? ?] [? ? ?]]. pose proof (agree_bytes d1 d2 (Z.to_nat n) H Hp ltac:(lia)) as E. rewrite <- Ep in E.
    constructor; cbn [d_pos d_size d_buf]; try done; left; constructor; cbn [d_pos d_size d_buf]; rewrite ?length_drop; lia.
Qed.

(** A reader on a slice of the decoder, which then moves behind what was read. *)
Lemma safe_slice {A} n (f : pbtools_decoder_t -> A * pbtools_decoder_t) : 0 <= n -> safe f ->
  safe (fun d => let '(v, s) := f (decoder_init_slice d n) in (v, decoder_seek d (decoder_get_result s))).
Proof.
  intros Hn Hf d1 d2 H. destruct (Hf _ _ (agree_slice d1 d2 n Hn H)) as (E & Ha & _).
  destruct (f (decoder_init_slice d1 n)) as [v1 s1], (f (decoder_init_slice d2 n)) as [v2 s2]. cbn [fst snd] in *.
  destruct (safe_seek (decoder_get_result s1) d1 d2 H) as (_ & Hs). unfold decoder_get_result in *. rewrite <- (ag_pos _ _ Ha). by split.
Qed.

(** ** First pass *)

Lemma safe_count_varints fuel n : safe (fun d => count_varints fuel d n).
Proof.
  revert n. induction fuel as [|fuel IH]; intros n; [apply safe_ret|].
  eapply safe_ext; [|apply (safe_available (fun b d => if b then let '(_, d) := decoder_read_varint d in count_varints fuel d (n + 1) else (n, d)))].
  - intros d. cbn [count_varints]. destruct (pbtools_decoder_available d); [|done]. by destruct (decoder_read_varint d).
  - intros b. apply safe_if; [|apply safe_ret]. apply safe_bind; [apply safe_varint|intros _; apply IH].
Qed.

(** What the first pass adds to the count. *)
Definition counts (f : pbtools_repeated_info_t -> pbtools_decoder_t -> Z -> pbtools_repeated_info_t * pbtools_decoder_t) (w : Z)
    (g : pbtools_decoder_t -> Z * pbtools_decoder_t) : Prop :=
  safe g /\ forall info d, f info d w = let '(n, d') := g d in (add_length (repeated_info_init_decode info d w) n, d').

Lemma add_length_0 info : info = add_length info 0.
Proof. destruct info. unfold add_length. simpl. by rewrite Z.add_0_r. Qed.

Lemma count_varint w : exists g, counts repeated_info_decode_varint w g.
Proof.
  exists (fun d => if w =? PBTOOLS_WIRE_TYPE_VARINT then convert (fun _ => 1) (decoder_read_varint d)
    else if w =? PBTOOLS_WIRE_TYPE_LENGTH_DELIMITED then
      let '(size, d) := decoder_read_length_delimited d w in
      let '(n, s) := (fun s => count_varints (Z.to_nat (decoder_left s)) s 0) (decoder_init_slice d (to_i32 size)) in
      (n, decoder_seek d (decoder_get_result s))
    else (0, decoder_abort d PBTOOLS_BAD_WIRE_TYPE)). split.
  - apply safe_if; [apply safe_convert, safe_varint|]. apply safe_if; [|by apply safe_abort]. apply safe_bind_length. intros n Hn.
    unfold INT_MAX in Hn. rewrite to_i32_small by lia.
    apply (safe_slice n (fun s => count_varints (Z.to_nat (decoder_left s)) s 0)); [lia|].
    apply (safe_left (fun l s => count_varints (Z.to_nat l) s 0)). intros l. apply safe_count_varints.
  - intros info d. unfold repeated_info_decode_varint. case_cond; [done|]. case_cond; [|by rewrite <- add_length_0].
    destruct (decoder_read_length_delimited d w) as [size d']. by destruct (count_varints _ _ _).
Qed.

Lemma count_fixed wt size w : exists g, counts (repeated_info_decode_fixed wt size) w g.
Proof.
  exists (fun d => if w =? wt then (1, decoder_seek d size)
    else if w =? PBTOOLS_WIRE_TYPE_LENGTH_DELIMITED then
      let '(n, d) := decoder_read_length_delimited d w in (to_i32 n / size, decoder_seek d (to_i32 n))
    else (0, decoder_abort d PBTOOLS_BAD_WIRE_TYPE)). split.
  - apply safe_if; [exact (safe_convert (fun _ => 1) _ (safe_seek size))|]. apply safe_if; [|by apply safe_abort].
    apply safe_bind; [apply safe_length_delimited|]. intros n. exact (safe_convert (fun _ => to_i32 n / size) _ (safe_seek (to_i32 n))).
  - intros info d. unfold repeated_info_decode_fixed. case_cond; [done|]. case_cond; [|by rewrite <- add_length_0].
    by destruct (decoder_read_length_delimited d w) as [n d'].
Qed.

Lemma count_length_delimited w : exists g, counts repeated_info_decode_length_delimited w g.
Proof.
  exists (fun d => let '(n, d) := decoder_read_length_delimited d w in (1, decoder_seek d (to_i32 n))). split.
  - apply safe_bind; [apply safe_length_delimited|]. intros n. exact (safe_convert (fun _ => 1) _ (safe_seek (to_i32 n))).
  - intros info d. unfold repeated_info_decode_length_delimited. by destruct (decoder_read_length_delimited d w) as [n d'].
Qed.

Lemma count_repeated t w : exists g, counts (repeated_info t) w g.
Proof.
  destruct t as [[p| | |]|]; [|apply count_varint|apply count_length_delimited..].
  destruct p; (apply count_varint || apply count_fixed).
Qed.

(** The information of two runs: what was counted, and where, once something was. *)
Record info_agree (i1 i2 : pbtools_repeated_info_t) : Prop := {
  ia_length : ri_length i1 = ri_length i2;
  ia_tag : ri_tag i1 = ri_tag i2;
  ia_counted : ri_length i1 <> 0 -> ri_wire_type i1 = ri_wire_type i2 /\ agree (ri_decoder i1) (ri_decoder i2);
}.

Lemma init_decode_agree i1 i2 d1 d2 w n : info_agree i1 i2 -> agree d1 d2 ->
  info_agree (add_length (repeated_info_init_decode i1 d1 w) n) (add_length (repeated_info_init_decode i2 d2 w) n).
Proof.
  intros [El Et Ec] H. unfold repeated_info_init_decode. rewrite <- El. destruct (Z.eqb_spec (ri_length i1) 0) as [E|E].
  - constructor; cbn [add_length ri_length ri_tag ri_wire_type ri_decoder]; [lia|done|]. intros _. split; [done|].
    replace (decoder_left d2) with (decoder_left d1) by (unfold decoder_left; by rewrite (ag_pos _ _ H), (ag_size _ _ H)).
    apply agree_slice; [|done]. unfold decoder_left. destruct (ag_left _ _ H) as [[? ? ?]|[? ?]]; lia.
  - destruct (Ec E). constructor; cbn [add_length ri_length ri_tag ri_wire_type ri_decoder]; [lia|done|done].
Qed.

Lemma repeated_info_rel t w i1 i2 : info_agree i1 i2 ->
  safe_rel info_agree (fun d => repeated_info t i1 d w) (fun d => repeated_info t i2 d w).
Proof.
  intros Hi d1 d2 H. destruct (count_repeated t w) as (g & Hg & Ef). rewrite !Ef. destruct (Hg d1 d2 H) as (En & Hr).
  destruct (g d1) as [n1 e1], (g d2) as [n2 e2]. cbn [fst snd] in *. subst n2. split; [by apply init_decode_agree|done].
Qed.

(** ** Second pass *)

Lemma safe_read_items {A} (item : pbtools_decoder_t -> A * pbtools_decoder_t) fuel : safe item -> safe (read_items item fuel).
Proof.
  intros Hi. induction fuel as [|fuel IH]; [apply (safe_ret [])|].
  eapply safe_ext; [|apply (safe_available (fun b d =>
    if b then let '(x, d) := item d in convert (cons x) (read_items item fuel d) else ([], d)))].
  - intros d. cbn [read_items]. destruct (pbtools_decoder_available d); [|done]. destruct (item d) as [x d']. unfold convert.
    by destruct (read_items item fuel d').
  - intros b. apply safe_if; [|apply safe_ret]. apply safe_bind; [done|]. intros x. by apply safe_convert.
Qed.

Lemma safe_read_repeated {A} (item : pbtools_decoder_t -> A * pbtools_decoder_t) w wt : safe item -> safe (fun d => decoder_read_repeated d w item wt).
Proof.
  intros Hi. unfold decoder_read_repeated. apply safe_if; [|apply safe_if; [|by apply safe_abort]].
  - apply safe_bind; [done|]. intros x. apply safe_ret.
  - apply safe_bind_length. unfold INT_MAX. intros n Hn. rewrite to_i32_small by lia.
    apply (safe_slice n (fun s => read_items item (Z.to_nat (decoder_left s)) s)); [lia|].
    apply (safe_left (fun l s => read_items item (Z.to_nat l) s)). intros l. by apply safe_read_items.
Qed.

(** The decoders inside of two pieces of information, and what the loops use. *)
Definition info_full (i1 i2 : pbtools_repeated_info_t) : Prop :=
  ri_length i1 = ri_length i2 /\ ri_tag i1 = ri_tag i2 /\ agree (ri_decoder i1) (ri_decoder i2).

Lemma info_full_with i1 i2 d1 d2 : info_full i1 i2 -> agree d1 d2 -> info_full (with_decoder i1 d1) (with_decoder i2 d2).
Proof. intros (? & ? & _) Ha. by split_and!. Qed.

Lemma more_items i1 i2 n : info_full i1 i2 -> are_more_items_to_decode i1 n = are_more_items_to_decode i2 n.
Proof.
  intros (El & _ & Ha). unfold are_more_items_to_decode, pbtools_decoder_available. by rewrite El, (ag_pos _ _ Ha), (ag_size _ _ Ha).
Qed.

Lemma tag_agree d1 d2 : agree d1 d2 -> exists n w e1 e2, pbtools_decoder_read_tag d1 = (n, w, e1) /\ pbtools_decoder_read_tag d2 = (n, w, e2) /\ agree e1 e2.
Proof.
  intros H. destruct (safe_tag d1 d2 H) as (E & Ha & _). destruct (pbtools_decoder_read_tag d1) as [[n w] e1], (pbtools_decoder_read_tag d2) as [[n2 w2] e2].
  cbn in *. injection E as <- <-. by exists n, w, e1, e2.
Qed.

(** The end of the second pass. *)
Lemma safe_finish {A} (v : A) d1 d2 res : agree d1 d2 ->
  let f (d : pbtools_decoder_t) := (v, if res <? 0 then decoder_abort d (- res) else d) in
  (f d1).1 = (f d2).1 /\ agree (f d1).2 (f d2).2 /\ d_buf (f d1).2 = d_buf d1 /\
  (d_pos d1 < 0 -> (f d1).2 = d1) /\ (0 <= d_pos (f d1).2 -> d_pos d1 <= d_pos (f d1).2).
Proof. intros H. cbv zeta. destruct (Z.ltb_spec res 0); [apply (safe_abort v (- res)); [lia|done]|by apply (safe_ret v)]. Qed.

Section SecondPass.
Context {A : Type} (read : pbtools_decoder_t -> pbtools_heap_t -> Z -> list A * pbtools_decoder_t * pbtools_heap_t).
Hypothesis Hread : forall h w, safe (fun d => let '(x, d, h) := read d h w in ((x, h), d)).

Lemma read_agree d1 d2 h w : agree d1 d2 -> exists x h' e1 e2, read d1 h w = (x, e1, h') /\ read d2 h w = (x, e2, h') /\ agree e1 e2.
Proof.
  intros H. destruct (Hread h w d1 d2 H) as (E & Ha & _). destruct (read d1 h w) as [[x e1] h1], (read d2 h w) as [[x2 e2] h2].
  cbn in *. injection E as <- <-. by exists x, h1, e1, e2.
Qed.

Lemma repeated_loop_agree fuel i1 i2 h l : info_full i1 i2 ->
  exists l' h' j1 j2, decode_repeated_loop read fuel i1 h l = (l', j1, h') /\ decode_repeated_loop read fuel i2 h l = (l', j2, h') /\ info_full j1 j2.
Proof.
  revert i1 i2 h l. induction fuel as [|fuel IH]; intros i1 i2 h l Hi; [by exists l, h, i1, i2|]. cbn [decode_repeated_loop].
  rewrite <- (more_items i1 i2 _ Hi). destruct (are_more_items_to_decode i1 _); [|by exists l, h, i1, i2].
  pose proof Hi as (_ & Et & Ha). destruct (tag_agree _ _ Ha) as (n & w & e1 & e2 & -> & -> & He). rewrite <- Et.
  destruct (n =? ri_tag i1).
  - destruct (read_agree e1 e2 h w He) as (x & h' & f1 & f2 & -> & -> & Hf). apply IH. by apply info_full_with.
  - apply IH. apply info_full_with; [done|]. by destruct (safe_skip w e1 e2 He) as (_ & Hk & _).
Qed.

Lemma decode_repeated_rel size i1 i2 h : info_agree i1 i2 ->
  safe_rel eq (fun d => let '(r, d, h) := decoder_decode_repeated d h i1 size read in ((r, h), d))
              (fun d => let '(r, d, h) := decoder_decode_repeated d h i2 size read in ((r, h), d)).
Proof.
  intros [El Et Ec] d1 d2 H. unfold decoder_decode_repeated, decoder_heap_alloc. rewrite <- El.
  destruct (Z.eqb_spec (ri_length i1) 0) as [_|Hne]; [by apply (safe_ret (None, h))|].
  destruct (heap_alloc h _ 8) as [[a|] h1]; [|by apply (safe_abort (None, h1))]. destruct (Ec Hne) as [<- Ha].
  destruct (read_agree _ _ h1 (ri_wire_type i1) Ha) as (x & h2 & e1 & e2 & -> & -> & He).
  replace (decoder_left e2) with (decoder_left e1) by (unfold decoder_left; by rewrite (ag_pos _ _ He), (ag_size _ _ He)).
  assert (info_full (with_decoder i1 e1) (with_decoder i2 e2)) as Hi by by split_and!.
  destruct (repeated_loop_agree (Z.to_nat (decoder_left e1)) _ _ h2 x Hi) as (l & h3 & j1 & j2 & -> & -> & Ej & _ & Hj).
  unfold decoder_get_result. rewrite <- Ej, <- (ag_pos _ _ Hj). by apply (safe_finish (Some (ri_length j1, l), h3)).
Qed.
End SecondPass.

Lemma got_rel {A} (c : list A -> items) f g : safe_rel eq (fun d => let '(r, d, h) := f d in ((r, h), d)) (fun d => let '(r, d, h) := g d in ((r, h), d)) ->
  safe_rel eq (fun d => let '(r, d, h) := got c (f d) in ((r, h), d)) (fun d => let '(r, d, h) := got c (g d) in ((r, h), d)).
Proof.
  intros Hf d1 d2 H. destruct (Hf d1 d2 H) as (E & Hr). unfold got. destruct (f d1) as [[x e1] h1], (g d2) as [[y e2] h2]. cbn in *.
  injection E as <- <-. by split.
Qed.

Lemma safe_packed_item p : safe (packed_item_read p).
Proof.
  destruct p; cbn [packed_item_read];
    first [apply safe_32|apply safe_64|apply safe_varint|apply safe_convert; first [apply safe_varint|apply safe_32|apply safe_64]].
Qed.

Lemma repeated_decode_rel t h i1 i2 : info_agree i1 i2 ->
  safe_rel eq (fun d => let '(r, d, h) := repeated_decode t d h i1 in ((r, h), d)) (fun d => let '(r, d, h) := repeated_decode t d h i2 in ((r, h), d)).
Proof.
  intros Hi. destruct t as [p| | |]; cbn [repeated_decode]; apply got_rel.
  - eapply rel_ext; [intros d; rewrite packed_decode_generic; reflexivity|intros d; rewrite packed_decode_generic; reflexivity|].
    apply decode_repeated_rel; [|done]. intros h' w. exact (safe_bind _ (fun x d => ((x, h'), d)) (safe_read_repeated _ w _ (safe_packed_item p)) (fun x => safe_ret (x, h'))).
  - apply decode_repeated_rel; [|done]. intros h' w.
    exact (safe_bind _ (fun x d => ((x, h'), d)) (safe_read_repeated read_repeated_bool_item w _ (safe_convert _ _ safe_varint)) (fun x => safe_ret (x, h'))).
  - apply decode_repeated_rel; [|done]. intros h' w. eapply safe_ext; [|exact (safe_convert (fun r => ([r.1], r.2)) _ (safe_string h' w))].
    intros d. unfold read_repeated_string, convert. by destruct (pbtools_decoder_read_string d h' w) as [[? ?] ?].
  - apply decode_repeated_rel; [|done]. intros h' w. eapply safe_ext; [|exact (safe_convert (fun r => ([r.1], r.2)) _ (safe_bytes h' w))].
    intros d. unfold read_repeated_bytes, convert. by destruct (pbtools_decoder_read_bytes d h' w) as [[[? ?] ?] ?].
Qed.

(** ** Messages *)

Section Messages.
Context {M : Type} (init : M) (inner : pbtools_decoder_t -> pbtools_heap_t -> M -> M * pbtools_decoder_t * pbtools_heap_t).
Hypothesis Hinner : forall h m, safe (fun d => let '(m, d, h) := inner d h m in ((m, h), d)).

Lemma sub_message_safe h w old size :
  safe (fun d => let '(m, d, h) := pbtools_decoder_sub_message_decode init inner d h w old size in ((m, h), d)).
Proof.
  eapply safe_ext; [|apply (safe_alloc h size 8 (fun p h d =>
    match p with
    | None => ((old, h), d)
    | Some _ => let '(n, d) := decoder_read_length_delimited d w in
        let '(r, s) := (fun s => let '(m, s, h) := inner s h init in ((Some m, h), s)) (decoder_init_slice d (to_i32 n)) in
        (r, decoder_seek d (decoder_get_result s))
    end))].
  - intros d. unfold pbtools_decoder_sub_message_decode. destruct (decoder_heap_alloc d h size 8) as [[[p|] d1] h1]; [|done].
    destruct (decoder_read_length_delimited d1 w) as [n d2]. by destruct (inner _ h1 init) as [[m s] h2].
  - intros [p|] h1; [|apply safe_ret]. apply safe_bind_length. unfold INT_MAX. intros n Hn. rewrite to_i32_small by lia.
    apply (safe_slice n (fun s => let '(m, s, h) := inner s h1 init in ((Some m, h), s))); [lia|].
    eapply safe_ext; [|exact (safe_convert (fun r => (Some r.1, r.2)) _ (Hinner h1 init))].
    intros d. unfold convert. by destruct (inner d h1 init) as [[m s] h2].
Qed.

Lemma inner_item_agree i1 i2 h l n : info_full i1 i2 ->
  exists l' h' j1 j2, decode_repeated_inner_item init inner i1 h l n = (l', j1, h') /\
    decode_repeated_inner_item init inner i2 h l n = (l', j2, h') /\ info_full j1 j2.
Proof.
  intros Hi. pose proof Hi as (_ & _ & Ha). unfold decode_repeated_inner_item.
  set (f := fun d => let '(size, d) := decoder_read_length_delimited d PBTOOLS_WIRE_TYPE_LENGTH_DELIMITED in
    let '(r, s) := (fun s => let '(m, s, h) := inner s h (default init (l !! n)) in ((m, h), s)) (decoder_init_slice d (to_i32 size)) in
    (r, decoder_seek d (decoder_get_result s))).
  assert (safe f) as Hf.
  { apply safe_bind_length. unfold INT_MAX. intros k Hk. rewrite to_i32_small by lia.
    apply (safe_slice k (fun s => let '(m, s, h) := inner s h (default init (l !! n)) in ((m, h), s))); [lia|apply Hinner]. }
  destruct (Hf _ _ Ha) as (E & Hf' & _). unfold f in E, Hf'.
  destruct (decoder_read_length_delimited (ri_decoder i1) _) as [k1 e1], (decoder_read_length_delimited (ri_decoder i2) _) as [k2 e2].
  destruct (inner (decoder_init_slice e1 _) h _) as [[m1 s1] h1], (inner (decoder_init_slice e2 _) h _) as [[m2 s2] h2]. cbn in E, Hf'.
  injection E as <- <-. eexists _, _, _, _. split_and!; [done|done|]. by apply info_full_with.
Qed.

Lemma inner_loop_agree fuel i1 i2 h l n : info_full i1 i2 ->
  exists l' h' j1 j2, decode_repeated_inner_loop init inner fuel i1 h l n = (l', j1, h') /\
    decode_repeated_inner_loop init inner fuel i2 h l n = (l', j2, h') /\ info_full j1 j2.
Proof.
  revert i1 i2 h l n. induction fuel as [|fuel IH]; intros i1 i2 h l n Hi; [by exists l, h, i1, i2|]. cbn [decode_repeated_inner_loop].
  rewrite <- (more_items i1 i2 _ Hi). destruct (are_more_items_to_decode i1 _); [|by exists l, h, i1, i2].
  pose proof Hi as (_ & Et & Ha). destruct (tag_agree _ _ Ha) as (t & w & e1 & e2 & -> & -> & He). cbn [with_decoder ri_tag]. rewrite <- Et.
  pose proof (info_full_with i1 i2 e1 e2 Hi He) as Hi'. destruct (t =? ri_tag i1).
  - destruct (inner_item_agree _ _ h l n Hi') as (l' & h' & j1 & j2 & -> & -> & Hj). by apply IH.
  - apply IH. apply info_full_with; [done|]. by destruct (safe_skip w e1 e2 He) as (_ & Hk & _).
Qed.

Lemma decode_messages_rel size i1 i2 h : info_agree i1 i2 ->
  safe_rel eq (fun d => let '(r, d, h) := pbtools_decode_repeated_inner init inner d h i1 size in ((r, h), d))
              (fun d => let '(r, d, h) := pbtools_decode_repeated_inner init inner d h i2 size in ((r, h), d)).
Proof.
  intros [El Et Ec] d1 d2 H. unfold pbtools_decode_repeated_inner. rewrite <- El.
  destruct (Z.eqb_spec (ri_length i1) 0) as [_|Hne]; [by apply (safe_ret (None, h))|].
  destruct (pbtools_alloc_repeated init (ri_length i1) h size) as [[res [l|]] h1]; [|by apply (safe_ret (None, h1))]. destruct (Ec Hne) as [_ Ha].
  destruct (inner_item_agree i1 i2 h1 l 0 ltac:(by split_and!)) as (l1 & h2 & j1 & j2 & -> & -> & Hj). pose proof Hj as (_ & _ & Hd).
  replace (decoder_left (ri_decoder j2)) with (decoder_left (ri_decoder j1)) by (unfold decoder_left; by rewrite (ag_pos _ _ Hd), (ag_size _ _ Hd)).
  destruct (inner_loop_agree (Z.to_nat (decoder_left (ri_decoder j1))) j1 j2 h2 l1 1 Hj) as (l2 & h3 & k1 & k2 & -> & -> & _ & _ & Hk).
  unfold decoder_get_result. rewrite <- (ag_pos _ _ Hk). by apply (safe_finish (Some l2, h3)).
Qed.
End Messages.

(** ** Every program is safe *)

Definition slots_agree : slots -> slots -> Prop := Forall2 (option_Forall2 info_agree).

Lemma slot_agree s1 s2 i : slots_agree s1 s2 -> option_Forall2 info_agree (slot_info s1 i) (slot_info s2 i).
Proof.
  unfold slots_agree, slot_info, slots in *. intros H. destruct (s1 !! i) as [o1|] eqn:E1.
  - destruct (Forall2_lookup_l _ _ _ _ _ H E1) as (o2 & -> & Ho). exact Ho.
  - destruct (s2 !! i) as [o2|] eqn:E2; [|constructor]. destruct (Forall2_lookup_r _ _ _ _ _ H E2) as (o1 & E & _). by rewrite E in E1.
Qed.

Section Safe.
Context (uninitialised : pbtools_repeated_info_t).

Definition prog_safe {A} (p : prog A) : Prop :=
  forall s1 s2 h, slots_agree s1 s2 -> safe_rel eq (run uninitialised p s1 h) (run uninitialised p s2 h).

Lemma inner_safe {M} (inner : M -> prog M) : (forall m, prog_safe (inner m)) ->
  forall h m, safe (fun d => let '(m, d, h) := (let '((m, h), d) := run uninitialised (inner m) [] h d in (m, d, h)) in ((m, h), d)).
Proof.
  intros Hp h m. eapply safe_ext; [|exact (Hp m [] [] h (Forall2_nil_2 _ _ _))]. intros d. by destruct (run uninitialised (inner m) [] h d) as [[? ?] ?].
Qed.

(** A reader with a result and the heap, then the rest of the program. *)
Lemma step_safe {A B} (k : A -> prog B) f g s1 s2 : (forall a, prog_safe (k a)) -> slots_agree s1 s2 ->
  safe_rel eq (fun d => let '(r, d, h) := f d in ((r, h), d)) (fun d => let '(r, d, h) := g d in ((r, h), d)) ->
  safe_rel eq (fun d => let '(r, d, h) := f d in run uninitialised (k r) s1 h d) (fun d => let '(r, d, h) := g d in run uninitialised (k r) s2 h d).
Proof.
  intros Hk Hs Hf. eapply rel_ext; [| |apply (rel_bind eq eq _ _ (fun r d => run uninitialised (k r.1) s1 r.2 d) (fun r d => run uninitialised (k r.1) s2 r.2 d) Hf)].
  - intros d. cbn beta. by destruct (f d) as [[? ?] ?].
  - intros d. cbn beta. by destruct (g d) as [[? ?] ?].
  - intros [a h] ? <-. by apply Hk.
Qed.

Lemma run_safe {A} (p : prog A) : prog_safe p.
Proof.
  induction p as [A a|A k IH|A k IH|A t w k IH|A w k IH|A n k IH|A tag k IH|A t i w k IH|A t i k IH|A M init inner IHi w old size k IH|A M init inner IHi i size k IH];
    intros s1 s2 h Hs; cbn [run].
  - exact (safe_ret (a, h)).
  - intros d1 d2 H. replace (pbtools_decoder_available d2) with (pbtools_decoder_available d1); [by apply IH|].
    unfold pbtools_decoder_available. by rewrite (ag_pos _ _ H), (ag_size _ _ H).
  - eapply rel_ext; [| |apply (rel_bind eq eq _ _ (fun r d => run uninitialised (k r.1 r.2) s1 h d) (fun r d => run uninitialised (k r.1 r.2) s2 h d) safe_tag)].
    + intros d. cbn beta. by destruct (pbtools_decoder_read_tag d) as [[? ?] ?].
    + intros d. cbn beta. by destruct (pbtools_decoder_read_tag d) as [[? ?] ?].
    + intros [a b] ? <-. by apply IH.
  - apply (step_safe k (fun d => read_field t d h w) (fun d => read_field t d h w)); [done|done|apply safe_field].
  - exact (rel_bind eq eq _ _ (fun _ d => run uninitialised k s1 h d) (fun _ d => run uninitialised k s2 h d) (safe_skip w) (fun _ _ _ => IH s1 s2 h Hs)).
  - exact (rel_bind eq eq _ _ (fun _ d => run uninitialised k s1 h d) (fun _ d => run uninitialised k s2 h d) (safe_seek n) (fun _ _ _ => IH s1 s2 h Hs)).
  - apply IH. apply Forall2_app; [done|]. constructor; [|constructor]. constructor. by split.
  - pose proof (slot_agree s1 s2 i Hs) as Hi. destruct Hi as [i1 i2 Hi|]; [|by apply IH].
    apply (rel_bind info_agree eq _ _ (fun x d => run uninitialised k (<[i := Some x]> s1) h d) (fun x d => run uninitialised k (<[i := Some x]> s2) h d)).
    + by apply repeated_info_rel.
    + intros x1 x2 Hx. apply IH. apply Forall2_insert; [done|by constructor].
  - pose proof (slot_agree s1 s2 i Hs) as Hi. destruct Hi as [i1 i2 Hi|]; [|by apply IH].
    apply (step_safe k (fun d => repeated_decode t d h i1) (fun d => repeated_decode t d h i2)); [done| |by apply repeated_decode_rel].
    apply Forall2_insert; [done|constructor].
  - apply (step_safe k _ _ s1 s2 IH Hs). exact (sub_message_safe init _ (inner_safe inner IHi) h w old size).
  - pose proof (slot_agree s1 s2 i Hs) as Hi. destruct Hi as [i1 i2 Hi|]; [|by apply IH].
    apply (step_safe k _ _ _ _ IH); [apply Forall2_insert; [done|constructor]|]. exact (decode_messages_rel init _ (inner_safe inner IHi) size i1 i2 h Hi).
Qed.
End Safe.
