(* ===== verification/PbTheorems.v ===== *)
(** * Protobuf runtime: properties

    Round trips through the encoder and the decoder, safety of the decoder on
    arbitrary bytes, and the allocation of its heap. *)

From S2P Require Import Prelude PbEncoder PbDecoder PbWire PbParse PbSafety PbPacked PbPrograms.
Local Open Scope Z_scope.

(** ** Messages of scalar fields

    What generated message code does with the runtime: the encoder calls the
    writers of the fields from the last to the first; the decoder reads a tag
    and calls the reader of the field's type, or skips a field it does not
    know. *)

Definition encode_fields (e : pbtools_encoder_t) (fs : list (Z * field)) : pbtools_encoder_t :=
  fold_right (fun nf e => write_field nf.1 nf.2 e) e fs.

Fixpoint decode_fields (schema : Z -> option kind) (fuel : nat) (d : pbtools_decoder_t) (h : pbtools_heap_t) :
    list (Z * field) * pbtools_decoder_t * pbtools_heap_t :=
  match fuel with
  | O => ([], d, h)
  | S fuel =>
      if pbtools_decoder_available d then
        let '(n, w, d) := pbtools_decoder_read_tag d in
        match schema n with
        | Some k =>
            let '(f, d, h) := read_field k d h w in
            let '(fs, d, h) := decode_fields schema fuel d h in
            (match f with Some f => (n, f) :: fs | None => fs end, d, h)
        | None => decode_fields schema fuel (pbtools_decoder_skip_field d w) h
        end
      else ([], d, h)
  end.

(** A decoder for the message type; a round reads at least one byte. *)
Definition decode_message (schema : Z -> option kind) (d : pbtools_decoder_t) (h : pbtools_heap_t) (_ : list (Z * field)) :
    list (Z * field) * pbtools_decoder_t * pbtools_heap_t :=
  decode_fields schema (S (Z.to_nat (decoder_left d))) d h.

Definition present (fs : list (Z * field)) : list (Z * field) := List.filter (fun nf => negb (field_default nf.2)) fs.
Definition known (schema : Z -> option kind) (fs : list (Z * field)) : list (Z * field) :=
  List.filter (fun nf => match schema nf.1 with Some _ => true | None => false end) fs.

Definition message_bytes (fs : list (Z * field)) : list Z := concat (map (fun nf => field_bytes nf.1 nf.2) (present fs)).
Definition message_space (fs : list (Z * field)) : Z := fold_right (fun nf n => field_space nf.2 + n) 0 fs.

Definition fields_valid (fs : list (Z * field)) : Prop := Forall (fun nf => is_field_number nf.1 /\ field_valid nf.2) fs.
(** The decoder knows a field by its type or not at all. *)
Definition schema_fits (schema : Z -> option kind) (fs : list (Z * field)) : Prop :=
  Forall (fun nf => schema nf.1 = Some (field_kind nf.2) \/ schema nf.1 = None) fs.

Lemma encode_fields_emits fs : fields_valid fs -> emits (fun e => encode_fields e fs) (message_bytes fs).
Proof.
  induction 1 as [|[n f] fs [Hn Hf] _ IH]; [apply emits_nil|]. unfold encode_fields, message_bytes, present in *. cbn [fold_right List.filter fst snd] in *.
  pose proof (emits_app _ _ _ _ IH (write_field_emits n f Hn Hf)) as H. cbn beta in H.
  destruct (field_default f); simpl; exact H.
Qed.

(** Skipping reads what the field's reader would. *)
Lemma skip_field_payload f d rest : field_valid f -> dec_ok d -> remaining d = field_payload f ++ rest ->
  pbtools_decoder_skip_field d (field_wire_type f) = advance d (length (field_payload f)).
Proof.
  intros Hf Hd Hr.
  assert (Hv : forall v, is_u64 v -> remaining d = leb128 v ++ rest -> (decoder_read_varint d).2 = advance d (length (leb128 v)))
    by (intros v Hv Hr'; by rewrite (varint_parses v Hv d rest Hd Hr')).
  assert (Hs : forall s, Z.of_nat (length s) < INT_MAX -> remaining d = (leb128 (Z.of_nat (length s)) ++ s) ++ rest ->
    pbtools_decoder_skip_field d 2 = advance d (length (leb128 (Z.of_nat (length s)) ++ s))).
  { intros s Hl Hr'. unfold pbtools_decoder_skip_field. simpl Z.eqb. cbn iota. rewrite <- app_assoc in Hr'.
    unfold INT_MAX in Hl. rewrite (length_parses (Z.of_nat (length s)) ltac:(unfold INT_MAX; lia) d _ Hd Hr').
    rewrite to_i64_id, to_i32_small by (unfold is_i64; lia). destruct (advance_ok d _ _ Hd Hr') as [Hd' Hr''].
    rewrite (seek_advance _ _ s rest Hd' Hr'' eq_refl), advance_advance, length_app. done. }
  assert (H32 : forall v, remaining d = le_bytes 4 v ++ rest -> pbtools_decoder_skip_field d 5 = advance d (length (le_bytes 4 v)))
    by (intros v Hr'; by apply (seek_advance d 4 _ rest)).
  assert (H64 : forall v, remaining d = le_bytes 8 v ++ rest -> pbtools_decoder_skip_field d 1 = advance d (length (le_bytes 8 v)))
    by (intros v Hr'; by apply (seek_advance d 8 _ rest)).
  destruct f; cbn [field_wire_type field_payload field_valid] in *;
    first [by apply H32|by apply H64|apply Hs; [apply Hf|done]|apply Hv; [auto with pb|done]|idtac].
  by destruct b.
Qed.

Lemma message_space_nonneg fs : 0 <= message_space fs.
Proof. induction fs as [|[n []] fs IH]; simpl; lia. Qed.

Lemma tag_bytes_nonempty n w : (1 <= length (tag_bytes n w))%nat.
Proof. apply (leb_nonempty 9). Qed.

(** The decoder's loop on the bytes of a list of fields. *)
Lemma decode_fields_spec schema fs fuel d h : fields_valid fs -> schema_fits schema fs -> dec_ok d ->
  remaining d = concat (map (fun nf => field_bytes nf.1 nf.2) fs) -> (length (remaining d) < fuel)%nat ->
  heap_room h (message_space (known schema fs)) ->
  decode_fields schema fuel d h = (known schema fs, advance d (length (remaining d)), heap_take h (message_space (known schema fs))).
Proof.
  intros Hv. revert fuel d h. induction Hv as [|[n f] fs [Hn Hf] Hv IH]; intros fuel d h Hs Hd Hr Hfuel Hh.
  { destruct fuel; [lia|]. cbn [decode_fields]. rewrite available_remaining, Hr by done. simpl.
    by rewrite advance_0, heap_take_0. }
  apply Forall_cons in Hs as [Hk Hs]. cbn [fst snd map concat] in *. destruct fuel as [|fuel]; [lia|].
  rewrite Hr in Hfuel |- *. unfold field_bytes in *. rewrite <- !app_assoc in *.
  cbn [decode_fields]. rewrite available_remaining, Hr by done.
  pose proof (tag_bytes_nonempty n (field_wire_type f)) as Htn. rewrite length_app in Hfuel |- *.
  destruct (Nat.eqb_spec (length (tag_bytes n (field_wire_type f)) + length (field_payload f ++ concat (map (λ nf, tag_bytes nf.1 (field_wire_type nf.2) ++ field_payload nf.2) fs)))%nat 0) as [E|_]; [lia|].
  cbn [negb]. rewrite (tag_read d n _ _ Hn (field_wire_type_ok f) Hd Hr). destruct (advance_ok d _ _ Hd Hr) as [Hd' Hr'].
  destruct (advance_ok _ _ _ Hd' Hr') as [Hd'' Hr'']. rewrite length_app in Hfuel |- *. unfold heap_room in *.
  unfold known in *. cbn [List.filter fst] in *. destruct Hk as [Hk|Hk]; rewrite Hk in *.
  - cbn [message_space fold_right fst snd] in *. fold (message_space (List.filter (fun nf => match schema nf.1 with Some _ => true | None => false end) fs)) in *.
    pose proof (message_space_nonneg (List.filter (fun nf => match schema nf.1 with Some _ => true | None => false end) fs)).
    rewrite (read_field_payload f _ h _ Hf Hd' Hr') by (unfold heap_room; lia).
    rewrite IH; [|done|done|by rewrite Hr''|rewrite Hr''; lia|cbn [heap_take h_size h_pos]; lia].
    rewrite heap_take_take, Hr'', !advance_advance. done.
  - rewrite (skip_field_payload f _ _ Hf Hd' Hr'). rewrite IH; [|done|done|by rewrite Hr''|rewrite Hr''; lia|done].
    by rewrite Hr'', !advance_advance.
Qed.

Lemma Forall_filter {A} (P : A -> Prop) f l : Forall P l -> Forall P (List.filter f l).
Proof. induction 1 as [|x l Hx _ IH]; simpl; [done|]. destruct (f x); [by constructor|done]. Qed.

Lemma decode_init bs buf n : take (length bs) buf = bs -> n = Z.of_nat (length bs) -> n <= INT_MAX ->
  dec_ok (decoder_init buf n) /\ remaining (decoder_init buf n) = bs.
Proof.
  unfold INT_MAX. intros Hb -> Hl. assert (length bs <= length buf)%nat by (rewrite <- Hb at 1; rewrite length_take; lia).
  unfold decoder_init, remaining. rewrite to_i32_small by lia. cbn [d_buf d_size d_pos].
  split; [constructor; cbn [d_buf d_size d_pos]; unfold INT_MAX; lia|].
  rewrite drop_0, Z.sub_0_r, Nat2Z.id. done.
Qed.

(** ** Properties *)

(** C29. Encoding a message of scalar fields into a buffer with room and decoding
    it again gives back every field with a value other than its default, in
    order, apart from fields that the decoder does not know, which it skips;
    the encoder's and the decoder's results are the number of bytes, and the
    heap shrinks by the strings and byte strings of the known fields. *)
Theorem pb_message_roundtrip schema fs buf h : fields_valid fs -> schema_fits schema fs ->
  Z.of_nat (length (message_bytes fs)) < Z.of_nat (length buf) <= INT_MAX ->
  heap_room h (message_space (known schema (present fs))) ->
  let '(n, buf') := pbtools_message_encode fs buf (Z.of_nat (length buf)) encode_fields in
  n = Z.of_nat (length (message_bytes fs)) /\
  pbtools_message_decode (decode_message schema) h [] buf' n =
    (n, known schema (present fs), heap_take h (message_space (known schema (present fs)))).
Proof.
  intros Hv Hs Hb Hh. pose proof (message_encode_spec fs buf encode_fields _ (encode_fields_emits fs Hv) ltac:(lia)) as H.
  destruct (pbtools_message_encode fs buf (Z.of_nat (length buf)) encode_fields) as [n buf'].
  rewrite (proj2 (Z.ltb_lt _ _)) in H by lia. destruct H as (Hn & Ht & _). split; [done|].
  destruct (decode_init _ buf' n Ht Hn ltac:(lia)) as [Hd Hr]. unfold pbtools_message_decode, decode_message.
  rewrite (decode_fields_spec schema (present fs)); [|by apply Forall_filter..|done|done| |done].
  - rewrite Hr. unfold decoder_get_result, advance, decoder_init. cbn [d_pos]. by rewrite Hn.
  - pose proof (remaining_length _ Hd). unfold decoder_left. lia.
Qed.

(** A message that does not leave a byte of the buffer free is refused with
    the error for a full buffer; in particular a buffer of exactly the
    message's length is too small. *)
Theorem pb_encode_full fs buf : fields_valid fs -> 0 < Z.of_nat (length buf) <= INT_MAX ->
  Z.of_nat (length buf) <= Z.of_nat (length (message_bytes fs)) ->
  (pbtools_message_encode fs buf (Z.of_nat (length buf)) encode_fields).1 = - PBTOOLS_ENCODE_BUFFER_FULL.
Proof.
  intros Hv Hb Hl. pose proof (message_encode_spec fs buf encode_fields _ (encode_fields_emits fs Hv) Hb) as H.
  destruct (pbtools_message_encode fs buf (Z.of_nat (length buf)) encode_fields) as [n buf'].
  by rewrite (proj2 (Z.ltb_ge _ _)) in H by lia.
Qed.

(** A number, a string, a negative number and an absent field. *)
Definition sample_fields : list (Z * field) := [(1, FUint64 300); (2, FString [104; 105]); (3, FSint32 (-2)); (4, FBool false)].
Definition sample_schema (n : Z) : option kind :=
  if n =? 1 then Some KUint64 else if n =? 2 then Some KString else if n =? 4 then Some KBool else None.
Definition sample_heap : pbtools_heap_t := {| h_buf := 4096; h_size := 128; h_pos := 64 |}.

Lemma sample_fields_valid : fields_valid sample_fields.
Proof. repeat constructor; cbn; unfold is_field_number, is_u64, is_byte, is_i32, INT_MAX; lia. Qed.

Lemma pb_message_roundtrip_witness :
  pbtools_message_encode sample_fields (replicate 32 0) 32 encode_fields =
    (9, [8; 172; 2; 18; 2; 104; 105; 24; 3] ++ replicate 14 0 ++ [8; 172; 2; 18; 2; 104; 105; 24; 3]) /\
  (pbtools_message_decode (decode_message sample_schema) sample_heap []
    (pbtools_message_encode sample_fields (replicate 32 0) 32 encode_fields).2 9).1.2 = [(1, FUint64 300); (2, FString [104; 105])].
Proof.
  assert (E : pbtools_message_encode sample_fields (replicate 32 0) 32 encode_fields =
    (9, [8; 172; 2; 18; 2; 104; 105; 24; 3] ++ replicate 14 0 ++ [8; 172; 2; 18; 2; 104; 105; 24; 3])) by (vm_compute; reflexivity).
  split; [exact E|]. rewrite E. cbn [snd].
  pose proof (pb_message_roundtrip sample_schema sample_fields (replicate 32 0) sample_heap sample_fields_valid) as H.
  change (Z.of_nat (length (replicate 32 0))) with 32 in H. rewrite E in H.
  destruct H as [_ ->].
  - unfold schema_fits, sample_fields. repeat (apply Forall_cons; split); [by left|by left|by right|by left|apply Forall_nil_2].
  - vm_compute. split; [reflexivity|discriminate].
  - vm_compute. discriminate.
  - vm_compute. reflexivity.
Defined.

Lemma pb_encode_full_witness : length (message_bytes sample_fields) = 9%nat /\
  (pbtools_message_encode sample_fields (replicate 9 0) 9 encode_fields).1 = -4.
Proof.
  split; [vm_compute; reflexivity|].
  exact (pb_encode_full sample_fields (replicate 9 0) sample_fields_valid ltac:(vm_compute; split; [reflexivity|discriminate])
    ltac:(vm_compute; discriminate)).
Defined.

(** ** Arbitrary input *)

Lemma decoder_init_agree buf junk : Z.of_nat (length buf) <= INT_MAX ->
  agree (decoder_init buf (Z.of_nat (length buf))) (decoder_init (buf ++ junk) (Z.of_nat (length buf))).
Proof.
  unfold INT_MAX. intros Hl. unfold decoder_init. rewrite to_i32_small by lia.
  constructor; cbn [d_buf d_pos d_size]; try done;
    try (left; constructor; cbn [d_buf d_pos d_size]; rewrite ?length_app; unfold INT_MAX; lia).
  by rewrite Nat2Z.id, take_app_length, take_ge.
Qed.

(** C30. Every program over the runtime, with any use of tags, scalar, string and
    repeated fields, sub-messages nested to any depth, skips and seeks, is safe on
    arbitrary bytes: its result and its use of the heap do not depend on the memory
    behind the buffer, its position ends inside of the buffer or is an error code,
    and after an error every further program leaves the decoder as it is. *)
Theorem pb_decoder_safe {A B} uninit (p : prog A) (q : prog B) buf junk h : Z.of_nat (length buf) <= INT_MAX ->
  let n := Z.of_nat (length buf) in
  let r := run uninit p [] h (decoder_init buf n) in
  let r' := run uninit p [] h (decoder_init (buf ++ junk) n) in
  r.1 = r'.1 /\ d_pos r.2 = d_pos r'.2 /\ d_pos r.2 <= n /\
  (d_pos r.2 < 0 -> (run uninit q [] r.1.2 r.2).2 = r.2).
Proof.
  intros Hl n r r'. destruct (run_safe uninit p [] [] h (Forall2_nil_2 _ _ _) _ _ (decoder_init_agree buf junk Hl)) as (E & Ha & Hb & _ & _).
  fold n in E, Ha, Hb. fold r r' in E, Ha. fold r in Hb. split_and!; [done|apply Ha| |].
  - destruct Ha as [[[Hp Hs _]|[Hp _]] _ _ _ _]; [rewrite Hb in Hs; cbn [decoder_init d_buf] in Hs; lia|lia].
  - destruct (run_safe uninit q [] [] r.1.2 (Forall2_nil_2 _ _ _) r.2 r.2) as (_ & _ & _ & Hst & _); [|done]. apply agree_refl. apply Ha.
Qed.

(** A program for a message with a sub-message in field 1 and packed numbers in
    field 2; the sub-message has a number in field 1. *)
Definition sample_inner (m : option field) : prog (option field) := ReadTag (fun _ w => ReadField KUint64 w Return).
Definition sample_prog : prog (option (option field) * option (Z * items)) :=
  InfoInit 2 (ReadTag (fun _ w => SubMessage None sample_inner w None 8 (fun m =>
    ReadTag (fun _ w => InfoDecode (Some (RNumber PUint32)) 0 w (DecodeRepeated (RNumber PUint32) 0 (fun l => Return (m, l))))))).
Definition stale_info : pbtools_repeated_info_t := {| ri_decoder := decoder_init [] 0; ri_length := 7; ri_tag := 7; ri_wire_type := 7 |}.

(** A complete message; then one whose sub-message claims more bytes than there
    are, although the memory behind the buffer has them. *)
Lemma pb_decoder_safe_witness :
  (run stale_info sample_prog [] sample_heap (decoder_init [10; 2; 8; 5; 18; 2; 1; 9] 8)).1.1 =
    (Some (Some (FUint64 5)), Some (2, INumbers [1; 9])) /\
  let r := run stale_info sample_prog [] sample_heap (decoder_init [10; 2; 8] 3) in
  d_pos r.2 = - PBTOOLS_OUT_OF_DATA /\ r.1 = (run stale_info sample_prog [] sample_heap (decoder_init ([10; 2; 8] ++ [5]) 3)).1 /\
  (run stale_info sample_prog [] r.1.2 r.2).2 = r.2.
Proof.
  split; [vm_compute; reflexivity|]. cbv zeta.
  destruct (pb_decoder_safe stale_info sample_prog sample_prog [10; 2; 8] [5] sample_heap) as (H1 & _ & _ & H4).
  { vm_compute. discriminate. }
  split; [vm_compute; reflexivity|]. split; [exact H1|]. apply H4. vm_compute. reflexivity.
Defined.

(** ** Packed repeated fields *)

(** C31. A packed repeated field of one of the twelve number types survives
    encoding and decoding: the encoder emits the packed bytes, and on these,
    behind the tag, the first pass counts the items and moves behind the field,
    and the second pass, given heap for the array, stores exactly the items. *)
Theorem pb_packed_roundtrip p n items d rest i0 d' h : is_field_number n ->
  Forall (fun v => field_valid (packed_field p v)) items -> items <> [] ->
  Z.of_nat (length (concat (map (packed_enc p) items))) < INT_MAX ->
  dec_ok d -> remaining d = packed_bytes n (concat (map (packed_enc p) items)) ++ rest ->
  heap_wf h -> packed_size p * Z.of_nat (length items) + 8 <= h_size h - h_pos h ->
  emits (fun e => packed_write p e n items) (packed_bytes n (concat (map (packed_enc p) items))) /\
  exists d1 info h',
    pbtools_decoder_read_tag d = (n, PBTOOLS_WIRE_TYPE_LENGTH_DELIMITED, d1) /\
    packed_info p (pbtools_repeated_info_init i0 n) d1 PBTOOLS_WIRE_TYPE_LENGTH_DELIMITED =
      (info, advance d (length (packed_bytes n (concat (map (packed_enc p) items))))) /\
    packed_decode p d' h info = (Some (Z.of_nat (length items), items), d', h').
Proof.
  intros Hn Hv Hne Hl Hd Hr Hh Hroom. split; [by apply packed_write_emits|].
  unfold packed_bytes in *. rewrite <- app_assoc in Hr. destruct (advance_ok d _ _ Hd Hr) as [Hd1 Hr1].
  destruct (packed_second_pass p items n _ rest Hv Hl Hd1 Hr1 d' h Hne Hh Hroom) as (h' & _ & E2).
  pose proof (packed_first_pass p items n _ rest Hv Hl Hd1 Hr1 (pbtools_repeated_info_init i0 n) eq_refl eq_refl) as E1.
  eexists _, _, h'. split_and!; [exact (tag_read d n 2 _ Hn is_wire_2 Hd Hr)| |exact E2].
  rewrite advance_advance, <- length_app in E1. exact E1.
Qed.

(** C39. On arbitrary bytes the two passes over a varint field, packed or not,
    agree: the second pass stores as many items as the first pass has counted,
    and both leave the decoder at the same place, so the array that was
    allocated for the count is never overrun. *)
Theorem pb_varint_passes_agree {A} (g : Z -> A) info d w :
  ri_length (repeated_info_decode_varint info d w).1 =
    ri_length info + Z.of_nat (length (decoder_read_repeated_varint d w (fun d => convert g (decoder_read_varint d))).1) /\
  (repeated_info_decode_varint info d w).2 =
    (decoder_read_repeated_varint d w (fun d => convert g (decoder_read_varint d))).2.
Proof.
  assert (Hl : ri_length (repeated_info_init_decode info d w) = ri_length info) by (unfold repeated_info_init_decode; by case_cond).
  unfold repeated_info_decode_varint, decoder_read_repeated_varint, decoder_read_repeated.
  case_cond; [unfold convert; cbn [fst snd add_length ri_length length]; split; [lia|done]|].
  case_cond; [|cbn [fst snd length]; split; [lia|done]].
  destruct (decoder_read_length_delimited d w) as [size d1].
  rewrite (count_varints_items (fun d => convert g (decoder_read_varint d))) by done.
  destruct (read_items _ _ (decoder_init_slice d1 (to_i32 size))) as [items d2]. cbn [fst snd add_length ri_length]. split; [lia|done].
Qed.

(** The array of a packed fixed-width field can be overrun: a packed
    [fixed32] field of six bytes is counted as one item, but the second pass
    stores two, the second one behind the array of one. *)
Theorem pb_packed_fixed_overrun :
  let d := decoder_init [6; 1; 0; 0; 0; 2; 3] 7 in
  let info := (pbtools_repeated_info_decode_fixed32
    {| ri_decoder := d; ri_length := 0; ri_tag := 1; ri_wire_type := 0 |} d PBTOOLS_WIRE_TYPE_LENGTH_DELIMITED).1 in
  ri_length info = 1 /\
  (pbtools_decoder_decode_repeated_fixed32 d sample_heap info).1.1 = Some (1, [1; 0]).
Proof. vm_compute. split; reflexivity. Qed.

(** When the array of a repeated sub-message field cannot be allocated, the
    field is left empty and the decoder reports no error. *)
Theorem pb_repeated_message_no_memory {M} (init : M) inner d h info item_size :
  (heap_alloc h (item_size [*] wrap64 (ri_length info)) 8).1 = None ->
  (pbtools_decode_repeated_inner init inner d h info item_size).1 = (None, d).
Proof.
  intros Ha. unfold pbtools_decode_repeated_inner, pbtools_alloc_repeated. case_cond; [done|].
  destruct (heap_alloc h _ 8) as [a h']. simpl in Ha. by subst a.
Qed.

(** The heap's allocator: a block lies between the old and the new bump
    pointer, inside the workspace and on its alignment, so that blocks never
    overlap; the null pointer is returned only when the block with its padding
    might not fit, and then nothing changes. *)
Theorem pb_heap_alloc_correct h size k r h' : heap_wf h -> 0 <= k < 30 -> 0 <= size <= INT_MAX - 2 ^ k ->
  heap_alloc h size (2 ^ k) = (r, h') ->
  heap_wf h' /\ h_buf h' = h_buf h /\ h_size h' = h_size h /\
  match r with
  | Some addr => addr mod 2 ^ k = 0 /\ h_buf h + h_pos h <= addr /\ addr + size = h_buf h + h_pos h' /\ h_pos h' < h_pos h + size + 2 ^ k
  | None => h' = h /\ h_size h - h_pos h < size + 2 ^ k - 1
  end.
Proof. apply heap_alloc_spec. Qed.

Definition sample_items : list Z := [3; -1; 300].
Definition sample_info : pbtools_repeated_info_t :=
  {| ri_decoder := decoder_init [] 0; ri_length := 7; ri_tag := 9; ri_wire_type := 5 |}.

Lemma sample_heap_wf : heap_wf sample_heap.
Proof. constructor; cbn; unfold INT_MAX; lia. Qed.

Lemma pb_packed_roundtrip_witness :
  concat (map (packed_enc PSint32) sample_items) = [6; 1; 216; 4] /\
  emits (fun e => packed_write PSint32 e 5 sample_items) [42; 4; 6; 1; 216; 4] /\
  exists d1 info h',
    pbtools_decoder_read_tag (decoder_init [42; 4; 6; 1; 216; 4; 8; 1] 8) = (5, 2, d1) /\
    packed_info PSint32 (pbtools_repeated_info_init sample_info 5) d1 2 =
      (info, {| d_buf := [42; 4; 6; 1; 216; 4; 8; 1]; d_size := 8; d_pos := 6 |}) /\
    packed_decode PSint32 (decoder_init [] 0) sample_heap info = (Some (3, sample_items), decoder_init [] 0, h').
Proof.
  split; [vm_compute; reflexivity|].
  exact (pb_packed_roundtrip PSint32 5 sample_items (decoder_init [42; 4; 6; 1; 216; 4; 8; 1] 8) [8; 1] sample_info (decoder_init [] 0) sample_heap
    ltac:(unfold is_field_number; lia)
    ltac:(repeat constructor; cbn; unfold is_i32; lia)
    ltac:(discriminate)
    ltac:(vm_compute; reflexivity)
    ltac:(split; vm_compute; repeat split; discriminate)
    ltac:(vm_compute; reflexivity)
    sample_heap_wf
    ltac:(vm_compute; discriminate)).
Defined.

Lemma pb_repeated_message_no_memory_witness :
  (pbtools_decode_repeated_inner [] (decode_message sample_schema) (decoder_init [2; 8; 1] 3)
    {| h_buf := 4096; h_size := 64; h_pos := 60 |} (with_decoder sample_info (decoder_init [2; 8; 1] 3)) 16).1 =
  (None, decoder_init [2; 8; 1] 3).
Proof.
  exact (pb_repeated_message_no_memory [] (decode_message sample_schema) (decoder_init [2; 8; 1] 3)
    {| h_buf := 4096; h_size := 64; h_pos := 60 |} (with_decoder sample_info (decoder_init [2; 8; 1] 3)) 16
    ltac:(vm_compute; reflexivity)).
Defined.

Lemma pb_heap_alloc_correct_witness :
  heap_alloc {| h_buf := 4096; h_size := 128; h_pos := 65 |} 16 8 = (Some 4168, {| h_buf := 4096; h_size := 128; h_pos := 88 |}) /\
  4168 mod 2 ^ 3 = 0 /\ 4096 + 65 <= 4168 /\ 4168 + 16 = 4096 + 88 /\ 88 < 65 + 16 + 2 ^ 3.
Proof.
  assert (E : heap_alloc {| h_buf := 4096; h_size := 128; h_pos := 65 |} 16 8 =
    (Some 4168, {| h_buf := 4096; h_size := 128; h_pos := 88 |})) by (vm_compute; reflexivity).
  split; [exact E|].
  exact (proj2 (proj2 (proj2 (pb_heap_alloc_correct {| h_buf := 4096; h_size := 128; h_pos := 65 |} 16 3 _ _
    ltac:(constructor; cbn; unfold INT_MAX; lia) ltac:(lia) ltac:(unfold INT_MAX; lia) E)))).
Defined.
