(* ===== verification/Shard.v ===== *)
(** * A shard and its worker ([c/sharded_ohtable/shard.c])

    The handler of a shard's requests over the hash table, and the life of the
    worker thread as a step relation: [shard_run], [shard_stop] and the clients'
    requests interleave, the queue between them is first-in first-out. *)

From S2P Require Import Prelude Errors PositionMap OramInterface OHTable Queue.
Local Open Scope Z_scope.

(** ** Definitions *)

Inductive shard_worker_state := SHARD_WORKER_IDLE | SHARD_WORKER_RUNNING | SHARD_WORKER_STOPPING.

Inductive sharded_ohtable_request_type :=
  | shard_request_unknown | shard_request_insert | shard_request_query | shard_request_stop
  | shard_request_clear | shard_request_wait.

(** [struct shard] without the queue of requests. *)
Record shard (RAM : Type) := Shard {
  lb : Z;
  ub : Z;
  record_size_qwords : nat;
  keep_alive : bool;
  table : ohtable RAM;
  running : shard_worker_state;
}.
Arguments Shard {RAM}.
Arguments lb {RAM}.
Arguments ub {RAM}.
Arguments record_size_qwords {RAM}.
Arguments keep_alive {RAM}.
Arguments table {RAM}.
Arguments running {RAM}.

(** A request with the memory of its records; [None] is the null pointer.  The
    waiter is the flag [done], if there is one. *)
Record sharded_ohtable_request := Request {
  r_type : sharded_ohtable_request_type;
  r_records : option (list Z);
  r_err : error_t;
  r_wait : option bool;
  r_batch_size : nat;
}.

Definition shard_request_error (r : sharded_ohtable_request) : error_t := r_err r.
Definition shard_request_records (r : sharded_ohtable_request) : option (list Z) := r_records r.

Definition shard_waiter_create : bool := false.

Definition shard_request_create (type : sharded_ohtable_request_type) (records : option (list Z)) (w : option bool)
    (batch_size : nat) : sharded_ohtable_request :=
  {| r_type := type; r_records := records; r_err := err_SUCCESS; r_wait := w; r_batch_size := batch_size |}.

(** The requests that the clients' functions put into the queue. *)
Definition wait_request : sharded_ohtable_request := shard_request_create shard_request_wait None (Some shard_waiter_create) 0.
Definition clear_request : sharded_ohtable_request := shard_request_create shard_request_clear None None 0.
Definition insert_request (records : list Z) (num_records : nat) : sharded_ohtable_request :=
  shard_request_create shard_request_insert (Some records) None num_records.
Definition query_request (records : list Z) (num_queries : nat) : sharded_ohtable_request :=
  shard_request_create shard_request_query (Some records) None num_queries.
Definition stop_request : sharded_ohtable_request := shard_request_create shard_request_stop None (Some shard_waiter_create) 0.

Definition with_result (r : sharded_ohtable_request) (records : option (list Z)) (err : error_t) : sharded_ohtable_request :=
  {| r_type := r_type r; r_records := records; r_err := err; r_wait := r_wait r; r_batch_size := r_batch_size r |}.

(** The waiter, if there is one, is finished. *)
Definition shard_waiter_finish (r : sharded_ohtable_request) : sharded_ohtable_request :=
  {| r_type := r_type r; r_records := r_records r; r_err := r_err r;
     r_wait := match r_wait r with Some _ => Some true | None => None end; r_batch_size := r_batch_size r |}.

Definition shard_lb {RAM} (s : shard RAM) : Z := lb s.
Definition shard_ub {RAM} (s : shard RAM) : Z := ub s.
Definition shard_contains {RAM} (s : shard RAM) (key : Z) : bool := (lb s <=? key) && (key <? ub s).

Section Ops.
Context {RAM : Type} `{ObliviousRam RAM}.

Definition with_table (s : shard RAM) (t : ohtable RAM) : shard RAM :=
  {| lb := lb s; ub := ub s; record_size_qwords := record_size_qwords s; keep_alive := keep_alive s; table := t; running := running s |}.
Definition with_running (s : shard RAM) (k : bool) (r : shard_worker_state) : shard RAM :=
  {| lb := lb s; ub := ub s; record_size_qwords := record_size_qwords s; keep_alive := k; table := table s; running := r |}.

(** The result of [ohtable_put] is not looked at. *)
Definition shard_add_zero_record (s : shard RAM) (e : entropy) : option (shard RAM * entropy) :=
  match ohtable_put (table s) e (replicate (record_size_qwords s) 0) with
  | Some (_, t, e) => Some (with_table s t, e)
  | None => None
  end.

(** [_create] and [shard_create] on a new table. *)
Definition shard_create_on (t : ohtable RAM) (lb ub : Z) (record_size_qwords : nat) (e : entropy) : option (shard RAM * entropy) :=
  shard_add_zero_record
    {| lb := lb; ub := ub; record_size_qwords := record_size_qwords; keep_alive := false; table := t; running := SHARD_WORKER_IDLE |} e.
Definition shard_create (t : ohtable RAM) (lb ub : Z) (record_size_qwords : nat) (e : entropy) : option (shard RAM * entropy) :=
  match shard_create_on t lb ub record_size_qwords e with
  | Some (s, e) => shard_add_zero_record s e
  | None => None
  end.

Definition shard_do_clear (s : shard RAM) (e : entropy) : option (shard RAM * entropy) :=
  shard_add_zero_record (with_table s (ohtable_clear (table s))) e.

(** The loop over the records of an insert; [err] is the error of the last
    put. *)
Fixpoint insert_loop (n : nat) (size : nat) (records : list Z) (t : ohtable RAM) (e : entropy) (err : error_t) :
    option (error_t * ohtable RAM * entropy) :=
  match n with
  | O => Some (err, t, e)
  | S n =>
      match ohtable_put t e (take size records) with
      | Some (err, t, e) => if is_success err then insert_loop n size (drop size records) t e err else Some (err, t, e)
      | None => None
      end
  end.

(** The loop over the records of a query, which are overwritten in place. *)
Fixpoint query_loop (n : nat) (size : nat) (records : list Z) (t : ohtable RAM) (e : entropy) (err : error_t) :
    error_t * list Z * ohtable RAM * entropy :=
  match n with
  | O => (err, records, t, e)
  | S n =>
      let '(err, out, t, e) := ohtable_get t e (default 0 (records !! 0%nat)) (take size records) in
      if is_success err then
        let '(err, rest, t, e) := query_loop n size (drop size records) t e err in (err, out ++ rest, t, e)
      else (err, out ++ drop size records, t, e)
  end.

(** [None] is a failed [CHECK]. *)
Definition shard_handle_request (s : shard RAM) (e : entropy) (req : sharded_ohtable_request) :
    option (shard RAM * entropy * sharded_ohtable_request) :=
  match r_type req with
  | shard_request_insert =>
      match r_records req with
      | None => None
      | Some records =>
          match insert_loop (r_batch_size req) (record_size_qwords s) records (table s) e (r_err req) with
          | Some (err, t, e) => Some (with_table s t, e, shard_waiter_finish (with_result req (Some records) err))
          | None => None
          end
      end
  | shard_request_query =>
      match r_records req with
      | None => None
      | Some records =>
          let '(err, records, t, e) := query_loop (r_batch_size req) (record_size_qwords s) records (table s) e (r_err req) in
          Some (with_table s t, e, shard_waiter_finish (with_result req (Some records) err))
      end
  | shard_request_stop => Some (with_running s false (running s), e, shard_waiter_finish req)
  | shard_request_clear =>
      match shard_do_clear s e with
      | Some (s, e) => Some (s, e, shard_waiter_finish req)
      | None => None
      end
  | shard_request_wait => Some (s, e, shard_waiter_finish req)
  | shard_request_unknown => None
  end.

(** [shard_destroy] completes the requests that are still in the queue. *)
Definition shard_destroy (pending : list sharded_ohtable_request) : list sharded_ohtable_request :=
  map (fun r => shard_waiter_finish (with_result r (r_records r) err_SHARD__DESTROYING)) pending.

(** *** Threads

    The threads that have entered [shard_run]'s loop, each before its next
    request or with the request it has taken; all requests ever queued, in
    order, of which the first [y_taken] have left the queue; and the number of
    [shard_stop] calls between their compare-exchange and their queueing. *)
Inductive worker_pc := WLoop | WHandle (id : nat).

Record system := System {
  y_shard : shard RAM;
  y_entropy : entropy;
  y_workers : list worker_pc;
  y_requests : list sharded_ohtable_request;
  y_taken : nat;
  y_claimed : nat;
}.

Definition with_shard (y : system) (s : shard RAM) : system :=
  {| y_shard := s; y_entropy := y_entropy y; y_workers := y_workers y; y_requests := y_requests y;
     y_taken := y_taken y; y_claimed := y_claimed y |}.

(** [shard_run] up to its loop: the error, or a new worker. *)
Definition run_begin (y : system) : error_t * system :=
  match running (y_shard y) with
  | SHARD_WORKER_IDLE =>
      (err_SUCCESS,
       {| y_shard := with_running (y_shard y) true SHARD_WORKER_RUNNING; y_entropy := y_entropy y;
          y_workers := y_workers y ++ [WLoop]; y_requests := y_requests y; y_taken := y_taken y; y_claimed := y_claimed y |})
  | _ => (err_SHARD__ALREADY_RUNNING, y)
  end.

(** One round of a worker's loop: waiting for a request, and handling it. *)
Definition worker_take (y : system) (i : nat) : option system :=
  match y_workers y !! i with
  | Some WLoop =>
      if keep_alive (y_shard y) && (y_taken y <? length (y_requests y))%nat then
        Some {| y_shard := y_shard y; y_entropy := y_entropy y; y_workers := <[i := WHandle (y_taken y)]> (y_workers y);
                y_requests := y_requests y; y_taken := S (y_taken y); y_claimed := y_claimed y |}
      else None
  | _ => None
  end.

Definition worker_handle (y : system) (i : nat) : option system :=
  match y_workers y !! i with
  | Some (WHandle id) =>
      match y_requests y !! id with
      | Some req =>
          match shard_handle_request (y_shard y) (y_entropy y) req with
          | Some (s, e, req) =>
              Some {| y_shard := s; y_entropy := e; y_workers := <[i := WLoop]> (y_workers y);
                      y_requests := <[id := req]> (y_requests y); y_taken := y_taken y; y_claimed := y_claimed y |}
          | None => None
          end
      | None => None
      end
  | _ => None
  end.

(** The end of [shard_run]; [None] is also its failed [CHECK]. *)
Definition worker_exit (y : system) (i : nat) : option system :=
  match y_workers y !! i with
  | Some WLoop =>
      if negb (keep_alive (y_shard y)) then
        match running (y_shard y) with
        | SHARD_WORKER_STOPPING =>
            Some {| y_shard := with_running (y_shard y) false SHARD_WORKER_IDLE; y_entropy := y_entropy y;
                    y_workers := delete i (y_workers y); y_requests := y_requests y; y_taken := y_taken y; y_claimed := y_claimed y |}
        | _ => None
        end
      else None
  | _ => None
  end.

(** [shard_stop]: the claim of the worker's slot, then the request. *)
Definition stop_begin (y : system) : error_t * system :=
  match running (y_shard y) with
  | SHARD_WORKER_RUNNING =>
      (err_SUCCESS,
       {| y_shard := with_running (y_shard y) (keep_alive (y_shard y)) SHARD_WORKER_STOPPING; y_entropy := y_entropy y;
          y_workers := y_workers y; y_requests := y_requests y; y_taken := y_taken y; y_claimed := S (y_claimed y) |})
  | _ => (err_SHARD__NOT_RUNNING, y)
  end.

(** [queue_add_item] waits while the queue is full. *)
Definition enqueue (y : system) (req : sharded_ohtable_request) (claimed : nat) : option system :=
  if (length (y_requests y) - y_taken y <? QUEUE_SIZE)%nat then
    Some {| y_shard := y_shard y; y_entropy := y_entropy y; y_workers := y_workers y; y_requests := y_requests y ++ [req];
            y_taken := y_taken y; y_claimed := claimed |}
  else None.

Definition stop_enqueue (y : system) : option system :=
  match y_claimed y with
  | O => None
  | S n => enqueue y stop_request n
  end.

(** The requests of [shard_insert], [shard_query], [shard_clear] and
    [shard_wait]. *)
Inductive client_request : sharded_ohtable_request -> Prop :=
  | client_insert records n : client_request (insert_request records n)
  | client_query records n : client_request (query_request records n)
  | client_clear : client_request clear_request
  | client_wait : client_request wait_request.

Inductive shard_step : system -> system -> Prop :=
  | step_run y : shard_step y (run_begin y).2
  | step_take y i y' : worker_take y i = Some y' -> shard_step y y'
  | step_handle y i y' : worker_handle y i = Some y' -> shard_step y y'
  | step_exit y i y' : worker_exit y i = Some y' -> shard_step y y'
  | step_stop y : shard_step y (stop_begin y).2
  | step_stop_enqueue y y' : stop_enqueue y = Some y' -> shard_step y y'
  | step_submit y req y' : client_request req -> enqueue y req (y_claimed y) = Some y' -> shard_step y y'.

(** Executions from a new shard. *)
Inductive shard_reachable (s : shard RAM) (e : entropy) : system -> Prop :=
  | shard_init : running s = SHARD_WORKER_IDLE ->
      shard_reachable s e {| y_shard := s; y_entropy := e; y_workers := []; y_requests := []; y_taken := 0; y_claimed := 0 |}
  | shard_next y y' : shard_reachable s e y -> shard_step y y' -> shard_reachable s e y'.
End Ops.
Arguments system : clear implicits.
