(* ===== verification/ShardTheorems.v ===== *)
(** * A shard and its worker: properties

    The invariant of the worker's life, proved over every interleaving, and the
    effect of the requests on the table. *)

From S2P Require Import Prelude Errors PositionMap OramInterface PathOramSpec OramPositionMap OHTable RobinHood OHTableSpec OHTableTheorems Queue Shard.
Local Open Scope Z_scope.

(** ** The worker *)

Section Worker.
Context {RAM : Type} `{ObliviousRam RAM}.

Definition is_stop (r : sharded_ohtable_request) : bool := match r_type r with shard_request_stop => true | _ => false end.

(** The stop requests from number [n] on. *)
Definition stops (y : system RAM) (n : nat) : nat := countb is_stop (drop n (y_requests y)).

(** The requests that a worker has completed. *)
Definition completed (y : system RAM) (pc : worker_pc) : nat := match pc with WLoop => y_taken y | WHandle id => id end.
Definition pc_ok (y : system RAM) (pc : worker_pc) : Prop :=
  match pc with WLoop => True | WHandle id => y_taken y = S id /\ keep_alive (y_shard y) = true end.

Inductive worker_inv (y : system RAM) : nat -> Prop :=
  | inv_idle : running (y_shard y) = SHARD_WORKER_IDLE -> y_workers y = [] -> y_claimed y = 0%nat ->
      stops y (y_taken y) = 0%nat -> worker_inv y (y_taken y)
  | inv_running pc : running (y_shard y) = SHARD_WORKER_RUNNING -> keep_alive (y_shard y) = true -> y_workers y = [pc] ->
      pc_ok y pc -> y_claimed y = 0%nat -> stops y (completed y pc) = 0%nat -> worker_inv y (completed y pc)
  | inv_stopping pc : running (y_shard y) = SHARD_WORKER_STOPPING -> keep_alive (y_shard y) = true -> y_workers y = [pc] ->
      pc_ok y pc -> (y_claimed y + stops y (completed y pc) = 1)%nat -> worker_inv y (completed y pc)
  | inv_stopped : running (y_shard y) = SHARD_WORKER_STOPPING -> keep_alive (y_shard y) = false -> y_workers y = [WLoop] ->
      y_claimed y = 0%nat -> stops y (y_taken y) = 0%nat -> worker_inv y (y_taken y).

(** The waiters of the completed requests, and of no others, are finished; somebody
    waits for every stop request. *)
Record shard_inv (y : system RAM) (n : nat) : Prop := {
  si_worker : worker_inv y n;
  si_taken : (y_taken y <= length (y_requests y))%nat;
  si_done : forall id r, y_requests y !! id = Some r -> (id < n)%nat -> r_wait r <> Some false;
  si_open : forall id r, y_requests y !! id = Some r -> (n <= id)%nat -> r_wait r <> Some true;
  si_stops : forall id r, y_requests y !! id = Some r -> is_stop r = true -> r_wait r <> None;
}.

Lemma completed_taken y n : worker_inv y n -> (n <= y_taken y <= S n)%nat.
Proof. intros [| [|id] ? ? ? Hpc | [|id] ? ? ? Hpc |]; simpl; try lia; destruct Hpc as [-> _]; lia. Qed.

(** A handled request keeps its type, finishes its waiter, and stops the worker
    if it is a stop request. *)
Lemma handle_request_spec (s : shard RAM) e req s' e' req' : shard_handle_request s e req = Some (s', e', req') ->
  running s' = running s /\ keep_alive s' = (if is_stop req then false else keep_alive s) /\
  r_type req' = r_type req /\ r_wait req' <> Some false /\ (r_wait req <> None -> r_wait req' <> None).
Proof.
  assert (Hz : forall s0 e0 s1 e1, shard_add_zero_record (s0 : shard RAM) e0 = Some (s1, e1) ->
    running s1 = running s0 /\ keep_alive s1 = keep_alive s0).
  { intros s0 e0 s1 e1. unfold shard_add_zero_record. destruct (ohtable_put _ _ _) as [[[? ?] ?]|]; [|done]. by intros [= <- _]. }
  assert (Hw : forall r, r_wait (shard_waiter_finish r) <> Some false) by (intros []; simpl; by destruct r_wait).
  assert (Hn : forall r, r_wait r <> None -> r_wait (shard_waiter_finish r) <> None) by (intros []; simpl; by destruct r_wait).
  unfold shard_handle_request, is_stop. destruct (r_type req) eqn:Et; try done.
  - destruct (r_records req); [|done]. destruct (insert_loop _ _ _ _ _ _) as [[[? ?] ?]|]; [|done].
    intros [= <- <- <-]. split_and!; [done..|apply Hw|intros Hr; by apply Hn].
  - destruct (r_records req); [|done]. destruct (query_loop _ _ _ _ _ _) as [[[? ?] ?] ?].
    intros [= <- <- <-]. split_and!; [done..|apply Hw|intros Hr; by apply Hn].
  - intros [= <- <- <-]. split_and!; [done..|apply Hw|intros Hr; by apply Hn].
  - unfold shard_do_clear. destruct (shard_add_zero_record _ _) as [[s1 e1]|] eqn:E; [|done]. intros [= <- <- <-].
    apply Hz in E as [-> ->]. split_and!; [done..|apply Hw|intros Hr; by apply Hn].
  - intros [= <- <- <-]. split_and!; [done..|apply Hw|intros Hr; by apply Hn].
Qed.

Lemma stops_S y n r : y_requests y !! n = Some r -> stops y n = ((if is_stop r then 1 else 0) + stops y (S n))%nat.
Proof. intros Hr. unfold stops. by rewrite (drop_S _ _ _ Hr). Qed.

Lemma stops_app (y y' : system RAM) r n : y_requests y' = y_requests y ++ [r] -> (n <= length (y_requests y))%nat ->
  stops y' n = (stops y n + (if is_stop r then 1 else 0))%nat.
Proof. intros E Hn. unfold stops. rewrite E, drop_app_le, countb_app by done. simpl. lia. Qed.

Lemma shard_inv_init s e : running s = SHARD_WORKER_IDLE ->
  shard_inv {| y_shard := s; y_entropy := e; y_workers := []; y_requests := []; y_taken := 0; y_claimed := 0 |} 0.
Proof. intros Hr. constructor; [by apply inv_idle|done|done|done|done]. Qed.

Lemma run_begin_inv y n : shard_inv y n -> shard_inv (run_begin y).2 n.
Proof.
  intros Hy. unfold run_begin. destruct (running (y_shard y)) eqn:Er; [|exact Hy|exact Hy].
  destruct Hy as [Hw Ht Hd Ho Hq]. constructor; [|exact Ht|exact Hd|exact Ho|exact Hq].
  destruct Hw as [_ Hk Hc Hs| | |]; try congruence.
  refine (inv_running _ WLoop _ _ _ _ _ _); try done. cbn [snd y_workers]. by rewrite Hk.
Qed.

Lemma stop_begin_inv y n : shard_inv y n -> shard_inv (stop_begin y).2 n.
Proof.
  intros Hy. unfold stop_begin. destruct (running (y_shard y)) eqn:Er; [exact Hy| |exact Hy].
  destruct Hy as [Hw Ht Hd Ho Hq]. constructor; [|exact Ht|exact Hd|exact Ho|exact Hq].
  destruct Hw as [|pc _ Hk Hp Hpc Hc Hs| |]; try congruence.
  refine (inv_stopping _ pc _ _ _ _ _); try done. cbn [snd y_claimed]. rewrite Hc. simpl. f_equal. exact Hs.
Qed.

Lemma enqueue_inv y n req claimed y' : shard_inv y n -> r_wait req <> Some true -> (is_stop req = true -> r_wait req <> None) -> enqueue y req claimed = Some y' ->
  (claimed + (if is_stop req then 1 else 0) = y_claimed y)%nat -> shard_inv y' n.
Proof.
  intros [Hw Ht Hd Ho Hq] Hreq Hwait He Hc. unfold enqueue in He. destruct (_ <? QUEUE_SIZE)%nat; [|done]. injection He as <-.
  pose proof (completed_taken y n Hw) as Hn. constructor.
  - assert (Hst : forall k, (k <= y_taken y)%nat -> stops {| y_shard := y_shard y; y_entropy := y_entropy y; y_workers := y_workers y;
      y_requests := y_requests y ++ [req]; y_taken := y_taken y; y_claimed := claimed |} k = (stops y k + (if is_stop req then 1 else 0))%nat)
      by (intros k Hk; apply stops_app; [done|lia]).
    destruct Hw as [? ? Hcl Hs|pc ? ? ? ? Hcl Hs|pc ? ? ? ? Hs|? ? ? Hcl Hs].
    + refine (inv_idle _ _ _ _ _); try done; [cbn [y_claimed]; lia|]. cbn [y_taken]. rewrite Hst by lia. lia.
    + refine (inv_running _ pc _ _ _ _ _ _); try done; [cbn [y_claimed]; lia|]. rewrite Hst;
      destruct pc; cbn [completed y_taken] in *; lia.
    + refine (inv_stopping _ pc _ _ _ _ _); try done. cbn [y_claimed].
      rewrite Hst; destruct pc; cbn [completed y_taken] in *; lia.
    + refine (inv_stopped _ _ _ _ _ _); try done; [cbn [y_claimed]; lia|]. cbn [y_taken]. rewrite Hst by lia. lia.
  - cbn [y_taken y_requests]. rewrite length_app. lia.
  - cbn [y_requests]. intros id r Hr Hlt. rewrite lookup_app_l in Hr by lia. by apply (Hd id).
  - cbn [y_requests]. intros id r Hr Hge. apply lookup_app_Some in Hr as [Hr|[_ Hr]]; [by apply (Ho id)|].
    apply list_lookup_singleton_Some in Hr as [_ <-]. done.
  - cbn [y_requests]. intros id r Hr. apply lookup_app_Some in Hr as [Hr|[_ Hr]]; [by apply (Hq id)|].
    apply list_lookup_singleton_Some in Hr as [_ <-]. done.
Qed.

Lemma worker_take_inv y n i y' : shard_inv y n -> worker_take y i = Some y' -> shard_inv y' n.
Proof.
  intros [Hw Ht Hd Ho Hq] Hs. unfold worker_take in Hs. destruct (y_workers y !! i) as [[|id]|] eqn:Ei; [|done|done].
  case_cond; [|done]. injection Hs as <-. apply andb_prop in E as [Hk Hlt]. apply Nat.ltb_lt in Hlt.
  assert (Hone : forall pc, y_workers y = [pc] -> pc = WLoop /\ <[i := WHandle (y_taken y)]> (y_workers y) = [WHandle (y_taken y)]).
  { intros pc Hp. rewrite Hp in Ei |- *. apply list_lookup_singleton_Some in Ei as [-> ->]. done. }
  constructor; cbn [y_requests y_taken]; [|lia|exact Hd|exact Ho|exact Hq].
  destruct Hw as [? Hp ? ?|pc ? ? Hp ? ? ?|pc ? ? Hp ? ?|? Hk' ? ? ?]; [by rewrite Hp in Ei| | |congruence].
  - destruct (Hone pc Hp) as [-> Hins]. refine (inv_running _ (WHandle (y_taken y)) _ _ _ _ _ _); try done.
  - destruct (Hone pc Hp) as [-> Hins]. refine (inv_stopping _ (WHandle (y_taken y)) _ _ _ _ _); try done.
Qed.

Lemma worker_exit_inv y n i y' : shard_inv y n -> worker_exit y i = Some y' -> shard_inv y' n.
Proof.
  intros [Hw Ht Hd Ho Hq] Hs. unfold worker_exit in Hs. destruct (y_workers y !! i) as [[|id]|] eqn:Ei; [|done|done].
  case_cond; [|done]. apply negb_true_iff in E. destruct (running (y_shard y)) eqn:Er; [done..|]. injection Hs as <-.
  constructor; [|exact Ht|exact Hd|exact Ho|exact Hq]. destruct Hw as [| | |? ? Hp Hc Hs]; try congruence.
  refine (inv_idle _ _ _ _ _); try done. cbn [y_workers]. rewrite Hp in Ei |- *. by apply list_lookup_singleton_Some in Ei as [-> _].
Qed.

Lemma stops_insert (y y' : system RAM) n r : y_requests y' = <[n := r]> (y_requests y) -> stops y' (S n) = stops y (S n).
Proof. intros E. unfold stops. by rewrite E, drop_insert_lt by lia. Qed.

Lemma worker_handle_inv y n i y' : shard_inv y n -> worker_handle y i = Some y' -> shard_inv y' (S n).
Proof.
  intros [Hw Ht Hd Ho Hq] Hs. unfold worker_handle in Hs. destruct (y_workers y !! i) as [[|id]|] eqn:Ei; [done| |done].
  destruct (y_requests y !! id) as [req|] eqn:Er; [|done].
  destruct (shard_handle_request (y_shard y) (y_entropy y) req) as [[[s e] req']|] eqn:Eh; [|done]. injection Hs as <-.
  apply handle_request_spec in Eh as (Hrun & Hka & Hty & Hwt & Hwn).
  assert (Hone : forall pc, y_workers y = [pc] -> pc = WHandle id /\ <[i := WLoop]> (y_workers y) = [WLoop]).
  { intros pc Hp. rewrite Hp in Ei |- *. by apply list_lookup_singleton_Some in Ei as [-> ->]. }
  assert (n = id /\ y_taken y = S id) as [-> Htk].
  { destruct Hw as [? Hp|pc ? ? Hp Hpc|pc ? ? Hp Hpc|? ? Hp]; [by rewrite Hp in Ei| | |].
    - destruct (Hone pc Hp) as [-> _]. by destruct Hpc.
    - destruct (Hone pc Hp) as [-> _]. by destruct Hpc.
    - by destruct (Hone _ Hp). }
  constructor; cbn [y_requests y_taken].
  - pose proof (stops_S y id req Er) as HS. rewrite <- Htk in *.
    assert (Hst : forall y', y_requests y' = <[id := req']> (y_requests y) -> stops y' (y_taken y) = stops y (y_taken y))
      by (intros z Hz; rewrite Htk; by apply (stops_insert y z id req')).
    destruct Hw as [? Hp|pc Hr Hk Hp Hpc Hc Hs|pc Hr Hk Hp Hpc Hs|? ? Hp]; [by rewrite Hp in Ei| | |by destruct (Hone _ Hp)].
    + destruct (Hone pc Hp) as [-> Hins]. cbn [completed] in Hs. destruct (is_stop req); [lia|].
      refine (inv_running _ WLoop _ _ _ _ _ _); cbn [y_shard y_workers y_claimed completed y_taken]; try done; try congruence.
      rewrite Hst by done. lia.
    + destruct (Hone pc Hp) as [-> Hins]. cbn [completed] in Hs. destruct (is_stop req).
      * refine (inv_stopped _ _ _ _ _ _); cbn [y_shard y_workers y_claimed y_taken]; try done; try congruence; [lia|]. rewrite Hst by done. lia.
      * refine (inv_stopping _ WLoop _ _ _ _ _); cbn [y_shard y_workers y_claimed completed y_taken]; try done; try congruence.
        rewrite Hst by done. lia.
  - rewrite length_insert. lia.
  - intros id' r Hr Hlt. destruct (decide (id' = id)) as [->|Hne].
    + rewrite list_lookup_insert_eq in Hr by (by eapply lookup_lt_Some). by injection Hr as <-.
    + rewrite list_lookup_insert_ne in Hr by done. apply (Hd id'); [done|lia].
  - intros id' r Hr Hge. rewrite list_lookup_insert_ne in Hr by lia. apply (Ho id'); [done|lia].
  - intros id' r Hr. destruct (decide (id' = id)) as [->|Hne].
    + rewrite list_lookup_insert_eq in Hr by (by eapply lookup_lt_Some). injection Hr as <-. unfold is_stop. rewrite Hty. intros Hst.
      by apply Hwn, (Hq id).
    + rewrite list_lookup_insert_ne in Hr by done. by apply (Hq id').
Qed.

Lemma shard_step_inv y n y' : shard_inv y n -> shard_step y y' -> exists n', shard_inv y' n' /\ (n <= n')%nat.
Proof.
  intros Hy Hs. destruct Hs as [y|y i y' Hs|y i y' Hs|y i y' Hs|y|y y' Hs|y req y' Hc Hs].
  - exists n. split; [by apply run_begin_inv|done].
  - exists n. split; [by eapply worker_take_inv|done].
  - exists (S n). split; [by eapply worker_handle_inv|lia].
  - exists n. split; [by eapply worker_exit_inv|done].
  - exists n. split; [by apply stop_begin_inv|done].
  - exists n. split; [|done]. unfold stop_enqueue in Hs. destruct (y_claimed y) as [|k] eqn:Ek; [done|].
    eapply enqueue_inv; [exact Hy| | |exact Hs|]; [done|done|]. simpl. lia.
  - exists n. split; [|done]. eapply enqueue_inv; [exact Hy| | |exact Hs|]; destruct Hc; done || (simpl; lia).
Qed.

Lemma shard_reachable_inv s e y : shard_reachable s e y -> exists n, shard_inv y n.
Proof.
  induction 1 as [Hr|y y' _ [n IH] Hs]; [exists 0%nat; by apply shard_inv_init|].
  destruct (shard_step_inv y n y' IH Hs) as (n' & Hn' & _). by exists n'.
Qed.

(** A stop request whose waiter still waits.  Stop requests come with a waiter, so
    these are the stop requests that are not completed. *)
Definition stop_pending (r : sharded_ohtable_request) : bool :=
  is_stop r && match r_wait r with Some false => true | _ => false end.

Lemma pending_stops y n : shard_inv y n -> countb stop_pending (y_requests y) = stops y n.
Proof.
  intros [Hw Ht Hd Ho Hq]. unfold stops. rewrite <- (take_drop n (y_requests y)) at 1. rewrite countb_app, countb_false.
  - apply countb_ext. intros r [i Hi]%list_elem_of_lookup. rewrite lookup_drop in Hi. unfold stop_pending.
    destruct (is_stop r) eqn:Es; [|done]. pose proof (Ho _ _ Hi ltac:(lia)). pose proof (Hq _ _ Hi Es). by destruct (r_wait r) as [[]|].
  - intros r [i Hi]%list_elem_of_lookup. apply lookup_take_Some in Hi as [Hi Hlt]. pose proof (Hd _ _ Hi Hlt). unfold stop_pending.
    destruct (r_wait r) as [[]|]; by rewrite ?andb_false_r.
Qed.
End Worker.

(** ** The table *)

Section Table.
Context {RAM : Type} `{ObliviousRamSpec RAM} (nb : nat).

(** What a key maps to after a list of records is inserted in order. *)
Definition insert_all (records : list (list Z)) (k : Z) (r : option (list Z)) : option (list Z) :=
  fold_left (fun r record => if k =? record_key record then Some record else r) records r.

Definition record_ok (r : list Z) : Prop := length r = RECORD_SIZE /\ record_key r <> UINT64_MAX.

(** A put either is refused or behaves as on a map. *)
Lemma put_total (t : ohtable RAM) e r : table_inv nb t -> record_ok r -> 24 * Z.of_nat nb < 2 ^ 53 ->
  exists err t' e', ohtable_put t e r = Some (err, t', e') /\
    (is_success err = true -> table_inv nb t' /\
     forall k, k <> UINT64_MAX -> table_lookup nb t' k = if k =? record_key r then Some r else table_lookup nb t k).
Proof.
  intros Ht [Hl Hk] Hnb. destruct (is_full t) eqn:Ef; [|by apply ohtable_put_lookup].
  exists err_OHTABLE__TABLE_FULL, t, e. unfold ohtable_put. by rewrite Ef.
Qed.

Lemma insert_loop_spec records (t : ohtable RAM) e err : table_inv nb t -> Forall record_ok records -> 24 * Z.of_nat nb < 2 ^ 53 ->
  is_success err = true ->
  exists err' t' e', insert_loop (length records) RECORD_SIZE (concat records) t e err = Some (err', t', e') /\
    (is_success err' = true -> table_inv nb t' /\
     forall k, k <> UINT64_MAX -> table_lookup nb t' k = insert_all records k (table_lookup nb t k)).
Proof.
  intros Ht Hr Hnb. revert t e err Ht. induction Hr as [|r records Hr _ IH]; intros t e err Ht He.
  { exists err, t, e. split; [done|]. intros _. done. }
  cbn [length concat insert_loop]. pose proof Hr as [Hl _]. rewrite <- Hl, take_app_length, drop_app_length, Hl.
  destruct (put_total t e r Ht Hr Hnb) as (err1 & t1 & e1 & -> & Hspec).
  destruct (is_success err1) eqn:E1; [|exists err1, t1, e1; split; [done|congruence]].
  destruct (Hspec eq_refl) as [Ht1 Hk1]. destruct (IH t1 e1 err1 Ht1 E1) as (err2 & t2 & e2 & -> & Hspec2).
  exists err2, t2, e2. split; [done|]. intros Hs. destruct (Hspec2 Hs) as [Ht2 Hk2]. split; [done|].
  intros k Hk. rewrite Hk2, Hk1 by done. done.
Qed.

(** A record that a lookup reaches. *)
Definition within_reach (t : ohtable RAM) (k : Z) (r : list Z) : Prop :=
  exists s, slots_of nb (t_oram t) !! s = Some r /\ record_key r = k /\ Z.of_nat (jump_at (24 * nb) k s) <= t_max_offset t.

(** No slot that a lookup of the key scans is empty. *)
Definition full_reach (t : ohtable RAM) (k : Z) : Prop :=
  forall i r, Z.of_nat i <= t_max_offset t -> slots_of nb (t_oram t) !! ((home (24 * nb) k + i) mod (24 * nb))%nat = Some r -> record_key r <> UINT64_MAX.

Lemma query_loop_spec queries (t : ohtable RAM) e err err' out t' e' : table_inv nb t -> Forall record_ok queries ->
  query_loop (length queries) RECORD_SIZE (concat queries) t e err = (err', out, t', e') -> is_success err' = true ->
  table_inv nb t' /\ slots_of nb (t_oram t') = slots_of nb (t_oram t) /\
  exists answers, out = concat answers /\ length answers = length queries /\
    forall i q a, queries !! i = Some q -> answers !! i = Some a ->
      (a = q \/ length a = RECORD_SIZE /\ (record_key a = record_key q \/ a = replicate RECORD_SIZE UINT64_MAX)) /\
      (forall r, within_reach t (record_key q) r -> a = r) /\
      (table_lookup nb t (record_key q) = None -> a = replicate RECORD_SIZE UINT64_MAX \/ a = q /\ full_reach t (record_key q)).
Proof.
  intros Ht Hq. revert t e err out Ht. induction Hq as [|q queries Hq _ IH]; intros t e err out Ht Hrun Hok.
  { injection Hrun as <- <- <- <-. split; [done|]. split; [done|]. by exists []. }
  cbn [length concat query_loop] in Hrun. pose proof Hq as [Hl Hk].
  assert (Hkey : default 0 ((q ++ concat queries) !! 0%nat) = record_key q).
  { rewrite lookup_app_l by (rewrite Hl; unfold RECORD_SIZE; lia). unfold record_key. by destruct q. }
  rewrite Hkey in Hrun. rewrite <- Hl, take_app_length, drop_app_length, Hl in Hrun.
  destruct (ohtable_get t e (record_key q) q) as [[[err1 a] t1] e1] eqn:Eg.
  destruct (is_success err1) eqn:E1; [|injection Hrun as <- <- <- <-; congruence].
  destruct (query_loop (length queries) RECORD_SIZE (concat queries) t1 e1 err1) as [[[err2 rest] t2] e2] eqn:Eq.
  injection Hrun as <- <- <- <-.
  destruct (ohtable_get_lookup nb t e (record_key q) q err1 a t1 e1 Ht Hk Eg E1) as (Ht1 & Hs1 & Hm1 & Hf & Ha).
  destruct (IH t1 e1 err1 rest Ht1 Eq Hok) as (Ht2 & Hs2 & answers & -> & Hlen & Hans).
  split; [done|]. split; [congruence|]. exists (a :: answers). split_and!; [done|simpl; lia|].
  intros [|i] q' a' Hqi Hai; simpl in Hqi, Hai.
  - injection Hqi as <-. injection Hai as <-. split_and!.
    + exact (ohtable_get_answer nb t e (record_key q) q err1 a t1 e1 Ht Eg E1).
    + intros r (s & Hr & Ek & Hj). by apply (Hf s).
    + intros Hn. destruct (Ha Hn) as [->|[-> ?]]; auto.
  - destruct (Hans i q' a' Hqi Hai) as (Hq0 & H1 & H2). unfold within_reach, full_reach in *. rewrite Hs1, Hm1 in H1, H2. split_and!; [done|done|].
    intros Hn. apply H2. unfold table_lookup in *. by rewrite Hs1.
Qed.

(** The handler of an insert and of a query; the bounds of the shard stay. *)
Definition same_shard (s s' : shard RAM) : Prop :=
  lb s' = lb s /\ ub s' = ub s /\ record_size_qwords s' = record_size_qwords s.

Lemma handle_insert_spec (s : shard RAM) e records :
  table_inv nb (table s) -> record_size_qwords s = RECORD_SIZE -> Forall record_ok records -> 24 * Z.of_nat nb < 2 ^ 53 ->
  exists s' e' r', shard_handle_request s e (insert_request (concat records) (length records)) = Some (s', e', r') /\ same_shard s s' /\
    (is_success (shard_request_error r') = true -> table_inv nb (table s') /\
     forall k, k <> UINT64_MAX -> table_lookup nb (table s') k = insert_all records k (table_lookup nb (table s) k)).
Proof.
  intros Ht Hs Hr Hnb. unfold shard_handle_request. cbn [insert_request shard_request_create r_type r_records r_batch_size r_err].
  rewrite Hs. destruct (insert_loop_spec records (table s) e err_SUCCESS Ht Hr Hnb eq_refl) as (err & t & e' & -> & Hspec).
  eexists _, _, _. split; [done|]. split; [done|]. exact Hspec.
Qed.

(** What a query of a record answers. *)
Definition answers_query (t : ohtable RAM) (q a : list Z) : Prop :=
  (a = q \/ length a = RECORD_SIZE /\ (record_key a = record_key q \/ a = replicate RECORD_SIZE UINT64_MAX)) /\
  (forall r, within_reach t (record_key q) r -> a = r) /\
  (table_lookup nb t (record_key q) = None -> a = replicate RECORD_SIZE UINT64_MAX \/ a = q /\ full_reach t (record_key q)).

Lemma handle_query_spec (s : shard RAM) e queries :
  table_inv nb (table s) -> record_size_qwords s = RECORD_SIZE -> Forall record_ok queries ->
  exists s' e' r', shard_handle_request s e (query_request (concat queries) (length queries)) = Some (s', e', r') /\ same_shard s s' /\
    (is_success (shard_request_error r') = true ->
     table_inv nb (table s') /\ slots_of nb (t_oram (table s')) = slots_of nb (t_oram (table s)) /\
     exists answers, shard_request_records r' = Some (concat answers) /\ Forall2 (answers_query (table s)) queries answers).
Proof.
  intros Ht Hs Hq. unfold shard_handle_request. cbn [query_request shard_request_create r_type r_records r_batch_size r_err].
  rewrite Hs. destruct (query_loop _ _ _ _ _ _) as [[[err out] t] e1] eqn:E. eexists _, _, _. split; [done|]. split; [done|].
  intros Hok. destruct (query_loop_spec queries (table s) e err_SUCCESS err out t e1 Ht Hq E Hok) as (Ht' & Hsl & answers & -> & Hlen & Ha).
  split; [done|]. split; [done|]. exists answers. split; [done|]. apply Forall2_same_length_lookup_2; [done|]. exact Ha.
Qed.
End Table.

(** ** Properties *)

(** C24. The life of a shard's worker, over every interleaving of [shard_run],
    [shard_stop], the worker and the clients' requests: there is never more than one
    worker; the flag is idle exactly when there is none, and stopping exactly when a
    stop is claimed, is queued, is handled, or has just been handled.  At most one
    stop is under way.  While it is claimed or its request is not completed there is
    a worker that keeps running, so [shard_stop] does not wait for a request that
    nobody takes; a worker that leaves its loop finds the flag that [shard_run]
    checks for, and an idle shard can be run again. *)
Theorem shard_worker_lifecycle {RAM} `{ObliviousRam RAM} (s : shard RAM) e y : shard_reachable s e y ->
  (length (y_workers y) <= 1)%nat /\
  (running (y_shard y) = SHARD_WORKER_IDLE <-> y_workers y = []) /\
  (running (y_shard y) = SHARD_WORKER_STOPPING <->
     y_workers y <> [] /\ ((0 < y_claimed y + countb stop_pending (y_requests y))%nat \/ keep_alive (y_shard y) = false)) /\
  (y_claimed y + countb stop_pending (y_requests y) <= 1)%nat /\
  ((0 < y_claimed y + countb stop_pending (y_requests y))%nat -> keep_alive (y_shard y) = true /\ exists pc, y_workers y = [pc]) /\
  (forall i, y_workers y !! i = Some WLoop -> keep_alive (y_shard y) = false -> is_Some (worker_exit y i)) /\
  (y_workers y = [] -> (run_begin y).1 = err_SUCCESS).
Proof.
  intros [n Hy]%shard_reachable_inv. pose proof (si_worker _ _ Hy) as Hw. rewrite (pending_stops y n Hy).
  destruct Hw as [Hr Hp Hc Hs|pc Hr Hk Hp Hpc Hc Hs|pc Hr Hk Hp Hpc Hs|Hr Hk Hp Hc Hs]; rewrite Hr, Hp.
  - rewrite Hc, Hs. split_and!; [simpl; lia|done|by split; [|intros [? _]]|lia|lia|done|]. intros _. unfold run_begin. by rewrite Hr.
  - rewrite Hc, Hs, Hk. split_and!; [simpl; lia|done|split; [done|intros [_ [?|?]]; [lia|done]]|lia|lia|done|done].
  - rewrite Hk. split_and!; [simpl; lia|done|split; [intros _; split; [done|left; lia]|done]|lia|intros _; split; [done|by exists pc]|done|done].
  - rewrite Hc, Hs, Hk. split_and!; [simpl; lia|done|split; [intros _; split; [done|by right]|done]|lia|lia| |done].
    intros i Hi _. unfold worker_exit. by rewrite Hp, Hi, Hk, Hr.
Qed.

(** C25. [shard_wait] is a barrier: when its request is finished, so is every
    request queued before it: it has left the queue and no worker is handling
    it. *)
Theorem shard_wait_barrier {RAM} `{ObliviousRam RAM} (s : shard RAM) e y id r : shard_reachable s e y ->
  y_requests y !! id = Some r -> r_wait r = Some true ->
  forall id', (id' <= id)%nat -> (id' < y_taken y)%nat /\ ~ WHandle id' ∈ y_workers y.
Proof.
  intros [n Hy]%shard_reachable_inv Hr Hd id' Hle. pose proof (si_worker _ _ Hy) as Hw.
  assert (id < n)%nat as Hn by (destruct (decide (id < n)%nat); [done|]; by elim (si_open _ _ Hy id r Hr ltac:(lia))).
  pose proof (completed_taken y n Hw). split; [lia|]. intros Hin.
  destruct Hw as [? Hp|pc ? ? Hp Hpc|pc ? ? Hp Hpc|? ? Hp]; rewrite Hp in Hin; [set_solver|..];
    apply list_elem_of_singleton in Hin; [subst pc; simpl in Hn; lia|subst pc; simpl in Hn; lia|done].
Qed.

(** An insert request is handled to its end: the result is an error of the
    table, or the table holds the request's records, the last one of each key,
    and for every other key what it held before. *)
Theorem shard_insert_correct {RAM} `{ObliviousRamSpec RAM} nb (s : shard RAM) e records :
  table_inv nb (table s) -> record_size_qwords s = RECORD_SIZE -> Forall record_ok records -> 24 * Z.of_nat nb < 2 ^ 53 ->
  exists s' e' r', shard_handle_request s e (insert_request (concat records) (length records)) = Some (s', e', r') /\
    (is_success (shard_request_error r') = true -> table_inv nb (table s') /\
     forall k, k <> UINT64_MAX -> table_lookup nb (table s') k = insert_all records k (table_lookup nb (table s) k)).
Proof.
  intros Ht Hs Hr Hnb. destruct (handle_insert_spec nb s e records Ht Hs Hr Hnb) as (s' & e' & r' & Hrun & _ & Hspec).
  by exists s', e', r'.
Qed.

(** A query request that ends without an error leaves the table's contents
    as they are and answers every record of the request: with the record of
    its key, where the recorded displacement reaches it, and for a key that
    the table does not hold with the all-ones record, or with the request itself if
    the scanned slots are all in use. *)
Theorem shard_query_correct {RAM} `{ObliviousRamSpec RAM} nb (s : shard RAM) e queries s' e' r' :
  table_inv nb (table s) -> record_size_qwords s = RECORD_SIZE -> Forall record_ok queries ->
  shard_handle_request s e (query_request (concat queries) (length queries)) = Some (s', e', r') ->
  is_success (shard_request_error r') = true ->
  table_inv nb (table s') /\ slots_of nb (t_oram (table s')) = slots_of nb (t_oram (table s)) /\
  exists answers, shard_request_records r' = Some (concat answers) /\ length answers = length queries /\
    forall i q a, queries !! i = Some q -> answers !! i = Some a ->
      (forall r, within_reach nb (table s) (record_key q) r -> a = r) /\
      (table_lookup nb (table s) (record_key q) = None -> a = replicate RECORD_SIZE UINT64_MAX \/ a = q /\ full_reach nb (table s) (record_key q)).
Proof.
  intros Ht Hs Hq Hrun Hok. destruct (handle_query_spec nb s e queries Ht Hs Hq) as (s1 & e1 & r1 & Hrun1 & _ & Hspec).
  rewrite Hrun in Hrun1. injection Hrun1 as <- <- <-. destruct (Hspec Hok) as (Ht' & Hsl & answers & Hrec & Ha).
  split; [done|]. split; [done|]. exists answers. split; [done|]. split; [symmetry; by eapply Forall2_length|].
  intros i q a Hqi Hai. by destruct (Forall2_lookup_lr _ _ _ _ _ _ Ha Hqi Hai) as (_ & ? & ?).
Qed.

(** ** A small shard *)

Definition small_shard : shard inner_oram :=
  {| lb := 0; ub := 100; record_size_qwords := RECORD_SIZE; keep_alive := false; table := small_table; running := SHARD_WORKER_IDLE |}.

(** The worker runs, a client waits, a stop is claimed and queued. *)
Definition small_run : system inner_oram :=
  (run_begin {| y_shard := small_shard; y_entropy := small_entropy; y_workers := []; y_requests := []; y_taken := 0; y_claimed := 0 |}).2.
Definition small_wait : system inner_oram := default small_run (enqueue small_run wait_request (y_claimed small_run)).
Definition small_stop : system inner_oram :=
  default small_wait (stop_enqueue (stop_begin small_wait).2).
Definition small_handled : system inner_oram :=
  default small_stop (worker_handle (default small_stop (worker_take small_stop 0)) 0).

Lemma small_stop_reachable : shard_reachable small_shard small_entropy small_stop.
Proof.
  eapply shard_next; [|apply (step_stop_enqueue (stop_begin small_wait).2); reflexivity].
  eapply shard_next; [|apply step_stop].
  eapply shard_next; [|apply (step_submit small_run wait_request); [constructor|reflexivity]].
  eapply shard_next; [apply shard_init; reflexivity|]. apply step_run.
Qed.

Lemma small_handled_reachable : shard_reachable small_shard small_entropy small_handled.
Proof.
  eapply shard_next; [|apply (step_handle (default small_stop (worker_take small_stop 0)) 0); reflexivity].
  eapply shard_next; [apply small_stop_reachable|]. apply (step_take small_stop 0). reflexivity.
Qed.

Lemma shard_worker_lifecycle_witness : shard_reachable small_shard small_entropy small_stop /\
  running (y_shard small_stop) = SHARD_WORKER_STOPPING /\ keep_alive (y_shard small_stop) = true /\ exists pc, y_workers small_stop = [pc].
Proof.
  split; [exact small_stop_reachable|].
  destruct (shard_worker_lifecycle small_shard small_entropy small_stop small_stop_reachable) as (_ & _ & Hstop & _ & Hs & _).
  split; [|exact (Hs (le_n 1))]. apply Hstop. split; [discriminate|left; exact (le_n 1)].
Defined.

Lemma shard_wait_barrier_witness : (0 < y_taken small_handled)%nat /\ ~ WHandle 0 ∈ y_workers small_handled.
Proof.
  exact (shard_wait_barrier small_shard small_entropy small_handled 0%nat (shard_waiter_finish wait_request)
    small_handled_reachable eq_refl eq_refl 0%nat (le_n 0)).
Defined.

Lemma small_record_ok k v : k <> UINT64_MAX -> record_ok (small_record k v).
Proof. done. Qed.

Lemma shard_insert_correct_witness :
  exists s' e' r', shard_handle_request small_shard small_entropy (insert_request (small_record 58 7) 1) = Some (s', e', r') /\
    is_success (shard_request_error r') = true /\ table_lookup 1 (table s') 58 = Some (small_record 58 7).
Proof.
  destruct (shard_insert_correct 1 small_shard small_entropy [small_record 58 7] small_table_inv eq_refl
    ltac:(repeat constructor; discriminate) ltac:(lia)) as (s' & e' & r' & Hrun & Hspec).
  change (insert_request (concat [small_record 58 7]) (length [small_record 58 7])) with (insert_request (small_record 58 7) 1) in Hrun.
  assert (Hok : match shard_handle_request small_shard small_entropy (insert_request (small_record 58 7) 1) with
    | Some (_, _, r) => is_success (shard_request_error r) | None => false end = true) by (vm_compute; reflexivity).
  rewrite Hrun in Hok. exists s', e', r'. split; [exact Hrun|]. split; [exact Hok|].
  destruct (Hspec Hok) as [_ Hl]. exact (Hl 58 ltac:(discriminate)).
Defined.

Lemma shard_query_correct_witness :
  exists s' e' r' answers, shard_handle_request small_shard small_entropy (query_request (small_record 58 0) 1) = Some (s', e', r') /\
    shard_request_records r' = Some (concat answers) /\ length answers = 1%nat.
Proof.
  assert (Hok : match shard_handle_request small_shard small_entropy (query_request (small_record 58 0) 1) with
    | Some (_, _, r) => is_success (shard_request_error r) | None => false end = true) by (vm_compute; reflexivity).
  destruct (shard_handle_request small_shard small_entropy (query_request (small_record 58 0) 1)) as [[[s' e'] r']|] eqn:E; [|discriminate Hok].
  destruct (shard_query_correct 1 small_shard small_entropy [small_record 58 0] s' e' r' small_table_inv eq_refl
    ltac:(repeat constructor; discriminate) E Hok) as (_ & _ & answers & Ha & Hlen & _).
  exists s', e', r', answers. split; [reflexivity|]. split; [exact Ha|exact Hlen].
Defined.
