(* ===== verification/OCompact.v ===== *)
(** * Oblivious compaction ([c/util/ocompact.jinc])

    Moves the elements that satisfy a predicate to the front of an array and
    keeps their order, by a fixed pattern of conditional swaps: every element
    is labelled with the distance it has to move, and level [i] of the network
    moves it by [2^i] when bit [i] of its distance is set. *)

From S2P Require Import Prelude Util.

(** ** Definitions *)

(** [LZCNT], which is 64 for 0, and [_ceil_log2] of [util.jinc]. *)
Definition lzcnt (n : Z) : Z := if (n =? 0)%Z then 64 else (63 - Z.log2 n)%Z.
Definition jasmin_ceil_log2 (n : Z) : Z := 64 [-] lzcnt (n [-] 1).

Definition cond_swap {A} (cond : bool) (a b : nat) (l : list A) : list A :=
  match l !! a, l !! b with
  | Some x, Some y => if cond then <[a := y]> (<[b := x]> l) else l
  | _, _ => l
  end.

Section Compact.
Context {A : Type} (pred_function : A -> bool).

(** Step 1: the scan from the left, with the index [j] and the number [ctr] of
    elements kept so far. *)
Fixpoint label_distances (data : list A) (j ctr : Z) : list Z :=
  match data with
  | [] => []
  | x :: data =>
      let cond := pred_function x in
      (if cond then j [-] ctr else 0)%Z :: label_distances data (j [+] 1) (if cond then ctr [+] 1 else ctr)
  end.

(** Step 2, cell [j] of level [i]; the two arrays are swapped alike. *)
Definition route_cell (i : nat) (st : list A * list Z) (j : nat) : list A * list Z :=
  let '(data, distances) := st in
  let shift := 1 [<<] Z.of_nat i in
  if (Z.of_nat j >=? shift)%Z then
    let partner := Z.to_nat (Z.of_nat j [-] shift) in
    let jth_dist := default 0%Z (distances !! j) in
    let do_swap := (Z.land (jth_dist [>>] Z.of_nat i) 1 >? 0)%Z in
    let data := cond_swap do_swap j partner data in
    let distances := cond_swap do_swap partner j distances in
    let part_dist := default 0%Z (distances !! partner) in
    (data, <[partner := if do_swap then part_dist [-] shift else part_dist]> distances)
  else st.

Definition route_level (len : nat) (st : list A * list Z) (i : nat) : list A * list Z :=
  fold_left (route_cell i) (seq 0 len) st.

Definition ocompact (data : list A) : list A :=
  let len := length data in
  if (1 <? len)%nat then
    let levels := Z.to_nat (jasmin_ceil_log2 (Z.of_nat len)) in
    (fold_left (route_level len) (seq 0 levels) (data, label_distances data 0 0)).1
  else data.

(** ** The kept elements and their places *)

(** The kept elements, in order. *)
Definition kept (l : list A) : list A := List.filter pred_function l.

(** The index in [l] of the kept element number [a]. *)
Fixpoint kept_index (l : list A) (a : nat) : nat :=
  match l with
  | [] => 0
  | x :: l =>
      if pred_function x then match a with O => 0 | S a => S (kept_index l a) end
      else S (kept_index l a)
  end.

Lemma kept_index_lookup l a x : kept l !! a = Some x -> l !! kept_index l a = Some x.
Proof.
  revert a. induction l as [|y l IH]; intros a; [done|]. unfold kept. simpl.
  destruct (pred_function y); [destruct a as [|a]; [done|]|]; apply IH.
Qed.

Lemma kept_index_ge l a : (a < length (kept l) -> a <= kept_index l a)%nat.
Proof.
  revert a. induction l as [|y l IH]; intros a; unfold kept in *; simpl; [lia|].
  destruct (pred_function y); [destruct a as [|a]; simpl; [lia|]|]; intros Ha; specialize (IH a); lia.
Qed.

Lemma kept_index_lt l a b : (a < b < length (kept l) -> kept_index l a < kept_index l b)%nat.
Proof.
  revert a b. induction l as [|y l IH]; intros a b; unfold kept in *; simpl; [lia|].
  destruct (pred_function y); [destruct b as [|b]; [lia|]; destruct a as [|a]; simpl; [lia|]|];
    intros Ha; specialize (IH a b); lia.
Qed.

Lemma kept_index_lt_sub l a b : (a < b < length (kept l) -> kept_index l a + (b - a) <= kept_index l b)%nat.
Proof.
  intros Hab. remember (b - S a)%nat as n eqn:En. revert b Hab En.
  induction n as [|n IH]; intros b Hab En.
  - assert (b = S a) as -> by lia. pose proof (kept_index_lt l a (S a)). lia.
  - pose proof (IH (b - 1)%nat). pose proof (kept_index_lt l (b - 1) b). lia.
Qed.

Lemma label_distances_length l j ctr : length (label_distances l j ctr) = length l.
Proof. revert j ctr. induction l; intros; simpl; auto. Qed.

(** A kept element is labelled with its way to the left, the others with 0. *)
Lemma label_distances_kept l j ctr a : (0 <= ctr <= j)%Z -> (j + Z.of_nat (length l) < 2 ^ 64)%Z ->
  (a < length (kept l))%nat ->
  label_distances l j ctr !! kept_index l a = Some (j - ctr + Z.of_nat (kept_index l a - a))%Z.
Proof.
  revert j ctr a. induction l as [|y l IH]; intros j ctr a Hc Hj; unfold kept in *; simpl; [lia|].
  simpl in Hj. rewrite (add64_small j 1) by lia. rewrite (add64_small ctr 1) by lia.
  destruct (pred_function y) eqn:Ey; simpl.
  - destruct a as [|a]; intros Ha; simpl.
    + rewrite sub64_small by lia. f_equal. lia.
    + rewrite IH by lia. f_equal. lia.
  - intros Ha. rewrite IH by lia. pose proof (kept_index_ge l a). unfold kept in *. f_equal. lia.
Qed.

Lemma label_distances_other l j ctr p : (p < length l)%nat ->
  (forall a, (a < length (kept l))%nat -> kept_index l a <> p) -> label_distances l j ctr !! p = Some 0%Z.
Proof.
  revert j ctr p. induction l as [|y l IH]; intros j ctr p Hp Ha; unfold kept in *; simpl in *; [lia|].
  destruct (pred_function y) eqn:Ey; simpl in *.
  - destruct p as [|p]; [by destruct (Ha 0%nat); [lia|]|]. simpl. apply IH; [lia|].
    intros a Hl E. apply (Ha (S a)); lia.
  - destruct p as [|p]; [done|]. simpl. apply IH; [lia|]. intros a Hl E. apply (Ha a); lia.
Qed.
End Compact.

(** ** Conditional swaps *)

Lemma cond_swap_length {A} c a b (l : list A) : length (cond_swap c a b l) = length l.
Proof. unfold cond_swap. repeat case_match; by rewrite ?length_insert. Qed.

Lemma cond_swap_perm {A} c a b (l : list A) : cond_swap c a b l ≡ₚ l.
Proof.
  unfold cond_swap. destruct (l !! a) eqn:Ea, (l !! b) eqn:Eb, c; try done. by apply Permutation_insert_swap.
Qed.

Lemma cond_swap_false {A} a b (l : list A) : cond_swap false a b l = l.
Proof. unfold cond_swap. by repeat case_match. Qed.

Lemma cond_swap_lookup {A} a b (l : list A) i : (a < length l)%nat -> (b < length l)%nat ->
  cond_swap true a b l !! i = if decide (i = a) then l !! b else if decide (i = b) then l !! a else l !! i.
Proof.
  intros Ha Hb. unfold cond_swap.
  destruct (lookup_lt_is_Some_2 l a Ha) as [x Ex], (lookup_lt_is_Some_2 l b Hb) as [y Ey]. rewrite Ex, Ey.
  repeat case_decide; subst; rewrite ?list_lookup_insert_eq by (rewrite ?length_insert; done); try congruence.
  - rewrite list_lookup_insert_ne by done. by rewrite list_lookup_insert_eq.
  - by rewrite !list_lookup_insert_ne by done.
Qed.

(** ** The network routes every kept element *)

Section Route.
Context {A : Type} (K : list A) (d : nat -> nat) (len : nat).
Hypothesis Hlen : (Z.of_nat len < 2 ^ 64)%Z.
Hypothesis d_mono : forall a b, (a <= b < length K)%nat -> (d a <= d b)%nat.
Hypothesis d_bound : forall a, (a < length K)%nat -> (a + d a < len)%nat.

(** The place of element [a] before level [i] and, inside the level, before
    its cell [j]. *)
Definition place (i a : nat) : nat := a + d a / 2 ^ i * 2 ^ i.
Definition place_at (i j a : nat) : nat := if (place i a <? j)%nat then place (S i) a else place i a.

Record placed (pos : nat -> nat) (st : list A * list Z) : Prop := {
  placed_data_length : length st.1 = len;
  placed_dist_length : length st.2 = len;
  placed_kept a x : K !! a = Some x -> st.1 !! pos a = Some x /\ st.2 !! pos a = Some (Z.of_nat (pos a - a));
  placed_free p : (p < len)%nat -> (forall a, (a < length K)%nat -> pos a <> p) -> st.2 !! p = Some 0%Z;
}.

Lemma placed_ext pos pos' st : (forall a, (a < length K)%nat -> pos' a = pos a) -> placed pos st -> placed pos' st.
Proof.
  intros E []. split; [done|done| |].
  - intros a x Ha. rewrite E by (by eapply lookup_lt_Some). auto.
  - intros p Hp Hf. apply placed_free0; [done|]. intros a Ha. rewrite <- E by done. auto.
Qed.

Lemma place_lt i a b : (a < b < length K)%nat -> (place i a < place i b)%nat.
Proof.
  intros H. unfold place. assert (d a <= d b)%nat by (apply d_mono; lia).
  pose proof (Nat.Div0.div_le_mono (d a) (d b) (2 ^ i)). nia.
Qed.

Lemma place_inj i a b : (a < length K)%nat -> (b < length K)%nat -> place i a = place i b -> a = b.
Proof.
  intros Ha Hb E. destruct (Nat.lt_trichotomy a b) as [H|[H|H]]; [|done|].
  - pose proof (place_lt i a b (conj H Hb)). lia.
  - pose proof (place_lt i b a (conj H Ha)). lia.
Qed.

(** Clearing one more bit of the distance moves by [2^i] or not at all. *)
Lemma place_succ i a : place i a = (place (S i) a + (if Nat.odd (d a / 2 ^ i) then 2 ^ i else 0))%nat.
Proof.
  unfold place. rewrite Nat.pow_succ_r', (Nat.mul_comm 2), <- Nat.Div0.div_div.
  set (q := (d a / 2 ^ i)%nat). pose proof (Nat.div2_odd q). rewrite Nat.div2_div in H.
  destruct (Nat.odd q); simpl Nat.b2n in H; nia.
Qed.

Lemma place_succ_le i a : (place (S i) a <= place i a)%nat.
Proof. rewrite (place_succ i). lia. Qed.

Lemma place_bound i a : (a < length K)%nat -> (place i a < len)%nat.
Proof.
  intros Ha. pose proof (d_bound a Ha). unfold place.
  pose proof (Nat.Div0.mul_div_le (d a) (2 ^ i)). lia.
Qed.

Lemma place_at_next i j a : place i a <> j -> place_at i (S j) a = place_at i j a.
Proof.
  intros H. unfold place_at. destruct (place i a <? j)%nat eqn:E1, (place i a <? S j)%nat eqn:E2; breflect; lia.
Qed.

(** The swap condition of a cell is the bit of the distance. *)
Lemma distance_bit i a : (i < 64)%nat -> (a < length K)%nat ->
  (Z.land (Z.of_nat (place i a - a) [>>] Z.of_nat i) 1 >? 0)%Z = Nat.odd (d a / 2 ^ i).
Proof.
  intros Hi Ha. unfold place. rewrite shr64_div by lia.
  replace (a + d a / 2 ^ i * 2 ^ i - a)%nat with (d a / 2 ^ i * 2 ^ i)%nat by lia.
  rewrite Nat2Z.inj_mul, Nat2Z.inj_pow, Z.div_mul by (apply Z.pow_nonzero; lia).
  set (q := (d a / 2 ^ i)%nat). change 1%Z with (Z.ones 1). rewrite Z.land_ones by lia.
  rewrite Z.pow_1_r. pose proof (Nat.div2_odd q) as Hq. rewrite Nat.div2_div in Hq.
  replace (Z.of_nat q mod 2)%Z with (Z.of_nat (Nat.b2n (Nat.odd q))); [by destruct (Nat.odd q)|].
  apply (Z.mod_unique _ _ (Z.of_nat (q / 2))); [destruct (Nat.odd q); simpl; lia|lia].
Qed.

Lemma pow2_shift i : (i < 64)%nat -> 1 [<<] Z.of_nat i = Z.of_nat (2 ^ i).
Proof.
  intros Hi. rewrite shl64_small, Z.mul_1_l, Nat2Z.inj_pow; [done|lia|].
  rewrite Z.mul_1_l. split; [lia|]. apply Z.pow_lt_mono_r; lia.
Qed.

Definition moves (i : nat) (x : Z) : bool := (Z.land (x [>>] Z.of_nat i) 1 >? 0)%Z.

Lemma route_cell_stay i (st : list A * list Z) j x : (i < 64)%nat -> (Z.of_nat j < 2 ^ 64)%Z -> st.2 !! j = Some x ->
  moves i x = false -> route_cell i st j = st.
Proof.
  intros Hi Hj Ex Hx. destruct st as [data dist]. unfold route_cell. simpl in Ex. rewrite Ex. cbn [from_option id].
  unfold moves in Hx. rewrite Hx, !cond_swap_false, pow2_shift by done. case_match; [|done]. breflect.
  rewrite sub64_small by lia. pose proof (lookup_lt_Some _ _ _ Ex).
  destruct (lookup_lt_is_Some_2 dist (Z.to_nat (Z.of_nat j - Z.of_nat (2 ^ i)))) as [y Ey]; [lia|].
  rewrite Ey. cbn [from_option id]. by rewrite list_insert_id.
Qed.

Lemma route_cell_move i (st : list A * list Z) p x : (i < 64)%nat -> (Z.of_nat (p + 2 ^ i) < 2 ^ 64)%Z ->
  st.2 !! (p + 2 ^ i)%nat = Some x -> moves i x = true ->
  route_cell i st (p + 2 ^ i) =
    (cond_swap true (p + 2 ^ i) p st.1,
     <[p := x [-] Z.of_nat (2 ^ i)]> (cond_swap true p (p + 2 ^ i) st.2)).
Proof.
  intros Hi Hj Ex Hx. destruct st as [data dist]. unfold route_cell. cbn [fst snd] in *. rewrite Ex. cbn [from_option id].
  unfold moves in Hx. rewrite Hx, pow2_shift by done. pose proof (lookup_lt_Some _ _ _ Ex).
  rewrite (proj2 (Z.geb_le _ _)) by lia. rewrite sub64_small by lia.
  replace (Z.to_nat (Z.of_nat (p + 2 ^ i) - Z.of_nat (2 ^ i))) with p by lia.
  rewrite cond_swap_lookup by lia. rewrite decide_True by done. by rewrite Ex.
Qed.

(** The place an element moves to holds no kept element. *)
Lemma place_at_free i j a b : (a < length K)%nat -> (b < length K)%nat -> place i a = j ->
  Nat.odd (d a / 2 ^ i) = true -> place_at i j b <> place (S i) a.
Proof.
  intros Ha Hb Ej Ho E. pose proof (place_succ i a) as Hs. rewrite Ho in Hs. unfold place_at in E.
  assert (0 < 2 ^ i)%nat by (apply Nat.neq_0_lt_0, Nat.pow_nonzero; lia).
  case_match; breflect; [|lia]. apply place_inj in E as ->; [lia|done|done].
Qed.

Lemma place_at_self i j a : place i a = j -> place_at i j a = j /\ place_at i (S j) a = place (S i) a.
Proof. intros E. unfold place_at. rewrite E, Nat.ltb_irrefl. by rewrite (proj2 (Nat.ltb_lt j (S j))) by lia. Qed.

Lemma place_at_other i j a b : (a < length K)%nat -> (b < length K)%nat -> place i a = j -> b <> a ->
  place_at i (S j) b = place_at i j b /\ place_at i j b <> j.
Proof.
  intros Ha Hb Ej Hn. assert (place i b <> j) by (intros E; apply Hn, (place_inj i); congruence).
  split; [by apply place_at_next|]. unfold place_at. case_match; breflect; [|done].
  pose proof (place_succ_le i b). lia.
Qed.

Lemma route_cell_moved i j st a x : (i < 64)%nat -> (j < len)%nat -> placed (place_at i j) st ->
  K !! a = Some x -> place i a = j -> Nat.odd (d a / 2 ^ i) = true ->
  st.1 !! j = Some x -> st.2 !! j = Some (Z.of_nat (j - a)) -> moves i (Z.of_nat (j - a)) = true ->
  placed (place_at i (S j)) (route_cell i st j).
Proof.
  intros Hi Hj Hp Ex Ej Ho Hx Hdx Hm. pose proof (lookup_lt_Some _ _ _ Ex) as Ha.
  destruct (place_at_self i j a Ej) as [E1 E2]. pose proof (place_succ i a) as Hs. rewrite Ho in Hs.
  pose proof (placed_data_length _ _ Hp) as L1. pose proof (placed_dist_length _ _ Hp) as L2.
  assert (0 < 2 ^ i)%nat by (apply Nat.neq_0_lt_0, Nat.pow_nonzero; lia).
  assert (Hge : (a <= place (S i) a)%nat) by (unfold place; lia).
  set (p := place (S i) a) in *. assert (Ejp : j = (p + 2 ^ i)%nat) by lia.
  assert (Hfree : st.2 !! p = Some 0%Z).
  { apply (placed_free _ _ Hp); [lia|]. intros b Hb. by apply place_at_free. }
  rewrite Ejp in Hdx, Hm |- *. rewrite (route_cell_move i st p _ Hi ltac:(lia) Hdx Hm). rewrite <- Ejp in *.
  rewrite sub64_small by lia. split; cbn [fst snd]; rewrite ?length_insert, ?cond_swap_length; [done|done| |].
  - intros b y Eb. destruct (decide (b = a)) as [->|Hn].
    + rewrite E2, list_lookup_insert_eq by (rewrite cond_swap_length; lia). rewrite cond_swap_lookup by lia.
      rewrite decide_False by lia. rewrite decide_True by done. split; [congruence|f_equal; lia].
    + pose proof (lookup_lt_Some _ _ _ Eb) as Hb. destruct (place_at_other i j a b Ha Hb Ej Hn) as [-> Hne].
      assert (place_at i j b <> p) by by apply place_at_free. destruct (placed_kept _ _ Hp b y Eb) as [Hy Hdy].
      rewrite list_lookup_insert_ne, !cond_swap_lookup by (done || lia). by rewrite !decide_False by done.
  - intros q Hq Hf. assert (p <> q) by (intros ->; by apply (Hf a)).
    rewrite list_lookup_insert_ne, cond_swap_lookup by (done || lia). rewrite decide_False by done.
    case_decide; [done|]. apply (placed_free _ _ Hp); [done|]. intros b Hb. destruct (decide (b = a)) as [->|Hn]; [lia|].
    destruct (place_at_other i j a b Ha Hb Ej Hn) as [<- _]. auto.
Qed.

(** One cell of a level keeps the kept elements at their places. *)
Lemma route_cell_placed i j st : (i < 64)%nat -> (j < len)%nat -> placed (place_at i j) st ->
  placed (place_at i (S j)) (route_cell i st j).
Proof.
  intros Hi Hj Hp.
  destruct (decide (Exists (fun a => place i a = j) (seq 0 (length K)))) as [He|Hno].
  - apply Exists_exists in He as (a & Ha & Ej). apply elem_of_seq in Ha.
    destruct (lookup_lt_is_Some_2 K a) as [x Ex]; [lia|].
    destruct (place_at_self i j a Ej) as [E1 E2]. destruct (placed_kept _ _ Hp a x Ex) as [Hx Hdx].
    rewrite E1 in Hx, Hdx. assert (Hm : moves i (Z.of_nat (j - a)) = Nat.odd (d a / 2 ^ i)).
    { unfold moves. rewrite <- Ej. apply distance_bit; [done|lia]. }
    pose proof (place_succ i a) as Hs. destruct (Nat.odd (d a / 2 ^ i)) eqn:Ho.
    + apply (route_cell_moved i j st a x); auto.
    + rewrite (route_cell_stay i st j (Z.of_nat (j - a))) by (done || lia). apply (placed_ext (place_at i j)); [|done].
      intros b Hb. destruct (decide (b = a)) as [->|Hn]; [lia|]. by apply (place_at_other i j a b); [lia|..].
  - assert (Hf : forall a, (a < length K)%nat -> place i a <> j).
    { intros a Ha E. apply Hno, Exists_exists. exists a. split; [apply elem_of_seq; lia|done]. }
    rewrite (route_cell_stay i st j 0%Z); [|done|lia| |].
    + apply (placed_ext (place_at i j)); [|done]. intros a Ha. by apply place_at_next, Hf.
    + apply (placed_free _ _ Hp); [done|]. intros a Ha. unfold place_at. case_match; breflect; [|by apply Hf].
      pose proof (place_succ_le i a). lia.
    + unfold moves. by rewrite shr64_div, Z.div_0_l by (try apply Z.pow_nonzero; lia).
Qed.

Lemma route_cells_placed i n : forall j st, (i < 64)%nat -> (j + n <= len)%nat -> placed (place_at i j) st ->
  placed (place_at i (j + n)) (fold_left (route_cell i) (seq j n) st).
Proof.
  induction n as [|n IH]; intros j st Hi Hn Hp; simpl; [by rewrite Nat.add_0_r|].
  replace (j + S n)%nat with (S j + n)%nat by lia. apply IH; [done|lia|]. apply route_cell_placed; [done|lia|done].
Qed.

Lemma route_level_placed i st : (i < 64)%nat -> placed (place i) st -> placed (place (S i)) (route_level len st i).
Proof.
  intros Hi Hp. apply (placed_ext (place_at i (0 + len))).
  { intros a Ha. unfold place_at. by rewrite (proj2 (Nat.ltb_lt _ _)) by by apply place_bound. }
  apply route_cells_placed; [done|lia|]. done.
Qed.

Lemma route_levels_placed n : forall i st, (i + n <= 64)%nat -> placed (place i) st ->
  placed (place (i + n)) (fold_left (route_level len) (seq i n) st).
Proof.
  induction n as [|n IH]; intros i st Hn Hp; simpl; [by rewrite Nat.add_0_r|].
  replace (i + S n)%nat with (S i + n)%nat by lia. apply IH; [lia|]. apply route_level_placed; [lia|done].
Qed.

(** After enough levels every kept element is at its rank. *)
Lemma placed_final n st : (len <= 2 ^ n)%nat -> placed (place n) st -> take (length K) st.1 = K.
Proof.
  intros Hn Hp. apply list_eq. intros a. rewrite lookup_take. case_decide as Ha.
  - destruct (lookup_lt_is_Some_2 K a Ha) as [x Ex]. destruct (placed_kept _ _ Hp a x Ex) as [Hx _].
    rewrite Ex, <- Hx. f_equal. unfold place. pose proof (d_bound a Ha). rewrite Nat.div_small; lia.
  - symmetry. apply lookup_ge_None. lia.
Qed.
End Route.

Lemma route_level_perm {A} n i (st : list A * list Z) : (route_level n st i).1 ≡ₚ st.1.
Proof.
  unfold route_level. generalize 0%nat. revert st. induction n as [|n IH]; intros st j; [done|]. simpl. rewrite IH.
  destruct st as [data dist]. unfold route_cell. case_match; [|done]. apply cond_swap_perm.
Qed.

Lemma ocompact_perm {A} (pred : A -> bool) l : ocompact pred l ≡ₚ l.
Proof.
  unfold ocompact. case_match; [|done]. generalize 0%nat. generalize (label_distances pred l 0 0).
  set (len := length l). clearbody len. clear.
  induction (Z.to_nat _) as [|n IH] in l |- *; intros dist j; [done|]. simpl.
  destruct (route_level len (l, dist) j) as [l' dist'] eqn:E. rewrite IH.
  change l' with ((l', dist').1). rewrite <- E. apply (route_level_perm len j (l, dist)).
Qed.

Lemma jasmin_ceil_log2_spec n : (2 <= n < 2 ^ 64)%Z ->
  (0 <= jasmin_ceil_log2 n <= 64)%Z /\ (n <= 2 ^ jasmin_ceil_log2 n)%Z.
Proof.
  intros Hn. unfold jasmin_ceil_log2, lzcnt. rewrite (sub64_small n 1) by lia.
  rewrite (proj2 (Z.eqb_neq _ _)) by lia. pose proof (Z.log2_spec (n - 1) ltac:(lia)) as Hs.
  assert (0 <= Z.log2 (n - 1) < 64)%Z by (split; [apply Z.log2_nonneg|apply Z.log2_lt_pow2; lia]).
  rewrite sub64_small by lia. replace (64 - (63 - Z.log2 (n - 1)))%Z with (Z.succ (Z.log2 (n - 1))) by lia. lia.
Qed.

(** The initial labels place the kept elements where they are. *)
Lemma labels_placed {A} (pred : A -> bool) l : (Z.of_nat (length l) < 2 ^ 64)%Z ->
  placed (kept pred l) (length l) (place (fun a => kept_index pred l a - a)%nat 0) (l, label_distances pred l 0 0).
Proof.
  intros Hl. assert (Hpos : forall a, (a < length (kept pred l))%nat ->
      place (fun a => kept_index pred l a - a)%nat 0 a = kept_index pred l a).
  { intros a Ha. unfold place. rewrite Nat.pow_0_r, Nat.div_1_r. pose proof (kept_index_ge pred l a Ha). lia. }
  split; cbn [fst snd]; [done|apply label_distances_length| |].
  - intros a x Ex. pose proof (lookup_lt_Some _ _ _ Ex) as Ha. rewrite Hpos by done.
    split; [by apply kept_index_lookup|]. rewrite label_distances_kept by (done || lia). by rewrite Z.sub_0_r, Z.add_0_l.
  - intros p Hp Hf. apply label_distances_other; [done|]. intros a Ha E. apply (Hf a Ha). by rewrite Hpos.
Qed.

Lemma kept_index_bound {A} (pred : A -> bool) l a : (a < length (kept pred l) -> kept_index pred l a < length l)%nat.
Proof.
  intros Ha. destruct (lookup_lt_is_Some_2 _ _ Ha) as [x Ex]. eapply lookup_lt_Some, kept_index_lookup, Ex.
Qed.

Lemma ocompact_kept {A} (pred : A -> bool) l : (Z.of_nat (length l) < 2 ^ 64)%Z ->
  take (length (kept pred l)) (ocompact pred l) = kept pred l.
Proof.
  intros Hl. unfold ocompact. case_match eqn:E; breflect.
  2:{ destruct l as [|x [|y l]]; [done| |simpl in E; lia]. unfold kept. simpl. by destruct (pred x). }
  destruct (jasmin_ceil_log2_spec (Z.of_nat (length l))) as [Hr Hn]; [lia|].
  set (d := fun a => (kept_index pred l a - a)%nat).
  assert (Hb : forall a, (a < length (kept pred l))%nat -> (a + d a < length l)%nat).
  { intros a Ha. pose proof (kept_index_bound pred l a Ha). pose proof (kept_index_ge pred l a Ha). unfold d. lia. }
  apply (placed_final _ d (length l) Hb (Z.to_nat (jasmin_ceil_log2 (Z.of_nat (length l))))).
  { apply Nat2Z.inj_le. rewrite Nat2Z.inj_pow, Z2Nat.id by lia. done. }
  apply (route_levels_placed _ d (length l)) with (i := 0%nat); [done| |done|lia|by apply labels_placed].
  intros a b [Hab Hk]. destruct (decide (a = b)) as [->|]; [done|].
  unfold d. pose proof (kept_index_lt_sub pred l a b). lia.
Qed.

Lemma kept_split {A} (pred : A -> bool) l : kept pred l ++ kept (fun x => negb (pred x)) l ≡ₚ l.
Proof.
  unfold kept. induction l as [|x l IH]; [done|]. simpl. destruct (pred x); simpl; [by rewrite IH|].
  by rewrite <- Permutation_middle, IH.
Qed.

Lemma ocompact_spec {A} (pred : A -> bool) l : (Z.of_nat (length l) < 2 ^ 64)%Z ->
  exists rest, ocompact pred l = kept pred l ++ rest /\ rest ≡ₚ kept (fun x => negb (pred x)) l.
Proof.
  intros Hl. exists (drop (length (kept pred l)) (ocompact pred l)).
  assert (E : ocompact pred l = kept pred l ++ drop (length (kept pred l)) (ocompact pred l)).
  { rewrite <- (take_drop (length (kept pred l)) (ocompact pred l)) at 1. by rewrite ocompact_kept. }
  split; [done|]. apply (Permutation_app_inv_l (kept pred l)). rewrite <- E, kept_split. apply ocompact_perm.
Qed.

(** ** Properties *)

(** C21. The compaction network brings the elements that satisfy the predicate
    to the front, in their order, and the others behind them: no two elements
    are routed to the same place, for any length. *)
Theorem ocompact_correct {A} (pred : A -> bool) l : (Z.of_nat (length l) < 2 ^ 64)%Z ->
  exists rest, ocompact pred l = kept pred l ++ rest /\ rest ≡ₚ kept (fun x => negb (pred x)) l.
Proof. apply ocompact_spec. Qed.

Lemma ocompact_correct_witness :
  ocompact Z.odd [2; 3; 4; 6; 5; 7; 8]%Z = [3; 5; 7; 2; 4; 6; 8]%Z /\
  exists rest, ocompact Z.odd [2; 3; 4; 6; 5; 7; 8]%Z = [3; 5; 7]%Z ++ rest /\ rest ≡ₚ [2; 4; 6; 8]%Z.
Proof. split; [reflexivity|]. apply (ocompact_correct Z.odd [2; 3; 4; 6; 5; 7; 8]%Z). reflexivity. Defined.
