(* ===== verification/UtilJasmin.v ===== *)
(** * Register-level helpers ([c/util/util.jinc])

    The branch-free helpers of the code in Jasmin: logarithms, selections at four
    widths, conditional copies and swaps in memory, division by an invariant. *)

From stdpp Require Import list.
From S2P Require Import Prelude Util OCompact.
Local Open Scope Z_scope.

(** ** Definitions *)

Definition jasmin_floor_log2 (n : Z) : Z := 63 [-] lzcnt n.

(** A register of [w] bits; [cond] is a byte. *)
Definition reg (w : Z) (x : Z) : Z := x mod 2 ^ w.

Definition ternary32 (cond a b : Z) : Z :=
  let r := reg 32 (cond - 1) in
  let ext_cond := reg 32 (- cond) in
  Z.lor (Z.land b r) (Z.land a ext_cond).
Definition ternary (cond a b : Z) : Z :=
  let r := reg 64 (cond - 1) in
  let ext_cond := reg 64 (- cond) in
  Z.lor (Z.land b r) (Z.land a ext_cond).

(** [VPBROADCAST] of a word to [lanes] lanes. *)
Fixpoint vpbroadcast (lanes : nat) (x : Z) : Z :=
  match lanes with O => 0 | S lanes => x + 2 ^ 64 * vpbroadcast lanes x end.

Definition ternary128 (cond a b : Z) : Z :=
  let c0 := vpbroadcast 2 (reg 64 (cond - 1)) in
  let c1 := vpbroadcast 2 (reg 64 (- cond)) in
  Z.lor (Z.land a c1) (Z.land b c0).
Definition ternary256 (cond a b : Z) : Z :=
  let c0 := vpbroadcast 4 (reg 64 (cond - 1)) in
  let c1 := vpbroadcast 4 (reg 64 (- cond)) in
  Z.lor (Z.land a c1) (Z.land b c0).

(** Memory as a function from addresses to bytes, read and written in
    little-endian words of [n] bytes. *)
Definition load (n : nat) (m : Z -> Z) (p : Z) : Z := of_le (map (fun i => m (p + Z.of_nat i)) (seq 0 n)).
Definition store (n : nat) (m : Z -> Z) (p v : Z) : Z -> Z := fun q =>
  if (p <=? q) && (q <? p + Z.of_nat n) then nth (Z.to_nat (q - p)) (le_bytes n v) 0 else m q.

Definition jasmin_cond_obv_cpy_u64 (cond dest src : Z) (m : Z -> Z) : Z -> Z :=
  let a := load 8 m dest in let b := load 8 m src in store 8 m dest (ternary cond b a).
Definition jasmin_cond_obv_cpy_u128 (cond dest src : Z) (m : Z -> Z) : Z -> Z :=
  let a := load 16 m dest in let b := load 16 m src in store 16 m dest (ternary128 cond b a).
Definition jasmin_cond_obv_cpy_u256 (cond dest src : Z) (m : Z -> Z) : Z -> Z :=
  let a := load 32 m dest in let b := load 32 m src in store 32 m dest (ternary256 cond b a).

Definition jasmin_cond_obv_swap_u64 (cond a b : Z) (m : Z -> Z) : Z -> Z :=
  let ra := load 8 m a in let rb := load 8 m b in
  let m := store 8 m a (ternary cond rb ra) in store 8 m b (ternary cond ra rb).
Definition jasmin_cond_obv_swap_u128 (cond a b : Z) (m : Z -> Z) : Z -> Z :=
  let ra := load 16 m a in let rb := load 16 m b in
  let m := store 16 m a (ternary128 cond rb ra) in store 16 m b (ternary128 cond ra rb).
Definition jasmin_cond_obv_swap_u256 (cond a b : Z) (m : Z -> Z) : Z -> Z :=
  let ra := load 32 m a in let rb := load 32 m b in
  let m := store 32 m a (ternary256 cond rb ra) in store 32 m b (ternary256 cond ra rb).

Definition jasmin_first_pow2_leq (n : Z) : Z := 1 [<<] (63 [-] lzcnt n).
Definition jasmin_muluh64 (a b : Z) : Z := a * b / 2 ^ 64.
Definition jasmin_ct_div (n m_prime shift1 shift2 : Z) : Z :=
  let t1 := jasmin_muluh64 m_prime n in
  let n := (n [-] t1) [>>] shift1 in
  (t1 [+] n) [>>] shift2.
Definition jasmin_ct_mod (n d m_prime shift1 shift2 : Z) : Z :=
  n [-] (jasmin_ct_div n m_prime shift1 shift2 [*] d).

(** ** Selection *)

(** Masks of all ones and of all zeroes. *)
Lemma masked n a b : 0 <= a < 256 ^ Z.of_nat n -> 0 <= b < 256 ^ Z.of_nat n ->
  Z.lor (Z.land a (256 ^ Z.of_nat n - 1)) (Z.land b 0) = a /\ Z.lor (Z.land a 0) (Z.land b (256 ^ Z.of_nat n - 1)) = b.
Proof.
  intros Ha Hb. assert (forall x, 0 <= x < 256 ^ Z.of_nat n -> Z.land x (256 ^ Z.of_nat n - 1) = x) as Hall.
  { intros x Hx. replace (256 ^ Z.of_nat n) with (2 ^ (8 * Z.of_nat n)) in * by (by rewrite Z.pow_mul_r by lia).
    rewrite Z.sub_1_r, <- Z.ones_equiv, Z.land_ones by lia. by apply Z.mod_small. }
  by rewrite !Hall, !Z.land_0_r, Z.lor_0_l, Z.lor_0_r.
Qed.

(** What a selection at [n] bytes promises. *)
Definition selects (n : nat) (sel : Z -> Z -> Z -> Z) : Prop :=
  forall a b, 0 <= a < 256 ^ Z.of_nat n -> 0 <= b < 256 ^ Z.of_nat n -> sel 1 a b = a /\ sel 0 a b = b.

Lemma ternary32_selects : selects 4 ternary32.
Proof. intros a b Ha Hb. destruct (masked 4 b a Hb Ha). by split. Qed.
Lemma ternary_selects : selects 8 ternary.
Proof. intros a b Ha Hb. destruct (masked 8 b a Hb Ha). by split. Qed.
Lemma ternary128_selects : selects 16 ternary128.
Proof. intros a b Ha Hb. destruct (masked 16 a b Ha Hb). by split. Qed.
Lemma ternary256_selects : selects 32 ternary256.
Proof. intros a b Ha Hb. destruct (masked 32 a b Ha Hb). by split. Qed.

(** ** Memory *)

Lemma load_range n m p : (forall q, is_byte (m q)) -> 0 <= load n m p < 256 ^ Z.of_nat n.
Proof.
  intros Hm. unfold load. set (l := map _ _). replace n with (length l) by (unfold l; by rewrite length_map, length_seq).
  apply of_le_range. apply Forall_map, Forall_true. intros i. apply Hm.
Qed.

Lemma load_ext n m m' p : (forall q, p <= q < p + Z.of_nat n -> m q = m' q) -> load n m p = load n m' p.
Proof. intros H. unfold load. f_equal. apply map_ext_in. intros i [_ ?]%in_seq. apply H. lia. Qed.

Lemma store_outside n m p v q : ~ (p <= q < p + Z.of_nat n) -> store n m p v q = m q.
Proof. intros H. unfold store. case_cond; [|done]. breflect. lia. Qed.

Lemma store_byte n m p v q : (forall q, is_byte (m q)) -> is_byte (store n m p v q).
Proof.
  intros Hm. unfold store. case_cond; [|done]. pose proof (le_bytes_bytes n v) as Hb. rewrite List.Forall_forall in Hb.
  breflect. apply Hb, nth_In. rewrite le_bytes_length. lia.
Qed.

Lemma load_store n m p v : 0 <= v < 256 ^ Z.of_nat n -> load n (store n m p v) p = v.
Proof.
  intros Hv. unfold load. transitivity (of_le (le_bytes n v)); [|by apply of_le_le_bytes]. f_equal. apply (nth_ext _ _ 0 0).
  - by rewrite length_map, length_seq, le_bytes_length.
  - rewrite length_map, length_seq. intros i Hi. rewrite (nth_indep _ 0 (store n m p v (p + Z.of_nat 0))) by (by rewrite length_map, length_seq).
    rewrite (map_nth (fun i => store n m p v (p + Z.of_nat i))), seq_nth by done. unfold store.
    rewrite (proj2 (Z.leb_le _ _)), (proj2 (Z.ltb_lt _ _)) by lia. simpl. by replace (p + Z.of_nat i - p) with (Z.of_nat i) by lia; rewrite Nat2Z.id.
Qed.

(** Storing what was loaded changes nothing. *)
Lemma store_load n m p q : (forall q, is_byte (m q)) -> store n m p (load n m p) q = m q.
Proof.
  intros Hm. unfold store, load. case_cond; [|done]. breflect. set (l := map _ _).
  assert (length l = n) as Hl by (unfold l; by rewrite length_map, length_seq).
  rewrite <- Hl at 1. rewrite le_bytes_of_le by (apply Forall_map, Forall_true; intros i; apply Hm).
  rewrite (nth_indep _ 0 (m (p + Z.of_nat 0))) by lia. unfold l. rewrite (map_nth (fun i => m (p + Z.of_nat i))), seq_nth by lia. f_equal. lia.
Qed.

(** ** Copies and swaps *)

Section Words.
Context (n : nat) (sel : Z -> Z -> Z -> Z) (Hsel : selects n sel) (m : Z -> Z) (Hm : forall q, is_byte (m q)).

(** Both words change places if [cond] is 1, nothing changes if it is 0; the words
    are the same or do not overlap. *)
Lemma swap_words cond a b : cond = 0 \/ cond = 1 -> a = b \/ a + Z.of_nat n <= b \/ b + Z.of_nat n <= a ->
  let m' := store n (store n m a (sel cond (load n m b) (load n m a))) b (sel cond (load n m a) (load n m b)) in
  (cond = 0 -> forall q, m' q = m q) /\
  (cond = 1 -> load n m' a = load n m b /\ load n m' b = load n m a /\
     forall q, ~ (a <= q < a + Z.of_nat n) -> ~ (b <= q < b + Z.of_nat n) -> m' q = m q).
Proof.
  intros Hc Hab m'. pose proof (load_range n m a Hm) as Ra. pose proof (load_range n m b Hm) as Rb.
  destruct (Hsel _ _ Ra Rb) as [S1 S0]. destruct (Hsel _ _ Rb Ra) as [T1 T0]. subst m'. split; intros ->.
  - rewrite S0, T0. assert (forall q, store n m a (load n m a) q = m q) as Hid by (intros; by apply store_load).
    intros q. transitivity (store n m b (load n m b) q); [|by apply store_load]. unfold store at 1 3. case_cond; [done|apply Hid].
  - rewrite S1, T1. split_and!.
    + destruct Hab as [->|Hab]; [by apply load_store|].
      rewrite (load_ext _ _ (store n m a (load n m b))) by (intros; apply store_outside; lia). by apply load_store.
    + by apply load_store.
    + intros q Ha Hb. by rewrite !store_outside.
Qed.

Lemma copy_word cond dest src : cond = 0 \/ cond = 1 -> let m' := store n m dest (sel cond (load n m src) (load n m dest)) in
  load n m' dest = load n m (if cond =? 1 then src else dest) /\ forall q, cond = 0 \/ ~ (dest <= q < dest + Z.of_nat n) -> m' q = m q.
Proof.
  intros Hc m'. pose proof (load_range n m dest Hm) as Ra. pose proof (load_range n m src Hm) as Rb.
  destruct (Hsel _ _ Rb Ra) as [S1 S0]. subst m'. destruct Hc as [->| ->]; simpl.
  - rewrite S0. split; [by apply load_store|]. intros q _. by apply store_load.
  - rewrite S1. split; [by apply load_store|]. intros q [?|Hq]; [done|]. by apply store_outside.
Qed.
End Words.

(** ** Arithmetic *)

Lemma jasmin_floor_log2_spec n : is_u64 n -> 1 <= n -> jasmin_floor_log2 n = Z.log2 n.
Proof.
  intros Hu Hn. pose proof (log2_u64_bound n Hu Hn). unfold jasmin_floor_log2, lzcnt. rewrite (proj2 (Z.eqb_neq _ _)) by lia.
  rewrite sub64_small; lia.
Qed.

Lemma jasmin_ct_div_spec n d c : jasmin_ct_div n (m_prime c) (shift1 c) (shift2 c) = ct_div n d c.
Proof. unfold jasmin_ct_div, ct_div, jasmin_muluh64, muluh64. by rewrite Z.shiftr_div_pow2 by lia. Qed.

(** ** Properties *)

(** C36. The swaps of 8, 16 and 32 bytes: with the condition 1 the two words change
    places and no other byte changes, with 0 no byte changes at all, for words that
    are the same or do not overlap. *)
Theorem jasmin_swap_correct swap n m cond a b :
  (n, swap) = (8%nat, jasmin_cond_obv_swap_u64) \/ (n, swap) = (16%nat, jasmin_cond_obv_swap_u128) \/ (n, swap) = (32%nat, jasmin_cond_obv_swap_u256) ->
  (forall q, is_byte (m q)) -> cond = 0 \/ cond = 1 -> a = b \/ a + Z.of_nat n <= b \/ b + Z.of_nat n <= a ->
  let m' := swap cond a b m in
  (cond = 0 -> forall q, m' q = m q) /\
  (cond = 1 -> load n m' a = load n m b /\ load n m' b = load n m a /\
     forall q, ~ (a <= q < a + Z.of_nat n) -> ~ (b <= q < b + Z.of_nat n) -> m' q = m q).
Proof.
  intros [[= -> ->]|[[= -> ->]|[= -> ->]]] Hm Hc Hab.
  - exact (swap_words 8 ternary ternary_selects m Hm cond a b Hc Hab).
  - exact (swap_words 16 ternary128 ternary128_selects m Hm cond a b Hc Hab).
  - exact (swap_words 32 ternary256 ternary256_selects m Hm cond a b Hc Hab).
Qed.

Lemma jasmin_swap_correct_witness : load 16 (jasmin_cond_obv_swap_u128 1 100 200 (fun q => q mod 256)) 100 = load 16 (fun q => q mod 256) 200.
Proof.
  destruct (jasmin_swap_correct jasmin_cond_obv_swap_u128 16 (fun q => q mod 256) 1 100 200) as [_ H].
  - by right; left.
  - intros q. unfold is_byte. apply Z.mod_pos_bound. lia.
  - by right.
  - right. left. lia.
  - exact (proj1 (H eq_refl)).
Defined.

(** The copies of 8, 16 and 32 bytes write the source's word if the condition is
    1 and change no byte if it is 0, also for words that overlap. *)
Theorem jasmin_copy_correct cpy n m cond dest src :
  (n, cpy) = (8%nat, jasmin_cond_obv_cpy_u64) \/ (n, cpy) = (16%nat, jasmin_cond_obv_cpy_u128) \/ (n, cpy) = (32%nat, jasmin_cond_obv_cpy_u256) ->
  (forall q, is_byte (m q)) -> cond = 0 \/ cond = 1 ->
  let m' := cpy cond dest src m in
  load n m' dest = load n m (if cond =? 1 then src else dest) /\ forall q, cond = 0 \/ ~ (dest <= q < dest + Z.of_nat n) -> m' q = m q.
Proof.
  intros [[= -> ->]|[[= -> ->]|[= -> ->]]] Hm Hc.
  - exact (copy_word 8 ternary ternary_selects m Hm cond dest src Hc).
  - exact (copy_word 16 ternary128 ternary128_selects m Hm cond dest src Hc).
  - exact (copy_word 32 ternary256 ternary256_selects m Hm cond dest src Hc).
Qed.

Lemma jasmin_copy_correct_witness : load 32 (jasmin_cond_obv_cpy_u256 1 100 110 (fun q => q mod 256)) 100 = load 32 (fun q => q mod 256) 110.
Proof.
  destruct (jasmin_copy_correct jasmin_cond_obv_cpy_u256 32 (fun q => q mod 256) 1 100 110) as [H _].
  - by right; right.
  - intros q. unfold is_byte. apply Z.mod_pos_bound. lia.
  - by right.
  - exact H.
Defined.

(** The register versions compute what the C versions do: the logarithm rounded
    down, the power of two below a number, and with the parameters of
    [prep_ct_div] the exact quotient and remainder. *)
Theorem jasmin_arithmetic_correct n d : is_u64 n -> 1 <= n -> 2 <= d <= 2 ^ 63 ->
  let c := prep_ct_div d in
  jasmin_floor_log2 n = floor_log2 n /\ jasmin_first_pow2_leq n = first_pow2_leq n /\
  jasmin_ct_div n (m_prime c) (shift1 c) (shift2 c) = n / d /\ jasmin_ct_mod n d (m_prime c) (shift1 c) (shift2 c) = n mod d.
Proof.
  intros Hu Hn Hd c. pose proof (log2_u64_bound n Hu Hn) as Hl. split_and!.
  - rewrite jasmin_floor_log2_spec by done. by rewrite floor_log2_log2.
  - rewrite first_pow2_leq_log2 by done. unfold jasmin_first_pow2_leq. change (63 [-] lzcnt n) with (jasmin_floor_log2 n).
    pose proof (Z.pow_lt_mono_r 2 (Z.log2 n) 64). rewrite jasmin_floor_log2_spec by done. rewrite shl64_small by lia. lia.
  - rewrite (jasmin_ct_div_spec n d c). by apply ct_div_spec.
  - unfold jasmin_ct_mod. rewrite (jasmin_ct_div_spec n d c). by apply ct_mod_spec.
Qed.

Lemma jasmin_arithmetic_correct_witness : jasmin_floor_log2 1000 = floor_log2 1000 /\ jasmin_first_pow2_leq 1000 = first_pow2_leq 1000.
Proof. destruct (jasmin_arithmetic_correct 1000 7) as (H1 & H2 & _); [done|lia|lia|exact (conj H1 H2)]. Defined.
