(* ===== verification/HalfSipHash.v ===== *)
(** * HalfSipHash-2-4 ([c/halfsiphash/halfsiphash.jinc])

    The keyed hash of the shards, the fixed set and the ACI helpers: the
    routine over a buffer of any length and its specialisation to eight bytes
    of input and output. *)

From S2P Require Import Prelude.
Local Open Scope Z_scope.

(** ** 32-bit words, bytes *)

Definition add32 (x y : Z) : Z := wrap32 (x + y).
Definition shl32 (x s : Z) : Z := wrap32 (Z.shiftl x s).
Definition rotl32 (x r : Z) : Z := Z.lor (wrap32 (Z.shiftl x r)) (Z.shiftr x (32 - r)).

(** The four bytes that [U32T08_LE] stores, and the word of four bytes. *)
Definition U32T08_LE (v : Z) : list Z :=
  [Z.land v 255; Z.land (Z.shiftr v 8) 255; Z.land (Z.shiftr v 16) 255; Z.land (Z.shiftr v 24) 255].
Definition U8T032_LE (b0 b1 b2 b3 : Z) : Z := Z.lor (Z.lor (Z.lor b0 (shl32 b1 8)) (shl32 b2 16)) (shl32 b3 24).

(** ** The hash *)

Record sip := Sip { v0 : Z; v1 : Z; v2 : Z; v3 : Z }.

Definition SIPROUND (s : sip) : sip :=
  let '(Sip v0 v1 v2 v3) := s in
  let v0 := add32 v0 v1 in
  let v1 := rotl32 v1 5 in
  let v1 := Z.lxor v1 v0 in
  let v0 := rotl32 v0 16 in
  let v2 := add32 v2 v3 in
  let v3 := rotl32 v3 8 in
  let v3 := Z.lxor v3 v2 in
  let v0 := add32 v0 v3 in
  let v3 := rotl32 v3 7 in
  let v3 := Z.lxor v3 v0 in
  let v2 := add32 v2 v1 in
  let v1 := rotl32 v1 13 in
  let v1 := Z.lxor v1 v2 in
  let v2 := rotl32 v2 16 in
  Sip v0 v1 v2 v3.

Definition cROUNDS : nat := 2.
Definition dROUNDS : nat := 4.
Definition rounds (n : nat) (s : sip) : sip := Nat.iter n SIPROUND s.

(** The four bytes at offset [o] of a buffer. *)
Definition word_at (l : list Z) (o : nat) : Z :=
  U8T032_LE (nth o l 0) (nth (o + 1) l 0) (nth (o + 2) l 0) (nth (o + 3) l 0).

Definition xor_v0 (s : sip) (c : Z) : sip := Sip (Z.lxor (v0 s) c) (v1 s) (v2 s) (v3 s).
Definition xor_v1 (s : sip) (c : Z) : sip := Sip (v0 s) (Z.lxor (v1 s) c) (v2 s) (v3 s).
Definition xor_v2 (s : sip) (c : Z) : sip := Sip (v0 s) (v1 s) (Z.lxor (v2 s) c) (v3 s).
Definition xor_v3 (s : sip) (c : Z) : sip := Sip (v0 s) (v1 s) (v2 s) (Z.lxor (v3 s) c).

(** [v3 ^= m], the compression rounds, [v0 ^= m]. *)
Definition absorb (s : sip) (m : Z) : sip := xor_v0 (rounds cROUNDS (xor_v3 s m)) m.

(** [while (ni != end)], [n] words from offset [o]. *)
Fixpoint absorb_words (n : nat) (s : sip) (l : list Z) (o : nat) : sip :=
  match n with
  | O => s
  | S n => absorb_words n (absorb s (word_at l o)) l (o + 4)
  end.

Definition sip_init (k : list Z) : sip :=
  let k0 := word_at k 0 in
  let k1 := word_at k 4 in
  Sip (Z.lxor 0 k0) (Z.lxor 0 k1) (Z.lxor 0x6c796765 k0) (Z.lxor 0x74656462 k1).

(** The bytes written to [out]; [inlen] is the length of [inp]. *)
Definition halfsiphash_mem (inp : list Z) (k : list Z) (outlen : Z) : list Z :=
  let inlen := Z.of_nat (length inp) in
  let left := Z.land (wrap32 inlen) 3 in
  let e := Z.to_nat (inlen - left) in
  let b := shl32 (wrap32 inlen) 24 in
  let s := sip_init k in
  let s := if outlen =? 8 then xor_v1 s 0xee else s in
  let s := absorb_words (Z.to_nat ((inlen - left) / 4)) s inp 0 in
  let b := if left >=? 3 then Z.lor b (shl32 (nth (e + 2) inp 0) 16) else b in
  let b := if left >=? 2 then Z.lor b (shl32 (nth (e + 1) inp 0) 8) else b in
  let b := if left >=? 1 then Z.lor b (nth e inp 0) else b in
  let s := absorb s b in
  let s := if outlen =? 8 then xor_v2 s 0xee else xor_v2 s 0xff in
  let s := rounds dROUNDS s in
  let b := Z.lxor (v1 s) (v3 s) in
  let out := U32T08_LE b in
  if negb (outlen =? 4) then
    let s := rounds dROUNDS (xor_v1 s 0xdd) in
    let b := Z.lxor (v1 s) (v3 s) in
    out ++ U32T08_LE b
  else out.

(** The specialisation to eight bytes, which returns a register. *)
Definition halfsiphash_u64 (inp : list Z) (k : list Z) : Z :=
  let b := shl32 8 24 in
  let s := xor_v1 (sip_init k) 0xee in
  let s := absorb_words 2 s inp 0 in
  let s := absorb s b in
  let s := xor_v2 s 0xee in
  let s := rounds dROUNDS s in
  let b := Z.lxor (v1 s) (v3 s) in
  let retval := b in
  let s := rounds dROUNDS (xor_v1 s 0xdd) in
  let b := Z.lxor (v1 s) (v3 s) in
  Z.lor retval (b [<<] 32).

(** ** Ranges *)

Definition sip_wf (s : sip) : Prop := is_u32 (v0 s) /\ is_u32 (v1 s) /\ is_u32 (v2 s) /\ is_u32 (v3 s).

Lemma bits_below n x : 0 <= n -> 0 <= x -> (forall i, n <= i -> Z.testbit x i = false) -> x < 2 ^ n.
Proof.
  intros Hn Hx Hb. destruct (Z.eq_dec x 0) as [->|]; [lia|]. apply Z.log2_lt_pow2; [lia|].
  destruct (Z.lt_ge_cases (Z.log2 x) n) as [|Hge]; [done|]. specialize (Hb _ Hge).
  rewrite Z.bit_log2 in Hb by lia. done.
Qed.

Lemma u32_bit x i : is_u32 x -> 32 <= i -> Z.testbit x i = false.
Proof.
  intros Hx Hi. destruct (Z.eq_dec x 0) as [->|]; [apply Z.bits_0|]. unfold is_u32 in Hx. apply Z.bits_above_log2; [lia|].
  apply Z.lt_le_trans with 32; [apply Z.log2_lt_pow2; lia|done].
Qed.

Lemma wrap32_u32 x : is_u32 (wrap32 x).
Proof. apply Z.mod_pos_bound. done. Qed.

Lemma lxor_u32 x y : is_u32 x -> is_u32 y -> is_u32 (Z.lxor x y).
Proof.
  intros Hx Hy. assert (0 <= Z.lxor x y) by (apply Z.lxor_nonneg; unfold is_u32 in *; lia). split; [done|].
  apply bits_below; [done|done|]. intros i Hi. by rewrite Z.lxor_spec, !u32_bit.
Qed.

Lemma lor_u32 x y : is_u32 x -> is_u32 y -> is_u32 (Z.lor x y).
Proof.
  intros Hx Hy. assert (0 <= Z.lor x y) by (apply Z.lor_nonneg; unfold is_u32 in *; lia). split; [done|].
  apply bits_below; [done|done|]. intros i Hi. by rewrite Z.lor_spec, !u32_bit.
Qed.

Lemma shiftr_u32 x s : 0 <= s -> is_u32 x -> is_u32 (Z.shiftr x s).
Proof.
  intros Hs Hx. assert (0 <= Z.shiftr x s) by (apply Z.shiftr_nonneg; unfold is_u32 in *; lia). split; [done|].
  apply bits_below; [done|done|]. intros i Hi. rewrite Z.shiftr_spec by lia. apply u32_bit; [done|lia].
Qed.

Lemma rotl32_u32 x r : 0 <= r <= 32 -> is_u32 x -> is_u32 (rotl32 x r).
Proof. intros. apply lor_u32; [apply wrap32_u32|apply shiftr_u32; [lia|done]]. Qed.

Create HintDb sip.
#[local] Hint Resolve wrap32_u32 lxor_u32 lor_u32 : sip.
#[local] Hint Extern 1 (is_u32 (rotl32 _ _)) => apply rotl32_u32; [lia|] : sip.
#[local] Hint Extern 1 (is_u32 (add32 _ _)) => apply wrap32_u32 : sip.
#[local] Hint Extern 1 (is_u32 (shl32 _ _)) => apply wrap32_u32 : sip.
#[local] Hint Extern 2 (is_u32 _) => (unfold is_u32; lia) : sip.

Lemma SIPROUND_wf s : sip_wf s -> sip_wf (SIPROUND s).
Proof. destruct s as [a b c d]. intros (? & ? & ? & ?). simpl in *. unfold sip_wf. simpl. split_and!; auto 12 with sip. Qed.

Lemma rounds_wf n s : sip_wf s -> sip_wf (rounds n s).
Proof. intros Hs. induction n as [|n IH]; [done|]. by apply SIPROUND_wf. Qed.

Lemma xor_wf s c : is_u32 c -> sip_wf s ->
  sip_wf (xor_v0 s c) /\ sip_wf (xor_v1 s c) /\ sip_wf (xor_v2 s c) /\ sip_wf (xor_v3 s c).
Proof. intros Hc (? & ? & ? & ?). unfold sip_wf. simpl. auto 12 with sip. Qed.

Lemma xor_v1_wf s c : is_u32 c -> sip_wf s -> sip_wf (xor_v1 s c).
Proof. intros. by destruct (xor_wf s c) as (? & ? & ? & ?). Qed.
Lemma xor_v2_wf s c : is_u32 c -> sip_wf s -> sip_wf (xor_v2 s c).
Proof. intros. by destruct (xor_wf s c) as (? & ? & ? & ?). Qed.

Lemma absorb_wf s m : is_u32 m -> sip_wf s -> sip_wf (absorb s m).
Proof.
  intros Hm Hs. refine (proj1 (xor_wf _ _ Hm _)). apply rounds_wf. exact (proj2 (proj2 (proj2 (xor_wf _ _ Hm Hs)))).
Qed.

Lemma nth_byte l o : Forall is_byte l -> is_byte (nth o l 0).
Proof. revert o. induction l as [|x l IH]; intros [|o] Hl; inversion Hl; subst; simpl; try done; auto. Qed.

Lemma word_at_u32 l o : Forall is_byte l -> is_u32 (word_at l o).
Proof.
  intros Hl. unfold word_at, U8T032_LE. pose proof (nth_byte l o Hl) as Hb. unfold is_byte in Hb. auto 8 with sip.
Qed.

Lemma absorb_words_wf n s l o : Forall is_byte l -> sip_wf s -> sip_wf (absorb_words n s l o).
Proof.
  intros Hl. revert s o. induction n as [|n IH]; intros s o Hs; [done|]. apply IH, absorb_wf; [by apply word_at_u32|done].
Qed.

Lemma sip_init_wf k : Forall is_byte k -> sip_wf (sip_init k).
Proof.
  intros Hk. pose proof (word_at_u32 k 0 Hk). pose proof (word_at_u32 k 4 Hk). unfold sip_wf. simpl. auto 8 with sip.
Qed.

(** ** Bytes of the result *)

Lemma of_le_U32T08_LE v : is_u32 v -> of_le (U32T08_LE v) = v.
Proof.
  intros Hv. unfold is_u32 in Hv. unfold U32T08_LE. change 255 with (Z.ones 8). rewrite !Z.land_ones by lia.
  rewrite !Z.shiftr_div_pow2 by lia. cbn [of_le foldr]. change (2 ^ 8) with 256. change (2 ^ 16) with 65536.
  change (2 ^ 24) with 16777216. change (2 ^ 32) with 4294967296 in Hv. dlia.
Qed.

Lemma lor_high32 a b : is_u32 a -> is_u32 b -> Z.lor a (b [<<] 32) = a + 2 ^ 32 * b.
Proof.
  intros Ha Hb. unfold is_u32 in *. rewrite shl64_small by lia. rewrite Z.lor_comm, lor_shift_add by lia. lia.
Qed.

(** The two words of the result, as bytes and as a register. *)
Lemma digest_eq s1 s2 : sip_wf s1 -> sip_wf s2 ->
  let r := Z.lor (Z.lxor (v1 s1) (v3 s1)) (Z.lxor (v1 s2) (v3 s2) [<<] 32) in
  of_le (U32T08_LE (Z.lxor (v1 s1) (v3 s1)) ++ U32T08_LE (Z.lxor (v1 s2) (v3 s2))) = r /\ is_u64 r.
Proof.
  intros (_ & Ha & _ & Hb) (_ & Hc & _ & Hd).
  pose proof (lxor_u32 _ _ Ha Hb) as H1. pose proof (lxor_u32 _ _ Hc Hd) as H2.
  rewrite of_le_app, !of_le_U32T08_LE, lor_high32 by done. split; [done|]. unfold is_u64, is_u32 in *. lia.
Qed.

#[local] Opaque rounds absorb absorb_words.

(** The states before the two output words, for eight bytes in and out. *)
Definition state_low (inp k : list Z) : sip :=
  rounds dROUNDS (xor_v2 (absorb (absorb_words 2 (xor_v1 (sip_init k) 0xee) inp 0) (shl32 8 24)) 0xee).
Definition state_high (inp k : list Z) : sip := rounds dROUNDS (xor_v1 (state_low inp k) 0xdd).

Lemma state_low_wf inp k : Forall is_byte inp -> Forall is_byte k -> sip_wf (state_low inp k).
Proof.
  intros Hi Hk. apply rounds_wf, xor_v2_wf; [done|]. apply absorb_wf; [done|]. apply absorb_words_wf; [done|].
  apply xor_v1_wf; [done|]. by apply sip_init_wf.
Qed.

Lemma state_high_wf inp k : Forall is_byte inp -> Forall is_byte k -> sip_wf (state_high inp k).
Proof. intros. apply rounds_wf, xor_v1_wf; [done|]. by apply state_low_wf. Qed.

Definition digest (s1 s2 : sip) : Z := Z.lor (Z.lxor (v1 s1) (v3 s1)) (Z.lxor (v1 s2) (v3 s2) [<<] 32).

Lemma halfsiphash_u64_states inp k : halfsiphash_u64 inp k = digest (state_low inp k) (state_high inp k).
Proof. cbv beta zeta delta [halfsiphash_u64 digest state_high state_low]. reflexivity. Qed.

Lemma halfsiphash_mem_8 inp k : length inp = 8%nat ->
  halfsiphash_mem inp k 8 =
    U32T08_LE (Z.lxor (v1 (state_low inp k)) (v3 (state_low inp k))) ++
    U32T08_LE (Z.lxor (v1 (state_high inp k)) (v3 (state_high inp k))).
Proof.
  intros Hl. cbv beta zeta delta [halfsiphash_mem state_high state_low]. rewrite Hl.
  change (Z.land (wrap32 (Z.of_nat 8)) 3) with 0. change (8 =? 8) with true. change (negb (8 =? 4)) with true.
  change (0 >=? 3) with false. change (0 >=? 2) with false. change (0 >=? 1) with false.
  change (Z.to_nat ((Z.of_nat 8 - 0) / 4)) with 2%nat. change (wrap32 (Z.of_nat 8)) with 8. reflexivity.
Qed.

Lemma halfsiphash_u64_spec inp k : length inp = 8%nat -> Forall is_byte inp -> Forall is_byte k ->
  of_le (halfsiphash_mem inp k 8) = halfsiphash_u64 inp k /\ is_u64 (halfsiphash_u64 inp k).
Proof.
  intros Hl Hi Hk. rewrite halfsiphash_mem_8, halfsiphash_u64_states by done.
  exact (digest_eq _ _ (state_low_wf inp k Hi Hk) (state_high_wf inp k Hi Hk)).
Qed.

(** ** Properties *)

(** C40. The register version of the hash, which the shards use, returns the
    number of the eight bytes that the general routine writes for the same
    eight bytes of input. *)
Theorem halfsiphash_u64_correct inp k : length inp = 8%nat -> Forall is_byte inp -> Forall is_byte k ->
  of_le (halfsiphash_mem inp k 8) = halfsiphash_u64 inp k /\ is_u64 (halfsiphash_u64 inp k).
Proof. apply halfsiphash_u64_spec. Qed.

(** On the first vectors of the reference implementation (key [00..07]). *)
Lemma halfsiphash_u64_correct_witness :
  let k := [0; 1; 2; 3; 4; 5; 6; 7] in
  halfsiphash_mem [] k 8 = [0x21; 0x8d; 0x1f; 0x59; 0xb9; 0xb8; 0x3c; 0xc8] /\
  of_le (halfsiphash_mem k k 8) = halfsiphash_u64 k k /\ is_u64 (halfsiphash_u64 k k).
Proof.
  split; [reflexivity|]. apply (halfsiphash_u64_correct [0; 1; 2; 3; 4; 5; 6; 7] [0; 1; 2; 3; 4; 5; 6; 7]); [reflexivity|..];
    repeat constructor; vm_compute; discriminate.
Defined.
