(* ===== verification/ShardedOHTable.v ===== *)
(** * The sharded table ([c/sharded_ohtable/sharded_ohtable.c] and its Jasmin
      files [sharded_ohtable.jinc], [prepare_query_batches.jinc],
      [cmp_functions.jinc], [extract_results_from_batch.jinc])

    A batch of puts or gets is split obliviously over the shards: every shard
    gets the same number of records, the requests of its keys without
    duplicates and dummies behind them.  The answers are merged with the
    clients' requests by a second sort. *)

From S2P Require Import Prelude Errors Util OddEvenSort Statistics PositionMap OramInterface OHTable HalfSipHash OCompact Queue Shard.
Local Open Scope Z_scope.

(** ** Data *)

Record batchable_request := BatchableRequest {
  b_shard_id : Z;
  b_flag : Z;
  b_found : Z;
  b_client_id : Z;
  b_orig_position : Z;
  b_record : list Z;
}.

(** A request in [calloc]ed memory. *)
Definition zero_request : batchable_request :=
  {| b_shard_id := 0; b_flag := 0; b_found := 0; b_client_id := 0; b_orig_position := 0; b_record := replicate RECORD_SIZE 0 |}.

Definition set_shard_flag (r : batchable_request) (shard_id flag : Z) : batchable_request :=
  {| b_shard_id := shard_id; b_flag := flag; b_found := b_found r; b_client_id := b_client_id r;
     b_orig_position := b_orig_position r; b_record := b_record r |}.
Definition set_flag (r : batchable_request) (flag : Z) : batchable_request := set_shard_flag r (b_shard_id r) flag.
Definition set_record (r : batchable_request) (found : Z) (record : list Z) : batchable_request :=
  {| b_shard_id := b_shard_id r; b_flag := b_flag r; b_found := found; b_client_id := b_client_id r;
     b_orig_position := b_orig_position r; b_record := record |}.

(** [struct sharded_ohtable]; every shard comes with the entropy its worker
    draws from. *)
Record sharded_ohtable (RAM : Type) := ShardedOHTable {
  num_shards : nat;
  st_record_size : nat;
  shards : list (shard RAM * entropy);
  hash_key : list Z;
  ct_divisor_step : Z;
  ct_div_consts : ct_div_params;
}.
Arguments ShardedOHTable {RAM}.
Arguments num_shards {RAM}.
Arguments st_record_size {RAM}.
Arguments shards {RAM}.
Arguments hash_key {RAM}.
Arguments ct_divisor_step {RAM}.
Arguments ct_div_consts {RAM}.

Record shard_batched_queries := ShardBatchedQueries {
  batch_size : nat;
  num_client_requests : nat;
  shard_requests : list sharded_ohtable_request;
  client_requests : list batchable_request;
}.

(** ** Comparators ([cmp_functions.jinc]) *)

Definition shard_id_from (r : batchable_request) : Z := b_shard_id r.
Definition flag_from (r : batchable_request) : Z := b_flag r.
Definition key_from (r : batchable_request) : Z := record_key (b_record r).
Definition orig_pos_from (r : batchable_request) : Z := b_orig_position r.

(** One step of the lexicographic comparison: the result of the lower fields
    counts when this field is equal. *)
Definition gate_and_merge (result : bool) (l r : Z) : bool := result && (l =? r) || (l >? r).

Definition cmp_key_flag (lhs rhs : batchable_request) : bool :=
  gate_and_merge (flag_from lhs >? flag_from rhs) (key_from lhs [-] 1) (key_from rhs [-] 1).

Definition cmp_shard_flag_key (lhs rhs : batchable_request) : bool :=
  let result := key_from lhs >? key_from rhs in
  let result := gate_and_merge result (flag_from lhs) (flag_from rhs) in
  gate_and_merge result (shard_id_from lhs) (shard_id_from rhs).

Definition cmp_stable_shard_flag_key (lhs rhs : batchable_request) : bool :=
  let result := orig_pos_from lhs <? orig_pos_from rhs in
  let result := gate_and_merge result (key_from lhs) (key_from rhs) in
  let result := gate_and_merge result (flag_from lhs) (flag_from rhs) in
  gate_and_merge result (shard_id_from lhs) (shard_id_from rhs).

(** The predicate of the compaction reads the low byte of the flag. *)
Definition flag_is_set (r : batchable_request) : bool := negb (Z.land (flag_from r) 255 =? 0).

(** ** Batches *)

(** The eight bytes of a key. *)
Definition u64_bytes (k : Z) : list Z := map (fun i => Z.land (k [>>] (8 * i)) 255) [0; 1; 2; 3; 4; 5; 6; 7].

Section Batches.
Context {RAM : Type} `{ObliviousRam RAM}.
Implicit Types t : sharded_ohtable RAM.

Definition khash t (key : Z) : Z := halfsiphash_u64 (u64_bytes key) (hash_key t).

Definition assign_shard t (r : batchable_request) : batchable_request :=
  set_shard_flag r (ct_div (khash t (key_from r)) (ct_divisor_step t) (ct_div_consts t)) 0.

(** One request of [calculate_batch_size]: the counters of the shards. *)
Definition count_request t (batch_sizes : list Z) (r : batchable_request) : list Z :=
  zip_with (fun n se => n [+] b2z (shard_contains se.1 (khash t (key_from r)))) batch_sizes (shards t).

(** The batch size and the requests, whose shard id and flag are set. *)
Definition calculate_batch_size t (requests : list batchable_request) : Z * list batchable_request :=
  let batch_sizes := fold_left (count_request t) requests (replicate (num_shards t) 0) in
  (fold_left (fun batch_size n => if batch_size <? n then n else batch_size) batch_sizes 0,
   map (assign_shard t) requests).

(** Step 2: the shard ids of the dummies, [b] for each shard. *)
Definition dummy_ids t (b : nat) : list Z := concat (map (fun sh => replicate b (Z.of_nat sh)) (seq 0 (num_shards t))).

(** Step 4: the flags of the requests to keep. *)
Fixpoint keep_loop (b : Z) (prev : batchable_request) (batch_counter : Z) (reqs : list batchable_request) :
    list batchable_request :=
  match reqs with
  | [] => []
  | req :: reqs =>
      let shard_change := negb (shard_id_from req =? shard_id_from prev) in
      let batch_counter := if shard_change then 0 else batch_counter in
      let is_real_request := negb (key_from req =? 0) in
      let duplicate_request := (key_from req =? key_from prev) && is_real_request in
      let keep_request := (batch_counter <? b) && negb duplicate_request || shard_change in
      let req := set_flag req (b2z keep_request) in
      req :: keep_loop b req (if keep_request then batch_counter [+] 1 else batch_counter) reqs
  end.

(** With no request at all the first write of step 4 is outside the array; the
    model has nothing to write to. *)
Definition keep_flags (b : Z) (reqs : list batchable_request) : list batchable_request :=
  match reqs with
  | [] => []
  | first :: reqs => let first := set_flag first 1 in first :: keep_loop b first 1 reqs
  end.

(** [_prepare_query_batches]: the records of the batches, shard by shard. *)
Definition prepare_records (cmp_function : batchable_request -> batchable_request -> bool) t (num_queries : nat)
    (all_requests : list batchable_request) (b : Z) : list (list Z) :=
  let real := map (assign_shard t) (take num_queries all_requests) in
  let dummies := zip_with (fun r sh => set_shard_flag r sh 1) (drop num_queries all_requests) (dummy_ids t (Z.to_nat b)) in
  let all := real ++ dummies in
  let all := osort cmp_function 0 (length all) all in
  let all := ocompact flag_is_set (keep_flags b all) in
  map b_record (take (Z.to_nat b * num_shards t) all).

(** The requests of the shards are handled; the call returns when the waiters
    of all shards are finished. *)
Fixpoint run_requests (ss : list (shard RAM * entropy)) (reqs : list sharded_ohtable_request) :
    option (list (shard RAM * entropy) * list sharded_ohtable_request) :=
  match ss, reqs with
  | (s, e) :: ss, req :: reqs =>
      match shard_handle_request s e req, run_requests ss reqs with
      | Some (s, e, req), Some (ss, reqs) => Some ((s, e) :: ss, req :: reqs)
      | _, _ => None
      end
  | _, _ => Some ([], [])
  end.

Definition with_shards t (ss : list (shard RAM * entropy)) : sharded_ohtable RAM :=
  {| num_shards := num_shards t; st_record_size := st_record_size t; shards := ss; hash_key := hash_key t;
     ct_divisor_step := ct_divisor_step t; ct_div_consts := ct_div_consts t |}.

(** The records of shard [sh]. *)
Definition batch_of (b : nat) (records : list (list Z)) (sh : nat) : list Z := concat (take b (drop (b * sh) records)).

Definition prepare_query_batches t (requests : list batchable_request) (type : sharded_ohtable_request_type) :
    option (sharded_ohtable RAM * shard_batched_queries) :=
  let num_queries := length requests in
  let '(b, requests) := calculate_batch_size t requests in
  let n := Z.to_nat b in
  let all_requests := requests ++ replicate (n * num_shards t) zero_request in
  match
    match type with
    | shard_request_insert => Some (cmp_stable_shard_flag_key, insert_request)
    | shard_request_query => Some (cmp_shard_flag_key, query_request)
    | _ => None
    end
  with
  | None => None
  | Some (cmp_function, request) =>
      let records := prepare_records cmp_function t num_queries all_requests b in
      match run_requests (shards t) (map (fun sh => request (batch_of n records sh) n) (seq 0 (num_shards t))) with
      | None => None
      | Some (ss, reqs) =>
          Some (with_shards t ss,
                {| batch_size := n; num_client_requests := num_queries; shard_requests := reqs; client_requests := requests |})
      end
  end.

(** Query [i] in a [calloc]ed request. *)
Definition new_request (size : nat) (queries : list Z) (i : nat) : batchable_request :=
  {| b_shard_id := 0; b_flag := 0; b_found := 0; b_client_id := 0; b_orig_position := Z.of_nat i;
     b_record := take size (drop (i * size) queries) ++ replicate (RECORD_SIZE - size) 0 |}.

Definition batch_queries t (num_queries : nat) (queries : list Z) (type : sharded_ohtable_request_type) :
    option (sharded_ohtable RAM * shard_batched_queries) :=
  let query_size := match type with shard_request_insert => st_record_size t | _ => 1%nat end in
  prepare_query_batches t (map (new_request query_size queries) (seq 0 num_queries)) type.

(** ** Operations *)

(** The error of the first shard that has one. *)
Fixpoint first_error (reqs : list sharded_ohtable_request) : error_t :=
  match reqs with
  | [] => err_SUCCESS
  | r :: reqs => if is_success (shard_request_error r) then first_error reqs else shard_request_error r
  end.

Definition sharded_ohtable_put_batch t (num_inserts : nat) (records : list Z) : option (error_t * sharded_ohtable RAM) :=
  match batch_queries t num_inserts records shard_request_insert with
  | Some (t, batches) => Some (first_error (shard_requests batches), t)
  | None => None
  end.

(** *** Extraction ([extract_results_from_batch.jinc]) *)

(** Step 1: the responses of the shards without an error, and the error of the
    last shard. *)
Definition response_requests (batch_size : nat) (req : sharded_ohtable_request) : list batchable_request :=
  if is_success (shard_request_error req) then
    map (fun r => set_record (set_flag zero_request 0) 0 (take RECORD_SIZE (drop (r * RECORD_SIZE) (default [] (shard_request_records req)))))
        (seq 0 batch_size)
  else [].

Definition merge_responses (sbq : shard_batched_queries) (n : nat) : list batchable_request :=
  let clients := map (fun r => set_flag r 1) (take (num_client_requests sbq) (client_requests sbq)) in
  let responses := concat (map (response_requests (batch_size sbq)) (shard_requests sbq)) in
  let all := clients ++ responses in
  all ++ replicate (n - length all) zero_request.

(** Step 3: copy the records of the responses into the client requests. *)
Fixpoint copy_loop (prev : batchable_request) (current_record : list Z) (reqs : list batchable_request) : list batchable_request :=
  match reqs with
  | [] => []
  | req :: reqs =>
      let key_changed := negb (key_from req =? key_from prev) in
      let current_record := if key_changed then b_record req else current_record in
      let do_copy := (flag_from req =? 1) && (key_from req =? record_key current_record) &&
                     negb (record_key current_record =? 0) && negb key_changed in
      let req := set_record req (b2z do_copy) (if do_copy then current_record else b_record req) in
      req :: copy_loop req current_record reqs
  end.

Definition copy_records (reqs : list batchable_request) : list batchable_request :=
  match reqs with
  | [] => []
  | first :: reqs =>
      let first := set_record first 0 (b_record first) in
      first :: copy_loop first (b_record first) reqs
  end.

(** Step 4: one result; a record that is not found gets the key [-1]. *)
Definition result_record (req : batchable_request) (result : list Z) : list Z :=
  if negb (Z.land (b_found req) 255 =? 0) then b_record req else <[0%nat := UINT64_MAX]> result.

Definition extract_results_from_batch_jazz (sbq : shard_batched_queries) (results : list (list Z)) (n : nat) : error_t * list (list Z) :=
  let all := merge_responses sbq n in
  let all := osort cmp_key_flag 0 n all in
  let all := ocompact flag_is_set (copy_records all) in
  (List.last (map shard_request_error (shard_requests sbq)) err_SUCCESS,
   zip_with result_record (take (num_client_requests sbq) all) results).

Definition extract_results_from_batch t (sbq : shard_batched_queries) (results : list (list Z)) : error_t * list (list Z) :=
  let n := (batch_size sbq * num_shards t + num_client_requests sbq)%nat in
  extract_results_from_batch_jazz sbq results n.

(** [results] is the caller's array, a record for each query. *)
Definition sharded_ohtable_get_batch t (num_queries : nat) (keys : list Z) (results : list (list Z)) :
    option (error_t * list (list Z) * sharded_ohtable RAM) :=
  match batch_queries t num_queries keys shard_request_query with
  | Some (t, batches) =>
      let '(err, results) := extract_results_from_batch t batches results in Some (err, results, t)
  | None => None
  end.

(** *** Creation, clearing *)

(** The bounds of the shards. *)
Definition step_size (num_shards : nat) : Z := UINT64_MAX / Z.of_nat num_shards.
Definition shard_bounds (num_shards i : nat) : Z * Z :=
  (Z.of_nat i [*] step_size num_shards,
   if (i =? num_shards - 1)%nat then UINT64_MAX else (Z.of_nat i [+] 1) [*] step_size num_shards).

Fixpoint create_shards (record_size num_shards i : nat) (tables : list (ohtable RAM * entropy)) : option (list (shard RAM * entropy)) :=
  match tables with
  | [] => Some []
  | (table, e) :: tables =>
      let '(lb, ub) := shard_bounds num_shards i in
      match shard_create table lb ub record_size e, create_shards record_size num_shards (S i) tables with
      | Some se, Some ss => Some (se :: ss)
      | _, _ => None
      end
  end.

(** The tables are the new tables of the shards. *)
Definition sharded_ohtable_create (record_size : nat) (hash_key : list Z) (tables : list (ohtable RAM * entropy)) :
    option (sharded_ohtable RAM) :=
  let num_shards := length tables in
  match create_shards record_size num_shards 0 tables with
  | Some ss =>
      Some {| num_shards := num_shards; st_record_size := record_size; shards := ss; hash_key := hash_key;
              ct_divisor_step := step_size num_shards; ct_div_consts := prep_ct_div (step_size num_shards) |}
  | None => None
  end.

Definition sharded_ohtable_clear t : option (sharded_ohtable RAM) :=
  match run_requests (shards t) (map (fun _ => clear_request) (shards t)) with
  | Some (ss, _) => Some (with_shards t ss)
  | None => None
  end.

(** Forwarding to a shard: [run i] and [stop i] are the results of [shard_run]
    and [shard_stop] there; [None] is a failed [CHECK]. *)
Definition sharded_ohtable_run_shard (run : nat -> error_t) t (shard_id : nat) : option error_t :=
  if (shard_id <? num_shards t)%nat then Some (run shard_id) else None.
Definition sharded_ohtable_stop_shard (stop : nat -> error_t) t (shard_id : nat) : option error_t :=
  if (shard_id <? num_shards t)%nat then Some (stop shard_id) else None.

(** [create] is [ohtable_statistics_create] for the ORAM of the tables; it
    brings the ORAM's statistics up to date. *)
Definition sharded_ohtable_report_statistics (create : ohtable RAM -> ohtable_statistics * ohtable RAM) t :
    list ohtable_statistics * sharded_ohtable RAM :=
  (map (fun se => (create (table se.1)).1) (shards t),
   with_shards t (map (fun se => (with_table se.1 (create (table se.1)).2, se.2)) (shards t))).
End Batches.
