(* ===== verification/ShardedSpec.v ===== *)
(** * Batches of the sharded table: proofs

    The comparators are strict weak orders; a sorted array falls into the
    groups of the shards; the pass over a group keeps each key once and fills
    the batch with dummies; the batch size has room for all. *)

From S2P Require Import Prelude Errors Util OddEvenSort PositionMap OramInterface OHTable HalfSipHash OCompact Queue Shard ShardedOHTable.
Local Open Scope Z_scope.

(** ** The comparators *)

Lemma gate_and_merge_true result l r : gate_and_merge result l r = true <-> (result = true /\ l = r) \/ l > r.
Proof.
  unfold gate_and_merge. rewrite orb_true_iff, andb_true_iff, Z.eqb_eq, Z.gtb_lt. intuition lia.
Qed.

Lemma cmp_key_flag_true a b : cmp_key_flag a b = true <->
  key_from a [-] 1 > key_from b [-] 1 \/ (key_from a [-] 1 = key_from b [-] 1 /\ flag_from a > flag_from b).
Proof. unfold cmp_key_flag. rewrite gate_and_merge_true, Z.gtb_lt. intuition lia. Qed.

Lemma cmp_shard_flag_key_true a b : cmp_shard_flag_key a b = true <->
  shard_id_from a > shard_id_from b \/ (shard_id_from a = shard_id_from b /\
    (flag_from a > flag_from b \/ (flag_from a = flag_from b /\ key_from a > key_from b))).
Proof. unfold cmp_shard_flag_key. rewrite !gate_and_merge_true, Z.gtb_lt. intuition lia. Qed.

Lemma cmp_stable_true a b : cmp_stable_shard_flag_key a b = true <->
  shard_id_from a > shard_id_from b \/ (shard_id_from a = shard_id_from b /\
    (flag_from a > flag_from b \/ (flag_from a = flag_from b /\
      (key_from a > key_from b \/ (key_from a = key_from b /\ orig_pos_from a < orig_pos_from b))))).
Proof. unfold cmp_stable_shard_flag_key. rewrite !gate_and_merge_true, Z.ltb_lt. intuition lia. Qed.

Ltac order_by H :=
  split; [intros x; apply not_true_is_false; rewrite H; lia
         |intros x y z; rewrite !H; lia
         |intros x y z; rewrite !H; lia].

#[export] Instance cmp_key_flag_order : StrictWeakOrder cmp_key_flag.
Proof. order_by cmp_key_flag_true. Qed.
#[export] Instance cmp_shard_flag_key_order : StrictWeakOrder cmp_shard_flag_key.
Proof. order_by cmp_shard_flag_key_true. Qed.
#[export] Instance cmp_stable_order : StrictWeakOrder cmp_stable_shard_flag_key.
Proof. order_by cmp_stable_true. Qed.

(** What the batching needs of its comparator, for the query and the insert:
    the order of shard, flag and key. *)
Class BatchOrder (gt : batchable_request -> batchable_request -> bool) : Prop := {
  batch_order_swo :: StrictWeakOrder gt;
  batch_order_le a b : gt a b = false ->
    shard_id_from a < shard_id_from b \/ (shard_id_from a = shard_id_from b /\
      (flag_from a < flag_from b \/ (flag_from a = flag_from b /\ key_from a <= key_from b)));
}.

#[export] Instance query_order : BatchOrder cmp_shard_flag_key.
Proof. split; [apply _|]. intros a b. rewrite <- not_true_iff_false, cmp_shard_flag_key_true. lia. Qed.
#[export] Instance insert_order : BatchOrder cmp_stable_shard_flag_key.
Proof. split; [apply _|]. intros a b. rewrite <- not_true_iff_false, cmp_stable_true. lia. Qed.

(** ** Sorted lists *)

Lemma ascending_kept {A} (gt : A -> A -> bool) p l : ascending gt l -> ascending gt (kept p l).
Proof.
  induction l as [|x l IH]; [done|]. intros [Hx Ha]%ascending_cons. specialize (IH Ha). unfold kept in *. simpl.
  destruct (p x); [|done]. intros [|i] [|j] y z Hij Hy Hz; simpl in *; [lia| |lia|by apply (IH i j); [lia|..]].
  injection Hy as <-. apply list_elem_of_lookup_2, list_elem_of_In, filter_In in Hz as [Hz _].
  rewrite Forall_forall in Hx. apply Hx. by apply list_elem_of_In.
Qed.

(** A predicate that can only turn false along the order splits the list. *)
Lemma ascending_split {A} (gt : A -> A -> bool) (p : A -> bool) l : ascending gt l ->
  (forall x y, gt x y = false -> p y = true -> p x = true) ->
  l = kept p l ++ kept (fun x => negb (p x)) l.
Proof.
  intros Ha Hp. induction l as [|x l IH]; [done|]. apply ascending_cons in Ha as [Hx Ha]. specialize (IH Ha).
  unfold kept in *. simpl. destruct (p x) eqn:Ex; simpl; [by f_equal|].
  assert (E : List.filter p l = []).
  { clear IH Ha. induction Hx as [|y l Hy _ IH]; [done|]. simpl. destruct (p y) eqn:Ey; [|done].
    rewrite (Hp x y Hy Ey) in Ex. done. }
  rewrite E in *. simpl in *. by rewrite <- IH.
Qed.

Lemma kept_app {A} (p : A -> bool) l l' : kept p (l ++ l') = kept p l ++ kept p l'.
Proof. apply List.filter_app. Qed.

Lemma kept_ext {A} (p q : A -> bool) l : (forall x, x ∈ l -> p x = q x) -> kept p l = kept q l.
Proof. intros H. apply filter_ext_in. intros x Hx. apply H. by apply list_elem_of_In. Qed.

Lemma kept_kept {A} (p q : A -> bool) l : kept p (kept q l) = kept (fun x => q x && p x) l.
Proof.
  unfold kept. induction l as [|x l IH]; [done|]. simpl. destruct (q x); simpl; [|done]. destruct (p x); by rewrite IH.
Qed.

Lemma elem_of_kept {A} (p : A -> bool) l x : x ∈ kept p l <-> x ∈ l /\ p x = true.
Proof. unfold kept. by rewrite !list_elem_of_In, filter_In. Qed.

Lemma kept_none {A} (p : A -> bool) l : (forall x, x ∈ l -> p x = false) -> kept p l = [].
Proof.
  intros H. unfold kept. induction l as [|x l IH]; [done|]. simpl. rewrite H by left. apply IH. intros. apply H. by right.
Qed.

Lemma kept_all {A} (p : A -> bool) l : (forall x, x ∈ l -> p x = true) -> kept p l = l.
Proof.
  intros H. unfold kept. induction l as [|x l IH]; [done|]. simpl. rewrite H by left. f_equal. apply IH. intros. apply H. by right.
Qed.

Lemma kept_countb {A} (p : A -> bool) l : length (kept p l) = countb p l.
Proof. unfold kept. induction l as [|x l IH]; [done|]. simpl. destruct (p x); simpl; lia. Qed.

#[export] Instance kept_perm {A} (p : A -> bool) : Proper ((≡ₚ) ==> (≡ₚ)) (kept p).
Proof. intros l l' H. unfold kept. induction H; simpl; repeat case_match; eauto using Permutation. Qed.

Lemma kept_map {A B} (f : A -> B) (p : B -> bool) l : kept p (map f l) = map f (kept (fun x => p (f x)) l).
Proof. unfold kept. induction l as [|x l IH]; [done|]. simpl. destruct (p (f x)); simpl; by rewrite IH. Qed.

(** A list sorted by a number below [n] is the concatenation of its groups. *)
Lemma ascending_groups {A} (gt : A -> A -> bool) (f : A -> Z) n l : ascending gt l ->
  (forall x y, gt x y = false -> f x <= f y) -> (forall x, x ∈ l -> 0 <= f x < Z.of_nat n) ->
  l = concat (map (fun v => kept (fun x => f x =? Z.of_nat v) l) (seq 0 n)).
Proof.
  intros Ha Hm. revert l Ha. induction n as [|n IH]; intros l Ha Hf.
  { destruct l as [|x l]; [done|]. specialize (Hf x ltac:(left)). lia. }
  rewrite seq_S, map_app, concat_app. simpl. rewrite app_nil_r.
  rewrite (ascending_split gt (fun x => f x <? Z.of_nat n) l Ha) at 1.
  2:{ intros x y H%Hm. rewrite !Z.ltb_lt. lia. }
  f_equal.
  - rewrite (IH (kept (fun x => f x <? Z.of_nat n) l)) at 1.
    + f_equal. apply map_ext_in. intros v Hv%in_seq. rewrite kept_kept. apply kept_ext. intros x Hx. lia.
    + by apply ascending_kept.
    + intros x [Hx E]%elem_of_kept. breflect. specialize (Hf x Hx). lia.
  - apply kept_ext. intros x Hx. specialize (Hf x Hx). lia.
Qed.

(** A sort of the whole array. *)
Lemma osort_all {A} (gt : A -> A -> bool) `{!StrictWeakOrder gt} l :
  osort gt 0 (length l) l ≡ₚ l /\ ascending gt (osort gt 0 (length l) l).
Proof.
  rewrite osort_msort. split; [apply odd_even_msort_perm|].
  destruct (odd_even_msort_spec gt 0 (length l) l) as (s & -> & _ & Ha); [lia|]. by rewrite drop_all, app_nil_r.
Qed.

(** ** The pass that keeps requests *)

(** A group without the requests whose key is that of the one before. *)
Fixpoint dedup (prev : Z) (l : list batchable_request) : list batchable_request :=
  match l with
  | [] => []
  | x :: l => if (key_from x =? prev) && negb (key_from x =? 0) then dedup (key_from x) l else x :: dedup (key_from x) l
  end.
Definition dedup_group (g : list batchable_request) : list batchable_request :=
  match g with [] => [] | x :: g => x :: dedup (key_from x) g end.

(** The records that the pass keeps. *)
Definition kept_records (b : Z) (prev : batchable_request) (c : Z) (l : list batchable_request) : list (list Z) :=
  map b_record (kept flag_is_set (keep_loop b prev c l)).

Lemma flag_is_set_b2z r c : flag_is_set (set_flag r (b2z c)) = c.
Proof. by destruct c. Qed.

Lemma kept_records_cons b prev c x l : kept_records b prev c (x :: l) =
  let change := negb (shard_id_from x =? shard_id_from prev) in
  let c := if change then 0 else c in
  let keep := (c <? b) && negb ((key_from x =? key_from prev) && negb (key_from x =? 0)) || change in
  (if keep then [b_record x] else []) ++ kept_records b (set_flag x (b2z keep)) (if keep then c [+] 1 else c) l.
Proof.
  unfold kept_records at 1. cbn [keep_loop]. cbv zeta. set (keep := (_ || _)%bool). unfold kept. cbn [List.filter].
  rewrite flag_is_set_b2z. destruct keep; done.
Qed.

(** Inside a group. *)
Lemma kept_records_same b l : forall prev c rest, 0 <= b < 2 ^ 64 -> 0 <= c -> (c <= b) ->
  (forall x, x ∈ l -> shard_id_from x = shard_id_from prev) ->
  exists p' c', shard_id_from p' = shard_id_from prev /\ 0 <= c' <= b /\
    kept_records b prev c (l ++ rest) =
      map b_record (take (Z.to_nat (b - c)) (dedup (key_from prev) l)) ++ kept_records b p' c' rest.
Proof.
  induction l as [|x l IH]; intros prev c rest Hb Hc0 Hc Hl.
  { exists prev, c. split_and!; [done..|]. simpl. by rewrite take_nil. }
  pose proof (Hl x ltac:(left)) as Hx. cbn [app]. rewrite kept_records_cons. cbv zeta.
  rewrite Hx, Z.eqb_refl. cbn [negb]. rewrite orb_false_r. cbn [dedup].
  set (dup := (key_from x =? key_from prev) && negb (key_from x =? 0)).
  assert (Hrec : forall k c2, 0 <= c2 <= b -> exists p' c', shard_id_from p' = shard_id_from prev /\ 0 <= c' <= b /\
    kept_records b (set_flag x k) c2 (l ++ rest) =
      map b_record (take (Z.to_nat (b - c2)) (dedup (key_from x) l)) ++ kept_records b p' c' rest).
  { intros k c2 Hc2. destruct (IH (set_flag x k) c2 rest Hb) as (p' & c' & Hp & Hc' & E); [lia|lia| |].
    - intros y Hy. rewrite (Hl y) by by right. exact (eq_sym Hx).
    - exists p', c'. split; [exact (eq_trans Hp Hx)|]. split; [done|exact E]. }
  destruct dup; cbn [negb].
  - rewrite andb_false_r. cbn [app]. apply Hrec. lia.
  - rewrite andb_true_r. destruct (c <? b) eqn:Ecb; breflect; cbn [app].
    + rewrite add64_small by lia. destruct (Hrec (b2z true) (c + 1)) as (p' & c' & Hp & Hc' & E); [lia|].
      exists p', c'. split_and!; [done|lia|lia|]. rewrite E.
      replace (Z.to_nat (b - c)) with (S (Z.to_nat (b - (c + 1)))) by lia. done.
    + destruct (Hrec (b2z false) c) as (p' & c' & Hp & Hc' & E); [lia|]. exists p', c'. split_and!; [done|lia|lia|].
      rewrite E. replace (Z.to_nat (b - c)) with 0%nat by lia. done.
Qed.

(** A group that starts with a new shard. *)
Lemma kept_records_group b prev c x g rest : 1 <= b < 2 ^ 64 -> shard_id_from x <> shard_id_from prev ->
  (forall y, y ∈ g -> shard_id_from y = shard_id_from x) ->
  exists p' c', shard_id_from p' = shard_id_from x /\
    kept_records b prev c (x :: g ++ rest) =
      map b_record (take (Z.to_nat b) (dedup_group (x :: g))) ++ kept_records b p' c' rest.
Proof.
  intros Hb Hx Hg. rewrite kept_records_cons. cbv zeta. apply Z.eqb_neq in Hx. rewrite Hx. cbn [negb]. rewrite orb_true_r.
  change (0 [+] 1) with 1. destruct (kept_records_same b g (set_flag x (b2z true)) 1 rest) as (p' & c' & Hp & _ & E);
    [lia|lia|lia|done|]. exists p', c'. split; [done|]. rewrite E.
  replace (Z.to_nat b) with (S (Z.to_nat (b - 1))) by lia. done.
Qed.

(** Groups of different shards, one after the other. *)
Definition group_of (id : Z) (g : list batchable_request) : Prop := g <> [] /\ forall x, x ∈ g -> shard_id_from x = id.

Lemma kept_records_groups b (gs : list (list batchable_request)) : forall i prev c, 1 <= b < 2 ^ 64 ->
  shard_id_from prev < Z.of_nat i -> (forall j g, gs !! j = Some g -> group_of (Z.of_nat (i + j)) g) ->
  kept_records b prev c (concat gs) = map b_record (concat (map (fun g => take (Z.to_nat b) (dedup_group g)) gs)).
Proof.
  induction gs as [|g gs IH]; intros i prev c Hb Hp Hg; [done|]. destruct (Hg 0%nat g eq_refl) as [Hne Hid].
  rewrite Nat.add_0_r in Hid. destruct g as [|x g]; [done|]. cbn [concat app map].
  pose proof (Hid x ltac:(left)) as Hx.
  destruct (kept_records_group b prev c x g (concat gs)) as (p' & c' & Hp' & ->); [done|lia| |].
  - intros y Hy. rewrite Hx. apply Hid. by right.
  - rewrite map_app. f_equal. apply (IH (S i)); [done|lia|]. intros j g' Hj.
    replace (S i + j)%nat with (i + S j)%nat by lia. by apply Hg.
Qed.

Lemma keep_flags_groups b (gs : list (list batchable_request)) : 1 <= b < 2 ^ 64 ->
  (forall j g, gs !! j = Some g -> group_of (Z.of_nat j) g) ->
  map b_record (kept flag_is_set (keep_flags b (concat gs))) =
    map b_record (concat (map (fun g => take (Z.to_nat b) (dedup_group g)) gs)).
Proof.
  intros Hb Hg. destruct gs as [|g gs]; [done|]. destruct (Hg 0%nat g eq_refl) as [Hne Hid].
  destruct g as [|x g]; [done|]. cbn [concat app keep_flags map].
  unfold kept at 1. cbn [List.filter]. change (flag_is_set (set_flag x 1)) with true. cbn [map].
  change (map b_record (List.filter flag_is_set (keep_loop b (set_flag x 1) 1 (g ++ concat gs))))
    with (kept_records b (set_flag x 1) 1 (g ++ concat gs)).
  pose proof (Hid x ltac:(left)) as Hx.
  destruct (kept_records_same b g (set_flag x 1) 1 (concat gs)) as (p' & c' & Hp' & _ & ->); [lia|lia|lia| |].
  - intros y Hy. transitivity (Z.of_nat 0); [apply Hid; by right|exact (eq_sym Hx)].
  - assert (Hs : shard_id_from p' < Z.of_nat 1).
    { rewrite Hp'. change (shard_id_from (set_flag x 1)) with (shard_id_from x). lia. }
    rewrite (kept_records_groups b gs 1 p' c' Hb Hs) by (intros j g' Hj; by apply (Hg (S j))).
    rewrite map_app. replace (Z.to_nat b) with (S (Z.to_nat (b - 1))) by lia. done.
Qed.

(** ** The groups of the sorted requests *)

Definition zero_record : list Z := replicate RECORD_SIZE 0.
Definition dummy_request (sh : Z) : batchable_request := set_shard_flag zero_request sh 1.

Lemma dedup_dummies l n id : forall k, dedup k (l ++ replicate n (dummy_request id)) = dedup k l ++ replicate n (dummy_request id).
Proof.
  induction l as [|x l IH]; intros k; cbn [app dedup].
  - revert k. induction n as [|n IH]; intros k; [done|]. cbn [replicate dedup].
    change (key_from (dummy_request id)) with 0. cbn [Z.eqb negb]. rewrite andb_false_r. by rewrite IH.
  - rewrite IH. by destruct (_ && _).
Qed.

Lemma dedup_group_dummies l n id :
  dedup_group (l ++ replicate n (dummy_request id)) = dedup_group l ++ replicate n (dummy_request id).
Proof.
  destruct l as [|x l]; cbn [app dedup_group]; [|by rewrite dedup_dummies].
  destruct n as [|n]; [done|]. cbn [replicate dedup_group]. f_equal. exact (dedup_dummies [] n id _).
Qed.

Lemma dedup_length k l : (length (dedup k l) <= length l)%nat.
Proof. revert k. induction l as [|x l IH]; intros k; [done|]. simpl. specialize (IH (key_from x)). case_match; simpl; lia. Qed.
Lemma dedup_group_length l : (length (dedup_group l) <= length l)%nat.
Proof. destruct l as [|x l]; [done|]. simpl. pose proof (dedup_length (key_from x) l). lia. Qed.

Lemma take_pad {A} b (l : list A) x : (length l <= b)%nat -> take b (l ++ replicate b x) = l ++ replicate (b - length l) x.
Proof.
  intros Hl. rewrite take_app. rewrite take_ge by done. f_equal. rewrite take_replicate. f_equal. lia.
Qed.

Section Prepare.
Context {RAM : Type} `{ObliviousRam RAM}.
Context (gt : batchable_request -> batchable_request -> bool) `{!BatchOrder gt}.
Context (t : sharded_ohtable RAM) (b : nat) (reals : list batchable_request).
Hypothesis reals_flag : forall r, r ∈ reals -> flag_from r = 0.
Hypothesis reals_id : forall r, r ∈ reals -> 0 <= shard_id_from r < Z.of_nat (num_shards t).
Hypothesis room : forall sh, (countb (fun r => (shard_id_from r =? Z.of_nat sh)%Z) reals <= b)%nat.
Hypothesis b_pos : (1 <= b)%nat.

Definition all_dummies : list batchable_request := map dummy_request (dummy_ids t b).

Lemma dummy_ids_length : length (dummy_ids t b) = (b * (num_shards t))%nat.
Proof.
  unfold dummy_ids. rewrite (length_concat_uniform _ b); [rewrite length_map, length_seq; lia|].
  apply Forall_map, Forall_forall. intros sh _. apply length_replicate.
Qed.

Lemma kept_dummies sh : (sh < (num_shards t))%nat ->
  kept (fun r => shard_id_from r =? Z.of_nat sh) all_dummies = replicate b (dummy_request (Z.of_nat sh)).
Proof.
  intros Hsh. unfold all_dummies, dummy_ids. rewrite kept_map.
  assert (E : forall i n, kept (fun x => shard_id_from (dummy_request x) =? Z.of_nat sh)
      (concat (map (fun sh => replicate b (Z.of_nat sh)) (seq i n))) =
      if decide (i <= sh < i + n)%nat then replicate b (Z.of_nat sh) else []).
  { intros i n. revert i. induction n as [|n IH]; intros i; [by rewrite decide_False by lia|].
    cbn [seq map concat]. rewrite kept_app, IH. destruct (decide (i = sh)) as [->|Hne].
    - rewrite (decide_False (P := (S sh <= sh < S sh + n)%nat)) by lia. rewrite decide_True by lia. rewrite app_nil_r.
      apply kept_all. intros x [-> _]%elem_of_replicate. apply Z.eqb_refl.
    - rewrite kept_none.
      + repeat case_decide; done || lia.
      + intros x [-> _]%elem_of_replicate. apply Z.eqb_neq. cbn. lia. }
  rewrite E, decide_True by lia. by apply fmap_replicate.
Qed.

Lemma dummy_flag r : r ∈ all_dummies -> flag_from r = 1 /\ 0 <= shard_id_from r < Z.of_nat (num_shards t).
Proof.
  intros (id & -> & Hid)%list_elem_of_fmap. split; [done|]. unfold dummy_ids in Hid. rewrite list_elem_of_In in Hid.
  apply in_concat in Hid as (l & Hl & Hid). apply in_map_iff in Hl as (sh & <- & Hsh%in_seq).
  apply list_elem_of_In, elem_of_replicate in Hid as [-> _]. cbn. lia.
Qed.

(** The requests of shard [sh] in a sorted arrangement [l]: first the real
    ones, then the dummies. *)
Definition group (l : list batchable_request) (sh : nat) := kept (fun r => shard_id_from r =? Z.of_nat sh) l.
Definition real_group (l : list batchable_request) (sh : nat) := kept (fun r => flag_from r =? 0) (group l sh).

Lemma real_group_perm l sh : l ≡ₚ reals ++ all_dummies -> (sh < (num_shards t))%nat ->
  real_group l sh ≡ₚ kept (fun r => shard_id_from r =? Z.of_nat sh) reals.
Proof.
  intros Hl Hsh. unfold real_group, group. rewrite Hl, kept_app, kept_dummies, kept_app by done.
  rewrite (kept_none _ (replicate _ _)) by (intros x [-> _]%elem_of_replicate; done). rewrite app_nil_r.
  rewrite kept_all; [done|]. intros r [Hr _]%elem_of_kept. apply Z.eqb_eq. auto.
Qed.

Lemma group_split l sh : l ≡ₚ reals ++ all_dummies -> ascending gt l -> (sh < (num_shards t))%nat ->
  group l sh = real_group l sh ++ replicate b (dummy_request (Z.of_nat sh)).
Proof.
  intros Hl Ha Hsh. assert (Hflag : forall r, r ∈ l -> flag_from r = 0 \/ flag_from r = 1).
  { intros r. rewrite Hl, elem_of_app. intros [Hr|Hr]; [left; auto|right; by apply dummy_flag]. }
  assert (Hg : group l sh = kept (fun r => flag_from r <? 1) (group l sh) ++ kept (fun r => negb (flag_from r <? 1)) (group l sh)).
  { pose proof (ascending_kept gt (fun r => shard_id_from r =? Z.of_nat sh) l Ha) as Hag. fold (group l sh) in Hag.
    assert (Hin : forall r, r ∈ group l sh -> shard_id_from r = Z.of_nat sh) by (intros r [_ ?%Z.eqb_eq]%elem_of_kept; done).
    apply (ascending_split (fun x y => gt x y || negb (shard_id_from x =? shard_id_from y))).
    - intros i j x y Hij Hx Hy. rewrite (Hag i j x y Hij Hx Hy).
      rewrite (Hin x) by (by eapply list_elem_of_lookup_2). rewrite (Hin y) by (by eapply list_elem_of_lookup_2). by rewrite Z.eqb_refl.
    - intros x y E. breflect. apply batch_order_le in H0. rewrite !Z.ltb_lt. lia. }
  rewrite Hg. unfold real_group. f_equal.
  - apply kept_ext. intros r [Hr _]%elem_of_kept. destruct (Hflag r Hr) as [->| ->]; done.
  - symmetry. apply replicate_Permutation. symmetry. unfold group. rewrite Hl, kept_app, kept_dummies, kept_app by done.
    rewrite (kept_none _ (kept _ reals)).
    + by rewrite kept_all by (intros x [-> _]%elem_of_replicate; done).
    + intros r [Hr _]%elem_of_kept. by rewrite reals_flag.
Qed.

(** The batch of a shard: its keys once each, and dummies. *)
Definition batch (l : list batchable_request) (sh : nat) : list (list Z) :=
  let g := dedup_group (real_group l sh) in map b_record g ++ replicate (b - length g) zero_record.

Lemma real_group_length l sh : l ≡ₚ reals ++ all_dummies -> (sh < num_shards t)%nat ->
  (length (dedup_group (real_group l sh)) <= b)%nat.
Proof.
  intros Hl Hsh. etransitivity; [apply dedup_group_length|].
  rewrite (Permutation_length (real_group_perm l sh Hl Hsh)), kept_countb. apply room.
Qed.

Lemma batch_length l sh : l ≡ₚ reals ++ all_dummies -> (sh < num_shards t)%nat -> length (batch l sh) = b.
Proof.
  intros Hl Hsh. unfold batch. rewrite length_app, length_map, length_replicate.
  pose proof (real_group_length l sh Hl Hsh). lia.
Qed.

Lemma keep_flags_batches l : l ≡ₚ reals ++ all_dummies -> ascending gt l -> Z.of_nat b < 2 ^ 64 ->
  map b_record (kept flag_is_set (keep_flags (Z.of_nat b) l)) = concat (map (batch l) (seq 0 (num_shards t))).
Proof.
  intros Hl Ha Hb. rewrite (ascending_groups gt shard_id_from (num_shards t) l Ha) at 1.
  - rewrite keep_flags_groups; [|lia|].
    + rewrite map_map, Nat2Z.id, concat_map, map_map. f_equal. apply map_ext_in. intros sh Hsh%in_seq.
      change (kept _ l) with (group l sh). rewrite group_split by (done || lia). rewrite dedup_group_dummies.
      rewrite take_pad by (apply real_group_length; done || lia). unfold batch. rewrite map_app. f_equal. apply fmap_replicate.
    + intros sh g Hg. apply list_lookup_fmap_Some in Hg as (sh' & -> & [-> Hsh]%lookup_seq).
      change (kept _ l) with (group l sh). rewrite group_split by (done || lia). split.
      * destruct b; [lia|]. simpl. intros E. by destruct (app_cons_not_nil _ _ _ (eq_sym E)).
      * rewrite <- group_split by (done || lia). by intros r [_ ?%Z.eqb_eq]%elem_of_kept.
  - intros x y Hxy%batch_order_le. lia.
  - intros r. rewrite Hl, elem_of_app. intros [Hr|Hr]; [auto|by apply dummy_flag].
Qed.

Lemma keep_loop_length c p l : forall k, length (keep_loop c p k l) = length l.
Proof. revert p. induction l as [|x l IH]; intros p k; [done|]. cbn [keep_loop length]. by rewrite IH. Qed.
Lemma keep_flags_length c l : length (keep_flags c l) = length l.
Proof. destruct l as [|x l]; [done|]. cbn [keep_flags length]. by rewrite keep_loop_length. Qed.

Lemma compact_batches l : l ≡ₚ reals ++ all_dummies -> ascending gt l -> Z.of_nat (length l) < 2 ^ 64 -> Z.of_nat b < 2 ^ 64 ->
  map b_record (take (b * num_shards t) (ocompact flag_is_set (keep_flags (Z.of_nat b) l))) =
    concat (map (batch l) (seq 0 (num_shards t))).
Proof.
  intros Hl Ha Hlen Hb. pose proof (keep_flags_batches l Hl Ha Hb) as E.
  assert (En : length (kept flag_is_set (keep_flags (Z.of_nat b) l)) = (b * num_shards t)%nat).
  { rewrite <- (length_map b_record), E. rewrite (length_concat_uniform _ b).
    - rewrite length_map, length_seq. lia.
    - apply Forall_map, Forall_forall. intros sh Hsh%list_elem_of_In%in_seq. apply batch_length; [done|lia]. }
  rewrite <- En, ocompact_kept; [done|]. by rewrite keep_flags_length.
Qed.
End Prepare.

(** The array that the preparation starts from. *)
Lemma prepare_records_spec {RAM} `{ObliviousRam RAM} gt `{!BatchOrder gt} (t : sharded_ohtable RAM) reqs b :
  let reals := map (assign_shard t) reqs in
  (forall r, r ∈ reals -> 0 <= shard_id_from r < Z.of_nat (num_shards t)) ->
  (forall sh, (countb (fun r => (shard_id_from r =? Z.of_nat sh)%Z) reals <= b)%nat) -> (1 <= b)%nat ->
  Z.of_nat (length reqs + b * num_shards t) < 2 ^ 64 -> Z.of_nat b < 2 ^ 64 ->
  exists l, l ≡ₚ reals ++ all_dummies t b /\ ascending gt l /\
    prepare_records gt t (length reqs) (reqs ++ replicate (b * num_shards t) zero_request) (Z.of_nat b) =
      concat (map (batch b l) (seq 0 (num_shards t))).
Proof.
  intros reals Hid Hroom Hpos Hn Hb. unfold prepare_records. rewrite take_app_length, drop_app_length, Nat2Z.id.
  assert (Ed : zip_with (fun r sh => set_shard_flag r sh 1) (replicate (b * num_shards t) zero_request) (dummy_ids t b) = all_dummies t b).
  { rewrite <- (dummy_ids_length t b Hpos). unfold all_dummies. generalize (dummy_ids t b) as ids.
    induction ids as [|id ids IH]; [done|]. simpl. by rewrite IH. }
  rewrite Ed. fold reals. set (all := reals ++ all_dummies t b). exists (osort gt 0 (length all) all).
  destruct (osort_all gt all) as [Hp Ha].
  split; [done|]. split; [done|]. apply (compact_batches gt t b reals); try done.
  - intros r (r' & -> & _)%list_elem_of_fmap. done.
  - rewrite (Permutation_length Hp). unfold all, reals, all_dummies. rewrite length_app, !length_map, dummy_ids_length by done. done.
Qed.

(** ** Without duplicates *)

Lemma dedup_sub k l x : x ∈ dedup k l -> x ∈ l.
Proof.
  revert k. induction l as [|y l IH]; intros k; [done|]. simpl. case_match; [intros Hx; right; eauto|].
  rewrite !elem_of_cons. intros [->|Hx]; eauto.
Qed.

Lemma dedup_group_sub l x : x ∈ dedup_group l -> x ∈ l.
Proof. destruct l as [|y l]; [done|]. simpl. rewrite !elem_of_cons. intros [->|Hx]; eauto using dedup_sub. Qed.

(** Every request is represented by the first request of its key. *)
Lemma dedup_represents gt l : forall p, ascending gt (p :: l) -> forall x, x ∈ p :: l ->
  exists y, y ∈ p :: dedup (key_from p) l /\ key_from y = key_from x /\ (y = x \/ gt y x = false).
Proof.
  induction l as [|z l IH]; intros p Ha x Hx; [apply list_elem_of_singleton in Hx as ->; exists p; split; [left|auto]|].
  apply elem_of_cons in Hx as [->|Hx]; [exists p; split; [left|auto]|].
  apply ascending_cons in Ha as [Hp Ha]. inversion_clear Hp as [|? ? Hpz Hpl]. cbn [dedup].
  destruct ((key_from z =? key_from p) && negb (key_from z =? 0)) eqn:Ed.
  - apply andb_prop in Ed as [Ek%Z.eqb_eq _]. rewrite Ek. apply elem_of_cons in Hx as [->|Hx].
    + exists p. split; [left|]. auto.
    + apply IH; [|by right]. apply ascending_cons in Ha as [_ Ha]. intros [|i] [|j] u v Hij Hu Hv; simpl in *; [lia| |lia|].
      * injection Hu as <-. rewrite Forall_forall in Hpl. eapply Hpl, list_elem_of_lookup_2, Hv.
      * by apply (Ha i j); [lia|..].
  - destruct (IH z Ha x Hx) as (y & Hy & Hr). exists y. split; [by right|done].
Qed.

Lemma dedup_group_represents gt l x : ascending gt l -> x ∈ l ->
  exists y, y ∈ dedup_group l /\ key_from y = key_from x /\ (y = x \/ gt y x = false).
Proof. destruct l as [|p l]; [by intros _ ?%not_elem_of_nil|]. intros Ha. by apply dedup_represents. Qed.

(** The keys other than 0 occur once. *)
Definition real_keys (rs : list (list Z)) : list Z := kept (fun k => negb (k =? 0)) (map record_key rs).

Lemma dedup_above p l y : ascending (fun a b => key_from a >? key_from b) (p :: l) -> y ∈ dedup (key_from p) l ->
  key_from y = 0 \/ key_from p < key_from y.
Proof.
  revert p. induction l as [|z l IH]; intros p Ha; [by intros ?%not_elem_of_nil|].
  apply ascending_cons in Ha as [Hp Ha]. inversion_clear Hp as [|? ? Hpz _]. breflect. cbn [dedup].
  destruct ((key_from z =? key_from p) && negb (key_from z =? 0)) eqn:Ed.
  - apply andb_prop in Ed as [Ek%Z.eqb_eq _]. intros Hy. destruct (IH z Ha Hy); lia.
  - rewrite elem_of_cons. intros [->|Hy]; [|destruct (IH z Ha Hy); lia].
    destruct (Z.eq_dec (key_from z) (key_from p)) as [E|]; [|lia]. left.
    apply andb_false_iff in Ed as [Ed|Ed]; breflect; lia.
Qed.

Lemma dedup_NoDup l : forall p, ascending (fun a b => key_from a >? key_from b) (p :: l) ->
  NoDup (real_keys (map b_record (p :: dedup (key_from p) l))).
Proof.
  induction l as [|z l IH]; intros p Ha.
  { unfold real_keys, kept. cbn. case_match; repeat constructor. by intros ?%not_elem_of_nil. }
  pose proof Ha as Ha0. apply ascending_cons in Ha as [Hp Ha]. specialize (IH z Ha).
  assert (Hcons : forall q r, ascending (fun a b => key_from a >? key_from b) (q :: r) ->
      NoDup (real_keys (map b_record (dedup (key_from q) r))) -> NoDup (real_keys (map b_record (q :: dedup (key_from q) r)))).
  { intros q r Hq Hnd. unfold real_keys, kept in *. cbn [map List.filter].
    change (record_key (b_record q)) with (key_from q). destruct (key_from q =? 0) eqn:E0; cbn [negb]; [done|].
    constructor; [|done]. intros Hin. apply list_elem_of_In, filter_In in Hin as [Hin Hk]. rewrite map_map in Hin.
    apply in_map_iff in Hin as (y & Ey & Hy%list_elem_of_In). destruct (dedup_above q r y Hq Hy); unfold key_from in *; breflect; lia. }
  apply Hcons; [done|]. cbn [dedup]. destruct ((key_from z =? key_from p) && negb (key_from z =? 0)) eqn:Ed; [|exact IH].
  unfold real_keys, kept in IH. cbn [map List.filter] in IH. case_match; [by inversion IH|done].
Qed.

Lemma dedup_group_NoDup l : ascending (fun a b => key_from a >? key_from b) l -> NoDup (real_keys (map b_record (dedup_group l))).
Proof. destruct l as [|p l]; [constructor|]. apply dedup_NoDup. Qed.

Lemma real_keys_pad rs n : real_keys (rs ++ replicate n zero_record) = real_keys rs.
Proof.
  unfold real_keys. rewrite map_app, kept_app. rewrite (kept_none _ (map _ (replicate _ _))); [by rewrite app_nil_r|].
  intros k Hk. change (k ∈ record_key <$> replicate n zero_record) in Hk. rewrite fmap_replicate in Hk.
  by apply elem_of_replicate in Hk as [-> _].
Qed.
