(* ===== verification/ShardedTable.v ===== *)
(** * The sharded table: shards and batches

    Which shard a key belongs to, that the batch size has room for every shard,
    and what the batches contain. *)

From S2P Require Import Prelude Errors Util OddEvenSort PositionMap OramInterface OHTable HalfSipHash OCompact Queue Shard ShardedOHTable ShardedSpec.
Local Open Scope Z_scope.

(** ** Hashes and shards *)

Lemma u64_bytes_ok k : length (u64_bytes k) = 8%nat /\ Forall is_byte (u64_bytes k).
Proof.
  split; [done|]. apply Forall_map, Forall_forall. intros i _. change 255 with (Z.ones 8). rewrite Z.land_ones by lia.
  by apply Z.mod_pos_bound.
Qed.

Lemma step_size_bounds n : (2 <= n)%nat -> Z.of_nat n < 2 ^ 32 ->
  2 <= step_size n <= 2 ^ 63 /\ Z.of_nat n * step_size n <= UINT64_MAX.
Proof.
  intros Hn Hm. unfold step_size, UINT64_MAX. split; [split|].
  - apply Z.div_le_lower_bound; lia.
  - apply Z.lt_succ_r, Z.div_lt_upper_bound; lia.
  - apply Z.mul_div_le. lia.
Qed.

(** The bounds of shard [i] hold the hashes whose quotient is [i]. *)
Lemma bounds_contain n i h lo hi : (2 <= n)%nat -> Z.of_nat n < 2 ^ 32 -> (i < n)%nat -> (lo, hi) = shard_bounds n i ->
  is_u64 h -> h / step_size n < Z.of_nat n -> (lo <=? h) && (h <? hi) = (h / step_size n =? Z.of_nat i).
Proof.
  intros Hn Hm Hi Hb Hh Hr. destruct (step_size_bounds n Hn Hm) as [[Hs1 Hs2] Hs3]. unfold is_u64, UINT64_MAX in *.
  unfold shard_bounds in Hb. generalize dependent (step_size n). intros s Hb Hr Hs1 Hs2 Hs3.
  rewrite mul64_small in Hb by nia. injection Hb as -> ->.
  pose proof (Z.div_mod h s ltac:(lia)). pose proof (Z.mod_pos_bound h s ltac:(lia)).
  destruct (i =? n - 1)%nat eqn:Ei; breflect.
  - unfold UINT64_MAX. destruct (h / s =? Z.of_nat i) eqn:Eq; breflect; [rewrite andb_true_iff, Z.leb_le, Z.ltb_lt; nia|].
    apply andb_false_iff. left. apply Z.leb_gt. nia.
  - rewrite add64_small by lia. rewrite mul64_small by nia.
    destruct (h / s =? Z.of_nat i) eqn:Eq; breflect; [rewrite andb_true_iff, Z.leb_le, Z.ltb_lt; nia|].
    apply andb_false_iff. rewrite Z.leb_gt, Z.ltb_ge. nia.
Qed.

#[local] Opaque halfsiphash_u64.

Section Table.
Context {RAM : Type} `{ObliviousRam RAM}.
Implicit Types t : sharded_ohtable RAM.

(** A table as [sharded_ohtable_create] makes it; the shards' tables may have
    any contents. *)
Record sharded_wf t : Prop := {
  wf_num_shards : (2 <= num_shards t)%nat /\ Z.of_nat (num_shards t) < 2 ^ 32;
  wf_shards : length (shards t) = num_shards t;
  wf_bounds i se : shards t !! i = Some se -> (lb se.1, ub se.1) = shard_bounds (num_shards t) i;
  wf_hash_key : Forall is_byte (hash_key t);
  wf_step : ct_divisor_step t = step_size (num_shards t);
  wf_consts : ct_div_consts t = prep_ct_div (step_size (num_shards t));
}.

Lemma khash_u64 t k : sharded_wf t -> is_u64 (khash t k).
Proof.
  intros Ht. destruct (u64_bytes_ok k) as [Hl Hb]. apply (halfsiphash_u64_spec _ _ Hl Hb (wf_hash_key t Ht)).
Qed.

(** The shard of a key, and whether it exists. *)
Definition shard_of t (k : Z) : Z := khash t k / step_size (num_shards t).
Definition in_range t (k : Z) : Prop := shard_of t k < Z.of_nat (num_shards t).

Lemma shard_of_with_shards t ss k : shard_of (with_shards t ss) k = shard_of t k.
Proof. reflexivity. Qed.

Lemma assign_shard_id t r : sharded_wf t -> shard_id_from (assign_shard t r) = shard_of t (key_from r).
Proof.
  intros Ht. unfold assign_shard, shard_of. cbn. rewrite (wf_step t Ht), (wf_consts t Ht). apply ct_div_spec; [by apply khash_u64|].
  apply step_size_bounds; apply (wf_num_shards t Ht).
Qed.

Lemma shard_of_nonneg t k : sharded_wf t -> 0 <= shard_of t k.
Proof.
  intros Ht. pose proof (khash_u64 t k Ht) as Hh. destruct (step_size_bounds (num_shards t)) as [[? ?] _]; [apply (wf_num_shards t Ht)..|].
  unfold is_u64 in Hh. apply Z.div_pos; lia.
Qed.

(** A key that belongs to a shard is contained in that shard only. *)
Lemma contains_shard_of t k i se : sharded_wf t -> in_range t k -> shards t !! i = Some se ->
  shard_contains se.1 (khash t k) = (shard_of t k =? Z.of_nat i).
Proof.
  intros Ht Hr Hi. pose proof (wf_bounds t Ht i se Hi) as Hb. pose proof (lookup_lt_Some _ _ _ Hi) as Hlt.
  rewrite (wf_shards t Ht) in Hlt. destruct (wf_num_shards t Ht) as [Hn Hm].
  exact (bounds_contain _ _ _ _ _ Hn Hm Hlt Hb (khash_u64 t k Ht) Hr).
Qed.

(** ** The batch size *)

Lemma count_requests_spec t reqs : forall sizes i se n, length sizes = length (shards t) -> shards t !! i = Some se ->
  sizes !! i = Some n -> 0 <= n -> n + Z.of_nat (length reqs) < 2 ^ 64 ->
  fold_left (count_request t) reqs sizes !! i =
    Some (n + Z.of_nat (countb (fun r => shard_contains se.1 (khash t (key_from r))) reqs)).
Proof.
  induction reqs as [|r reqs IH]; intros sizes i se n Hl Hs Hn H0 Hb; simpl; [rewrite Hn; f_equal; lia|].
  simpl in Hb. erewrite (IH (count_request t sizes r) i se (n + b2z (shard_contains se.1 (khash t (key_from r)))));
    [f_equal; destruct (shard_contains _ _); simpl; lia| |done| | |].
  - unfold count_request. rewrite length_zip_with. lia.
  - unfold count_request. rewrite lookup_zip_with, Hn, Hs. simpl. f_equal. destruct (shard_contains _ _); simpl; apply add64_small; lia.
  - destruct (shard_contains _ _); simpl; lia.
  - destruct (shard_contains _ _); simpl; lia.
Qed.

Lemma count_requests_length t reqs : forall sizes, length sizes = length (shards t) ->
  length (fold_left (count_request t) reqs sizes) = length (shards t).
Proof.
  induction reqs as [|r reqs IH]; intros sizes Hl; [done|]. simpl. apply IH. unfold count_request. rewrite length_zip_with. lia.
Qed.

Definition fold_max (l : list Z) (m : Z) : Z := fold_left (fun batch_size n => if batch_size <? n then n else batch_size) l m.

Lemma fold_max_spec l : forall m, m <= fold_max l m /\ (forall n, n ∈ l -> n <= fold_max l m) /\ (fold_max l m = m \/ fold_max l m ∈ l).
Proof.
  induction l as [|x l IH]; intros m; [split_and!; [done|by intros ? ?%not_elem_of_nil|by left]|]. unfold fold_max in *. simpl.
  destruct (IH (if m <? x then x else m)) as (H1 & H2 & H3). destruct (m <? x) eqn:E; breflect.
  - split_and!; [lia| |right; rewrite elem_of_cons; tauto]. intros n [->|Hn]%elem_of_cons; [done|auto].
  - split_and!; [lia| |rewrite elem_of_cons; tauto]. intros n [->|Hn]%elem_of_cons; [lia|auto].
Qed.

(** The number of requests for a shard. *)
Definition load t (reqs : list batchable_request) (sh : nat) : nat :=
  countb (fun r => (shard_of t (key_from r) =? Z.of_nat sh)%Z) reqs.

Lemma calculate_batch_size_spec t reqs : sharded_wf t -> Forall (fun r => in_range t (key_from r)) reqs ->
  Z.of_nat (length reqs) < 2 ^ 64 ->
  exists b, calculate_batch_size t reqs = (Z.of_nat b, map (assign_shard t) reqs) /\
    (forall sh, (load t reqs sh <= b)%nat) /\ (b <= length reqs)%nat /\ (reqs <> [] -> 1 <= b)%nat.
Proof.
  intros Ht Hr Hl. unfold calculate_batch_size. fold (fold_max (fold_left (count_request t) reqs (replicate (num_shards t) 0)) 0).
  set (sizes := fold_left _ _ _). pose proof (wf_shards t Ht) as Hns.
  assert (Hsz : forall sh, (sh < num_shards t)%nat -> sizes !! sh = Some (Z.of_nat (load t reqs sh))).
  { intros sh Hsh. destruct (lookup_lt_is_Some_2 (shards t) sh) as [se Hse]; [lia|]. unfold sizes.
    rewrite (count_requests_spec t reqs _ sh se 0); [|by rewrite length_replicate|done|by apply lookup_replicate_2|lia|lia].
    f_equal. rewrite Z.add_0_l. f_equal. apply countb_ext. intros r Hin. apply contains_shard_of; [done| |done].
    rewrite Forall_forall in Hr. auto. }
  assert (Hlen : length sizes = num_shards t) by (unfold sizes; rewrite count_requests_length; [done|by rewrite length_replicate]).
  destruct (fold_max_spec sizes 0) as (H0 & Hmax & Hin).
  assert (Hload : forall sh, (sh < num_shards t)%nat -> Z.of_nat (load t reqs sh) <= fold_max sizes 0).
  { intros sh Hsh. eapply Hmax, list_elem_of_lookup_2, Hsz, Hsh. }
  assert (Hout : forall sh, (num_shards t <= sh)%nat -> load t reqs sh = 0%nat).
  { intros sh Hsh. apply countb_false. intros r Hin'. rewrite Forall_forall in Hr. specialize (Hr r Hin'). unfold in_range in Hr. lia. }
  exists (Z.to_nat (fold_max sizes 0)). split_and!.
  - f_equal. lia.
  - intros sh. destruct (decide (sh < num_shards t)%nat) as [Hsh|Hsh]; [specialize (Hload sh Hsh); lia|rewrite Hout by lia; lia].
  - destruct Hin as [->|[sh Hsh]%list_elem_of_lookup_1]; [lia|]. pose proof (lookup_lt_Some _ _ _ Hsh) as Hlt.
    rewrite Hsz in Hsh by lia. injection Hsh as <-. rewrite Nat2Z.id. apply countb_le.
  - destruct reqs as [|r reqs]; [done|]. intros _. pose proof (shard_of_nonneg t (key_from r) Ht).
    apply Forall_cons in Hr as [Hr _]. unfold in_range in Hr. specialize (Hload (Z.to_nat (shard_of t (key_from r))) ltac:(lia)).
    unfold load in Hload. simpl in Hload. rewrite Z2Nat.id, Z.eqb_refl in Hload by done. lia.
Qed.

(** ** The batches *)

(** The batch of a shard: the requests of its keys, each key once, and zero
    records. *)
Record batch_ok gt t (reqs : list batchable_request) (b sh : nat) (B : list (list Z)) : Prop := {
  bo_length : length B = b;
  bo_records r : r ∈ B -> r = zero_record \/
    exists q, q ∈ reqs /\ r = b_record q /\ shard_of t (key_from q) = Z.of_nat sh;
  bo_covers q : q ∈ reqs -> shard_of t (key_from q) = Z.of_nat sh ->
    exists q', q' ∈ reqs /\ b_record q' ∈ B /\ key_from q' = key_from q /\
      (q' = q \/ gt (assign_shard t q') (assign_shard t q) = false);
  bo_unique : NoDup (real_keys B);
}.

Lemma assign_shard_twice t r : assign_shard t (assign_shard t r) = assign_shard t r.
Proof. reflexivity. Qed.

(** The keys of the real requests of one shard are ascending. *)
Lemma real_group_keys gt `{!BatchOrder gt} t b reqs l sh : sharded_wf t ->
  l ≡ₚ map (assign_shard t) reqs ++ all_dummies t b -> ascending gt l ->
  ascending (fun x y => key_from x >? key_from y) (real_group l sh).
Proof.
  intros Ht Hl Ha i j x y Hij Hx Hy. unfold real_group, group in *.
  assert (Hin : forall z, z ∈ kept (fun r => flag_from r =? 0) (kept (fun r => shard_id_from r =? Z.of_nat sh) l) ->
    flag_from z = 0 /\ shard_id_from z = Z.of_nat sh).
  { intros z [[_ Hz]%elem_of_kept Hf]%elem_of_kept. breflect. done. }
  destruct (Hin x) as [Fx Ix]; [by eapply list_elem_of_lookup_2|]. destruct (Hin y) as [Fy Iy]; [by eapply list_elem_of_lookup_2|].
  pose proof (ascending_kept gt _ _ (ascending_kept gt _ _ Ha) i j x y Hij Hx Hy) as Hg.
  apply batch_order_le in Hg. rewrite Z.gtb_ltb. apply Z.ltb_ge. lia.
Qed.

Lemma batch_is_ok gt `{!BatchOrder gt} t b reqs l sh : sharded_wf t -> (1 <= b)%nat ->
  (forall sh, (load t reqs sh <= b)%nat) -> l ≡ₚ map (assign_shard t) reqs ++ all_dummies t b -> ascending gt l ->
  (sh < num_shards t)%nat -> batch_ok gt t reqs b sh (batch b l sh).
Proof.
  intros Ht Hb Hload Hl Ha Hsh.
  assert (Hflag : forall r, r ∈ map (assign_shard t) reqs -> flag_from r = 0).
  { intros r (q & -> & _)%list_elem_of_fmap. done. }
  assert (Hroom : forall sh, (countb (fun r => (shard_id_from r =? Z.of_nat sh)%Z) (map (assign_shard t) reqs) <= b)%nat).
  { intros v. rewrite countb_map. etransitivity; [|apply (Hload v)]. apply Nat.eq_le_incl, countb_ext. intros q _.
    by rewrite assign_shard_id. }
  pose proof (real_group_perm t b (map (assign_shard t) reqs) Hflag Hb l sh Hl Hsh) as Hperm.
  assert (Hrg : forall r, r ∈ real_group l sh -> exists q, q ∈ reqs /\ r = assign_shard t q /\ shard_of t (key_from q) = Z.of_nat sh).
  { intros r. rewrite Hperm. intros [(q & -> & Hq)%list_elem_of_fmap Hid]%elem_of_kept. breflect. rewrite assign_shard_id in Hid by done.
    by exists q. }
  split.
  - apply (batch_length t b (map (assign_shard t) reqs) Hflag Hroom Hb l sh Hl Hsh).
  - intros r [Hr|[-> _]%elem_of_replicate]%elem_of_app; [right|by left].
    apply list_elem_of_fmap in Hr as (x & -> & Hx%dedup_group_sub). destruct (Hrg x Hx) as (q & Hq & -> & Hs). by exists q.
  - intros q Hq Hs. assert (Hin : assign_shard t q ∈ real_group l sh).
    { rewrite Hperm. apply elem_of_kept. split; [by apply list_elem_of_fmap_2|]. rewrite assign_shard_id by done. lia. }
    assert (Hasc : ascending gt (real_group l sh)) by (apply ascending_kept, ascending_kept, Ha).
    destruct (dedup_group_represents gt _ _ Hasc Hin) as (y & Hy & Hk & Hor).
    destruct (Hrg y (dedup_group_sub _ _ Hy)) as (q' & Hq' & -> & _). 
    destruct Hor as [E|Hgt].
    + exists q. split_and!; [done| |done|by left]. apply elem_of_app. left. rewrite <- E in *.
      change (b_record q) with (b_record (assign_shard t q)). rewrite <- E. by apply list_elem_of_fmap_2.
    + exists q'. split_and!; [done| |done|by right]. apply elem_of_app. left.
      change (b_record q') with (b_record (assign_shard t q')). by apply list_elem_of_fmap_2.
  - unfold batch. rewrite real_keys_pad. apply dedup_group_NoDup. by apply (real_group_keys gt t b reqs).
Qed.

Lemma batches_spec gt `{!BatchOrder gt} t reqs : sharded_wf t -> Forall (fun r => in_range t (key_from r)) reqs ->
  reqs <> [] -> Z.of_nat (length reqs) < 2 ^ 31 ->
  exists b Bs, calculate_batch_size t reqs = (Z.of_nat b, map (assign_shard t) reqs) /\ (1 <= b)%nat /\
    prepare_records gt t (length reqs) (map (assign_shard t) reqs ++ replicate (b * num_shards t) zero_request) (Z.of_nat b) = concat Bs /\
    length Bs = num_shards t /\ forall sh B, Bs !! sh = Some B -> batch_ok gt t reqs b sh B.
Proof.
  intros Ht Hr Hne Hlen. destruct (calculate_batch_size_spec t reqs Ht Hr) as (b & Hcalc & Hload & Hble & Hb1); [lia|].
  specialize (Hb1 Hne). destruct (wf_num_shards t Ht) as [_ Hns].
  assert (Hmm : map (assign_shard t) (map (assign_shard t) reqs) = map (assign_shard t) reqs).
  { rewrite map_map. apply map_ext. apply assign_shard_twice. }
  destruct (prepare_records_spec gt t (map (assign_shard t) reqs) b) as (l & Hl & Ha & Hp); rewrite ?Hmm, ?length_map in *;
    [| |done|nia|lia|].
  - intros r (q & -> & Hq)%list_elem_of_fmap. rewrite assign_shard_id by done. rewrite Forall_forall in Hr.
    pose proof (shard_of_nonneg t (key_from q) Ht). specialize (Hr q Hq). unfold in_range in Hr. lia.
  - intros v. rewrite countb_map. etransitivity; [|apply (Hload v)]. apply Nat.eq_le_incl, countb_ext. intros q _.
    by rewrite assign_shard_id.
  - exists b, (map (batch b l) (seq 0 (num_shards t))). split_and!; [done|done|exact Hp|by rewrite length_map, length_seq|].
    intros sh B HB. apply list_lookup_fmap_Some in HB as (v & -> & [-> Hv]%lookup_seq). by apply (batch_is_ok gt).
Qed.
End Table.
