(* ===== verification/ShardedPut.v ===== *)
(** * Batches of puts over the shards

    Every shard handles its batch; together they insert the records of the
    call, the last record of each key. *)

From S2P Require Import Prelude Errors Util OddEvenSort PositionMap OramInterface OHTable RobinHood OHTableSpec HalfSipHash OCompact Queue Shard ShardTheorems ShardedOHTable ShardedSpec ShardedTable.
Local Open Scope Z_scope.

#[local] Opaque halfsiphash_u64.

(** ** Slices of arrays of records *)

Lemma concat_slice {A} (ls : list (list A)) k i x : Forall (fun l => length l = k) ls -> ls !! i = Some x ->
  take k (drop (k * i) (concat ls)) = x.
Proof.
  revert i. induction ls as [|l ls IH]; intros i Hf Hi; [done|]. apply Forall_cons in Hf as [Hl Hf]. cbn [concat].
  destruct i as [|i]; [injection Hi as ->; rewrite Nat.mul_0_r, <- Hl; apply take_app_length|].
  rewrite Nat.mul_succ_r, Nat.add_comm, <- drop_drop.
  replace (drop k (l ++ concat ls)) with (concat ls) by (rewrite <- Hl; by rewrite drop_app_length). by apply IH.
Qed.

(** ** The last record of a key *)

Lemma insert_all_app l l' k r : insert_all (l ++ l') k r = insert_all l' k (insert_all l k r).
Proof. apply fold_left_app. Qed.

Lemma insert_all_none l k r : (forall x, x ∈ l -> record_key x <> k) -> insert_all l k r = r.
Proof.
  revert r. induction l as [|x l IH]; intros r Hl; [done|]. unfold insert_all in *. simpl.
  rewrite (proj2 (Z.eqb_neq k (record_key x))) by (intros E; apply (Hl x); [left|done]). apply IH. intros y Hy. apply Hl. by right.
Qed.

Lemma insert_all_last l k r i x : l !! i = Some x -> record_key x = k ->
  (forall j y, (i < j)%nat -> l !! j = Some y -> record_key y <> k) -> insert_all l k r = Some x.
Proof.
  intros Hi Hk Hlast. rewrite <- (take_drop_middle l i x Hi), insert_all_app. cbn [insert_all fold_left].
  rewrite Hk, Z.eqb_refl. apply insert_all_none. intros y [j Hj]%list_elem_of_lookup_1. rewrite lookup_drop in Hj.
  apply (Hlast (S i + j)%nat); [lia|done].
Qed.

(** The last position of a key. *)
Lemma last_position (l : list (list Z)) k : (exists x, x ∈ l /\ record_key x = k) ->
  exists i x, l !! i = Some x /\ record_key x = k /\ forall j y, (i < j)%nat -> l !! j = Some y -> record_key y <> k.
Proof.
  induction l as [|z l IH] using rev_ind; intros (x & Hx & Hk); [by apply not_elem_of_nil in Hx|].
  destruct (decide (record_key z = k)) as [Hz|Hz].
  - exists (length l), z. split_and!; [by apply list_lookup_middle|done|]. intros j y Hj Hy.
    apply lookup_lt_Some in Hy. rewrite length_app in Hy. simpl in Hy. lia.
  - destruct IH as (i & y & Hi & Hy & Hlast).
    { exists x. split; [|done]. apply elem_of_app in Hx as [Hx|Hx]; [done|]. by apply list_elem_of_singleton in Hx as ->. }
    exists i, y. split_and!; [by apply lookup_app_l_Some|done|]. intros j u Hj Hu.
    apply lookup_app_Some in Hu as [Hu|[_ Hu]]; [by apply (Hlast j)|].
    apply list_lookup_singleton_Some in Hu as [_ <-]. done.
Qed.

Lemma real_keys_lookup B x y : NoDup (real_keys B) -> x ∈ B -> y ∈ B -> record_key x = record_key y -> record_key x <> 0 -> x = y.
Proof.
  induction B as [|z B IH]; intros Hnd Hx Hy Hk H0; [by apply not_elem_of_nil in Hx|].
  assert (Hkey : forall w, w ∈ B -> record_key w <> 0 -> record_key w ∈ real_keys B).
  { intros w Hw Hw0. apply elem_of_kept. split; [by apply list_elem_of_fmap_2|]. by apply negb_true_iff, Z.eqb_neq. }
  assert (Hnd' : NoDup (real_keys B) /\ (record_key z <> 0 -> record_key z ∉ real_keys B)).
  { unfold real_keys, kept in *. cbn [map List.filter] in Hnd. destruct (record_key z =? 0) eqn:Ez; cbn [negb] in Hnd; breflect.
    - split; [done|congruence].
    - by apply NoDup_cons in Hnd as [? ?]. }
  destruct Hnd' as [Hnd' Hz]. apply elem_of_cons in Hx as [->|Hx], Hy as [->|Hy]; auto.
  - elim Hz; [done|]. rewrite Hk in H0 |- *. auto.
  - elim Hz; [congruence|]. rewrite <- Hk. auto.
Qed.

Lemma real_keys_once B i j x : NoDup (real_keys B) -> (i < j)%nat -> B !! i = Some x -> B !! j = Some x ->
  record_key x <> 0 -> False.
Proof.
  revert i j. induction B as [|z B IH]; intros i j Hnd Hij Hi Hj H0; [done|]. destruct j as [|j]; [lia|]. simpl in Hj.
  unfold real_keys, kept in *. cbn [map List.filter] in Hnd. destruct i as [|i].
  - injection Hi as ->. rewrite (proj2 (Z.eqb_neq _ _) H0) in Hnd. apply NoDup_cons in Hnd as [Hn _]. apply Hn.
    apply elem_of_kept. split; [by eapply list_elem_of_fmap_2, list_elem_of_lookup_2|]. by apply negb_true_iff, Z.eqb_neq.
  - apply (IH i j); [|lia|done|done|done]. case_match; [by apply NoDup_cons in Hnd as [_ ?]|done].
Qed.

(** ** Requests *)

Section Requests.
Context (records : list (list Z)).
Hypothesis Hsize : Forall (fun r => length r = RECORD_SIZE) records.

Definition put_requests : list batchable_request := map (new_request RECORD_SIZE (concat records)) (seq 0 (length records)).

Lemma put_request_record i x : records !! i = Some x -> b_record (new_request RECORD_SIZE (concat records) i) = x.
Proof.
  intros Hi. unfold new_request. cbn [b_record]. rewrite Nat.sub_diag, app_nil_r, Nat.mul_comm. by apply concat_slice.
Qed.

Lemma put_requests_elem q : q ∈ put_requests ->
  exists i x, records !! i = Some x /\ b_record q = x /\ orig_pos_from q = Z.of_nat i /\ q = new_request RECORD_SIZE (concat records) i.
Proof.
  intros (i & -> & [_ Hi]%elem_of_seq)%list_elem_of_fmap. destruct (lookup_lt_is_Some_2 records i) as [x Hx]; [lia|].
  exists i, x. split_and!; [done|by apply put_request_record|done|done].
Qed.

Lemma put_requests_in i : (i < length records)%nat -> new_request RECORD_SIZE (concat records) i ∈ put_requests.
Proof. intros Hi. apply list_elem_of_fmap_2, elem_of_seq. lia. Qed.
End Requests.

(** ** The shards insert the records *)

Section Put.
Context {RAM : Type} `{ObliviousRamSpec RAM} (nb : nat).
Implicit Types t : sharded_ohtable RAM.

Record sharded_inv t : Prop := {
  sv_wf : sharded_wf t;
  sv_record_size : st_record_size t = RECORD_SIZE;
  sv_tables i se : shards t !! i = Some se -> table_inv nb (table se.1) /\ record_size_qwords se.1 = RECORD_SIZE;
}.

(** The record stored under a key in its shard. *)
Definition sharded_lookup t (k : Z) : option (list Z) :=
  match shards t !! Z.to_nat (shard_of t k) with Some se => table_lookup nb (table se.1) k | None => None end.

(** The batch of a shard inserts the last record of each of its keys. *)
Lemma batch_insert_all t records b sh B k r : sharded_wf t -> Forall (fun r => length r = RECORD_SIZE) records ->
  batch_ok cmp_stable_shard_flag_key t (put_requests records) b sh B -> k <> 0 -> shard_of t k = Z.of_nat sh ->
  insert_all B k r = insert_all records k r.
Proof.
  intros Ht Hsize HB Hk Hsh.
  destruct (decide (Exists (fun x => record_key x = k) records)) as [He|Hne].
  - apply Exists_exists in He. destruct (last_position records k He) as (i & x & Hi & Hx & Hlast).
    rewrite (insert_all_last records k r i x Hi Hx Hlast). set (q := new_request RECORD_SIZE (concat records) i).
    pose proof (put_request_record records Hsize i x Hi) as Hq. fold q in Hq.
    assert (Hkq : key_from q = k) by (unfold key_from; by rewrite Hq).
    destruct (bo_covers _ _ _ _ _ _ HB q) as (q' & Hq' & Hin & Hkk & Hor).
    { apply put_requests_in. by eapply lookup_lt_Some. }
    { by rewrite Hkq. }
    assert (Eq : b_record q' = x).
    { destruct Hor as [->|Hgt]; [done|]. destruct (put_requests_elem records Hsize q' Hq') as (j & y & Hj & Hy & Ho & _).
      rewrite <- not_true_iff_false, cmp_stable_true, !assign_shard_id, Hkk in Hgt by done.
      change (key_from (assign_shard t q')) with (key_from q') in Hgt. change (key_from (assign_shard t q)) with (key_from q) in Hgt.
      change (orig_pos_from (assign_shard t q')) with (orig_pos_from q') in Hgt.
      change (orig_pos_from (assign_shard t q)) with (Z.of_nat i) in Hgt.
      change (flag_from (assign_shard t q')) with 0 in Hgt. change (flag_from (assign_shard t q)) with 0 in Hgt.
      destruct (decide (i < j)%nat) as [Hij|Hij].
      - elim (Hlast j y Hij Hj). rewrite <- Hy. change (key_from q' = k). congruence.
      - assert (i = j) as <- by lia. congruence. }
    rewrite Eq in Hin. apply list_elem_of_lookup_1 in Hin as [m Hm].
    apply (insert_all_last B k r m x Hm Hx). intros m' y Hmm Hy Hky.
    assert (x = y) as <-.
    { apply (real_keys_lookup B); [apply (bo_unique _ _ _ _ _ _ HB)|by eapply list_elem_of_lookup_2..|congruence|congruence]. }
    assert (Hdup : NoDup (real_keys B)) by apply (bo_unique _ _ _ _ _ _ HB).
    apply (real_keys_once B m m' x Hdup Hmm Hm Hy). congruence.
  - rewrite !insert_all_none; [done| |].
    + intros x Hx E. apply Hne, Exists_exists. eauto.
    + intros x Hx E. destruct (bo_records _ _ _ _ _ _ HB x Hx) as [->|(q & Hq & -> & _)]; [by apply Hk|].
      destruct (put_requests_elem records Hsize q Hq) as (j & y & Hj & Hy & _ & _).
      apply Hne, Exists_exists. exists y. split; [by eapply list_elem_of_lookup_2|congruence].
Qed.

(** ** All shards *)

Lemma run_requests_spec (f : list (list Z) -> sharded_ohtable_request)
    (P : shard RAM * entropy -> list (list Z) -> shard RAM * entropy -> sharded_ohtable_request -> Prop)
    (ss : list (shard RAM * entropy)) Bs :
  Forall2 (fun se B => exists s' e' rq', shard_handle_request se.1 se.2 (f B) = Some (s', e', rq') /\ P se B (s', e') rq') ss Bs ->
  exists ss' reqs', run_requests ss (map f Bs) = Some (ss', reqs') /\ length ss' = length ss /\ length reqs' = length Bs /\
    forall i se B, ss !! i = Some se -> Bs !! i = Some B ->
      exists se' rq', ss' !! i = Some se' /\ reqs' !! i = Some rq' /\ P se B se' rq'.
Proof.
  induction 1 as [|[s e] B ss Bs (s' & e' & rq' & Hh & HP) _ (ss' & reqs' & Hrun & L1 & L2 & IH)].
  { exists [], []. split_and!; done. }
  exists ((s', e') :: ss'), (rq' :: reqs'). cbn [run_requests map]. cbn [fst snd] in Hh. rewrite Hh, Hrun.
  split_and!; [done|simpl; lia|simpl; lia|]. intros [|i] se B0 Hs Hr; simpl in *; [|by apply IH].
  injection Hs as <-. injection Hr as <-. by exists (s', e'), rq'.
Qed.

Lemma first_error_success reqs rq i : is_success (first_error reqs) = true -> reqs !! i = Some rq ->
  is_success (shard_request_error rq) = true.
Proof.
  revert i. induction reqs as [|r reqs IH]; intros i He Hi; [done|]. simpl in He.
  destruct (is_success (shard_request_error r)) eqn:E; [|congruence]. destruct i as [|i]; [by injection Hi as <-|by apply (IH i)].
Qed.

Lemma requests_of_batches (f : list Z -> nat -> sharded_ohtable_request) b n (Bs : list (list (list Z))) :
  length Bs = n -> Forall (fun B => length B = b) Bs ->
  map (fun sh => f (batch_of b (concat Bs) sh) b) (seq 0 n) = map (fun B => f (concat B) (length B)) Bs.
Proof.
  intros <- Hb. apply list_eq. intros i. rewrite !list_lookup_fmap. destruct (Bs !! i) as [B|] eqn:E.
  - rewrite lookup_seq_lt by (by eapply lookup_lt_Some). simpl. unfold batch_of. rewrite (concat_slice Bs b i B Hb E).
    by rewrite (Forall_lookup_1 _ _ _ _ Hb E).
  - rewrite lookup_ge_None_2; [done|]. rewrite length_seq. by apply lookup_ge_None.
Qed.

Lemma zero_record_ok : record_ok zero_record.
Proof. done. Qed.

Lemma put_keys_in_range t records : Forall (fun r => length r = RECORD_SIZE) records ->
  Forall (fun r => in_range t (record_key r)) records -> Forall (fun q => in_range t (key_from q)) (put_requests records).
Proof.
  intros Hsize Hr. apply Forall_forall. intros q (i & x & Hi & Hx & _ & _)%put_requests_elem; [|done].
  unfold key_from. rewrite Hx. by eapply (Forall_lookup_1 _ _ _ _ Hr).
Qed.

Lemma same_shards_wf t ss : sharded_wf t -> length ss = length (shards t) ->
  (forall i se se', shards t !! i = Some se -> ss !! i = Some se' -> same_shard se.1 se'.1) -> sharded_wf (with_shards t ss).
Proof.
  intros [H1 H2 H3 H4 H5 H6] Hl Hs. split; cbn [with_shards num_shards shards hash_key ct_divisor_step ct_div_consts]; try done; [congruence|].
  intros i se' Hi. destruct (lookup_lt_is_Some_2 (shards t) i) as [se Hse]; [rewrite <- Hl; by eapply lookup_lt_Some|].
  destruct (Hs i se se' Hse Hi) as (-> & -> & _). by apply H3.
Qed.

(** What a shard promises for its batch of puts. *)
Definition put_post (se : shard RAM * entropy) (B : list (list Z)) (se' : shard RAM * entropy) (rq' : sharded_ohtable_request) : Prop :=
  same_shard se.1 se'.1 /\ (is_success (shard_request_error rq') = true -> table_inv nb (table se'.1) /\
    forall k, k <> UINT64_MAX -> table_lookup nb (table se'.1) k = insert_all B k (table_lookup nb (table se.1) k)).

(** A batch of puts that succeeds. *)
Lemma put_batch_spec t records : sharded_inv t -> Forall record_ok records -> records <> [] ->
  Forall (fun r => in_range t (record_key r)) records -> Z.of_nat (length records) < 2 ^ 31 -> 24 * Z.of_nat nb < 2 ^ 53 ->
  exists err t', sharded_ohtable_put_batch t (length records) (concat records) = Some (err, t') /\
    (is_success err = true -> sharded_inv t' /\
     forall k, k <> 0 -> k <> UINT64_MAX -> in_range t k -> sharded_lookup t' k = insert_all records k (sharded_lookup t k)).
Proof.
  intros [Ht Hsize Htab] Hok Hne Hr Hlen Hnb. pose proof (wf_shards t Ht) as Hns.
  assert (Hsz : Forall (fun r => length r = RECORD_SIZE) records) by (eapply Forall_impl; [exact Hok|]; by intros ? [? _]).
  unfold sharded_ohtable_put_batch, batch_queries. rewrite Hsize. fold (put_requests records). unfold prepare_query_batches.
  assert (Hlq : length (put_requests records) = length records) by (unfold put_requests; by rewrite length_map, length_seq).
  destruct (batches_spec cmp_stable_shard_flag_key t (put_requests records) Ht) as (b & Bs & -> & Hb & HBs & Hn & Hspec).
  { by apply put_keys_in_range. }
  { intros E. rewrite E in Hlq. by destruct records. }
  { by rewrite Hlq. }
  rewrite Nat2Z.id, HBs. rewrite (requests_of_batches insert_request b (num_shards t) Bs Hn).
  2:{ apply Forall_lookup. intros sh B HB. apply (bo_length _ _ _ _ _ _ (Hspec sh B HB)). }
  assert (HokB : forall sh B, Bs !! sh = Some B -> Forall record_ok B).
  { intros sh B HB. apply Forall_forall. intros r Hin. destruct (bo_records _ _ _ _ _ _ (Hspec sh B HB) r Hin) as [->|(q & Hq & -> & _)];
      [apply zero_record_ok|]. destruct (put_requests_elem records Hsz q Hq) as (i & x & Hi & -> & _). by eapply (Forall_lookup_1 _ _ _ _ Hok). }
  destruct (run_requests_spec (fun B => insert_request (concat B) (length B)) put_post (shards t) Bs)
    as (ss & reqs & -> & L1 & L2 & Hpost).
  { apply Forall2_same_length_lookup_2; [congruence|]. intros sh se B Hse HB. destruct (Htab sh se Hse) as [Hti Hrs].
    destruct (handle_insert_spec nb se.1 se.2 B Hti Hrs (HokB sh B HB) Hnb) as (s' & e' & r' & ? & ? & ?).
    exists s', e', r'. by split_and!. }
  eexists _, _. split; [done|]. cbn [shard_requests]. intros Hsucc.
  assert (Hall : forall sh se, shards t !! sh = Some se -> exists B se', Bs !! sh = Some B /\ ss !! sh = Some se' /\
      same_shard se.1 se'.1 /\ table_inv nb (table se'.1) /\
      forall k, k <> UINT64_MAX -> table_lookup nb (table se'.1) k = insert_all B k (table_lookup nb (table se.1) k)).
  { intros sh se Hse. destruct (lookup_lt_is_Some_2 Bs sh) as [B HB]; [rewrite Hn, <- Hns; by eapply lookup_lt_Some|].
    destruct (Hpost sh se B Hse HB) as (se' & rq' & Hse' & Hrq' & Hsame & HP).
    destruct (HP (first_error_success reqs rq' sh Hsucc Hrq')) as [? ?]. exists B, se'. by split_and!. }
  split.
  - split; [|done|].
    + apply same_shards_wf; [done|done|]. intros i se se' Hse Hse'. destruct (Hall i se Hse) as (B & se1 & _ & E & ? & _). congruence.
    + intros i se' Hse'. destruct (lookup_lt_is_Some_2 (shards t) i) as [se Hse]; [rewrite <- L1; by eapply lookup_lt_Some|].
      destruct (Hall i se Hse) as (B & se1 & _ & E & (_ & _ & Hrs) & Hti & _). cbn [with_shards shards] in Hse'.
      assert (se1 = se') as -> by congruence. split; [done|]. rewrite Hrs. apply (Htab i se Hse).
  - intros k Hk0 Hk1 Hkr. unfold sharded_lookup. rewrite shard_of_with_shards.
    pose proof (shard_of_nonneg t k Ht) as Hpos. unfold in_range in Hkr.
    destruct (lookup_lt_is_Some_2 (shards t) (Z.to_nat (shard_of t k))) as [se Hse]; [lia|].
    destruct (Hall _ se Hse) as (B & se' & HB & Hse' & _ & _ & Hl). cbn [with_shards shards]. rewrite Hse, Hse', Hl by done.
    apply (batch_insert_all t records b (Z.to_nat (shard_of t k)) B k _ Ht Hsz (Hspec _ B HB) Hk0). lia.
Qed.
End Put.
