(* ===== verification/ShardedGet.v ===== *)
(** * Batches of gets over the shards

    The answers of the shards are merged with the clients' requests: every
    request gets the answer of its key. *)

From S2P Require Import Prelude Errors Util OddEvenSort PositionMap OramInterface OHTable RobinHood OHTableSpec HalfSipHash OCompact Queue Shard ShardTheorems ShardedOHTable ShardedSpec ShardedTable ShardedPut.
Local Open Scope Z_scope.

#[local] Opaque halfsiphash_u64.

(** ** The pass that copies the answers *)

Section Copy.
Context (l : list batchable_request).
Hypothesis Hasc : ascending cmp_key_flag l.
Hypothesis Hflag : forall x, x ∈ l -> flag_from x = 0 \/ flag_from x = 1.
Hypothesis Hkey : forall x, x ∈ l -> is_u64 (key_from x).

(** What the pass makes of a client's request. *)
Definition copied (x x' : batchable_request) : Prop :=
  flag_from x' = flag_from x /\ key_from x' = key_from x /\
  (flag_from x = 1 -> key_from x <> 0 ->
    (forall y, y ∈ l -> flag_from y = 0 -> key_from y = key_from x ->
      b_found x' = 1 /\ exists h, h ∈ l /\ flag_from h = 0 /\ key_from h = key_from x /\ b_record x' = b_record h) /\
    (countb (fun y => key_from y =? key_from x) l = 1%nat -> b_found x' = 0)).

Lemma ascending_middle pre x post : l = pre ++ x :: post ->
  (forall z, z ∈ pre -> cmp_key_flag z x = false) /\ (forall z, z ∈ post -> cmp_key_flag x z = false).
Proof.
  intros E. split.
  - intros z [i Hi]%list_elem_of_lookup_1. apply (Hasc i (length pre)); [by eapply lookup_lt_Some| |].
    + rewrite E. by apply lookup_app_l_Some.
    + rewrite E. by apply list_lookup_middle.
  - intros z [i Hi]%list_elem_of_lookup_1. apply (Hasc (length pre) (length pre + S i)%nat); [lia| |].
    + rewrite E. by apply list_lookup_middle.
    + rewrite E, lookup_app_r by lia. by replace (length pre + S i - length pre)%nat with (S i) by lia.
Qed.

Lemma key_pred_inj x y : x ∈ l -> y ∈ l -> key_from x [-] 1 = key_from y [-] 1 -> key_from x = key_from y.
Proof.
  intros Hx Hy E. pose proof (Hkey x Hx). pose proof (Hkey y Hy). unfold is_u64, sub64, wrap64 in *. dlia.
Qed.

Lemma cmp_key_flag_false x y : cmp_key_flag x y = false ->
  key_from x [-] 1 < key_from y [-] 1 \/ (key_from x [-] 1 = key_from y [-] 1 /\ flag_from x <= flag_from y).
Proof. rewrite <- not_true_iff_false, cmp_key_flag_true. lia. Qed.

Lemma middle_in pre h x post : l = pre ++ x :: post -> h ∈ pre -> h ∈ l /\ x ∈ l.
Proof. intros -> Hh. rewrite !elem_of_app, !elem_of_cons. auto. Qed.

(** The first request of a key has the least flag. *)
Lemma new_key_least pre h x post : l = pre ++ x :: post -> h ∈ pre -> key_from x <> key_from h ->
  (forall z, z ∈ pre -> key_from z [-] 1 <= key_from h [-] 1) ->
  forall z, z ∈ l -> key_from z = key_from x -> flag_from x <= flag_from z.
Proof.
  intros E Hh Hne Hle z Hz Ek. destruct (ascending_middle pre x post E) as [Hpre Hpost].
  destruct (middle_in pre h x post E Hh) as [Hhl Hx].
  pose proof Hz as Hz0. rewrite E in Hz. apply elem_of_app in Hz as [Hz|Hz].
  - elim Hne. apply key_pred_inj; [done|done|]. specialize (Hle z Hz). rewrite Ek in Hle.
    pose proof (cmp_key_flag_false _ _ (Hpre h Hh)). lia.
  - apply elem_of_cons in Hz as [->|Hz]; [done|]. pose proof (cmp_key_flag_false _ _ (Hpost z Hz)) as Hc. rewrite Ek in Hc. lia.
Qed.

Lemma countb_two (p : batchable_request -> bool) pre x post h : l = pre ++ x :: post -> h ∈ pre -> p h = true -> p x = true ->
  (2 <= countb p l)%nat.
Proof.
  intros -> Hh Ph Px. rewrite countb_app. simpl. rewrite Px. apply elem_of_Permutation in Hh as [r Hr].
  rewrite (countb_perm _ _ _ Hr). simpl. rewrite Ph. lia.
Qed.

Lemma copy_loop_copied reqs : forall pre prev h, l = pre ++ reqs -> h ∈ pre -> key_from prev = key_from h ->
  (forall z, z ∈ l -> key_from z = key_from h -> flag_from h <= flag_from z) ->
  (forall z, z ∈ pre -> key_from z [-] 1 <= key_from h [-] 1) ->
  Forall2 copied reqs (copy_loop prev (b_record h) reqs).
Proof.
  induction reqs as [|x reqs IH]; intros pre prev h E Hh Hp Hleast Hle; [constructor|]. cbn [copy_loop].
  assert (E' : l = (pre ++ [x]) ++ reqs) by (rewrite E; by rewrite <- app_assoc).
  destruct (middle_in pre h x reqs E Hh) as [Hhl Hxl].
  assert (Hh' : h ∈ pre ++ [x]) by (apply elem_of_app; by left).
  assert (Hx' : x ∈ pre ++ [x]) by (apply elem_of_app; right; by apply list_elem_of_singleton).
  destruct (key_from x =? key_from prev) eqn:Ek; breflect; cbn [negb].
  - rewrite andb_true_r. change (record_key (b_record h)) with (key_from h).
    replace (key_from x =? key_from h) with true by (symmetry; apply Z.eqb_eq; congruence). rewrite andb_true_r.
    set (c := (flag_from x =? 1) && negb (key_from h =? 0)). set (x' := set_record x (b2z c) (if c then b_record h else b_record x)).
    assert (Hkx' : key_from x' = key_from h) by (unfold x'; destruct c; [done|exact (eq_trans Ek Hp)]).
    constructor.
    + split; [done|]. split; [congruence|]. intros Hf H0. assert (Hc : c = true).
      { unfold c. rewrite Hf. assert (key_from h <> 0) by congruence. lia. }
      split.
      * intros y Hy Fy Ky. unfold x'. rewrite Hc. split; [done|]. exists h. split_and!; [done| |congruence|done].
        assert (flag_from h <= flag_from y) by (apply Hleast; [done|congruence]). destruct (Hflag h Hhl); lia.
      * intros Hone. pose proof (countb_two (fun y => key_from y =? key_from x) pre x reqs h E Hh) as Htwo. cbn beta in Htwo.
        rewrite Z.eqb_refl in Htwo. specialize (Htwo ltac:(apply Z.eqb_eq; congruence) eq_refl). lia.
    + apply (IH (pre ++ [x]) x' h E'); [done|done|done|]. intros z [Hz|Hz%list_elem_of_singleton]%elem_of_app; [by apply Hle|].
      subst z. rewrite Ek, Hp. done.
  - rewrite andb_false_r. set (x' := set_record x (b2z false) (b_record x)).
    assert (Hne : key_from x <> key_from h) by congruence.
    pose proof (new_key_least pre h x reqs E Hh Hne Hle) as Hl'.
    constructor.
    + split; [done|]. split; [done|]. intros Hf H0. split; [|done]. intros y Hy Fy Ky. specialize (Hl' y Hy Ky). lia.
    + apply (IH (pre ++ [x]) x' x E'); [done|done|done|]. intros z [Hz|Hz%list_elem_of_singleton]%elem_of_app; [|by subst z].
      destruct (ascending_middle pre x reqs E) as [Hpre _]. pose proof (cmp_key_flag_false _ _ (Hpre z Hz)). lia.
Qed.

Lemma copy_records_copied : Forall2 copied l (copy_records l).
Proof.
  assert (Hcase : l = [] \/ exists x reqs, l = x :: reqs) by (destruct l; eauto).
  destruct Hcase as [->|(x & reqs & El)]; [constructor|]. rewrite El at 2. cbn [copy_records].
  set (x' := set_record x 0 (b_record x)). change (b_record x') with (b_record x).
  assert (Hxl : x ∈ l) by (rewrite El; left).
  assert (Hleast : forall z, z ∈ l -> key_from z = key_from x -> flag_from x <= flag_from z).
  { intros z Hz Ek. destruct (ascending_middle [] x reqs El) as [_ Hpost]. rewrite El in Hz. apply elem_of_cons in Hz as [->|Hz]; [done|].
    pose proof (cmp_key_flag_false _ _ (Hpost z Hz)) as Hc. rewrite Ek in Hc. lia. }
  rewrite El at 1. constructor.
  - split; [done|]. split; [done|]. intros Hf H0. split; [|done]. intros y Hy Fy Ky. specialize (Hleast y Hy Ky). lia.
  - apply (copy_loop_copied reqs [x] x' x); [done|by apply list_elem_of_singleton|done|done|]. by intros z ->%list_elem_of_singleton.
Qed.
End Copy.

(** ** The merged array *)

Definition response (a : list Z) : batchable_request := set_record (set_flag zero_request 0) 0 a.

Lemma response_requests_eq rq b A : is_success (shard_request_error rq) = true -> shard_request_records rq = Some (concat A) ->
  length A = b -> Forall (fun a => length a = RECORD_SIZE) A -> response_requests b rq = map response A.
Proof.
  intros Hs Hr <- HA. unfold response_requests. rewrite Hs, Hr. cbn [from_option id]. apply list_eq. intros i.
  rewrite !list_lookup_fmap. destruct (A !! i) as [a|] eqn:E.
  - rewrite lookup_seq_lt by (by eapply lookup_lt_Some). cbn. f_equal. unfold response. f_equal.
    rewrite Nat.mul_comm. by apply concat_slice.
  - rewrite lookup_ge_None_2; [done|]. rewrite length_seq. by apply lookup_ge_None.
Qed.

(** A shard's request without an error, and its answers. *)
Definition answered (b : nat) (rq : sharded_ohtable_request) (A : list (list Z)) : Prop :=
  is_success (shard_request_error rq) = true /\ shard_request_records rq = Some (concat A) /\ length A = b /\
  Forall (fun a => length a = RECORD_SIZE) A.

Lemma merge_responses_eq b (C : list batchable_request) reqs As : Forall2 (answered b) reqs As ->
  merge_responses {| batch_size := b; num_client_requests := length C; shard_requests := reqs; client_requests := C |} (b * length As + length C) =
    map (fun r => set_flag r 1) C ++ map response (concat As).
Proof.
  intros HA. unfold merge_responses. cbn [batch_size num_client_requests shard_requests client_requests].
  rewrite take_ge by done.
  assert (E : concat (map (response_requests b) reqs) = map response (concat As) /\ length (concat As) = (b * length As)%nat).
  { induction HA as [|rq A reqs As (Hs & Hr & Hl & Hf) _ [IH1 IH2]]; [simpl; split; [done|lia]|]. cbn [map concat].
    rewrite IH1, map_app, (response_requests_eq rq b A) by done. split; [done|]. rewrite length_app, IH2, Hl. simpl. lia. }
  destruct E as [-> El]. rewrite length_app, !length_map, El.
  replace (b * length As + length C - _)%nat with 0%nat by lia. by rewrite app_nil_r.
Qed.

Lemma Forall2_kept {A} (R : A -> A -> Prop) (p : A -> bool) l l' : (forall x y, R x y -> p y = p x) -> Forall2 R l l' ->
  Forall2 R (kept p l) (kept p l').
Proof.
  intros Hp. unfold kept. induction 1 as [|x y l l' Hxy _ IH]; [constructor|]. simpl. rewrite (Hp x y Hxy).
  destruct (p x); [by constructor|done].
Qed.

Lemma last_success b reqs As : Forall2 (answered b) reqs As -> is_success (List.last (map shard_request_error reqs) err_SUCCESS) = true.
Proof.
  induction 1 as [|rq A reqs As (Hs & _) HA IH]; [done|]. destruct reqs as [|rq' reqs]; [done|exact IH].
Qed.

Lemma answered_lengths b reqs As : Forall2 (answered b) reqs As -> Forall (fun A => length A = b) As.
Proof. induction 1 as [|rq A reqs As (_ & _ & Hl & _) _ IH]; by constructor. Qed.

Section Extract.
Context (b : nat) (C : list batchable_request) (reqs : list sharded_ohtable_request) (As : list (list (list Z))).
Hypothesis HA : Forall2 (answered b) reqs As.
Hypothesis Akey : forall a, a ∈ concat As -> is_u64 (record_key a).
Hypothesis Ckey : forall c, c ∈ C -> is_u64 (key_from c) /\ key_from c <> 0.
Hypothesis Cdup : NoDup (map key_from C).
Hypothesis Hsize : Z.of_nat (b * length As + length C) < 2 ^ 64.

Definition merged : list batchable_request := map (fun r => set_flag r 1) C ++ map response (concat As).

Lemma merged_length : length merged = (b * length As + length C)%nat.
Proof.
  unfold merged. rewrite length_app, !length_map. rewrite (length_concat_uniform _ b); [lia|].
  by eapply answered_lengths.
Qed.

Lemma merged_elem x : x ∈ merged ->
  (exists c, c ∈ C /\ x = set_flag c 1) \/ (exists a, a ∈ concat As /\ x = response a).
Proof. intros [(c & -> & Hc)%list_elem_of_fmap|(a & -> & Ha)%list_elem_of_fmap]%elem_of_app; eauto. Qed.

Lemma merged_flag_key x : x ∈ merged -> (flag_from x = 0 \/ flag_from x = 1) /\ is_u64 (key_from x).
Proof.
  intros [(c & Hc & ->)|(a & Ha & ->)]%merged_elem; [split; [by right|]; apply (Ckey c Hc)|split; [by left|by apply Akey]].
Qed.

Lemma flag_is_set_01 x : flag_from x = 0 \/ flag_from x = 1 -> flag_is_set x = (flag_from x =? 1).
Proof. unfold flag_is_set. intros [->| ->]; done. Qed.

(** A client without an answer of its key is alone with the key. *)
Lemma countb_NoDup_key (l : list batchable_request) c : NoDup (map key_from l) -> c ∈ l ->
  countb (fun x => key_from x =? key_from c) l = 1%nat.
Proof.
  induction l as [|d l IH]; intros Hnd Hc; [by apply not_elem_of_nil in Hc|]. apply NoDup_cons in Hnd as [Hd Hnd]. simpl.
  apply elem_of_cons in Hc as [->|Hc].
  - rewrite Z.eqb_refl. rewrite countb_false; [done|]. intros x Hx. apply Z.eqb_neq. intros E. apply Hd.
    rewrite <- E. by apply list_elem_of_fmap_2.
  - rewrite IH by done. rewrite (proj2 (Z.eqb_neq _ _)); [done|]. intros E. apply Hd. rewrite E. by apply list_elem_of_fmap_2.
Qed.

Lemma merged_alone c : c ∈ C -> (forall a, a ∈ concat As -> record_key a <> key_from c) ->
  countb (fun y => key_from y =? key_from c) merged = 1%nat.
Proof.
  intros Hc Hn. unfold merged. rewrite countb_app, !countb_map.
  rewrite (countb_false _ (concat As)) by (intros a Ha; apply Z.eqb_neq; by apply Hn).
  rewrite Nat.add_0_r. by apply countb_NoDup_key.
Qed.

(** The keys of the clients in the order of the results. *)
Lemma kept_clients l : l ≡ₚ merged -> kept flag_is_set l ≡ₚ map (fun r => set_flag r 1) C.
Proof.
  intros Hperm. rewrite Hperm. unfold merged. rewrite kept_app, kept_all, kept_none; [by rewrite app_nil_r| |].
  - by intros x (a & -> & _)%list_elem_of_fmap.
  - by intros x (c & -> & _)%list_elem_of_fmap.
Qed.

Lemma client_elem l x : l ≡ₚ merged -> x ∈ kept flag_is_set l -> flag_from x = 1 /\ exists c, c ∈ C /\ key_from x = key_from c.
Proof. intros Hperm. rewrite (kept_clients l Hperm). intros (c & -> & Hc)%list_elem_of_fmap. split; [done|]. by exists c. Qed.

Lemma client_keys_ascending l : l ≡ₚ merged -> ascending cmp_key_flag l -> ascending Z.gtb (map key_from (kept flag_is_set l)).
Proof.
  intros Hperm Ha i j x y Hij Hx Hy.
  apply list_lookup_fmap_Some in Hx as (u & -> & Hu). apply list_lookup_fmap_Some in Hy as (v & -> & Hv).
  pose proof (ascending_kept _ flag_is_set l Ha i j u v Hij Hu Hv) as Hc%cmp_key_flag_false.
  assert (Hpos : forall w, w ∈ kept flag_is_set l -> key_from w [-] 1 = key_from w - 1).
  { intros w (_ & c & Hc' & E)%(client_elem l); [|done]. rewrite E. destruct (Ckey c Hc') as [Hu0 ?]. unfold is_u64 in Hu0. apply sub64_small. lia. }
  rewrite (Hpos u), (Hpos v) in Hc by (by eapply list_elem_of_lookup_2). rewrite Z.gtb_ltb. apply Z.ltb_ge. lia.
Qed.

(** One result. *)
Lemma result_of_client l x x' old : l ≡ₚ merged -> x ∈ kept flag_is_set l -> copied l x x' ->
  (exists a, a ∈ concat As /\ record_key a = key_from x /\ result_record x' old = a) \/
  ((forall a, a ∈ concat As -> record_key a <> key_from x) /\ result_record x' old = <[0%nat := UINT64_MAX]> old).
Proof.
  intros Hperm Hx (_ & _ & Hcop). destruct (client_elem l x Hperm Hx) as (Hf & c & Hc & Ek).
  destruct (Hcop Hf) as [Hfound Hmiss]; [rewrite Ek; apply (Ckey c Hc)|].
  destruct (decide (Exists (fun a => record_key a = key_from x) (concat As))) as [He|Hne].
  - left. apply Exists_exists in He as (a & Ha & Eka). destruct (Hfound (response a)) as (Hb & h & Hh & Fh & Kh & Rh).
    + rewrite Hperm. apply elem_of_app. right. by apply list_elem_of_fmap_2.
    + done.
    + done.
    + rewrite Hperm in Hh. destruct (merged_elem h Hh) as [(d & _ & ->)|(a' & Ha' & ->)]; [done|].
      exists a'. split_and!; [done|done|]. unfold result_record. rewrite Hb. exact Rh.
  - right. assert (Hall : forall a, a ∈ concat As -> record_key a <> key_from x).
    { intros a Ha E. apply Hne, Exists_exists. eauto. }
    split; [done|]. unfold result_record. rewrite Hmiss; [done|]. rewrite (countb_perm _ _ _ Hperm), Ek. apply merged_alone; [done|].
    intros a Ha. rewrite <- Ek. by apply Hall.
Qed.

Lemma extract_spec olds : length olds = length C ->
  exists ks results, ks ≡ₚ map key_from C /\ ascending Z.gtb ks /\ length results = length C /\
    extract_results_from_batch_jazz
      {| batch_size := b; num_client_requests := length C; shard_requests := reqs; client_requests := C |} olds (b * length As + length C) =
        (List.last (map shard_request_error reqs) err_SUCCESS, results) /\
    forall i k old r, ks !! i = Some k -> olds !! i = Some old -> results !! i = Some r ->
      (exists a, a ∈ concat As /\ record_key a = k /\ r = a) \/
      ((forall a, a ∈ concat As -> record_key a <> k) /\ r = <[0%nat := UINT64_MAX]> old).
Proof.
  intros Hold. unfold extract_results_from_batch_jazz. rewrite (merge_responses_eq b C reqs As HA). fold merged.
  pose proof Hsize as Hs. rewrite <- merged_length in Hs |- *.
  destruct (osort_all cmp_key_flag merged) as [Hperm Hasc]. set (l := osort cmp_key_flag 0 (length merged) merged) in *.
  clearbody l. cbn [num_client_requests shard_requests].
  assert (Hl : forall x, x ∈ l -> (flag_from x = 0 \/ flag_from x = 1) /\ is_u64 (key_from x)) by (intros x; rewrite Hperm; apply merged_flag_key).
  pose proof (copy_records_copied l Hasc (fun x H => proj1 (Hl x H)) (fun x H => proj2 (Hl x H))) as Hcop.
  assert (Hk2 : Forall2 (copied l) (kept flag_is_set l) (kept flag_is_set (copy_records l))).
  { apply Forall2_kept; [|done]. intros x y (Hf & _). unfold flag_is_set. by rewrite Hf. }
  assert (Hn : length (kept flag_is_set (copy_records l)) = length C).
  { rewrite <- (Forall2_length _ _ _ Hk2), (kept_clients l Hperm). apply length_map. }
  assert (Et : take (length C) (ocompact flag_is_set (copy_records l)) = kept flag_is_set (copy_records l)).
  { rewrite <- Hn. apply ocompact_kept. by rewrite <- (Forall2_length _ _ _ Hcop), Hperm. }
  rewrite Et. exists (map key_from (kept flag_is_set l)), (zip_with result_record (kept flag_is_set (copy_records l)) olds).
  split_and!; [|by apply client_keys_ascending|rewrite length_zip_with; lia|done|].
  - rewrite (kept_clients l Hperm), map_map. done.
  - intros i k old r Hk Ho Hr. apply list_lookup_fmap_Some in Hk as (x & -> & Hx).
    apply lookup_zip_with_Some in Hr as (x' & old' & -> & Hx' & Ho'). assert (old' = old) as -> by congruence.
    apply (result_of_client l); [done|by eapply list_elem_of_lookup_2|]. by eapply Forall2_lookup_lr.
Qed.
End Extract.

(** ** The queries *)

Definition query_record (k : Z) : list Z := k :: replicate (RECORD_SIZE - 1) 0.
Definition get_requests (keys : list Z) : list batchable_request := map (new_request 1 keys) (seq 0 (length keys)).

Lemma get_request_record keys i k : keys !! i = Some k -> b_record (new_request 1 keys i) = query_record k.
Proof.
  intros Hi. unfold new_request. cbn [b_record]. rewrite Nat.mul_1_r, (drop_S keys k i Hi). done.
Qed.

Lemma get_requests_keys keys : map key_from (get_requests keys) = keys.
Proof.
  unfold get_requests. rewrite map_map. apply list_eq. intros i. rewrite list_lookup_fmap. destruct (keys !! i) as [k|] eqn:E.
  - rewrite lookup_seq_lt by (by eapply lookup_lt_Some). cbn. f_equal. unfold key_from. by rewrite (get_request_record keys i k E).
  - rewrite lookup_ge_None_2; [done|]. rewrite length_seq. by apply lookup_ge_None.
Qed.

Lemma get_requests_elem keys q : q ∈ get_requests keys -> key_from q ∈ keys /\ b_record q = query_record (key_from q).
Proof.
  intros (i & -> & [_ Hi]%elem_of_seq)%list_elem_of_fmap. destruct (lookup_lt_is_Some_2 keys i) as [k Hk]; [lia|].
  unfold key_from. rewrite (get_request_record keys i k Hk). split; [by eapply list_elem_of_lookup_2|done].
Qed.

Lemma get_requests_in keys k : k ∈ keys -> exists q, q ∈ get_requests keys /\ key_from q = k.
Proof.
  intros [i Hi]%list_elem_of_lookup_1. exists (new_request 1 keys i). split.
  - apply list_elem_of_fmap_2, elem_of_seq. pose proof (lookup_lt_Some _ _ _ Hi). lia.
  - unfold key_from. by rewrite (get_request_record keys i k Hi).
Qed.

Lemma list_choice {A} (P : nat -> A -> Prop) n : (forall i, (i < n)%nat -> exists a, P i a) ->
  exists l, length l = n /\ forall i a, l !! i = Some a -> P i a.
Proof.
  induction n as [|n IH]; intros Hn; [by exists []|]. destruct IH as (l & Hl & HP); [intros i Hi; apply Hn; lia|].
  destruct (Hn n) as [a Ha]; [lia|]. exists (l ++ [a]). split; [rewrite length_app; simpl; lia|].
  intros i x [Hx|[Hge Hx]]%lookup_app_Some; [by apply HP|]. apply list_lookup_singleton_Some in Hx as [Hi <-].
  by replace i with n by lia.
Qed.

Section Get.
Context {RAM : Type} `{ObliviousRamSpec RAM} (nb : nat).
Implicit Types t : sharded_ohtable RAM.

(** What a shard promises for its batch of queries. *)
Definition get_post (se : shard RAM * entropy) (B : list (list Z)) (se' : shard RAM * entropy) (rq' : sharded_ohtable_request) : Prop :=
  same_shard se.1 se'.1 /\ (is_success (shard_request_error rq') = true ->
    table_inv nb (table se'.1) /\ slots_of nb (t_oram (table se'.1)) = slots_of nb (t_oram (table se.1)) /\
    exists A, shard_request_records rq' = Some (concat A) /\ Forall2 (answers_query nb (table se.1)) B A).

(** The record of a key that the lookup in its shard reaches. *)
Definition sharded_reach t (k : Z) (r : list Z) : Prop :=
  exists se, shards t !! Z.to_nat (shard_of t k) = Some se /\ within_reach nb (table se.1) k r.

Definition key_ok t (k : Z) : Prop := is_u64 k /\ k <> 0 /\ k <> UINT64_MAX /\ in_range t k.

(** The lookup of the key in its shard sees no empty slot. *)
Definition sharded_full_reach t (k : Z) : Prop :=
  exists se, shards t !! Z.to_nat (shard_of t k) = Some se /\ full_reach nb (table se.1) k.

(** The answer for a key: its record; for a key that is not stored the key
    [-1] in the caller's buffer, or, where the lookup sees no empty slot, the query
    with an empty payload. *)
Definition answer_ok t (k : Z) (old r : list Z) : Prop :=
  (forall x, sharded_reach t k x -> r = x) /\
  (sharded_lookup nb t k = None -> r = <[0%nat := UINT64_MAX]> old \/ r = query_record k /\ sharded_full_reach t k).

(** The answers of all shards. *)
Definition all_answers t (b : nat) (Bs As : list (list (list Z))) : Prop :=
  length As = num_shards t /\
  forall sh B A se, Bs !! sh = Some B -> As !! sh = Some A -> shards t !! sh = Some se -> Forall2 (answers_query nb (table se.1)) B A.

Lemma get_batch_records t keys b sh B : Forall (key_ok t) keys ->
  batch_ok cmp_shard_flag_key t (get_requests keys) b sh B ->
  forall r, r ∈ B -> record_ok r /\ is_u64 (record_key r) /\
    (record_key r <> 0 -> shard_of t (record_key r) = Z.of_nat sh /\ r = query_record (record_key r)).
Proof.
  intros Hk HB r Hr. destruct (bo_records _ _ _ _ _ _ HB r Hr) as [->|(q & Hq & -> & Hs)]; [done|].
  destruct (get_requests_elem keys q Hq) as [Hin Hrec]. rewrite Forall_forall in Hk. destruct (Hk _ Hin) as (Hu & H0' & Hm & _).
  change (record_key (b_record q)) with (key_from q). split_and!; [|done|intros _; split; done].
  split; [rewrite Hrec; done|done].
Qed.

(** An answer with a key belongs to the query of that key. *)
Lemma answer_of_key t keys b Bs As a k : Forall (key_ok t) keys ->
  (forall sh B, Bs !! sh = Some B -> batch_ok cmp_shard_flag_key t (get_requests keys) b sh B) ->
  length Bs = num_shards t -> length (shards t) = num_shards t -> all_answers t b Bs As -> a ∈ concat As ->
  record_key a = k -> k <> 0 -> k <> UINT64_MAX ->
  exists se, shards t !! Z.to_nat (shard_of t k) = Some se /\ answers_query nb (table se.1) (query_record k) a.
Proof.
  intros Hk HB HBl Hsl [HAl HA] Ha Ek Hk0 Hk1. apply list_elem_of_In, in_concat in Ha as (A & HAin & Hain).
  apply list_elem_of_In, list_elem_of_lookup_1 in HAin as [sh Hsh]. pose proof (lookup_lt_Some _ _ _ Hsh) as Hlt.
  destruct (lookup_lt_is_Some_2 Bs sh) as [B HBsh]; [lia|]. destruct (lookup_lt_is_Some_2 (shards t) sh) as [se Hse]; [lia|].
  pose proof (HA sh B A se HBsh Hsh Hse) as HF. apply list_elem_of_In, list_elem_of_lookup_1 in Hain as [i Hi].
  destruct (Forall2_lookup_r _ _ _ _ _ HF Hi) as (q & Hq & Hans).
  destruct (get_batch_records t keys b sh B Hk (HB sh B HBsh) q) as (_ & _ & Hqr); [by eapply list_elem_of_lookup_2|].
  assert (Eq : record_key q = k).
  { destruct Hans as ([->|(_ & [E| ->])] & _); [done|congruence|]. by elim Hk1. }
  destruct Hqr as [Hs Eqr]; [congruence|]. rewrite Eq in Hs, Eqr. exists se. rewrite Hs, Nat2Z.id, <- Eqr. done.
Qed.

(** Every key has an answer to its query. *)
Lemma answer_exists t keys b Bs As k se : sharded_wf t -> Forall (key_ok t) keys ->
  (forall sh B, Bs !! sh = Some B -> batch_ok cmp_shard_flag_key t (get_requests keys) b sh B) ->
  length Bs = num_shards t -> all_answers t b Bs As -> k ∈ keys -> shards t !! Z.to_nat (shard_of t k) = Some se ->
  exists a, a ∈ concat As /\ answers_query nb (table se.1) (query_record k) a.
Proof.
  intros Ht Hk HB HBl [HAl HA] Hin Hse. pose proof (lookup_lt_Some _ _ _ Hse) as Hlt. rewrite (wf_shards t Ht) in Hlt.
  destruct (lookup_lt_is_Some_2 Bs (Z.to_nat (shard_of t k))) as [B HBsh]; [lia|].
  destruct (lookup_lt_is_Some_2 As (Z.to_nat (shard_of t k))) as [A HAsh]; [lia|].
  destruct (get_requests_in keys k Hin) as (q & Hq & Eq). pose proof (shard_of_nonneg t k Ht).
  destruct (bo_covers _ _ _ _ _ _ (HB _ B HBsh) q Hq) as (q' & Hq' & HqB & Ek & _); [rewrite Eq; lia|].
  destruct (get_requests_elem keys q' Hq') as [_ Er]. rewrite Ek, Eq in Er. rewrite Er in HqB.
  apply list_elem_of_lookup_1 in HqB as [i Hi].
  destruct (Forall2_lookup_l _ _ _ _ _ (HA _ B A se HBsh HAsh Hse) Hi) as (a & Ha & Hans).
  exists a. split; [|done]. apply list_elem_of_In, in_concat. exists A. rewrite <- !list_elem_of_In.
  split; by eapply list_elem_of_lookup_2.
Qed.

(** The result for a key, from the answers of the shards. *)
Lemma result_answer_ok t keys b Bs As k old r : sharded_wf t -> Forall (key_ok t) keys ->
  (forall sh B, Bs !! sh = Some B -> batch_ok cmp_shard_flag_key t (get_requests keys) b sh B) ->
  length Bs = num_shards t -> all_answers t b Bs As -> k ∈ keys ->
  (exists a, a ∈ concat As /\ record_key a = k /\ r = a) \/
  ((forall a, a ∈ concat As -> record_key a <> k) /\ r = <[0%nat := UINT64_MAX]> old) -> answer_ok t k old r.
Proof.
  intros Ht Hk HB HBl HAs Hin Hr. pose proof Hk as Hk'. rewrite Forall_forall in Hk'. destruct (Hk' k Hin) as (_ & Hk0 & Hk1 & _).
  destruct Hr as [(a & Ha & Ek & ->)|[Hn ->]].
  - destruct (answer_of_key t keys b Bs As a k Hk HB HBl (wf_shards t Ht) HAs Ha Ek Hk0 Hk1) as (se & Hse & _ & Hf & Hnone). split.
    + intros x (se' & Hse' & Hx). assert (se' = se) as -> by congruence. by apply Hf.
    + unfold sharded_lookup. rewrite Hse. intros Hl. right. destruct (Hnone Hl) as [->|[-> Hfull]]; [by elim Hk1|]. split; [done|]. by exists se.
  - split; [|by left]. intros x (se & Hse & Hx).
    destruct (answer_exists t keys b Bs As k se Ht Hk HB HBl HAs Hin Hse) as (a & Ha & _ & Hf & _).
    elim (Hn a Ha). rewrite (Hf x Hx). by destruct Hx as (? & _ & ? & _).
Qed.

(** The shards answer their batches. *)
Lemma get_prepare t keys : sharded_inv nb t -> Forall (key_ok t) keys -> keys <> [] -> Z.of_nat (length keys) < 2 ^ 31 ->
  exists b Bs ss reqs, batch_queries t (length keys) keys shard_request_query =
      Some (with_shards t ss, {| batch_size := b; num_client_requests := length keys; shard_requests := reqs;
                                 client_requests := map (assign_shard t) (get_requests keys) |}) /\
    (b <= length keys)%nat /\ length Bs = num_shards t /\ length ss = num_shards t /\ length reqs = num_shards t /\
    (forall sh B, Bs !! sh = Some B -> batch_ok cmp_shard_flag_key t (get_requests keys) b sh B) /\
    (forall i se B, shards t !! i = Some se -> Bs !! i = Some B ->
      exists se' rq', ss !! i = Some se' /\ reqs !! i = Some rq' /\ get_post se B se' rq').
Proof.
  intros [Ht Hsize Htab] Hk Hne Hlen. unfold batch_queries. fold (get_requests keys). unfold prepare_query_batches.
  assert (Hlq : length (get_requests keys) = length keys) by (unfold get_requests; by rewrite length_map, length_seq).
  destruct (batches_spec cmp_shard_flag_key t (get_requests keys) Ht) as (b & Bs & Hcalc & Hb & HBs & Hn & Hspec).
  { apply Forall_forall. intros q [Hq _]%get_requests_elem. rewrite Forall_forall in Hk. apply (Hk _ Hq). }
  { intros E. rewrite E in Hlq. by destruct keys. }
  { by rewrite Hlq. }
  rewrite Hcalc, Nat2Z.id, HBs, Hlq. rewrite (requests_of_batches query_request b (num_shards t) Bs Hn).
  2:{ apply Forall_lookup. intros sh B HB. apply (bo_length _ _ _ _ _ _ (Hspec sh B HB)). }
  destruct (run_requests_spec (fun B => query_request (concat B) (length B)) get_post (shards t) Bs) as (ss & reqs & -> & L1 & L2 & Hpost).
  { apply Forall2_same_length_lookup_2; [rewrite Hn; apply (wf_shards t Ht)|]. intros sh se B Hse HB. destruct (Htab sh se Hse) as [Hti Hrs].
    assert (Hok : Forall record_ok B) by (apply Forall_forall; intros r Hr; apply (get_batch_records t keys b sh B Hk (Hspec sh B HB) r Hr)).
    destruct (handle_query_spec nb se.1 se.2 B Hti Hrs Hok) as (s' & e' & r' & ? & ? & ?). exists s', e', r'. by split_and!. }
  exists b, Bs, ss, reqs. rewrite (wf_shards t Ht) in L1. split_and!; [done| |done|done|congruence|done|done].
  destruct (calculate_batch_size_spec t (get_requests keys) Ht) as (b' & Hcalc' & _ & Hle & _).
  { apply Forall_forall. intros q [Hq _]%get_requests_elem. rewrite Forall_forall in Hk. apply (Hk _ Hq). }
  { rewrite Hlq. lia. }
  rewrite Hcalc in Hcalc'. apply (f_equal fst), Nat2Z.inj in Hcalc'. simpl in Hcalc'. lia.
Qed.

(** The answers as a list, and what the extraction makes of them. *)
Lemma get_extract t keys olds b Bs ss reqs : sharded_inv nb t -> NoDup keys -> Forall (key_ok t) keys ->
  Z.of_nat (length keys) < 2 ^ 31 -> length olds = length keys ->
  batch_queries t (length keys) keys shard_request_query =
    Some (with_shards t ss, {| batch_size := b; num_client_requests := length keys; shard_requests := reqs;
                               client_requests := map (assign_shard t) (get_requests keys) |}) ->
  (b <= length keys)%nat -> length Bs = num_shards t -> length reqs = num_shards t ->
  (forall sh B, Bs !! sh = Some B -> batch_ok cmp_shard_flag_key t (get_requests keys) b sh B) ->
  Forall (fun rq => is_success (shard_request_error rq) = true) reqs ->
  (forall i se, shards t !! i = Some se -> exists B rq' A, Bs !! i = Some B /\ reqs !! i = Some rq' /\
     shard_request_records rq' = Some (concat A) /\ Forall2 (answers_query nb (table se.1)) B A) ->
  exists ks err results, sharded_ohtable_get_batch t (length keys) keys olds = Some (err, results, with_shards t ss) /\ is_success err = true /\
    ks ≡ₚ keys /\ ascending Z.gtb ks /\ length results = length keys /\
    forall i k old r, ks !! i = Some k -> olds !! i = Some old -> results !! i = Some r -> answer_ok t k old r.
Proof.
  intros [Ht _ _] Hnd Hk Hlen Hold Hbq Hble HBl Hrl Hspec Hsucc Hall. pose proof (wf_shards t Ht) as Hns.
  destruct (list_choice (fun i A => forall se, shards t !! i = Some se -> exists B rq', Bs !! i = Some B /\ reqs !! i = Some rq' /\
      shard_request_records rq' = Some (concat A) /\ Forall2 (answers_query nb (table se.1)) B A) (num_shards t)) as (As & HAl & HA).
  { intros i Hi. destruct (lookup_lt_is_Some_2 (shards t) i) as [se Hse]; [lia|]. destruct (Hall i se Hse) as (B & rq' & A & ?).
    exists A. intros se' Hse'. assert (se' = se) as -> by congruence. eauto. }
  assert (HAll : all_answers t b Bs As).
  { split; [done|]. intros sh B A se HB HAs Hse. destruct (HA sh A HAs se Hse) as (B' & rq' & HB' & _ & _ & HF). congruence. }
  assert (Hlens : forall sh B A, Bs !! sh = Some B -> As !! sh = Some A -> length A = b /\ Forall (fun a => length a = RECORD_SIZE /\ is_u64 (record_key a)) A).
  { intros sh B A HB HAs. destruct (lookup_lt_is_Some_2 (shards t) sh) as [se Hse]; [rewrite Hns, <- HBl; by eapply lookup_lt_Some|].
    pose proof (proj2 HAll sh B A se HB HAs Hse) as HF.
    split; [rewrite <- (Forall2_length _ _ _ HF); apply (bo_length _ _ _ _ _ _ (Hspec sh B HB))|].
    apply Forall_lookup. intros i a Ha. destruct (Forall2_lookup_r _ _ _ _ _ HF Ha) as (q & Hq & Hans & _).
    destruct (get_batch_records t keys b sh B Hk (Hspec sh B HB) q) as ([Hl _] & Hu & _); [by eapply list_elem_of_lookup_2|].
    destruct Hans as [->|(Hla & [-> | ->])]; done. }
  assert (HF2 : Forall2 (answered b) reqs As).
  { apply Forall2_same_length_lookup_2; [congruence|]. intros i rq A Hrq HAs.
    destruct (lookup_lt_is_Some_2 (shards t) i) as [se Hse]; [rewrite Hns, <- HAl; by eapply lookup_lt_Some|].
    destruct (HA i A HAs se Hse) as (B & rq' & HB & Hrq' & Hrec & _). assert (rq' = rq) as -> by congruence.
    destruct (Hlens i B A HB HAs) as [? Hf]. split_and!; [by eapply (Forall_lookup_1 _ _ _ _ Hsucc)|done|done|].
    eapply Forall_impl; [exact Hf|]. by intros a [? _]. }
  destruct (wf_num_shards t Ht) as [_ Hns32]. set (C := map (assign_shard t) (get_requests keys)) in *.
  assert (HCk : map key_from C = keys).
  { unfold C. rewrite map_map. change (map key_from (get_requests keys) = keys). apply get_requests_keys. }
  assert (HCl : length C = length keys) by (rewrite <- HCk; by rewrite length_map).
  destruct (extract_spec b C reqs As HF2) with (olds := olds) as (ks & results & Hks & Hasc & Hrlen & Hex & Hres).
  - intros a Ha. apply list_elem_of_In, in_concat in Ha as (A & HAin & Hain).
    apply list_elem_of_In, list_elem_of_lookup_1 in HAin as [sh Hsh].
    destruct (lookup_lt_is_Some_2 Bs sh) as [B HB]; [rewrite HBl, <- HAl; by eapply lookup_lt_Some|].
    destruct (Hlens sh B A HB Hsh) as [_ Hf]. rewrite Forall_forall in Hf. apply Hf. by apply list_elem_of_In.
  - intros c Hc. assert (Hin : key_from c ∈ keys) by (rewrite <- HCk; by apply list_elem_of_fmap_2).
    rewrite Forall_forall in Hk. destruct (Hk _ Hin) as (? & ? & _). done.
  - by rewrite HCk.
  - rewrite HAl, HCl. nia.
  - by rewrite HCl.
  - rewrite HCk in Hks. rewrite HAl, HCl in Hex. rewrite HCl in Hrlen.
    exists ks, (List.last (map shard_request_error reqs) err_SUCCESS), results.
    split; [|split; [by eapply last_success|split_and!; [done|done|done|]]].
    + unfold sharded_ohtable_get_batch. rewrite Hbq. unfold extract_results_from_batch.
      cbn [with_shards num_shards batch_size num_client_requests]. rewrite Hex. done.
    + intros i k old r Hki Ho Hr. apply (result_answer_ok t keys b Bs As k old r Ht Hk Hspec HBl HAll); [|by apply (Hres i)].
      rewrite <- Hks. by eapply list_elem_of_lookup_2.
Qed.

Lemma get_batch_spec t keys olds : sharded_inv nb t -> NoDup keys -> Forall (key_ok t) keys -> keys <> [] ->
  Z.of_nat (length keys) < 2 ^ 31 -> length olds = length keys ->
  exists t' batches, batch_queries t (length keys) keys shard_request_query = Some (t', batches) /\
    (Forall (fun rq => is_success (shard_request_error rq) = true) (shard_requests batches) ->
     sharded_inv nb t' /\ (forall k, sharded_lookup nb t' k = sharded_lookup nb t k) /\
     exists ks err results, sharded_ohtable_get_batch t (length keys) keys olds = Some (err, results, t') /\ is_success err = true /\
       ks ≡ₚ keys /\ ascending Z.gtb ks /\ length results = length keys /\
       forall i k old r, ks !! i = Some k -> olds !! i = Some old -> results !! i = Some r -> answer_ok t k old r).
Proof.
  intros Hinv Hnd Hk Hne Hlen Hold. pose proof Hinv as [Ht Hsize Htab].
  destruct (get_prepare t keys Hinv Hk Hne Hlen) as (b & Bs & ss & reqs & Hbq & Hble & HBl & Hssl & Hrl & Hspec & Hpost).
  eexists _, _. split; [exact Hbq|]. cbn [shard_requests]. intros Hsucc. pose proof (wf_shards t Ht) as Hns.
  assert (Hall : forall i se, shards t !! i = Some se -> exists B se' rq' A, Bs !! i = Some B /\ ss !! i = Some se' /\ reqs !! i = Some rq' /\
      same_shard se.1 se'.1 /\ table_inv nb (table se'.1) /\ slots_of nb (t_oram (table se'.1)) = slots_of nb (t_oram (table se.1)) /\
      shard_request_records rq' = Some (concat A) /\ Forall2 (answers_query nb (table se.1)) B A).
  { intros i se Hse. destruct (lookup_lt_is_Some_2 Bs i) as [B HB]; [rewrite HBl, <- Hns; by eapply lookup_lt_Some|].
    destruct (Hpost i se B Hse HB) as (se' & rq' & ? & Hrq & ? & HP).
    destruct (HP (Forall_lookup_1 _ _ _ _ Hsucc Hrq)) as (? & ? & A & ? & ?). exists B, se', rq', A. by split_and!. }
  split; [|split].
  - split; [|done|].
    + apply same_shards_wf; [done|congruence|]. intros i se se' Hse Hse'. destruct (Hall i se Hse) as (? & se1 & ? & ? & _ & E & _ & ? & _). congruence.
    + intros i se' Hse'. cbn [with_shards shards] in Hse'.
      destruct (lookup_lt_is_Some_2 (shards t) i) as [se Hse]; [rewrite Hns, <- Hssl; by eapply lookup_lt_Some|].
      destruct (Hall i se Hse) as (? & se1 & ? & ? & _ & E & _ & (_ & _ & Hrs) & Hti & _). assert (se1 = se') as -> by congruence.
      split; [done|]. rewrite Hrs. apply (Htab i se Hse).
  - intros k. unfold sharded_lookup. rewrite shard_of_with_shards. cbn [with_shards shards].
    destruct (shards t !! Z.to_nat (shard_of t k)) as [se|] eqn:Hse.
    + destruct (Hall _ se Hse) as (? & se1 & ? & ? & _ & -> & _ & _ & _ & Hsl & _). unfold table_lookup. by rewrite Hsl.
    + rewrite lookup_ge_None_2; [done|]. rewrite Hssl, <- Hns. by apply lookup_ge_None.
  - apply (get_extract t keys olds b Bs ss reqs Hinv Hnd Hk Hlen Hold Hbq Hble HBl Hrl Hspec Hsucc).
    intros i se Hse. destruct (Hall i se Hse) as (B & _ & rq' & A & ? & _ & ? & _ & _ & _ & ? & ?). by exists B, rq', A.
Qed.
End Get.
