(* ===== verification/ShardedTheorems.v ===== *)
(** * The sharded table: properties *)

From S2P Require Import Prelude Errors Util OddEvenSort PositionMap OramInterface OramPositionMap OramTheorems OHTable RobinHood OHTableSpec OHTableTheorems HalfSipHash OCompact Queue Shard ShardTheorems ShardedOHTable ShardedSpec ShardedTable ShardedPut ShardedGet.
Local Open Scope Z_scope.

(** ** Properties *)

(** C2. A batch of puts over the shards always returns, and when no shard reports
    an error the table holds, for every key but 0 and [-1] in the range of a shard,
    the last record of the batch with that key, or what it held before: the
    oblivious assignment to the shards loses no record and keeps the last of
    several for one key. The batch has at least one and fewer than 2^31 records,
    each of seven words with a key that is not [-1] and whose hash is in the range
    of a shard; the table has fewer than 2^53 slots per shard. A record whose hash
    is among the few largest is in no shard's range and would be lost
    ([top_hash_without_shard]), and an empty batch writes the flag of a first
    request that does not exist. *)
Theorem sharded_put_batch_correct {RAM} `{ObliviousRamSpec RAM} nb (t : sharded_ohtable RAM) records :
  sharded_inv nb t -> Forall record_ok records -> records <> [] ->
  Forall (fun r => in_range t (record_key r)) records -> Z.of_nat (length records) < 2 ^ 31 -> 24 * Z.of_nat nb < 2 ^ 53 ->
  exists err t', sharded_ohtable_put_batch t (length records) (concat records) = Some (err, t') /\
    (is_success err = true -> sharded_inv nb t' /\
     forall k, k <> 0 -> k <> UINT64_MAX -> in_range t k -> sharded_lookup nb t' k = insert_all records k (sharded_lookup nb t k)).
Proof. apply put_batch_spec. Qed.

(** C3. A batch of gets always returns. When every shard has handled its requests
    without an error, the table's contents are as before and the results are the
    answers of the keys in ascending order: the record of a key, if its
    displacement is at most the [max_offset] of its shard; for a key that is not
    stored the key [-1] in front of the caller's buffer, or, only if no slot that
    the lookup scans is empty, the key itself with a payload of zeros. The keys are
    at least one and fewer than 2^31, all different, neither 0 nor [-1], with
    hashes in the range of a shard. For equal keys and for the error of a shard
    that is not the last see [duplicate_absent_found] and [extract_hides_error]. *)
Theorem sharded_get_batch_correct {RAM} `{ObliviousRamSpec RAM} nb (t : sharded_ohtable RAM) keys olds :
  sharded_inv nb t -> NoDup keys -> Forall (key_ok t) keys -> keys <> [] ->
  Z.of_nat (length keys) < 2 ^ 31 -> length olds = length keys ->
  exists t' batches, batch_queries t (length keys) keys shard_request_query = Some (t', batches) /\
    (Forall (fun rq => is_success (shard_request_error rq) = true) (shard_requests batches) ->
     sharded_inv nb t' /\ (forall k, sharded_lookup nb t' k = sharded_lookup nb t k) /\
     exists ks err results, sharded_ohtable_get_batch t (length keys) keys olds = Some (err, results, t') /\ is_success err = true /\
       ks ≡ₚ keys /\ ascending Z.gtb ks /\ length results = length keys /\
       forall i k old r, ks !! i = Some k -> olds !! i = Some old -> results !! i = Some r -> answer_ok nb t k old r).
Proof. apply get_batch_spec. Qed.

(** C32. The batches do not depend on the keys in their size: every shard gets
    exactly [b] records, where [b] has room for the requests of each shard;
    they are requests of the shard and zero records, every request of the
    shard is represented by one of its key, and no key but 0 occurs twice. *)
Theorem prepare_batches_correct {RAM} `{ObliviousRam RAM} gt `{!BatchOrder gt} (t : sharded_ohtable RAM) reqs :
  sharded_wf t -> Forall (fun r => in_range t (key_from r)) reqs -> reqs <> [] -> Z.of_nat (length reqs) < 2 ^ 31 ->
  exists b Bs, calculate_batch_size t reqs = (Z.of_nat b, map (assign_shard t) reqs) /\ (1 <= b)%nat /\
    prepare_records gt t (length reqs) (map (assign_shard t) reqs ++ replicate (b * num_shards t) zero_request) (Z.of_nat b) = concat Bs /\
    length Bs = num_shards t /\ forall sh B, Bs !! sh = Some B -> batch_ok gt t reqs b sh B.
Proof. apply batches_spec. assumption. Qed.

(** The quotient by the step of the shards is not always the number of a
    shard: for a hash of at least [num_shards * step] it is [num_shards].  The
    last shard contains such a hash, so that it is counted in the batch size,
    but its request is assigned to no shard; the largest hash is in no shard's
    bounds either. *)
Theorem top_hash_without_shard (n : nat) h : (2 <= n)%nat -> Z.of_nat n < 2 ^ 32 -> is_u64 h -> Z.of_nat n * step_size n <= h ->
  Z.of_nat n <= ct_div h (step_size n) (prep_ct_div (step_size n)) /\
  (fst (shard_bounds n (n - 1)) <=? h) = true /\ (h <? snd (shard_bounds n (n - 1))) = negb (h =? UINT64_MAX).
Proof.
  intros Hn Hm Hh Hge. destruct (step_size_bounds n Hn Hm) as [[Hs1 Hs2] Hs3]. unfold is_u64, UINT64_MAX in *.
  rewrite ct_div_spec by done. split; [apply Z.div_le_lower_bound; lia|]. unfold shard_bounds. rewrite Nat.eqb_refl. cbn [fst snd].
  rewrite mul64_small by nia. unfold UINT64_MAX. split; [apply Z.leb_le; nia|]. destruct (h =? _) eqn:E; breflect; simpl; lia.
Qed.

(** Two requests of one batch for a key that is not stored: the first is
    answered with the key [-1], the second as found, with the key and an empty
    payload. *)
Theorem duplicate_absent_found :
  let client i := new_request 1 [5; 5] i in
  let sbq := {| batch_size := 1; num_client_requests := 2; client_requests := [client 0%nat; client 1%nat];
                shard_requests := [with_result (query_request [] 1) (Some (replicate RECORD_SIZE UINT64_MAX)) err_SUCCESS] |} in
  extract_results_from_batch_jazz sbq (replicate 2 (replicate RECORD_SIZE 9)) 3 =
    (err_SUCCESS, [UINT64_MAX :: replicate 6 9; query_record 5]).
Proof. vm_compute. reflexivity. Qed.

(** The error of a shard other than the last is not returned: its keys are
    answered as not found, and the call reports success. *)
Theorem extract_hides_error :
  let sbq := {| batch_size := 1; num_client_requests := 1; client_requests := [new_request 1 [5] 0%nat];
                shard_requests := [with_result (query_request [] 1) (Some (query_record 5)) err_ORAM__STASH_EXHAUSTION;
                                   with_result (query_request [] 1) (Some zero_record) err_SUCCESS] |} in
  extract_results_from_batch_jazz sbq [replicate RECORD_SIZE 9] 3 = (err_SUCCESS, [UINT64_MAX :: replicate 6 9]).
Proof. vm_compute. reflexivity. Qed.

(** ** A small table of two shards *)

Definition small_half (i : nat) : shard inner_oram * entropy :=
  ({| lb := fst (shard_bounds 2 i); ub := snd (shard_bounds 2 i); record_size_qwords := RECORD_SIZE; keep_alive := true;
      table := small_table; running := SHARD_WORKER_RUNNING |}, small_entropy).
Definition small_sharded : sharded_ohtable inner_oram :=
  {| num_shards := 2; st_record_size := RECORD_SIZE; shards := [small_half 0; small_half 1]; hash_key := [0; 1; 2; 3; 4; 5; 6; 7];
     ct_divisor_step := step_size 2; ct_div_consts := prep_ct_div (step_size 2) |}.

Lemma small_sharded_wf : sharded_wf small_sharded.
Proof.
  split; try reflexivity.
  - split; simpl; lia.
  - intros [|[|i]] se Hse; [injection Hse as <-; reflexivity..|done].
  - repeat constructor; vm_compute; discriminate.
Qed.

Lemma small_sharded_inv : sharded_inv 1 small_sharded.
Proof.
  split; [exact small_sharded_wf|reflexivity|].
  intros [|[|i]] se Hse; [injection Hse as <-; split; [exact small_table_inv|reflexivity]..|done].
Qed.

Lemma small_in_range k : (shard_of small_sharded k <? 2) = true -> in_range small_sharded k.
Proof. intros E. apply Z.ltb_lt, E. Qed.

(** Two records of one key and one of another. *)
Definition small_batch : list (list Z) := [small_record 58 7; small_record 19 1; small_record 58 8].

Lemma sharded_put_batch_correct_witness :
  exists t', sharded_ohtable_put_batch small_sharded 3 (concat small_batch) = Some (err_SUCCESS, t') /\
    sharded_lookup 1 t' 58 = Some (small_record 58 8) /\ sharded_lookup 1 t' 19 = Some (small_record 19 1).
Proof.
  destruct (sharded_put_batch_correct 1 small_sharded small_batch small_sharded_inv) as (err & t' & Hrun & Hspec).
  - repeat constructor; discriminate.
  - discriminate.
  - repeat constructor; apply small_in_range; vm_compute; reflexivity.
  - reflexivity.
  - reflexivity.
  - change (length small_batch) with 3%nat in Hrun.
    assert (Herr : match sharded_ohtable_put_batch small_sharded 3 (concat small_batch) with Some (err, _) => err | None => err_SUCCESS end = err_SUCCESS)
      by (vm_compute; reflexivity).
    rewrite Hrun in Herr. subst err. destruct (Hspec eq_refl) as [_ Hl]. exists t'. split; [exact Hrun|]. split.
    + rewrite (Hl 58); [reflexivity|discriminate|discriminate|apply small_in_range; vm_compute; reflexivity].
    + rewrite (Hl 19); [reflexivity|discriminate|discriminate|apply small_in_range; vm_compute; reflexivity].
Defined.

(** The slot of a record in its shard, and whether a lookup reaches it. *)
Definition stored_slot (t : sharded_ohtable inner_oram) (k : Z) : nat :=
  match shards t !! Z.to_nat (shard_of t k) with
  | Some se => match list_find (fun r => record_key r = k) (slots_of 1 (t_oram (table se.1))) with Some (i, _) => i | None => 0%nat end
  | None => 0%nat
  end.
Definition reachb (t : sharded_ohtable inner_oram) (k : Z) (x : list Z) : bool :=
  match shards t !! Z.to_nat (shard_of t k) with
  | Some se => bool_decide (slots_of 1 (t_oram (table se.1)) !! stored_slot t k = Some x) && (record_key x =? k) &&
               (Z.of_nat (jump_at 24 k (stored_slot t k)) <=? t_max_offset (table se.1))
  | None => false
  end.

Lemma reachb_spec t k x : reachb t k x = true -> sharded_reach 1 t k x.
Proof.
  unfold reachb, sharded_reach, within_reach. destruct (shards t !! _) as [se|]; [|done]. intros E. breflect. exists se. split; [done|].
  exists (stored_slot t k). change (24 * 1)%nat with 24%nat. split_and!; [by eapply bool_decide_eq_true_1|done|done].
Qed.

(** The table after the batch, and two keys of which it holds one. *)
Definition filled_sharded : sharded_ohtable inner_oram :=
  match sharded_ohtable_put_batch small_sharded 3 (concat small_batch) with Some (_, t) => t | None => small_sharded end.

Lemma filled_sharded_inv : sharded_inv 1 filled_sharded.
Proof.
  destruct (put_batch_spec 1 small_sharded small_batch small_sharded_inv) as (err & t' & Hrun & Hspec).
  - repeat constructor; discriminate.
  - discriminate.
  - repeat constructor; apply small_in_range; vm_compute; reflexivity.
  - reflexivity.
  - reflexivity.
  - change (length small_batch) with 3%nat in Hrun.
    assert (Herr : match sharded_ohtable_put_batch small_sharded 3 (concat small_batch) with Some (err, _) => err | None => err_SUCCESS end = err_SUCCESS)
      by (vm_compute; reflexivity).
    unfold filled_sharded. rewrite Hrun in *. subst err. by apply Hspec.
Qed.

Lemma filled_key_ok k : (0 <? k) && (k <? UINT64_MAX) && (shard_of filled_sharded k <? Z.of_nat (num_shards filled_sharded)) = true -> key_ok filled_sharded k.
Proof. unfold key_ok, in_range, is_u64, UINT64_MAX. intros E. breflect. split_and!; lia. Qed.

Lemma ascending_pair ks a b : a < b -> ks ≡ₚ [b; a] -> ascending Z.gtb ks -> ks = [a; b].
Proof.
  intros Hab Hp Ha. apply (ascending_unique Z.gtb); [exact gtb_anti|exact Ha| |rewrite Hp; constructor].
  intros [|[|i]] [|[|j]] x y Hij Hx Hy; try lia; simpl in *; simplify_eq. unfold Z.gtb. case_match eqn:E; [done|done|]. apply Z.compare_gt_iff in E. lia.
Qed.

#[local] Opaque filled_sharded.

(** Asked for 58 and 17, the table answers 17, which it does not hold, first,
    and 58 with the last record put under it. *)
Lemma sharded_get_batch_correct_witness :
  exists err x t', sharded_ohtable_get_batch filled_sharded 2 [58; 17] (replicate 2 (replicate RECORD_SIZE 9)) = Some (err, [x; small_record 58 8], t') /\
    is_success err = true /\ (x = UINT64_MAX :: replicate 6 9 \/ x = query_record 17 /\ sharded_full_reach 1 filled_sharded 17).
Proof.
  destruct (sharded_get_batch_correct 1 filled_sharded [58; 17] (replicate 2 (replicate RECORD_SIZE 9)) filled_sharded_inv)
    as (t' & batches & Hb & Hspec).
  - apply (bool_decide_unpack _); vm_compute; exact I.
  - apply Forall_cons. split; [apply filled_key_ok; vm_compute; reflexivity|]. apply Forall_singleton, filled_key_ok. vm_compute. reflexivity.
  - discriminate.
  - reflexivity.
  - reflexivity.
  - change (length [58; 17]) with 2%nat in *.
    assert (Hok : match batch_queries filled_sharded 2 [58; 17] shard_request_query with
        Some (_, bs) => map (fun rq => is_success (shard_request_error rq)) (shard_requests bs) | None => [] end = [true; true]) by (vm_compute; reflexivity).
    rewrite Hb in Hok. destruct Hspec as (_ & _ & ks & err & results & Hrun & He & Hk & Hasc & Hlen & Hans).
    { destruct (shard_requests batches) as [|r1 [|r2 [|r3 rs]]]; try discriminate Hok. injection Hok as E1 E2. repeat constructor; assumption. }
    rewrite (ascending_pair ks 17 58 eq_refl Hk Hasc) in Hans.
    destruct results as [|x [|y [|]]]; try discriminate Hlen.
    destruct (Hans 0%nat 17 (replicate RECORD_SIZE 9) x eq_refl eq_refl eq_refl) as [_ Habs].
    destruct (Hans 1%nat 58 (replicate RECORD_SIZE 9) y eq_refl eq_refl eq_refl) as [Hfound _].
    assert (y = small_record 58 8) as -> by (apply Hfound, reachb_spec; vm_compute; reflexivity).
    exists err, x, t'. split; [exact Hrun|]. split; [exact He|]. apply Habs. vm_compute. reflexivity.
Defined.

Lemma prepare_batches_correct_witness :
  exists b Bs, calculate_batch_size small_sharded (put_requests small_batch) =
      (Z.of_nat b, map (assign_shard small_sharded) (put_requests small_batch)) /\ (1 <= b)%nat /\ length Bs = 2%nat /\
    forall sh B, Bs !! sh = Some B -> batch_ok cmp_stable_shard_flag_key small_sharded (put_requests small_batch) b sh B.
Proof.
  destruct (prepare_batches_correct cmp_stable_shard_flag_key small_sharded (put_requests small_batch) small_sharded_wf) as (b & Bs & Hc & Hb & _ & Hl & Hok).
  - repeat constructor; apply small_in_range; vm_compute; reflexivity.
  - discriminate.
  - reflexivity.
  - exists b, Bs. split_and!; [exact Hc|exact Hb|exact Hl|exact Hok].
Defined.

Lemma top_hash_without_shard_witness :
  16 * step_size 16 = 18446744073709551600 /\ 16 <= ct_div 18446744073709551600 (step_size 16) (prep_ct_div (step_size 16)).
Proof. split; [reflexivity|]. apply (top_hash_without_shard 16 18446744073709551600); vm_compute; repeat split; try discriminate; lia. Defined.
