(* ===== verification/FixedSet.v ===== *)
(** * The fixed-size-key set ([c/fixedset/fixedset.c])

    A Robin Hood hash set with stored displacements, growth and backward-shift
    removal.  An entry is stored at [hash + jump] modulo the capacity, and an
    empty entry has the jump 0.  Memory and [rand] come from the caller's
    environment. *)

From stdpp Require Import gmap.
From S2P Require Import Prelude Errors HalfSipHash.
Local Open Scope Z_scope.

(** ** Definitions *)

Record fixedset_entry := FixedsetEntry { e_jump : Z; e_kv : list Z }.
Definition empty_entry (ksize : nat) : fixedset_entry := {| e_jump := 0; e_kv := replicate ksize 0 |}.

(** [struct fixedset_t]; [tmpk] is scratch space that no call reads before it
    has written it. *)
Record fixedset := Fixedset {
  fs_block : list fixedset_entry;
  fs_ksize : nat;
  fs_cap : Z;
  fs_size : Z;
  fs_maxjump : Z;
  fs_sipkey : list Z;
}.

Definition fs_hash (h : fixedset) (k : list Z) : Z := of_le (halfsiphash_mem k (fs_sipkey h) 8).

(** [keq]: the accumulated difference of the bytes is 0. *)
Definition keq (h : fixedset) (a b : list Z) : bool :=
  fold_left Z.lor (zip_with Z.lxor (take (fs_ksize h) a) (take (fs_ksize h) b)) 0 =? 0.

(** The index of entry [i], which may lie outside of [0, cap). *)
Definition entry_index (h : fixedset) (i : Z) : nat := Z.to_nat (i mod fs_cap h).
Definition fixedset_entry_n (h : fixedset) (i : Z) : fixedset_entry :=
  default (empty_entry (fs_ksize h)) (fs_block h !! entry_index h i).

Definition with_block (h : fixedset) (block : list fixedset_entry) : fixedset :=
  {| fs_block := block; fs_ksize := fs_ksize h; fs_cap := fs_cap h; fs_size := fs_size h; fs_maxjump := fs_maxjump h; fs_sipkey := fs_sipkey h |}.
Definition with_size (h : fixedset) (size : Z) : fixedset :=
  {| fs_block := fs_block h; fs_ksize := fs_ksize h; fs_cap := fs_cap h; fs_size := size; fs_maxjump := fs_maxjump h; fs_sipkey := fs_sipkey h |}.

(** Write entry [i]. *)
Definition set_entry (h : fixedset) (i : Z) (e : fixedset_entry) : fixedset :=
  with_block h (<[entry_index h i := e]> (fs_block h)).

Definition new_block (ksize : nat) (cap : Z) : list fixedset_entry := replicate (Z.to_nat cap) (empty_entry ksize).

Definition fixedset_new (ksize : nat) (sipkey : list Z) : fixedset :=
  {| fs_block := new_block ksize 32; fs_ksize := ksize; fs_cap := 32; fs_size := 0; fs_maxjump := 0; fs_sipkey := sipkey |}.

Definition fixedset_maybe_set_max_jump (h : fixedset) (jump : Z) : fixedset :=
  if jump >? fs_maxjump h then
    {| fs_block := fs_block h; fs_ksize := fs_ksize h; fs_cap := fs_cap h; fs_size := fs_size h; fs_maxjump := jump; fs_sipkey := fs_sipkey h |}
  else h.

(** [fixedset_find]: the exclusive or over all probes of the index and of the
    entry's address; the address of entry [s] is represented by [s + 1], the
    null pointer by 0. *)
Fixpoint find_loop (n : nat) (h : fixedset) (k : list Z) (hash jump idx outp : Z) : Z * Z :=
  match n with
  | O => (idx, outp)
  | S n =>
      let e := fixedset_entry_n h (hash [+] jump) in
      let got := keq h k (e_kv e) && (e_jump e =? jump) in
      find_loop n h k hash (jump [+] 1)
        (Z.lxor idx (Z.land (hash [+] jump) (if got then UINT64_MAX else 0)))
        (Z.lxor outp (Z.land (Z.of_nat (entry_index h (hash [+] jump)) + 1) (if got then UINT64_MAX else 0)))
  end.

Definition fixedset_find (h : fixedset) (k : list Z) : option Z :=
  let '(idx, outp) := find_loop (Z.to_nat (fs_maxjump h)) h k (fs_hash h k) 1 0 0 in
  if negb (outp =? 0) then Some idx else None.

(** The insertion loop; [None] when the fuel ends. *)
Fixpoint upsert_loop (fuel : nat) (h : fixedset) (k : list Z) (hash jump : Z) : option fixedset :=
  match fuel with
  | O => None
  | S fuel =>
      let i := hash [+] jump in
      let e := fixedset_entry_n h i in
      if e_jump e =? 0 then
        let h := set_entry h i {| e_jump := wrap32 jump; e_kv := k |} in
        let h := with_size h (fs_size h [+] 1) in
        Some (fixedset_maybe_set_max_jump h jump)
      else if e_jump e <? jump then
        let hash := (hash [+] jump) [-] e_jump e in
        let h := set_entry h i {| e_jump := wrap32 jump; e_kv := k |} in
        let h := fixedset_maybe_set_max_jump h jump in
        upsert_loop fuel h (e_kv e) hash (e_jump e [+] 1)
      else upsert_loop fuel h k hash (jump [+] 1)
  end.

(** [alloc] says whether [malloc] succeeds, [rnd] is the result of [rand].
    The results are the error, whether the key was there, and the set. *)
Section Upsert.
Context (alloc : bool) (rnd : Z).

(** [fixedset_resize], with the insertion of its loop as an argument. *)
Fixpoint reinsert (upsert : fixedset -> list Z -> option (error_t * bool * fixedset)) (entries : list fixedset_entry) (h : fixedset) :
    option (error_t * fixedset) :=
  match entries with
  | [] => Some (err_SUCCESS, h)
  | e :: entries =>
      if negb (e_jump e =? 0) then
        match upsert h (e_kv e) with
        | Some (err, _, h) => if is_success err then reinsert upsert entries h else Some (err, h)
        | None => None
        end
      else reinsert upsert entries h
  end.

Definition fixedset_resize (upsert : fixedset -> list Z -> option (error_t * bool * fixedset)) (h : fixedset) (newcap : Z) :
    option (error_t * fixedset) :=
  if negb (newcap >? fs_cap h) then Some (err_FIXEDSET__RESIZE_INVALID, h)
  else if negb alloc then Some (err_OOM, h)
  else
    let new := {| fs_block := new_block (fs_ksize h) newcap; fs_ksize := fs_ksize h; fs_cap := newcap; fs_size := 0; fs_maxjump := 0;
                  fs_sipkey := fs_sipkey h |} in
    match reinsert upsert (fs_block h) new with
    | Some (err, new) => if is_success err then Some (err_SUCCESS, new) else Some (err, h)
    | None => None
    end.

Definition new_capacity (h : fixedset) : Z := (fs_cap h [+] fs_cap h / 4) [+] (rnd mod (fs_cap h / 2)).

(** [depth] bounds the nesting of resizes inside of resizes. *)
Fixpoint fixedset_upsert (depth : nat) (h : fixedset) (k : list Z) : option (error_t * bool * fixedset) :=
  let captest := fs_size h [+] fs_size h / 8 in
  match
    (if captest >? fs_cap h then
       match depth with
       | O => None
       | S depth => fixedset_resize (fixedset_upsert depth) h (new_capacity h)
       end
     else Some (err_SUCCESS, h))
  with
  | None => None
  | Some (err, h) =>
      if is_success err then
        match fixedset_find h k with
        | Some _ => Some (err_SUCCESS, true, h)
        | None =>
            match upsert_loop (S (Z.to_nat (fs_cap h))) h k (fs_hash h k) 1 with
            | Some h => Some (err_SUCCESS, false, h)
            | None => None
            end
        end
      else Some (err, false, h)
  end.
End Upsert.

Definition fixedset_get (h : fixedset) (k : list Z) : bool :=
  match fixedset_find h k with Some _ => true | None => false end.

(** The loop of [fixedset_remove]: the entries behind entry [at] move one
    place back; [None] when the fuel ends. *)
Fixpoint remove_loop (fuel : nat) (h : fixedset) (idx i : Z) (at_ : Z) : option fixedset :=
  match fuel with
  | O => None
  | S fuel =>
      let next := fixedset_entry_n h (idx [+] i) in
      if e_jump next <? 2 then
        let e := fixedset_entry_n h at_ in
        Some (set_entry h at_ {| e_jump := 0; e_kv := e_kv e |})
      else
        let h := set_entry h at_ {| e_jump := wrap32 (e_jump next - 1); e_kv := e_kv next |} in
        remove_loop fuel h idx (i [+] 1) (idx [+] i)
  end.

Definition fixedset_remove (h : fixedset) (k : list Z) : option (bool * fixedset) :=
  match fixedset_find h k with
  | None => Some (false, h)
  | Some idx =>
      match remove_loop (S (Z.to_nat (fs_cap h))) (with_size h (fs_size h [-] 1)) idx 1 idx with
      | Some h => Some (true, h)
      | None => None
      end
  end.

Definition fixedset_size (h : fixedset) : Z := fs_size h.
Definition fixedset_capacity (h : fixedset) : Z := fs_cap h.

Definition fixedset_clear (h : fixedset) : fixedset := with_size (with_block h (new_block (fs_ksize h) (fs_cap h))) 0.
