(* ===== verification/FixedSetSpec.v ===== *)
(** * The fixed-size-key set: invariant and proofs

    The displacement grows by at most one from an entry to the next; with an
    empty entry somewhere this bounds every displacement and makes the insertion
    loop and the backward shift end. *)

From stdpp Require Import gmap.
From S2P Require Import Prelude Errors HalfSipHash FixedSet.
Local Open Scope Z_scope.

#[local] Opaque halfsiphash_mem.

(** ** Keys *)

Lemma fold_lor_zero l : forall a, fold_left Z.lor l a = 0 <-> a = 0 /\ Forall (fun x => x = 0) l.
Proof.
  induction l as [|x l IH]; intros a; simpl; [intuition constructor|]. rewrite IH, Z.lor_eq_0_iff, Forall_cons. intuition.
Qed.

Lemma keq_spec h a b : length a = fs_ksize h -> length b = fs_ksize h -> keq h a b = bool_decide (a = b).
Proof.
  intros Ha Hb. unfold keq. rewrite !take_ge by lia. apply eq_true_iff_eq. rewrite Z.eqb_eq, bool_decide_eq_true, fold_lor_zero.
  assert (Hl : length a = length b) by congruence. clear Ha Hb. revert b Hl.
  induction a as [|x a IH]; intros [|y b] Hl; try done. simpl in *. rewrite Forall_cons, Z.lxor_eq_0_iff. specialize (IH b ltac:(lia)).
  split; [intros (_ & -> & H); f_equal; by apply IH|]. intros [= -> ->]. split; [done|]. split; [done|]. by apply IH.
Qed.

(** The capacity is a 32-bit number; a key's hash leaves room for every probe. *)
Definition key_wf (h : fixedset) (k : list Z) : Prop :=
  length k = fs_ksize h /\ 0 <= fs_hash h k /\ fs_hash h k + 2 ^ 34 < 2 ^ 64.

(** ** Entries by position *)

Local Notation J h p := (e_jump (fixedset_entry_n h p)).
Local Notation K h p := (e_kv (fixedset_entry_n h p)).

Record shape (h : fixedset) : Prop := {
  sh_cap : 32 <= fs_cap h < 2 ^ 32;
  sh_block : length (fs_block h) = Z.to_nat (fs_cap h);
}.

Lemma entry_index_lt h p : shape h -> (entry_index h p < length (fs_block h))%nat.
Proof.
  intros [Hc Hb]. rewrite Hb. unfold entry_index. pose proof (Z.mod_pos_bound p (fs_cap h) ltac:(lia)). lia.
Qed.

Lemma entry_n_mod h p q : p mod fs_cap h = q mod fs_cap h -> fixedset_entry_n h p = fixedset_entry_n h q.
Proof. intros E. unfold fixedset_entry_n, entry_index. by rewrite E. Qed.

Lemma entry_index_eq h p q : shape h -> entry_index h p = entry_index h q -> p mod fs_cap h = q mod fs_cap h.
Proof.
  intros [Hc _] E. unfold entry_index in E. pose proof (Z.mod_pos_bound p (fs_cap h) ltac:(lia)).
  pose proof (Z.mod_pos_bound q (fs_cap h) ltac:(lia)). lia.
Qed.

Lemma set_entry_n h p e q : shape h ->
  fixedset_entry_n (set_entry h p e) q = if decide (q mod fs_cap h = p mod fs_cap h) then e else fixedset_entry_n h q.
Proof.
  intros Hs. unfold fixedset_entry_n. change (entry_index (set_entry h p e) q) with (entry_index h q).
  change (fs_block (set_entry h p e)) with (<[entry_index h p := e]> (fs_block h)). case_decide as E.
  - assert (entry_index h q = entry_index h p) as -> by (unfold entry_index; by rewrite E).
    by rewrite list_lookup_insert_eq by by apply entry_index_lt.
  - rewrite list_lookup_insert_ne; [done|]. intros E'. apply E. symmetry. by apply (entry_index_eq h).
Qed.

Lemma shape_set h p e : shape h -> shape (set_entry h p e).
Proof. intros [Hc Hb]. split; [done|]. cbn. by rewrite length_insert. Qed.

Lemma entry_lookup h p : shape h -> fs_block h !! entry_index h p = Some (fixedset_entry_n h p).
Proof.
  intros Hs. unfold fixedset_entry_n. destruct (lookup_lt_is_Some_2 _ _ (entry_index_lt h p Hs)) as [e ->]. done.
Qed.

Lemma index_of h (s : nat) : shape h -> (s < length (fs_block h))%nat -> entry_index h (Z.of_nat s) = s.
Proof. intros [Hc Hb] Hl. unfold entry_index. rewrite Z.mod_small; lia. Qed.

(** ** The invariant *)

Definition used (e : fixedset_entry) : bool := negb (e_jump e =? 0).

Record fs_inv (h : fixedset) : Prop := {
  fi_shape : shape h;
  fi_order p : J h (p + 1) <= J h p + 1;
  fi_range p : 0 <= J h p <= fs_maxjump h;
  fi_maxjump : 0 <= fs_maxjump h <= fs_cap h;
  fi_located p : J h p <> 0 -> (fs_hash h (K h p) + J h p) mod fs_cap h = p mod fs_cap h;
  fi_keys p : J h p <> 0 -> key_wf h (K h p);
  fi_distinct p q : J h p <> 0 -> J h q <> 0 -> K h p = K h q -> p mod fs_cap h = q mod fs_cap h;
  fi_size : fs_size h = Z.of_nat (countb used (fs_block h));
}.

(** The keys of the set. *)
Definition mem (h : fixedset) (k : list Z) : Prop := exists p, J h p <> 0 /\ K h p = k.

(** An empty entry bounds every jump. *)
Lemma jump_from_empty h p0 : (forall p, J h (p + 1) <= J h p + 1) -> J h p0 = 0 -> forall d : nat, J h (p0 + Z.of_nat d) <= Z.of_nat d.
Proof.
  intros Ho H0 d. induction d as [|d IH]; [replace (p0 + Z.of_nat 0) with p0 by lia; lia|].
  replace (p0 + Z.of_nat (S d)) with (p0 + Z.of_nat d + 1) by lia. specialize (Ho (p0 + Z.of_nat d)). lia.
Qed.

Lemma jump_lt_cap h p0 p : shape h -> (forall p, J h (p + 1) <= J h p + 1) -> J h p0 = 0 -> J h p < fs_cap h.
Proof.
  intros [Hc _] Ho H0. set (d := Z.to_nat ((p - p0) mod fs_cap h)).
  pose proof (Z.mod_pos_bound (p - p0) (fs_cap h) ltac:(lia)).
  rewrite (entry_n_mod h p (p0 + Z.of_nat d)).
  - pose proof (jump_from_empty h p0 Ho H0 d). lia.
  - unfold d. rewrite Z2Nat.id by lia. rewrite Zplus_mod_idemp_r. f_equal. lia.
Qed.

Lemma exists_empty h : shape h -> Z.of_nat (countb used (fs_block h)) < fs_cap h ->
  forall p, exists d : nat, Z.of_nat d < fs_cap h /\ J h (p + Z.of_nat d) = 0.
Proof.
  intros Hs Hlt p. pose proof Hs as [Hc Hb]. pose proof (countb_negb used (fs_block h)) as Hn.
  destruct (countb_pos (fun e => negb (used e)) (fs_block h)) as (e & He & Hu); [lia|].
  apply list_elem_of_lookup_1 in He as [s Hsl]. pose proof (lookup_lt_Some _ _ _ Hsl) as Hlt'.
  pose proof (Z.mod_pos_bound (Z.of_nat s - p) (fs_cap h) ltac:(lia)).
  exists (Z.to_nat ((Z.of_nat s - p) mod fs_cap h)). split; [lia|].
  rewrite (entry_n_mod h _ (Z.of_nat s)).
  - unfold fixedset_entry_n. rewrite index_of, Hsl by done. unfold used in Hu. simpl. breflect. done.
  - rewrite Z2Nat.id by lia. rewrite Zplus_mod_idemp_r. f_equal. lia.
Qed.

(** ** Lookup *)

Definition hit (h : fixedset) (k : list Z) (j : Z) : bool :=
  let e := fixedset_entry_n h (fs_hash h k + j) in keq h k (e_kv e) && (e_jump e =? j).

Lemma land_ones64 x : is_u64 x -> Z.land x UINT64_MAX = x.
Proof. intros Hx. change UINT64_MAX with (Z.ones 64). rewrite Z.land_ones by lia. by apply Z.mod_small. Qed.

Lemma find_loop_step n h k hash j idx outp : 0 <= hash -> 1 <= j -> hash + j + 1 < 2 ^ 64 -> shape h -> hash = fs_hash h k ->
  find_loop (S n) h k hash j idx outp =
    if hit h k j then find_loop n h k hash (j + 1) (Z.lxor idx (hash + j)) (Z.lxor outp (Z.of_nat (entry_index h (hash + j)) + 1))
    else find_loop n h k hash (j + 1) idx outp.
Proof.
  intros H0 Hj Hb Hs ->. cbn [find_loop]. rewrite (add64_small _ j), (add64_small j 1) by lia. fold (hit h k j).
  destruct (hit h k j); [|by rewrite !Z.land_0_r, !Z.lxor_0_r].
  pose proof (entry_index_lt h (fs_hash h k + j) Hs). destruct Hs as [Hc Hbl].
  rewrite !land_ones64; [done| |]; unfold is_u64; lia.
Qed.

Lemma find_loop_none h k n : shape h -> 0 <= fs_hash h k -> forall j idx outp, 1 <= j -> fs_hash h k + j + Z.of_nat n < 2 ^ 64 ->
  (forall i, j <= i < j + Z.of_nat n -> hit h k i = false) -> find_loop n h k (fs_hash h k) j idx outp = (idx, outp).
Proof.
  intros Hs H0. induction n as [|n IH]; intros j idx outp Hj Hb Hn; [done|].
  rewrite find_loop_step by (done || lia). rewrite Hn by lia. apply IH; [lia|lia|]. intros i Hi. apply Hn. lia.
Qed.

Lemma find_loop_one h k n j0 : shape h -> 0 <= fs_hash h k -> hit h k j0 = true -> forall j,
  1 <= j -> fs_hash h k + j + Z.of_nat n < 2 ^ 64 -> j <= j0 < j + Z.of_nat n ->
  (forall i, j <= i < j + Z.of_nat n -> i <> j0 -> hit h k i = false) ->
  find_loop n h k (fs_hash h k) j 0 0 = (fs_hash h k + j0, Z.of_nat (entry_index h (fs_hash h k + j0)) + 1).
Proof.
  intros Hs H0 Hhit. induction n as [|n IH]; intros j Hj Hb Hr Hn; [lia|].
  rewrite find_loop_step by (done || lia). destruct (Z.eq_dec j j0) as [->|Hne].
  - rewrite Hhit, !Z.lxor_0_l. apply find_loop_none; [done|done|lia|lia|]. intros i Hi. apply Hn; lia.
  - rewrite Hn by lia. apply IH; [lia|lia|lia|]. intros i Hi. apply Hn. lia.
Qed.

Lemma hit_spec h k j : fs_inv h -> key_wf h k -> 1 <= j ->
  hit h k j = true <-> J h (fs_hash h k + j) = j /\ K h (fs_hash h k + j) = k.
Proof.
  intros Hi [Hl _] Hj. unfold hit. rewrite andb_true_iff, Z.eqb_eq. split.
  - intros [Hk E]. split; [done|]. rewrite keq_spec in Hk; [by apply bool_decide_eq_true in Hk|done|]. apply (fi_keys h Hi). lia.
  - intros [E HK]. split; [|done]. rewrite HK, keq_spec by done. by apply bool_decide_eq_true.
Qed.

(** A key that is in the set is found at its entry; no other key is found. *)
Lemma fixedset_find_spec h k : fs_inv h -> key_wf h k ->
  (forall p, J h p <> 0 -> K h p = k -> fixedset_find h k = Some (fs_hash h k + J h p)) /\
  (~ mem h k -> fixedset_find h k = None).
Proof.
  intros Hi Hk. pose proof Hk as (Hl & H0 & Hb). pose proof (fi_shape h Hi) as Hs. pose proof (sh_cap h Hs) as Hc.
  pose proof (fi_maxjump h Hi) as Hm. unfold fixedset_find. split.
  - intros p Hp HK. pose proof (fi_range h Hi p) as Hr. pose proof (fi_located h Hi p Hp) as Hloc. rewrite HK in Hloc.
    assert (Ee : fixedset_entry_n h (fs_hash h k + J h p) = fixedset_entry_n h p) by by apply entry_n_mod.
    rewrite (find_loop_one h k _ (J h p)); [| done|done| |lia|lia|lia|].
    + destruct (negb _) eqn:E; [done|]. breflect. lia.
    + apply hit_spec; [done|done|lia|]. by rewrite Ee.
    + intros i Hir Hne. apply not_true_is_false. rewrite hit_spec by (done || lia). intros [E1 E2]. apply Hne.
      assert (Hq : fixedset_entry_n h (fs_hash h k + i) = fixedset_entry_n h p).
      { apply entry_n_mod. apply (fi_distinct h Hi); [lia|done|congruence]. }
      congruence.
  - intros Hn. rewrite find_loop_none; [done|done|done|lia|lia|]. intros i Hir. apply not_true_is_false.
    rewrite hit_spec by (done || lia). intros [E1 E2]. apply Hn. exists (fs_hash h k + i). split; [lia|done].
Qed.

Lemma mem_dec h k : fs_inv h -> key_wf h k -> mem h k \/ ~ mem h k.
Proof.
  intros Hi Hk. pose proof (fi_shape h Hi) as Hs.
  destruct (decide (Exists (fun e => e_jump e <> 0 /\ e_kv e = k) (fs_block h))) as [He|Hne].
  - left. apply Exists_exists in He as (e & [s Hsl]%list_elem_of_lookup_1 & Hj & Hkv). exists (Z.of_nat s).
    unfold fixedset_entry_n. rewrite index_of, Hsl by (done || by eapply lookup_lt_Some). done.
  - right. intros (p & Hp & HK). apply Hne, Exists_exists. exists (fixedset_entry_n h p). split; [|done].
    eapply list_elem_of_lookup_2, entry_lookup, Hs.
Qed.

Lemma fixedset_get_spec h k : fs_inv h -> key_wf h k -> fixedset_get h k = true <-> mem h k.
Proof.
  intros Hi Hk. destruct (fixedset_find_spec h k Hi Hk) as [Hf Hn]. unfold fixedset_get.
  destruct (mem_dec h k Hi Hk) as [(p & Hp & HK)|Hm].
  - rewrite (Hf p Hp HK). split; [|done]. intros _. by exists p.
  - by rewrite (Hn Hm).
Qed.

(** ** Insertion *)

(** The invariant without the counters. *)
Record core (h : fixedset) : Prop := {
  co_shape : shape h;
  co_order p : J h (p + 1) <= J h p + 1;
  co_nonneg p : 0 <= J h p;
  co_located p : J h p <> 0 -> (fs_hash h (K h p) + J h p) mod fs_cap h = p mod fs_cap h;
  co_keys p : J h p <> 0 -> key_wf h (K h p);
  co_distinct p q : J h p <> 0 -> J h q <> 0 -> K h p = K h q -> p mod fs_cap h = q mod fs_cap h;
}.

Lemma fs_inv_core h : fs_inv h -> core h.
Proof. intros []. split; try done. intros p. apply fi_range0. Qed.

Lemma mod_pred_neq c p : 32 <= c -> (p - 1) mod c <> p mod c.
Proof.
  intros Hc E. assert (Hd : (p - (p - 1)) mod c = 0) by (rewrite Zminus_mod, E, Z.sub_diag; apply Z.mod_0_l; lia).
  replace (p - (p - 1)) with 1 in Hd by lia. rewrite Z.mod_small in Hd; lia.
Qed.

Lemma mod_succ_eq c p q : 0 < c -> (p + 1) mod c = (q + 1) mod c <-> p mod c = q mod c.
Proof.
  intros Hc. split; intros E.
  - replace p with (p + 1 - 1) by lia. replace q with (q + 1 - 1) by lia. rewrite (Zminus_mod (p + 1)), E, <- Zminus_mod. done.
  - rewrite (Zplus_mod p), E, <- Zplus_mod. done.
Qed.

(** A larger jump may be written into an entry. *)
Lemma core_set h p c k : core h -> 1 <= c -> c <= J h (p - 1) + 1 -> J h p <= c -> key_wf h k -> ~ mem h k ->
  (fs_hash h k + c) mod fs_cap h = p mod fs_cap h -> core (set_entry h p {| e_jump := c; e_kv := k |}).
Proof.
  intros [Hs Ho Hn Hl Hk Hd] H1 Hc Hp Hkw Hm Hloc. pose proof (sh_cap h Hs) as Hcap.
  set (h1 := set_entry h p {| e_jump := c; e_kv := k |}).
  assert (HE : forall q, fixedset_entry_n h1 q = if decide (q mod fs_cap h = p mod fs_cap h) then {| e_jump := c; e_kv := k |} else fixedset_entry_n h q)
    by (intros q; by apply set_entry_n).
  change (fs_cap h1) with (fs_cap h). split.
  - by apply shape_set.
  - intros q. rewrite !HE. case_decide as E1; case_decide as E2; cbn [e_jump].
    + lia.
    + rewrite (entry_n_mod h q (p - 1)); [lia|]. apply mod_succ_eq; [lia|]. by replace (p - 1 + 1) with p by lia.
    + specialize (Ho q). rewrite (entry_n_mod h q p) in Ho by done. lia.
    + apply Ho.
  - intros q. rewrite HE. case_decide; cbn [e_jump]; [lia|apply Hn].
  - intros q. rewrite HE. change (fs_cap h1) with (fs_cap h). change (fs_hash h1) with (fs_hash h).
    case_decide as E; cbn [e_jump e_kv]; [congruence|apply Hl].
  - intros q. rewrite HE. case_decide; cbn [e_jump e_kv]; [done|]. apply Hk.
  - intros q q'. rewrite !HE. change (fs_cap h1) with (fs_cap h). case_decide as E1; case_decide as E2; cbn [e_jump e_kv]; intros J1 J2 EK.
    + congruence.
    + elim Hm. by exists q'.
    + elim Hm. by exists q.
    + by apply Hd.
Qed.

Lemma mem_set h p e x : shape h -> e_jump e <> 0 ->
  mem (set_entry h p e) x <-> x = e_kv e \/ exists q, q mod fs_cap h <> p mod fs_cap h /\ J h q <> 0 /\ K h q = x.
Proof.
  intros Hs He. split.
  - intros (q & Hq). rewrite set_entry_n in Hq by done. case_decide as E; [left; by destruct Hq|right; by exists q].
  - intros [->|(q & Hne & Hq)]; [exists p|exists q]; rewrite set_entry_n by done; [by rewrite decide_True|by rewrite decide_False].
Qed.

Lemma count_set h p e : shape h ->
  Z.of_nat (countb used (fs_block (set_entry h p e))) =
    Z.of_nat (countb used (fs_block h)) + (if used e then 1 else 0) - (if used (fixedset_entry_n h p) then 1 else 0).
Proof.
  intros Hs. cbn [set_entry with_block fs_block].
  pose proof (countb_insert used (fs_block h) (entry_index h p) (fixedset_entry_n h p) e (entry_lookup h p Hs)) as Hc.
  destruct (used e), (used (fixedset_entry_n h p)); lia.
Qed.

Definition same_set (h h' : fixedset) : Prop :=
  fs_cap h' = fs_cap h /\ fs_ksize h' = fs_ksize h /\ fs_sipkey h' = fs_sipkey h.

Lemma maybe_set_max_jump_fields h j :
  let h' := fixedset_maybe_set_max_jump h j in
  fs_block h' = fs_block h /\ fs_size h' = fs_size h /\ same_set h h' /\ fs_maxjump h' = Z.max (fs_maxjump h) j.
Proof. unfold fixedset_maybe_set_max_jump. case_match; breflect; repeat split; simpl; lia. Qed.

(** Two sets with the same entries. *)
Lemma entry_n_same h h' p : fs_block h' = fs_block h -> same_set h h' -> fixedset_entry_n h' p = fixedset_entry_n h p.
Proof. intros Hb (Hc & Hk & _). unfold fixedset_entry_n, entry_index. by rewrite Hb, Hc, Hk. Qed.

Lemma core_same h h' : fs_block h' = fs_block h -> same_set h h' -> core h -> core h'.
Proof.
  intros Hb Hsame [Hs Ho Hn Hl Hk Hd]. pose proof Hsame as (Hc & Hks & Hsip).
  assert (HE : forall p, fixedset_entry_n h' p = fixedset_entry_n h p) by (intros p; by apply entry_n_same).
  assert (HH : forall k, fs_hash h' k = fs_hash h k) by (intros k; unfold fs_hash; by rewrite Hsip).
  split.
  - destruct Hs. split; congruence.
  - intros p. rewrite !HE. apply Ho.
  - intros p. rewrite HE. apply Hn.
  - intros p. rewrite HE, HH, Hc. apply Hl.
  - intros p. rewrite HE. unfold key_wf. rewrite HH, Hks. apply Hk.
  - intros p q. rewrite !HE, Hc. apply Hd.
Qed.

Lemma mem_same h h' x : fs_block h' = fs_block h -> same_set h h' -> mem h' x <-> mem h x.
Proof. intros Hb Hs. unfold mem. split; intros (p & Hp); exists p; [rewrite <- (entry_n_same h h')|rewrite (entry_n_same h h')]; done. Qed.

Lemma used_true e : e_jump e <> 0 -> used e = true.
Proof. intros He. by apply negb_true_iff, Z.eqb_neq. Qed.
Lemma used_false e : e_jump e = 0 -> used e = false.
Proof. intros He. by apply negb_false_iff, Z.eqb_eq. Qed.

(** The counters of the invariant. *)
Record counters (h : fixedset) : Prop := {
  ct_range p : J h p <= fs_maxjump h;
  ct_maxjump : 0 <= fs_maxjump h <= fs_cap h;
}.

Lemma fs_inv_iff h : fs_inv h <-> core h /\ counters h /\ fs_size h = Z.of_nat (countb used (fs_block h)).
Proof.
  split.
  - intros Hi. split; [by apply fs_inv_core|]. destruct Hi. split; [split; [|done]|done]. intros p. apply fi_range0.
  - intros ([] & [] & Hsz). by split.
Qed.

(** After writing an entry and raising [maxjump]. *)
Lemma counters_set h p c k : shape h -> counters h -> 1 <= c <= fs_cap h ->
  counters (fixedset_maybe_set_max_jump (set_entry h p {| e_jump := c; e_kv := k |}) c).
Proof.
  intros Hs [Hr Hm] Hc. set (h1 := set_entry h p _).
  destruct (maybe_set_max_jump_fields h1 c) as (Hb & _ & Hsame & Hmax). split.
  - intros q. rewrite (entry_n_same h1), Hmax by done. change (fs_maxjump h1) with (fs_maxjump h). unfold h1. rewrite set_entry_n by done.
    case_decide; cbn [e_jump]; [lia|specialize (Hr q); lia].
  - rewrite Hmax. destruct Hsame as (-> & _). change (fs_maxjump h1) with (fs_maxjump h). change (fs_cap h1) with (fs_cap h). lia.
Qed.

(** The carried key, about to look at position [p] with the jump [c]. *)
Record carrying (h : fixedset) (k : list Z) (hash c p : Z) (fuel : nat) : Prop := {
  ca_core : core h;
  ca_counters : counters h;
  ca_key : key_wf h k;
  ca_new : ~ mem h k;
  ca_pos : hash [+] c = p /\ 0 <= p /\ p + Z.of_nat fuel < 2 ^ 64;
  ca_located : (fs_hash h k + c) mod fs_cap h = p mod fs_cap h;
  ca_jump : 1 <= c <= J h (p - 1) + 1;
  ca_empty : exists d : nat, (d < fuel)%nat /\ J h (p + Z.of_nat d) = 0;
}.

Lemma next_position hash c p : hash [+] c = p -> 0 <= c < 2 ^ 33 -> p + 1 < 2 ^ 64 -> 0 <= p -> hash [+] (c [+] 1) = p + 1.
Proof. intros E Hc Hp H0. rewrite (add64_small c 1) by lia. unfold add64, wrap64 in *. subst p. rewrite Z.add_assoc, <- Zplus_mod_idemp_l. apply Z.mod_small. lia. Qed.

Lemma next_position_swap p j : 0 <= p -> p + 1 < 2 ^ 64 -> 0 <= j < 2 ^ 33 -> (p [-] j) [+] (j [+] 1) = p + 1.
Proof.
  intros H0 Hp Hj. rewrite (add64_small j 1) by lia. unfold add64, sub64, wrap64. rewrite Zplus_mod_idemp_l.
  replace (p - j + (j + 1)) with (p + 1) by lia. apply Z.mod_small. lia.
Qed.

Lemma mod_shift_succ a p m : 0 < m -> a mod m = p mod m -> (a + 1) mod m = (p + 1) mod m.
Proof. intros Hm E. by apply mod_succ_eq. Qed.

(** An entry that is not free is passed or taken over. *)
Lemma carrying_pass h k hash c p fuel : carrying h k hash c p (S fuel) -> c <= J h p -> J h p <> 0 ->
  carrying h k hash (c [+] 1) (p + 1) fuel.
Proof.
  intros [Hco Hct Hk Hn (Hp & Hp0 & Hpf) Hl Hj (d & Hd & Hed)] Hle Hne. pose proof (co_shape h Hco) as Hs. pose proof (sh_cap h Hs) as Hc.
  assert (c <= fs_cap h) by (destruct Hct as [Hr Hm]; specialize (Hr p); lia).
  split; try assumption.
  - split; [|lia]. apply next_position; lia || done.
  - rewrite add64_small by lia. rewrite Z.add_assoc. apply mod_shift_succ; [lia|done].
  - rewrite add64_small by lia. replace (p + 1 - 1) with p by lia. lia.
  - destruct d as [|d]; [by rewrite Z.add_0_r in Hed|]. exists d. split; [lia|].
    by replace (p + 1 + Z.of_nat d) with (p + Z.of_nat (S d)) by lia.
Qed.

Lemma carrying_swap h k hash c p fuel : carrying h k hash c p (S fuel) -> J h p < c -> J h p <> 0 ->
  let h1 := fixedset_maybe_set_max_jump (set_entry h p {| e_jump := wrap32 c; e_kv := k |}) c in
  carrying h1 (K h p) ((hash [+] c) [-] J h p) (J h p [+] 1) (p + 1) fuel /\ same_set h h1 /\ fs_size h1 = fs_size h /\
  countb used (fs_block h1) = countb used (fs_block h) /\ (forall x, mem h1 x \/ x = K h p <-> mem h x \/ x = k).
Proof.
  intros [Hco Hct Hk Hn (Hp & Hp0 & Hpf) Hl Hj (d & Hd & Hed)] Hlt Hne. pose proof (co_shape h Hco) as Hs. pose proof (sh_cap h Hs) as Hc.
  pose proof (jump_lt_cap h (p + Z.of_nat d) (p - 1) Hs (co_order h Hco) Hed) as Hjc. pose proof (co_nonneg h Hco p) as Hpos.
  assert (Ew : wrap32 c = c) by (apply Z.mod_small; lia). rewrite Ew. cbv zeta. set (h0 := set_entry h p _).
  destruct (maybe_set_max_jump_fields h0 c) as (Hb & Hsz & Hsame & _). set (h1 := fixedset_maybe_set_max_jump h0 c) in *.
  assert (Hco0 : core h0) by (apply core_set; done || lia).
  assert (HE : forall q, fixedset_entry_n h1 q = fixedset_entry_n h0 q) by (intros q; by apply entry_n_same).
  assert (HE0 : forall q, fixedset_entry_n h0 q = if decide (q mod fs_cap h = p mod fs_cap h) then {| e_jump := c; e_kv := k |} else fixedset_entry_n h q)
    by (intros q; by apply set_entry_n).
  assert (Hcap1 : fs_cap h1 = fs_cap h) by apply Hsame. assert (Hh1 : forall x, fs_hash h1 x = fs_hash h x) by (intros x; unfold fs_hash; by destruct Hsame as (_ & _ & ->)).
  assert (Hmem : forall x, mem h1 x <-> x = k \/ exists q, q mod fs_cap h <> p mod fs_cap h /\ J h q <> 0 /\ K h q = x).
  { intros x. rewrite (mem_same h0 h1 x) by done. apply mem_set; [done|]. cbn. lia. }
  split_and!.
  - split.
    + by apply (core_same h0).
    + apply counters_set; [done|done|lia].
    + destruct (co_keys h Hco p Hne) as (? & ? & ?). split_and!; rewrite ?Hh1; try done. destruct Hsame as (_ & -> & _). done.
    + rewrite Hmem. intros [E|(q & Hq & Hjq & EK)]; [apply Hn; by exists p|]. apply Hq. by apply (co_distinct h Hco).
    + rewrite Hp. split; [|lia]. apply next_position_swap; lia.
    + rewrite Hcap1, Hh1, add64_small, Z.add_assoc by lia. apply mod_shift_succ; [lia|]. by apply (co_located h Hco).
    + replace (p + 1 - 1) with p by lia. rewrite HE, HE0, decide_True by done. cbn [e_jump]. rewrite add64_small; lia.
    + destruct d as [|d]; [by rewrite Z.add_0_r in Hed|]. exists d. split; [lia|].
      replace (p + 1 + Z.of_nat d) with (p + Z.of_nat (S d)) by lia. rewrite HE, HE0, decide_False; [done|].
      intros E. apply Hne. by rewrite <- (entry_n_mod h _ _ E).
  - exact Hsame.
  - exact Hsz.
  - rewrite Hb. pose proof (count_set h p {| e_jump := c; e_kv := k |} Hs) as Hcs. rewrite (used_true {| e_jump := c; e_kv := k |}), (used_true (fixedset_entry_n h p)) in Hcs by (cbn; lia).
    fold h0 in Hcs. lia.
  - intros x. rewrite Hmem. split.
    + intros [[->|(q & _ & ? & ?)]| ->]; [by right|left; by exists q|left; by exists p].
    + intros [(q & ? & ?)| ->]; [|by left; left]. destruct (decide (q mod fs_cap h = p mod fs_cap h)) as [E|E]; [|left; right; by exists q].
      right. rewrite <- (entry_n_mod h _ _ E). done.
Qed.

Lemma upsert_loop_spec fuel : forall h k hash c p, carrying h k hash c p fuel ->
  exists h', upsert_loop fuel h k hash c = Some h' /\ same_set h h' /\ core h' /\ counters h' /\
    (forall x, mem h' x <-> mem h x \/ x = k) /\ fs_size h' = fs_size h [+] 1 /\
    Z.of_nat (countb used (fs_block h')) = Z.of_nat (countb used (fs_block h)) + 1.
Proof.
  induction fuel as [|fuel IH]; intros h k hash c p Hca; [destruct (ca_empty _ _ _ _ _ _ Hca) as (d & ? & _); lia|].
  pose proof Hca as [Hco Hct Hk Hn (Hp & Hp0 & Hpf) Hl Hj (d & Hd & Hed)]. pose proof (co_shape h Hco) as Hs. pose proof (sh_cap h Hs) as Hc.
  cbn [upsert_loop]. rewrite Hp. destruct (J h p =? 0) eqn:E0; [|destruct (J h p <? c) eqn:Elt]; breflect.
  - pose proof (jump_lt_cap h (p + Z.of_nat d) (p - 1) Hs (co_order h Hco) Hed) as Hjc.
    assert (Ew : wrap32 c = c) by (apply Z.mod_small; lia). rewrite Ew. set (h0 := set_entry h p _).
    set (h1 := with_size h0 (fs_size h0 [+] 1)).
    destruct (maybe_set_max_jump_fields h1 c) as (Hb & Hsz & Hsame & _). eexists. split; [done|].
    assert (Hco0 : core h0) by (apply core_set; done || lia).
    split_and!; [exact Hsame|by apply (core_same h0)| | |exact Hsz|].
    + pose proof (counters_set h p c k Hs Hct ltac:(lia)) as Hct1. fold h0 in Hct1.
      destruct (maybe_set_max_jump_fields h0 c) as (Hb0 & _ & Hsame0 & Hm0). destruct (maybe_set_max_jump_fields h1 c) as (_ & _ & _ & Hm1).
      destruct Hct1 as [Hr Hm]. split.
      * intros q. specialize (Hr q). rewrite Hm0 in Hr. rewrite Hm1. change (fs_maxjump h1) with (fs_maxjump h0).
        rewrite (entry_n_same h0) in Hr by done. rewrite (entry_n_same h0) by done. lia.
      * rewrite Hm1. rewrite Hm0 in Hm. change (fs_maxjump h1) with (fs_maxjump h0). destruct Hsame as (-> & _), Hsame0 as (E & _).
        rewrite E in Hm. exact Hm.
    + intros x. rewrite (mem_same h0) by done. unfold h0. rewrite mem_set; [|done|cbn; lia]. cbn [e_kv]. split.
      * intros [->|(q & _ & ? & ?)]; [by right|left; by exists q].
      * intros [(q & Hq & ?)| ->]; [right|by left]. exists q. split_and!; try done. intros E. apply Hq. by rewrite (entry_n_mod h _ _ E).
    + rewrite Hb. change (fs_block h1) with (fs_block h0). pose proof (count_set h p {| e_jump := c; e_kv := k |} Hs) as Hcs.
      rewrite (used_true {| e_jump := c; e_kv := k |}), (used_false (fixedset_entry_n h p)) in Hcs by (cbn; lia). fold h0 in Hcs. lia.
  - destruct (carrying_swap h k hash c p fuel Hca Elt E0) as (Hca1 & Hsame1 & Hsz1 & Hcnt1 & Hmem1). cbv zeta in *.
    rewrite Hp in Hca1. destruct (IH _ _ _ _ _ Hca1) as (h' & -> & Hsame & ? & ? & Hmem & Hsz & Hcnt). exists h'.
    split; [done|]. split; [destruct Hsame1 as (? & ? & ?), Hsame as (? & ? & ?); split_and!; congruence|]. split_and!; try assumption.
    + intros x. rewrite Hmem. apply Hmem1.
    + by rewrite Hsz, Hsz1.
    + lia.
  - apply (IH h k hash (c [+] 1) (p + 1)). by apply carrying_pass.
Qed.

(** A new key goes into a set with room. *)
Lemma insert_new h k : fs_inv h -> key_wf h k -> ~ mem h k -> fs_size h < fs_cap h ->
  exists h', upsert_loop (S (Z.to_nat (fs_cap h))) h k (fs_hash h k) 1 = Some h' /\ same_set h h' /\ fs_inv h' /\
    (forall x, mem h' x <-> mem h x \/ x = k) /\ fs_size h' = fs_size h + 1.
Proof.
  intros Hi Hk Hn Hsz. apply fs_inv_iff in Hi as (Hco & Hct & Hcnt). pose proof (co_shape h Hco) as Hs. pose proof (sh_cap h Hs) as Hc.
  destruct Hk as (Hl & H0 & Hb).
  destruct (exists_empty h Hs ltac:(lia) (fs_hash h k + 1)) as (d & Hd & Hed).
  destruct (upsert_loop_spec (S (Z.to_nat (fs_cap h))) h k (fs_hash h k) 1 (fs_hash h k + 1)) as (h' & Hrun & Hsame & Hco' & Hct' & Hmem & Hsz' & Hcnt').
  - split; try assumption.
    + by split_and!.
    + rewrite add64_small by lia. lia.
    + reflexivity.
    + pose proof (co_nonneg h Hco (fs_hash h k + 1 - 1)). lia.
    + exists d. split; [lia|done].
  - exists h'. rewrite add64_small in Hsz' by lia. split_and!; try assumption. apply fs_inv_iff. split_and!; try done. lia.
Qed.

(** ** Upsert without growth *)

Definition with_room (h : fixedset) : Prop := fs_size h + fs_size h / 8 <= fs_cap h.

Lemma with_room_lt h : fs_inv h -> with_room h -> fs_size h + 1 < fs_cap h.
Proof.
  intros Hi Hr. pose proof (sh_cap h (fi_shape h Hi)). pose proof (fi_size h Hi). unfold with_room in Hr.
  pose proof (Z.div_mod (fs_size h) 8 ltac:(lia)). pose proof (Z.mod_pos_bound (fs_size h) 8 ltac:(lia)). lia.
Qed.

Lemma captest_small h : fs_inv h -> fs_size h < fs_cap h -> fs_size h [+] fs_size h / 8 = fs_size h + fs_size h / 8.
Proof.
  intros Hi Hr. pose proof (sh_cap h (fi_shape h Hi)). pose proof (fi_size h Hi).
  apply add64_small. pose proof (Z.div_le_upper_bound (fs_size h) 8 (fs_size h)). pose proof (Z.div_pos (fs_size h) 8). lia.
Qed.

Lemma captest_room h : fs_inv h -> with_room h -> (fs_size h [+] fs_size h / 8 >? fs_cap h) = false.
Proof.
  intros Hi Hr. pose proof (with_room_lt h Hi Hr). rewrite captest_small by (done || lia). rewrite Z.gtb_ltb. by apply Z.ltb_ge.
Qed.

(** What an upsert does to the set. *)
Definition upserted (h : fixedset) (k : list Z) (replaced : bool) (h' : fixedset) : Prop :=
  fs_inv h' /\ fs_ksize h' = fs_ksize h /\ fs_sipkey h' = fs_sipkey h /\ fs_size h' < fs_cap h' /\
  (replaced = true <-> mem h k) /\ (forall x, mem h' x <-> mem h x \/ x = k) /\
  fs_size h' = fs_size h + (if replaced then 0 else 1).

Lemma upsert_with_room alloc rnd depth h k : fs_inv h -> key_wf h k -> with_room h ->
  exists replaced h', fixedset_upsert alloc rnd depth h k = Some (err_SUCCESS, replaced, h') /\ upserted h k replaced h' /\ fs_cap h' = fs_cap h.
Proof.
  intros Hi Hk Hr. pose proof (with_room_lt h Hi Hr) as Hlt. pose proof (fixedset_find_spec h k Hi Hk) as [Hf Hn].
  pose proof (captest_room h Hi Hr) as Ht.
  assert (Hup : fixedset_upsert alloc rnd depth h k =
    match fixedset_find h k with
    | Some _ => Some (err_SUCCESS, true, h)
    | None => match upsert_loop (S (Z.to_nat (fs_cap h))) h k (fs_hash h k) 1 with Some h => Some (err_SUCCESS, false, h) | None => None end
    end) by (destruct depth; cbn [fixedset_upsert]; rewrite Ht; done).
  rewrite Hup. destruct (mem_dec h k Hi Hk) as [(p & Hp & HK)|Hm].
  - rewrite (Hf p Hp HK). exists true, h. split; [done|]. split; [|done]. split_and!; try done; [lia| | |lia].
    + split; [|done]. intros _. by exists p.
    + intros x. split; [by left|]. intros [?| ->]; [done|by exists p].
  - rewrite (Hn Hm). destruct (insert_new h k Hi Hk Hm ltac:(lia)) as (h' & -> & (Hc & ? & ?) & ? & ? & Hsz).
    exists false, h'. split; [done|]. split; [|done]. split_and!; try done. lia.
Qed.

(** ** New and cleared sets *)

Lemma blank_entries h : fs_block h = new_block (fs_ksize h) (fs_cap h) -> forall p, fixedset_entry_n h p = empty_entry (fs_ksize h).
Proof.
  intros Hb p. unfold fixedset_entry_n. rewrite Hb. destruct (new_block _ _ !! _) as [e|] eqn:E; [|done].
  by apply lookup_replicate in E as [-> _].
Qed.

Lemma blank_inv h : 32 <= fs_cap h < 2 ^ 32 -> fs_block h = new_block (fs_ksize h) (fs_cap h) -> fs_size h = 0 ->
  0 <= fs_maxjump h <= fs_cap h -> fs_inv h /\ forall x, ~ mem h x.
Proof.
  intros Hc Hb Hsz Hm. pose proof (blank_entries h Hb) as HE. split.
  - split; [|intros p; rewrite !HE; simpl; lia|intros p; rewrite HE; simpl; lia|done|intros p; by rewrite HE|intros p; by rewrite HE|
           intros p q; by rewrite HE|].
    + split; [done|]. rewrite Hb. apply length_replicate.
    + rewrite Hsz, Hb. unfold new_block. rewrite countb_false; [done|]. by intros e [-> _]%elem_of_replicate.
  - intros x (p & Hp & _). by rewrite HE in Hp.
Qed.

Lemma fixedset_new_inv ksize sipkey : fs_inv (fixedset_new ksize sipkey) /\ forall x, ~ mem (fixedset_new ksize sipkey) x.
Proof. apply blank_inv; simpl; lia || done. Qed.

Lemma fixedset_clear_inv h : fs_inv h -> fs_inv (fixedset_clear h) /\ forall x, ~ mem (fixedset_clear h) x.
Proof. intros Hi. apply blank_inv; [apply (fi_shape h Hi)|done|done|apply (fi_maxjump h Hi)]. Qed.

(** ** Growth *)

Definition distinct_entries (l : list fixedset_entry) : Prop :=
  forall i j e e', (i < j)%nat -> l !! i = Some e -> l !! j = Some e' -> used e = true -> used e' = true -> e_kv e <> e_kv e'.

Lemma block_distinct h : fs_inv h -> distinct_entries (fs_block h).
Proof.
  intros Hi i j e e' Hij He He' Hu Hu' E. pose proof (fi_shape h Hi) as Hs. pose proof (sh_cap h Hs). pose proof (sh_block h Hs).
  pose proof (lookup_lt_Some _ _ _ He). pose proof (lookup_lt_Some _ _ _ He').
  assert (Hn : forall s x, fs_block h !! s = Some x -> fixedset_entry_n h (Z.of_nat s) = x).
  { intros s x Hx. unfold fixedset_entry_n. rewrite index_of, Hx by (done || by eapply lookup_lt_Some). done. }
  assert (Hm : Z.of_nat i mod fs_cap h = Z.of_nat j mod fs_cap h).
  { apply (fi_distinct h Hi); rewrite ?(Hn i e He), ?(Hn j e' He'); try done; unfold used in *; breflect; done. }
  rewrite !Z.mod_small in Hm by lia. lia.
Qed.

Lemma reinsert_spec alloc rnd depth l : forall h, fs_inv h -> distinct_entries l ->
  (forall e, e ∈ l -> used e = true -> key_wf h (e_kv e) /\ ~ mem h (e_kv e)) ->
  let n := fs_size h + Z.of_nat (countb used l) in n + n / 8 <= fs_cap h ->
  exists h', reinsert (fixedset_upsert alloc rnd depth) l h = Some (err_SUCCESS, h') /\ fs_inv h' /\ same_set h h' /\
    (forall x, mem h' x <-> mem h x \/ exists e, e ∈ l /\ used e = true /\ e_kv e = x) /\ fs_size h' = n.
Proof.
  induction l as [|e l IH]; intros h Hi Hd Hk n Hn; cbn [reinsert].
  { exists h. split; [done|]. split; [done|]. split; [done|]. split; [|unfold n; simpl; lia].
    intros x. split; [by left|]. by intros [?|(e & ?%not_elem_of_nil & _)]. }
  assert (Hd' : distinct_entries l) by (intros i j a b Hij Ha Hb; apply (Hd (S i) (S j)); [lia|done|done]).
  fold (used e). destruct (used e) eqn:Eu.
  - destruct (Hk e ltac:(left) Eu) as [Hkw Hnm]. pose proof (fi_size h Hi) as Hsz.
    assert (Hn' : n = fs_size h + 1 + Z.of_nat (countb used l)) by (unfold n; simpl; rewrite Eu; lia).
    assert (Hroom : with_room h).
    { unfold with_room. pose proof (Z.div_le_mono (fs_size h) n 8 ltac:(lia) ltac:(lia)). lia. }
    destruct (upsert_with_room alloc rnd depth h (e_kv e) Hi Hkw Hroom) as (replaced & h1 & -> & (Hi1 & Hks & Hsip & _ & Hrep & Hmem & Hs1) & Hc1).
    change (is_success err_SUCCESS) with true. cbv iota.
    assert (replaced = false) as -> by (destruct replaced; [by elim Hnm; apply Hrep|done]).
    destruct (IH h1 Hi1 Hd') as (h' & -> & Hi' & Hsame & Hmem' & Hsz').
    + intros e' He' Hu'. destruct (Hk e' ltac:(by right) Hu') as [(Hl' & H0' & Hb') Hnm']. split.
      * unfold key_wf, fs_hash in *. by rewrite Hks, Hsip.
      * rewrite Hmem. intros [?|E]; [done|]. apply list_elem_of_lookup_1 in He' as [j Hj].
        by apply (Hd 0%nat (S j) e e' ltac:(lia) eq_refl Hj Eu Hu').
    + rewrite Hs1, Hc1. cbv iota. rewrite <- Hn'. done.
    + exists h'. split; [done|]. split; [done|]. split; [destruct Hsame as (? & ? & ?); split_and!; congruence|]. split; [|lia].
      intros x. rewrite Hmem', Hmem. split.
      * intros [[?| ->]|(e' & ? & ? & ?)]; [by left|right; exists e; split; [left|done]|right; exists e'; split; [by right|done]].
      * intros [?|(e' & He' & ? & <-)]; [by left; left|]. apply elem_of_cons in He' as [->|He']; [by left; right|right; by exists e'].
  - assert (Hn' : n = fs_size h + Z.of_nat (countb used l)) by (unfold n; simpl; rewrite Eu; lia).
    destruct (IH h Hi Hd') as (h' & -> & Hi' & Hsame & Hmem' & Hsz').
    + intros e' He'. apply Hk. by right.
    + by rewrite <- Hn'.
    + exists h'. split; [done|]. split; [done|]. split; [done|]. split; [|congruence]. intros x. rewrite Hmem'. split.
      * intros [?|(e' & ? & ?)]; [by left|right; exists e'; split; [by right|done]].
      * intros [?|(e' & He' & ? & ?)]; [by left|]. apply elem_of_cons in He' as [->|He']; [congruence|right; by exists e'].
Qed.

Lemma new_capacity_spec rnd h : 32 <= fs_cap h < 2 ^ 31 -> 0 <= rnd ->
  fs_cap h + fs_cap h / 4 <= new_capacity rnd h < 2 ^ 32 /\ new_capacity rnd h < fs_cap h + fs_cap h / 4 + fs_cap h / 2.
Proof.
  intros Hc Hr. unfold new_capacity. assert (8 <= fs_cap h / 4) by (apply Z.div_le_lower_bound; lia).
  assert (16 <= fs_cap h / 2 <= fs_cap h) by (split; [apply Z.div_le_lower_bound; lia|apply Z.div_le_upper_bound; lia]).
  pose proof (Z.mod_pos_bound rnd (fs_cap h / 2) ltac:(lia)).
  assert (fs_cap h / 4 + fs_cap h / 2 <= fs_cap h) by dlia.
  rewrite (add64_small (fs_cap h)) by lia. rewrite add64_small; lia.
Qed.

Lemma fixedset_resize_spec rnd depth h : fs_inv h -> fs_size h < fs_cap h -> fs_cap h < 2 ^ 31 -> 0 <= rnd ->
  exists h', fixedset_resize true (fixedset_upsert true rnd depth) h (new_capacity rnd h) = Some (err_SUCCESS, h') /\
    fs_inv h' /\ fs_ksize h' = fs_ksize h /\ fs_sipkey h' = fs_sipkey h /\ with_room h' /\ (forall x, mem h' x <-> mem h x) /\ fs_size h' = fs_size h /\
    fs_cap h' = new_capacity rnd h.
Proof.
  intros Hi Hsz Hc Hr. pose proof (fi_shape h Hi) as Hs. pose proof (sh_cap h Hs) as Hc0.
  destruct (new_capacity_spec rnd h ltac:(lia) Hr) as [[Hlo Hhi] _]. set (cap := new_capacity rnd h) in *.
  assert (8 <= fs_cap h / 4) by (apply Z.div_le_lower_bound; lia).
  unfold fixedset_resize. rewrite (proj2 (Z.gtb_lt cap (fs_cap h))) by lia. cbn [negb]. set (new := {| fs_block := new_block _ _ |}).
  destruct (blank_inv new) as [Hin Hnm]; [simpl; lia|done|done|simpl; lia|]. pose proof (fi_size h Hi) as Hcnt.
  assert (Hroom : fs_size h + fs_size h / 8 <= cap).
  { pose proof (Z.div_le_mono (fs_size h) (fs_cap h) 8 ltac:(lia) ltac:(lia)).
    pose proof (Z.div_le_compat_l (fs_cap h) 4 8 ltac:(lia) ltac:(lia)). lia. }
  destruct (reinsert_spec true rnd depth (fs_block h) new Hin (block_distinct h Hi)) as (h' & -> & Hi' & (Hc' & Hks & Hsip) & Hmem & Hsz').
  - intros e [s He]%list_elem_of_lookup_1 Hu. split; [|apply Hnm].
    pose proof (fi_keys h Hi (Z.of_nat s)) as Hk. unfold fixedset_entry_n in Hk. rewrite index_of, He in Hk by (done || by eapply lookup_lt_Some).
    apply Hk. unfold used in Hu. simpl. breflect. done.
  - cbn [new fs_size fs_cap]. rewrite Z.add_0_l, <- Hcnt. done.
  - cbn [new fs_size] in Hsz'. rewrite Z.add_0_l, <- Hcnt in Hsz'. change (is_success err_SUCCESS) with true. cbv iota. exists h'.
    split_and!; try done.
    + unfold with_room. rewrite Hc', Hsz'. done.
    + intros x. rewrite Hmem. split.
      * intros [?|(e & [s He]%list_elem_of_lookup_1 & Hu & <-)]; [by elim (Hnm x)|]. exists (Z.of_nat s).
        unfold fixedset_entry_n. rewrite index_of, He by (done || by eapply lookup_lt_Some). simpl. unfold used in Hu. breflect. done.
      * intros (p & Hp & <-). right. exists (fixedset_entry_n h p). split_and!; [|by apply used_true|done].
        eapply list_elem_of_lookup_2, entry_lookup, Hs.
Qed.

Lemma fixedset_upsert_spec alloc rnd depth h k : fs_inv h -> key_wf h k -> fs_size h < fs_cap h -> fs_cap h < 2 ^ 31 -> 0 <= rnd ->
  exists err replaced h', fixedset_upsert alloc rnd (S depth) h k = Some (err, replaced, h') /\
    ((err = err_SUCCESS /\ upserted h k replaced h' /\ fs_cap h' <= Z.max (fs_cap h) (2 * fs_size h)) \/ (err = err_OOM /\ alloc = false /\ h' = h)).
Proof.
  intros Hi Hk Hsz Hc Hr. destruct (Z.le_gt_cases (fs_size h + fs_size h / 8) (fs_cap h)) as [Hroom|Hfull].
  { destruct (upsert_with_room alloc rnd (S depth) h k Hi Hk Hroom) as (replaced & h' & -> & Hup & Ec).
    exists err_SUCCESS, replaced, h'. split; [done|]. left. split; [done|]. split; [done|lia]. }
  assert (Ht : (fs_size h [+] fs_size h / 8 >? fs_cap h) = true) by (rewrite captest_small by done; apply Z.gtb_lt; lia).
  pose proof (sh_cap h (fi_shape h Hi)) as Hc0. destruct (new_capacity_spec rnd h ltac:(lia) Hr) as [[Hlo _] Hup0].
  assert (8 <= fs_cap h / 4) by (apply Z.div_le_lower_bound; lia).
  destruct alloc.
  - destruct (fixedset_resize_spec rnd depth h Hi Hsz Hc Hr) as (h1 & Hres & Hi1 & Hks & Hsip & Hroom & Hmem & Hs1 & Hc1).
    assert (Hk1 : key_wf h1 k) by (unfold key_wf, fs_hash in *; by rewrite Hks, Hsip).
    destruct (upsert_with_room true rnd 0 h1 k Hi1 Hk1 Hroom) as (replaced & h' & Hup & (Hi' & Hks' & Hsip' & Hlt & Hrep & Hmem' & Hs') & Hc').
    exists err_SUCCESS, replaced, h'. split.
    + cbn [fixedset_upsert] in Hup |- *. rewrite Ht, Hres. change (is_success err_SUCCESS) with true. cbv iota.
      rewrite (captest_room h1 Hi1 Hroom) in Hup. exact Hup.
    + left. split; [done|]. split; [|rewrite Hc', Hc1; dlia].
      split_and!; try congruence; try done; [by rewrite Hrep, Hmem|]. intros x. by rewrite Hmem', Hmem.
  - exists err_OOM, false, h. split; [|by right]. cbn [fixedset_upsert]. rewrite Ht. unfold fixedset_resize.
    rewrite (proj2 (Z.gtb_lt _ _)) by lia. done.
Qed.

(** ** Removal *)

(** The keys outside of the entry at [a]. *)
Definition mem_but (h : fixedset) (a : Z) (x : list Z) : Prop :=
  exists q, q mod fs_cap h <> a mod fs_cap h /\ J h q <> 0 /\ K h q = x.

(** The entry at [a] has been moved or is to be removed. *)
Record hole (h : fixedset) (a : Z) (fuel : nat) : Prop := {
  ho_shape : shape h;
  ho_order p : J h (p + 1) <= J h p + 1;
  ho_nonneg p : 0 <= J h p;
  ho_counters : counters h;
  ho_located p : J h p <> 0 -> (fs_hash h (K h p) + J h p) mod fs_cap h = p mod fs_cap h;
  ho_keys p : J h p <> 0 -> key_wf h (K h p);
  ho_distinct p q : p mod fs_cap h <> a mod fs_cap h -> q mod fs_cap h <> a mod fs_cap h ->
    J h p <> 0 -> J h q <> 0 -> K h p = K h q -> p mod fs_cap h = q mod fs_cap h;
  ho_used : J h a <> 0;
  ho_empty : exists d : nat, (d < fuel)%nat /\ J h (a + 1 + Z.of_nat d) = 0;
  ho_pos : 0 <= a /\ a + 1 + Z.of_nat fuel < 2 ^ 64;
}.

(** The next entry moves back by one. *)
Lemma hole_step h a fuel : hole h a (S fuel) -> 2 <= J h (a + 1) ->
  let h1 := set_entry h a {| e_jump := J h (a + 1) - 1; e_kv := K h (a + 1) |} in
  hole h1 (a + 1) fuel /\ countb used (fs_block h1) = countb used (fs_block h) /\
  (forall x, mem_but h1 (a + 1) x <-> mem_but h a x).
Proof.
  intros [Hs Ho Hn [Hr Hm] Hl Hk Hd Hu (d & Hdf & Hed) [Hp0 Hpf]] H2. pose proof (sh_cap h Hs) as Hc. cbv zeta.
  set (e := {| e_jump := J h (a + 1) - 1; e_kv := K h (a + 1) |}). set (h1 := set_entry h a e).
  assert (HE : forall q, fixedset_entry_n h1 q = if decide (q mod fs_cap h = a mod fs_cap h) then e else fixedset_entry_n h q) by (intros q; by apply set_entry_n).
  assert (Hne : (a + 1) mod fs_cap h <> a mod fs_cap h).
  { pose proof (mod_pred_neq (fs_cap h) (a + 1) ltac:(lia)) as H. replace (a + 1 - 1) with a in H by lia. congruence. }
  assert (Hloc1 : (fs_hash h (K h (a + 1)) + (J h (a + 1) - 1)) mod fs_cap h = a mod fs_cap h).
  { apply mod_succ_eq; [lia|]. replace (fs_hash h (K h (a + 1)) + (J h (a + 1) - 1) + 1) with (fs_hash h (K h (a + 1)) + J h (a + 1)) by lia.
    apply Hl. lia. }
  split_and!.
  - split; try change (fs_cap h1) with (fs_cap h).
    + by apply shape_set.
    + intros p. rewrite !HE. case_decide as E1; case_decide as E2; unfold e; cbn [e_jump].
      * lia.
      * pose proof (Ho a). specialize (Ho p). rewrite (entry_n_mod h (p + 1) a) in Ho by done. lia.
      * rewrite (entry_n_mod h (p + 1) (a + 1)); [lia|]. by apply mod_succ_eq; [lia|].
      * apply Ho.
    + intros p. rewrite HE. case_decide; unfold e; cbn [e_jump]; [lia|apply Hn].
    + split; [|done]. intros p. rewrite HE. change (fs_maxjump h1) with (fs_maxjump h). case_decide; unfold e; cbn [e_jump]; [specialize (Hr (a + 1)); lia|apply Hr].
    + intros p. rewrite HE. change (fs_hash h1) with (fs_hash h). case_decide as E; unfold e; cbn [e_jump e_kv]; [intros _; congruence|apply Hl].
    + intros p. rewrite HE. case_decide; unfold e; cbn [e_jump e_kv]; [intros _; apply (Hk (a + 1)); lia|apply Hk].
    + intros p q Hp1 Hq1. rewrite !HE. case_decide as E1; case_decide as E2; unfold e; cbn [e_jump e_kv]; intros J1 J2 EK.
      * congruence.
      * elim Hq1. symmetry. apply Hd; [done|done|lia|done|done].
      * elim Hp1. apply Hd; [done|done|done|lia|done].
      * by apply Hd.
    + rewrite HE, decide_False by done. lia.
    + destruct d as [|d]; [rewrite Z.add_0_r in Hed; lia|]. exists d. split; [lia|]. rewrite HE, decide_False.
      * by replace (a + 1 + 1 + Z.of_nat d) with (a + 1 + Z.of_nat (S d)) by lia.
      * replace (a + 1 + 1 + Z.of_nat d) with (a + 1 + Z.of_nat (S d)) by lia. intros E. apply Hu. by rewrite <- (entry_n_mod h _ _ E).
    + lia.
  - pose proof (count_set h a e Hs) as Hcs. rewrite (used_true e), (used_true (fixedset_entry_n h a)) in Hcs by (unfold e; cbn; lia || done).
    fold h1 in Hcs. lia.
  - intros x. unfold mem_but. change (fs_cap h1) with (fs_cap h). split.
    + intros (q & Hq & Hj). rewrite HE in Hj. case_decide as E; [|by exists q]. exists (a + 1). split; [done|]. unfold e in Hj. cbn in Hj.
      split; [lia|by destruct Hj].
    + intros (q & Hq & Hj & HK). destruct (decide (q mod fs_cap h = (a + 1) mod fs_cap h)) as [E|E].
      * exists a. split; [congruence|]. rewrite HE, decide_True by done. unfold e. cbn. split; [lia|]. by rewrite <- (entry_n_mod h _ _ E).
      * exists q. split; [done|]. by rewrite HE, decide_False.
Qed.

Lemma hole_end h a fuel : hole h a fuel -> J h (a + 1) < 2 ->
  let h1 := set_entry h a {| e_jump := 0; e_kv := K h a |} in
  core h1 /\ counters h1 /\ Z.of_nat (countb used (fs_block h1)) = Z.of_nat (countb used (fs_block h)) - 1 /\ (forall x, mem h1 x <-> mem_but h a x).
Proof.
  intros [Hs Ho Hn [Hr Hm] Hl Hk Hd Hu _ _] H2. pose proof (sh_cap h Hs) as Hc. cbv zeta.
  set (e := {| e_jump := 0; e_kv := K h a |}). set (h1 := set_entry h a e).
  assert (HE : forall q, fixedset_entry_n h1 q = if decide (q mod fs_cap h = a mod fs_cap h) then e else fixedset_entry_n h q) by (intros q; by apply set_entry_n).
  split_and!.
  - split; try change (fs_cap h1) with (fs_cap h).
    + by apply shape_set.
    + intros p. rewrite !HE. case_decide as E1; case_decide as E2; unfold e; cbn [e_jump]; [lia|specialize (Hn p); lia| |apply Ho].
      rewrite (entry_n_mod h (p + 1) (a + 1)); [lia|]. by apply mod_succ_eq; [lia|].
    + intros p. rewrite HE. case_decide; [done|apply Hn].
    + intros p. rewrite HE. case_decide; [done|apply Hl].
    + intros p. rewrite HE. case_decide; [done|apply Hk].
    + intros p q. rewrite !HE. case_decide; [done|]. case_decide; [done|]. by apply Hd.
  - split; [|done]. intros p. rewrite HE. change (fs_maxjump h1) with (fs_maxjump h). case_decide; [cbn; lia|apply Hr].
  - pose proof (count_set h a e Hs) as Hcs. rewrite (used_false e), (used_true (fixedset_entry_n h a)) in Hcs by done. fold h1 in Hcs. lia.
  - intros x. unfold mem, mem_but. split.
    + intros (q & Hj). rewrite HE in Hj. case_decide as E; [by destruct Hj|by exists q].
    + intros (q & Hq & Hj). exists q. by rewrite HE, decide_False.
Qed.

Lemma remove_loop_spec fuel : forall h idx i a, hole h a fuel -> idx + i = a + 1 -> 0 <= idx -> 0 <= i ->
  exists h', remove_loop fuel h idx i a = Some h' /\ same_set h h' /\ core h' /\ counters h' /\ fs_size h' = fs_size h /\
    Z.of_nat (countb used (fs_block h')) = Z.of_nat (countb used (fs_block h)) - 1 /\ (forall x, mem h' x <-> mem_but h a x).
Proof.
  induction fuel as [|fuel IH]; intros h idx i a Hh Hi H0 Hi0; [destruct (ho_empty _ _ _ Hh) as (d & ? & _); lia|].
  pose proof (ho_pos _ _ _ Hh). cbn [remove_loop]. rewrite (add64_small idx i), (add64_small i 1) by lia. rewrite Hi.
  destruct (J h (a + 1) <? 2) eqn:E; breflect.
  - destruct (hole_end h a (S fuel) Hh E) as (? & ? & ? & ?). eexists. split; [done|]. by split_and!.
  - destruct (hole_step h a fuel Hh E) as (Hh1 & Hc1 & Hm1). cbv zeta in *.
    pose proof (ct_range _ (ho_counters _ _ _ Hh) (a + 1)). pose proof (ct_maxjump _ (ho_counters _ _ _ Hh)).
    pose proof (sh_cap h (ho_shape _ _ _ Hh)). assert (Ew : wrap32 (J h (a + 1) - 1) = J h (a + 1) - 1) by (apply Z.mod_small; lia). rewrite Ew.
    destruct (IH _ idx (i + 1) (a + 1) Hh1) as (h' & -> & Hsame & ? & ? & ? & ? & Hm); [lia|lia|lia|].
    exists h'. split; [done|]. split; [exact Hsame|]. split_and!; try done; [lia|]. intros x. by rewrite Hm, Hm1.
Qed.

Lemma fixedset_remove_spec h k : fs_inv h -> key_wf h k -> fs_size h < fs_cap h ->
  exists removed h', fixedset_remove h k = Some (removed, h') /\ fs_inv h' /\ same_set h h' /\
    (removed = true <-> mem h k) /\ (forall x, mem h' x <-> mem h x /\ x <> k) /\ fs_size h' = fs_size h - (if removed then 1 else 0).
Proof.
  intros Hi Hk Hlt. destruct (fixedset_find_spec h k Hi Hk) as [Hf Hn]. unfold fixedset_remove.
  destruct (mem_dec h k Hi Hk) as [(p & Hp & HK)|Hm].
  2:{ rewrite (Hn Hm). exists false, h. split_and!; try done; [|lia]. intros x. split; [|by intros [? _]]. intros Hx. split; [done|]. by intros ->. }
  rewrite (Hf p Hp HK). set (a := fs_hash h k + J h p). pose proof (fi_range h Hi p). pose proof (fi_maxjump h Hi).
  destruct Hk as (Hkl & Hk0 & Hkb). pose proof (sh_cap h (fi_shape h Hi)) as Hc.
  assert (Ea : a mod fs_cap h = p mod fs_cap h) by (unfold a; rewrite <- HK; by apply (fi_located h Hi)).
  assert (Ena : fixedset_entry_n h a = fixedset_entry_n h p) by by apply entry_n_mod.
  apply fs_inv_iff in Hi as (Hco & Hct & Hcnt). pose proof (co_shape h Hco) as Hs.
  destruct (exists_empty h Hs ltac:(lia) (a + 1)) as (d & Hd & Hed). set (h0 := with_size h (fs_size h [-] 1)).
  assert (Hpos : 1 <= fs_size h).
  { rewrite Hcnt. assert (0 < countb used (fs_block h))%nat; [|lia]. pose proof (entry_lookup h p Hs) as Hl.
    apply list_elem_of_lookup_2, elem_of_Permutation in Hl as [r Hr]. rewrite (countb_perm _ _ _ Hr). simpl. rewrite used_true by done. lia. }
  destruct (remove_loop_spec (S (Z.to_nat (fs_cap h))) h0 a 1 a) as (h' & Hrun & Hsame & Hco' & Hct' & Hsz' & Hcnt' & Hmem).
  - destruct (core_same h h0 eq_refl (conj eq_refl (conj eq_refl eq_refl)) Hco) as [? ? ? ? ? Hdist]. split; try assumption.
    + destruct Hct as [Hr Hm]. split; [exact Hr|exact Hm].
    + intros q q' _ _. apply Hdist.
    + change (J h a <> 0). by rewrite Ena.
    + exists d. split; [lia|exact Hed].
    + unfold a. lia.
  - lia.
  - unfold a. lia.
  - lia.
  - rewrite Hrun. exists true, h'. change (fs_size h0) with (fs_size h [-] 1) in Hsz'. rewrite sub64_small in Hsz' by lia.
    split; [done|]. split; [|split; [exact Hsame|split; [split; [|done]; intros _; by exists p|split; [|lia]]]].
    + apply fs_inv_iff. split_and!; try done. change (fs_block h0) with (fs_block h) in Hcnt'. lia.
    + intros x. rewrite Hmem. unfold mem_but. change (fs_cap h0) with (fs_cap h). split.
      * intros (q & Hq & Hj & HKq). change (J h q <> 0) in Hj. change (K h q = x) in HKq. split; [by exists q|]. intros ->. apply Hq.
        rewrite Ea. apply (co_distinct h Hco); congruence.
      * intros [(q & Hj & HKq) Hx]. exists q. split; [|done]. intros E. apply Hx. rewrite <- HKq, (entry_n_mod h q p), HK by congruence. done.
Qed.
