(* ===== verification/FixedSetTheorems.v ===== *)
(** * The fixed-size-key set: properties

    The operations as operations on a finite set of keys. *)

From stdpp Require Import gmap.
From S2P Require Import Prelude Errors HalfSipHash OCompact FixedSet FixedSetSpec.
Local Open Scope Z_scope.

(** ** The set of the keys *)

Definition set_of (h : fixedset) : gset (list Z) := list_to_set (map e_kv (kept used (fs_block h))).

Lemma elem_of_set_of h k : shape h -> k ∈ set_of h <-> mem h k.
Proof.
  intros Hs. unfold set_of. rewrite elem_of_list_to_set, list_elem_of_fmap. split.
  - intros (e & -> & He). unfold kept in He. rewrite list_elem_of_In, filter_In, <- list_elem_of_In in He. destruct He as [He Hu].
    apply list_elem_of_lookup_1 in He as [s Hl]. exists (Z.of_nat s).
    unfold fixedset_entry_n. rewrite index_of, Hl by (done || by eapply lookup_lt_Some). simpl. unfold used in Hu. breflect. done.
  - intros (p & Hp & <-). exists (fixedset_entry_n h p). split; [done|]. unfold kept.
    rewrite list_elem_of_In, filter_In, <- list_elem_of_In. split; [|by apply used_true]. eapply list_elem_of_lookup_2, entry_lookup, Hs.
Qed.

Definition usable (h : fixedset) : Prop := fs_inv h /\ fs_size h < fs_cap h.

(** ** Properties *)

(** C22. Adding a key ends, with the error of a failed allocation and the set
    unchanged, or with success: the set then has the key in addition, [replaced] says whether it had it before, and the size
    is counted.  This covers growth, where all entries are inserted again.
    [key_wf] keeps the hashes away from 2^64, where hash + jump wraps. *)
Theorem fixedset_upsert_correct alloc rnd depth h k : usable h -> key_wf h k -> fs_cap h < 2 ^ 31 -> 0 <= rnd ->
  exists err replaced h', fixedset_upsert alloc rnd (S depth) h k = Some (err, replaced, h') /\
    ((err = err_SUCCESS /\ usable h' /\ set_of h' = {[k]} ∪ set_of h /\ replaced = bool_decide (k ∈ set_of h) /\
      fixedset_size h' = fixedset_size h + (if replaced then 0 else 1)) \/
     (err = err_OOM /\ alloc = false /\ h' = h)).
Proof.
  intros [Hi Hlt] Hk Hc Hr. destruct (fixedset_upsert_spec alloc rnd depth h k Hi Hk Hlt Hc Hr) as (err & replaced & h' & Hrun & Hor).
  exists err, replaced, h'. split; [done|]. destruct Hor as [(-> & (Hi' & _ & _ & Hlt' & Hrep & Hmem & Hsz) & _)|Hoom]; [left|by right].
  pose proof (fi_shape h Hi) as Hs. pose proof (fi_shape h' Hi') as Hs'. split_and!; [done|done| | |done].
  - apply set_eq. intros x. rewrite elem_of_union, elem_of_singleton, !elem_of_set_of, Hmem by done. tauto.
  - apply eq_true_iff_eq. by rewrite bool_decide_eq_true, elem_of_set_of, Hrep.
Qed.

(** C23. Lookup decides membership; removal ends, says whether the key was in the
    set and takes it out, and the backward shift keeps every other key. The hash of
    the key, like those of the keys of a usable set, is more than 2^34 below 2^64
    ([key_wf]). *)
Theorem fixedset_remove_correct h k : usable h -> key_wf h k ->
  fixedset_get h k = bool_decide (k ∈ set_of h) /\
  exists h', fixedset_remove h k = Some (bool_decide (k ∈ set_of h), h') /\ usable h' /\ set_of h' = set_of h ∖ {[k]} /\
    fixedset_size h' = fixedset_size h - (if bool_decide (k ∈ set_of h) then 1 else 0).
Proof.
  intros [Hi Hlt] Hk. pose proof (fi_shape h Hi) as Hs. split.
  - apply eq_true_iff_eq. by rewrite bool_decide_eq_true, elem_of_set_of, fixedset_get_spec.
  - destruct (fixedset_remove_spec h k Hi Hk Hlt) as (removed & h' & Hrun & Hi' & (Hc & _) & Hrem & Hmem & Hsz).
    pose proof (fi_shape h' Hi') as Hs'.
    assert (removed = bool_decide (k ∈ set_of h)) as -> by (apply eq_true_iff_eq; by rewrite bool_decide_eq_true, elem_of_set_of).
    exists h'. split_and!; [done|split; [done|]| |done].
    + unfold fixedset_size in *. rewrite Hc. case_match; lia.
    + apply set_eq. intros x. rewrite elem_of_difference, elem_of_singleton, !elem_of_set_of by done. apply Hmem.
Qed.

(** ** A small set *)

Definition small_sip : list Z := [0; 1; 2; 3; 4; 5; 6; 7].
Definition small_key (n : Z) : list Z := [n; 0; 0; 0; 0; 0; 0; 0].
Definition small_set : fixedset :=
  fold_left (fun h n => match fixedset_upsert true 5 1 h (small_key (Z.of_nat n)) with Some (_, _, h) => h | None => h end) (seq 0 31)
    (fixedset_new 8 small_sip).

Lemma small_new_usable : usable (fixedset_new 8 small_sip).
Proof. split; [apply fixedset_new_inv|done]. Qed.

Lemma small_key_wf h n : fs_ksize h = 8%nat -> fs_sipkey h = small_sip ->
  (0 <=? of_le (halfsiphash_mem (small_key n) small_sip 8)) && (of_le (halfsiphash_mem (small_key n) small_sip 8) + 2 ^ 34 <? 2 ^ 64) = true ->
  key_wf h (small_key n).
Proof. intros Hk Hs E. unfold key_wf, fs_hash. rewrite Hk, Hs. breflect. done. Qed.

Lemma fixedset_upsert_correct_witness :
  exists h', fixedset_upsert true 5 1 (fixedset_new 8 small_sip) (small_key 7) = Some (err_SUCCESS, false, h') /\ usable h' /\
    fs_size small_set = 31 /\ fs_cap small_set = 45.
Proof.
  destruct (fixedset_upsert_correct true 5 0 (fixedset_new 8 small_sip) (small_key 7) small_new_usable) as (err & replaced & h' & Hrun & Hor).
  - apply small_key_wf; [reflexivity|reflexivity|vm_compute; reflexivity].
  - reflexivity.
  - discriminate.
  - destruct Hor as [(-> & Hu & _ & Hrep & _)|(_ & E & _)]; [|discriminate E].
    assert (replaced = false) as -> by (rewrite Hrep; vm_compute; reflexivity).
    exists h'. split; [exact Hrun|]. split; [exact Hu|]. vm_compute. split; reflexivity.
Defined.

(** A set of two keys. *)
Definition one_key : fixedset := match fixedset_upsert true 5 1 (fixedset_new 8 small_sip) (small_key 7) with Some (_, _, h) => h | None => fixedset_new 8 small_sip end.
Definition two_keys : fixedset := match fixedset_upsert true 5 1 one_key (small_key 9) with Some (_, _, h) => h | None => one_key end.

Lemma small_upsert_usable h n : usable h -> fs_ksize h = 8%nat -> fs_sipkey h = small_sip -> fs_cap h < 2 ^ 31 ->
  (0 <=? of_le (halfsiphash_mem (small_key n) small_sip 8)) && (of_le (halfsiphash_mem (small_key n) small_sip 8) + 2 ^ 34 <? 2 ^ 64) = true ->
  match fixedset_upsert true 5 1 h (small_key n) with Some (_, _, h') => usable h' | None => True end.
Proof.
  intros [Hi Hlt] Hk Hs Hc Hn.
  destruct (fixedset_upsert_spec true 5 0 h (small_key n) Hi (small_key_wf h n Hk Hs Hn) Hlt Hc ltac:(lia)) as (err & replaced & h' & -> & Hor).
  destruct Hor as [(_ & (Hi' & _ & _ & Hlt' & _) & _)|(_ & E & _)]; [by split|discriminate E].
Qed.

Lemma two_keys_usable : usable two_keys.
Proof.
  pose proof (small_upsert_usable (fixedset_new 8 small_sip) 7 small_new_usable eq_refl eq_refl eq_refl ltac:(vm_compute; reflexivity)) as H1.
  assert (H1' : usable one_key) by (unfold one_key; destruct (fixedset_upsert _ _ _ _ _) as [[[? ?] h]|]; [done|apply small_new_usable]).
  pose proof (small_upsert_usable one_key 9 H1' ltac:(vm_compute; reflexivity) ltac:(vm_compute; reflexivity) ltac:(vm_compute; reflexivity) ltac:(vm_compute; reflexivity)) as H2.
  unfold two_keys. destruct (fixedset_upsert _ _ _ one_key _) as [[[? ?] h]|]; done.
Qed.

(** Removing one of the keys leaves the other. *)
Lemma fixedset_remove_correct_witness :
  fixedset_get two_keys (small_key 7) = true /\
  exists h', fixedset_remove two_keys (small_key 7) = Some (true, h') /\ usable h' /\ set_of h' = {[small_key 9]} /\ fixedset_size h' = 1.
Proof.
  destruct (fixedset_remove_correct two_keys (small_key 7) two_keys_usable) as (Hg & h' & Hr & Hu & Hs & Hn).
  { apply small_key_wf; vm_compute; reflexivity. }
  assert (E : bool_decide (small_key 7 ∈ set_of two_keys) = true) by (vm_compute; reflexivity).
  rewrite E in Hg, Hr, Hn. split; [exact Hg|]. exists h'. split; [exact Hr|]. split; [exact Hu|]. split.
  - rewrite Hs. apply (bool_decide_unpack _). vm_compute. exact I.
  - rewrite Hn. vm_compute. reflexivity.
Defined.
