(* ===== verification/Messages.v ===== *)
(** * Messages ([cdsi.proto], [c/proto/pbutil.h])

    The messages the enclave exchanges, as the structures its code reads and
    fills.  The encoders and decoders that the build generates for them are
    arguments of the definitions that use them. *)

From S2P Require Import Prelude.
Local Open Scope Z_scope.

(** A byte field: where its bytes lie (0 for the null pointer) and the bytes.
    [size] is their number. *)
Record pbtools_bytes_t := Bytes { buf_p : Z; bytes : list Z }.

Definition size (b : pbtools_bytes_t) : Z := Z.of_nat (length (bytes b)).
Definition no_bytes : pbtools_bytes_t := {| buf_p := 0; bytes := [] |}.

Record client_request_t := ClientRequest {
  aci_uak_pairs : pbtools_bytes_t;
  prev_e164s : pbtools_bytes_t;
  new_e164s : pbtools_bytes_t;
  discard_e164s : pbtools_bytes_t;
  token : pbtools_bytes_t;
  token_ack : bool;
}.

Record client_response_t := ClientResponse {
  e164_pni_aci_triples : list Z;
  rsp_token : list Z;
  debug_permits_used : Z;
}.

Record enclave_load_t := EnclaveLoad {
  clear_all : bool;
  e164_aci_pni_uak_tuples : list Z;
  shared_token_secret : list Z;
}.

Record client_handshake_start_t := ClientHandshakeStart {
  test_only_pubkey : list Z;
  evidence : list Z;
  endorsement : list Z;
}.

(** The one entry of the table statistics, by name and value. *)
Record table_statistics_t := TableStatistics { shard_statistics : list (list (list Z * Z)) }.
