(* ===== verification/RateLimit.v ===== *)
(** * Rate-limit tokens ([c/ratelimit/ratelimit.c])

    A token is a version byte, 32 bytes of entropy and the HMAC-SHA256, under
    the shared secret, of these 33 bytes and the sorted phone numbers it was
    issued for.  SHA-256 itself is third-party code and an argument: its context
    collects the bytes of the updates, and finishing hashes them. *)

From S2P Require Import Prelude Errors OddEvenSort Messages.
Local Open Scope Z_scope.

Definition RATELIMIT_ENTROPY_SIZE : nat := 32.
Definition RATELIMIT_HASH_SIZE : nat := 32.
Definition RATELIMIT_VERSION : Z := 1.
Definition RATELIMIT_VERSION_SIZE : nat := 1.
Definition RATELIMIT_TOKEN_SIZE : nat := RATELIMIT_VERSION_SIZE + RATELIMIT_ENTROPY_SIZE + RATELIMIT_HASH_SIZE.
Definition RATELIMIT_TOKENHASH_SIZE : nat := 32.

(** ** Operations *)

(** The two global variables; the array has 64 bytes. *)
Record ratelimit := Ratelimit { g_shared_secret_bytes : list Z; g_shared_secret_size : nat }.
Definition ratelimit_init : ratelimit := {| g_shared_secret_bytes := replicate 64 0; g_shared_secret_size := 0 |}.

Definition ratelimit_set_shared_secret (g : ratelimit) (bs : list Z) : error_t * ratelimit :=
  if negb (length bs <=? 64)%nat then (err_ENCLAVE__LOADPB__SECRET_TOO_LARGE, g)
  else (err_SUCCESS, {| g_shared_secret_bytes := bs ++ drop (length bs) (g_shared_secret_bytes g); g_shared_secret_size := length bs |}).

(** The sort of [ratelimit.jinc]: [osort] with this comparison. *)
Definition cmp_function (a b : Z) : bool := a >? b.
Definition odd_even_msort_uint64s (data : list Z) (lb ub : nat) : list Z := osort cmp_function lb ub data.

(** [alloc] says whether [calloc] returns memory. *)
Definition ratelimit_merge_e164s (alloc : bool) (a b : list Z) : result (list Z) :=
  let? _ := assert_err (length a mod 8 =? 0)%nat err_ENCLAVE__RATELIMIT__INVALID_E164S in
  let? _ := assert_err (length b mod 8 =? 0)%nat err_ENCLAVE__RATELIMIT__INVALID_E164S in
  let? _ := assert_err alloc err_OOM in
  let out := u64s_of (a ++ b) in
  Ok (bytes_of (odd_even_msort_uint64s out 0 (length a / 8 + length b / 8))).

(** [while (s--)] over the two buffers. *)
Fixpoint equal_loop (s : nat) (c : Z) (a b : list Z) : Z :=
  match s with
  | O => c
  | S s => equal_loop s (Z.lor c (Z.lxor (nth 0 a 0) (nth 0 b 0))) (drop 1 a) (drop 1 b)
  end.
Definition ratelimit_constant_time_equal (a b : list Z) (s : nat) : bool := equal_loop s 0 a b =? 0.

Definition xor_bytes (data : list Z) (x : Z) : list Z := map (fun b => Z.lxor b x) data.

Section Sha.
Context (sha256 : list Z -> list Z).

(** The padded key, xored with the constant of the inner or outer hash. *)
Definition key_pad (g : ratelimit) (x : Z) : list Z :=
  let pad := replicate 64 0 in
  let pad := take (g_shared_secret_size g) (g_shared_secret_bytes g) ++ drop (g_shared_secret_size g) pad in
  xor_bytes pad x.

(** [token] is the buffer with the version and the entropy at its front; the
    result is the buffer afterwards. *)
Definition ratelimit_compute_token (alloc : bool) (g : ratelimit) (e164s_a e164s_b : list Z) (tok : list Z) : result (list Z) :=
  let? merged := ratelimit_merge_e164s alloc e164s_a e164s_b in
  let sha := key_pad g 0x36 in
  let sha := sha ++ take (RATELIMIT_VERSION_SIZE + RATELIMIT_ENTROPY_SIZE) tok in
  let sha := sha ++ merged in
  let hash1 := sha256 sha in
  let sha := key_pad g 0x5c in
  let sha := sha ++ hash1 in
  let hash2 := sha256 sha in
  Ok (take (RATELIMIT_VERSION_SIZE + RATELIMIT_ENTROPY_SIZE) tok ++ hash2
        ++ drop (RATELIMIT_VERSION_SIZE + RATELIMIT_ENTROPY_SIZE + length hash2) tok).

Definition ratelimit_token_hash (tok : list Z) : list Z := sha256 (take RATELIMIT_TOKEN_SIZE tok).

Definition ratelimit_validate_received_rate_limit_token (alloc : bool) (g : ratelimit) (req : client_request_t) : error_t :=
  let tok := bytes (token req) in
  if (length tok =? 0)%nat then
    if size (prev_e164s req) >? 0 then err_ENCLAVE__RATELIMIT__NO_TOKEN else err_SUCCESS
  else if negb (length tok =? RATELIMIT_TOKEN_SIZE)%nat then err_ENCLAVE__RATELIMIT__INVALID_TOKEN_FORMAT
  else if negb (nth 0 tok 0 =? RATELIMIT_VERSION) then err_ENCLAVE__RATELIMIT__UNSUPPORTED_VERSION
  else
    let computed := take (RATELIMIT_VERSION_SIZE + RATELIMIT_ENTROPY_SIZE) tok ++ replicate RATELIMIT_HASH_SIZE 0 in
    match ratelimit_compute_token alloc g (bytes (prev_e164s req)) (bytes (discard_e164s req)) computed with
    | Err e => e
    | Ok computed =>
        if ratelimit_constant_time_equal computed tok RATELIMIT_TOKEN_SIZE then err_SUCCESS else err_ENCLAVE__RATELIMIT__INVALID_TOKEN
    end.
End Sha.

(** ** Merging *)

Lemma merge_ok a b : (length a mod 8 = 0)%nat -> (length b mod 8 = 0)%nat ->
  exists s, ratelimit_merge_e164s true a b = Ok (bytes_of s) /\ ascending Z.gtb s /\ s ≡ₚ u64s_of a ++ u64s_of b.
Proof.
  intros Ha Hb. unfold ratelimit_merge_e164s. rewrite Ha, Hb. cbn [rbind assert_err Nat.eqb].
  rewrite u64s_of_app by done. unfold odd_even_msort_uint64s. rewrite osort_msort.
  set (l := u64s_of a ++ u64s_of b).
  assert (Hl : length l = (length a / 8 + length b / 8)%nat) by (unfold l; by rewrite length_app, !u64s_of_length).
  destruct (odd_even_msort_spec Z.gtb 0 (length l) l) as (s & Hs & Hp & Hasc); [lia|].
  exists s. rewrite <- Hl. change cmp_function with Z.gtb. rewrite Hs, drop_all, app_nil_r. cbn [take app].
  split; [done|]. split; [done|]. by rewrite Hp, drop_0, Nat.sub_0_r, firstn_all.
Qed.

(** The result depends on the numbers only. *)
Lemma merge_perm alloc a b a' b' : (length a mod 8 = 0)%nat -> (length b mod 8 = 0)%nat -> (length a' mod 8 = 0)%nat ->
  (length b' mod 8 = 0)%nat -> u64s_of a ++ u64s_of b ≡ₚ u64s_of a' ++ u64s_of b' ->
  ratelimit_merge_e164s alloc a b = ratelimit_merge_e164s alloc a' b'.
Proof.
  intros Ha Hb Ha' Hb' Hp. destruct alloc; [|unfold ratelimit_merge_e164s; by rewrite Ha, Hb, Ha', Hb'].
  destruct (merge_ok a b Ha Hb) as (s & -> & Hs & Hps). destruct (merge_ok a' b' Ha' Hb') as (s' & -> & Hs' & Hps').
  do 2 f_equal. apply (ascending_unique Z.gtb); [apply gtb_anti|done..|]. by rewrite Hps, Hps'.
Qed.

Lemma merge_inv alloc a b m : ratelimit_merge_e164s alloc a b = Ok m ->
  alloc = true /\ (length a mod 8 = 0)%nat /\ (length b mod 8 = 0)%nat.
Proof.
  unfold ratelimit_merge_e164s, assert_err. destruct (Nat.eqb_spec (length a mod 8) 0); [|done]. cbn [rbind].
  destruct (Nat.eqb_spec (length b mod 8) 0); [|done]. cbn [rbind]. by destruct alloc.
Qed.

Lemma merge_numbers a b a' b' m : Forall is_byte a -> Forall is_byte b -> Forall is_byte a' -> Forall is_byte b' ->
  ratelimit_merge_e164s true a b = Ok m -> ratelimit_merge_e164s true a' b' = Ok m ->
  u64s_of a ++ u64s_of b ≡ₚ u64s_of a' ++ u64s_of b'.
Proof.
  intros Ba Bb Ba' Bb' E E'. destruct (merge_inv _ _ _ _ E) as (_ & Ha & Hb). destruct (merge_inv _ _ _ _ E') as (_ & Ha' & Hb').
  destruct (merge_ok a b Ha Hb) as (s & Es & _ & Hp). destruct (merge_ok a' b' Ha' Hb') as (s' & Es' & _ & Hp').
  assert (s = s') as <-; [|by rewrite <- Hp, Hp'].
  apply bytes_of_inj; [| |congruence].
  - rewrite Hp. apply Forall_app. split; by apply u64s_of_u64.
  - rewrite Hp'. apply Forall_app. split; by apply u64s_of_u64.
Qed.

(** ** Comparison *)

Lemma equal_loop_zero s c a b : length a = s -> length b = s -> equal_loop s c a b = 0 <-> c = 0 /\ a = b.
Proof.
  revert c a b. induction s as [|s IH]; intros c [|x a] [|y b] Ha Hb; try done; simpl; [tauto|].
  rewrite !drop_0, IH, Z.lor_eq_0_iff, Z.lxor_eq_0_iff by (simpl in *; lia). split; [intros ((-> & ->) & ->)|intros (-> & [= -> ->])]; done.
Qed.

Lemma constant_time_equal_spec s a b : length a = s -> length b = s ->
  ratelimit_constant_time_equal a b s = bool_decide (a = b).
Proof.
  intros Ha Hb. unfold ratelimit_constant_time_equal. apply eq_true_iff_eq.
  rewrite Z.eqb_eq, equal_loop_zero, bool_decide_eq_true by done. tauto.
Qed.

(** ** Tokens *)

Section Tokens.
Context (sha256 : list Z -> list Z) (Hsha : forall m, length (sha256 m) = 32%nat).

(** Two messages on which the hash function is injective. *)
Definition no_collision (x y : list Z) : Prop := sha256 x = sha256 y -> x = y.

(** The two messages of the HMAC. *)
Definition hmac_inner (g : ratelimit) (prefix merged : list Z) : list Z := key_pad g 0x36 ++ prefix ++ merged.
Definition hmac_outer (g : ratelimit) (prefix merged : list Z) : list Z := key_pad g 0x5c ++ sha256 (hmac_inner g prefix merged).
Definition hmac (g : ratelimit) (prefix merged : list Z) : list Z := sha256 (hmac_outer g prefix merged).

Lemma compute_token_spec alloc g a b tok : length tok = RATELIMIT_TOKEN_SIZE ->
  ratelimit_compute_token sha256 alloc g a b tok =
  match ratelimit_merge_e164s alloc a b with Ok m => Ok (take 33 tok ++ hmac g (take 33 tok) m) | Err e => Err e end.
Proof.
  intros Hl. unfold ratelimit_compute_token. destruct (ratelimit_merge_e164s alloc a b) as [m|e]; [|done].
  cbn [rbind]. unfold hmac, hmac_outer, hmac_inner. rewrite <- !app_assoc. rewrite Hsha.
  change (RATELIMIT_VERSION_SIZE + RATELIMIT_ENTROPY_SIZE)%nat with 33%nat. rewrite (drop_ge tok); [by rewrite app_nil_r|]. by rewrite Hl.
Qed.

Lemma validate_spec alloc g req :
  ratelimit_validate_received_rate_limit_token sha256 alloc g req =
  let tok := bytes (token req) in
  if (length tok =? 0)%nat then if size (prev_e164s req) >? 0 then err_ENCLAVE__RATELIMIT__NO_TOKEN else err_SUCCESS
  else if negb (length tok =? RATELIMIT_TOKEN_SIZE)%nat then err_ENCLAVE__RATELIMIT__INVALID_TOKEN_FORMAT
  else if negb (nth 0 tok 0 =? RATELIMIT_VERSION) then err_ENCLAVE__RATELIMIT__UNSUPPORTED_VERSION
  else match ratelimit_merge_e164s alloc (bytes (prev_e164s req)) (bytes (discard_e164s req)) with
       | Err e => e
       | Ok m => if bool_decide (tok = take 33 tok ++ hmac g (take 33 tok) m) then err_SUCCESS else err_ENCLAVE__RATELIMIT__INVALID_TOKEN
       end.
Proof.
  unfold ratelimit_validate_received_rate_limit_token. cbv zeta. set (tok := bytes (token req)).
  destruct (length tok =? 0)%nat; [done|]. destruct (Nat.eqb_spec (length tok) RATELIMIT_TOKEN_SIZE) as [Hl|]; [|done]. cbn [negb].
  destruct (nth 0 tok 0 =? RATELIMIT_VERSION); [|done]. cbn [negb].
  change (RATELIMIT_VERSION_SIZE + RATELIMIT_ENTROPY_SIZE)%nat with 33%nat. unfold RATELIMIT_TOKEN_SIZE in Hl. simpl in Hl.
  rewrite compute_token_spec by (rewrite length_app, length_take, length_replicate, Hl; done).
  destruct (ratelimit_merge_e164s _ _ _) as [m|e]; [|done].
  rewrite take_app_length' by (rewrite length_take; lia).
  rewrite constant_time_equal_spec; [|unfold hmac; rewrite length_app, length_take, Hsha, Hl; done|done].
  by rewrite (bool_decide_ext _ (tok = take 33 tok ++ hmac g (take 33 tok) m)).
Qed.

Lemma issued_token alloc g a b prefix tok : length prefix = 33%nat ->
  ratelimit_compute_token sha256 alloc g a b (prefix ++ replicate 32 0) = Ok tok ->
  alloc = true /\ (length a mod 8 = 0)%nat /\ (length b mod 8 = 0)%nat /\ length tok = RATELIMIT_TOKEN_SIZE /\ take 33 tok = prefix /\
  exists m, ratelimit_merge_e164s true a b = Ok m /\ tok = prefix ++ hmac g prefix m.
Proof.
  intros Hl. rewrite compute_token_spec by (rewrite length_app, length_replicate, Hl; done).
  destruct (ratelimit_merge_e164s alloc a b) as [m|e] eqn:E; [|done]. destruct (merge_inv _ _ _ _ E) as (-> & Ha & Hb).
  rewrite take_app_length' by done. intros [= <-]. split_and!; [done..| | |by exists m].
  - unfold hmac. by rewrite length_app, Hl, Hsha.
  - by rewrite take_app_length'.
Qed.

(** A token is accepted with the numbers it was issued for. *)
Lemma issued_accepted g a b entropy tok req :
  length entropy = RATELIMIT_ENTROPY_SIZE ->
  ratelimit_compute_token sha256 true g a b ((RATELIMIT_VERSION :: entropy) ++ replicate 32 0) = Ok tok ->
  bytes (token req) = tok ->
  (length (bytes (prev_e164s req)) mod 8 = 0)%nat -> (length (bytes (discard_e164s req)) mod 8 = 0)%nat ->
  u64s_of (bytes (prev_e164s req)) ++ u64s_of (bytes (discard_e164s req)) ≡ₚ u64s_of a ++ u64s_of b ->
  ratelimit_validate_received_rate_limit_token sha256 true g req = err_SUCCESS.
Proof.
  intros Hle Htok Hreq Hp Hd Hperm.
  destruct (issued_token true g a b (RATELIMIT_VERSION :: entropy) tok) as (_ & Ha & Hb & Hl & Ht & m & Hm & Etok); [simpl; by rewrite Hle|done|].
  rewrite validate_spec by done. cbv zeta. rewrite Hreq, Hl. change (RATELIMIT_TOKEN_SIZE =? 0)%nat with false. rewrite Nat.eqb_refl. cbn [negb].
  rewrite (merge_perm true _ _ a b), Hm by done. rewrite Ht, <- Etok, bool_decide_true by done. by rewrite Etok.
Qed.
End Tokens.

(** ** Properties *)

(** A token issued for the numbers of [a] and [b] is accepted,
    under the same secret, with every request whose previous and discarded
    numbers together are those numbers, in any order and split. *)
Theorem ratelimit_issued_accepted sha256 g a b entropy tok req :
  (forall m, length (sha256 m) = 32%nat) -> length entropy = RATELIMIT_ENTROPY_SIZE ->
  ratelimit_compute_token sha256 true g a b ((RATELIMIT_VERSION :: entropy) ++ replicate 32 0) = Ok tok ->
  bytes (token req) = tok ->
  (length (bytes (prev_e164s req)) mod 8 = 0)%nat -> (length (bytes (discard_e164s req)) mod 8 = 0)%nat ->
  u64s_of (bytes (prev_e164s req)) ++ u64s_of (bytes (discard_e164s req)) ≡ₚ u64s_of a ++ u64s_of b ->
  ratelimit_validate_received_rate_limit_token sha256 true g req = err_SUCCESS.
Proof. intros. by eapply issued_accepted. Qed.

(** C11. An accepted token vouches for its numbers: when a request is
    accepted with a token that was issued for [a] and [b] under the current
    secret, its previous and discarded numbers together are the numbers of [a]
    and [b] -- unless SHA-256 collides on the two inner or the two outer
    messages of the HMAC. *)
Theorem ratelimit_token_binds sha256 g a b entropy tok req m m0 :
  (forall m, length (sha256 m) = 32%nat) -> length entropy = RATELIMIT_ENTROPY_SIZE ->
  Forall is_byte a -> Forall is_byte b -> Forall is_byte (bytes (prev_e164s req)) -> Forall is_byte (bytes (discard_e164s req)) ->
  ratelimit_compute_token sha256 true g a b ((RATELIMIT_VERSION :: entropy) ++ replicate 32 0) = Ok tok ->
  bytes (token req) = tok ->
  ratelimit_validate_received_rate_limit_token sha256 true g req = err_SUCCESS ->
  let prefix := RATELIMIT_VERSION :: entropy in
  ratelimit_merge_e164s true (bytes (prev_e164s req)) (bytes (discard_e164s req)) = Ok m ->
  ratelimit_merge_e164s true a b = Ok m0 ->
  no_collision sha256 (hmac_inner g prefix m) (hmac_inner g prefix m0) ->
  no_collision sha256 (hmac_outer sha256 g prefix m) (hmac_outer sha256 g prefix m0) ->
  u64s_of (bytes (prev_e164s req)) ++ u64s_of (bytes (discard_e164s req)) ≡ₚ u64s_of a ++ u64s_of b.
Proof.
  intros Hsha Hle Ba Bb Bp Bd Htok Hreq Hval prefix Em Em0 Hin Hout.
  destruct (issued_token sha256 Hsha true g a b prefix tok) as (_ & _ & _ & Hl & Ht & m1 & Hm1 & Etok); [unfold prefix; simpl; by rewrite Hle|done|].
  assert (m1 = m0) as -> by congruence.
  rewrite validate_spec in Hval by done. cbv zeta in Hval. rewrite Hreq, Hl, Em, Ht in Hval. change (RATELIMIT_TOKEN_SIZE =? 0)%nat with false in Hval.
  rewrite Nat.eqb_refl in Hval. cbn [negb] in Hval. destruct (nth 0 tok 0 =? RATELIMIT_VERSION); [|done]. cbn [negb] in Hval.
  case_bool_decide as E; [|done]. rewrite Etok in E. apply app_inv_head in E. symmetry in E. apply Hout, app_inv_head, Hin in E.
  do 2 apply app_inv_head in E. subst m. by eapply merge_numbers.
Qed.

(** ** A small example

    A polynomial checksum takes the place of SHA-256. *)

Definition toy_sha (m : list Z) : list Z := le_bytes 32 (fold_left (fun acc b => (acc * 257 + b + 1) mod 2 ^ 256) m 7).
Definition toy_entropy : list Z := replicate 32 5.
Definition toy_secret : ratelimit := (ratelimit_set_shared_secret ratelimit_init [1; 2; 3]).2.
Definition toy_token : list Z :=
  match ratelimit_compute_token toy_sha true toy_secret (bytes_of [30; 10]) (bytes_of [20]) ((RATELIMIT_VERSION :: toy_entropy) ++ replicate 32 0) with
  | Ok tok => tok
  | Err _ => []
  end.
Definition toy_request (prev discard : list Z) : client_request_t :=
  {| aci_uak_pairs := no_bytes; prev_e164s := {| buf_p := 4096; bytes := bytes_of prev |}; new_e164s := no_bytes;
     discard_e164s := {| buf_p := 8192; bytes := bytes_of discard |}; token := {| buf_p := 16384; bytes := toy_token |}; token_ack := false |}.

Lemma toy_sha_length m : length (toy_sha m) = 32%nat.
Proof. apply le_bytes_length. Qed.

Lemma ratelimit_issued_accepted_witness :
  ratelimit_validate_received_rate_limit_token toy_sha true toy_secret (toy_request [10] [20; 30]) = err_SUCCESS /\
  ratelimit_validate_received_rate_limit_token toy_sha true toy_secret (toy_request [10] [20; 31]) = err_ENCLAVE__RATELIMIT__INVALID_TOKEN.
Proof.
  split; [|vm_compute; reflexivity].
  apply (ratelimit_issued_accepted toy_sha toy_secret (bytes_of [30; 10]) (bytes_of [20]) toy_entropy toy_token);
    [exact toy_sha_length|reflexivity|vm_compute; reflexivity..|].
  change (_ ++ _ ≡ₚ _) with ([10] ++ [20; 30] ≡ₚ [30; 10] ++ [20]). cbn [app].
  apply (bool_decide_unpack _). vm_compute. exact I.
Defined.

Lemma ratelimit_token_binds_witness :
  u64s_of (bytes (prev_e164s (toy_request [10] [20; 30]))) ++ u64s_of (bytes (discard_e164s (toy_request [10] [20; 30]))) ≡ₚ
  u64s_of (bytes_of [30; 10]) ++ u64s_of (bytes_of [20]).
Proof.
  eapply (ratelimit_token_binds toy_sha toy_secret (bytes_of [30; 10]) (bytes_of [20]) toy_entropy toy_token (toy_request [10] [20; 30]));
    [exact toy_sha_length|reflexivity|apply bytes_of_bytes..| | | | | | |]; try (vm_compute; reflexivity); intros _; reflexivity.
Defined.
