(* ===== verification/AciPniUak.v ===== *)
(** * Releasing ACIs ([c/aci_pni_uak_helpers/aci_pni_uak_helpers.c])

    The client's ACI/UAK pairs go into a set; for each record found in the
    directory the answer has its phone number and PNI, and its ACI only if the
    client knows the matching UAK.  The records are selected without branches. *)

From stdpp Require Import gmap.
From S2P Require Import Prelude Errors HalfSipHash FixedSet FixedSetSpec FixedSetTheorems.
Local Open Scope Z_scope.

(** ** Data *)

Record aci_uak_pair := AciUakPair { pair_aci : Z * Z; pair_uak : Z * Z }.

Record signal_user_record := SignalUserRecord { rec_e164 : Z; rec_aci : Z * Z; rec_pni : Z * Z; rec_uak : Z * Z }.

Record e164_pni_aci_triple := Triple { tri_e164 : Z; tri_pni : Z * Z; tri_aci : Z * Z }.

(** The bytes and words of the structures. *)
Definition pair_key (p : aci_uak_pair) : list Z := bytes_of [(pair_aci p).1; (pair_aci p).2; (pair_uak p).1; (pair_uak p).2].
Definition pair_of (bs : list Z) : aci_uak_pair :=
  let ws := u64s_of bs in {| pair_aci := (nth 0 ws 0, nth 1 ws 0); pair_uak := (nth 2 ws 0, nth 3 ws 0) |}.
Definition record_of (ws : list Z) : signal_user_record :=
  {| rec_e164 := nth 0 ws 0; rec_aci := (nth 1 ws 0, nth 2 ws 0); rec_pni := (nth 3 ws 0, nth 4 ws 0); rec_uak := (nth 5 ws 0, nth 6 ws 0) |}.
Definition triple_words (t : e164_pni_aci_triple) : list Z :=
  [tri_e164 t; (tri_pni t).1; (tri_pni t).2; (tri_aci t).1; (tri_aci t).2].

(** ** Operations *)

(** The loop from pair [i]; [alloc] and [rnd] are the answers of [malloc] and
    [rand] at that pair. *)
Fixpoint load_aci_uak_pairs (alloc : nat -> bool) (rnd : nat -> Z) (i : nat) (index : fixedset) (pairs : list aci_uak_pair) :
    option (error_t * fixedset) :=
  match pairs with
  | [] => Some (err_SUCCESS, index)
  | p :: pairs =>
      match fixedset_upsert (alloc i) (rnd i) 1 index (pair_key p) with
      | Some (err, _, index) => if is_success err then load_aci_uak_pairs alloc rnd (S i) index pairs else Some (err, index)
      | None => None
      end
  end.

Definition ZERO_OR_U64MAX (v : Z) : Z := if v =? 0 then 0 else UINT64_MAX.
Definition not64 (v : Z) : Z := wrap64 (Z.lnot v).

(** The body of the loop for record [i]. *)
Definition create_triple (index : fixedset) (i : Z) (r : signal_user_record) : e164_pni_aci_triple :=
  let got_and := Z.land (ZERO_OR_U64MAX (not64 (rec_e164 r)))
                        (Z.lor (ZERO_OR_U64MAX (rec_aci r).1) (ZERO_OR_U64MAX (rec_aci r).2)) in
  let uak0 := Z.lor (Z.land (rec_uak r).1 got_and) (Z.land i (not64 got_and)) in
  let uak := (uak0, (rec_uak r).2) in
  let pair := {| pair_aci := rec_aci r; pair_uak := uak |} in
  let add_aci := fixedset_get index (pair_key pair) && negb (Z.lor uak.1 uak.2 =? 0) in
  let aci_and := if add_aci then UINT64_MAX else 0 in
  {| tri_e164 := Z.land got_and (rec_e164 r);
     tri_pni := (Z.land got_and (rec_pni r).1, Z.land got_and (rec_pni r).2);
     tri_aci := (Z.land (Z.land got_and aci_and) (rec_aci r).1, Z.land (Z.land got_and aci_and) (rec_aci r).2) |}.

(** [e164s] is not read. *)
Definition create_e164_pni_aci_triples (index : fixedset) (e164s : list Z) (ohtable_response : list signal_user_record) :
    list e164_pni_aci_triple :=
  imap (fun i r => create_triple index (Z.of_nat i) r) ohtable_response.

(** ** What the client may learn of a record *)

Definition found (r : signal_user_record) : bool := negb (rec_e164 r =? UINT64_MAX) && negb (((rec_aci r).1 =? 0) && ((rec_aci r).2 =? 0)).
Definition has_uak (r : signal_user_record) : bool := negb (((rec_uak r).1 =? 0) && ((rec_uak r).2 =? 0)).
Definition record_pair (r : signal_user_record) : aci_uak_pair := {| pair_aci := rec_aci r; pair_uak := rec_uak r |}.

#[export] Instance aci_uak_pair_eq_dec : EqDecision aci_uak_pair.
Proof. solve_decision. Defined.

Definition released (pairs : list aci_uak_pair) (r : signal_user_record) : e164_pni_aci_triple :=
  if found r then
    {| tri_e164 := rec_e164 r; tri_pni := rec_pni r;
       tri_aci := if has_uak r && bool_decide (record_pair r ∈ pairs) then rec_aci r else (0, 0) |}
  else {| tri_e164 := 0; tri_pni := (0, 0); tri_aci := (0, 0) |}.

(** ** Proofs *)

Definition is_u64_pair (p : Z * Z) : Prop := is_u64 p.1 /\ is_u64 p.2.
Definition pair_wf (p : aci_uak_pair) : Prop := is_u64_pair (pair_aci p) /\ is_u64_pair (pair_uak p).
Definition record_wf (r : signal_user_record) : Prop :=
  is_u64 (rec_e164 r) /\ is_u64_pair (rec_aci r) /\ is_u64_pair (rec_pni r) /\ is_u64_pair (rec_uak r).

(** The hash of the key leaves room for every probe. *)
Definition hash_ok (sipkey : list Z) (k : list Z) : Prop := key_wf (fixedset_new 32 sipkey) k.

#[local] Opaque halfsiphash_mem fixedset_upsert fixedset_get.

Lemma pair_key_inj p q : pair_wf p -> pair_wf q -> pair_key p = pair_key q -> p = q.
Proof.
  destruct p as [[] []], q as [[] []]. intros [[??] [??]] [[??] [??]] E. unfold pair_key in E. cbn [pair_aci pair_uak fst snd] in *.
  apply bytes_of_inj in E; [|by repeat (apply Forall_cons; split)..]. by simplify_eq.
Qed.

Lemma ones_and v : is_u64 v -> Z.land UINT64_MAX v = v.
Proof. intros Hv. rewrite Z.land_comm. change UINT64_MAX with (Z.ones 64). by rewrite Z.land_ones, Z.mod_small. Qed.

Lemma not64_zero v : is_u64 v -> (not64 v =? 0) = (v =? UINT64_MAX).
Proof.
  unfold is_u64, not64, wrap64, UINT64_MAX, Z.lnot. intros Hv. apply eq_true_iff_eq. rewrite !Z.eqb_eq.
  replace (Z.pred (- v)) with (2 ^ 64 - 1 - v + -1 * 2 ^ 64) by lia. rewrite Z_mod_plus_full, Z.mod_small; lia.
Qed.

Lemma got_mask r : is_u64 (rec_e164 r) ->
  Z.land (ZERO_OR_U64MAX (not64 (rec_e164 r))) (Z.lor (ZERO_OR_U64MAX (rec_aci r).1) (ZERO_OR_U64MAX (rec_aci r).2)) =
  if found r then UINT64_MAX else 0.
Proof.
  intros He. unfold ZERO_OR_U64MAX, found. rewrite not64_zero by done.
  by destruct (rec_e164 r =? UINT64_MAX), ((rec_aci r).1 =? 0), ((rec_aci r).2 =? 0).
Qed.

Lemma create_triple_spec index pairs i r : usable index -> fs_ksize index = 32%nat -> record_wf r -> Forall pair_wf pairs ->
  (found r = true -> key_wf index (pair_key (record_pair r))) -> (forall k, mem index k <-> exists p, p ∈ pairs /\ pair_key p = k) ->
  create_triple index i r = released pairs r.
Proof.
  intros [Hi _] Hk (He & Ha & Hp & Hu) Hpairs Hkey Hmem. unfold create_triple. cbv zeta. rewrite got_mask by done. unfold released.
  destruct (found r) eqn:F.
  2:{ by rewrite !Z.land_0_l. }
  change (not64 UINT64_MAX) with 0. destruct Ha, Hp, Hu.
  rewrite Z.land_0_r, Z.lor_0_r, (Z.land_comm (rec_uak r).1), (ones_and (rec_uak r).1), (ones_and (rec_e164 r)), (ones_and (rec_pni r).1), (ones_and (rec_pni r).2) by done. cbn [fst snd].
  replace ((rec_uak r).1, (rec_uak r).2) with (rec_uak r) by (by destruct (rec_uak r)). fold (record_pair r).
  replace ((rec_pni r).1, (rec_pni r).2) with (rec_pni r) by (by destruct (rec_pni r)).
  assert (Hget : fixedset_get index (pair_key (record_pair r)) = bool_decide (record_pair r ∈ pairs)).
  { apply eq_true_iff_eq. rewrite fixedset_get_spec, bool_decide_eq_true, Hmem by auto. split; [|by exists (record_pair r)].
    intros (p & Hin & E). rewrite Forall_forall in Hpairs. apply pair_key_inj in E; [by subst|by apply Hpairs|by split]. }
  rewrite Hget, (andb_comm (bool_decide _)). f_equal. unfold has_uak.
  replace (Z.lor (rec_uak r).1 (rec_uak r).2 =? 0) with (((rec_uak r).1 =? 0) && ((rec_uak r).2 =? 0)).
  2:{ apply eq_true_iff_eq. by rewrite andb_true_iff, !Z.eqb_eq, Z.lor_eq_0_iff. }
  destruct (_ && bool_decide _).
  - rewrite Z.land_diag, !ones_and by done. by rewrite <- surjective_pairing.
  - by rewrite Z.land_0_r, !Z.land_0_l.
Qed.

(** The set while the pairs are loaded; the bound keeps the capacity a 32-bit
    number. *)
Record loading (sipkey : list Z) (index : fixedset) (rest : nat) : Prop := {
  ld_usable : usable index;
  ld_ksize : fs_ksize index = 32%nat;
  ld_sip : fs_sipkey index = sipkey;
  ld_cap : fs_cap index <= 2 ^ 30;
  ld_size : fs_size index + Z.of_nat rest <= 2 ^ 29;
}.

Lemma loading_key_wf sipkey index rest k : loading sipkey index rest -> hash_ok sipkey k -> key_wf index k.
Proof. intros [_ Hk Hs _ _] H. unfold hash_ok, key_wf, fs_hash in *. by rewrite Hk, Hs. Qed.

Lemma loading_step sipkey alloc rnd index rest k : loading sipkey index (S rest) -> hash_ok sipkey k -> 0 <= rnd ->
  (exists replaced index', fixedset_upsert alloc rnd 1 index k = Some (err_SUCCESS, replaced, index') /\ loading sipkey index' rest /\
     forall x, mem index' x <-> mem index x \/ x = k) \/
  (exists replaced, fixedset_upsert alloc rnd 1 index k = Some (err_OOM, replaced, index) /\ alloc = false).
Proof.
  intros Hld Hk Hr. pose proof (loading_key_wf _ _ _ _ Hld Hk) as Hwf. destruct Hld as [[Hi Hlt] Hks Hsip Hc Hs].
  destruct (fixedset_upsert_spec alloc rnd 0 index k Hi Hwf Hlt ltac:(lia) Hr) as (err & replaced & index' & Hrun & [(-> & Hup & Hcap)|(-> & Ha & ->)]).
  - left. exists replaced, index'. split; [done|]. destruct Hup as (Hi' & Hk' & Hs' & Hlt' & _ & Hmem & Hsz). split; [|done].
    split; [by split|congruence|congruence|lia|]. destruct replaced; lia.
  - right. by exists replaced.
Qed.

Lemma load_spec sipkey alloc rnd pairs : forall i index, loading sipkey index (length pairs) ->
  Forall (fun p => hash_ok sipkey (pair_key p)) pairs -> (forall j, 0 <= rnd j) ->
  exists err index', load_aci_uak_pairs alloc rnd i index pairs = Some (err, index') /\
    ((err = err_SUCCESS /\ loading sipkey index' 0 /\ forall k, mem index' k <-> mem index k \/ exists p, p ∈ pairs /\ pair_key p = k) \/
     (err = err_OOM /\ exists j, alloc j = false)).
Proof.
  induction pairs as [|p pairs IH]; intros i index Hld Hh Hr; cbn [load_aci_uak_pairs].
  { exists err_SUCCESS, index. split; [done|]. left. split_and!; [done..|]. intros k. split; [by left|].
    by intros [?|(p & ?%not_elem_of_nil & _)]. }
  apply Forall_cons in Hh as [Hp Hh].
  destruct (loading_step sipkey (alloc i) (rnd i) index (length pairs) (pair_key p) Hld Hp (Hr i)) as [(rep & ix & -> & Hld' & Hmem)|(rep & -> & Ha)].
  - change (is_success err_SUCCESS) with true. cbv iota. destruct (IH (S i) ix Hld' Hh Hr) as (err & ix' & -> & Hor). exists err, ix'. split; [done|].
    destruct Hor as [(-> & Hld'' & Hmem')|Hoom]; [left|by right]. split_and!; [done..|]. intros k. rewrite Hmem', Hmem. split.
    + intros [[?| ->]|(q & Hq & <-)]; [by left|right; exists p; split; [left|done]|right; exists q; split; [by right|done]].
    + intros [?|(q & [->|Hq]%elem_of_cons & <-)]; [by left; left|by left; right|right; by exists q].
  - exists err_OOM, index. split; [done|]. right. split; [done|]. by exists i.
Qed.

Lemma loading_new sipkey n : Z.of_nat n <= 2 ^ 29 -> loading sipkey (fixedset_new 32 sipkey) n.
Proof. intros Hn. split; [split; [apply fixedset_new_inv|done]|done|done|done|]. simpl. lia. Qed.

(** The two steps of a request over a new set. *)
Lemma release_spec alloc rnd sipkey pairs e164s rs : Z.of_nat (length pairs) <= 2 ^ 29 -> (forall i, 0 <= rnd i) ->
  Forall pair_wf pairs -> Forall record_wf rs -> Forall (fun p => hash_ok sipkey (pair_key p)) pairs ->
  Forall (fun r => found r = true -> hash_ok sipkey (pair_key (record_pair r))) rs ->
  exists err index, load_aci_uak_pairs alloc rnd 0 (fixedset_new 32 sipkey) pairs = Some (err, index) /\
    ((err = err_SUCCESS /\ create_e164_pni_aci_triples index e164s rs = map (released pairs) rs) \/
     (err = err_OOM /\ exists i, alloc i = false)).
Proof.
  intros Hn Hr Hp Hrs Hhp Hhr.
  destruct (load_spec sipkey alloc rnd pairs 0 _ (loading_new sipkey _ Hn) Hhp Hr) as (err & index & Hrun & Hor).
  exists err, index. split; [done|]. destruct Hor as [(-> & Hld & Hmem)|Hoom]; [left|by right]. split; [done|].
  unfold create_e164_pni_aci_triples. change (map (released pairs) rs) with (released pairs <$> rs). rewrite <- (imap_const (released pairs) rs). apply imap_ext. intros i r Hir.
  rewrite Forall_lookup in Hrs, Hhr. pose proof Hld as [Hus Hks _ _ _]. apply create_triple_spec; [done|done|by eapply Hrs|done| |].
  - intros F. by eapply loading_key_wf, Hhr.
  - intros k. rewrite Hmem. split; [|by right]. intros [Hin|?]; [|done]. by apply fixedset_new_inv in Hin.
Qed.

(** ** Property *)

(** C9. Loading at most 2^29 pairs of the client ends and fails only when memory
    runs out. Otherwise each answer shows exactly what the client may learn:
    nothing of a number that is absent or removed, the number and the PNI of a
    registered one, and the ACI only if the record has a UAK and the client sent
    this ACI with this UAK. The hashes of the client's pairs and of the records'
    pairs are more than 2^34 below 2^64 ([hash_ok]), where hash + jump does not
    wrap. *)
Theorem aci_release_correct alloc rnd sipkey pairs e164s rs :
  Z.of_nat (length pairs) <= 2 ^ 29 -> (forall i, 0 <= rnd i) -> Forall pair_wf pairs -> Forall record_wf rs ->
  Forall (fun p => hash_ok sipkey (pair_key p)) pairs ->
  Forall (fun r => found r = true -> hash_ok sipkey (pair_key (record_pair r))) rs ->
  exists err index, load_aci_uak_pairs alloc rnd 0 (fixedset_new 32 sipkey) pairs = Some (err, index) /\
    ((err = err_SUCCESS /\ create_e164_pni_aci_triples index e164s rs = map (released pairs) rs) \/
     (err = err_OOM /\ exists i, alloc i = false)).
Proof. apply release_spec. Qed.

(** ** A small example *)

Definition toy_pairs : list aci_uak_pair := [AciUakPair (11, 12) (13, 14); AciUakPair (21, 22) (0, 0)].
(** Released; ACI withheld for a wrong UAK and for no UAK; removed; absent. *)
Definition toy_records : list signal_user_record :=
  [SignalUserRecord 1001 (11, 12) (15, 16) (13, 14); SignalUserRecord 1002 (11, 12) (17, 18) (13, 99);
   SignalUserRecord 1003 (21, 22) (25, 26) (0, 0); SignalUserRecord 1004 (0, 0) (0, 0) (0, 0);
   SignalUserRecord UINT64_MAX (UINT64_MAX, UINT64_MAX) (UINT64_MAX, UINT64_MAX) (UINT64_MAX, UINT64_MAX)].

Definition hash_okb (sipkey k : list Z) : bool :=
  (length k =? 32)%nat && (0 <=? fs_hash (fixedset_new 32 sipkey) k) && (fs_hash (fixedset_new 32 sipkey) k + 2 ^ 34 <? 2 ^ 64).

Lemma hash_okb_spec sipkey k : hash_okb sipkey k = true -> hash_ok sipkey k.
Proof. unfold hash_okb, hash_ok, key_wf. intros H. breflect. done. Qed.

Lemma aci_release_correct_witness :
  exists index, load_aci_uak_pairs (fun _ => true) (fun _ => 3) 0 (fixedset_new 32 small_sip) toy_pairs = Some (err_SUCCESS, index) /\
    map tri_aci (create_e164_pni_aci_triples index [] toy_records) = [(11, 12); (0, 0); (0, 0); (0, 0); (0, 0)] /\
    map tri_e164 (create_e164_pni_aci_triples index [] toy_records) = [1001; 1002; 1003; 0; 0].
Proof.
  destruct (aci_release_correct (fun _ => true) (fun _ => 3) small_sip toy_pairs [] toy_records) as (err & index & Hrun & Hor).
  - discriminate.
  - discriminate.
  - repeat (apply Forall_cons; split); ((by apply Forall_nil) || (unfold pair_wf, is_u64_pair, is_u64; simpl; lia)).
  - repeat (apply Forall_cons; split); ((by apply Forall_nil) || (unfold record_wf, is_u64_pair, is_u64, UINT64_MAX; simpl; lia)).
  - repeat (apply Forall_cons; split); ((by apply Forall_nil) || (apply hash_okb_spec; vm_compute; reflexivity)).
  - repeat (apply Forall_cons; split); ((by apply Forall_nil) || (intros _; apply hash_okb_spec; vm_compute; reflexivity)).
  - exists index. destruct Hor as [(-> & ->)|(_ & i & E)]; [|discriminate E]. split; [exact Hrun|]. vm_compute. split; reflexivity.
Defined.
