(* ===== verification/Noise.v ===== *)
(** * Messages over Noise packets ([c/noiseutil/noise.c])

    A message of any length is cut into packets, each encrypted by the Noise
    library.  The library is third-party code: its operations are the class
    [NoiseLibrary], and [NoisePair] says what two ends of a channel promise.
    Sizes are lengths of buffers in memory, so their sums do not overflow. *)

From S2P Require Import Prelude Errors.
Local Open Scope Z_scope.

(** ** The library *)

Class NoiseLibrary (cipher : Type) := {
  NOISE_MAX_PAYLOAD_LEN : nat;
  NOISE_ERROR_BASE : Z;
  noise_cipherstate_get_mac_length : cipher -> nat;
  (** State, data and size of the buffer to error, state and data. *)
  noise_cipherstate_encrypt : cipher -> list Z -> Z -> Z * cipher * list Z;
  (** State, data and size of the buffer to error, state, the buffer's bytes
      and the size of the data. *)
  noise_cipherstate_decrypt : cipher -> list Z -> Z -> Z * cipher * list Z * nat;
}.

Definition NOISE_ERROR_NONE : Z := 0.
Definition NOISE_KEY_SIZE : nat := 32.
Definition NOISE_MAC_SIZE : nat := 16.
Definition NOISE_HANDSHAKEWRITE_SIZE : nat := 1632.

(** ** Operations *)

(** [memcpy] of [data] to offset [off] of a buffer. *)
Definition write_at (buf : list Z) (off : nat) (data : list Z) : list Z := take off buf ++ data ++ drop (off + length data) buf.
Definition read_at (buf : list Z) (off n : nat) : list Z := take n (drop off buf).

Section Operations.
Context `{!NoiseLibrary cipher}.

Definition NOISE_MAX_PACKET_SIZE : nat := NOISE_MAX_PAYLOAD_LEN.
Definition NOISE_MAX_DATA_SIZE : nat := NOISE_MAX_PACKET_SIZE - NOISE_MAC_SIZE.

Definition noise_errort (space : error_t) (noise_error : Z) : error_t :=
  if noise_error =? NOISE_ERROR_NONE then err_SUCCESS else err_code (error_code space + noise_error - NOISE_ERROR_BASE).

(** The loop of [noise_encrypt_message]; [None] when the fuel ends.  The
    results are the error, the cipher state, the ciphertext buffer and the size
    of the ciphertext. *)
Fixpoint encrypt_loop (fuel : nat) (tx : cipher) (plaintext : list Z) (plaintext_offset : nat) (ciphertext : list Z) (ciphertext_offset : nat) :
    option (error_t * cipher * list Z * nat) :=
  match fuel with
  | O => None
  | S fuel =>
      if (plaintext_offset <? length plaintext)%nat then
        let to_encrypt := NOISE_MAX_DATA_SIZE in
        let to_encrypt := if (length plaintext <? plaintext_offset + to_encrypt)%nat then (length plaintext - plaintext_offset)%nat else to_encrypt in
        if (length ciphertext <? ciphertext_offset + to_encrypt + noise_cipherstate_get_mac_length tx)%nat
        then Some (err_ENCLAVE__GENERAL__BUFFER_TOO_SMALL, tx, ciphertext, length ciphertext)
        else
          let data := read_at plaintext plaintext_offset to_encrypt in
          let buf := write_at ciphertext ciphertext_offset data in
          let '(e, tx, data) := noise_cipherstate_encrypt tx data (Z.of_nat (length ciphertext) [-] Z.of_nat ciphertext_offset) in
          let buf := write_at buf ciphertext_offset data in
          let err := noise_errort err_NOISE__CIPHERSTATE__ENCRYPT__ e in
          if is_success err then encrypt_loop fuel tx plaintext (plaintext_offset + NOISE_MAX_DATA_SIZE) buf (ciphertext_offset + length data)
          else Some (err, tx, buf, length ciphertext)
      else Some (err_SUCCESS, tx, ciphertext, ciphertext_offset)
  end.
Definition noise_encrypt_message (tx : cipher) (plaintext ciphertext : list Z) : option (error_t * cipher * list Z * nat) :=
  encrypt_loop (S (length plaintext)) tx plaintext 0 ciphertext 0.

(** The loop of [noise_decrypt_message].  Both buffers lie in [mem], the
    ciphertext at [c] and the plaintext at [p], and may overlap.  The results are
    the error, the cipher state, the memory and the size of the plaintext. *)
Fixpoint decrypt_loop (fuel : nat) (rx : cipher) (mem : list Z) (c ciphertext_size p plaintext_size : nat)
    (ciphertext_offset plaintext_offset : nat) : option (error_t * cipher * list Z * nat) :=
  match fuel with
  | O => None
  | S fuel =>
      if (ciphertext_offset <? ciphertext_size)%nat then
        let to_decrypt := NOISE_MAX_PACKET_SIZE in
        let to_decrypt := if (ciphertext_size <? ciphertext_offset + to_decrypt)%nat then (ciphertext_size - ciphertext_offset)%nat else to_decrypt in
        let data := read_at mem (c + ciphertext_offset) to_decrypt in
        let mem := write_at mem (p + plaintext_offset) data in
        let '(e, rx, data, n) := noise_cipherstate_decrypt rx data (Z.of_nat plaintext_size [-] Z.of_nat plaintext_offset) in
        let mem := write_at mem (p + plaintext_offset) data in
        let err := noise_errort err_NOISE__CIPHERSTATE__DECRYPT__ e in
        if is_success err
        then decrypt_loop fuel rx mem c ciphertext_size p plaintext_size (ciphertext_offset + NOISE_MAX_PACKET_SIZE) (plaintext_offset + n)
        else Some (err, rx, mem, plaintext_size)
      else Some (err_SUCCESS, rx, mem, plaintext_offset)
  end.
Definition noise_decrypt_message (rx : cipher) (mem : list Z) (c ciphertext_size p plaintext_size : nat) :
    option (error_t * cipher * list Z * nat) :=
  decrypt_loop (S ciphertext_size) rx mem c ciphertext_size p plaintext_size 0 0.
Definition noise_decrypt_message_inplace (rx : cipher) (data : list Z) : option (error_t * cipher * list Z * nat) :=
  noise_decrypt_message rx data 0 (length data) 0 (length data).
End Operations.

(** ** The two ends of a channel

    [sync tx rx] relates a sending and a receiving state.  As documented by the
    library, encrypting a packet that fits adds the authentication code, and the
    other end recovers the data, leaving the bytes of the code behind it. *)
Class NoisePair {cipher} `{!NoiseLibrary cipher} (sync : cipher -> cipher -> Prop) : Prop := {
  np_payload : (NOISE_MAC_SIZE < NOISE_MAX_PAYLOAD_LEN)%nat;
  np_mac tx rx : sync tx rx -> noise_cipherstate_get_mac_length tx = NOISE_MAC_SIZE;
  np_packet tx rx data : sync tx rx -> (length data + NOISE_MAC_SIZE <= NOISE_MAX_PAYLOAD_LEN)%nat ->
    exists tx' rx' ct tail, sync tx' rx' /\ length ct = (length data + NOISE_MAC_SIZE)%nat /\ length tail = NOISE_MAC_SIZE /\
      (forall max, Z.of_nat (length ct) <= max -> noise_cipherstate_encrypt tx data max = (NOISE_ERROR_NONE, tx', ct)) /\
      (forall max, Z.of_nat (length ct) <= max -> noise_cipherstate_decrypt rx ct max = (NOISE_ERROR_NONE, rx', data ++ tail, length data));
}.

(** ** Proofs *)

Lemma read_at_length buf off n : (off + n <= length buf)%nat -> length (read_at buf off n) = n.
Proof. intros H. unfold read_at. rewrite length_take, length_drop. lia. Qed.

Lemma length_write_at buf off data : (off + length data <= length buf)%nat -> length (write_at buf off data) = length buf.
Proof. intros H. unfold write_at. rewrite !length_app, length_take, length_drop. lia. Qed.

Lemma take_write_at buf off data : (off <= length buf)%nat -> take off (write_at buf off data) = take off buf.
Proof. intros H. unfold write_at. by rewrite take_app_length' by (rewrite length_take; lia). Qed.

Lemma take_write_at_all buf off data : (off <= length buf)%nat -> take (off + length data) (write_at buf off data) = take off buf ++ data.
Proof.
  intros H. unfold write_at. rewrite app_assoc, take_app_length'; [done|]. rewrite length_app, length_take. lia.
Qed.

Lemma drop_write_at buf off data n : (off + length data <= n)%nat -> (off <= length buf)%nat -> drop n (write_at buf off data) = drop n buf.
Proof.
  intros Hn H. unfold write_at. rewrite app_assoc, drop_app_ge by (rewrite length_app, length_take; lia).
  rewrite drop_drop, length_app, length_take. f_equal. lia.
Qed.

(** A write over a write of the same place. *)
Lemma write_at_twice buf off data data' : (length data <= length data')%nat -> (off + length data <= length buf)%nat ->
  write_at (write_at buf off data) off data' = write_at buf off data'.
Proof.
  intros Hl Ho. unfold write_at at 1. rewrite take_write_at, drop_write_at by lia. done.
Qed.

Section Channel.
Context {cipher} `{!NoiseLibrary cipher} (sync : cipher -> cipher -> Prop) `{!NoisePair sync}.

Local Notation D := NOISE_MAX_DATA_SIZE.
Local Notation P := NOISE_MAX_PACKET_SIZE.

Lemma data_size_pos : (0 < D)%nat.
Proof. unfold NOISE_MAX_DATA_SIZE, NOISE_MAX_PACKET_SIZE. pose proof np_payload. lia. Qed.

Lemma packet_size : P = (D + NOISE_MAC_SIZE)%nat.
Proof. unfold NOISE_MAX_DATA_SIZE, NOISE_MAX_PACKET_SIZE. pose proof np_payload. lia. Qed.

(** The packets of a message: [sealed tx rx msg tx' rx' ct] when the sender
    turns [msg] into [ct] and the receiver turns it back. *)
Inductive sealed : cipher -> cipher -> list Z -> cipher -> cipher -> list Z -> Prop :=
  | sealed_nil tx rx : sync tx rx -> sealed tx rx [] tx rx []
  | sealed_cons tx rx data rest tx1 rx1 ct tail tx' rx' cts :
      (0 < length data <= D)%nat -> (rest = [] \/ length data = D) -> length ct = (length data + NOISE_MAC_SIZE)%nat -> length tail = NOISE_MAC_SIZE ->
      sync tx rx ->
      (forall max, Z.of_nat (length ct) <= max -> noise_cipherstate_encrypt tx data max = (NOISE_ERROR_NONE, tx1, ct)) ->
      (forall max, Z.of_nat (length ct) <= max -> noise_cipherstate_decrypt rx ct max = (NOISE_ERROR_NONE, rx1, data ++ tail, length data)) ->
      sealed tx1 rx1 rest tx' rx' cts -> sealed tx rx (data ++ rest) tx' rx' (ct ++ cts).

Lemma seal_exists n : forall tx rx msg, (length msg <= n)%nat -> sync tx rx -> exists tx' rx' ct, sealed tx rx msg tx' rx' ct.
Proof.
  pose proof data_size_pos as HD. induction n as [|n IH]; intros tx rx msg Hn Hs.
  { destruct msg; [|simpl in Hn; lia]. exists tx, rx, []. by constructor. }
  destruct (decide (msg = [])) as [->|Hne]; [exists tx, rx, []; by constructor|].
  assert (0 < length msg)%nat by (destruct msg; [done|simpl; lia]).
  set (data := take D msg). assert (Hd : length data = (D `min` length msg)%nat) by apply length_take.
  destruct (np_packet tx rx data Hs) as (tx1 & rx1 & ct & tail & Hs1 & Hct & Ht & He & Hdec).
  { rewrite <- (eq_refl : P = NOISE_MAX_PAYLOAD_LEN), packet_size. lia. }
  destruct (IH tx1 rx1 (drop D msg)) as (tx' & rx' & cts & Hsl); [rewrite length_drop; lia|done|].
  exists tx', rx', (ct ++ cts). rewrite <- (take_drop D msg). fold data.
  eapply sealed_cons; [lia| |done..]. destruct (Nat.le_gt_cases (length msg) D); [left; by apply drop_ge|right; lia].
Qed.

Lemma sealed_sync tx rx msg tx' rx' ct : sealed tx rx msg tx' rx' ct -> sync tx' rx'.
Proof. by induction 1. Qed.

(** The size of the packets of a message of [n] bytes. *)
Definition wire_size (n : nat) : nat := n + NOISE_MAC_SIZE * ((n + (D - 1)) / D).

Lemma sealed_size tx rx msg tx' rx' ct : sealed tx rx msg tx' rx' ct -> length ct = wire_size (length msg).
Proof.
  pose proof data_size_pos as HD. unfold wire_size. induction 1 as [|tx rx data rest tx1 rx1 ct tail tx' rx' cts Hd Hr Hct _ _ _ _ _ IH].
  { rewrite Nat.div_small by (simpl; lia). done. }
  rewrite !length_app, IH, Hct. destruct Hr as [->|Hr].
  - rewrite (Nat.div_small (length [] + _)) by (simpl; lia).
    replace (length data + length [] + (D - 1))%nat with (length data - 1 + 1 * D)%nat by (simpl; lia).
    rewrite Nat.div_add, Nat.div_small by lia. cbn [length]. lia.
  - replace (length data + length rest + (D - 1))%nat with (length rest + (D - 1) + 1 * D)%nat by lia. rewrite Nat.div_add by lia. lia.
Qed.

Lemma sealed_empty tx rx tx' rx' ct : sealed tx rx [] tx' rx' ct -> ct = [].
Proof.
  intros H%sealed_size. pose proof data_size_pos. apply length_zero_iff_nil. rewrite H. unfold wire_size. cbn [length].
  rewrite Nat.div_small; lia.
Qed.

Lemma success_none space : noise_errort space NOISE_ERROR_NONE = err_SUCCESS.
Proof. done. Qed.

Lemma encrypt_sealed tx rx msg tx' rx' ct : sealed tx rx msg tx' rx' ct ->
  forall fuel plaintext po buf co, drop po plaintext = msg -> (length msg < fuel)%nat -> (co + length ct <= length buf)%nat ->
    Z.of_nat (length buf) < 2 ^ 64 ->
    encrypt_loop fuel tx plaintext po buf co = Some (err_SUCCESS, tx', write_at buf co ct, (co + length ct)%nat).
Proof.
  pose proof data_size_pos as HD.
  induction 1 as [tx rx Hs|tx rx data rest tx1 rx1 ct tail tx' rx' cts Hd Hr Hct Ht Hs He Hdec _ IH]; intros [|fuel] plaintext po buf co Hp Hf Hb H64; try lia.
  - cbn [encrypt_loop]. apply (f_equal length) in Hp. rewrite length_drop in Hp. simpl in Hp. rewrite (proj2 (Nat.ltb_ge _ _)) by lia.
    unfold write_at. cbn [length]. by rewrite app_nil_l, Nat.add_0_r, take_drop.
  - cbn [encrypt_loop]. pose proof (f_equal length Hp) as Hlen. rewrite length_drop, length_app in Hlen. rewrite !length_app in *.
    rewrite (proj2 (Nat.ltb_lt _ _)) by lia. cbv zeta.
    set (k := if (length plaintext <? po + D)%nat then _ else _).
    assert (Hk : k = length data).
    { unfold k. destruct (Nat.ltb_spec (length plaintext) (po + D)); [|destruct Hr as [->|]; simpl in *; lia].
      destruct Hr as [->|Hr]; simpl in *; lia. }
    rewrite Hk, (np_mac tx rx Hs), (proj2 (Nat.ltb_ge _ _)) by lia.
    assert (Hread : read_at plaintext po (length data) = data) by (unfold read_at; by rewrite Hp, take_app_length). rewrite Hread.
    rewrite He by (rewrite sub64_small; lia). rewrite success_none. change (is_success err_SUCCESS) with true. cbv iota beta.
    rewrite write_at_twice by lia. rewrite IH.
    + f_equal. f_equal; [|lia]. f_equal. unfold write_at at 1. rewrite take_write_at_all by lia.
      rewrite drop_write_at by lia. unfold write_at. rewrite length_app, <- !app_assoc. do 4 f_equal. lia.
    + rewrite <- drop_drop, Hp. destruct Hr as [->|Hr]; [|rewrite <- Hr; apply drop_app_length].
      rewrite app_nil_r. by rewrite drop_ge by lia.
    + lia.
    + rewrite length_write_at; lia.
    + rewrite length_write_at; lia.
Qed.

(** A buffer with too little room is refused. *)
Lemma encrypt_no_room tx rx msg tx' rx' ct : sealed tx rx msg tx' rx' ct ->
  forall fuel plaintext po buf co, drop po plaintext = msg -> (length msg < fuel)%nat -> (co <= length buf < co + length ct)%nat ->
    Z.of_nat (length buf) < 2 ^ 64 ->
    exists tx'' buf', encrypt_loop fuel tx plaintext po buf co = Some (err_ENCLAVE__GENERAL__BUFFER_TOO_SMALL, tx'', buf', length buf).
Proof.
  pose proof data_size_pos as HD.
  induction 1 as [tx rx Hs|tx rx data rest tx1 rx1 ct tail tx' rx' cts Hd Hr Hct Ht Hs He Hdec _ IH]; intros [|fuel] plaintext po buf co Hp Hf Hb H64;
    try lia; [simpl in Hb; lia|].
  cbn [encrypt_loop]. pose proof (f_equal length Hp) as Hlen. rewrite length_drop, length_app in Hlen. rewrite !length_app in *.
  rewrite (proj2 (Nat.ltb_lt _ _)) by lia. cbv zeta.
  set (k := if (length plaintext <? po + D)%nat then _ else _).
  assert (Hk : k = length data).
  { unfold k. destruct (Nat.ltb_spec (length plaintext) (po + D)); [|destruct Hr as [->|]; simpl in *; lia].
    destruct Hr as [->|Hr]; simpl in *; lia. }
  rewrite Hk, (np_mac tx rx Hs). destruct (Nat.ltb_spec (length buf) (co + length data + NOISE_MAC_SIZE)); [by eexists _, _|].
  assert (Hread : read_at plaintext po (length data) = data) by (unfold read_at; by rewrite Hp, take_app_length). rewrite Hread.
  rewrite He by (rewrite sub64_small; lia). rewrite success_none. change (is_success err_SUCCESS) with true. cbv iota beta.
  rewrite write_at_twice by lia.
  destruct (IH fuel plaintext (po + D)%nat (write_at buf co ct) (co + length ct)%nat) as (tx'' & buf' & ->); rewrite ?length_write_at by lia; [|lia..|].
  - rewrite <- drop_drop, Hp. destruct Hr as [->|Hr]; [|rewrite <- Hr; apply drop_app_length].
    rewrite app_nil_r. by rewrite drop_ge by lia.
  - by eexists _, _.
Qed.

(** Decryption in place: the plaintext overwrites the packets already read. *)
Lemma decrypt_sealed tx rx msg tx' rx' ct : sealed tx rx msg tx' rx' ct ->
  forall fuel mem co po, drop co mem = ct -> (length ct < fuel)%nat -> (po <= co)%nat -> (po <= length mem)%nat -> Z.of_nat (length mem) < 2 ^ 64 ->
    exists mem', decrypt_loop fuel rx mem 0 (length mem) 0 (length mem) co po = Some (err_SUCCESS, rx', mem', (po + length msg)%nat) /\
      length mem' = length mem /\ take (po + length msg) mem' = take po mem ++ msg.
Proof.
  pose proof data_size_pos as HD. pose proof packet_size as HP.
  induction 1 as [tx rx Hs|tx rx data rest tx1 rx1 ct tail tx' rx' cts Hd Hr Hct Ht Hs He Hdec Hrest IH]; intros [|fuel] mem co po Hm Hf Hpo Hpm H64; try lia.
  - exists mem. cbn [decrypt_loop]. apply (f_equal length) in Hm. rewrite length_drop in Hm. simpl in Hm. rewrite (proj2 (Nat.ltb_ge _ _)) by lia.
    cbn [length]. by rewrite Nat.add_0_r, app_nil_r.
  - cbn [decrypt_loop]. pose proof (f_equal length Hm) as Hlen. rewrite length_drop, length_app in Hlen. rewrite !length_app in *.
    rewrite (proj2 (Nat.ltb_lt co _)) by lia. cbv zeta. cbn [Nat.add].
    set (k := if (length mem <? co + P)%nat then _ else _).
    assert (Hk : k = length ct).
    { unfold k. destruct (Nat.ltb_spec (length mem) (co + P)).
      - destruct Hr as [->|Hr]; [apply sealed_empty in Hrest as ->; simpl in *; lia|lia].
      - destruct Hr as [->|Hr]; [apply sealed_empty in Hrest as ->; simpl in *; lia|lia]. }
    rewrite Hk. assert (Hread : read_at mem co (length ct) = ct) by (unfold read_at; by rewrite Hm, take_app_length). rewrite Hread.
    rewrite Hdec by (rewrite sub64_small; lia). rewrite success_none. change (is_success err_SUCCESS) with true. cbv iota beta.
    assert (Hdt : length (data ++ tail) = length ct) by (rewrite length_app; lia).
    rewrite write_at_twice by lia. set (mem1 := write_at mem po (data ++ tail)).
    assert (Hl1 : length mem1 = length mem) by (apply length_write_at; lia). rewrite <- Hl1.
    destruct (IH fuel mem1 (co + P)%nat (po + length data)%nat) as (mem' & -> & Hl' & Htk); [|lia..|].
    + unfold mem1. rewrite drop_write_at by lia. rewrite <- drop_drop, Hm.
      destruct Hr as [->|Hr]; [apply sealed_empty in Hrest as ->; rewrite app_nil_r; apply drop_ge; lia|].
      replace P with (length ct) by lia. apply drop_app_length.
    + exists mem'. rewrite Nat.add_assoc. split; [done|]. split; [lia|]. rewrite Htk, app_assoc. f_equal.
      unfold mem1, write_at. rewrite <- (app_assoc data), app_assoc.
      rewrite take_app_length'; [done|]. rewrite length_app, length_take. lia.
Qed.

(** Whole messages. *)
Lemma channel_spec tx rx msg buf : sync tx rx -> Z.of_nat (length buf) < 2 ^ 64 ->
  ((wire_size (length msg) <= length buf)%nat ->
    exists tx' rx' buf' plain, noise_encrypt_message tx msg buf = Some (err_SUCCESS, tx', buf', wire_size (length msg)) /\
      length buf' = length buf /\ sync tx' rx' /\
      noise_decrypt_message_inplace rx (take (wire_size (length msg)) buf') = Some (err_SUCCESS, rx', plain, length msg) /\
      take (length msg) plain = msg) /\
  ((length buf < wire_size (length msg))%nat ->
    exists tx' buf', noise_encrypt_message tx msg buf = Some (err_ENCLAVE__GENERAL__BUFFER_TOO_SMALL, tx', buf', length buf)).
Proof.
  intros Hs H64. destruct (seal_exists (length msg) tx rx msg (le_n _) Hs) as (tx' & rx' & ct & Hsl).
  pose proof (sealed_size _ _ _ _ _ _ Hsl) as Hsz. unfold noise_encrypt_message. split; intros Hb.
  - pose proof (encrypt_sealed _ _ _ _ _ _ Hsl (S (length msg)) msg 0 buf 0 (drop_0 _) (le_n _) ltac:(lia) H64) as Henc.
    exists tx', rx', (write_at buf 0 ct). rewrite Henc, <- Hsz. cbn [Nat.add].
    assert (Htake : take (length ct) (write_at buf 0 ct) = ct) by (unfold write_at; rewrite firstn_O, app_nil_l; apply take_app_length).
    rewrite Htake. unfold noise_decrypt_message_inplace, noise_decrypt_message.
    destruct (decrypt_sealed _ _ _ _ _ _ Hsl (S (length ct)) ct 0 0 (drop_0 _) (le_n _) ltac:(lia) ltac:(lia) ltac:(lia)) as (plain & Hdec & _ & Htk).
    exists plain. split; [done|]. split; [apply length_write_at; lia|]. split; [by eapply sealed_sync|]. by split.
  - destruct (encrypt_no_room _ _ _ _ _ _ Hsl (S (length msg)) msg 0 buf 0 (drop_0 _) (le_n _) ltac:(lia) H64) as (tx'' & buf' & ->).
    by exists tx'', buf'.
Qed.
End Channel.

(** ** Property *)

(** C10. A message of any length survives the channel: encrypted into a
    buffer with room for its packets and decrypted in place at the other end it
    is the same message, and the two ends stay in step; a smaller buffer is
    refused with the error for it. *)
Theorem noise_message_roundtrip {cipher} `{!NoiseLibrary cipher} (sync : cipher -> cipher -> Prop) `{!NoisePair sync} tx rx msg buf :
  sync tx rx -> Z.of_nat (length buf) < 2 ^ 64 ->
  ((wire_size (length msg) <= length buf)%nat ->
    exists tx' rx' buf' plain, noise_encrypt_message tx msg buf = Some (err_SUCCESS, tx', buf', wire_size (length msg)) /\
      length buf' = length buf /\ sync tx' rx' /\
      noise_decrypt_message_inplace rx (take (wire_size (length msg)) buf') = Some (err_SUCCESS, rx', plain, length msg) /\
      take (length msg) plain = msg) /\
  ((length buf < wire_size (length msg))%nat ->
    exists tx' buf', noise_encrypt_message tx msg buf = Some (err_ENCLAVE__GENERAL__BUFFER_TOO_SMALL, tx', buf', length buf)).
Proof. intros Hs H64. by apply (channel_spec sync tx rx). Qed.

(** ** A small channel

    Packets of 20 bytes; the state counts the packets, which mask the data and
    make the authentication code. *)

Definition toy_encrypt (n : nat) (data : list Z) (max : Z) : Z * nat * list Z :=
  if Z.of_nat (length data) + 16 <=? max then (0, S n, map (fun b => b + Z.of_nat n) data ++ replicate 16 (Z.of_nat n)) else (17666, n, data).
Definition toy_decrypt (n : nat) (ct : list Z) (max : Z) : Z * nat * list Z * nat :=
  let data := take (length ct - 16) ct in
  if (Z.of_nat (length ct) <=? max) && bool_decide (drop (length ct - 16) ct = replicate 16 (Z.of_nat n))
  then (0, S n, map (fun b => b - Z.of_nat n) data ++ replicate 16 (Z.of_nat n), length data)
  else (17670, n, ct, length ct).
#[export] Instance toy_library : NoiseLibrary nat := {|
  NOISE_MAX_PAYLOAD_LEN := 20; NOISE_ERROR_BASE := 17664; noise_cipherstate_get_mac_length _ := 16%nat;
  noise_cipherstate_encrypt := toy_encrypt; noise_cipherstate_decrypt := toy_decrypt |}.

#[export] Instance toy_pair : NoisePair (cipher := nat) eq.
Proof.
  split; [simpl; unfold NOISE_MAC_SIZE; lia|done|]. intros n rx data <- Hl.
  exists (S n), (S n), (map (fun b => b + Z.of_nat n) data ++ replicate 16 (Z.of_nat n)), (replicate 16 (Z.of_nat n)).
  assert (Hlen : length (map (fun b => b + Z.of_nat n) data ++ replicate 16 (Z.of_nat n)) = (length data + 16)%nat)
    by (rewrite length_app, length_map, length_replicate; done).
  split_and!; [done|done|apply length_replicate| |]; intros max Hmax; rewrite Hlen in Hmax; cbn [noise_cipherstate_encrypt noise_cipherstate_decrypt toy_library].
  - unfold toy_encrypt. by rewrite (proj2 (Z.leb_le _ _)) by lia.
  - unfold toy_decrypt. rewrite Hlen, (proj2 (Z.leb_le _ _)) by lia. rewrite Nat.add_sub.
    rewrite take_app_length', drop_app_length' by (by rewrite length_map). rewrite bool_decide_true by done. cbn [andb].
    rewrite length_map, map_map. do 2 f_equal. f_equal. rewrite <- (map_id data) at 2. apply map_ext. intros b. lia.
Qed.

Lemma noise_message_roundtrip_witness :
  exists rx' plain, noise_decrypt_message_inplace (cipher := nat) 3%nat
      (match noise_encrypt_message 3%nat [10; 20; 30; 40; 50; 60] (replicate 40 0) with Some (_, _, buf, n) => take n buf | None => [] end)
    = Some (err_SUCCESS, rx', plain, 6%nat) /\ take 6 plain = [10; 20; 30; 40; 50; 60].
Proof.
  destruct (noise_message_roundtrip (cipher := nat) eq 3%nat 3%nat [10; 20; 30; 40; 50; 60] (replicate 40 0) eq_refl eq_refl) as [H _].
  destruct H as (tx' & rx' & buf' & plain & -> & _ & _ & Hdec & Hp); [vm_compute; lia|].
  exists rx', plain. split; [exact Hdec|exact Hp].
Defined.
