(* ===== verification/StateError.v ===== *)
(** * Operations on a state that may fail

    The entry points of the enclave change global state, return an error code
    early and clean up behind labels.  [M S A] is such a computation on a state
    of type [S]: it returns a value or an error, and the state reached in either
    case.  [None] is an execution that does not return: a failed [CHECK], or
    memory corruption that the theorems rule out. *)

From S2P Require Import Prelude Errors.

Definition M (S A : Type) : Type := S -> option (result A * S).

Section Monad.
Context {S : Type}.

Definition ret {A} (a : A) : M S A := fun s => Some (Ok a, s).
Definition fail {A} (e : error_t) : M S A := fun s => Some (Err e, s).
Definition abort {A} : M S A := fun _ => None.
Definition bind {A B} (m : M S A) (k : A -> M S B) : M S B := fun s =>
  match m s with
  | Some (Ok a, s) => k a s
  | Some (Err e, s) => Some (Err e, s)
  | None => None
  end.
Definition gets {A} (f : S -> A) : M S A := fun s => Some (Ok (f s), s).
Definition modify (f : S -> S) : M S unit := fun s => Some (Ok tt, f s).

(** [RETURN_IF_ERROR] and [GOTO_IF_ERROR] of an error code, [ASSERT_ERR], and
    [CHECK]. *)
Definition check (e : error_t) : M S unit := if is_success e then ret tt else fail e.
Definition ensure (b : bool) (e : error_t) : M S unit := if b then ret tt else fail e.
Definition CHECK (b : bool) : M S unit := if b then ret tt else abort.
Definition lift {A} (r : result A) : M S A := match r with Ok a => ret a | Err e => fail e end.
Definition the {A} (o : option A) (e : error_t) : M S A := match o with Some a => ret a | None => fail e end.
Definition must {A} (o : option A) : M S A := match o with Some a => ret a | None => abort end.

(** The code behind the label that every path reaches. *)
Definition finally {A B} (m : M S A) (f : M S B) : M S A := fun s =>
  match m s with
  | Some (r, s) => match f s with Some (_, s) => Some (r, s) | None => None end
  | None => None
  end.
(** The code behind the label that the failing paths reach. *)
Definition on_error {A B} (m : M S A) (f : M S B) : M S A := fun s =>
  match m s with
  | Some (Ok a, s) => Some (Ok a, s)
  | Some (Err e, s) => match f s with Some (_, s) => Some (Err e, s) | None => None end
  | None => None
  end.
End Monad.

Declare Scope state_scope.
Delimit Scope state_scope with state.
Notation "'let!' x := m 'in' k" := (bind m (fun x => k)) (at level 10, x pattern, m at level 100, k at level 200) : state_scope.
#[global] Open Scope state_scope.

(** ** Properties kept by every step

    [keeps P m]: [m] preserves [P], whether it succeeds or fails. *)

Definition keeps {S A} (P : S -> Prop) (m : M S A) : Prop := forall s r s', P s -> m s = Some (r, s') -> P s'.

Create HintDb keeps discriminated.

Section Keeps.
Context {S : Type} (P : S -> Prop).

Lemma keeps_ret {A} (a : A) : keeps P (ret a).
Proof. by intros s r s' H [= <- <-]. Qed.
Lemma keeps_fail {A} e : keeps P (fail (A := A) e).
Proof. by intros s r s' H [= <- <-]. Qed.
Lemma keeps_abort {A} : keeps P (abort (A := A)).
Proof. done. Qed.
Lemma keeps_gets {A} (f : S -> A) : keeps P (gets f).
Proof. by intros s r s' H [= <- <-]. Qed.
Lemma keeps_modify f : (forall s, P s -> P (f s)) -> keeps P (modify f).
Proof. intros Hf s r s' H [= <- <-]. by apply Hf. Qed.
Lemma keeps_bind {A B} (m : M S A) (k : A -> M S B) : keeps P m -> (forall a, keeps P (k a)) -> keeps P (bind m k).
Proof.
  intros Hm Hk s r s' H. unfold bind. destruct (m s) as [[[a|e] s1]|] eqn:E; [|intros [= <- <-]; by eapply Hm|done].
  apply Hk. by eapply Hm.
Qed.
Lemma keeps_bind_ensure {B} b e (k : unit -> M S B) : (b = true -> keeps P (k tt)) -> keeps P (bind (ensure b e) k).
Proof. destruct b; [intros H; by apply H|intros _]. apply keeps_fail. Qed.
Lemma keeps_bind_gets {A B} (f : S -> A) (k : A -> M S B) : (forall s, P s -> forall r s', k (f s) s = Some (r, s') -> P s') -> keeps P (bind (gets f) k).
Proof. intros Hk s r s' H. apply (Hk s H). Qed.
Lemma keeps_check e : keeps P (check e).
Proof. unfold check. destruct (is_success e); [apply keeps_ret|apply keeps_fail]. Qed.
Lemma keeps_ensure b e : keeps P (ensure b e).
Proof. destruct b; [apply keeps_ret|apply keeps_fail]. Qed.
Lemma keeps_CHECK b : keeps P (CHECK b).
Proof. destruct b; [apply keeps_ret|apply keeps_abort]. Qed.
Lemma keeps_lift {A} (r : result A) : keeps P (lift r).
Proof. destruct r; [apply keeps_ret|apply keeps_fail]. Qed.
Lemma keeps_the {A} (o : option A) e : keeps P (the o e).
Proof. destruct o; [apply keeps_ret|apply keeps_fail]. Qed.
Lemma keeps_must {A} (o : option A) : keeps P (must o).
Proof. destruct o; [apply keeps_ret|apply keeps_abort]. Qed.
Lemma keeps_finally {A B} (m : M S A) (f : M S B) : keeps P m -> keeps P f -> keeps P (finally m f).
Proof.
  intros Hm Hf s r s' H. unfold finally. destruct (m s) as [[r1 s1]|] eqn:E; [|done].
  destruct (f s1) as [[r2 s2]|] eqn:E'; [|done]. intros [= <- <-]. eapply Hf; [|done]. by eapply Hm.
Qed.
Lemma keeps_on_error {A B} (m : M S A) (f : M S B) : keeps P m -> keeps P f -> keeps P (on_error m f).
Proof.
  intros Hm Hf s r s' H. unfold on_error. destruct (m s) as [[[a|e] s1]|] eqn:E; [intros [= <- <-]; by eapply Hm| |done].
  destruct (f s1) as [[r2 s2]|] eqn:E'; [|done]. intros [= <- <-]. eapply Hf; [|done]. by eapply Hm.
Qed.
End Keeps.

#[export] Hint Resolve keeps_ret keeps_fail keeps_abort keeps_gets keeps_bind keeps_check keeps_ensure keeps_CHECK keeps_lift
  keeps_the keeps_must keeps_finally keeps_on_error : keeps.

(** ** Runs that succeed *)

Lemma bind_ok {S A B} (m : M S A) (k : A -> M S B) s b s' :
  bind m k s = Some (Ok b, s') -> exists a s1, m s = Some (Ok a, s1) /\ k a s1 = Some (Ok b, s').
Proof. unfold bind. destruct (m s) as [[[a|e] s1]|]; [|done..]. intros H. by exists a, s1. Qed.

Lemma bind_step {S A B} (m : M S A) (k : A -> M S B) s a s1 : m s = Some (Ok a, s1) -> bind m k s = k a s1.
Proof. unfold bind. by intros ->. Qed.

Lemma bind_gets {S A B} (f : S -> A) (k : A -> M S B) s : bind (gets f) k s = k (f s) s.
Proof. done. Qed.

Lemma ensure_ok {S} b e (s : S) u s' : ensure b e s = Some (Ok u, s') -> b = true /\ s' = s.
Proof. destruct b; [|done]. by intros [= _ <-]. Qed.

Lemma check_ok {S} e (s : S) u s' : check e s = Some (Ok u, s') -> is_success e = true /\ s' = s.
Proof. unfold check. destruct (is_success e); [|done]. by intros [= _ <-]. Qed.
