(* ===== verification/Enclave.v ===== *)
(** * The enclave's entry points ([c/enclave/enc.c])

    Every call of the host is a computation on the enclave's global state: the
    table, the keys, the rate limiter's secret and the clients.  A client is a
    heap object that the host names by its address; its first word, [acq], holds
    the secret of the enclave and whether a call is using it.

    Arguments stand for the code outside of the repository (class
    [EnclaveLibrary]) and for what the environment decides at each call: whether
    [calloc] returns memory ([alloc], numbered along the function), the address of
    a new object, the bytes of [oe_random].  The reader-writer lock of the
    handshake data and the release of memory are not part of the state. *)

From stdpp Require Import gmap.
From Stdlib Require Import SpecFloat.
From S2P Require Import Prelude Errors Util Statistics PositionMap OramInterface OHTable Shard ShardedOHTable HalfSipHash FixedSet Messages RateLimit AciPniUak Noise StateError.
Local Open Scope Z_scope.

(** ** Outside code *)

Inductive noise_action :=
  | NOISE_ACTION_NONE | NOISE_ACTION_WRITE_MESSAGE | NOISE_ACTION_READ_MESSAGE | NOISE_ACTION_FAILED
  | NOISE_ACTION_SPLIT | NOISE_ACTION_COMPLETE.

#[export] Instance noise_action_eq_dec : EqDecision noise_action.
Proof. solve_decision. Defined.

Class EnclaveLibrary (handshake cipher : Type) := {
  (** Noise handshakes as responder: the error code and the state after it.  A
      new state comes with the entropy it will draw. *)
  noise_handshakestate_new_by_id : list Z -> Z * handshake;
  noise_dhstate_set_keypair_private : handshake -> list Z -> Z * handshake;
  noise_handshakestate_start : handshake -> Z * handshake;
  noise_handshakestate_get_action : handshake -> noise_action;
  noise_handshakestate_read_message : handshake -> list Z -> Z * handshake;
  noise_handshakestate_write_message : handshake -> nat -> Z * handshake * list Z;
  noise_handshakestate_split : handshake -> Z * handshake * (option cipher * option cipher);
  (** The Diffie-Hellman state of [noise_pubkey_from_privkey]. *)
  noise_dhstate_new_by_id : Z;
  dhstate_set_keypair_private : list Z -> Z;
  noise_dhstate_get_public_key : list Z -> Z * list Z;
  (** SHA-256. *)
  sha256 : list Z -> list Z;
  (** Generated message code: [new] in a workspace of some size; decoding into
      the workspace at an address; encoding into a buffer of some size. *)
  client_request_base : Z;
  client_request_new : Z -> bool;
  client_request_decode : Z -> list Z -> option client_request_t;
  client_response_base : Z;
  client_response_new : Z -> bool;
  client_response_encode : client_response_t -> nat -> option (list Z);
  enclave_load_base : Z;
  enclave_load_new : Z -> bool;
  enclave_load_decode : list Z -> option enclave_load_t;
  client_handshake_start_new : Z -> bool;
  client_handshake_start_encode : client_handshake_start_t -> nat -> option (list Z);
  table_statistics_base : Z;
  table_statistics_new : Z -> bool;
  shard_statistics_alloc : Z -> bool;
  values_alloc : Z -> bool;
  table_statistics_encode : table_statistics_t -> nat -> option (list Z);
  (** Open Enclave. *)
  oe_is_within_enclave : Z -> bool;
  oe_serialize_custom_claims : list Z -> option (list Z);
  oe_get_evidence : list Z -> option (list Z * list Z);
  (** The address of [g_client_secret]; build flags. *)
  client_secret_addr : Z;
  IS_TEST : bool;
  INSECURE : bool;
}.

(** ** State *)

Definition ENCLAVE_INIT_UNINITIALIZED : Z := 0.
Definition ENCLAVE_INIT_INITIALIZING : Z := 1.
Definition ENCLAVE_INIT_INITIALIZED : Z := 2.
Definition CLIENT_UNUSED : Z := 0.
Definition CLIENT_INUSE : Z := 1.
Definition CLIENT_STATE_MASK : Z := 1.
Definition CLIENT_ACQ_DEAD : Z := 0.

(** [workspace] is an address, 0 for the null pointer. *)
Record client_t {handshake cipher : Type} := Client {
  acq : Z;
  workspace : Z;
  req : option client_request_t;
  c_handshake : option handshake;
  send : option cipher;
  recv : option cipher;
}.
Arguments client_t : clear implicits.

(** The globals of [enc.c], the rate limiter's, and the client objects by
    address.  [g_handshakestart] is the part of the array that is in use. *)
Record enclave {RAM handshake cipher : Type} := Enclave {
  g_table : option (sharded_ohtable RAM);
  g_num_shards : nat;
  g_handshakestart : list Z;
  g_privkey : list Z;
  g_client_secret : Z;
  g_init_done : Z;
  g_ratelimit : ratelimit;
  g_clients : gmap Z (client_t handshake cipher);
}.
Arguments enclave : clear implicits.
Definition HANDSHAKESTART_SIZE : nat := Z.to_nat (Z.shiftl 32 10).

(** The image of the program before the first call. *)
Definition enclave_start {RAM handshake cipher} : enclave RAM handshake cipher :=
  {| g_table := None; g_num_shards := 0; g_handshakestart := []; g_privkey := replicate NOISE_KEY_SIZE 0; g_client_secret := 0;
     g_init_done := ENCLAVE_INIT_UNINITIALIZED; g_ratelimit := ratelimit_init; g_clients := ∅ |}.

Section State.
Context {RAM handshake cipher : Type}.
Implicit Types (s : enclave RAM handshake cipher) (c : client_t handshake cipher).

Definition set_table t s : enclave RAM handshake cipher := {| g_table := t; g_num_shards := g_num_shards s; g_handshakestart := g_handshakestart s; g_privkey := g_privkey s;
  g_client_secret := g_client_secret s; g_init_done := g_init_done s; g_ratelimit := g_ratelimit s; g_clients := g_clients s |}.
Definition set_num_shards n s : enclave RAM handshake cipher := {| g_table := g_table s; g_num_shards := n; g_handshakestart := g_handshakestart s; g_privkey := g_privkey s;
  g_client_secret := g_client_secret s; g_init_done := g_init_done s; g_ratelimit := g_ratelimit s; g_clients := g_clients s |}.
Definition set_keys start key s : enclave RAM handshake cipher := {| g_table := g_table s; g_num_shards := g_num_shards s; g_handshakestart := start; g_privkey := key;
  g_client_secret := g_client_secret s; g_init_done := g_init_done s; g_ratelimit := g_ratelimit s; g_clients := g_clients s |}.
Definition set_secret x s : enclave RAM handshake cipher := {| g_table := g_table s; g_num_shards := g_num_shards s; g_handshakestart := g_handshakestart s; g_privkey := g_privkey s;
  g_client_secret := x; g_init_done := g_init_done s; g_ratelimit := g_ratelimit s; g_clients := g_clients s |}.
Definition set_init x s : enclave RAM handshake cipher := {| g_table := g_table s; g_num_shards := g_num_shards s; g_handshakestart := g_handshakestart s; g_privkey := g_privkey s;
  g_client_secret := g_client_secret s; g_init_done := x; g_ratelimit := g_ratelimit s; g_clients := g_clients s |}.
Definition set_ratelimit g s : enclave RAM handshake cipher := {| g_table := g_table s; g_num_shards := g_num_shards s; g_handshakestart := g_handshakestart s; g_privkey := g_privkey s;
  g_client_secret := g_client_secret s; g_init_done := g_init_done s; g_ratelimit := g; g_clients := g_clients s |}.
Definition set_clients cs s : enclave RAM handshake cipher := {| g_table := g_table s; g_num_shards := g_num_shards s; g_handshakestart := g_handshakestart s; g_privkey := g_privkey s;
  g_client_secret := g_client_secret s; g_init_done := g_init_done s; g_ratelimit := g_ratelimit s; g_clients := cs |}.

Definition with_acq w c : client_t handshake cipher := {| acq := w; workspace := workspace c; req := req c; c_handshake := c_handshake c; send := send c; recv := recv c |}.
Definition with_workspace w c : client_t handshake cipher := {| acq := acq c; workspace := w; req := req c; c_handshake := c_handshake c; send := send c; recv := recv c |}.
Definition with_req r c : client_t handshake cipher := {| acq := acq c; workspace := workspace c; req := r; c_handshake := c_handshake c; send := send c; recv := recv c |}.
Definition with_handshake h c : client_t handshake cipher := {| acq := acq c; workspace := workspace c; req := req c; c_handshake := h; send := send c; recv := recv c |}.
Definition with_send x c : client_t handshake cipher := {| acq := acq c; workspace := workspace c; req := req c; c_handshake := c_handshake c; send := x; recv := recv c |}.
Definition with_recv x c : client_t handshake cipher := {| acq := acq c; workspace := workspace c; req := req c; c_handshake := c_handshake c; send := send c; recv := x |}.

(** The client object in zeroed memory. *)
Definition zero_client : client_t handshake cipher :=
  {| acq := 0; workspace := 0; req := None; c_handshake := None; send := None; recv := None |}.
End State.

(** ** Operations *)

Section Operations.
Context {RAM : Type} `{ObliviousRam RAM} {handshake cipher : Type} `{!NoiseLibrary cipher} `{!EnclaveLibrary handshake cipher}.
(** The words of the enclave's memory outside of client objects. *)
Context (stray : Z -> Z).
Local Notation Enc := (M (enclave RAM handshake cipher)).

(** *** Clients *)

Definition client_acq (s : enclave RAM handshake cipher) (state : Z) : Z := Z.lor (g_client_secret s) state.

Definition check_init_complete : Enc unit :=
  let! done := gets g_init_done in ensure (done =? ENCLAVE_INIT_INITIALIZED) err_ENCLAVE__GENERAL__NOINIT.

(** The compare-exchange of the word at address [id]; one that succeeds outside
    of a client object destroys other data. *)
Definition client_setacq (id : Z) (from_state : Z) (to_acq : Z) (on_fail : error_t) : Enc unit := fun s =>
  let expected := client_acq s from_state in
  match g_clients s !! id with
  | Some c => if acq c =? expected then Some (Ok tt, set_clients (<[id := with_acq to_acq c]> (g_clients s)) s) else Some (Err on_fail, s)
  | None => if stray id =? expected then None else Some (Err on_fail, s)
  end.

Definition client_setstate (id : Z) (from_state to_state : Z) : Enc unit :=
  let! w := gets (fun s => client_acq s to_state) in client_setacq id from_state w err_ENCLAVE__GENERAL__CLIENT_LOCK_FAILED.

Definition ASSERT_PLAUSIBLE_CLIENT (id : Z) (err : error_t) : Enc unit :=
  let! _ := ensure (oe_is_within_enclave id) err in ensure (negb (id =? client_secret_addr)) err.

Definition client_of (id : Z) : Enc (client_t handshake cipher) := fun s => must (g_clients s !! id) s.
Definition client_update (id : Z) (f : client_t handshake cipher -> client_t handshake cipher) : Enc unit :=
  modify (fun s => set_clients (alter f id (g_clients s)) s).

Definition client_add (id : Z) : Enc Z :=
  let! _ := ensure (oe_is_within_enclave id) err_ENCLAVE__GENERAL__CLIENT_ADD_FAILED in
  let! w := gets (fun s => client_acq s CLIENT_INUSE) in
  let! _ := client_update id (with_acq w) in
  ret id.

Definition client_get (id : Z) : Enc unit :=
  let! _ := ASSERT_PLAUSIBLE_CLIENT id err_ENCLAVE__GENERAL__CLIENT_GET_FAILED in
  let! w := gets (fun s => client_acq s CLIENT_INUSE) in
  client_setacq id CLIENT_UNUSED w err_ENCLAVE__GENERAL__CLIENT_GET_FAILED.

Definition client_remove (id : Z) : Enc unit :=
  let! _ := ASSERT_PLAUSIBLE_CLIENT id err_ENCLAVE__GENERAL__CLIENT_REMOVE_FAILED in
  client_setacq id CLIENT_UNUSED CLIENT_ACQ_DEAD err_ENCLAVE__GENERAL__CLIENT_REMOVE_FAILED.

(** [client_free]: the object leaves the heap. *)
Definition client_free (id : Z) : Enc unit :=
  let! _ := CHECK (oe_is_within_enclave id) in
  let! _ := client_update id (with_acq CLIENT_ACQ_DEAD) in
  modify (fun s => set_clients (delete id (g_clients s)) s).

(** Around the body of a handler: take the client, release it on every path. *)
Definition with_client {A} (id : Z) (body : Enc A) : Enc A :=
  let! _ := client_get id in finally body (client_setstate id CLIENT_INUSE CLIENT_UNUSED).

(** *** Keys *)

Definition validate_privkey (key : list Z) : error_t :=
  if negb (length key =? NOISE_KEY_SIZE)%nat then err_ENCLAVE__GENERAL__INVALID_PRIVATE_KEY
  else if fold_left Z.lor key 0 =? 0 then err_ENCLAVE__GENERAL__INVALID_PRIVATE_KEY
  else err_SUCCESS.

(** [random] is what [oe_random] writes over [key], if it succeeds. *)
Definition generate_privkey (random : option (list Z)) (key : list Z) : error_t * list Z :=
  match random with
  | None => (err_ENCLAVE__GENERAL__ENTROPY, key)
  | Some key =>
      let key := <[0%nat := Z.land (nth 0 key 0) 0xF8]> key in
      let key := <[31%nat := Z.lor (Z.land (nth 31 key 0) 0x7F) 0x40]> key in
      (validate_privkey key, key)
  end.

Definition noise_pubkey_from_privkey (privkey : list Z) : result (list Z) :=
  let ok (e : error_t) := if is_success e then Ok tt else Err e in
  let? _ := ok (noise_errort err_NOISE__DHSTATE__NEW__ noise_dhstate_new_by_id) in
  let? _ := ok (noise_errort err_NOISE__DHSTATE__SET_KEYPAIR_PRIVATE__ (dhstate_set_keypair_private privkey)) in
  let '(e, pubkey) := noise_dhstate_get_public_key privkey in
  let? _ := ok (noise_errort err_NOISE__DHSTATE__GET_PUBLIC_KEY__ e) in
  Ok pubkey.

(** *** Initialisation *)

(** The two changes to the random client secret. *)
Definition client_secret_of (random : Z) : Z :=
  let secret := Z.land random (wrap64 (Z.lnot CLIENT_STATE_MASK)) in
  Z.lor secret (1 [<<] 63).

(** The part of [enclave_init] between the two changes of [g_init_done].  The
    random bytes are those of the private key, of the unused map key, of the hash
    key and of the client secret; [tables] are the new tables of the shards. *)
Definition init_body (key_random : option (list Z)) (map_key_ok : bool) (hash_random : option (list Z)) (secret_random : option Z)
    (num_shards : nat) (tables : list (ohtable RAM * entropy)) : Enc unit :=
  let! key := gets g_privkey in
  let '(err, key) := generate_privkey key_random key in
  let! _ := modify (fun s => set_keys (g_handshakestart s) key s) in
  let! _ := check err in
  let! _ := modify (set_num_shards num_shards) in
  let! _ := CHECK map_key_ok in
  let! hash_key := must hash_random in
  let! secret := must secret_random in
  let! _ := modify (set_secret (client_secret_of secret)) in
  let! table := must (sharded_ohtable_create RECORD_SIZE hash_key tables) in
  modify (set_table (Some table)).

(** The code behind [done]. *)
Definition init_finish (r : result unit) : Enc unit :=
  let! done := gets g_init_done in
  let! _ := CHECK (done =? ENCLAVE_INIT_INITIALIZING) in
  modify (set_init (match r with Ok _ => ENCLAVE_INIT_INITIALIZED | Err _ => ENCLAVE_INIT_UNINITIALIZED end)).

(** [attester_ok] and [format_ok]: the attester initialises and offers the
    format. *)
Definition enclave_init (load_factor : double) (attester_ok format_ok : bool) (key_random : option (list Z)) (map_key_ok : bool)
    (hash_random : option (list Z)) (secret_random : option Z) (num_shards : nat) (tables : list (ohtable RAM * entropy)) : Enc unit :=
  let! _ := ensure (SFleb done_ load_factor && SFleb load_factor (double_of_u64 3)) err_ENCLAVE__GENERAL__INVALID_LOAD_FACTOR in
  let! _ := ensure (attester_ok || INSECURE) err_ENCLAVE__GENERAL__OE_ATTESTER_INITIALIZE in
  let! _ := ensure (format_ok || INSECURE) err_ENCLAVE__GENERAL__OE_ATTESTER_SELECT_FORMAT in
  let! done := gets g_init_done in
  let! _ := ensure (done =? ENCLAVE_INIT_UNINITIALIZED) err_ENCLAVE__GENERAL__REINIT in
  let! _ := modify (set_init ENCLAVE_INIT_INITIALIZING) in
  fun s =>
    match init_body key_random map_key_ok hash_random secret_random num_shards tables s with
    | Some (r, s) => match init_finish r s with Some (_, s) => Some (r, s) | None => None end
    | None => None
    end.

(** *** Attestation *)

Definition wrap_in_ereport (pubkey : list Z) (out_size : nat) : result (list Z) :=
  if (out_size <=? NOISE_KEY_SIZE)%nat then Err err_ENCLAVE__GENERAL__EREPORT_SIZE
  else
    let? _ := assert_err (client_handshake_start_new (Z.shiftl 32 10)) err_ENCLAVE__GENERAL__EREPORT_PB_NEW in
    match oe_serialize_custom_claims pubkey with
    | None => Err err_ENCLAVE__GENERAL__OE_SERIALIZE_CUSTOM_CLAIMS
    | Some claims =>
        let? rsp :=
          match oe_get_evidence claims with
          | None =>
              if IS_TEST || INSECURE then Ok {| test_only_pubkey := pubkey; evidence := []; endorsement := [] |}
              else Err err_ENCLAVE__GENERAL__GET_EVIDENCE
          | Some (ev, en) => Ok {| test_only_pubkey := pubkey; evidence := ev; endorsement := en |}
          end in
        match client_handshake_start_encode rsp out_size with
        | None => Err err_ENCLAVE__GENERAL__EREPORT_PB_ENCODE
        | Some out => Ok out
        end
    end.

Definition enclave_attest (alloc : bool) (key_random : option (list Z)) : Enc unit :=
  let! _ := check_init_complete in
  let '(err, new_key) := generate_privkey key_random (replicate NOISE_KEY_SIZE 0) in
  let! _ := check err in
  let! pubkey := lift (noise_pubkey_from_privkey new_key) in
  let! _ := ensure (negb (HANDSHAKESTART_SIZE <? NOISE_KEY_SIZE)%nat) err_ENCLAVE__GENERAL__EREPORT_SIZE in
  let! _ := ensure alloc err_OOM in
  let! scratch := lift (wrap_in_ereport pubkey HANDSHAKESTART_SIZE) in
  modify (set_keys scratch new_key).

(** *** Opening and closing clients *)

(** The part of [enclave_new_client] under the read lock. *)
Definition new_client_locked (id : Z) (out_size : nat) : Enc (Z * list Z) :=
  let! key := gets g_privkey in
  let! _ := check (validate_privkey key) in
  let! start := gets g_handshakestart in
  let! _ := ensure (negb (out_size <? length start)%nat) err_ENCLAVE__NEWCLIENT__EREPORT_TOO_LARGE in
  let! c := client_of id in
  let! h := must (c_handshake c) in
  let '(e, h) := noise_dhstate_set_keypair_private h key in
  let! _ := client_update id (with_handshake (Some h)) in
  let! _ := check (noise_errort err_NOISE__DHSTATE__SET_KEYPAIR_PRIVATE__ e) in
  let! cli := client_add id in
  ret (cli, start).

(** [id] is the address of the new object and [entropy] what its handshake will
    draw; the results are the client's name and the handshake data. *)
Definition enclave_new_client (alloc : bool) (id : Z) (entropy : list Z) (out_size : nat) : Enc (Z * list Z) :=
  let! _ := check_init_complete in
  let! _ := ensure alloc err_OOM in
  let! _ := modify (fun s => set_clients (<[id := zero_client]> (g_clients s)) s) in
  on_error
    (let '(e, h) := noise_handshakestate_new_by_id entropy in
     let! _ := check (noise_errort err_NOISE__HANDSHAKESTATE__NEW__ e) in
     let! _ := client_update id (with_handshake (Some h)) in
     let! out := new_client_locked id out_size in
     fun s => match client_setstate id CLIENT_INUSE CLIENT_UNUSED s with Some (_, s) => Some (Ok out, s) | None => None end)
    (client_free id).

Definition enclave_close_client (cli : Z) : Enc unit :=
  let! _ := check_init_complete in
  let! _ := client_remove cli in
  client_free cli.

(** *** Handshake *)

(** One call of the Noise library on the client's handshake state. *)
Definition handshake_call (id : Z) (space : error_t) (f : handshake -> Z * handshake) : Enc unit :=
  let! c := client_of id in
  let! h := must (c_handshake c) in
  let '(e, h) := f h in
  let! _ := client_update id (with_handshake (Some h)) in
  check (noise_errort space e).

Definition handshake_expect (id : Z) (action : noise_action) : Enc unit :=
  let! c := client_of id in
  let! h := must (c_handshake c) in
  ensure (bool_decide (noise_handshakestate_get_action h = action)) err_ENCLAVE__HANDSHAKE__INVALID_STATE.

Definition handshake_body (id : Z) (input : list Z) (out_size : nat) : Enc (list Z) :=
  let! c := client_of id in
  let! _ := ensure (match c_handshake c with None => false | Some _ => true end) err_ENCLAVE__GENERAL__CLIENT_STATE in
  let! _ := handshake_call id err_NOISE__HANDSHAKESTATE__START__ noise_handshakestate_start in
  let! _ := handshake_expect id NOISE_ACTION_READ_MESSAGE in
  let! _ := handshake_call id err_NOISE__HANDSHAKESTATE__READ__ (fun h => noise_handshakestate_read_message h input) in
  let! _ := handshake_expect id NOISE_ACTION_WRITE_MESSAGE in
  let! c := client_of id in
  let! h := must (c_handshake c) in
  let '(e, h, msg) := noise_handshakestate_write_message h NOISE_HANDSHAKEWRITE_SIZE in
  let! _ := client_update id (with_handshake (Some h)) in
  let! _ := check (noise_errort err_NOISE__HANDSHAKESTATE__WRITE__ e) in
  let! _ := ensure (negb (out_size <? length msg)%nat) err_ENCLAVE__GENERAL__BUFFER_TOO_SMALL in
  let! _ := handshake_expect id NOISE_ACTION_SPLIT in
  let! c := client_of id in
  let! h := must (c_handshake c) in
  let '(e, h, (tx, rx)) := noise_handshakestate_split h in
  let! _ := client_update id (fun c => with_recv rx (with_send tx (with_handshake (Some h) c))) in
  let! _ := check (noise_errort err_NOISE__HANDSHAKESTATE__SPLIT__ e) in
  let! _ := client_update id (with_handshake None) in
  ret msg.

Definition enclave_handshake (cli : Z) (input : list Z) (out_size : nat) : Enc (list Z) :=
  let! _ := check_init_complete in
  with_client cli (handshake_body cli input out_size).

(** *** Messages on the channel *)

(** [noise_decrypt_message_inplace] on the client's receiving state. *)
Definition client_decrypt (id : Z) (input : list Z) : Enc (list Z) :=
  let! c := client_of id in
  let! rx := must (recv c) in
  let! r := must (noise_decrypt_message_inplace rx input) in
  let '(err, rx, data, n) := r in
  let! _ := client_update id (with_recv (Some rx)) in
  let! _ := check err in
  ret (take n data).

(** [noise_encrypt_message] on the client's sending state into a buffer of
    [out_size] bytes. *)
Definition client_encrypt (id : Z) (plaintext : list Z) (out_size : nat) : Enc (list Z) :=
  let! c := client_of id in
  let! tx := must (send c) in
  let! r := must (noise_encrypt_message tx plaintext (replicate out_size 0)) in
  let '(err, tx, out, n) := r in
  let! _ := client_update id (with_send (Some tx)) in
  let! _ := check err in
  ret (take n out).

(** *** Rate limit *)

Definition request_sizes_ok (r : client_request_t) : bool :=
  negb (negb (Z.land (size (aci_uak_pairs r)) (4 * 8 - 1) =? 0) || negb (Z.land (size (prev_e164s r)) (8 - 1) =? 0)
        || negb (Z.land (size (new_e164s r)) (8 - 1) =? 0) || (size (new_e164s r) [+] size (prev_e164s r) =? 0)).

Record rate_limit_out := RateLimitOut {
  rl_out : list Z;
  rl_old_token_hash : list Z;
  rl_new_token_hash : list Z;
  rl_computed_request_size : Z;
}.

(** [ws] is the address of the workspace ([calloc]'s result), [random] the
    entropy of the new token. *)
Definition rate_limit_body (alloc : nat -> bool) (ws : Z) (random : option (list Z)) (id : Z) (input : list Z)
    (out_size old_token_hash_size new_token_hash_size : nat) : Enc rate_limit_out :=
  let! c := client_of id in
  let! _ := ensure (match req c, send c, recv c with None, Some _, Some _ => workspace c =? 0 | _, _, _ => false end)
                   err_ENCLAVE__GENERAL__CLIENT_STATE in
  let! _ := ensure (RATELIMIT_TOKENHASH_SIZE <=? old_token_hash_size)%nat err_ENCLAVE__RATELIMIT__BAD_OUTPUT in
  let! _ := ensure (RATELIMIT_TOKENHASH_SIZE <=? new_token_hash_size)%nat err_ENCLAVE__RATELIMIT__BAD_OUTPUT in
  let! plain := client_decrypt id input in
  let! _ := client_update id (with_workspace ws) in
  let! _ := ensure (negb (ws =? 0)) err_OOM in
  let! _ := ensure (client_request_new (Z.of_nat (length plain) [+] client_request_base)) err_ENCLAVE__RATELIMIT__REQUEST_PB_NEW in
  let! r := the (client_request_decode ws plain) err_ENCLAVE__RATELIMIT__REQUEST_PB_DECODE in
  let! _ := ensure (request_sizes_ok r) err_ENCLAVE__RATELIMIT__REQUEST_PB_INVALID in
  let! _ := client_update id (with_req (Some r)) in
  let! g := gets g_ratelimit in
  let! _ := check (ratelimit_validate_received_rate_limit_token sha256 (alloc 0%nat) g r) in
  let computed_request_size := size (new_e164s r) [>>] 3 in
  let! entropy := the random err_ENCLAVE__GENERAL__ENTROPY in
  let new_token := (RATELIMIT_VERSION :: entropy) ++ replicate 32 0 in
  let! new_token := lift (ratelimit_compute_token sha256 (alloc 1%nat) g (bytes (prev_e164s r)) (bytes (new_e164s r)) new_token) in
  let old_hash := if size (token r) =? 0 then [] else ratelimit_token_hash sha256 (bytes (token r)) in
  let new_hash := ratelimit_token_hash sha256 new_token in
  let! _ := ensure (client_response_new 128) err_ENCLAVE__RATELIMIT__RESPONSE_PB_NEW in
  let rsp := {| e164_pni_aci_triples := []; rsp_token := new_token; debug_permits_used := 0 |} in
  let! _ := ensure (alloc 2%nat) err_OOM in
  let! plaintext := the (client_response_encode rsp out_size) err_ENCLAVE__RATELIMIT__RESPONSE_PB_ENCODE in
  let! out := client_encrypt id plaintext out_size in
  ret {| rl_out := out; rl_old_token_hash := old_hash; rl_new_token_hash := new_hash; rl_computed_request_size := computed_request_size |}.

Definition enclave_rate_limit (alloc : nat -> bool) (ws : Z) (random : option (list Z)) (cli : Z) (input : list Z)
    (out_size old_token_hash_size new_token_hash_size : nat) : Enc rate_limit_out :=
  let! _ := check_init_complete in
  with_client cli (rate_limit_body alloc ws random cli input out_size old_token_hash_size new_token_hash_size).

(** *** Run *)

(** The buffers of the numbers, the first in memory before the second, with
    the length of the first. *)
Definition e164s_order (r : client_request_t) : Z * Z * Z :=
  let prev := buf_p (prev_e164s r) in
  let new := buf_p (new_e164s r) in
  if prev =? 0 then (0, new, new)
  else if new =? 0 then (0, prev, prev)
  else if prev <? new then (size (prev_e164s r) / 8, prev, new)
  else (size (new_e164s r) / 8, new, prev).

(** The addresses that round [i] of the loop reads. *)
Definition e164_reads (r : client_request_t) (i : Z) : Z * Z :=
  let '(a_size, a, b) := e164s_order r in (a + 8 * i, b + 8 * i - 8 * a_size).

(** The numbers of the request; [mem] is the 64-bit word at an address. *)
Definition gather_e164s (mem : Z -> Z) (r : client_request_t) (num_e164s : nat) : list Z :=
  let '(a_size, _, _) := e164s_order r in
  map (fun i => let '(x, y) := e164_reads r (Z.of_nat i) in U64_TERNARY (Z.of_nat i <? a_size) (mem x) (mem y)) (seq 0 num_e164s).

(** [sipkey] is the key of the set, [pair_alloc] and [rnd] the answers of
    [malloc] and [rand] while the set grows. *)
Definition run_body (alloc : nat -> bool) (pair_alloc : nat -> bool) (rnd : nat -> Z) (sipkey : list Z) (mem : Z -> Z) (stack : Z)
    (id : Z) (permits : Z) (input : list Z) (out_size : nat) : Enc (list Z) :=
  let! c := client_of id in
  let! r := the (match req c, send c, recv c with Some r, Some _, Some _ => Some r | _, _, _ => None end) err_ENCLAVE__GENERAL__CLIENT_STATE in
  let! plain := client_decrypt id input in
  let! _ := ensure (client_request_new 128) err_ENCLAVE__RUN__REQUEST_PB_NEW in
  let! ack := the (client_request_decode stack plain) err_ENCLAVE__RUN__REQUEST_PB_DECODE in
  let! _ := ensure (token_ack ack) err_ENCLAVE__RUN__NO_TOKEN_ACK in
  let size_e164s := size (prev_e164s r) [+] size (new_e164s r) in
  let num_e164s := Z.to_nat (size_e164s [>>] 3) in
  let num_aci_uak_pairs := Z.to_nat (size (aci_uak_pairs r) [>>] 5) in
  let! _ := ensure (alloc 0%nat && alloc 1%nat && alloc 2%nat) err_OOM in
  let pairs := map pair_of (chunks 32 num_aci_uak_pairs (bytes (aci_uak_pairs r))) in
  let! loaded := must (load_aci_uak_pairs pair_alloc rnd 0 (fixedset_new 32 sipkey) pairs) in
  let '(err, index) := loaded in
  let! _ := check err in
  let! _ := ensure (alloc 3%nat) err_OOM in
  let e164s := gather_e164s mem r num_e164s in
  let! _ := ensure (alloc 4%nat) err_OOM in
  let! table := gets g_table in
  let! table := must table in
  let! got := must (sharded_ohtable_get_batch table num_e164s e164s (replicate num_e164s (replicate RECORD_SIZE 0))) in
  let '(err, records, table) := got in
  let! _ := modify (set_table (Some table)) in
  let! _ := check err in
  let! _ := ensure (alloc 5%nat) err_OOM in
  let triples := create_e164_pni_aci_triples index e164s (map record_of records) in
  let! _ := ensure (alloc 6%nat) err_OOM in
  let! _ := ensure (client_response_new client_response_base) err_ENCLAVE__RUN__RESPONSE_PB_NEW in
  let rsp := {| e164_pni_aci_triples := bytes_of (concat (map triple_words triples)); rsp_token := []; debug_permits_used := permits |} in
  let! _ := ensure (alloc 7%nat) err_OOM in
  let! plaintext := the (client_response_encode rsp out_size) err_ENCLAVE__RUN__RESPONSE_PB_ENCODE in
  client_encrypt id plaintext out_size.

Definition enclave_run (alloc : nat -> bool) (pair_alloc : nat -> bool) (rnd : nat -> Z) (sipkey : list Z) (mem : Z -> Z) (stack : Z)
    (cli : Z) (permits : Z) (input : list Z) (out_size : nat) : Enc (list Z) :=
  let! _ := check_init_complete in
  with_client cli (run_body alloc pair_alloc rnd sipkey mem stack cli permits input out_size).

(** *** Loading *)

Definition enclave_load_pb (alloc : bool) (load_request_pb : list Z) : Enc unit :=
  let! _ := check_init_complete in
  let! _ := ensure alloc err_OOM in
  let! _ := ensure (enclave_load_new (Z.of_nat (length load_request_pb) [+] enclave_load_base)) err_ENCLAVE__LOADPB__REQUEST_PB_NEW in
  let! load_req := the (enclave_load_decode load_request_pb) err_ENCLAVE__LOADPB__REQUEST_PB_DECODE in
  let! _ :=
    if (0 <? length (shared_token_secret load_req))%nat then
      let! g := gets g_ratelimit in
      let '(err, g) := ratelimit_set_shared_secret g (shared_token_secret load_req) in
      let! _ := modify (set_ratelimit g) in
      check err
    else ret tt in
  let! table := gets g_table in
  let! table := must table in
  let! table := if clear_all load_req then must (sharded_ohtable_clear table) else ret table in
  let! _ := modify (set_table (Some table)) in
  let tuples := e164_aci_pni_uak_tuples load_req in
  let! _ := ensure (length tuples mod (RECORD_SIZE * 8) =? 0)%nat err_ENCLAVE__LOADPB__TUPLES_INVALID in
  let num_records := (length tuples / (RECORD_SIZE * 8))%nat in
  let! put := must (sharded_ohtable_put_batch table num_records (u64s_of tuples)) in
  let '(err, table) := put in
  let! _ := modify (set_table (Some table)) in
  check err.

(** *** Shards and statistics *)

(** [stop i] is the result of [shard_stop] on shard [i]; the results are the
    error and the shards that were asked to stop, in order. *)
Fixpoint stop_loop (stop : nat -> error_t) (table : sharded_ohtable RAM) (n i : nat) (err : error_t) (asked : list nat) : option (error_t * list nat) :=
  match n with
  | O => Some (err, asked)
  | S n =>
      match sharded_ohtable_stop_shard stop table i with
      | None => None
      | Some shard_err =>
          let err :=
            if negb (is_success shard_err) && negb (bool_decide (shard_err = err_SHARD__NOT_RUNNING)) && is_success err then shard_err else err in
          stop_loop stop table n (S i) err (asked ++ [i])
      end
  end.

Definition enclave_stop_shards (stop : nat -> error_t) : Enc (error_t * list nat) :=
  let! _ := check_init_complete in
  let! n := gets g_num_shards in
  let! table := gets g_table in
  let! table := must table in
  must (stop_loop stop table n 0 err_SUCCESS []).

(** [run i] is the result of [shard_run] on shard [i]. *)
Definition enclave_run_shard (run : nat -> error_t) (shard_id : nat) : Enc unit :=
  let! _ := check_init_complete in
  let! table := gets g_table in
  let! table := must table in
  let! err := must (sharded_ohtable_run_shard run table shard_id) in
  check err.

Definition num_items_name : list Z := [110; 117; 109; 95; 105; 116; 101; 109; 115].
Definition capacity_name : list Z := [99; 97; 112; 97; 99; 105; 116; 121].

Definition enclave_table_statistics (alloc : bool) (create : ohtable RAM -> ohtable_statistics * ohtable RAM) (out_size : nat) : Enc (list Z) :=
  let! _ := check_init_complete in
  let! _ := ensure alloc err_OOM in
  let! table := gets g_table in
  let! table := must table in
  let '(stats, table) := sharded_ohtable_report_statistics create table in
  let! _ := modify (set_table (Some table)) in
  let! _ := ensure (table_statistics_new table_statistics_base) err_ENCLAVE__TABLE_STATISTICS__RESPONSE_PB_NEW in
  let! _ := ensure (shard_statistics_alloc 1) err_ENCLAVE__TABLE_STATISTICS__RESPONSE_PB_ALLOC_SHARDS in
  let! _ := ensure (values_alloc 2) err_ENCLAVE__TABLE_STATISTICS__RESPONSE_PB_ALLOC_VALUES in
  let! n := gets g_num_shards in
  let num_items := fold_left (fun acc st => acc [+] os_num_items st) (take n stats) 0 in
  let capacity := fold_left (fun acc st => acc [+] os_capacity st) (take n stats) 0 in
  let rsp := {| shard_statistics := [[(num_items_name, num_items); (capacity_name, capacity)]] |} in
  the (table_statistics_encode rsp out_size) err_ENCLAVE__TABLE_STATISTICS__RESPONSE_PB_ENCODE.
End Operations.
