(* ===== verification/Clients.v ===== *)
(** * Concurrent use of the clients ([c/enclave/enc.c])

    The host may run any calls in parallel, on any addresses.  The first word of
    a client object, [acq], decides who may use it; it is changed by single
    compare-exchanges.  This file models the threads at that granularity: the
    words of the memory where clients have been or may be, the objects that are
    allocated, and where each thread is. *)

From stdpp Require Import gmap.
From S2P Require Import Prelude Errors StateError Enclave.
Local Open Scope Z_scope.

(** ** Threads *)

(** What a thread is doing: nothing with a client; filling in the object that
    it has allocated; using a client; taking a client down. *)
Inductive client_pc := Idle | Building (a : Z) | Holding (a : Z) | Removing (a : Z).

Record memory := Memory {
  m_word : Z -> Z;
  m_objects : gset Z;
  m_pc : nat -> client_pc;
}.

Section Threads.
Context (secret secret_addr : Z) (within : Z -> bool).

Definition live_acq (state : Z) : Z := Z.lor secret state.
Definition plausible (a : Z) : bool := within a && negb (a =? secret_addr).

Definition set_word (a w : Z) (y : memory) : memory :=
  {| m_word := fun x => if x =? a then w else m_word y x; m_objects := m_objects y; m_pc := m_pc y |}.
Definition set_pc (t : nat) (p : client_pc) (y : memory) : memory :=
  {| m_word := m_word y; m_objects := m_objects y; m_pc := fun u => if (u =? t)%nat then p else m_pc y u |}.
Definition set_objects (o : gset Z) (y : memory) : memory := {| m_word := m_word y; m_objects := o; m_pc := m_pc y |}.

(** The atomic compare-exchange, on whatever lies at the address. *)
Definition compare_exchange (a expected desired : Z) (y : memory) : option memory :=
  if m_word y a =? expected then Some (set_word a desired y) else None.

(** [client_get], [client_remove] and the release at the end of a call, by
    thread [t]; [None] when the call returns its error. *)
Definition try_get (t : nat) (a : Z) (y : memory) : option memory :=
  if plausible a then
    match compare_exchange a (live_acq CLIENT_UNUSED) (live_acq CLIENT_INUSE) y with
    | Some y => Some (set_pc t (Holding a) y)
    | None => None
    end
  else None.
Definition try_remove (t : nat) (a : Z) (y : memory) : option memory :=
  if plausible a then
    match compare_exchange a (live_acq CLIENT_UNUSED) CLIENT_ACQ_DEAD y with
    | Some y => Some (set_pc t (Removing a) y)
    | None => None
    end
  else None.
(** The result of [client_setstate] is not looked at. *)
Definition release (t : nat) (a : Z) (y : memory) : memory :=
  set_pc t Idle (match compare_exchange a (live_acq CLIENT_INUSE) (live_acq CLIENT_UNUSED) y with Some y => y | None => y end).

(** [MALLOCZ], [client_add] and [client_free]; freed memory keeps its word. *)
Definition allocate (t : nat) (a : Z) (y : memory) : memory := set_pc t (Building a) (set_objects ({[a]} ∪ m_objects y) (set_word a 0 y)).
Definition publish (t : nat) (a : Z) (y : memory) : memory := set_pc t (Holding a) (set_word a (live_acq CLIENT_INUSE) y).
Definition free_client (t : nat) (a : Z) (y : memory) : memory := set_pc t Idle (set_objects (m_objects y ∖ {[a]}) (set_word a CLIENT_ACQ_DEAD y)).

(** A step of thread [t].  A failing call changes nothing and needs no rule.
    [step_other]: the rest of the enclave writes to memory that is no client
    object; it does not know the secret. *)
Inductive client_step : memory -> memory -> Prop :=
  | step_allocate y t a : m_pc y t = Idle -> a ∉ m_objects y -> a <> secret_addr -> client_step y (allocate t a y)
  | step_publish y t a : m_pc y t = Building a -> client_step y (publish t a y)
  | step_give_up y t a : m_pc y t = Building a -> client_step y (free_client t a y)
  | step_get y t a y' : m_pc y t = Idle -> try_get t a y = Some y' -> client_step y y'
  | step_release y t a : m_pc y t = Holding a -> client_step y (release t a y)
  | step_remove y t a y' : m_pc y t = Idle -> try_remove t a y = Some y' -> client_step y y'
  | step_free y t a : m_pc y t = Removing a -> client_step y (free_client t a y)
  | step_other y a w : a ∉ m_objects y -> a <> secret_addr -> w <> live_acq CLIENT_UNUSED -> w <> live_acq CLIENT_INUSE ->
      client_step y (set_word a w y).

(** No client, no thread at work; the secret lies at its address. *)
Record client_start (y : memory) : Prop := {
  cs_objects : m_objects y = ∅;
  cs_pc t : m_pc y t = Idle;
  cs_secret : m_word y secret_addr = secret;
  cs_others a : a <> secret_addr -> m_word y a <> live_acq CLIENT_UNUSED /\ m_word y a <> live_acq CLIENT_INUSE;
}.

Inductive client_reachable : memory -> Prop :=
  | reach_start y : client_start y -> client_reachable y
  | reach_step y y' : client_reachable y -> client_step y y' -> client_reachable y'.

(** ** Invariant *)

(** The word that each kind of owner sees. *)
Definition owns (p : client_pc) (a w : Z) : Prop :=
  (p = Building a /\ w = 0) \/ (p = Holding a /\ w = live_acq CLIENT_INUSE) \/ (p = Removing a /\ w = 0).
Definition target (p : client_pc) : option Z := match p with Idle => None | Building a | Holding a | Removing a => Some a end.

Record client_inv (y : memory) : Prop := {
  ci_secret : m_word y secret_addr = secret /\ secret_addr ∉ m_objects y;
  ci_live a : m_word y a = live_acq CLIENT_UNUSED \/ m_word y a = live_acq CLIENT_INUSE -> a = secret_addr \/ a ∈ m_objects y;
  ci_owner t a : target (m_pc y t) = Some a -> a ∈ m_objects y /\ owns (m_pc y t) a (m_word y a);
  ci_alone t u a : target (m_pc y t) = Some a -> target (m_pc y u) = Some a -> t = u;
  ci_free a : a ∈ m_objects y -> (forall t, target (m_pc y t) <> Some a) -> m_word y a = live_acq CLIENT_UNUSED;
}.

(** The secret as [enclave_init] makes it. *)
Definition secret_ok : Prop := Z.testbit secret 0 = false /\ Z.testbit secret 63 = true.

Context (Hsecret : secret_ok).

Lemma live_distinct : live_acq CLIENT_UNUSED <> live_acq CLIENT_INUSE /\ live_acq CLIENT_UNUSED <> 0 /\ live_acq CLIENT_INUSE <> 0.
Proof.
  destruct Hsecret as [H0 H63]. unfold live_acq, CLIENT_UNUSED, CLIENT_INUSE. split_and!; intros E.
  - apply (f_equal (fun x => Z.testbit x 0)) in E. rewrite !Z.lor_spec, H0 in E. done.
  - apply (f_equal (fun x => Z.testbit x 63)) in E. rewrite Z.lor_spec, H63 in E. done.
  - apply (f_equal (fun x => Z.testbit x 63)) in E. rewrite Z.lor_spec, H63 in E. done.
Qed.

Lemma secret_is_unused : secret = live_acq CLIENT_UNUSED.
Proof. unfold live_acq, CLIENT_UNUSED. by rewrite Z.lor_0_r. Qed.

Lemma client_start_inv y : client_start y -> client_inv y.
Proof.
  intros [Ho Hp Hs Ht]. split.
  - rewrite Ho. set_solver.
  - intros a Ha. left. destruct (decide (a = secret_addr)); [done|]. specialize (Ht a n). tauto.
  - intros t a. by rewrite Hp.
  - intros t u a. by rewrite Hp.
  - intros a Ha. rewrite Ho in Ha. set_solver.
Qed.

(** One thread moves on and changes the word and the allocation of one address
    that no other thread works on. *)
Lemma client_move y t a p w o : client_inv y -> a <> secret_addr -> (forall x, x <> a -> x ∈ o <-> x ∈ m_objects y) ->
  target (m_pc y t) = None \/ target (m_pc y t) = Some a -> (forall u, u <> t -> target (m_pc y u) <> Some a) ->
  (target p = Some a /\ a ∈ o /\ owns p a w) \/
    (p = Idle /\ (a ∈ o -> w = live_acq CLIENT_UNUSED) /\ (a ∉ o -> w <> live_acq CLIENT_UNUSED /\ w <> live_acq CLIENT_INUSE)) ->
  client_inv (set_pc t p (set_objects o (set_word a w y))).
Proof.
  intros [[Hs Hso] Hl Ho Ha Hf] Hne Hobj Ht Hu Hnew.
  assert (Hpt : forall b, target p = Some b -> b = a /\ a ∈ o /\ owns p a w).
  { intros b Hb. destruct Hnew as [(E & ? & ?)|(-> & _)]; [|done]. rewrite E in Hb. by injection Hb as <-. }
  split; cbn [m_word m_objects m_pc set_pc set_objects set_word].
  - rewrite (proj2 (Z.eqb_neq _ _)) by done. split; [done|]. by rewrite Hobj.
  - intros x. destruct (Z.eqb_spec x a) as [->|Hx].
    + intros Hw. right. destruct (decide (a ∈ o)); [done|]. destruct Hnew as [(_ & ? & _)|(_ & _ & Hn)]; [done|]. specialize (Hn n). tauto.
    + rewrite Hobj by done. apply Hl.
  - intros u b. destruct (Nat.eqb_spec u t) as [->|Hut].
    + intros Hb. destruct (Hpt b Hb) as (-> & Hin & Hown). by rewrite Z.eqb_refl.
    + intros Hb. destruct (Z.eqb_spec b a) as [->|Hba]; [by apply Hu in Hb|]. rewrite Hobj by done. by apply Ho.
  - intros u v b. destruct (Nat.eqb_spec u t) as [->|Hut], (Nat.eqb_spec v t) as [->|Hvt]; [done| | |apply Ha].
    + intros [-> _]%Hpt Hv. by apply Hu in Hv.
    + intros Hv [-> _]%Hpt. by apply Hu in Hv.
  - intros b Hb Hno. destruct (Z.eqb_spec b a) as [->|Hba].
    + specialize (Hno t). rewrite Nat.eqb_refl in Hno. destruct Hnew as [(E & _)|(_ & Hw & _)]; [done|by apply Hw].
    + apply Hf; [by apply Hobj|]. intros u. specialize (Hno u). destruct (Nat.eqb_spec u t) as [E|]; [|done].
      rewrite E. destruct Ht as [->| ->]; [done|]. congruence.
Qed.

(** A word with a live value outside of the secret belongs to an object that no
    thread works on, when it says unused. *)
Lemma unused_free y a : client_inv y -> a <> secret_addr -> m_word y a = live_acq CLIENT_UNUSED ->
  a ∈ m_objects y /\ forall t, target (m_pc y t) <> Some a.
Proof.
  intros Hi Hne Hw. destruct live_distinct as (H1 & H2 & H3). split.
  - destruct (ci_live y Hi a (or_introl Hw)); done.
  - intros t Ht. destruct (ci_owner y Hi t a Ht) as [_ Hown]. unfold owns in Hown. rewrite Hw in Hown. intuition congruence.
Qed.

Lemma same_objects (y : memory) o : o = m_objects y -> set_objects o y = y.
Proof. intros ->. by destruct y. Qed.

Lemma client_step_inv y y' : client_inv y -> client_step y y' -> client_inv y'.
Proof.
  intros Hi Hstep. destruct live_distinct as (D1 & D2 & D3). pose proof (ci_secret y Hi) as [Hs Hso].
  assert (Howner : forall t a, target (m_pc y t) = Some a -> a <> secret_addr /\ a ∈ m_objects y /\ owns (m_pc y t) a (m_word y a) /\
    forall u, u <> t -> target (m_pc y u) <> Some a).
  { intros t a Ht. destruct (ci_owner y Hi t a Ht) as [Hin Hown]. split_and!; [set_solver|done|done|].
    intros u Hut Hu. apply Hut. by eapply (ci_alone y Hi). }
  destruct Hstep as [y t a Hp Ha Hne|y t a Hp|y t a Hp|y t a y' Hp Hrun|y t a Hp|y t a y' Hp Hrun|y t a Hp|y a w Ha Hne Hw0 Hw1].
  - apply client_move; [done|done|set_solver|by rewrite Hp; left| |].
    + intros u _ Hu. by apply Howner in Hu as (_ & ? & _).
    + left. split; [done|]. split; [set_solver|]. by left.
  - destruct (Howner t a) as (Hne & Hin & _ & Hal); [by rewrite Hp|]. unfold publish. rewrite <- (same_objects (set_word _ _ _) (m_objects y)) by done.
    apply client_move; [done|done|done|rewrite Hp; by right|done|]. left. split; [done|]. split; [done|]. right; left. done.
  - destruct (Howner t a) as (Hne & Hin & _ & Hal); [by rewrite Hp|].
    apply client_move; [done|done|set_solver|rewrite Hp; by right|done|]. right. split; [done|]. split; [set_solver|]. unfold CLIENT_ACQ_DEAD. intuition congruence.
  - unfold try_get, plausible, compare_exchange in Hrun. destruct (within a); [|done]. destruct (Z.eqb_spec a secret_addr) as [|Hne]; [done|]. cbn [negb andb] in Hrun.
    destruct (Z.eqb_spec (m_word y a) (live_acq CLIENT_UNUSED)) as [Hw|]; [|done]. injection Hrun as <-.
    destruct (unused_free y a Hi Hne Hw) as [Hin Hno]. rewrite <- (same_objects (set_word _ _ _) (m_objects y)) by done.
    apply client_move; [done|done|done|rewrite Hp; by left|done|]. left. split; [done|]. split; [done|]. right; left. done.
  - destruct (Howner t a) as (Hne & Hin & Hown & Hal); [by rewrite Hp|]. unfold release, compare_exchange.
    destruct Hown as [[E _]|[[_ Hw]|[E _]]]; [congruence| |congruence]. rewrite Hw, Z.eqb_refl.
    rewrite <- (same_objects (set_word _ _ _) (m_objects y)) by done.
    apply client_move; [done|done|done|rewrite Hp; by right|done|]. right. done.
  - unfold try_remove, plausible, compare_exchange in Hrun. destruct (within a); [|done]. destruct (Z.eqb_spec a secret_addr) as [|Hne]; [done|]. cbn [negb andb] in Hrun.
    destruct (Z.eqb_spec (m_word y a) (live_acq CLIENT_UNUSED)) as [Hw|]; [|done]. injection Hrun as <-.
    destruct (unused_free y a Hi Hne Hw) as [Hin Hno]. rewrite <- (same_objects (set_word _ _ _) (m_objects y)) by done.
    apply client_move; [done|done|done|rewrite Hp; by left|done|]. left. split; [done|]. split; [done|]. right; right. done.
  - destruct (Howner t a) as (Hne & Hin & _ & Hal); [by rewrite Hp|].
    apply client_move; [done|done|set_solver|rewrite Hp; by right|done|]. right. split; [done|]. split; [set_solver|]. unfold CLIENT_ACQ_DEAD. intuition congruence.
  - destruct Hi as [_ Hl Ho Hal Hf]. split; cbn [m_word m_objects m_pc set_word].
    + by rewrite (proj2 (Z.eqb_neq _ _)) by done.
    + intros x. destruct (Z.eqb_spec x a) as [->|]; [tauto|apply Hl].
    + intros t b Hb. destruct (Z.eqb_spec b a) as [->|]; [|by apply Ho]. by apply Howner in Hb as (_ & ? & _).
    + apply Hal.
    + intros b Hb Hno. destruct (Z.eqb_spec b a) as [->|]; [done|by apply Hf].
Qed.

(** A call that gets hold of an address found the word of an unused client. *)
Lemma taken_word y t a y' : try_get t a y = Some y' \/ try_remove t a y = Some y' -> a <> secret_addr /\ m_word y a = live_acq CLIENT_UNUSED.
Proof.
  unfold try_get, try_remove, plausible, compare_exchange. destruct (within a); [|by intros []].
  destruct (Z.eqb_spec a secret_addr); [by intros []|]. cbn [andb negb].
  destruct (Z.eqb_spec (m_word y a) (live_acq CLIENT_UNUSED)); [done|by intros []].
Qed.

Lemma client_reachable_inv y : client_reachable y -> client_inv y.
Proof. induction 1 as [y Hs|y y' _ IH Hstep]; [by apply client_start_inv|by eapply client_step_inv]. Qed.
End Threads.

(** ** Property *)

Lemma client_secret_ok random : secret_ok (client_secret_of random).
Proof.
  unfold secret_ok, client_secret_of. rewrite !Z.lor_spec, !Z.land_spec.
  change (Z.testbit (wrap64 (Z.lnot CLIENT_STATE_MASK)) 0) with false. change (Z.testbit (1 [<<] 63) 0) with false.
  change (Z.testbit (1 [<<] 63) 63) with true. by rewrite andb_false_r, orb_true_r.
Qed.

(** C7. In every interleaving of calls on any addresses a client is used
    by at most one thread at a time, a thread only works on objects that are
    allocated, and a call that gets hold of an address -- stale, forged or right
    -- got an allocated client that no other thread works on.  In particular no
    client is used after it was freed or freed twice, and the compare-exchange
    never hits other data. *)
Theorem client_exclusion random secret_addr within y :
  client_reachable (client_secret_of random) secret_addr within y ->
  (forall t u a, target (m_pc y t) = Some a -> target (m_pc y u) = Some a -> t = u) /\
  (forall t a, target (m_pc y t) = Some a -> a ∈ m_objects y) /\
  (forall t a y', try_get (client_secret_of random) secret_addr within t a y = Some y' \/
                  try_remove (client_secret_of random) secret_addr within t a y = Some y' ->
     a ∈ m_objects y /\ forall u, target (m_pc y u) <> Some a).
Proof.
  intros Hr. pose proof (client_secret_ok random) as Hok. pose proof (client_reachable_inv _ _ _ Hok y Hr) as Hi. split_and!.
  - apply (ci_alone _ _ y Hi).
  - intros t a Ht. apply (ci_owner _ _ y Hi t a Ht).
  - intros t a y' [Hne Hw]%taken_word. by apply (unused_free (client_secret_of random) secret_addr within Hok).
Qed.

(** Thread 1 opens client 4096; thread 2 uses it. *)
Definition toy_memory : memory := {| m_word := fun a => if a =? 64 then client_secret_of 12345 else 0; m_objects := ∅; m_pc := fun _ => Idle |}.
Definition toy_opened : memory :=
  release (client_secret_of 12345) 1 4096 (publish (client_secret_of 12345) 1 4096 (allocate 1 4096 toy_memory)).

Lemma toy_start : client_start (client_secret_of 12345) 64 toy_memory.
Proof.
  split; [done|done|done|]. intros a Ha. unfold toy_memory. cbn [m_word]. rewrite (proj2 (Z.eqb_neq _ _)) by done.
  vm_compute. split; discriminate.
Qed.

Lemma client_exclusion_witness :
  4096 ∈ m_objects toy_opened /\ is_Some (try_get (client_secret_of 12345) 64 (fun _ => true) 2 4096 toy_opened) /\
  try_get (client_secret_of 12345) 64 (fun _ => true) 2 64 toy_opened = None.
Proof.
  destruct (client_exclusion 12345 64 (fun _ => true) toy_opened) as (_ & _ & H).
  - eapply reach_step; [eapply reach_step; [eapply reach_step; [apply reach_start, toy_start|]|]|].
    + apply (step_allocate _ _ _ _ 1 4096); [reflexivity|apply not_elem_of_empty|discriminate].
    + apply (step_publish _ _ _ _ 1 4096). reflexivity.
    + apply (step_release _ _ _ _ 1 4096). reflexivity.
  - destruct (try_get (client_secret_of 12345) 64 (fun _ => true) 2 4096 toy_opened) as [y'|] eqn:E.
    + split; [exact (proj1 (H 2%nat 4096 y' (or_introl E)))|]. split; [by exists y'|]. reflexivity.
    + exfalso. vm_compute in E. discriminate E.
Defined.
