(* ===== verification/EnclaveSpec.v ===== *)
(** * The enclave's state between calls

    The host may make any calls in any order with any arguments.  This file
    states what holds of the global state between calls, whatever was called
    before and whether it failed. *)

From stdpp Require Import gmap.
From S2P Require Import Prelude Errors Util Statistics PositionMap OramInterface OHTable Shard ShardedOHTable HalfSipHash FixedSet Messages RateLimit AciPniUak Noise StateError Enclave Clients.
Local Open Scope Z_scope.

(** What the handshake functions of the Noise library promise: a split gives
    both channel states or fails with an error of the library's range. *)
Class HandshakeLaws (handshake cipher : Type) `{!NoiseLibrary cipher} `{!EnclaveLibrary handshake cipher} : Prop := {
  split_law h : let '(e, _, (tx, rx)) := noise_handshakestate_split h in
    (e = NOISE_ERROR_NONE /\ is_Some tx /\ is_Some rx) \/ (NOISE_ERROR_BASE < e /\ tx = None /\ rx = None);
  base_law : 0 <= NOISE_ERROR_BASE;
}.

Section Calls.
Context {RAM : Type} `{ObliviousRam RAM} {handshake cipher : Type} `{!NoiseLibrary cipher} `{!EnclaveLibrary handshake cipher}.
Local Notation State := (enclave RAM handshake cipher).

(** A call of the host that returns.  [calloc] gives a new client an address
    that no other client has. *)
Inductive enclave_call : State -> State -> Prop :=
  | call_init s lf a f k m h x n ts r s' : enclave_init lf a f k m h x n ts s = Some (r, s') -> enclave_call s s'
  | call_attest s a k r s' : enclave_attest a k s = Some (r, s') -> enclave_call s s'
  | call_new_client s stray a id e n r s' : g_clients s !! id = None -> enclave_new_client stray a id e n s = Some (r, s') -> enclave_call s s'
  | call_close_client s stray cli r s' : enclave_close_client stray cli s = Some (r, s') -> enclave_call s s'
  | call_handshake s stray cli i n r s' : enclave_handshake stray cli i n s = Some (r, s') -> enclave_call s s'
  | call_rate_limit s stray a ws x cli i n o m r s' : enclave_rate_limit stray a ws x cli i n o m s = Some (r, s') -> enclave_call s s'
  | call_run s stray a pa rnd k mem st cli p i n r s' : enclave_run stray a pa rnd k mem st cli p i n s = Some (r, s') -> enclave_call s s'
  | call_load s a pb r s' : enclave_load_pb a pb s = Some (r, s') -> enclave_call s s'
  | call_stop_shards s f r s' : enclave_stop_shards f s = Some (r, s') -> enclave_call s s'
  | call_run_shard s f i r s' : enclave_run_shard f i s = Some (r, s') -> enclave_call s s'
  | call_statistics s a st n r s' : enclave_table_statistics a st n s = Some (r, s') -> enclave_call s s'.

Inductive enclave_reachable : State -> Prop :=
  | enclave_reach_start : enclave_reachable enclave_start
  | enclave_reach_call s s' : enclave_reachable s -> enclave_call s s' -> enclave_reachable s'.

(** ** Invariant *)

(** A client is in its handshake, or has its channel and perhaps a request. *)
Definition client_shape (c : client_t handshake cipher) : Prop :=
  (is_Some (c_handshake c) /\ send c = None /\ recv c = None /\ req c = None) \/
  (c_handshake c = None /\ is_Some (send c) /\ is_Some (recv c) /\ forall r, req c = Some r -> request_sizes_ok r = true).

(** The handshake data was made for the private key. *)
Definition keys_match (s : State) : Prop :=
  g_handshakestart s = [] \/
  exists pubkey, noise_pubkey_from_privkey (g_privkey s) = Ok pubkey /\ wrap_in_ereport pubkey HANDSHAKESTART_SIZE = Ok (g_handshakestart s).

(** [held] is the client that the current call uses. *)
Record enclave_inv (held : option Z) (s : State) : Prop := {
  ei_init : (g_init_done s = ENCLAVE_INIT_UNINITIALIZED /\ g_clients s = ∅ /\ g_handshakestart s = []) \/
            (g_init_done s = ENCLAVE_INIT_INITIALIZED /\ is_Some (g_table s) /\ secret_ok (g_client_secret s) /\
             validate_privkey (g_privkey s) = err_SUCCESS);
  ei_keys : keys_match s;
  ei_secret : length (g_shared_secret_bytes (g_ratelimit s)) = 64%nat /\ (g_shared_secret_size (g_ratelimit s) <= 64)%nat;
  ei_clients id c : g_clients s !! id = Some c -> client_shape c /\
    acq c = client_acq s (if decide (held = Some id) then CLIENT_INUSE else CLIENT_UNUSED);
}.

Lemma enclave_start_inv : enclave_inv None enclave_start.
Proof. split; [by left|by left|by split; [|simpl; lia]|]. intros id c. cbn [g_clients enclave_start]. by rewrite lookup_empty. Qed.

(** ** Changes of the client in use *)

Lemma client_update_inv (P : client_t handshake cipher -> Prop) held s id f : enclave_inv held s ->
  (forall c, g_clients s !! id = Some c -> P c) -> (forall c, P c -> client_shape c -> client_shape (f c) /\ acq (f c) = acq c) ->
  enclave_inv held (set_clients (alter f id (g_clients s)) s).
Proof.
  intros [Hi Hk Hs Hc] HP Hf. split; [|done|done|].
  - destruct Hi as [(? & E & ?)|?]; [left|by right]. split; [done|]. split; [|done]. cbn [g_clients set_clients]. rewrite E. apply alter_empty.
  - intros i c. cbn [g_clients set_clients]. rewrite lookup_alter. destruct (decide (id = i)) as [<-|]; [|apply Hc].
    destruct (g_clients s !! id) as [c0|] eqn:E; [|done]. intros [= <-]. destruct (Hc id c0 E) as [Hsh Ha].
    destruct (Hf c0 (HP c0 eq_refl) Hsh) as [? ->]. done.
Qed.

Lemma keeps_client_of {B} (P : State -> Prop) id (k : client_t handshake cipher -> M State B) :
  (forall s c, P s -> g_clients s !! id = Some c -> forall r s', k c s = Some (r, s') -> P s') -> keeps P (bind (client_of id) k).
Proof.
  intros Hk s r s' HP. unfold bind, client_of, must. destruct (g_clients s !! id) as [c|] eqn:E; [|done]. cbn [ret]. by apply Hk.
Qed.

(** The channel of the client in use is open. *)
Definition channel_open (id : Z) (s : State) : Prop :=
  enclave_inv (Some id) s /\ exists c, g_clients s !! id = Some c /\ is_Some (send c) /\ is_Some (recv c).

Lemma channel_open_shape id s c : channel_open id s -> g_clients s !! id = Some c ->
  c_handshake c = None /\ is_Some (send c) /\ is_Some (recv c) /\ forall r, req c = Some r -> request_sizes_ok r = true.
Proof.
  intros [Hi (c' & E & Hs & Hr)] E'. rewrite E in E'. injection E' as <-. destruct (ei_clients _ _ Hi id c' E) as [[(_ & Hn & _)|?] _]; [|done].
  rewrite Hn in Hs. by destruct Hs.
Qed.

(** An update that keeps the channel and the validity of the request. *)
Lemma channel_update id f : (forall c, acq (f c) = acq c /\ c_handshake (f c) = c_handshake c /\ (is_Some (send c) -> is_Some (send (f c))) /\
    (is_Some (recv c) -> is_Some (recv (f c))) /\ forall r, req (f c) = Some r -> req c = Some r \/ request_sizes_ok r = true) ->
  keeps (channel_open id) (client_update id f).
Proof.
  intros Hf. apply keeps_modify. intros s Hco. pose proof (channel_open_shape id s) as Hsh. split.
  - apply (client_update_inv (fun c => g_clients s !! id = Some c)); [apply Hco|done|]. intros c E _. specialize (Hsh c Hco E).
    destruct (Hf c) as (Ha & Hh & Hs & Hr & Hq). split; [|done]. right. rewrite Hh. destruct Hsh as (? & ? & ? & Hv). split_and!; auto.
    intros r [?|?]%Hq; auto.
  - destruct Hco as [_ (c & E & Hs & Hr)]. exists (f c). cbn [g_clients set_clients]. rewrite lookup_alter_eq, E. destruct (Hf c) as (_ & _ & ? & ? & _).
    split; [done|]. auto.
Qed.

(** Updates outside of the clients. *)
Lemma channel_modify id (f : State -> State) : (forall s, g_clients (f s) = g_clients s /\ g_client_secret (f s) = g_client_secret s /\
    g_init_done (f s) = g_init_done s /\ (is_Some (g_table s) -> is_Some (g_table (f s))) /\ g_privkey (f s) = g_privkey s /\
    g_handshakestart (f s) = g_handshakestart s /\ g_ratelimit (f s) = g_ratelimit s) -> keeps (channel_open id) (modify f).
Proof.
  intros Hf. apply keeps_modify. intros s [[Hi Hk Hs Hc] (c & E & Hch)]. destruct (Hf s) as (Ec & Es & Ei & Et & Ep & Eh & Er). split.
  - split.
    + rewrite Ei, Ec, Es, Ep, Eh. destruct Hi as [?|(? & ? & ? & ?)]; [by left|right; auto].
    + unfold keys_match. by rewrite Eh, Ep.
    + by rewrite Er.
    + intros i c'. rewrite Ec. unfold client_acq. rewrite Es. apply Hc.
  - exists c. by rewrite Ec.
Qed.

Lemma keeps_client_read (P : State -> Prop) id : keeps P (client_of id).
Proof. intros s r s' HP. unfold client_of, must. destruct (g_clients s !! id); [|done]. by intros [= _ <-]. Qed.

(** Walks through the body of a handler. *)
Ltac keep_channel :=
  repeat first
    [ apply keeps_bind_ensure; intros ?
    | apply keeps_bind; [|intros ?]
    | progress auto with keeps
    | apply keeps_client_read
    | apply channel_update; intros ?; split_and!; cbn; (done || naive_solver)
    | apply channel_modify; intros ?; split_and!; cbn; (done || naive_solver)
    | match goal with |- keeps _ (match ?x with _ => _ end) => destruct x end ].

Lemma keeps_decrypt id input : keeps (channel_open id) (client_decrypt id input).
Proof. unfold client_decrypt. keep_channel. Qed.

Lemma keeps_encrypt id plaintext n : keeps (channel_open id) (client_encrypt id plaintext n).
Proof. unfold client_encrypt. keep_channel. Qed.

(** Once the channel is known to be open, the rest of a body keeps it. *)
Lemma from_open {B} id (m : M State B) s r s' c : enclave_inv (Some id) s -> g_clients s !! id = Some c -> is_Some (send c) -> is_Some (recv c) ->
  keeps (channel_open id) m -> m s = Some (r, s') -> enclave_inv (Some id) s'.
Proof. intros Hi E Hs Hr Hk Hrun. apply (Hk s r s'); [|done]. split; [done|]. by exists c. Qed.

Lemma rate_limit_keeps alloc ws random id input n o m : keeps (enclave_inv (Some id)) (rate_limit_body alloc ws random id input n o m).
Proof.
  apply keeps_client_of. intros s c Hi E r s'.
  destruct (req c) eqn:Eq, (send c) eqn:Es, (recv c) eqn:Er; try (by intros [= <- <-]).
  destruct (workspace c =? 0); [|by intros [= <- <-]]. eapply from_open; [done|done|by rewrite Es|by rewrite Er|].
  cbv beta. keep_channel; auto using keeps_decrypt, keeps_encrypt.
Qed.

Lemma run_keeps alloc pa rnd k mem st id p input n : keeps (enclave_inv (Some id)) (run_body alloc pa rnd k mem st id p input n).
Proof.
  apply keeps_client_of. intros s c Hi E r s'.
  destruct (req c) eqn:Eq, (send c) eqn:Es, (recv c) eqn:Er; try (by intros [= <- <-]).
  eapply from_open; [done|done|by rewrite Es|by rewrite Er|]. cbv beta. keep_channel; auto using keeps_decrypt, keeps_encrypt.
Qed.

(** *** The handshake *)

(** Writing back the handshake state of a client that has one. *)
Lemma handshake_update id s c h : enclave_inv (Some id) s -> g_clients s !! id = Some c -> is_Some (c_handshake c) ->
  enclave_inv (Some id) (set_clients (alter (with_handshake (Some h)) id (g_clients s)) s).
Proof.
  intros Hi E Hh. apply (client_update_inv (fun c => is_Some (c_handshake c))); [done|by intros ? [= <-]%(eq_trans (eq_sym E))|].
  intros c' Hh' [(_ & ? & ? & ?)|(Hn & _)]; [|rewrite Hn in Hh'; by destruct Hh']. split; [|done]. left. done.
Qed.

Lemma handshake_call_keeps id space f : keeps (enclave_inv (Some id)) (handshake_call id space f).
Proof.
  apply keeps_client_of. intros s c Hi E r s'. destruct (c_handshake c) as [h|] eqn:Eh; [|done]. cbn [must bind ret].
  unfold bind at 1. cbn. destruct (f h) as [e h']. intros Hrun. eapply (keeps_check (enclave_inv (Some id))); [|exact Hrun].
  eapply handshake_update; [done|done|by rewrite Eh].
Qed.

Lemma handshake_expect_keeps id a : keeps (enclave_inv (Some id)) (handshake_expect id a).
Proof.
  apply keeps_bind; [apply keeps_client_read|]. intros c. apply keeps_bind; [apply keeps_must|]. intros h. apply keeps_ensure.
Qed.

(** A split that succeeds opens the channel. *)
Lemma split_success `{!HandshakeLaws handshake cipher} h e h' tx rx : noise_handshakestate_split h = (e, h', (tx, rx)) ->
  (is_success (noise_errort err_NOISE__HANDSHAKESTATE__SPLIT__ e) = true /\ is_Some tx /\ is_Some rx) \/
  (is_success (noise_errort err_NOISE__HANDSHAKESTATE__SPLIT__ e) = false /\ tx = None /\ rx = None).
Proof.
  intros E. pose proof (split_law h) as Hl. rewrite E in Hl. destruct Hl as [(-> & ? & ?)|(He & -> & ->)]; [by left|right].
  split; [|done]. unfold noise_errort, is_success. pose proof base_law. rewrite (proj2 (Z.eqb_neq e _)) by (unfold NOISE_ERROR_NONE; lia).
  cbn [error_code]. apply Z.eqb_neq. lia.
Qed.

Lemma split_keeps `{!HandshakeLaws handshake cipher} id s c h e h' tx rx (msg : list Z) r s' : enclave_inv (Some id) s ->
  g_clients s !! id = Some c -> c_handshake c = Some h -> noise_handshakestate_split h = (e, h', (tx, rx)) ->
  (let! _ := client_update id (fun c => with_recv rx (with_send tx (with_handshake (Some h') c))) in
   let! _ := check (noise_errort err_NOISE__HANDSHAKESTATE__SPLIT__ e) in
   let! _ := client_update id (with_handshake None) in ret msg) s = Some (r, s') -> enclave_inv (Some id) s'.
Proof.
  intros Hi E Eh Esp. unfold bind, client_update, modify, check.
  destruct (split_success h e h' tx rx Esp) as [(-> & [tx' ->] & [rx' ->])|(-> & -> & ->)]; intros [= _ <-]; cbn [g_clients set_clients].
  - pose proof (client_update_inv (fun c => is_Some (c_handshake c)) (Some id) s id
      (fun c => with_handshake None (with_recv (Some rx') (with_send (Some tx') (with_handshake (Some h') c))))) as Hu.
    rewrite alter_alter_eq. apply Hu; [done|intros c' E'; rewrite E in E'; injection E' as <-; by rewrite Eh|].
    intros c' _ [(? & ? & ? & Hq)|(_ & ? & ? & ?)]; (split; [|done]); right; cbn; split_and!; try done. intros q. by rewrite Hq.
  - apply (client_update_inv (fun c => is_Some (c_handshake c))); [done|intros c' E'; rewrite E in E'; injection E' as <-; by rewrite Eh|].
    intros c' Hh [(_ & ? & ? & ?)|(Hn & _)]; [|rewrite Hn in Hh; by destruct Hh]. split; [|done]. left. done.
Qed.

Lemma handshake_keeps `{!HandshakeLaws handshake cipher} id input n : keeps (enclave_inv (Some id)) (handshake_body id input n).
Proof.
  unfold handshake_body. apply keeps_bind; [apply keeps_client_read|intros c0]. apply keeps_bind; [apply keeps_ensure|intros _].
  apply keeps_bind; [apply handshake_call_keeps|intros _]. apply keeps_bind; [apply handshake_expect_keeps|intros _].
  apply keeps_bind; [apply handshake_call_keeps|intros _]. apply keeps_bind; [apply handshake_expect_keeps|intros _].
  apply keeps_client_of. intros s c Hi E r s'. destruct (c_handshake c) as [h|] eqn:Eh; [|done]. rewrite (bind_step _ _ s h s) by done.
  destruct (noise_handshakestate_write_message h NOISE_HANDSHAKEWRITE_SIZE) as [[e h1] msg].
  rewrite (bind_step _ _ s tt (set_clients (alter (with_handshake (Some h1)) id (g_clients s)) s)) by done.
  pose proof (handshake_update id s c h1 Hi E ltac:(by rewrite Eh)) as Hi1. revert Hi1. generalize (set_clients (alter (with_handshake (Some h1)) id (g_clients s)) s).
  intros s1 Hi1 Hrun. match type of Hrun with ?m s1 = _ => assert (Hk : keeps (enclave_inv (Some id)) m); [|by apply (Hk s1 r s')] end.
  apply keeps_bind; [apply keeps_check|intros _]. apply keeps_bind; [apply keeps_ensure|intros _]. apply keeps_bind; [apply handshake_expect_keeps|intros _].
  apply keeps_client_of. intros s2 c2 Hi2 E2 r2 s2'. destruct (c_handshake c2) as [h2|] eqn:Eh2; [|done]. rewrite (bind_step _ _ s2 h2 s2) by done.
  destruct (noise_handshakestate_split h2) as [[e2 h2'] [tx rx]] eqn:Esp. by eapply split_keeps.
Qed.

(** *** Taking and releasing a client *)

Lemma acquire_inv stray id (s : State) u s' : enclave_inv None s -> client_get stray id s = Some (Ok u, s') -> enclave_inv (Some id) s'.
Proof.
  intros [Hi Hk Hs Hc]. unfold client_get, ASSERT_PLAUSIBLE_CLIENT, bind, ensure, gets, client_setacq.
  destruct (oe_is_within_enclave id); [|done]. cbn [ret]. destruct (negb (id =? client_secret_addr)); [|done]. cbn [ret].
  destruct (g_clients s !! id) as [c|] eqn:E; [|by destruct (_ =? _)]. destruct (acq c =? _); [|done]. intros [= _ <-].
  split; [|done|done|].
  - destruct Hi as [(_ & E0 & _)|?]; [|by right]. by rewrite E0 in E.
  - intros i c'. cbn [g_clients set_clients]. destruct (decide (Some id = Some i)) as [[= ->]|Hne].
    + rewrite lookup_insert_eq. intros [= <-]. split; [|done]. by destruct (Hc i c E).
    + rewrite lookup_insert_ne by congruence. intros E'. destruct (Hc i c' E') as [? Ha]. rewrite decide_False in Ha by done. done.
Qed.

Lemma get_failed stray id (s : State) e s' : client_get stray id s = Some (Err e, s') -> s' = s.
Proof.
  unfold client_get, ASSERT_PLAUSIBLE_CLIENT, bind, ensure, gets, client_setacq.
  destruct (oe_is_within_enclave id); [|by intros [= _ <-]]. cbn [ret]. destruct (negb (id =? client_secret_addr)); [|by intros [= _ <-]]. cbn [ret].
  destruct (g_clients s !! id) as [c|]; [destruct (acq c =? _)|destruct (stray id =? _)]; by intros [= <-] || done.
Qed.

Lemma release_inv stray id (s : State) r s' : enclave_inv (Some id) s -> client_setstate stray id CLIENT_INUSE CLIENT_UNUSED s = Some (r, s') -> enclave_inv None s'.
Proof.
  intros [Hi Hk Hs Hc]. unfold client_setstate, bind, gets, client_setacq.
  destruct (g_clients s !! id) as [c|] eqn:E.
  - destruct (Hc id c E) as [Hsh Ha]. rewrite decide_True in Ha by done. rewrite Ha, Z.eqb_refl. intros [= _ <-]. split; [|done|done|].
    + destruct Hi as [(_ & E0 & _)|?]; [|by right]. by rewrite E0 in E.
    + intros i c'. cbn [g_clients set_clients]. rewrite decide_False by done. destruct (decide (id = i)) as [<-|Hne].
      * rewrite lookup_insert_eq. intros [= <-]. done.
      * rewrite lookup_insert_ne by done. intros E'. destruct (Hc i c' E') as [? Ha']. by rewrite decide_False in Ha' by congruence.
  - assert (enclave_inv None s).
    { split; [done..|]. intros i c' E'. destruct (Hc i c' E') as [? Ha']. rewrite decide_False in Ha' by congruence. done. }
    destruct (stray id =? _); [done|]. by intros [= _ <-].
Qed.

Lemma with_client_keeps {A} stray id (body : M State A) : keeps (enclave_inv (Some id)) body -> keeps (enclave_inv None) (with_client stray id body).
Proof.
  intros Hb s r s' Hi. unfold with_client, bind. destruct (client_get stray id s) as [[[u|e] s1]|] eqn:E; [| |done].
  - pose proof (acquire_inv _ _ _ _ _ Hi E) as Hi1. unfold finally. destruct (body s1) as [[r1 s2]|] eqn:E1; [|done].
    destruct (client_setstate stray id CLIENT_INUSE CLIENT_UNUSED s2) as [[r2 s3]|] eqn:E2; [|done]. intros [= <- <-].
    eapply release_inv; [|exact E2]. by eapply Hb.
  - intros [= <- <-]. by apply get_failed in E as ->.
Qed.

(** *** Opening and closing *)

(** The state while client [id] is being made. *)
Definition at_client (s : State) (id : Z) (c : client_t handshake cipher) : State := set_clients (<[id := c]> (g_clients s)) s.

Lemma at_update s id c f : client_update id f (at_client s id c) = Some (Ok tt, at_client s id (f c)).
Proof.
  unfold client_update, modify, at_client. cbn [g_clients set_clients]. rewrite alter_insert_eq. done.
Qed.
Lemma at_client_of s id c : client_of id (at_client s id c) = Some (Ok c, at_client s id c).
Proof. unfold client_of, at_client. cbn [g_clients set_clients]. by rewrite lookup_insert_eq. Qed.
Lemma set_clients_id (s : State) : set_clients (g_clients s) s = s.
Proof. by destruct s. Qed.
Lemma at_free s id c : g_clients s !! id = None ->
  client_free id (at_client s id c) = if oe_is_within_enclave id then Some (Ok tt, s) else None.
Proof.
  intros E. unfold client_free, bind at 1, CHECK. destruct (oe_is_within_enclave id); [|done]. cbn [ret].
  rewrite (bind_step _ _ _ tt _ (at_update s id c _)). unfold modify, at_client. cbn [g_clients set_clients].
  rewrite delete_insert_id by done. do 2 f_equal. by destruct s.
Qed.
Lemma at_release stray s id c : acq c = client_acq s CLIENT_INUSE ->
  client_setstate stray id CLIENT_INUSE CLIENT_UNUSED (at_client s id c) = Some (Ok tt, at_client s id (with_acq (client_acq s CLIENT_UNUSED) c)).
Proof.
  intros E. unfold client_setstate, bind, gets, client_setacq, at_client. cbn [g_clients set_clients]. rewrite lookup_insert_eq.
  unfold client_acq in *. cbn [g_client_secret set_clients]. rewrite E, Z.eqb_refl. by rewrite insert_insert_eq.
Qed.

(** The part under the lock. *)
Lemma new_client_locked_run s id c n h : c_handshake c = Some h ->
  new_client_locked id n (at_client s id c) =
    if is_success (validate_privkey (g_privkey s)) then
      if (n <? length (g_handshakestart s))%nat then Some (Err err_ENCLAVE__NEWCLIENT__EREPORT_TOO_LARGE, at_client s id c)
      else
        let '(e, h) := noise_dhstate_set_keypair_private h (g_privkey s) in
        let c := with_handshake (Some h) c in
        let err := noise_errort err_NOISE__DHSTATE__SET_KEYPAIR_PRIVATE__ e in
        if is_success err then
          if oe_is_within_enclave id then Some (Ok (id, g_handshakestart s), at_client s id (with_acq (client_acq s CLIENT_INUSE) c))
          else Some (Err err_ENCLAVE__GENERAL__CLIENT_ADD_FAILED, at_client s id c)
        else Some (Err err, at_client s id c)
    else Some (Err (validate_privkey (g_privkey s)), at_client s id c).
Proof.
  intros Eh. unfold new_client_locked. rewrite (bind_step _ _ _ (g_privkey s) (at_client s id c)) by done. unfold check at 1.
  destruct (is_success (validate_privkey (g_privkey s))); [|done]. rewrite (bind_step _ _ _ tt (at_client s id c)) by done.
  rewrite (bind_step _ _ _ (g_handshakestart s) (at_client s id c)) by done.
  destruct (n <? length (g_handshakestart s))%nat; [done|]. rewrite (bind_step _ _ _ tt (at_client s id c)) by done.
  rewrite (bind_step _ _ _ _ _ (at_client_of s id c)), (bind_step _ _ _ h (at_client s id c)) by (by rewrite Eh).
  destruct (noise_dhstate_set_keypair_private h (g_privkey s)) as [e h']. rewrite (bind_step _ _ _ _ _ (at_update _ _ _ _)). cbv zeta. unfold check at 1.
  destruct (is_success (noise_errort err_NOISE__DHSTATE__SET_KEYPAIR_PRIVATE__ e)); [|done]. rewrite (bind_step _ _ _ tt (at_client s id (with_handshake (Some h') c))) by done.
  unfold client_add, ensure. destruct (oe_is_within_enclave id); [|done]. unfold bind at 2. cbn [ret]. unfold gets, bind at 2.
  rewrite (bind_step _ _ _ id (at_client s id (with_acq (client_acq s CLIENT_INUSE) (with_handshake (Some h') c)))); [done|].
  by rewrite (bind_step _ _ _ _ _ (at_update _ _ _ _)).
Qed.

Lemma check_init_run (s : State) : check_init_complete s =
  if g_init_done s =? ENCLAVE_INIT_INITIALIZED then Some (Ok tt, s) else Some (Err err_ENCLAVE__GENERAL__NOINIT, s).
Proof. unfold check_init_complete, bind, gets, ensure. by destruct (_ =? _). Qed.

(** A new client is in its handshake, with the enclave's key; a failed call
    leaves the clients as they were. *)
Lemma new_client_run stray a id en n s r s' : g_clients s !! id = None -> enclave_new_client stray a id en n s = Some (r, s') ->
  (exists e, r = Err e /\ s' = s) \/
  (r = Ok (id, g_handshakestart s) /\ g_init_done s = ENCLAVE_INIT_INITIALIZED /\
   s' = at_client s id {| acq := client_acq s CLIENT_UNUSED; workspace := 0; req := None;
     c_handshake := Some (noise_dhstate_set_keypair_private (noise_handshakestate_new_by_id en).2 (g_privkey s)).2; send := None; recv := None |}).
Proof.
  intros E. unfold enclave_new_client. unfold bind at 1. rewrite check_init_run.
  destruct (Z.eqb_spec (g_init_done s) ENCLAVE_INIT_INITIALIZED) as [Hd|]; [|intros [= <- <-]; left; by eexists].
  unfold bind at 1. destruct a; [|intros [= <- <-]; left; by eexists]. cbn [ensure ret].
  rewrite (bind_step _ _ _ tt (at_client s id zero_client)) by done. destruct (noise_handshakestate_new_by_id en) as [e h]. cbn [snd].
  unfold on_error. unfold check at 1.
  destruct (is_success (noise_errort err_NOISE__HANDSHAKESTATE__NEW__ e)).
  2:{ unfold bind at 1. cbn [fail]. rewrite at_free by done. destruct (oe_is_within_enclave id); [|done]. intros [= <- <-]. left. by eexists. }
  rewrite (bind_step _ _ _ tt (at_client s id zero_client)), (bind_step _ _ _ _ _ (at_update _ _ _ _)) by done.
  unfold bind at 1. rewrite (new_client_locked_run s id _ n h) by done.
  assert (Hfail : forall c err, match client_free id (at_client s id c) with Some (_, s0) => Some (Err err, s0) | None => None end = Some (r, s') ->
    exists e, r = Err e /\ s' = s).
  { intros c err. rewrite at_free by done. destruct (oe_is_within_enclave id); [|done]. intros [= <- <-]. by eexists. }
  destruct (is_success (validate_privkey (g_privkey s))); [|intros Hr; left; by eapply Hfail].
  destruct (n <? length (g_handshakestart s))%nat; [intros Hr; left; by eapply Hfail|].
  destruct (noise_dhstate_set_keypair_private h (g_privkey s)) as [e' h'] eqn:Ek. cbv zeta.
  destruct (is_success (noise_errort err_NOISE__DHSTATE__SET_KEYPAIR_PRIVATE__ e')); [|intros Hr; left; by eapply Hfail].
  destruct (oe_is_within_enclave id) eqn:Ew; [|intros Hr; left; by eapply Hfail].
  rewrite at_release by done. intros [= <- <-]. right. done.
Qed.

Lemma close_client_run stray cli (s : State) r s' : enclave_close_client stray cli s = Some (r, s') ->
  s' = s \/ s' = set_clients (delete cli (g_clients s)) s.
Proof.
  unfold enclave_close_client. unfold bind at 1. rewrite check_init_run. destruct (_ =? _); [|by intros [= _ <-]; left].
  unfold bind at 1, client_remove, ASSERT_PLAUSIBLE_CLIENT, bind at 1, bind at 1, ensure.
  destruct (oe_is_within_enclave cli) eqn:Ew; [|by intros [= _ <-]; left]. cbn [ret].
  destruct (negb (cli =? client_secret_addr)); [|by intros [= _ <-]; left]. cbn [ret]. unfold client_setacq.
  destruct (g_clients s !! cli) as [c|] eqn:E; [|destruct (stray cli =? _); [done|by intros [= _ <-]; left]].
  destruct (acq c =? _); [|by intros [= _ <-]; left]. fold (at_client s cli (with_acq CLIENT_ACQ_DEAD c)).
  unfold client_free. rewrite Ew. rewrite (bind_step _ _ _ tt (at_client s cli (with_acq CLIENT_ACQ_DEAD c))) by done.
  rewrite (bind_step _ _ _ _ _ (at_update _ _ _ _)). unfold modify, at_client. cbn [g_clients set_clients].
  rewrite delete_insert_eq. intros [= _ <-]. by right.
Qed.

Lemma delete_inv cli s : enclave_inv None s -> enclave_inv None (set_clients (delete cli (g_clients s)) s).
Proof.
  intros [Hi Hk Hs Hc]. split; [|done|done|].
  - destruct Hi as [(? & E & ?)|?]; [left|by right]. split; [done|]. split; [|done]. cbn [g_clients set_clients]. rewrite E. apply delete_empty.
  - intros i c. cbn [g_clients set_clients]. rewrite lookup_delete_Some. intros [_ E]. by apply Hc.
Qed.

Lemma new_client_inv stray a id en n s r s' : enclave_inv None s -> g_clients s !! id = None ->
  enclave_new_client stray a id en n s = Some (r, s') -> enclave_inv None s'.
Proof.
  intros [Hi Hk Hs Hc] E Hrun. destruct (new_client_run _ _ _ _ _ _ _ _ E Hrun) as [(e & _ & ->)|(_ & Hd & ->)]; [done|].
  split; [|done|done|].
  - destruct Hi as [(Hd' & _)|?]; [rewrite Hd' in Hd; done|by right].
  - intros i c. unfold at_client. cbn [g_clients set_clients]. destruct (decide (id = i)) as [<-|].
    + rewrite lookup_insert_eq. intros [= <-]. split; [|done]. left. split; [by eexists|done].
    + rewrite lookup_insert_ne by done. intros E'. destruct (Hc i c E') as [? Ha]. done.
Qed.

(** *** Initialisation and attestation *)

Lemma generate_valid random key err key' : generate_privkey random key = (err, key') -> is_success err = true -> validate_privkey key' = err_SUCCESS.
Proof.
  unfold generate_privkey. destruct random; intros [= <- <-]; [|done]. unfold validate_privkey. by repeat case_match.
Qed.

Lemma init_body_run k m h x n ts (s : State) r s' : init_body k m h x n ts s = Some (r, s') ->
  g_init_done s' = g_init_done s /\ g_clients s' = g_clients s /\ g_handshakestart s' = g_handshakestart s /\ g_ratelimit s' = g_ratelimit s /\
  (forall u, r = Ok u -> is_Some (g_table s') /\ secret_ok (g_client_secret s') /\ validate_privkey (g_privkey s') = err_SUCCESS).
Proof.
  unfold init_body. rewrite (bind_step _ _ _ (g_privkey s) s) by done. destruct (generate_privkey k (g_privkey s)) as [err key] eqn:Eg.
  rewrite (bind_step _ _ _ tt (set_keys (g_handshakestart s) key s)) by done. unfold check.
  destruct (is_success err) eqn:Es; [|by intros [= <- <-]; split_and!]. pose proof (generate_valid _ _ _ _ Eg Es) as Hv.
  rewrite !(bind_step _ _ _ tt _ eq_refl). destruct m; [|done]. rewrite (bind_step _ _ _ tt _ eq_refl).
  destruct h as [hk|]; [|done]. rewrite (bind_step _ _ _ hk _ eq_refl). destruct x as [sx|]; [|done]. rewrite (bind_step _ _ _ sx _ eq_refl).
  rewrite (bind_step _ _ _ tt _ eq_refl). destruct (sharded_ohtable_create RECORD_SIZE hk ts) as [t|]; [|done]. rewrite (bind_step _ _ _ t _ eq_refl).
  intros [= <- <-]. split_and!; [done..|]. intros u _. split; [by eexists|]. split; [apply client_secret_ok|done].
Qed.

Lemma init_inv lf a f k m h x n ts (s : State) r s' : enclave_inv None s -> enclave_init lf a f k m h x n ts s = Some (r, s') -> enclave_inv None s'.
Proof.
  intros Hinv. unfold enclave_init, ensure. destruct (_ && _); [|by intros [= _ <-]]. rewrite (bind_step _ _ _ tt _ eq_refl).
  destruct (a || _); [|by intros [= _ <-]]. rewrite (bind_step _ _ _ tt _ eq_refl). destruct (f || _); [|by intros [= _ <-]].
  rewrite (bind_step _ _ _ tt _ eq_refl), (bind_step _ _ _ (g_init_done s) s) by done.
  destruct (Z.eqb_spec (g_init_done s) ENCLAVE_INIT_UNINITIALIZED) as [Hd|]; [|by intros [= _ <-]]. rewrite !(bind_step _ _ _ tt _ eq_refl).
  destruct Hinv as [[(_ & Hc & Hst)|(Hd' & _)] Hk Hs _]; [|rewrite Hd' in Hd; done].
  destruct (init_body k m h x n ts (set_init ENCLAVE_INIT_INITIALIZING s)) as [[r1 s1]|] eqn:E; [|done].
  destruct (init_body_run _ _ _ _ _ _ _ _ _ E) as (Ei & Ec & Eh & Er & Hok). cbn in Ei, Ec, Eh, Er.
  unfold init_finish, bind, gets. rewrite Ei. cbn [CHECK ret Z.eqb]. change (CHECK (_ =? _)) with (ret (S := State) tt). cbn [ret]. intros [= <- <-].
  split; cbn; rewrite ?Ec, ?Eh, ?Er, ?Hc.
  - destruct r1 as [u|e]; [right|by left; rewrite Hst]. split; [done|]. by eapply Hok.
  - left. cbn. by rewrite Eh.
  - done.
  - intros i c. by rewrite lookup_empty.
Qed.

Lemma attest_run a k (s : State) r s' : enclave_attest a k s = Some (r, s') ->
  s' = s \/ exists pubkey start key, s' = set_keys start key s /\ g_init_done s = ENCLAVE_INIT_INITIALIZED /\ validate_privkey key = err_SUCCESS /\
    noise_pubkey_from_privkey key = Ok pubkey /\ wrap_in_ereport pubkey HANDSHAKESTART_SIZE = Ok start.
Proof.
  unfold enclave_attest. unfold bind at 1. rewrite check_init_run. destruct (Z.eqb_spec (g_init_done s) ENCLAVE_INIT_INITIALIZED) as [Hd|]; [|by intros [= _ <-]; left].
  destruct (generate_privkey k (replicate NOISE_KEY_SIZE 0)) as [err key] eqn:Eg. unfold check. destruct (is_success err) eqn:Es; [|by intros [= _ <-]; left].
  rewrite (bind_step _ _ _ tt _ eq_refl). destruct (noise_pubkey_from_privkey key) as [pubkey|e] eqn:Ep; [|by intros [= _ <-]; left].
  rewrite (bind_step _ _ _ pubkey _ eq_refl). unfold ensure. destruct (negb _); [|by intros [= _ <-]; left]. rewrite (bind_step _ _ _ tt _ eq_refl).
  destruct a; [|by intros [= _ <-]; left]. rewrite (bind_step _ _ _ tt _ eq_refl).
  destruct (wrap_in_ereport pubkey HANDSHAKESTART_SIZE) as [start|e] eqn:Ew; [|by intros [= _ <-]; left]. rewrite (bind_step _ _ _ start _ eq_refl).
  intros [= _ <-]. right. exists pubkey, start, key. split_and!; [done|done|by eapply generate_valid|done|done].
Qed.

Lemma attest_inv a k (s : State) r s' : enclave_inv None s -> enclave_attest a k s = Some (r, s') -> enclave_inv None s'.
Proof.
  intros Hinv Hrun. destruct (attest_run _ _ _ _ _ Hrun) as [->|(pubkey & start & key & -> & Hd & Hv & Hp & Hw)]; [done|].
  destruct Hinv as [Hi Hk Hs Hc]. split; [|right; by exists pubkey|done|done].
  destruct Hi as [(Hd' & _)|(? & ? & ? & _)]; [rewrite Hd' in Hd; done|by right].
Qed.

(** *** Loading *)

Lemma set_table_inv t (s : State) : enclave_inv None s -> is_Some (g_table s) -> enclave_inv None (set_table (Some t) s).
Proof.
  intros [Hi Hk Hs Hc] Ht. split; [|done|done|done]. destruct Hi as [?|(? & _ & ? & ?)]; [by left|right]. split; [done|]. split; [by eexists|done].
Qed.

Lemma set_secret_ok g bs err g' : length (g_shared_secret_bytes g) = 64%nat -> (g_shared_secret_size g <= 64)%nat ->
  ratelimit_set_shared_secret g bs = (err, g') -> length (g_shared_secret_bytes g') = 64%nat /\ (g_shared_secret_size g' <= 64)%nat.
Proof.
  intros Hl Hs. unfold ratelimit_set_shared_secret. destruct (Nat.leb_spec (length bs) 64); intros [= _ <-]; [|done]. cbn.
  rewrite length_app, length_drop, Hl. lia.
Qed.

Lemma set_ratelimit_inv g (s : State) : enclave_inv None s -> length (g_shared_secret_bytes g) = 64%nat -> (g_shared_secret_size g <= 64)%nat ->
  enclave_inv None (set_ratelimit g s).
Proof. intros [Hi Hk Hs Hc] ??. by split. Qed.

Lemma load_keeps a pb : keeps (enclave_inv None) (enclave_load_pb (RAM := RAM) (handshake := handshake) (cipher := cipher) a pb).
Proof.
  unfold enclave_load_pb. apply keeps_bind; [unfold check_init_complete; auto with keeps|intros _]. apply keeps_bind; [apply keeps_ensure|intros _].
  apply keeps_bind; [apply keeps_ensure|intros _]. apply keeps_bind; [apply keeps_the|intros q]. apply keeps_bind; [|intros _].
  { destruct (0 <? length (shared_token_secret q))%nat; [|apply keeps_ret]. apply keeps_bind_gets. intros s Hi.
    destruct (ratelimit_set_shared_secret (g_ratelimit s) (shared_token_secret q)) as [err g] eqn:Eg. intros r s' Hrun.
    destruct (ei_secret _ _ Hi) as [Hl Hs]. destruct (set_secret_ok _ _ _ _ Hl Hs Eg). rewrite (bind_step _ _ _ tt _ eq_refl) in Hrun.
    eapply keeps_check; [|exact Hrun]. by apply set_ratelimit_inv. }
  apply keeps_bind_gets. intros s Hi. destruct (g_table s) as [t0|] eqn:Et; [|done]. rewrite (bind_step _ _ _ t0 _ eq_refl).
  set (m := if clear_all q then _ else _). assert (Hm : m = must (if clear_all q then sharded_ohtable_clear t0 else Some t0)) by (unfold m; by destruct (clear_all q)).
  rewrite Hm. destruct (if clear_all q then sharded_ohtable_clear t0 else Some t0) as [t1|]; [|done]. intros r s'.
  rewrite (bind_step _ _ _ t1 _ eq_refl), (bind_step _ _ _ tt _ eq_refl). assert (Hi1 : enclave_inv None (set_table (Some t1) s)) by (apply set_table_inv; [done|by rewrite Et]).
  unfold ensure. destruct (_ =? 0)%nat; [|by intros [= _ <-]]. rewrite (bind_step _ _ _ tt _ eq_refl).
  destruct (sharded_ohtable_put_batch t1 _ _) as [[err t2]|]; [|done]. rewrite (bind_step _ _ _ (err, t2) _ eq_refl), (bind_step _ _ _ tt _ eq_refl).
  intros Hrun. eapply keeps_check; [|exact Hrun]. apply set_table_inv; [done|by eexists].
Qed.

Lemma statistics_keeps a create n : keeps (enclave_inv None) (enclave_table_statistics (RAM := RAM) (handshake := handshake) (cipher := cipher) a create n).
Proof.
  unfold enclave_table_statistics. apply keeps_bind; [unfold check_init_complete; auto with keeps|intros _]. apply keeps_bind; [apply keeps_ensure|intros _].
  apply keeps_bind_gets. intros s Hi. destruct (g_table s) as [t0|] eqn:Et; [|done]. rewrite (bind_step _ _ _ t0 _ eq_refl). intros r s'.
  destruct (sharded_ohtable_report_statistics create t0) as [stats t1]. rewrite (bind_step _ _ _ tt _ eq_refl). set (m := bind _ _).
  assert (Hm : keeps (enclave_inv None) m) by (unfold m; auto 10 with keeps). apply Hm, set_table_inv; [done|by rewrite Et].
Qed.

(** *** All calls *)

Lemma guarded_keeps {A} (m : M State A) : keeps (enclave_inv None) m -> keeps (enclave_inv None) (bind check_init_complete (fun _ => m)).
Proof. intros Hm. apply keeps_bind; [unfold check_init_complete; auto with keeps|done]. Qed.

Lemma enclave_call_inv `{!HandshakeLaws handshake cipher} s s' : enclave_inv None s -> enclave_call s s' -> enclave_inv None s'.
Proof.
  intros Hi Hcall. destruct Hcall as [s lf a f k m h x n ts r s' Hrun|s a k r s' Hrun|s stray a id e n r s' E Hrun|s stray cli r s' Hrun|
    s stray cli i n r s' Hrun|s stray a ws x cli i n o m r s' Hrun|s stray a pa rnd k mem st cli p i n r s' Hrun|s a pb r s' Hrun|s f r s' Hrun|s f i r s' Hrun|s a st n r s' Hrun].
  - by eapply init_inv.
  - by eapply attest_inv.
  - by eapply new_client_inv.
  - destruct (close_client_run _ _ _ _ _ Hrun) as [->| ->]; [done|by apply delete_inv].
  - exact (guarded_keeps _ (with_client_keeps stray cli _ (handshake_keeps cli i n)) _ _ _ Hi Hrun).
  - exact (guarded_keeps _ (with_client_keeps stray cli _ (rate_limit_keeps a ws x cli i n o m)) _ _ _ Hi Hrun).
  - exact (guarded_keeps _ (with_client_keeps stray cli _ (run_keeps a pa rnd k mem st cli p i n)) _ _ _ Hi Hrun).
  - by eapply load_keeps.
  - refine (guarded_keeps _ _ _ _ _ Hi Hrun). auto 10 with keeps.
  - refine (guarded_keeps _ _ _ _ _ Hi Hrun). auto 10 with keeps.
  - by eapply statistics_keeps.
Qed.

Lemma enclave_reachable_inv `{!HandshakeLaws handshake cipher} s : enclave_reachable s -> enclave_inv None s.
Proof. induction 1 as [|s s' _ IH Hcall]; [apply enclave_start_inv|by eapply enclave_call_inv]. Qed.
End Calls.
