(* ===== verification/EnclaveRun.v ===== *)
(** * What the calls on a client compute

    The bodies of [enclave_rate_limit] and [enclave_run], run forward on a client
    that no other call uses. *)

From stdpp Require Import gmap.
From S2P Require Import Prelude Errors Util OddEvenSort Statistics PositionMap OramInterface OHTable OHTableSpec Shard ShardTheorems ShardedOHTable ShardedTable ShardedPut ShardedGet HalfSipHash FixedSet Messages RateLimit AciPniUak Noise StateError Enclave Clients EnclaveSpec.
Local Open Scope Z_scope.

Section Forward.
Context {RAM : Type} `{ObliviousRam RAM} {handshake cipher : Type} `{!NoiseLibrary cipher} `{!EnclaveLibrary handshake cipher}.
Local Notation State := (enclave RAM handshake cipher).

(** A client that a call can take. *)
Record client_ready (s : State) (cli : Z) (c : client_t handshake cipher) : Prop := {
  cr_init : g_init_done s = ENCLAVE_INIT_INITIALIZED;
  cr_within : oe_is_within_enclave cli = true;
  cr_not_secret : cli <> client_secret_addr;
  cr_client : g_clients s !! cli = Some c;
  cr_unused : acq c = client_acq s CLIENT_UNUSED;
}.

Lemma at_id (s : State) cli c : g_clients s !! cli = Some c -> at_client s cli c = s.
Proof. intros E. unfold at_client. rewrite insert_id by done. apply set_clients_id. Qed.

(** The states that share the client secret. *)
Lemma with_client_run {A} stray (body : M State A) (s s1 : State) cli c c1 r : client_ready s cli c ->
  body (at_client s cli (with_acq (client_acq s CLIENT_INUSE) c)) = Some (r, at_client s1 cli c1) -> acq c1 = client_acq s1 CLIENT_INUSE ->
  (let! _ := check_init_complete in with_client stray cli body) s = Some (r, at_client s1 cli (with_acq (client_acq s1 CLIENT_UNUSED) c1)).
Proof.
  intros [Hi Hw Hn E Hu] Hb Ha. unfold bind at 1. rewrite check_init_run, Hi. change (ENCLAVE_INIT_INITIALIZED =? ENCLAVE_INIT_INITIALIZED) with true. cbv iota beta.
  assert (Hget : client_get stray cli s = Some (Ok tt, at_client s cli (with_acq (client_acq s CLIENT_INUSE) c))).
  { unfold client_get, ASSERT_PLAUSIBLE_CLIENT, bind, ensure, gets, client_setacq. rewrite Hw. cbn [ret]. rewrite (proj2 (Z.eqb_neq _ _) Hn). cbn [negb ret].
    by rewrite E, Hu, Z.eqb_refl. }
  unfold with_client. rewrite (bind_step _ _ _ _ _ Hget). unfold finally. rewrite Hb, at_release by done. done.
Qed.

(** The messages of the channel. *)
Lemma decrypt_run (s : State) cli c rx input rx' data n : recv c = Some rx ->
  noise_decrypt_message_inplace rx input = Some (err_SUCCESS, rx', data, n) ->
  client_decrypt cli input (at_client s cli c) = Some (Ok (take n data), at_client s cli (with_recv (Some rx') c)).
Proof.
  intros Hr Hd. unfold client_decrypt. rewrite (bind_step _ _ _ _ _ (at_client_of s cli c)), Hr, (bind_step _ _ _ rx _ eq_refl), Hd.
  rewrite (bind_step _ _ _ _ _ eq_refl), (bind_step _ _ _ _ _ (at_update _ _ _ _)). done.
Qed.

Lemma encrypt_run (sync : cipher -> cipher -> Prop) `{!NoisePair sync} (s : State) cli c tx rx plaintext n : send c = Some tx -> sync tx rx ->
  (wire_size (length plaintext) <= n)%nat -> Z.of_nat n < 2 ^ 64 ->
  exists out tx' rx' plain, client_encrypt cli plaintext n (at_client s cli c) = Some (Ok out, at_client s cli (with_send (Some tx') c)) /\ sync tx' rx' /\
    noise_decrypt_message_inplace rx out = Some (err_SUCCESS, rx', plain, length plaintext) /\ take (length plaintext) plain = plaintext.
Proof.
  intros Hs Hsync Hw H64. destruct (channel_spec sync tx rx plaintext (replicate n 0) Hsync ltac:(by rewrite length_replicate)) as [Hok _].
  rewrite length_replicate in Hok. destruct (Hok Hw) as (tx' & rx' & buf' & plain & Henc & _ & Hsync' & Hdec & Hp).
  exists (take (wire_size (length plaintext)) buf'), tx', rx', plain. split; [|done].
  unfold client_encrypt. rewrite (bind_step _ _ _ _ _ (at_client_of s cli c)), Hs, (bind_step _ _ _ tx _ eq_refl), Henc.
  rewrite (bind_step _ _ _ _ _ eq_refl), (bind_step _ _ _ _ _ (at_update _ _ _ _)). done.
Qed.

(** ** Rate limit *)

(** What a call of [enclave_rate_limit] needs to succeed. *)
Record rate_limit_ready (sync : cipher -> cipher -> Prop) (s : State) (cli : Z) (c : client_t handshake cipher) (ws : Z) (input : list Z) (out_size : nat)
    (r : client_request_t) (rx' tx crx : cipher) (entropy : list Z) : Prop := {
  rr_client : client_ready s cli c;
  rr_no_req : req c = None /\ workspace c = 0;
  rr_send : send c = Some tx /\ sync tx crx;
  rr_input : exists rx data n, recv c = Some rx /\ noise_decrypt_message_inplace rx input = Some (err_SUCCESS, rx', data, n) /\
    client_request_decode ws (take n data) = Some r /\ client_request_new (Z.of_nat (length (take n data)) [+] client_request_base) = true;
  rr_ws : ws <> 0;
  rr_sizes : request_sizes_ok r = true;
  rr_valid : ratelimit_validate_received_rate_limit_token sha256 true (g_ratelimit s) r = err_SUCCESS;
  rr_entropy : length entropy = RATELIMIT_ENTROPY_SIZE;
  rr_response : client_response_new 128 = true;
  rr_encode rsp : length (rsp_token rsp) = RATELIMIT_TOKEN_SIZE -> e164_pni_aci_triples rsp = [] ->
    exists pt, client_response_encode rsp out_size = Some pt /\ (wire_size (length pt) <= out_size)%nat;
  rr_out : Z.of_nat out_size < 2 ^ 64;
}.

Lemma sizes_mod r : request_sizes_ok r = true -> (length (bytes (prev_e164s r)) mod 8 = 0)%nat /\ (length (bytes (new_e164s r)) mod 8 = 0)%nat /\
  (length (bytes (aci_uak_pairs r)) mod 32 = 0)%nat.
Proof.
  unfold request_sizes_ok, size. intros Hs. breflect.
  change (4 * 8 - 1) with (Z.ones 5) in *. change (8 - 1) with (Z.ones 3) in *. rewrite !Z.land_ones in * by lia.
  change (2 ^ 3) with (Z.of_nat 8) in *. change (2 ^ 5) with (Z.of_nat 32) in *. rewrite <- !Nat2Z.inj_mod in *. lia.
Qed.

(** What the call gives: the new token in an encrypted response, its hash and
    the old one's, the number of new numbers, and the request kept. *)
Record rate_limited (sync : cipher -> cipher -> Prop) (s : State) (cli : Z) (c : client_t handshake cipher) (ws : Z) (out_size : nat)
    (r : client_request_t) (rx' crx : cipher) (entropy : list Z) (out : rate_limit_out) (s' : State) (tok : list Z) : Prop := {
  rd_token : ratelimit_compute_token sha256 true (g_ratelimit s) (bytes (prev_e164s r)) (bytes (new_e164s r))
    ((RATELIMIT_VERSION :: entropy) ++ replicate 32 0) = Ok tok;
  rd_new_hash : rl_new_token_hash out = sha256 tok;
  rd_old_hash : rl_old_token_hash out = if size (token r) =? 0 then [] else ratelimit_token_hash sha256 (bytes (token r));
  rd_size : rl_computed_request_size out = Z.of_nat (length (u64s_of (bytes (new_e164s r))));
  rd_out : exists pt tx' crx' plain, client_response_encode {| e164_pni_aci_triples := []; rsp_token := tok; debug_permits_used := 0 |} out_size = Some pt /\
    noise_decrypt_message_inplace crx (rl_out out) = Some (err_SUCCESS, crx', plain, length pt) /\ take (length pt) plain = pt /\ sync tx' crx' /\
    s' = at_client s cli {| acq := client_acq s CLIENT_UNUSED; workspace := ws; req := Some r; c_handshake := c_handshake c; send := Some tx'; recv := Some rx' |};
}.

Lemma shift3_count (l : list Z) : Z.of_nat (length l) [>>] 3 = Z.of_nat (length (u64s_of l)).
Proof. rewrite shr64_div, u64s_of_length by lia. by rewrite Nat2Z.inj_div. Qed.

Lemma rate_limit_spec (sync : cipher -> cipher -> Prop) `{!NoisePair sync} stray s cli c ws input out_size r rx' tx crx entropy o m :
  (forall x, length (sha256 x) = 32%nat) -> rate_limit_ready sync s cli c ws input out_size r rx' tx crx entropy ->
  (RATELIMIT_TOKENHASH_SIZE <= o)%nat -> (RATELIMIT_TOKENHASH_SIZE <= m)%nat ->
  exists out s' tok, enclave_rate_limit stray (fun _ => true) ws (Some entropy) cli input out_size o m s = Some (Ok out, s') /\
    rate_limited sync s cli c ws out_size r rx' crx entropy out s' tok.
Proof.
  intros Hsha [Hc [Hreq Hws] [Hsend Hsync] (rx & data & n & Hrecv & Hdec & Hdecode & Hnew) Hwsne Hsz Hval Hen Hrsp Henc H64] Ho Hm.
  destruct (sizes_mod r Hsz) as (Hp & Hn & _).
  destruct (merge_ok (bytes (prev_e164s r)) (bytes (new_e164s r)) Hp Hn) as (sorted & Hmerge & _).
  assert (exists tok, ratelimit_compute_token sha256 true (g_ratelimit s) (bytes (prev_e164s r)) (bytes (new_e164s r)) ((RATELIMIT_VERSION :: entropy) ++ replicate 32 0) = Ok tok) as [tok Htok].
  { rewrite compute_token_spec, Hmerge; [by eexists|done|]. by rewrite length_app, length_replicate; simpl; rewrite Hen. }
  assert (length (RATELIMIT_VERSION :: entropy) = 33%nat) as H33 by (simpl; by rewrite Hen).
  destruct (issued_token sha256 Hsha true _ _ _ _ tok H33 Htok) as (_ & _ & _ & Hlt & _).
  destruct (Henc {| e164_pni_aci_triples := []; rsp_token := tok; debug_permits_used := 0 |} Hlt eq_refl) as (pt & Hpt & Hwire).
  set (c0 := with_acq (client_acq s CLIENT_INUSE) c). set (c1 := with_recv (Some rx') c0). set (c2 := with_req (Some r) (with_workspace ws c1)).
  destruct (encrypt_run sync s cli c2 tx crx pt out_size Hsend Hsync Hwire H64) as (out & tx' & crx' & plain & Hrun & Hsync' & Hcdec & Hplain).
  eexists _, _, tok. split.
  { eapply (with_client_run stray _ s s cli c _ _ Hc); [|exact (eq_refl : acq (with_send (Some tx') c2) = client_acq s CLIENT_INUSE)]. fold c0. unfold rate_limit_body.
    rewrite (bind_step _ _ _ _ _ (at_client_of s cli c0)). cbn [req send recv workspace c0 with_acq]. rewrite Hreq, Hsend, Hrecv, Hws.
    rewrite (proj2 (Nat.leb_le _ _) Ho), (proj2 (Nat.leb_le _ _) Hm). change (0 =? 0) with true. unfold ensure. rewrite !(bind_step _ _ _ tt _ eq_refl).
    rewrite (bind_step _ _ _ _ _ (decrypt_run s cli c0 rx input rx' data n Hrecv Hdec)). fold c1. rewrite (bind_step _ _ _ _ _ (at_update s cli c1 _)).
    rewrite (proj2 (Z.eqb_neq _ _) Hwsne), Hnew, Hdecode. cbn [negb]. rewrite !(bind_step _ _ _ tt _ eq_refl), (bind_step _ _ _ r _ eq_refl), Hsz.
    rewrite (bind_step _ _ _ tt _ eq_refl), (bind_step _ _ _ _ _ (at_update s cli (with_workspace ws c1) _)). fold c2.
    rewrite bind_gets. change (g_ratelimit (at_client s cli c2)) with (g_ratelimit s). rewrite Hval.
    rewrite (bind_step _ _ _ tt _ eq_refl), (bind_step _ _ _ entropy _ eq_refl), Htok.
    rewrite (bind_step _ _ _ tok _ eq_refl), Hrsp, !(bind_step _ _ _ tt _ eq_refl). rewrite Hpt, (bind_step _ _ _ pt _ eq_refl).
    rewrite (bind_step _ _ _ _ _ Hrun). reflexivity. }
  split; [done| |done|apply shift3_count|].
  - unfold ratelimit_token_hash. cbn [rl_new_token_hash]. by rewrite take_ge by (rewrite Hlt; done).
  - exists pt, tx', crx', plain. done.
Qed.
End Forward.

(** ** The numbers of a request *)

Definition numbers (f : pbtools_bytes_t) : list Z := u64s_of (bytes f).

(** A field in memory: the words of its buffer, none for a null pointer. *)
Record field_at (mem : Z -> Z) (f : pbtools_bytes_t) : Prop := {
  fa_words i : (i < length (numbers f))%nat -> mem (buf_p f + 8 * Z.of_nat i) = nth i (numbers f) 0;
  fa_null : buf_p f = 0 -> bytes f = [];
  fa_size : (length (bytes f) mod 8 = 0)%nat;
}.

(** The buffers do not overlap, and an empty field of previous numbers does not
    share its address with the new ones. *)
Record laid_out (mem : Z -> Z) (r : client_request_t) : Prop := {
  lo_mem a : is_u64 (mem a);
  lo_prev : field_at mem (prev_e164s r);
  lo_new : field_at mem (new_e164s r);
  lo_order : buf_p (prev_e164s r) <> 0 -> buf_p (new_e164s r) <> 0 ->
    (buf_p (prev_e164s r) < buf_p (new_e164s r) /\ buf_p (prev_e164s r) + size (prev_e164s r) <= buf_p (new_e164s r)) \/
    buf_p (new_e164s r) + size (new_e164s r) <= buf_p (prev_e164s r);
}.

(** The buffers in the order of [e164s_order]. *)
Definition e164_fields (r : client_request_t) : pbtools_bytes_t * pbtools_bytes_t :=
  if (buf_p (prev_e164s r) =? 0) || (negb (buf_p (new_e164s r) =? 0) && (buf_p (prev_e164s r) <? buf_p (new_e164s r)))
  then (prev_e164s r, new_e164s r) else (new_e164s r, prev_e164s r).

Lemma numbers_size mem f : field_at mem f -> size f = 8 * Z.of_nat (length (numbers f)).
Proof.
  intros [_ _ Hs]. unfold size, numbers. rewrite u64s_of_length. pose proof (Nat.div_mod_eq (length (bytes f)) 8). lia.
Qed.

(** The two arrays of the loop: the second follows the first. *)
Lemma order_spec mem r : laid_out mem r ->
  let '(f, g) := e164_fields r in let '(a_size, a, b) := e164s_order r in
  a_size = Z.of_nat (length (numbers f)) /\ b = buf_p g /\
  ((a = buf_p f /\ buf_p f <> 0 /\ b <> 0 /\ a + 8 * a_size <= b) \/ (a = b /\ a_size = 0 /\ numbers f = [])).
Proof.
  intros [_ Hp Hn Ho]. pose proof (numbers_size _ _ Hp) as Ep. pose proof (numbers_size _ _ Hn) as En.
  assert (Hnil : forall f, field_at mem f -> buf_p f = 0 -> numbers f = []) by (intros f [_ H _] E; unfold numbers; by rewrite H).
  unfold e164_fields, e164s_order. destruct (Z.eqb_spec (buf_p (prev_e164s r)) 0) as [E|E].
  { cbn [orb]. rewrite (Hnil _ Hp E). split_and!; [done..|]. by right. }
  destruct (Z.eqb_spec (buf_p (new_e164s r)) 0) as [E'|E'].
  { cbn [orb negb andb]. rewrite (Hnil _ Hn E'). split_and!; [done..|]. by right. }
  cbn [orb negb andb]. specialize (Ho E E'). destruct (Z.ltb_spec (buf_p (prev_e164s r)) (buf_p (new_e164s r))).
  - rewrite Ep, Z.mul_comm, Z.div_mul by lia. split_and!; [done..|]. left. split_and!; [done..|lia].
  - rewrite En, Z.mul_comm, Z.div_mul by lia. split_and!; [done..|]. left. split_and!; [done..|lia].
Qed.

Lemma fields_at mem r : laid_out mem r -> field_at mem (e164_fields r).1 /\ field_at mem (e164_fields r).2.
Proof. intros [_ Hp Hn _]. unfold e164_fields. by destruct (_ || _). Qed.

Lemma fields_perm r : numbers (e164_fields r).1 ++ numbers (e164_fields r).2 ≡ₚ numbers (prev_e164s r) ++ numbers (new_e164s r).
Proof. unfold e164_fields. destruct (_ || _); [done|apply Permutation_app_comm]. Qed.

Lemma gather_spec mem r : laid_out mem r ->
  gather_e164s mem r (length (numbers (prev_e164s r)) + length (numbers (new_e164s r))) = numbers (e164_fields r).1 ++ numbers (e164_fields r).2.
Proof.
  intros Hlo. rewrite <- length_app, <- fields_perm, length_app.
  destruct (fields_at mem r Hlo) as [Hf Hg]. pose proof (order_spec mem r Hlo) as Hord. unfold gather_e164s, e164_reads.
  destruct (e164_fields r) as [f g], (e164s_order r) as [[a_size a] b]. cbn [fst snd] in *. destruct Hord as (-> & -> & Ha).
  apply nth_ext with (d := 0) (d' := 0); [by rewrite length_map, length_seq, length_app|]. rewrite length_map, length_seq. intros i Hi.
  rewrite (nth_indep _ 0 (U64_TERNARY (Z.of_nat 0 <? Z.of_nat (length (numbers f))) (mem (a + 8 * Z.of_nat 0)) (mem (buf_p g + 8 * Z.of_nat 0 - 8 * Z.of_nat (length (numbers f))))))
    by by rewrite length_map, length_seq.
  rewrite (map_nth (fun i => U64_TERNARY (Z.of_nat i <? Z.of_nat (length (numbers f))) (mem (a + 8 * Z.of_nat i)) (mem (buf_p g + 8 * Z.of_nat i - 8 * Z.of_nat (length (numbers f)))))), seq_nth by done.
  rewrite U64_TERNARY_spec by apply Hlo. cbn [Nat.add]. destruct (Z.ltb_spec (Z.of_nat i) (Z.of_nat (length (numbers f)))).
  - rewrite app_nth1 by lia. destruct Ha as [(-> & _)|(_ & E & _)]; [|lia]. apply Hf. lia.
  - rewrite app_nth2 by lia. rewrite <- (fa_words _ _ Hg) by lia. f_equal. lia.
Qed.

(** Every word that the loop reads is in a part of memory that holds both
    buffers. *)
Lemma reads_spec mem r lo hi i : laid_out mem r ->
  (forall f, f = prev_e164s r \/ f = new_e164s r -> buf_p f <> 0 -> lo <= buf_p f /\ buf_p f + size f <= hi) ->
  (i < length (numbers (prev_e164s r)) + length (numbers (new_e164s r)))%nat ->
  let '(x, y) := e164_reads r (Z.of_nat i) in lo <= x /\ x + 8 <= hi /\ lo <= y /\ y + 8 <= hi.
Proof.
  intros Hlo Hws. rewrite <- length_app, <- fields_perm, length_app. intros Hi.
  destruct (fields_at mem r Hlo) as [Hf Hg]. pose proof (order_spec mem r Hlo) as Hord. unfold e164_reads.
  assert (Hwf : forall f, f = (e164_fields r).1 \/ f = (e164_fields r).2 -> buf_p f <> 0 -> lo <= buf_p f /\ buf_p f + size f <= hi).
  { intros f Hor. apply Hws. revert Hor. unfold e164_fields. destruct (_ || _); cbn [fst snd]; tauto. }
  pose proof (fa_null _ _ Hg) as Hgn.
  destruct (e164_fields r) as [f g], (e164s_order r) as [[a_size a] b]. cbn [fst snd] in *. destruct Hord as (-> & -> & Ha).
  pose proof (numbers_size _ _ Hf) as Ef. pose proof (numbers_size _ _ Hg) as Eg. pose proof (Hwf f (or_introl eq_refl)) as Hwf1. pose proof (Hwf g (or_intror eq_refl)) as Hwf2.
  assert (Hgnil : buf_p g = 0 -> length (numbers g) = 0%nat) by (intros E; unfold numbers; by rewrite Hgn).
  destruct (Z.eq_dec (buf_p g) 0) as [E|E]; [specialize (Hgnil E)|specialize (Hwf2 E)]; destruct Ha as [(-> & Hne & Hnb & Hab)|(-> & Hz & ->)]; simpl in *; try specialize (Hwf1 Hne); lia.
Qed.

(** ** Run *)

Section Run.
Context {RAM : Type} `{ObliviousRamSpec RAM} {handshake cipher : Type} `{!NoiseLibrary cipher} `{!EnclaveLibrary handshake cipher} (nb : nat).
Local Notation State := (enclave RAM handshake cipher).

Definition no_triple : e164_pni_aci_triple := {| tri_e164 := 0; tri_pni := (0, 0); tri_aci := (0, 0) |}.

(** What the client with these pairs learns of a number. *)
Definition answer (t : sharded_ohtable RAM) (pairs : list aci_uak_pair) (k : Z) : e164_pni_aci_triple :=
  match sharded_lookup nb t k with Some x => released pairs (record_of x) | None => no_triple end.

Definition request_pairs (r : client_request_t) : list aci_uak_pair :=
  map pair_of (chunks 32 (length (bytes (aci_uak_pairs r)) / 32) (bytes (aci_uak_pairs r))).

(** The request asks for at least one number and for none twice, its sizes are
    those of a message that fits in memory; the records it asks for are within
    the reach of a lookup; the hashes leave room for every probe of the set. *)
Record query_ready (t : sharded_ohtable RAM) (mem : Z -> Z) (sipkey : list Z) (r : client_request_t) : Prop := {
  qr_table : sharded_inv nb t;
  qr_layout : laid_out mem r;
  qr_nodup : NoDup (numbers (prev_e164s r) ++ numbers (new_e164s r));
  qr_keys : Forall (key_ok t) (numbers (prev_e164s r) ++ numbers (new_e164s r));
  qr_nonempty : numbers (prev_e164s r) ++ numbers (new_e164s r) <> [];
  qr_sizes : size (prev_e164s r) + size (new_e164s r) < 2 ^ 34 /\ size (aci_uak_pairs r) <= 2 ^ 34;
  qr_pairs : (length (bytes (aci_uak_pairs r)) mod 32 = 0)%nat /\ Forall is_byte (bytes (aci_uak_pairs r));
  qr_reach k x : k ∈ numbers (prev_e164s r) ++ numbers (new_e164s r) -> sharded_lookup nb t k = Some x -> sharded_reach nb t k x /\ Forall is_u64 x /\
    (found (record_of x) = true -> hash_ok sipkey (pair_key (record_pair (record_of x))));
  qr_hashes : Forall (fun p => hash_ok sipkey (pair_key p)) (request_pairs r);
  qr_shards t' batches : let keys := numbers (e164_fields r).1 ++ numbers (e164_fields r).2 in
    batch_queries t (length keys) keys shard_request_query = Some (t', batches) ->
    Forall (fun rq => is_success (shard_request_error rq) = true) (shard_requests batches);
}.

Lemma nth_u64 l i : Forall is_u64 l -> is_u64 (nth i l 0).
Proof. intros Hl. destruct (nth_in_or_default i l 0) as [Hin| ->]; [|done]. apply list_elem_of_In in Hin. rewrite Forall_forall in Hl. auto. Qed.

Lemma record_of_wf x : Forall is_u64 x -> record_wf (record_of x).
Proof. intros Hx. unfold record_wf, is_u64_pair, record_of. cbn. auto 10 using nth_u64. Qed.

Lemma pairs_wf r : Forall is_byte (bytes (aci_uak_pairs r)) -> Forall pair_wf (request_pairs r).
Proof.
  intros Hb. apply Forall_map. eapply Forall_impl; [by apply chunks_Forall|]. intros c Hc%u64s_of_u64.
  unfold pair_wf, is_u64_pair, pair_of. cbn. auto 10 using nth_u64.
Qed.

(** An answer of the table, released. *)
Lemma answer_released t pairs sipkey k x : (forall y, sharded_lookup nb t k = Some y -> sharded_reach nb t k y /\ Forall is_u64 y /\
    (found (record_of y) = true -> hash_ok sipkey (pair_key (record_pair (record_of y))))) -> is_u64 k ->
  answer_ok nb t k (replicate RECORD_SIZE 0) x ->
  released pairs (record_of x) = answer t pairs k /\ record_wf (record_of x) /\
  (found (record_of x) = true -> hash_ok sipkey (pair_key (record_pair (record_of x)))).
Proof.
  intros Hst Hk [Hfound Habs]. unfold answer. destruct (sharded_lookup nb t k) as [y|] eqn:E.
  - destruct (Hst y eq_refl) as (Hr & Hu & Hh). rewrite (Hfound y Hr). split_and!; [done|by apply record_of_wf|done].
  - assert (Hno : found (record_of x) = false /\ Forall is_u64 x).
    { destruct (Habs eq_refl) as [-> |[-> _]]; (split; [|repeat (apply Forall_cons; split; [done|]); by apply Forall_nil]); [done|].
      unfold found. cbn. apply andb_false_r. }
    destruct Hno as [Hf Hu]. rewrite Hf. unfold released. rewrite Hf. split_and!; [done|by apply record_of_wf|done].
Qed.

Lemma answers_released t pairs sipkey : forall ks xs, length xs = length ks ->
  (forall k y, k ∈ ks -> sharded_lookup nb t k = Some y -> sharded_reach nb t k y /\ Forall is_u64 y /\
    (found (record_of y) = true -> hash_ok sipkey (pair_key (record_pair (record_of y))))) -> Forall is_u64 ks ->
  (forall i k x, ks !! i = Some k -> xs !! i = Some x -> answer_ok nb t k (replicate RECORD_SIZE 0) x) ->
  map (released pairs) (map record_of xs) = map (answer t pairs) ks /\ Forall record_wf (map record_of xs) /\
  Forall (fun r => found r = true -> hash_ok sipkey (pair_key (record_pair r))) (map record_of xs).
Proof.
  induction ks as [|k ks IH]; intros [|x xs] Hlen Hst Hu Hok; try discriminate Hlen.
  { split_and!; [reflexivity|by apply Forall_nil..]. }
  apply Forall_cons in Hu as [Hk Hu].
  destruct (answer_released t pairs sipkey k x) as (Ha & Hw & Hh); [intros y; apply Hst; by left|done|by apply (Hok 0%nat)|].
  destruct (IH xs) as (Ha' & Hw' & Hh'); [by injection Hlen|intros k' y Hin; apply Hst; by right|done|intros i; apply (Hok (S i))|].
  cbn [map]. rewrite Ha, Ha'. split_and!; [done|by apply Forall_cons..].
Qed.

(** The set of pairs, the lookup and the release together. *)
Lemma query_spec t mem sipkey rnd r : query_ready t mem sipkey r -> (forall i, 0 <= rnd i) ->
  let n := (length (numbers (prev_e164s r)) + length (numbers (new_e164s r)))%nat in let e164s := gather_e164s mem r n in
  exists index ks err recs t', load_aci_uak_pairs (fun _ => true) rnd 0 (fixedset_new 32 sipkey) (request_pairs r) = Some (err_SUCCESS, index) /\
    sharded_ohtable_get_batch t n e164s (replicate n (replicate RECORD_SIZE 0)) = Some (err, recs, t') /\ is_success err = true /\
    ks ≡ₚ numbers (prev_e164s r) ++ numbers (new_e164s r) /\ ascending Z.gtb ks /\
    create_e164_pni_aci_triples index e164s (map record_of recs) = map (answer t (request_pairs r)) ks /\
    sharded_inv nb t' /\ forall k, sharded_lookup nb t' k = sharded_lookup nb t k.
Proof.
  intros [Hinv Hlo Hnd Hk Hne [Hs1 Hs2] [_ Hpb] Hreach Hh Hsh] Hr n e164s. unfold e164s, n. rewrite gather_spec by done.
  pose proof (fields_perm r) as Hp. set (keys := numbers (e164_fields r).1 ++ numbers (e164_fields r).2) in *. fold keys in Hsh. cbv zeta in Hsh.
  assert (Hn : n = length keys) by (unfold n; by rewrite <- length_app, <- Hp). fold n. rewrite Hn.
  assert (Hsmall : Z.of_nat (length keys) < 2 ^ 31).
  { rewrite <- Hn. unfold n. rewrite (numbers_size _ _ (lo_prev _ _ Hlo)), (numbers_size _ _ (lo_new _ _ Hlo)) in Hs1. lia. }
  destruct (get_batch_spec nb t keys (replicate (length keys) (replicate RECORD_SIZE 0)) Hinv) as (t' & batches & Hb & Hspec);
    [by rewrite Hp|by rewrite Hp|by intros E; apply Hne, Permutation_nil_r; rewrite <- Hp, E|done|by rewrite length_replicate|].
  destruct (Hspec (Hsh t' batches Hb)) as (Hinv' & Hsame & ks & err & recs & Hget & He & Hks & Hasc & Hlen & Hans).
  destruct (answers_released t (request_pairs r) sipkey ks recs) as (Hrel & Hwf & Hhr); [by rewrite Hks| | | |].
  { intros k y Hin. apply Hreach. by rewrite <- Hp, <- Hks. }
  { rewrite Hks, Hp. eapply Forall_impl; [exact Hk|]. by intros k [? _]. }
  { intros i k x Hi Hx. apply (Hans i k _ x Hi); [|done]. apply lookup_replicate_2. rewrite <- Hks. by eapply lookup_lt_Some. }
  destruct (release_spec (fun _ => true) rnd sipkey (request_pairs r) keys (map record_of recs)) as (err' & index & Hload & Hor); [|done|by apply pairs_wf|done|done|done|].
  { unfold request_pairs. rewrite length_map, length_chunks. unfold size in Hs2. pose proof (Nat.div_mod_eq (length (bytes (aci_uak_pairs r))) 32). lia. }
  destruct Hor as [(-> & Hcr)|(_ & i & Hf)]; [|done].
  exists index, ks, err, recs, t'. rewrite Hcr, Hrel. split_and!; try done. by rewrite Hks.
Qed.

(** The response to a query. *)
Definition run_response (permits : Z) (triples : list e164_pni_aci_triple) : client_response_t :=
  {| e164_pni_aci_triples := bytes_of (concat (map triple_words triples)); rsp_token := []; debug_permits_used := permits |}.

(** What a call of [enclave_run] needs to succeed. *)
Record run_ready (sync : cipher -> cipher -> Prop) (s : State) (cli : Z) (c : client_t handshake cipher) (permits : Z) (input : list Z) (out_size : nat)
    (stack : Z) (mem : Z -> Z) (sipkey : list Z) (t : sharded_ohtable RAM) (r : client_request_t) (rx' tx crx : cipher) : Prop := {
  nr_client : client_ready s cli c;
  nr_req : req c = Some r;
  nr_send : send c = Some tx /\ sync tx crx;
  nr_input : exists rx data n ack, recv c = Some rx /\ noise_decrypt_message_inplace rx input = Some (err_SUCCESS, rx', data, n) /\
    client_request_decode stack (take n data) = Some ack /\ client_request_new 128 = true /\ token_ack ack = true;
  nr_table : g_table s = Some t;
  nr_query : query_ready t mem sipkey r;
  nr_response : client_response_new client_response_base = true;
  nr_encode triples : length triples = (length (numbers (prev_e164s r)) + length (numbers (new_e164s r)))%nat ->
    exists pt, client_response_encode (run_response permits triples) out_size = Some pt /\ (wire_size (length pt) <= out_size)%nat;
  nr_out : Z.of_nat out_size < 2 ^ 64;
}.

Lemma shift_div n k m : 0 < k < 64 -> 2 ^ k = Z.of_nat m -> Z.to_nat (Z.of_nat n [>>] k) = (n / m)%nat.
Proof. intros Hk Hm. rewrite shr64_div, Hm by lia. by rewrite <- Nat2Z.inj_div, Nat2Z.id. Qed.

Lemma run_counts t mem sipkey r : query_ready t mem sipkey r ->
  Z.to_nat ((size (prev_e164s r) [+] size (new_e164s r)) [>>] 3) = (length (numbers (prev_e164s r)) + length (numbers (new_e164s r)))%nat /\
  Z.to_nat (size (aci_uak_pairs r) [>>] 5) = (length (bytes (aci_uak_pairs r)) / 32)%nat.
Proof.
  intros Hq. destruct (qr_sizes _ _ _ _ Hq) as [H1 H2]. pose proof (qr_layout _ _ _ _ Hq) as Hlo. split; [|apply shift_div; unfold size in *; lia].
  pose proof (numbers_size _ _ (lo_prev _ _ Hlo)) as Ep. pose proof (numbers_size _ _ (lo_new _ _ Hlo)) as En. rewrite Ep, En in *.
  rewrite add64_small by (unfold is_u64; lia).
  replace (8 * _ + 8 * _) with (Z.of_nat ((length (numbers (prev_e164s r)) + length (numbers (new_e164s r))) * 8)) by lia.
  rewrite (shift_div _ 3 8) by lia. by rewrite Nat.div_mul.
Qed.

(** The call answers in the order of the numbers and leaves the records of the
    table as they are. *)
Lemma run_spec (sync : cipher -> cipher -> Prop) `{!NoisePair sync} stray rnd s cli c permits input out_size stack mem sipkey t r rx' tx crx :
  run_ready sync s cli c permits input out_size stack mem sipkey t r rx' tx crx -> (forall i, 0 <= rnd i) ->
  exists out ks pt t' tx' crx' plain,
    enclave_run stray (fun _ => true) (fun _ => true) rnd sipkey mem stack cli permits input out_size s =
      Some (Ok out, at_client (set_table (Some t') s) cli {| acq := client_acq s CLIENT_UNUSED; workspace := workspace c; req := Some r;
                      c_handshake := c_handshake c; send := Some tx'; recv := Some rx' |}) /\
    ks ≡ₚ numbers (prev_e164s r) ++ numbers (new_e164s r) /\ ascending Z.gtb ks /\
    client_response_encode (run_response permits (map (answer t (request_pairs r)) ks)) out_size = Some pt /\
    noise_decrypt_message_inplace crx out = Some (err_SUCCESS, crx', plain, length pt) /\ take (length pt) plain = pt /\ sync tx' crx' /\
    sharded_inv nb t' /\ forall k, sharded_lookup nb t' k = sharded_lookup nb t k.
Proof.
  intros [Hc Hreq [Hsend Hsync] (rx & data & n & ack & Hrecv & Hdec & Hdecode & Hnew & Hack) Ht Hq Hrsp Henc H64] Hrnd.
  destruct (query_spec t mem sipkey rnd r Hq Hrnd) as (index & ks & err & recs & t' & Hload & Hget & He & Hks & Hasc & Hcr & Hinv' & Hsame).
  destruct (run_counts t mem sipkey r Hq) as [Hn1 Hn2]. set (num := (length (numbers (prev_e164s r)) + length (numbers (new_e164s r)))%nat) in *.
  destruct (Henc (map (answer t (request_pairs r)) ks)) as (pt & Hpt & Hwire); [by rewrite length_map, Hks, length_app|].
  set (c0 := with_acq (client_acq s CLIENT_INUSE) c). set (c1 := with_recv (Some rx') c0). set (s1 := set_table (Some t') s).
  destruct (encrypt_run sync s1 cli c1 tx crx pt out_size Hsend Hsync Hwire H64) as (out & tx' & crx' & plain & Hrun & Hsync' & Hcdec & Hplain).
  exists out, ks, pt, t', tx', crx', plain. split; [|done]. fold s1.
  rewrite <- Hreq. change (at_client s1 cli _) with (at_client s1 cli (with_acq (client_acq s1 CLIENT_UNUSED) (with_send (Some tx') c1))).
  eapply (with_client_run stray _ s s1 cli c _ _ Hc); [|exact (eq_refl : acq (with_send (Some tx') c1) = client_acq s CLIENT_INUSE)].
  fold c0. unfold run_body, ensure.
  rewrite (bind_step _ _ _ _ _ (at_client_of s cli c0)). cbn [req send recv workspace c0 with_acq]. rewrite Hreq, Hsend, Hrecv, (bind_step _ _ _ r _ eq_refl).
  rewrite (bind_step _ _ _ _ _ (decrypt_run s cli c0 rx input rx' data n Hrecv Hdec)). fold c1. rewrite Hnew, Hdecode.
  rewrite (bind_step _ _ _ tt _ eq_refl), (bind_step _ _ _ ack _ eq_refl), Hack, (bind_step _ _ _ tt _ eq_refl). cbv zeta.
  rewrite Hn1, Hn2. cbn [andb]. rewrite (bind_step _ _ _ tt _ eq_refl). fold (request_pairs r). rewrite Hload.
  rewrite (bind_step _ _ _ (err_SUCCESS, index) _ eq_refl). rewrite !(bind_step _ _ _ tt _ eq_refl), bind_gets.
  change (g_table (at_client s cli c1)) with (g_table s). rewrite Ht, (bind_step _ _ _ t _ eq_refl), Hget, (bind_step _ _ _ (err, recs, t') _ eq_refl).
  unfold modify, check. rewrite He. rewrite !(bind_step _ _ _ tt _ eq_refl), Hcr, Hrsp, !(bind_step _ _ _ tt _ eq_refl).
  fold (run_response permits (map (answer t (request_pairs r)) ks)). rewrite Hpt, (bind_step _ _ _ pt _ eq_refl). exact Hrun.
Qed.
End Run.
