(* ===== verification/EnclaveLoad.v ===== *)
(** * Loading the directory

    Clearing all shards, and what [enclave_load_pb] makes of the table, the
    secret and the clients. *)

From stdpp Require Import gmap.
From S2P Require Import Prelude Errors PositionMap OramInterface OHTable OHTableSpec Shard ShardTheorems ShardedOHTable ShardedTable ShardedPut Messages RateLimit Noise StateError Enclave Clients EnclaveSpec.
Local Open Scope Z_scope.

Section Load.
Context {RAM : Type} `{ObliviousRamSpec RAM} {handshake cipher : Type} `{!NoiseLibrary cipher} `{!EnclaveLibrary handshake cipher} (nb : nat).
Local Notation State := (enclave RAM handshake cipher).
Implicit Types t : sharded_ohtable RAM.

(** ** Clearing *)

(** A cleared shard takes its record of zeros. *)
Definition zero_accepted t : Prop := forall i se, shards t !! i = Some se ->
  match ohtable_put (ohtable_clear (table se.1)) se.2 (replicate RECORD_SIZE 0) with Some (err, _, _) => is_success err | None => false end = true.

Lemma handle_clear_spec (s : shard RAM) e : table_inv nb (table s) -> record_size_qwords s = RECORD_SIZE -> 24 * Z.of_nat nb < 2 ^ 53 ->
  match ohtable_put (ohtable_clear (table s)) e (replicate RECORD_SIZE 0) with Some (err, _, _) => is_success err | None => false end = true ->
  exists s' e' r', shard_handle_request s e clear_request = Some (s', e', r') /\ same_shard s s' /\ table_inv nb (table s') /\
    forall k, k <> 0 -> k <> UINT64_MAX -> table_lookup nb (table s') k = None.
Proof.
  intros Ht Hs Hnb Hz. destruct (ohtable_clear_inv nb (table s) Ht) as [Hc Hnone].
  destruct (put_total nb (ohtable_clear (table s)) e (replicate RECORD_SIZE 0) Hc zero_record_ok Hnb) as (err & t' & e' & Hput & Hspec).
  rewrite Hput in Hz. destruct (Hspec Hz) as [Ht' Hl].
  exists (with_table s t'), e', (shard_waiter_finish clear_request). split_and!; [|done|done|].
  - unfold shard_handle_request, shard_do_clear, shard_add_zero_record. cbn [r_type clear_request shard_request_create with_table table record_size_qwords].
    by rewrite Hs, Hput.
  - intros k Hk0 Hk. cbn [with_table table]. rewrite Hl, Hnone by done. change (record_key (replicate RECORD_SIZE 0)) with 0.
    by rewrite (proj2 (Z.eqb_neq k 0) Hk0).
Qed.

Lemma sharded_clear_spec t : sharded_inv nb t -> 24 * Z.of_nat nb < 2 ^ 53 -> zero_accepted t ->
  exists ss, sharded_ohtable_clear t = Some (with_shards t ss) /\ sharded_inv nb (with_shards t ss) /\
    forall k, k <> 0 -> k <> UINT64_MAX -> sharded_lookup nb (with_shards t ss) k = None.
Proof.
  intros [Ht Hsize Htab] Hnb Hz.
  set (P := fun (se : shard RAM * entropy) (_ : list (list Z)) (se' : shard RAM * entropy) (_ : sharded_ohtable_request) =>
    same_shard se.1 se'.1 /\ table_inv nb (table se'.1) /\ forall k, k <> 0 -> k <> UINT64_MAX -> table_lookup nb (table se'.1) k = None).
  destruct (run_requests_spec (fun _ => clear_request) P (shards t) (map (fun _ => []) (shards t))) as (ss & reqs & Hrun & L1 & _ & Hpost).
  { apply Forall2_same_length_lookup_2; [by rewrite length_map|]. intros i se B Hse _. destruct (Htab i se Hse) as [Hti Hrs].
    destruct (handle_clear_spec se.1 se.2 Hti Hrs Hnb (Hz i se Hse)) as (s' & e' & r' & ? & ? & ? & ?). by exists s', e', r'. }
  rewrite map_map in Hrun. exists ss. unfold sharded_ohtable_clear. rewrite Hrun. split; [done|].
  assert (Hall : forall i se', ss !! i = Some se' -> exists se, shards t !! i = Some se /\ P se [] se' clear_request).
  { intros i se' Hi. destruct (lookup_lt_is_Some_2 (shards t) i) as [se Hse]; [rewrite <- L1; by eapply lookup_lt_Some|].
    destruct (Hpost i se [] Hse) as (se1 & rq & E & _ & HP); [by rewrite list_lookup_fmap, Hse|]. exists se. split; [done|]. by simplify_eq. }
  split.
  - split; [|done|].
    + apply same_shards_wf; [done|done|]. intros i se se' Hse Hse'. destruct (Hall i se' Hse') as (se1 & E & ? & _). by simplify_eq.
    + intros i se' Hse'. destruct (Hall i se' Hse') as (se & E & (_ & _ & Hrs) & Hti & _). split; [done|]. rewrite Hrs. by apply (Htab i).
  - intros k Hk0 Hk. unfold sharded_lookup. cbn [with_shards shards]. destruct (ss !! _) as [se'|] eqn:E; [|done].
    destruct (Hall _ se' E) as (se & _ & _ & _ & Hn). by apply Hn.
Qed.

(** ** Loading *)

Definition loaded_secret (g : ratelimit) (secret : list Z) : ratelimit :=
  if (0 <? length secret)%nat then (ratelimit_set_shared_secret g secret).2 else g.

(** What a load needs: a message with whole records, each with a number that is
    in the range of a shard. *)
Record load_ready (s : State) t (input : list Z) (l : enclave_load_t) (records : list (list Z)) : Prop := {
  lr_init : g_init_done s = ENCLAVE_INIT_INITIALIZED;
  lr_new : enclave_load_new (Z.of_nat (length input) [+] enclave_load_base) = true;
  lr_decode : enclave_load_decode input = Some l;
  lr_secret : (length (shared_token_secret l) <= 64)%nat;
  lr_table : g_table s = Some t;
  lr_inv : sharded_inv nb t;
  lr_clear : clear_all l = true -> zero_accepted t;
  lr_tuples : e164_aci_pni_uak_tuples l = bytes_of (concat records);
  lr_words : Forall (Forall is_u64) records;
  lr_records : Forall record_ok records;
  lr_range : Forall (fun r => in_range t (record_key r)) records;
  lr_count : records <> [] /\ Z.of_nat (length records) < 2 ^ 31;
  lr_blocks : 24 * Z.of_nat nb < 2 ^ 53;
}.

Lemma concat_length (records : list (list Z)) : Forall record_ok records -> length (concat records) = (RECORD_SIZE * length records)%nat.
Proof. induction 1 as [|r rs [Hl _] _ IH]; [done|]. cbn [concat length]. rewrite length_app, IH, Hl. unfold RECORD_SIZE. lia. Qed.

Lemma tuples_of records : Forall record_ok records -> Forall (Forall is_u64) records ->
  (length (bytes_of (concat records)) mod (RECORD_SIZE * 8) = 0)%nat /\ (length (bytes_of (concat records)) / (RECORD_SIZE * 8) = length records)%nat /\
  u64s_of (bytes_of (concat records)) = concat records.
Proof.
  intros Hr Hu. rewrite bytes_of_length, concat_length by done.
  replace (RECORD_SIZE * length records * 8)%nat with (length records * (RECORD_SIZE * 8))%nat by (unfold RECORD_SIZE; lia).
  split_and!; [by rewrite Nat.Div0.mod_mul|by rewrite Nat.div_mul|]. by apply u64s_of_bytes_of, Forall_concat.
Qed.

(** The state after the secret has been set. *)
Lemma load_secret_run (s : State) secret : (length secret <= 64)%nat ->
  (if (0 <? length secret)%nat then
     let! g := gets g_ratelimit in
     let '(err, g) := ratelimit_set_shared_secret g secret in
     let! _ := modify (set_ratelimit g) in
     check err
   else ret tt) s = Some (Ok tt, set_ratelimit (loaded_secret (g_ratelimit s) secret) s).
Proof.
  intros Hs. unfold loaded_secret, ratelimit_set_shared_secret. destruct (0 <? length secret)%nat.
  - rewrite bind_gets, (proj2 (Nat.leb_le _ _) Hs). cbn [negb snd]. by rewrite (bind_step _ _ _ tt _ eq_refl).
  - by destruct s.
Qed.

Lemma load_pb_spec (s : State) t input l records : load_ready s t input l records ->
  exists res t', enclave_load_pb true input s =
      Some (res, set_table (Some t') (set_ratelimit (loaded_secret (g_ratelimit s) (shared_token_secret l)) s)) /\
    (res = Ok tt -> sharded_inv nb t' /\
     forall k, k <> 0 -> k <> UINT64_MAX -> in_range t k ->
       sharded_lookup nb t' k = insert_all records k (if clear_all l then None else sharded_lookup nb t k)).
Proof.
  intros [Hi Hnew Hdec Hsec Ht Hinv Hclr Htup Hw Hr Hrange [Hne Hcount] Hnb]. destruct (tuples_of records Hr Hw) as (T1 & T2 & T3).
  set (s1 := set_ratelimit (loaded_secret (g_ratelimit s) (shared_token_secret l)) s).
  assert (Hcl : exists t1, (if clear_all l then must (sharded_ohtable_clear t) else ret t) s1 = Some (Ok t1, s1) /\ sharded_inv nb t1 /\
      (forall k, in_range t1 k <-> in_range t k) /\
      forall k, k <> 0 -> k <> UINT64_MAX -> sharded_lookup nb t1 k = if clear_all l then None else sharded_lookup nb t k).
  { destruct (clear_all l); [|by exists t]. destruct (sharded_clear_spec t Hinv Hnb (Hclr eq_refl)) as (ss & -> & Hi1 & Hl1).
    exists (with_shards t ss). split_and!; [reflexivity|assumption| |assumption]. intros k. unfold in_range. by rewrite shard_of_with_shards. }
  destruct Hcl as (t1 & Hcl & Hinv1 & Hr1 & Hl1).
  destruct (put_batch_spec nb t1 records Hinv1 Hr Hne) as (err & t2 & Hput & Hspec); [|done|done|].
  { eapply Forall_impl; [exact Hrange|]. intros x Hx. by apply Hr1. }
  exists (if is_success err then Ok tt else Err err), t2. split.
  - unfold enclave_load_pb. unfold bind at 1. rewrite check_init_run, Hi. change (ENCLAVE_INIT_INITIALIZED =? ENCLAVE_INIT_INITIALIZED) with true. cbv iota beta.
    unfold ensure at 1 2. rewrite Hnew, !(bind_step _ _ _ tt _ eq_refl), Hdec, (bind_step _ _ _ l _ eq_refl).
    rewrite (bind_step _ _ _ tt _ (load_secret_run s _ Hsec)). fold s1. rewrite bind_gets. change (g_table s1) with (g_table s).
    rewrite Ht, (bind_step _ _ _ t _ eq_refl), (bind_step _ _ _ _ _ Hcl), (bind_step _ _ _ tt _ eq_refl). cbv zeta.
    rewrite Htup, T1, T2, T3. rewrite (bind_step _ _ _ tt _ eq_refl), Hput, (bind_step _ _ _ (err, t2) _ eq_refl), (bind_step _ _ _ tt _ eq_refl).
    unfold check. by destruct (is_success err).
  - intros E. destruct (is_success err) eqn:He; [|done]. destruct (Hspec eq_refl) as [Hinv2 Hl2]. split; [done|].
    intros k Hk0 Hk Hkr. rewrite Hl2, Hl1 by (try done; by apply Hr1). done.
Qed.
End Load.
