(* ===== verification/EnclaveTheorems.v ===== *)
(** * The enclave: properties

    What a host and a client can rely on, for every call of the enclave, with a
    small enclave as example. *)

From stdpp Require Import gmap.
From S2P Require Import Prelude Errors Util OddEvenSort Statistics PositionMap OramInterface OramPositionMap OramTheorems OHTable RobinHood OHTableSpec OHTableTheorems PbEncoder PbDecoder Shard ShardTheorems ShardedOHTable ShardedTable ShardedPut ShardedGet ShardedTheorems HalfSipHash FixedSet FixedSetTheorems Messages RateLimit AciPniUak Noise StateError Enclave Clients EnclaveSpec EnclaveRun EnclaveLoad.
Local Open Scope Z_scope.

(** ** Properties *)

(** C8. Every state that calls of the host can reach is well formed: either the
    enclave is not initialised and has no client, or it has its table and its
    client secret; the handshake data belongs to the private key; the secret of
    the rate limiter fits its array; every client is either in its handshake or
    has both halves of its channel, its request, if any, has valid sizes, and no
    call is using it. *)
Theorem enclave_state_well_formed {RAM} `{ObliviousRam RAM} {handshake cipher} `{!NoiseLibrary cipher} `{!EnclaveLibrary handshake cipher}
    `{!HandshakeLaws handshake cipher} (s : enclave RAM handshake cipher) :
  enclave_reachable s -> enclave_inv None s.
Proof. apply enclave_reachable_inv. Qed.

(** C4. The rate limit call succeeds on a client with an open channel and no
    request yet, if its message decrypts and decodes to a request with valid sizes
    and a token that is accepted, memory suffices and the response fits into the
    output: the client can decrypt the response to a new token, the host gets the
    token's hash, the hash of the old token and the number of new numbers, and the
    request is kept for the run. The next request that carries the token, with the
    same numbers as previous and discarded ones, is accepted under the same secret,
    and the hash of its token is the one the host got. *)
Theorem enclave_rate_limit_correct {RAM} `{ObliviousRam RAM} {handshake cipher} `{!NoiseLibrary cipher} `{!EnclaveLibrary handshake cipher}
    (sync : cipher -> cipher -> Prop) `{!NoisePair sync} stray (s : enclave RAM handshake cipher) cli c ws input out_size r rx' tx crx entropy o m :
  (forall x, length (sha256 x) = 32%nat) -> rate_limit_ready sync s cli c ws input out_size r rx' tx crx entropy ->
  (RATELIMIT_TOKENHASH_SIZE <= o)%nat -> (RATELIMIT_TOKENHASH_SIZE <= m)%nat ->
  exists out s' tok, enclave_rate_limit stray (fun _ => true) ws (Some entropy) cli input out_size o m s = Some (Ok out, s') /\
    rate_limited sync s cli c ws out_size r rx' crx entropy out s' tok /\
    forall r2, bytes (token r2) = tok -> (length (bytes (prev_e164s r2)) mod 8 = 0)%nat -> (length (bytes (discard_e164s r2)) mod 8 = 0)%nat ->
      numbers (prev_e164s r2) ++ numbers (discard_e164s r2) ≡ₚ numbers (prev_e164s r) ++ numbers (new_e164s r) ->
      ratelimit_validate_received_rate_limit_token sha256 true (g_ratelimit s') r2 = err_SUCCESS /\
      ratelimit_token_hash sha256 (bytes (token r2)) = rl_new_token_hash out.
Proof.
  intros Hsha Hr Ho Hm. destruct (rate_limit_spec sync stray s cli c ws input out_size r rx' tx crx entropy o m Hsha Hr Ho Hm) as (out & s' & tok & Hrun & Hd).
  exists out, s', tok. split_and!; [done|done|]. intros r2 Htok Hp Hdis Hperm.
  pose proof Hd as [Ht Hh _ _ (pt & tx' & crx' & plain & _ & _ & _ & _ & ->)]. destruct Hr as [_ _ _ _ _ _ _ Hen _ _ _].
  assert (length (RATELIMIT_VERSION :: entropy) = 33%nat) as H33 by (simpl; by rewrite Hen). split.
  - by eapply issued_accepted.
  - destruct (issued_token sha256 Hsha true _ _ _ _ tok H33 Ht) as (_ & _ & _ & Hl & _).
    rewrite Hh, Htok. unfold ratelimit_token_hash. by rewrite take_ge by (by rewrite Hl).
Qed.

(** C1. The run call on a client with a request succeeds: the client can decrypt
    the response, which has for the numbers of the request in ascending order what
    the client may learn of each; the table holds the same records as before, and
    the client is free for the next call. What this needs is [run_ready]: the
    client is not in use, its channel is in step and its message decrypts to an
    acknowledgement; the request asks for at least one number, for none twice, for
    neither 0 nor [-1] and for none whose hash is in no shard's range, and its
    buffers do not overlap, and previous numbers that are present and empty do not
    have the address of the new ones ([laid_out]); the stored records it asks for
    lie within the [max_offset] of their shard, and all shards answer without an
    error; the hashes of the pairs leave room for every probe of the set; memory
    suffices and the response fits into the output. *)
Theorem enclave_run_correct {RAM} `{ObliviousRamSpec RAM} {handshake cipher} `{!NoiseLibrary cipher} `{!EnclaveLibrary handshake cipher} nb
    (sync : cipher -> cipher -> Prop) `{!NoisePair sync} stray rnd (s : enclave RAM handshake cipher) cli c permits input out_size stack mem sipkey t r rx' tx crx :
  run_ready nb sync s cli c permits input out_size stack mem sipkey t r rx' tx crx -> (forall i, 0 <= rnd i) ->
  exists out ks pt t' tx' crx' plain,
    enclave_run stray (fun _ => true) (fun _ => true) rnd sipkey mem stack cli permits input out_size s =
      Some (Ok out, at_client (set_table (Some t') s) cli {| acq := client_acq s CLIENT_UNUSED; workspace := workspace c; req := Some r;
                      c_handshake := c_handshake c; send := Some tx'; recv := Some rx' |}) /\
    ks ≡ₚ numbers (prev_e164s r) ++ numbers (new_e164s r) /\ ascending Z.gtb ks /\
    client_response_encode (run_response permits (map (answer nb t (request_pairs r)) ks)) out_size = Some pt /\
    noise_decrypt_message_inplace crx out = Some (err_SUCCESS, crx', plain, length pt) /\ take (length pt) plain = pt /\ sync tx' crx' /\
    sharded_inv nb t' /\ forall k, sharded_lookup nb t' k = sharded_lookup nb t k.
Proof. by apply run_spec. Qed.

(** C5. A load with at least one record replaces the secret if the message has one
    and clears the table if asked to; when it succeeds the table holds for every
    number but 0 and [-1] in the range of a shard the last of the message's
    records, or else what it held before the load, or nothing after a clear. It
    changes nothing else. What this needs is [load_ready]: the message decodes to
    fewer than 2^31 whole records, each with a number that is not [-1] and whose
    hash is in the range of a shard, and a secret of at most 64 bytes; if it
    clears, each emptied shard takes the record of zeros that follows. A message
    without records, to set the secret or to clear only, is outside: it ends in an
    empty batch of puts, which writes the flag of a first request that does not
    exist. *)
Theorem enclave_load_correct {RAM} `{ObliviousRamSpec RAM} {handshake cipher} `{!NoiseLibrary cipher} `{!EnclaveLibrary handshake cipher} nb
    (s : enclave RAM handshake cipher) t input l records : load_ready nb s t input l records ->
  exists res t', enclave_load_pb true input s =
      Some (res, set_table (Some t') (set_ratelimit (loaded_secret (g_ratelimit s) (shared_token_secret l)) s)) /\
    (res = Ok tt -> sharded_inv nb t' /\
     forall k, k <> 0 -> k <> UINT64_MAX -> in_range t k ->
       sharded_lookup nb t' k = insert_all records k (if clear_all l then None else sharded_lookup nb t k)).
Proof. by apply load_pb_spec. Qed.

(** C12. The loop over the numbers of a request reads both buffers in every round
    and yet reads only inside of the workspace that holds them; it gathers the
    numbers of the one buffer and then those of the other. This needs [laid_out]:
    each field is absent or lies in memory at its address with whole numbers, the
    two do not overlap, and previous numbers that are present and empty do not have
    the address of the new ones; without that last condition the loop can read
    outside. *)
Theorem gather_e164s_correct mem r lo hi : laid_out mem r ->
  (forall f, f = prev_e164s r \/ f = new_e164s r -> buf_p f <> 0 -> lo <= buf_p f /\ buf_p f + size f <= hi) ->
  let n := (length (numbers (prev_e164s r)) + length (numbers (new_e164s r)))%nat in
  gather_e164s mem r n ≡ₚ numbers (prev_e164s r) ++ numbers (new_e164s r) /\
  forall i, (i < n)%nat -> let '(x, y) := e164_reads r (Z.of_nat i) in lo <= x /\ x + 8 <= hi /\ lo <= y /\ y + 8 <= hi.
Proof.
  intros Hlo Hws n. split; [unfold n; rewrite gather_spec by done; apply fields_perm|]. intros i Hi. by apply (reads_spec mem r lo hi i).
Qed.

(** C13. The condition on the buffers is needed.  When a message has the field of
    previous numbers with no bytes and then the new numbers, the decoder gives
    both fields the same address, the new ones count as the first array, and the
    first round of the loop reads as many bytes before that address as there are
    bytes of new numbers: before the workspace, if there are more of them than
    the decoder has allocated so far. *)
Theorem empty_prev_reads_outside h h1 h2 p q r : 0 <= h_pos h -> h_buf h + h_pos h < 2 ^ 64 -> 0 < h_buf h ->
  heap_alloc h 0 1 = (Some p, h1) -> heap_alloc h1 (size (new_e164s r)) 1 = (Some q, h2) ->
  prev_e164s r = {| buf_p := p; bytes := [] |} -> buf_p (new_e164s r) = q -> (length (bytes (new_e164s r)) mod 8 = 0)%nat ->
  (e164_reads r 0).2 = h_buf h + h_pos h - size (new_e164s r) /\
  (h_pos h < size (new_e164s r) -> (e164_reads r 0).2 < h_buf h).
Proof.
  intros Hpos Hend Hb0 Ha Hc Hp Hn Hm. unfold heap_alloc in Ha, Hc. rewrite Z.land_0_r in Ha, Hc. cbn [Z.eqb] in Ha, Hc.
  destruct (to_i32 0 <=? _); [|done]. injection Ha as Ep <-. cbn [h_size h_pos h_buf] in Hc.
  destruct (to_i32 (size (new_e164s r)) <=? _); [|done]. injection Hc as Eq _.
  change (to_i32 0) with 0 in Eq. rewrite Z.add_0_r in Eq. rewrite wrap64_small in Ep, Eq by (unfold is_u64; lia).
  unfold e164_reads, e164s_order. rewrite Hp, Hn, <- Ep, <- Eq. cbn [buf_p snd]. rewrite (proj2 (Z.eqb_neq _ 0)), Z.ltb_irrefl by lia.
  cbn [snd]. unfold size. pose proof (Nat.div_mod_eq (length (bytes (new_e164s r))) 8). pose proof (Nat2Z.inj_div (length (bytes (new_e164s r))) 8). lia.
Qed.

(** ** A small enclave

    A handshake counts its steps, the responder's from 0 and the initiator's
    from 10; a request is a kind (1 for an
    acknowledgement), two counts, the numbers and the pairs; a response is its
    token, its triples and the permits; a load is a flag and the tuples. *)

Definition toy_field (addr : Z) (bs : list Z) : pbtools_bytes_t := if (length bs =? 0)%nat then no_bytes else {| buf_p := addr; bytes := bs |}.

Definition toy_decode (addr : Z) (bs : list Z) : option client_request_t :=
  match bs with
  | kind :: p :: n :: data =>
      let p := Z.to_nat (8 * p) in
      let n := Z.to_nat (8 * n) in
      Some {| prev_e164s := toy_field (addr + 16) (take p data); new_e164s := toy_field (addr + 16 + Z.of_nat p) (take n (drop p data));
              aci_uak_pairs := toy_field (addr + 16 + Z.of_nat (p + n)) (drop (p + n) data); discard_e164s := no_bytes; token := no_bytes;
              token_ack := kind =? 1 |}
  | _ => None
  end.

Definition toy_encode (rsp : client_response_t) (n : nat) : option (list Z) :=
  let bs := rsp_token rsp ++ e164_pni_aci_triples rsp ++ [debug_permits_used rsp] in
  if (length bs <=? n)%nat then Some bs else None.

(** The fields behind their lengths. *)
Definition toy_start (x : client_handshake_start_t) : list Z :=
  Z.of_nat (length (test_only_pubkey x)) :: test_only_pubkey x ++ Z.of_nat (length (evidence x)) :: evidence x ++ endorsement x.

#[export] Instance toy_enclave : EnclaveLibrary nat nat := {|
  noise_handshakestate_new_by_id _ := (0, 0%nat);
  noise_dhstate_set_keypair_private h _ := (0, h);
  noise_handshakestate_start h := (0, h);
  noise_handshakestate_get_action h :=
    match h with
    | O | 11%nat => NOISE_ACTION_READ_MESSAGE
    | 1%nat | 10%nat => NOISE_ACTION_WRITE_MESSAGE
    | 2%nat | 12%nat => NOISE_ACTION_SPLIT
    | _ => NOISE_ACTION_COMPLETE
    end;
  noise_handshakestate_read_message h _ := (0, S h);
  noise_handshakestate_write_message h _ := (0, S h, if (h =? 10)%nat then replicate NOISE_HANDSHAKEWRITE_SIZE 42 else [42]);
  noise_handshakestate_split h := (0, S h, (Some 0%nat, Some 0%nat));
  noise_dhstate_new_by_id := 0; dhstate_set_keypair_private _ := 0; noise_dhstate_get_public_key k := (0, take NOISE_KEY_SIZE (k ++ replicate NOISE_KEY_SIZE 0));
  sha256 := toy_sha;
  client_request_base := 16; client_request_new _ := true; client_request_decode := toy_decode;
  client_response_base := 16; client_response_new _ := true; client_response_encode := toy_encode;
  enclave_load_base := 16; enclave_load_new _ := true;
  enclave_load_decode bs := match bs with
    | flag :: tuples => Some {| clear_all := flag =? 1; e164_aci_pni_uak_tuples := tuples; shared_token_secret := [1; 2; 3] |} | [] => None end;
  client_handshake_start_new _ := true; client_handshake_start_encode x _ := Some (toy_start x);
  table_statistics_base := 16; table_statistics_new _ := true; shard_statistics_alloc _ := true; values_alloc _ := true;
  table_statistics_encode _ _ := Some [];
  oe_is_within_enclave _ := true; oe_serialize_custom_claims k := Some k; oe_get_evidence claims := Some (claims, [7]);
  client_secret_addr := 64; IS_TEST := true; INSECURE := false |}.

#[export] Instance toy_handshake : HandshakeLaws nat nat.
Proof. split; [|discriminate]. intros h. left. cbn. by split_and!. Qed.

Definition toy_message (n : nat) (plain : list Z) : list Z :=
  match noise_encrypt_message n plain (replicate 1024 0) with Some (_, _, buf, k) => take k buf | None => [] end.

(** *** From the start to an open channel *)

Definition toy_state : Type := enclave inner_oram nat nat.
Definition after {A} (m : M toy_state A) (s : toy_state) : toy_state := match m s with Some (_, s) => s | None => s end.

Lemma reach_after {A} (m : M toy_state A) s : (forall r s', m s = Some (r, s') -> enclave_call s s') -> enclave_reachable s -> enclave_reachable (after m s).
Proof. intros Hc Hs. unfold after. destruct (m s) as [[r s']|] eqn:E; [|exact Hs]. exact (enclave_reach_call _ _ Hs (Hc _ _ eq_refl)). Qed.

Definition toy_init : M toy_state unit :=
  enclave_init done_ true true (Some (replicate 32 9)) true (Some [0; 1; 2; 3; 4; 5; 6; 7]) (Some 12345) 2 [(small_table, small_entropy); (small_table, small_entropy)].
Definition toy_s1 : toy_state := after toy_init enclave_start.
Definition toy_s2 : toy_state := after (enclave_attest true (Some (replicate 32 7))) toy_s1.
Definition toy_s3 : toy_state := after (enclave_new_client (fun _ => 0) true 4096 [] 1000) toy_s2.
Definition toy_s4 : toy_state := after (enclave_handshake (fun _ => 0) 4096 [1; 2; 3] 1000) toy_s3.

Lemma toy_s2_reachable : enclave_reachable toy_s2.
Proof.
  unfold toy_s2. apply reach_after; [intros r s'; apply call_attest|].
  unfold toy_s1. apply reach_after; [intros r s'; apply call_init|]. apply enclave_reach_start.
Qed.

Lemma enclave_state_well_formed_witness : enclave_inv None toy_s4 /\
  match g_clients toy_s4 !! 4096 with Some c => send c = Some 0%nat /\ c_handshake c = None | None => False end.
Proof.
  split; [|vm_compute; split; reflexivity]. apply enclave_state_well_formed.
  unfold toy_s4. apply reach_after; [intros r s'; apply call_handshake|].
  unfold toy_s3. apply reach_after; [intros r s'; apply call_new_client; vm_compute; reflexivity|]. exact toy_s2_reachable.
Defined.

(** *** Loading two records *)

Definition toy_client : client_t nat nat :=
  {| acq := 2 ^ 63; workspace := 0; req := None; c_handshake := None; send := Some 0%nat; recv := Some 0%nat |}.
Definition toy_base : toy_state :=
  {| g_table := Some small_sharded; g_num_shards := 2; g_handshakestart := []; g_privkey := replicate 32 7; g_client_secret := 2 ^ 63;
     g_init_done := ENCLAVE_INIT_INITIALIZED; g_ratelimit := ratelimit_init; g_clients := {[4096 := toy_client]} |}.
Definition toy_directory : list (list Z) := [[58; 11; 12; 15; 16; 13; 14]; [19; 21; 22; 25; 26; 0; 0]].
Definition toy_load : list Z := 1 :: bytes_of (concat toy_directory).
Definition toy_load_request : enclave_load_t :=
  {| clear_all := true; e164_aci_pni_uak_tuples := bytes_of (concat toy_directory); shared_token_secret := [1; 2; 3] |}.

Lemma toy_load_ready : load_ready 1 toy_base small_sharded toy_load toy_load_request toy_directory.
Proof.
  split; try reflexivity.
  - simpl. lia.
  - exact small_sharded_inv.
  - intros _ [|[|i]] se Hse; [injection Hse as <-; vm_compute; reflexivity..|done].
  - repeat constructor; vm_compute; congruence.
  - repeat constructor; discriminate.
  - repeat constructor; apply small_in_range; vm_compute; reflexivity.
  - split; [discriminate|reflexivity].
Qed.

Lemma toy_load_ok : match enclave_load_pb true toy_load toy_base with Some (res, _) => res = Ok tt | None => False end.
Proof. vm_compute. reflexivity. Qed.

Lemma enclave_load_correct_witness :
  exists t', enclave_load_pb true toy_load toy_base = Some (Ok tt, set_table (Some t') (set_ratelimit (loaded_secret ratelimit_init [1; 2; 3]) toy_base)) /\
    sharded_lookup 1 t' 58 = Some [58; 11; 12; 15; 16; 13; 14].
Proof.
  destruct (enclave_load_correct 1 toy_base small_sharded toy_load toy_load_request toy_directory toy_load_ready) as (res & t' & Hrun & Hspec).
  exists t'. pose proof toy_load_ok as Hok. rewrite Hrun in Hok. subst res. split; [exact Hrun|]. destruct (Hspec eq_refl) as [_ Hl].
  rewrite (Hl 58); [reflexivity|discriminate|discriminate|apply small_in_range; vm_compute; reflexivity].
Defined.

(** The enclave after the load. *)
Definition toy_table : sharded_ohtable inner_oram :=
  match g_table (after (enclave_load_pb true toy_load) toy_base) with Some t => t | None => small_sharded end.

Lemma toy_table_ok : sharded_inv 1 toy_table /\
  forall k, k <> 0 -> k <> UINT64_MAX -> in_range small_sharded k -> sharded_lookup 1 toy_table k = insert_all toy_directory k None.
Proof.
  destruct (load_pb_spec 1 toy_base small_sharded toy_load toy_load_request toy_directory toy_load_ready) as (res & t' & Hrun & Hspec).
  pose proof toy_load_ok as Hok. unfold toy_table, after. rewrite Hrun in *. subst res. by apply Hspec.
Qed.

(** *** A request *)

Definition toy_ask (counts : list Z) : list Z := 0 :: counts ++ bytes_of [58; 19; 11; 12; 13; 14].
Definition toy_asked (counts : list Z) : client_request_t := match toy_decode 1000 (toy_ask counts) with Some r => r | None => toy_request [] [] end.

Lemma toy_client_ready (s : toy_state) c : g_init_done s = ENCLAVE_INIT_INITIALIZED -> g_clients s !! 4096 = Some c -> acq c = client_acq s CLIENT_UNUSED ->
  client_ready s 4096 c.
Proof. by split. Qed.

Lemma toy_encode_short rsp n : (length (rsp_token rsp) + length (e164_pni_aci_triples rsp) < 100)%nat -> (2000 <= n)%nat ->
  exists pt, toy_encode rsp n = Some pt /\ (wire_size (length pt) <= 2000)%nat.
Proof.
  intros Hl Hn. unfold toy_encode. cbv zeta. set (bs := _ ++ _). assert (Hbs : (length bs <= 100)%nat) by (unfold bs; rewrite !length_app; simpl; lia).
  rewrite (proj2 (Nat.leb_le _ _)) by lia. exists bs. split; [done|]. revert Hbs. generalize (length bs) as k. clear.
  intros k Hk. do 101 (destruct k as [|k]; [vm_compute; lia|]). lia.
Qed.

Lemma toy_rate_limit_ready : exists rx', rate_limit_ready eq toy_base 4096 toy_client 1000 (toy_message 0 (toy_ask [0; 2])) 2000 (toy_asked [0; 2]) rx' 0%nat 0%nat toy_entropy.
Proof.
  eexists. split; try reflexivity.
  - by apply toy_client_ready.
  - by split.
  - by split.
  - eexists 0%nat, _, _. split; [reflexivity|]. split; [vm_compute; reflexivity|]. split; [|reflexivity]. vm_compute. reflexivity.
  - discriminate.
  - intros rsp Ht Ht'. apply toy_encode_short; [|lia]. rewrite Ht, Ht'. simpl. lia.
Qed.

Lemma enclave_rate_limit_correct_witness :
  exists out s', enclave_rate_limit (fun _ => 0) (fun _ => true) 1000 (Some toy_entropy) 4096 (toy_message 0 (toy_ask [0; 2])) 2000 32 32 toy_base = Some (Ok out, s') /\
    rl_computed_request_size out = 2.
Proof.
  destruct toy_rate_limit_ready as [rx' Hr].
  destruct (enclave_rate_limit_correct eq (fun _ => 0) toy_base 4096 toy_client 1000 (toy_message 0 (toy_ask [0; 2])) 2000
    (toy_asked [0; 2]) rx' 0%nat 0%nat toy_entropy 32 32) with (2 := Hr)
    as (out & s' & tok & Hrun & [_ _ _ Hsz _] & _); [exact toy_sha_length|apply le_n|apply le_n|].
  exists out, s'. split; [exact Hrun|]. rewrite Hsz. vm_compute. reflexivity.
Defined.

(** *** Its answer *)

Definition toy_waiting : client_t nat nat :=
  {| acq := 2 ^ 63; workspace := 1000; req := Some (toy_asked [1; 1]); c_handshake := None; send := Some 0%nat; recv := Some 0%nat |}.
Definition toy_ready : toy_state := set_clients {[4096 := toy_waiting]} (set_table (Some toy_table) toy_base).
Definition toy_mem (a : Z) : Z := if a =? 1016 then 58 else if a =? 1024 then 19 else 0.

Lemma toy_laid_out : laid_out toy_mem (toy_asked [1; 1]).
Proof.
  split.
  - intros a. unfold toy_mem, is_u64. destruct (a =? 1016), (a =? 1024); lia.
  - split; [|discriminate|reflexivity]. intros [|i] Hi; [reflexivity|]. change (length (numbers _)) with 1%nat in Hi. lia.
  - split; [|discriminate|reflexivity]. intros [|i] Hi; [reflexivity|]. change (length (numbers _)) with 1%nat in Hi. lia.
  - intros _ _. left. vm_compute. split; congruence.
Qed.

Lemma gather_e164s_correct_witness : gather_e164s toy_mem (toy_asked [1; 1]) 2 ≡ₚ [58; 19] /\
  forall i, (i < 2)%nat -> let '(x, y) := e164_reads (toy_asked [1; 1]) (Z.of_nat i) in 1016 <= x /\ x + 8 <= 1032 /\ 1016 <= y /\ y + 8 <= 1032.
Proof.
  apply (gather_e164s_correct toy_mem (toy_asked [1; 1]) 1016 1032 toy_laid_out).
  intros f [-> | ->] _; vm_compute; split; congruence.
Defined.

(** A message of twelve new numbers behind an empty field. *)
Lemma empty_prev_reads_outside_witness :
  let r := {| aci_uak_pairs := no_bytes; prev_e164s := {| buf_p := 4176; bytes := [] |}; new_e164s := {| buf_p := 4176; bytes := replicate 96 0 |};
              discard_e164s := no_bytes; token := no_bytes; token_ack := false |} in
  (e164_reads r 0).2 < 4096.
Proof.
  intros r. apply (empty_prev_reads_outside {| h_buf := 4096; h_size := 1024; h_pos := 80 |} {| h_buf := 4096; h_size := 1024; h_pos := 80 |}
    {| h_buf := 4096; h_size := 1024; h_pos := 176 |} 4176 4176 r); cbn [h_buf h_pos]; try lia; vm_compute; reflexivity.
Defined.

Lemma toy_numbers : numbers (prev_e164s (toy_asked [1; 1])) ++ numbers (new_e164s (toy_asked [1; 1])) = [58; 19].
Proof. vm_compute. reflexivity. Qed.

#[local] Opaque toy_table small_sharded reachb hash_okb.

Lemma toy_key_ok k : (0 <? k) && (k <? UINT64_MAX) && (shard_of toy_table k <? Z.of_nat (num_shards toy_table)) = true -> key_ok toy_table k.
Proof. unfold key_ok, in_range, is_u64, UINT64_MAX. intros E. breflect. split_and!; lia. Qed.

(** What the table promises for a stored number of the example. *)
Lemma toy_stored k x y : (k =? 0) || (k =? UINT64_MAX) || negb (shard_of small_sharded k <? 2) = false -> insert_all toy_directory k None = Some y ->
  reachb toy_table k y && forallb (fun w => (0 <=? w) && (w <? 2 ^ 64)) y && hash_okb small_sip (pair_key (record_pair (record_of y))) = true ->
  sharded_lookup 1 toy_table k = Some x ->
  sharded_reach 1 toy_table k x /\ Forall is_u64 x /\ (found (record_of x) = true -> hash_ok small_sip (pair_key (record_pair (record_of x)))).
Proof.
  intros Hk Hy Hok Hx. apply orb_false_iff in Hk as [[Hk0%Z.eqb_neq Hk1%Z.eqb_neq]%orb_false_iff Hr%negb_false_iff].
  apply andb_true_iff in Hok as [[Hreach Hu]%andb_true_iff Hh].
  destruct toy_table_ok as [_ Hl]. rewrite (Hl k Hk0 Hk1 (small_in_range k Hr)), Hy in Hx. injection Hx as <-. split_and!.
  - exact (reachb_spec toy_table k y Hreach).
  - apply Forall_forall. intros w Hw%list_elem_of_In. rewrite forallb_forall in Hu. specialize (Hu w Hw). breflect. unfold is_u64. lia.
  - intros _. exact (hash_okb_spec _ _ Hh).
Qed.

Lemma toy_shards t' batches : batch_queries toy_table 2 [58; 19] shard_request_query = Some (t', batches) ->
  Forall (fun rq => is_success (shard_request_error rq) = true) (shard_requests batches).
Proof.
  intros Hb. assert (Hok : match batch_queries toy_table 2 [58; 19] shard_request_query with
      Some (_, bs) => forallb (fun rq => is_success (shard_request_error rq)) (shard_requests bs) | None => false end = true) by (vm_compute; reflexivity).
  rewrite Hb in Hok. apply Forall_forall. intros rq Hin. apply list_elem_of_In in Hin. rewrite forallb_forall in Hok. by apply Hok.
Qed.

Lemma toy_query_ready : query_ready 1 toy_table toy_mem small_sip (toy_asked [1; 1]).
Proof.
  destruct toy_table_ok as [Hinv Hl]. split; rewrite ?toy_numbers.
  - exact Hinv.
  - exact toy_laid_out.
  - apply (bool_decide_unpack _). vm_compute. exact I.
  - apply Forall_cons. split; [apply toy_key_ok; vm_compute; reflexivity|]. apply Forall_singleton, toy_key_ok. vm_compute. reflexivity.
  - discriminate.
  - vm_compute. split; congruence.
  - split; [reflexivity|]. apply (bool_decide_unpack _). vm_compute. exact I.
  - intros k x Hk. apply elem_of_cons in Hk as [-> | Hk%list_elem_of_singleton]; [|subst k];
      (eapply toy_stored; [vm_compute; reflexivity|vm_compute; reflexivity|vm_compute; reflexivity]).
  - constructor; [|constructor]. apply hash_okb_spec. vm_compute. reflexivity.
  - intros t' batches. cbv zeta. replace (numbers _ ++ numbers _) with [58; 19] by (vm_compute; reflexivity). apply toy_shards.
Qed.

Lemma toy_run_ready : exists rx', run_ready 1 eq toy_ready 4096 toy_waiting 3 (toy_message 0 [1; 0; 0]) 2000 0 toy_mem small_sip toy_table (toy_asked [1; 1]) rx' 0%nat 0%nat.
Proof.
  eexists. split; try reflexivity.
  - by apply toy_client_ready.
  - by split.
  - eexists 0%nat, _, _, _. split; [reflexivity|]. split; [vm_compute; reflexivity|]. split; [vm_compute; reflexivity|]. by split.
  - exact toy_query_ready.
  - intros triples Ht. apply toy_encode_short; [|lia]. cbn [run_response rsp_token e164_pni_aci_triples length]. rewrite bytes_of_length.
    change (length (numbers _) + length (numbers _))%nat with 2%nat in Ht. destruct triples as [|x [|y [|]]]; try discriminate Ht. simpl. lia.
Qed.

(** The client knows the UAK of the first number only: it learns this ACI and
    both PNIs, in the order of the numbers. *)
Lemma enclave_run_correct_witness :
  exists out s', enclave_run (fun _ => 0) (fun _ => true) (fun _ => true) (fun _ => 3) small_sip toy_mem 0 4096 3 (toy_message 0 [1; 0; 0]) 2000 toy_ready = Some (Ok out, s') /\
    match noise_decrypt_message_inplace 0%nat out with
    | Some (_, _, plain, n) => take n plain = bytes_of [19; 25; 26; 0; 0; 58; 15; 16; 11; 12] ++ [3]
    | None => False
    end.
Proof.
  destruct toy_run_ready as [rx' Hr].
  destruct (enclave_run_correct 1 eq (fun _ => 0) (fun _ => 3) toy_ready 4096 toy_waiting 3 (toy_message 0 [1; 0; 0]) 2000 0 toy_mem small_sip toy_table
    (toy_asked [1; 1]) rx' 0%nat 0%nat Hr) as (out & ks & pt & t' & tx' & crx' & plain & Hrun & Hks & Hasc & Hpt & Hdec & Hplain & _ & _ & _); [discriminate|].
  eexists out, _. split; [exact Hrun|]. rewrite Hdec, Hplain. rewrite toy_numbers in Hks.
  rewrite (ascending_pair ks 19 58 eq_refl Hks Hasc) in Hpt.
  destruct toy_table_ok as [_ Hl]. unfold answer in Hpt. cbn [map] in Hpt.
  rewrite (Hl 19), (Hl 58) in Hpt; [|discriminate|discriminate|apply small_in_range; vm_compute; reflexivity|discriminate|discriminate|apply small_in_range; vm_compute; reflexivity].
  vm_compute in Hpt. injection Hpt as <-. reflexivity.
Defined.
