(* ===== verification/ClientState.v ===== *)
(** * The client of the test host ([c/testhost/client_state.c])

    The other side of the handshake: the client takes the enclave's public key
    out of the attested handshake data and performs the handshake as initiator.
    Together with the enclave's side this opens a session. *)

From stdpp Require Import gmap.
From S2P Require Import Prelude Errors OramInterface Messages Noise StateError Enclave Clients EnclaveSpec EnclaveRun.
Local Open Scope Z_scope.

(** ** Outside code *)

(** The initiator's functions of the Noise library, the generated decoder and
    Open Enclave's verification; claims have a name and a value. *)
Class ClientLibrary (handshake : Type) := {
  initiator_new_by_id : list Z -> Z * handshake;
  noise_dhstate_set_public_key : handshake -> list Z -> Z * handshake;
  client_handshake_start_decode : list Z -> option client_handshake_start_t;
  oe_verifier_initialize : bool;
  oe_verify_evidence : list Z -> list Z -> option (list (list Z * list Z));
  oe_deserialize_custom_claims : list Z -> option (list (list Z * list Z));
  OE_CLAIM_CUSTOM_CLAIMS_BUFFER : list Z;
}.

(** ** Model *)

(** The handle of the enclave is the state the calls act on; the token of the
    struct is for the test programs, these functions do not use it. *)
Record enclave_client_state {handshake cipher : Type} := EnclaveClientState {
  ecs_handshake : option handshake;
  ecs_send : option cipher;
  ecs_recv : option cipher;
  client_id : Z;
}.
Arguments enclave_client_state : clear implicits.

Section ClientState.
Context {RAM : Type} `{ObliviousRam RAM} {handshake cipher : Type} `{!NoiseLibrary cipher} `{!EnclaveLibrary handshake cipher} `{!ClientLibrary handshake}.
Context (stray : Z -> Z).

Definition find_claim (claims : list (list Z * list Z)) (name : list Z) : option (list Z) :=
  snd <$> find (fun c => bool_decide (c.1 = name)) claims.

Definition pk_name : list Z := [112; 107].

(** [None] is a read behind the end of a field: the comparison reads as many
    bytes of the key as the claim has, the copy reads 32. *)
Definition extract_public_key (pb : list Z) : option (result (list Z)) :=
  if negb (client_handshake_start_new (Z.shiftl 32 10)) then Some (Err err_ENCLAVE__HANDSHAKE__EXTRACT_PUBKEY_PB)
  else
    match client_handshake_start_decode pb with
    | None => Some (Err err_ENCLAVE__HANDSHAKE__EXTRACT_PUBKEY_PB)
    | Some rsp =>
        let key := if (NOISE_KEY_SIZE <=? length (test_only_pubkey rsp))%nat then Some (Ok (take NOISE_KEY_SIZE (test_only_pubkey rsp))) else None in
        if (0 <? length (evidence rsp))%nat then
          if negb oe_verifier_initialize then Some (Err err_HOST__HANDSHAKE__INITIALIZE_VERIFIER)
          else
            match oe_verify_evidence (evidence rsp) (endorsement rsp) with
            | None => Some (Err err_HOST__HANDSHAKE__INVALID_REPORT)
            | Some claims =>
                match find_claim claims OE_CLAIM_CUSTOM_CLAIMS_BUFFER with
                | None => Some (Err err_HOST__HANDSHAKE__INVALID_CLAIMS)
                | Some claim =>
                    match oe_deserialize_custom_claims claim with
                    | Some [(name, value)] =>
                        if negb (bool_decide (name = pk_name)) then Some (Err err_HOST__HANDSHAKE__INVALID_CLAIMS)
                        else if (length (test_only_pubkey rsp) <? length value)%nat then None
                        else if negb (bool_decide (take (length value) (test_only_pubkey rsp) = value)) then Some (Err err_HOST__HANDSHAKE__INVALID_CLAIMS)
                        else key
                    | _ => Some (Err err_HOST__HANDSHAKE__INVALID_CLAIMS)
                    end
                end
            end
        else key
    end.

(** The client and the enclave it calls. *)
Record world := World { w_client : enclave_client_state handshake cipher; w_enclave : enclave RAM handshake cipher }.

Definition set_client_handshake (h : handshake) (w : world) : world :=
  {| w_client := {| ecs_handshake := Some h; ecs_send := ecs_send (w_client w); ecs_recv := ecs_recv (w_client w); client_id := client_id (w_client w) |};
     w_enclave := w_enclave w |}.
Definition set_client_channel (h : handshake) (tx rx : option cipher) (w : world) : world :=
  {| w_client := {| ecs_handshake := Some h; ecs_send := tx; ecs_recv := rx; client_id := client_id (w_client w) |}; w_enclave := w_enclave w |}.

(** A call into the enclave. *)
Definition ecall {A} (m : M (enclave RAM handshake cipher) A) : M world A := fun w =>
  match m (w_enclave w) with
  | Some (r, s) => Some (r, {| w_client := w_client w; w_enclave := s |})
  | None => None
  end.

(** A call of the Noise library on the client's handshake state. *)
Definition client_call (h : handshake) (space : error_t) (f : handshake -> Z * handshake) : M world handshake :=
  let '(e, h) := f h in
  let! _ := modify (set_client_handshake h) in
  let! _ := check (noise_errort space e) in
  ret h.

Definition client_expect (h : handshake) (action : noise_action) : M world unit :=
  ensure (bool_decide (noise_handshakestate_get_action h = action)) err_HOST__HANDSHAKE__INVALID_STATE.

(** [oe] says whether the call reaches the enclave. *)
Definition perform_handshake (oe : bool) (entropy : list Z) (pubkey : list Z) : M world unit :=
  let '(e, h) := initiator_new_by_id entropy in
  let! _ := modify (set_client_handshake h) in
  let! _ := check (noise_errort err_NOISE__HANDSHAKESTATE__NEW__ e) in
  let! h := client_call h err_NOISE__DHSTATE__SET_PUBLIC_KEY__ (fun h => noise_dhstate_set_public_key h pubkey) in
  let! h := client_call h err_NOISE__HANDSHAKESTATE__START__ noise_handshakestate_start in
  let! _ := client_expect h NOISE_ACTION_WRITE_MESSAGE in
  let '(e, h, message) := noise_handshakestate_write_message h (Z.to_nat 4096) in
  let! _ := modify (set_client_handshake h) in
  let! _ := check (noise_errort err_NOISE__HANDSHAKESTATE__WRITE__ e) in
  let! _ := CHECK (length message =? NOISE_HANDSHAKEWRITE_SIZE)%nat in
  let! _ := ensure oe err_HOST__HANDSHAKE__CALL_ENCLAVE in
  let! id := gets (fun w => client_id (w_client w)) in
  let! out := ecall (enclave_handshake stray id message (Z.to_nat 8192)) in
  let! _ := client_expect h NOISE_ACTION_READ_MESSAGE in
  let '(e, h) := noise_handshakestate_read_message h out in
  let! _ := modify (set_client_handshake h) in
  let! _ := ensure (e =? NOISE_ERROR_NONE) err_HOST__HANDSHAKE__READ in
  let! _ := client_expect h NOISE_ACTION_SPLIT in
  let '(e, h, (tx, rx)) := noise_handshakestate_split h in
  let! _ := modify (set_client_channel h tx rx) in
  let! _ := ensure (e =? NOISE_ERROR_NONE) err_HOST__HANDSHAKE__SPLIT in
  client_expect h NOISE_ACTION_COMPLETE.
End ClientState.

(** ** Opening a session *)

(** What the library promises of a handshake between an initiator that knows the
    public key and a responder that has the private key: both follow the pattern of
    two messages, which fit the buffers of the two sides, and end with a channel in
    each direction.  [stage] relates the two states after so many messages. *)
Class HandshakePair {handshake cipher : Type} `{!NoiseLibrary cipher} `{!EnclaveLibrary handshake cipher} `{!ClientLibrary handshake}
    (sync : cipher -> cipher -> Prop) (stage : nat -> handshake -> handshake -> Prop) : Prop := {
  pair_start entropy entropy' key pubkey : noise_pubkey_from_privkey key = Ok pubkey ->
    exists h0 h1 hi hr, initiator_new_by_id entropy = (NOISE_ERROR_NONE, h0) /\ noise_dhstate_set_public_key h0 pubkey = (NOISE_ERROR_NONE, h1) /\
      noise_handshakestate_start h1 = (NOISE_ERROR_NONE, hi) /\
      noise_handshakestate_start (noise_dhstate_set_keypair_private (noise_handshakestate_new_by_id entropy').2 key).2 = (NOISE_ERROR_NONE, hr) /\ stage 0%nat hi hr;
  pair_request hi hr : stage 0%nat hi hr -> exists hi' hr' msg,
    noise_handshakestate_get_action hi = NOISE_ACTION_WRITE_MESSAGE /\ noise_handshakestate_write_message hi (Z.to_nat 4096) = (NOISE_ERROR_NONE, hi', msg) /\
    length msg = NOISE_HANDSHAKEWRITE_SIZE /\ noise_handshakestate_get_action hr = NOISE_ACTION_READ_MESSAGE /\
    noise_handshakestate_read_message hr msg = (NOISE_ERROR_NONE, hr') /\ stage 1%nat hi' hr';
  pair_response hi hr : stage 1%nat hi hr -> exists hi' hr' msg,
    noise_handshakestate_get_action hr = NOISE_ACTION_WRITE_MESSAGE /\
    noise_handshakestate_write_message hr NOISE_HANDSHAKEWRITE_SIZE = (NOISE_ERROR_NONE, hr', msg) /\ (length msg <= NOISE_HANDSHAKEWRITE_SIZE)%nat /\
    noise_handshakestate_get_action hi = NOISE_ACTION_READ_MESSAGE /\ noise_handshakestate_read_message hi msg = (NOISE_ERROR_NONE, hi') /\ stage 2%nat hi' hr';
  pair_split hi hr : stage 2%nat hi hr -> exists hi' hr' txi rxi txr rxr,
    noise_handshakestate_get_action hi = NOISE_ACTION_SPLIT /\ noise_handshakestate_get_action hr = NOISE_ACTION_SPLIT /\
    noise_handshakestate_split hi = (NOISE_ERROR_NONE, hi', (Some txi, Some rxi)) /\ noise_handshakestate_split hr = (NOISE_ERROR_NONE, hr', (Some txr, Some rxr)) /\
    noise_handshakestate_get_action hi' = NOISE_ACTION_COMPLETE /\ sync txi rxr /\ sync txr rxi;
}.

(** What attestation promises: evidence of the serialised claims verifies to
    them, and the message survives encoding. *)
Class AttestationLaws {handshake cipher : Type} `{!EnclaveLibrary handshake cipher} `{!ClientLibrary handshake} : Prop := {
  start_roundtrip x n bs : client_handshake_start_encode x n = Some bs -> client_handshake_start_decode bs = Some x;
  start_new : client_handshake_start_new (Z.shiftl 32 10) = true;
  verifier_ok : oe_verifier_initialize = true;
  evidence_ok claims ev en : oe_get_evidence claims = Some (ev, en) ->
    exists l, oe_verify_evidence ev en = Some l /\ find_claim l OE_CLAIM_CUSTOM_CLAIMS_BUFFER = Some claims;
  claims_ok pubkey claims : oe_serialize_custom_claims pubkey = Some claims -> oe_deserialize_custom_claims claims = Some [(pk_name, pubkey)];
}.
Arguments AttestationLaws handshake cipher {_ _}.

Section Session.
Context {RAM : Type} `{ObliviousRam RAM} {handshake cipher : Type} `{!NoiseLibrary cipher} `{!EnclaveLibrary handshake cipher} `{!ClientLibrary handshake}.
Context (sync : cipher -> cipher -> Prop) (stage : nat -> handshake -> handshake -> Prop) `{!HandshakePair sync stage} `{!AttestationLaws handshake cipher}.
Local Notation State := (enclave RAM handshake cipher).
Local Notation World := (world (RAM := RAM) (handshake := handshake) (cipher := cipher)).

(** The client finds the key that the enclave has wrapped. *)
Lemma extract_wrapped pubkey n bs : length pubkey = NOISE_KEY_SIZE -> wrap_in_ereport pubkey n = Ok bs -> extract_public_key bs = Some (Ok pubkey).
Proof.
  intros Hl. unfold wrap_in_ereport, extract_public_key. rewrite start_new. cbn [negb]. destruct (n <=? _)%nat; [done|]. cbn [assert_err rbind].
  destruct (oe_serialize_custom_claims pubkey) as [claims|] eqn:Ec; [|done]. pose proof (claims_ok pubkey claims Ec) as Hc.
  assert (Hk : (if (NOISE_KEY_SIZE <=? length pubkey)%nat then Some (Ok (take NOISE_KEY_SIZE pubkey)) else None) = Some (Ok pubkey)).
  { rewrite Hl, Nat.leb_refl, take_ge by lia. done. }
  destruct (oe_get_evidence claims) as [[ev en]|] eqn:Ee.
  - destruct (evidence_ok claims ev en Ee) as (l & Hv & Hf). cbn [rbind].
    destruct (client_handshake_start_encode _ n) as [out|] eqn:Eo; [|done]. intros [= <-]. rewrite (start_roundtrip _ _ _ Eo).
    cbn [test_only_pubkey evidence endorsement]. rewrite Hk, verifier_ok, Hv, Hf, Hc. cbn [negb]. destruct (0 <? length ev)%nat; [|done].
    rewrite bool_decide_true, Nat.ltb_irrefl, take_ge, bool_decide_true by done. done.
  - destruct (IS_TEST || INSECURE); [|done]. cbn [rbind]. destruct (client_handshake_start_encode _ n) as [out|] eqn:Eo; [|done].
    intros [= <-]. rewrite (start_roundtrip _ _ _ Eo). cbn [test_only_pubkey evidence length]. by rewrite Hk.
Qed.

Lemma no_noise_error space : check (S := State) (noise_errort space NOISE_ERROR_NONE) = ret tt.
Proof. done. Qed.

Lemma handshake_call_run (s : State) cli c h space f h' : c_handshake c = Some h -> f h = (NOISE_ERROR_NONE, h') ->
  handshake_call cli space f (at_client s cli c) = Some (Ok tt, at_client s cli (with_handshake (Some h') c)).
Proof.
  intros Hh Hf. unfold handshake_call. rewrite (bind_step _ _ _ _ _ (at_client_of s cli c)), Hh, (bind_step _ _ _ h _ eq_refl), Hf.
  by rewrite (bind_step _ _ _ _ _ (at_update s cli c _)), no_noise_error.
Qed.

Lemma handshake_expect_run (s : State) cli c h a : c_handshake c = Some h -> noise_handshakestate_get_action h = a ->
  handshake_expect cli a (at_client s cli c) = Some (Ok tt, at_client s cli c).
Proof.
  intros Hh Ha. unfold handshake_expect. rewrite (bind_step _ _ _ _ _ (at_client_of s cli c)), Hh, (bind_step _ _ _ h _ eq_refl).
  by rewrite bool_decide_true.
Qed.

(** The responder's side of a handshake that follows the pattern. *)
Lemma enclave_handshake_run stray (s : State) cli c h0 hr0 hr1 hr2 hr3 request response txr rxr n :
  client_ready s cli c -> c_handshake c = Some h0 -> noise_handshakestate_start h0 = (NOISE_ERROR_NONE, hr0) ->
  noise_handshakestate_get_action hr0 = NOISE_ACTION_READ_MESSAGE -> noise_handshakestate_read_message hr0 request = (NOISE_ERROR_NONE, hr1) ->
  noise_handshakestate_get_action hr1 = NOISE_ACTION_WRITE_MESSAGE ->
  noise_handshakestate_write_message hr1 NOISE_HANDSHAKEWRITE_SIZE = (NOISE_ERROR_NONE, hr2, response) -> (length response <= n)%nat ->
  noise_handshakestate_get_action hr2 = NOISE_ACTION_SPLIT -> noise_handshakestate_split hr2 = (NOISE_ERROR_NONE, hr3, (Some txr, Some rxr)) ->
  enclave_handshake stray cli request n s = Some (Ok response, at_client s cli
    {| acq := client_acq s CLIENT_UNUSED; workspace := workspace c; req := req c; c_handshake := None; send := Some txr; recv := Some rxr |}).
Proof.
  intros Hc Hh Hs Ha0 Hread Ha1 Hw Hn Ha2 Hsplit. set (c0 := with_acq (client_acq s CLIENT_INUSE) c).
  set (c' := with_handshake None (with_recv (Some rxr) (with_send (Some txr) c0))).
  change (at_client s cli _) with (at_client s cli (with_acq (client_acq s CLIENT_UNUSED) c')).
  eapply (with_client_run stray _ s s cli c _ _ Hc); [|exact (eq_refl : acq c' = client_acq s CLIENT_INUSE)]. fold c0.
  assert (Hh0 : c_handshake c0 = Some h0) by done. unfold handshake_body.
  rewrite (bind_step _ _ _ _ _ (at_client_of s cli c0)), Hh0, (bind_step _ _ _ tt _ eq_refl).
  rewrite (bind_step _ _ _ _ _ (handshake_call_run s cli c0 h0 _ _ hr0 Hh0 Hs)). set (c1 := with_handshake (Some hr0) c0).
  rewrite (bind_step _ _ _ _ _ (handshake_expect_run s cli c1 hr0 _ eq_refl Ha0)).
  rewrite (bind_step _ _ _ _ _ (handshake_call_run s cli c1 hr0 _ (fun h => noise_handshakestate_read_message h request) hr1 eq_refl Hread)).
  set (c2 := with_handshake (Some hr1) c1). rewrite (bind_step _ _ _ _ _ (handshake_expect_run s cli c2 hr1 _ eq_refl Ha1)).
  rewrite (bind_step _ _ _ _ _ (at_client_of s cli c2)), (bind_step _ _ _ hr1 _ eq_refl), Hw, (bind_step _ _ _ _ _ (at_update s cli c2 _)).
  rewrite no_noise_error, (bind_step _ _ _ tt _ eq_refl), (proj2 (Nat.ltb_ge _ _) Hn), (bind_step _ _ _ tt _ eq_refl).
  set (c3 := with_handshake (Some hr2) c2). rewrite (bind_step _ _ _ _ _ (handshake_expect_run s cli c3 hr2 _ eq_refl Ha2)).
  rewrite (bind_step _ _ _ _ _ (at_client_of s cli c3)), (bind_step _ _ _ hr2 _ eq_refl), Hsplit, (bind_step _ _ _ _ _ (at_update s cli c3 _)).
  rewrite no_noise_error, (bind_step _ _ _ tt _ eq_refl), (bind_step _ _ _ _ _ (at_update s cli _ _)). done.
Qed.

(** The client's side. *)
Lemma client_call_run (w : World) h space f h' : f h = (NOISE_ERROR_NONE, h') ->
  client_call h space f w = Some (Ok h', set_client_handshake h' w).
Proof. intros Hf. unfold client_call. by rewrite Hf, (bind_step _ _ _ tt _ eq_refl). Qed.

Lemma client_expect_run (w : World) h a : noise_handshakestate_get_action h = a -> client_expect h a w = Some (Ok tt, w).
Proof. intros Ha. unfold client_expect. by rewrite bool_decide_true. Qed.

Lemma session_spec stray (s : State) cli c key pubkey entropy entropy' e0 :
  client_ready s cli c -> c_handshake c = Some (noise_dhstate_set_keypair_private (noise_handshakestate_new_by_id entropy').2 key).2 ->
  noise_pubkey_from_privkey key = Ok pubkey -> client_id e0 = cli ->
  exists h txi rxi txr rxr, perform_handshake stray true entropy pubkey {| w_client := e0; w_enclave := s |} =
    Some (Ok tt, {| w_client := {| ecs_handshake := Some h; ecs_send := Some txi; ecs_recv := Some rxi; client_id := cli |};
      w_enclave := at_client s cli {| acq := client_acq s CLIENT_UNUSED; workspace := workspace c; req := req c; c_handshake := None; send := Some txr; recv := Some rxr |} |}) /\
    sync txi rxr /\ sync txr rxi.
Proof.
  intros Hc Hh Hpk Hid. destruct (pair_start entropy entropy' key pubkey Hpk) as (h0 & h1 & hi0 & hr0 & N0 & N1 & N2 & R0 & St0).
  destruct (pair_request hi0 hr0 St0) as (hi1 & hr1 & request & Ai0 & Wi & Lr & Ar0 & Rr & St1).
  destruct (pair_response hi1 hr1 St1) as (hi2 & hr2 & response & Ar1 & Wr & Lw & Ai1 & Ri & St2).
  destruct (pair_split hi2 hr2 St2) as (hi3 & hr3 & txi & rxi & txr & rxr & Ai2 & Ar2 & Si & Sr & Ai3 & S1 & S2).
  exists hi3, txi, rxi, txr, rxr. split; [|done]. subst cli.
  pose proof (enclave_handshake_run stray s (client_id e0) c _ hr0 hr1 hr2 hr3 request response txr rxr (Z.to_nat 8192) Hc Hh R0 Ar0 Rr Ar1 Wr ltac:(unfold NOISE_HANDSHAKEWRITE_SIZE in Lw; lia) Ar2 Sr) as Henc.
  unfold perform_handshake. rewrite N0, !(bind_step _ _ _ tt _ eq_refl).
  rewrite (bind_step _ _ _ _ _ (client_call_run _ h0 _ (fun h => noise_dhstate_set_public_key h pubkey) h1 N1)).
  rewrite (bind_step _ _ _ _ _ (client_call_run _ h1 _ _ hi0 N2)), (bind_step _ _ _ _ _ (client_expect_run _ hi0 _ Ai0)), Wi.
  rewrite !(bind_step _ _ _ tt _ eq_refl), Lr. change (NOISE_HANDSHAKEWRITE_SIZE =? NOISE_HANDSHAKEWRITE_SIZE)%nat with true. unfold ensure at 1.
  rewrite !(bind_step _ _ _ tt _ eq_refl), bind_gets. set (w := set_client_handshake hi1 _).
  assert (Hec : ecall (enclave_handshake stray (client_id (w_client w)) request (Z.to_nat 8192)) w =
    Some (Ok response, {| w_client := w_client w; w_enclave := at_client s (client_id e0) {| acq := client_acq s CLIENT_UNUSED; workspace := workspace c; req := req c; c_handshake := None; send := Some txr; recv := Some rxr |} |})).
  { unfold ecall. change (w_enclave w) with s. change (client_id (w_client w)) with (client_id e0). by rewrite Henc. }
  rewrite (bind_step _ _ _ _ _ Hec), (bind_step _ _ _ _ _ (client_expect_run _ hi1 _ Ai1)), Ri, !(bind_step _ _ _ tt _ eq_refl).
  rewrite (bind_step _ _ _ _ _ (client_expect_run _ hi2 _ Ai2)), Si, !(bind_step _ _ _ tt _ eq_refl). by rewrite (client_expect_run _ hi3 _ Ai3).
Qed.
End Session.
