(* ===== verification/SessionTheorems.v ===== *)
(** * Sessions: properties

    A client opens a session with the enclave: attestation, key and handshake,
    from the code of both sides. *)

From stdpp Require Import gmap.
From S2P Require Import Prelude Errors PositionMap OramInterface OramPositionMap OHTable Messages Noise StateError Enclave Clients EnclaveSpec EnclaveRun EnclaveTheorems ClientState.
Local Open Scope Z_scope.

(** ** Properties *)

(** C6. In every state that the host can reach after attestation, a new client can
    open a session: the handshake data that the enclave hands out has the public
    key of its current private key, the client accepts it, and the handshake
    succeeds on both sides.  The two channels are in step, and the enclave's client
    is free for the calls that follow. *)
Theorem open_session_correct {RAM} `{ObliviousRam RAM} {handshake cipher} `{!NoiseLibrary cipher} `{!EnclaveLibrary handshake cipher} `{!ClientLibrary handshake}
    sync stage `{!HandshakePair sync stage} `{!AttestationLaws handshake cipher} `{!HandshakeLaws handshake cipher}
    stray alloc id en n (s s1 : enclave RAM handshake cipher) cli start entropy e0 :
  (forall key pubkey, noise_pubkey_from_privkey key = Ok pubkey -> length pubkey = NOISE_KEY_SIZE) ->
  enclave_reachable s -> g_clients s !! id = None -> oe_is_within_enclave id = true -> id <> client_secret_addr -> g_handshakestart s <> [] ->
  enclave_new_client stray alloc id en n s = Some (Ok (cli, start), s1) -> client_id e0 = cli ->
  exists pubkey h txi rxi txr rxr s2 c, noise_pubkey_from_privkey (g_privkey s) = Ok pubkey /\ extract_public_key start = Some (Ok pubkey) /\
    perform_handshake stray true entropy pubkey {| w_client := e0; w_enclave := s1 |} =
      Some (Ok tt, {| w_client := {| ecs_handshake := Some h; ecs_send := Some txi; ecs_recv := Some rxi; client_id := cli |}; w_enclave := s2 |}) /\
    sync txi rxr /\ sync txr rxi /\ client_ready s2 cli c /\ req c = None /\ workspace c = 0 /\ send c = Some txr /\ recv c = Some rxr.
Proof.
  intros Hlen Hreach Hnew Hin Hsec Hatt Hrun He0. pose proof (enclave_reachable_inv s Hreach) as [_ [Hno|(pubkey & Hpk & Hwrap)] _ _]; [done|].
  destruct (new_client_run _ _ _ _ _ _ _ _ Hnew Hrun) as [(e & ? & _)|(Hres & Hinit & ->)]; [done|]. injection Hres as -> ->.
  set (c1 := {| acq := _ |}). set (s1 := at_client s id c1).
  assert (Hready : client_ready s1 id c1) by (split; [exact Hinit|done|done|apply lookup_insert_eq|reflexivity]).
  destruct (session_spec sync stage stray s1 id c1 (g_privkey s) pubkey entropy en e0 Hready eq_refl Hpk He0) as (h & txi & rxi & txr & rxr & Hperf & S1 & S2).
  eexists pubkey, h, txi, rxi, txr, rxr, _,
    {| acq := client_acq s1 CLIENT_UNUSED; workspace := 0; req := None; c_handshake := None; send := Some txr; recv := Some rxr |}.
  split_and!; [done|exact (extract_wrapped _ _ _ (Hlen _ _ Hpk) Hwrap)|exact Hperf|done|done| |done..].
  split; [exact Hinit|done|done|apply lookup_insert_eq|done].
Qed.

(** ** The small enclave and its client *)

#[export] Instance toy_client_library : ClientLibrary nat := {|
  initiator_new_by_id _ := (0, 10%nat);
  noise_dhstate_set_public_key h _ := (0, h);
  client_handshake_start_decode bs :=
    match bs with
    | [] => None
    | n :: bs =>
        let pk := take (Z.to_nat n) bs in
        match drop (Z.to_nat n) bs with
        | [] => None
        | m :: bs => Some {| test_only_pubkey := pk; evidence := take (Z.to_nat m) bs; endorsement := drop (Z.to_nat m) bs |}
        end
    end;
  oe_verifier_initialize := true;
  oe_verify_evidence ev _ := Some [([1], ev)];
  oe_deserialize_custom_claims claims := Some [(pk_name, claims)];
  OE_CLAIM_CUSTOM_CLAIMS_BUFFER := [1] |}.

Definition toy_stage (k hi hr : nat) : Prop := hi = (10 + k)%nat /\ hr = k.

#[export] Instance toy_handshake_pair : HandshakePair (cipher := nat) eq toy_stage.
Proof.
  split.
  - intros. by exists 10%nat, 10%nat, 10%nat, 0%nat.
  - intros hi hr [-> ->]. exists 11%nat, 1%nat, (replicate NOISE_HANDSHAKEWRITE_SIZE 42). split_and!; try reflexivity. by split.
  - intros hi hr [-> ->]. exists 12%nat, 2%nat, [42]. split_and!; try reflexivity; [|by split].
    apply Nat.leb_le. reflexivity.
  - intros hi hr [-> ->]. exists 13%nat, 3%nat, 0%nat, 0%nat, 0%nat, 0%nat. by split_and!.
Qed.

#[export] Instance toy_attestation : AttestationLaws nat nat.
Proof.
  split; try reflexivity.
  - intros [pk ev en] n bs [= <-]. cbn. rewrite Nat2Z.id, take_app_length, drop_app_length, Nat2Z.id, take_app_length, drop_app_length. done.
  - intros claims ev en [= <- <-]. by eexists.
  - by intros pubkey claims [= <-].
Qed.

Lemma toy_pubkey_length key pubkey : noise_pubkey_from_privkey (handshake := nat) (cipher := nat) key = Ok pubkey -> length pubkey = NOISE_KEY_SIZE.
Proof.
  intros E. assert (take NOISE_KEY_SIZE (key ++ replicate NOISE_KEY_SIZE 0) = pubkey) as <- by (injection E; intros E'; exact E').
  rewrite length_take, length_app, length_replicate. lia.
Qed.

Lemma after_run {A} (m : M toy_state A) s r : fst <$> m s = Some r -> m s = Some (r, after m s).
Proof. unfold after. destruct (m s) as [[r' s']|]; [|done]. by intros [= ->]. Qed.

Lemma open_session_correct_witness :
  exists pubkey w h tx rx, extract_public_key (g_handshakestart toy_s2) = Some (Ok pubkey) /\ perform_handshake (fun _ => 0) true [] pubkey
      {| w_client := {| ecs_handshake := None; ecs_send := None; ecs_recv := None; client_id := 4096 |}; w_enclave := toy_s3 |} = Some (Ok tt, w) /\
    w_client w = {| ecs_handshake := Some h; ecs_send := Some tx; ecs_recv := Some rx; client_id := 4096 |}.
Proof.
  destruct (open_session_correct (RAM := inner_oram) (handshake := nat) (cipher := nat) eq toy_stage (fun _ => 0) true 4096 [] 1000 toy_s2 toy_s3 4096 (g_handshakestart toy_s2) []
    {| ecs_handshake := None; ecs_send := None; ecs_recv := None; client_id := 4096 |}) as (pubkey & h & txi & rxi & txr & rxr & s2 & c & _ & Hkey & Hrun & _).
  - exact toy_pubkey_length.
  - exact toy_s2_reachable.
  - vm_compute. reflexivity.
  - reflexivity.
  - discriminate.
  - vm_compute. discriminate.
  - unfold toy_s3. apply after_run. vm_compute. reflexivity.
  - reflexivity.
  - eexists pubkey, _, h, txi, rxi. split; [exact Hkey|]. split; [exact Hrun|reflexivity].
Defined.
