(* ===== verification/JniShim.v ===== *)
(** * The JNI shim ([c/jnishim/jnishim.c])

    The library that the Java service loads: one native function per call of the
    enclave, which turns error codes into Java exceptions, and the threads that
    run the shards' workers from [nativeEnclaveInit] to [nativeEnclaveClose]. *)

From stdpp Require Import gmap strings.
From S2P Require Import Prelude Errors OramInterface OHTable Statistics Shard PbEncoder PbDecoder PbWire Messages Noise StateError Enclave Clients EnclaveSpec.
Local Open Scope Z_scope.

(** ** Native functions *)

(** The pending exception of [throw_error] and of [throw_oe_error]. *)
Inductive jni_exception :=
  | CdsiEnclaveException (code : Z)
  | OpenEnclaveException (func : string) (code : Z).

(** A native function returns a value also when it has thrown. *)
Record jni_result (A : Type) := JniResult { returned : A; pending : option jni_exception }.
Arguments JniResult {A}.
Arguments returned {A}.
Arguments pending {A}.

Definition OE_OK : Z := 0.

(** The new limit of a buffer. *)
Definition limit_buffer (limit : Z) : Z := if limit >? INT_MAX then INT_MAX else to_i32 limit.

(** What Java reads of a direct buffer to which the enclave has written [out]. *)
Definition visible (out : list Z) : list Z := take (Z.to_nat (limit_buffer (Z.of_nat (length out)))) out.

Section Native.
Context {RAM : Type} `{ObliviousRam RAM} {handshake cipher : Type} `{!NoiseLibrary cipher} `{!EnclaveLibrary handshake cipher}.
Context (stray : Z -> Z).
Local Notation State := (enclave RAM handshake cipher).
Local Notation Native A := (State -> option (jni_result A * State)).

(** The body that the native functions share.  [oe] is the result of the
    transition into the enclave: unless it is [OE_OK] the call is not made. *)
Definition native {A B} (func : string) (oe : Z) (m : M State A) (failed : B) (k : A -> B) : Native B := fun s =>
  if negb (oe =? OE_OK) then Some (JniResult failed (Some (OpenEnclaveException func oe)), s)
  else
    match m s with
    | Some (Ok a, s) => Some (JniResult (k a) None, s)
    | Some (Err e, s) => Some (JniResult failed (Some (CdsiEnclaveException (error_code e))), s)
    | None => None
    end.

Definition nativeLoadData (oe : Z) (alloc : bool) (data : list Z) : Native unit :=
  native "enclave_load_pb" oe (enclave_load_pb alloc data) tt id.

(** The client's id as a [jlong], and the output. *)
Definition nativeClientCreate (oe : Z) (alloc : bool) (id : Z) (entropy : list Z) (out_size : nat) : Native (Z * list Z) :=
  native "enclave_new_client" oe (enclave_new_client stray alloc id entropy out_size) (0, [])
    (fun r => (to_i64 r.1, visible r.2)).

Definition nativeClientHandshake (oe : Z) (cli : Z) (input : list Z) (out_size : nat) : Native (list Z) :=
  native "enclave_handshake" oe (enclave_handshake stray (wrap64 cli) input out_size) [] visible.

(** The request's size as a [jint], and the three outputs. *)
Definition nativeClientRate (oe : Z) (alloc : nat -> bool) (ws : Z) (random : option (list Z)) (cli : Z) (input : list Z)
    (out_size old_token_hash_size new_token_hash_size : nat) : Native (Z * (list Z * list Z * list Z)) :=
  native "enclave_rate_limit" oe
    (enclave_rate_limit stray alloc ws random (wrap64 cli) input out_size old_token_hash_size new_token_hash_size) (-1, ([], [], []))
    (fun r => (to_i32 (rl_computed_request_size r), (visible (rl_out r), visible (rl_old_token_hash r), visible (rl_new_token_hash r)))).

Definition nativeClientRun (oe : Z) (alloc pair_alloc : nat -> bool) (rnd : nat -> Z) (sipkey : list Z) (mem : Z -> Z) (stack : Z)
    (cli : Z) (permits : Z) (input : list Z) (out_size : nat) : Native (list Z) :=
  native "enclave_run" oe (enclave_run stray alloc pair_alloc rnd sipkey mem stack (wrap64 cli) (wrap32 permits) input out_size) [] visible.

Definition nativeClientClose (oe : Z) (cli : Z) : Native unit :=
  native "enclave_close_client" oe (enclave_close_client stray (wrap64 cli)) tt id.

Definition nativeEnclaveAttest (oe : Z) (alloc : bool) (key_random : option (list Z)) : Native unit :=
  native "enclave_attest" oe (enclave_attest alloc key_random) tt id.

Definition nativeEnclaveTableStatistics (oe : Z) (alloc : bool) (create : ohtable RAM -> ohtable_statistics * ohtable RAM) (out_size : nat) :
    Native (list Z) :=
  native "enclave_table_statistics" oe (enclave_table_statistics alloc create out_size) [] visible.
End Native.

(** ** The shards' threads *)

(** How far a thread is in [shard_thread_fn]: before it is counted, before it
    enters the enclave, in the worker's loop, after the stop request, back from the
    enclave, finished. *)
Inductive shard_thread := T_STARTED | T_COUNTED | T_WORKING | T_STOPPED | T_RETURNED | T_DONE.
#[export] Instance shard_thread_eq_dec : EqDecision shard_thread.
Proof. solve_decision. Defined.

Record cdsi_enclave_t := CdsiEnclave { ce_num_shards : nat; tids : list nat; running_shard_threads : Z }.

(** The thread that opens and closes the enclave: in the loop of
    [nativeEnclaveInit], between the two functions, in the loop of
    [enclave_stop_shards] and in [shard_stop] waiting for the worker, both with the
    error so far, in the loop of joins, and after [nativeEnclaveClose] with the
    exception it threw. *)
Inductive host_pc :=
  | H_CREATE (i : nat) | H_SERVE | H_STOP (i : nat) (err : error_t) | H_STOP_WAIT (i : nat) (err : error_t) | H_JOIN (i : nat)
  | H_CLOSED (e : option jni_exception).

(** [j_cdsi] is [None] once the struct is freed, [j_workers] are the [running]
    fields of the shards, and [j_enclave] says whether the enclave is loaded. *)
Record jni_system := JniSystem {
  j_cdsi : option cdsi_enclave_t;
  j_enclave : bool;
  j_threads : list shard_thread;
  j_workers : list shard_worker_state;
  j_host : host_pc;
}.

Definition set_host (h : host_pc) (y : jni_system) : jni_system :=
  {| j_cdsi := j_cdsi y; j_enclave := j_enclave y; j_threads := j_threads y; j_workers := j_workers y; j_host := h |}.
Definition set_thread (i : nat) (t : shard_thread) (y : jni_system) : jni_system :=
  {| j_cdsi := j_cdsi y; j_enclave := j_enclave y; j_threads := <[i := t]> (j_threads y); j_workers := j_workers y; j_host := j_host y |}.
Definition set_worker (i : nat) (w : shard_worker_state) (y : jni_system) : jni_system :=
  {| j_cdsi := j_cdsi y; j_enclave := j_enclave y; j_threads := j_threads y; j_workers := <[i := w]> (j_workers y); j_host := j_host y |}.

(** [atomic_fetch_add] on the counter; [None] is an access to freed memory. *)
Definition add_running (d : Z) (y : jni_system) : option jni_system :=
  match j_cdsi y with
  | Some e =>
      Some {| j_cdsi := Some {| ce_num_shards := ce_num_shards e; tids := tids e; running_shard_threads := to_i32 (running_shard_threads e + d) |};
              j_enclave := j_enclave y; j_threads := j_threads y; j_workers := j_workers y; j_host := j_host y |}
  | None => None
  end.

(** [nativeEnclaveInit] up to its loop: the results of the creation of the enclave
    and of [enclave_init] decide.  On an error the first component says whether
    the enclave stays loaded. *)
Definition nativeEnclaveInit (create init : Z) (retval : error_t) (num_shards : nat) : bool * jni_exception + jni_system :=
  if negb (create =? OE_OK) then inl (false, OpenEnclaveException "oe_create_cds_enclave" create)
  else if negb (init =? OE_OK) then inl (true, OpenEnclaveException "enclave_init" init)
  else if negb (is_success retval) then inl (true, CdsiEnclaveException (error_code retval))
  else inr {| j_cdsi := Some {| ce_num_shards := num_shards; tids := []; running_shard_threads := 0 |}; j_enclave := true;
              j_threads := []; j_workers := replicate num_shards SHARD_WORKER_IDLE; j_host := H_CREATE 0 |}.

(** One round of the loop that starts the threads. *)
Definition run_shard (y : jni_system) (e : cdsi_enclave_t) (i : nat) : jni_system :=
  {| j_cdsi := Some {| ce_num_shards := ce_num_shards e; tids := tids e ++ [length (j_threads y)]; running_shard_threads := running_shard_threads e |};
     j_enclave := j_enclave y; j_threads := j_threads y ++ [T_STARTED]; j_workers := j_workers y; j_host := H_CREATE (S i) |}.

(** The next step of thread [i]; [oe] is the result of its call into the enclave.
    In there [shard_run] claims the shard's worker, serves requests until the stop
    request comes, and gives the worker up.  [None] is a thread that waits or has
    finished, and an access to freed memory. *)
Definition shard_thread_fn (y : jni_system) (i : nat) (oe : Z) : option jni_system :=
  match j_threads y !! i with
  | Some T_STARTED => set_thread i T_COUNTED <$> add_running 1 y
  | Some T_COUNTED =>
      if negb (oe =? OE_OK) then Some (set_thread i T_RETURNED y)
      else
        match j_workers y !! i with
        | Some SHARD_WORKER_IDLE => Some (set_worker i SHARD_WORKER_RUNNING (set_thread i T_WORKING y))
        | Some _ => Some (set_thread i T_RETURNED y)
        | None => None
        end
  | Some T_WORKING => match j_workers y !! i with Some SHARD_WORKER_STOPPING => Some (set_thread i T_STOPPED y) | _ => None end
  | Some T_STOPPED => Some (set_worker i SHARD_WORKER_IDLE (set_thread i T_RETURNED y))
  | Some T_RETURNED => set_thread i T_DONE <$> add_running (-1) y
  | Some T_DONE => None
  | None => None
  end.

(** Has the thread signalled the waiter of the stop request? *)
Definition stop_signalled (t : shard_thread) : bool :=
  match t with T_STOPPED | T_RETURNED | T_DONE => true | _ => false end.

(** The end of [nativeEnclaveClose]. *)
Definition close_finish (y : jni_system) (loaded : bool) (e : option jni_exception) : jni_system :=
  {| j_cdsi := None; j_enclave := loaded; j_threads := j_threads y; j_workers := j_workers y; j_host := H_CLOSED e |}.

(** The error that [enclave_stop_shards] keeps of a shard's. *)
Definition first_stop_error (err shard_err : error_t) : error_t :=
  if negb (is_success shard_err) && negb (bool_decide (shard_err = err_SHARD__NOT_RUNNING)) && is_success err then shard_err else err.

(** The next step of [nativeEnclaveClose].  [oe] is the result of the call into the
    enclave; [code] is an error that arises inside of it: of [check_init_complete], and
    of the stop request when its waiter is done.  [shard_stop] claims a running
    worker and waits for it; a shard without one is passed over. *)
Definition nativeEnclaveClose (y : jni_system) (oe : Z) (code : error_t) : option jni_system :=
  match j_cdsi y with
  | None => None
  | Some e =>
      match j_host y with
      | H_SERVE =>
          if negb (oe =? OE_OK) then Some (close_finish y (j_enclave y) (Some (OpenEnclaveException "enclave_stop_shards" oe)))
          else if negb (is_success code) then Some (close_finish y (j_enclave y) (Some (CdsiEnclaveException (error_code code))))
          else Some (set_host (H_STOP 0 err_SUCCESS) y)
      | H_STOP i err =>
          match j_workers y !! i with
          | Some SHARD_WORKER_RUNNING => Some (set_host (H_STOP_WAIT i err) (set_worker i SHARD_WORKER_STOPPING y))
          | Some _ => Some (set_host (H_STOP (S i) (first_stop_error err err_SHARD__NOT_RUNNING)) y)
          | None =>
              if negb (is_success err) then Some (close_finish y (j_enclave y) (Some (CdsiEnclaveException (error_code err))))
              else Some (set_host (H_JOIN 0) y)
          end
      | H_STOP_WAIT i err =>
          match j_threads y !! i with
          | Some t => if stop_signalled t then Some (set_host (H_STOP (S i) (first_stop_error err code)) y) else None
          | None => None
          end
      | H_JOIN i =>
          if (i <? ce_num_shards e)%nat then
            match tids e !! i ≫= fun t => j_threads y !! t with Some T_DONE => Some (set_host (H_JOIN (S i)) y) | _ => None end
          else if negb (oe =? OE_OK) then Some (close_finish y (j_enclave y) (Some (OpenEnclaveException "oe_terminate_enclave" oe)))
          else Some (close_finish y false None)
      | _ => None
      end
  end.

(** The host's loop in [nativeEnclaveInit], then [nativeEnclaveClose]. *)
Definition host_step (y : jni_system) (oe : Z) (code : error_t) : option jni_system :=
  match j_cdsi y, j_host y with
  | Some e, H_CREATE i => if (i <? ce_num_shards e)%nat then Some (run_shard y e i) else Some (set_host H_SERVE y)
  | _, _ => nativeEnclaveClose y oe code
  end.

Inductive jni_step : jni_system -> jni_system -> Prop :=
  | step_thread y i oe y' : shard_thread_fn y i oe = Some y' -> jni_step y y'
  | step_host y oe code y' : host_step y oe code = Some y' -> jni_step y y'.

Inductive jni_reachable (n : nat) : jni_system -> Prop :=
  | jni_reach_init create init retval y : nativeEnclaveInit create init retval n = inr y -> jni_reachable n y
  | jni_reach_step y y' : jni_reachable n y -> jni_step y y' -> jni_reachable n y'.

Definition nativeGetRunningShardThreadCount (e : cdsi_enclave_t) : Z := running_shard_threads e.

(** A thread whose next step reads or writes the freed struct. *)
Definition uses_freed (y : jni_system) : Prop :=
  j_cdsi y = None /\ exists i, j_threads y !! i = Some T_STARTED \/ j_threads y !! i = Some T_RETURNED.

(** ** Invariant *)

(** The threads that the counter counts. *)
Definition counted (t : shard_thread) : nat :=
  match t with T_COUNTED | T_WORKING | T_STOPPED | T_RETURNED => 1 | T_STARTED | T_DONE => 0 end.

(** The state of a shard's worker while its thread is at [t]. *)
Definition worker_of (t : shard_thread) (w : shard_worker_state) : Prop :=
  match t with
  | T_WORKING => w = SHARD_WORKER_RUNNING \/ w = SHARD_WORKER_STOPPING
  | T_STOPPED => w = SHARD_WORKER_STOPPING
  | _ => w = SHARD_WORKER_IDLE
  end.

Definition all_done (y : jni_system) : Prop := forall i t, j_threads y !! i = Some t -> t = T_DONE.

(** What holds at each step of the host. *)
Definition host_inv (n : nat) (y : jni_system) : Prop :=
  match j_host y with
  | H_CREATE i => is_Some (j_cdsi y) /\ i = length (j_threads y)
  | H_SERVE | H_STOP _ _ => is_Some (j_cdsi y) /\ length (j_threads y) = n
  | H_STOP_WAIT i _ => is_Some (j_cdsi y) /\ length (j_threads y) = n /\ (i < n)%nat /\
      (j_workers y !! i = Some SHARD_WORKER_STOPPING \/ exists t, j_threads y !! i = Some t /\ stop_signalled t = true)
  | H_JOIN i => is_Some (j_cdsi y) /\ length (j_threads y) = n /\ forall k t, (k < i)%nat -> j_threads y !! k = Some t -> t = T_DONE
  | H_CLOSED e => j_cdsi y = None /\ length (j_threads y) = n /\
      match e with
      | Some (OpenEnclaveException f _) => f = "enclave_stop_shards"%string \/ all_done y
      | Some (CdsiEnclaveException c) => c <> 0
      | None => all_done y /\ j_enclave y = false
      end
  end.

Record jni_inv (n : nat) (y : jni_system) : Prop := {
  ji_cdsi e : j_cdsi y = Some e -> ce_num_shards e = n /\ tids e = seq 0 (length (j_threads y)) /\
    running_shard_threads e = Z.of_nat (sum_list_with counted (j_threads y));
  ji_workers : length (j_workers y) = n /\ (length (j_threads y) <= n)%nat;
  ji_worker i w : j_workers y !! i = Some w ->
    match j_threads y !! i with Some t => worker_of t w | None => w = SHARD_WORKER_IDLE end;
  ji_host : host_inv n y;
}.

Lemma sum_insert {A} (f : A -> nat) (l : list A) i x x0 : l !! i = Some x0 ->
  (sum_list_with f (<[i := x]> l) + f x0 = sum_list_with f l + f x)%nat.
Proof. revert i. induction l as [|a l IH]; intros [|i] E; simplify_eq/=; [lia|]. specialize (IH i E). lia. Qed.

Lemma counted_bound l : (sum_list_with counted l <= length l)%nat.
Proof. induction l as [|t l IH]; simpl; [lia|]. destruct t; simpl; lia. Qed.

Lemma jni_init_inv n create init retval y : nativeEnclaveInit create init retval n = inr y -> jni_inv n y.
Proof.
  unfold nativeEnclaveInit. repeat case_match; intros; simplify_eq. split; cbn.
  - by intros e [= <-].
  - rewrite length_replicate. split; [done|lia].
  - by intros i w [-> _]%lookup_replicate.
  - by split.
Qed.

(** A thread's step keeps the invariant when it moves the thread from [t] to [t'],
    its worker to a state that fits, and the counter along. *)
Lemma thread_move n y y' i t t' : jni_inv n y -> j_threads y !! i = Some t -> j_threads y' = <[i := t']> (j_threads y) ->
  j_host y' = j_host y -> j_enclave y' = j_enclave y -> t <> T_DONE -> (stop_signalled t = true -> stop_signalled t' = true) ->
  (forall e', j_cdsi y' = Some e' -> exists e, j_cdsi y = Some e /\ ce_num_shards e' = ce_num_shards e /\ tids e' = tids e /\
     running_shard_threads e' + Z.of_nat (counted t) = running_shard_threads e + Z.of_nat (counted t')) ->
  (is_Some (j_cdsi y) <-> is_Some (j_cdsi y')) ->
  (exists w, j_workers y' = <[i := w]> (j_workers y) /\ worker_of t' w /\ (w = SHARD_WORKER_STOPPING \/ stop_signalled t' = true \/ j_workers y !! i <> Some SHARD_WORKER_STOPPING)) ->
  jni_inv n y'.
Proof.
  intros [Hc [Hw Hl] Hf Hh] Et Ht' Ehost Eenc Hnd Hss Hcd Hsome (w & Ew & Hwt & Hstop).
  assert (i < length (j_threads y))%nat as Hi by (by apply lookup_lt_is_Some; eexists).
  split.
  - intros e' E'. destruct (Hcd e' E') as (e & E & -> & -> & Hr). destruct (Hc e E) as (? & ? & Hrun). rewrite Ht', length_insert.
    split_and!; [done|done|]. pose proof (sum_insert counted _ i t' t Et). lia.
  - by rewrite Ew, Ht', !length_insert.
  - intros k wk. rewrite Ew, Ht'. destruct (decide (k = i)) as [->|Hne].
    + rewrite !list_lookup_insert_eq by lia. by intros [= <-].
    + rewrite !list_lookup_insert_ne by done. apply Hf.
  - assert (all_done y -> False) as Hnad by (intros Ha; exact (Hnd (Ha i t Et))). unfold host_inv in *. rewrite Ehost, Ht', length_insert.
    destruct (j_host y) as [k| |k err|k err|k|e].
    + destruct Hh. split; [by apply Hsome|done].
    + destruct Hh. split; [by apply Hsome|done].
    + destruct Hh. split; [by apply Hsome|done].
    + destruct Hh as (? & ? & ? & Hk). split_and!; [by apply Hsome|done|done|]. destruct (decide (k = i)) as [->|Hne].
      * rewrite Ew, !list_lookup_insert_eq by lia. destruct Hstop as [->|[Hst|Hns]]; [by left|right; by exists t'|].
        destruct Hk as [?|(t0 & ? & ?)]; [done|]. right. exists t'. simplify_eq. auto.
      * rewrite Ew, !list_lookup_insert_ne by done. done.
    + destruct Hh as (? & ? & Hk). split_and!; [by apply Hsome|done|]. intros j tj Hj. destruct (decide (j = i)) as [->|Hne].
      * by specialize (Hk i t Hj Et).
      * rewrite list_lookup_insert_ne by done. by apply Hk.
    + destruct Hh as (Hn & ? & Hk). split_and!; [|done|].
      * apply eq_None_not_Some. intros ?%Hsome. rewrite Hn in *. by destruct (is_Some_None (A:=cdsi_enclave_t)).
      * destruct e as [[|f code]|]; [done| |by destruct Hk]. destruct Hk as [?|Ha]; [by left|by destruct Hnad].
Qed.

Lemma same_worker n y i t : jni_inv n y -> j_threads y !! i = Some t ->
  exists w, j_workers y !! i = Some w /\ worker_of t w /\ j_workers y = <[i := w]> (j_workers y).
Proof.
  intros [_ [Hw Hl] Hf _] Et. pose proof (lookup_lt_Some _ _ _ Et).
  destruct (lookup_lt_is_Some_2 (j_workers y) i) as [w E]; [lia|]. exists w. specialize (Hf i w E). rewrite Et in Hf.
  by rewrite (list_insert_id _ _ _ E).
Qed.

(** The two accesses to the counter. *)
Lemma add_running_move n y i d t t' y' : Z.of_nat n < 2 ^ 31 -> jni_inv n y -> j_threads y !! i = Some t -> t <> T_DONE ->
  (forall w, worker_of t w -> worker_of t' w) -> (stop_signalled t = true -> stop_signalled t' = true) -> d = Z.of_nat (counted t') - Z.of_nat (counted t) ->
  set_thread i t' <$> add_running d y = Some y' -> jni_inv n y'.
Proof.
  intros Hn Hi Et Hnd Hwo Hss -> H. unfold add_running in H. destruct (j_cdsi y) as [e|] eqn:E; [|done]. injection H as <-.
  destruct (same_worker n y i t Hi Et) as (w & Ew & Hw & Eq). eapply thread_move with (t := t); [exact Hi|exact Et|try done..]; cbn.
  - intros e' [= <-]. exists e. split_and!; [done..|]. cbn. destruct (ji_cdsi _ _ Hi e E) as (_ & _ & ->).
    pose proof (counted_bound (<[i := t']> (j_threads y))) as Hb. rewrite length_insert in Hb. pose proof (sum_insert counted _ i t' t Et).
    destruct (ji_workers _ _ Hi). rewrite to_i32_small; lia.
  - exists w. split_and!; [done|by apply Hwo|]. destruct w; [by right; right; rewrite Ew..|by left].
Qed.

(** A step of a thread that does not touch the struct. *)
Lemma quiet_move n y i t t' w : jni_inv n y -> j_threads y !! i = Some t -> t <> T_DONE -> counted t = counted t' ->
  (stop_signalled t = true -> stop_signalled t' = true) -> worker_of t' w ->
  (w = SHARD_WORKER_STOPPING \/ stop_signalled t' = true \/ j_workers y !! i <> Some SHARD_WORKER_STOPPING) ->
  jni_inv n (set_worker i w (set_thread i t' y)).
Proof.
  intros Hi Et Hnd Hcc Hss Hw Hstop. eapply thread_move with (t := t); [exact Hi|exact Et|done..| | |]; cbn.
  - intros e' E. exists e'. rewrite Hcc. done.
  - done.
  - by exists w.
Qed.

Lemma keep_worker n y i t' w : jni_inv n y -> j_workers y !! i = Some w -> set_worker i w (set_thread i t' y) = set_thread i t' y.
Proof. intros _ E. unfold set_worker. cbn. by rewrite (list_insert_id _ _ _ E). Qed.

Lemma thread_step_inv n y i oe y' : Z.of_nat n < 2 ^ 31 -> jni_inv n y -> shard_thread_fn y i oe = Some y' -> jni_inv n y'.
Proof.
  intros Hn Hi H. unfold shard_thread_fn in H. destruct (j_threads y !! i) as [t|] eqn:Et; [|done].
  destruct (same_worker n y i t Hi Et) as (w & Ew & Hw & Eq). destruct t; cbn in Hw.
  - by apply (add_running_move n y i 1 T_STARTED T_COUNTED y' Hn Hi Et).
  - subst w. rewrite Ew in H. destruct (negb _); injection H as <-.
    + rewrite <- (keep_worker n y i _ _ Hi Ew). eapply quiet_move; [exact Hi|exact Et|try done..]. by right; left.
    + eapply quiet_move; [exact Hi|exact Et|try done..|by left|]. right; right. by rewrite Ew.
  - rewrite Ew in H. destruct w; try done. injection H as <-. rewrite <- (keep_worker n y i _ _ Hi Ew).
    eapply quiet_move; [exact Hi|exact Et|try done..]. by left.
  - injection H as <-. eapply quiet_move; [exact Hi|exact Et|try done..]. by right; left.
  - by apply (add_running_move n y i (-1) T_RETURNED T_DONE y' Hn Hi Et).
  - done.
Qed.

(** A step of the host that changes neither threads nor the struct. *)
Lemma set_host_inv n y h : jni_inv n y -> host_inv n (set_host h y) -> jni_inv n (set_host h y).
Proof. intros [Hc Hw Hf _] Hh. by split. Qed.

Lemma create_inv n y e i : jni_inv n y -> j_cdsi y = Some e -> j_host y = H_CREATE i -> (i < n)%nat -> jni_inv n (run_shard y e i).
Proof.
  intros [Hc [Hw Hl] Hf Hh] E Eh Hi. destruct (Hc e E) as (? & Ht & Hr). unfold host_inv in Hh. rewrite Eh in Hh. destruct Hh as [_ ->].
  split; cbn; rewrite ?length_app; cbn.
  - intros e' [= <-]. cbn. rewrite Ht, Hr, seq_app, sum_list_with_app. split_and!; [done|done|]. simpl. lia.
  - split; [done|lia].
  - intros k w E'. specialize (Hf k w E'). destruct (decide (k < length (j_threads y))%nat).
    + by rewrite lookup_app_l by done.
    + rewrite lookup_app_r by lia. rewrite (lookup_ge_None_2 (j_threads y)) in Hf by lia. by destruct (k - length (j_threads y))%nat.
  - unfold host_inv; cbn. split; [by eexists|]. rewrite ?length_app; simpl; lia.
Qed.

Lemma finish_inv n y loaded e : jni_inv n y -> length (j_threads y) = n ->
  match e with
  | Some (OpenEnclaveException f _) => f = "enclave_stop_shards"%string \/ all_done y
  | Some (CdsiEnclaveException c) => c <> 0
  | None => all_done y /\ loaded = false
  end -> jni_inv n (close_finish y loaded e).
Proof. intros [Hc Hw Hf _] Hl He. by split. Qed.

Lemma stop_inv n y i err : jni_inv n y -> j_host y = H_STOP i err -> j_workers y !! i = Some SHARD_WORKER_RUNNING ->
  jni_inv n (set_host (H_STOP_WAIT i err) (set_worker i SHARD_WORKER_STOPPING y)).
Proof.
  intros [Hc [Hw Hl] Hf Hh] Eh Ew. unfold host_inv in Hh. rewrite Eh in Hh. destruct Hh as [? ?].
  pose proof (lookup_lt_Some _ _ _ Ew). split; cbn; [done|by rewrite length_insert| |].
  - intros k w. destruct (decide (k = i)) as [->|]; [|rewrite list_lookup_insert_ne by done; apply Hf].
    rewrite list_lookup_insert_eq by lia. intros [= <-]. specialize (Hf i _ Ew).
    destruct (j_threads y !! i) as [t|]; [|done]. destruct t; simpl in *; try done. by right.
  - unfold host_inv; cbn. split_and!; [done|done|lia|]. left. by rewrite list_lookup_insert_eq by lia.
Qed.

Lemma host_step_inv n y oe code y' : jni_inv n y -> host_step y oe code = Some y' -> jni_inv n y'.
Proof.
  intros Hi H. unfold host_step, nativeEnclaveClose in H. pose proof (ji_host _ _ Hi) as Hh. destruct (j_cdsi y) as [e|] eqn:E; [|by destruct (j_host y)].
  destruct (ji_cdsi _ _ Hi e E) as (Hn & Ht & _). destruct (ji_workers _ _ Hi) as [Hw Hl]. unfold host_inv in Hh.
  destruct (j_host y) as [i| |i err|i err|i|x] eqn:Eh; [| | | | |done].
  - destruct Hh as [? ->]. destruct (_ <? _)%nat eqn:C; injection H as <-; [apply Nat.ltb_lt in C|apply Nat.ltb_ge in C].
    + apply create_inv; [done..|by rewrite <- Hn].
    + apply set_host_inv; [done|]. split; [done|cbn; lia].
  - destruct Hh. destruct (negb (oe =? OE_OK)); [injection H as <-; apply finish_inv; [done|done|by left]|].
    destruct (is_success code) eqn:Es; injection H as <-; [by apply set_host_inv|apply finish_inv; [done|done|by apply Z.eqb_neq]].
  - destruct Hh. destruct (j_workers y !! i) as [[]|] eqn:Ew; [injection H as <-; by apply set_host_inv|injection H as <-; by apply stop_inv|
      injection H as <-; by apply set_host_inv|].
    destruct (is_success err) eqn:Es; injection H as <-; [|apply finish_inv; [done|done|by apply Z.eqb_neq]].
    apply set_host_inv; [done|]. split_and!; [done|done|cbn; lia].
  - destruct Hh as (? & ? & _). destruct (j_threads y !! i) as [t|]; [|done]. destruct (stop_signalled t); [|done]. injection H as <-. by apply set_host_inv.
  - destruct Hh as (? & Hlen & Hd). destruct (_ <? _)%nat eqn:C; [apply Nat.ltb_lt in C|apply Nat.ltb_ge in C].
    + rewrite Ht, lookup_seq_lt in H by lia. cbn in H. destruct (j_threads y !! i) as [[]|] eqn:Et; try done. injection H as <-.
      apply set_host_inv; [done|]. split_and!; [done|done|]. intros k t Hk Ek. cbn in Ek.
      destruct (decide (k = i)) as [->|]; [congruence|]. apply (Hd k t); [lia|done].
    + assert (all_done y) by (intros k t Ek; pose proof (lookup_lt_Some _ _ _ Ek); apply (Hd k t); [lia|done]).
      destruct (negb _); injection H as <-; apply finish_inv; auto.
Qed.

Lemma jni_reachable_inv n y : Z.of_nat n < 2 ^ 31 -> jni_reachable n y -> jni_inv n y.
Proof.
  intros Hn. induction 1 as [c i r y H|y y' _ IH Hs]; [by eapply jni_init_inv|]. destruct Hs as [y i oe y' H|y oe code y' H].
  - by eapply thread_step_inv.
  - by eapply host_step_inv.
Qed.
