(* ===== verification/JniTheorems.v ===== *)
(** * The JNI shim: properties

    The threads of the shards from the start to the close of the enclave, and the
    native functions over the enclave's state. *)

From stdpp Require Import gmap strings relations.
From S2P Require Import Prelude Errors PositionMap OramInterface OramPositionMap OHTable Shard PbEncoder PbWire Messages Noise StateError Enclave Clients EnclaveSpec EnclaveTheorems SessionTheorems JniShim.
Local Open Scope Z_scope.

(** ** Termination and the close *)

(** The steps that are left to a thread, and to the host with those of the threads
    it still creates. *)
Definition thread_steps (t : shard_thread) : nat :=
  match t with T_STARTED => 5 | T_COUNTED => 4 | T_WORKING => 3 | T_STOPPED => 2 | T_RETURNED => 1 | T_DONE => 0 end.
Definition host_steps (n : nat) (h : host_pc) : nat :=
  match h with
  | H_CREATE i => 6 * (n - i) + 3 * n + 5
  | H_SERVE => 3 * n + 4
  | H_STOP i _ => 2 * (n - i) + n + 3
  | H_STOP_WAIT i _ => 2 * (n - i) + n + 2
  | H_JOIN i => n - i + 1
  | H_CLOSED _ => 0
  end.
Definition steps_left (n : nat) (y : jni_system) : nat := host_steps n (j_host y) + sum_list_with thread_steps (j_threads y).

Lemma thread_step_less n y i oe y' : shard_thread_fn y i oe = Some y' -> (steps_left n y' < steps_left n y)%nat.
Proof.
  unfold shard_thread_fn, add_running, steps_left. destruct (j_threads y !! i) as [t|] eqn:Et; [|done]. intros H.
  assert (forall t', j_threads y' = <[i := t']> (j_threads y) -> j_host y' = j_host y -> (thread_steps t' < thread_steps t)%nat ->
    (steps_left n y' < steps_left n y)%nat) as Hm.
  { intros t' E1 E2 Hl. unfold steps_left. rewrite E1, E2. pose proof (sum_insert thread_steps _ i t' t Et). lia. }
  destruct t; repeat case_match; simplify_eq/=; (eapply Hm; [reflexivity|reflexivity|simpl; lia]).
Qed.

Lemma host_step_less n y oe code y' : jni_inv n y -> host_step y oe code = Some y' -> (steps_left n y' < steps_left n y)%nat.
Proof.
  intros Hi H. unfold host_step, nativeEnclaveClose, steps_left in *. destruct (j_cdsi y) as [e|] eqn:E; [|by destruct (j_host y)].
  destruct (ji_cdsi _ _ Hi e E) as (Hn & _ & _). destruct (ji_workers _ _ Hi) as [Hw _]. pose proof (ji_host _ _ Hi) as Hh. unfold host_inv in Hh.
  destruct (j_host y) as [i| |i err|i err|i|x] eqn:Eh; [| | | | |done].
  - destruct (_ <? _)%nat eqn:C; injection H as <-; [apply Nat.ltb_lt in C|apply Nat.ltb_ge in C]; simpl; [|lia].
    rewrite sum_list_with_app. simpl. lia.
  - destruct (negb _); [injection H as <-; simpl; lia|]. destruct (negb _); injection H as <-; simpl; lia.
  - destruct (j_workers y !! i) as [w|] eqn:Ew; [apply lookup_lt_Some in Ew; destruct w; injection H as <-; simpl; lia|].
    destruct (negb _); injection H as <-; simpl; lia.
  - destruct Hh as (_ & _ & ? & _). destruct (j_threads y !! i) as [t|]; [|done]. destruct (stop_signalled t); [|done]. injection H as <-. simpl. lia.
  - destruct (_ <? _)%nat eqn:C; [apply Nat.ltb_lt in C|apply Nat.ltb_ge in C].
    + destruct (_ ≫= _) as [[]|]; try done. injection H as <-. simpl. lia.
    + destruct (negb _); injection H as <-; simpl; lia.
Qed.

Lemma jni_step_less n y y' : jni_inv n y -> jni_step y y' -> (steps_left n y' < steps_left n y)%nat.
Proof. intros Hi Hs. destruct Hs as [y i oe y' H|y oe code y' H]; [exact (thread_step_less n _ _ _ _ H)|exact (host_step_less n _ _ _ _ Hi H)]. Qed.

Lemma jni_steps_inv n y y' : Z.of_nat n < 2 ^ 31 -> jni_inv n y -> jni_step y y' -> jni_inv n y'.
Proof. intros Hn Hi Hs. destruct Hs as [y i oe y' H|y oe code y' H]; [by eapply thread_step_inv|by eapply host_step_inv]. Qed.

Lemma jni_bound n y k y' : Z.of_nat n < 2 ^ 31 -> jni_inv n y -> nsteps jni_step k y y' -> (k + steps_left n y' <= steps_left n y)%nat.
Proof.
  intros Hn Hi. induction 1 as [|k y1 y2 y3 H _ IH]; [lia|]. pose proof (jni_step_less n _ _ Hi H).
  specialize (IH (jni_steps_inv _ _ _ Hn Hi H)). lia.
Qed.

(** Every worker had started before the close began: no thread is about to start
    one, and none runs among the shards that the host has passed. *)
Definition passed (n : nat) (h : host_pc) (k : nat) : Prop :=
  match h with H_STOP i _ => (k < i)%nat | H_STOP_WAIT i _ => (k <= i)%nat | H_JOIN _ => True | _ => False end.
Definition workers_started (n : nat) (y : jni_system) : Prop :=
  (forall i t, j_threads y !! i = Some t -> t <> T_STARTED /\ t <> T_COUNTED) /\
  (forall k, passed n (j_host y) k -> j_workers y !! k <> Some SHARD_WORKER_RUNNING) /\
  forall i, j_host y <> H_CREATE i.

Lemma insert_thread_started (l : list shard_thread) i t' :
  (forall k t, l !! k = Some t -> t <> T_STARTED /\ t <> T_COUNTED) -> t' <> T_STARTED /\ t' <> T_COUNTED ->
  forall k t, <[i := t']> l !! k = Some t -> t <> T_STARTED /\ t <> T_COUNTED.
Proof. intros Hl Ht k t [(_ & <- & _)|[_ E]]%list_lookup_insert_Some; [done|by eapply Hl]. Qed.

Lemma thread_step_started n y i oe y' : workers_started n y -> shard_thread_fn y i oe = Some y' -> workers_started n y'.
Proof.
  intros (Ht & Hp & Hc) H. unfold shard_thread_fn, add_running in H. destruct (j_threads y !! i) as [t|] eqn:Et; [|done].
  destruct (Ht i t Et). destruct t; [done|done|..]; repeat case_match; simplify_eq/=; (split_and!; [|cbn|done]);
    try (apply insert_thread_started; done); try done.
  intros k Hk. rewrite list_lookup_insert_Some. intros [(_ & ? & _)|[_ E]]; [done|by apply (Hp k)].
Qed.

Lemma host_step_started n y oe code y' : jni_inv n y -> workers_started n y -> host_step y oe code = Some y' -> workers_started n y'.
Proof.
  intros Hi (Ht & Hp & Hc) H. unfold host_step, nativeEnclaveClose in H. destruct (j_cdsi y) as [e|] eqn:E; [|by destruct (j_host y)].
  destruct (j_host y) as [i| |i err|i err|i|x] eqn:Eh; [by destruct (Hc i)| | | | |done].
  - destruct (negb _); [injection H as <-; by split_and!|]. destruct (negb _); injection H as <-; (split_and!; [done|cbn; try done|done]).
    intros k. simpl. lia.
  - destruct (j_workers y !! i) as [w|] eqn:Ew; [destruct w|destruct (negb _); [injection H as <-; by split_and!|]];
      injection H as <-; (split_and!; [done|cbn|done]); intros k Hk.
    + destruct (decide (k = i)) as [->|]; [by rewrite Ew|apply (Hp k); simpl; lia].
    + rewrite list_lookup_insert_Some. intros [(_ & ? & _)|[Hne E']]; [done|]. apply (Hp k); [simpl; lia|done].
    + destruct (decide (k = i)) as [->|]; [by rewrite Ew|apply (Hp k); simpl; lia].
    + intros E'. apply lookup_lt_Some in E' as Hlt. apply lookup_ge_None in Ew. by apply (Hp k); [simpl; lia|].
  - destruct (j_threads y !! i) as [t|]; [|done]. destruct (stop_signalled t); [|done]. injection H as <-. split_and!; [done| |done].
    intros k Hk. apply (Hp k). cbn in Hk |- *. lia.
  - destruct (_ <? _)%nat; [destruct (_ ≫= _) as [[]|]; try done; injection H as <-; split_and!; [done|done|done]|].
    destruct (negb _); injection H as <-; (split_and!; [done|done|done]).
Qed.

(** A thread that is not finished can go on, unless it waits for requests. *)
Lemma thread_progress n y i t : jni_inv n y -> is_Some (j_cdsi y) -> j_threads y !! i = Some t -> t <> T_DONE ->
  j_workers y !! i <> Some SHARD_WORKER_RUNNING -> exists y', jni_step y y'.
Proof.
  intros Hi [e E] Et Hnd Hnr. destruct (same_worker n y i t Hi Et) as (w & Ew & Hw & _).
  assert (is_Some (shard_thread_fn y i OE_OK)) as [y' H]; [|exists y'; by eapply step_thread].
  unfold shard_thread_fn, add_running. rewrite Et, E. destruct t; [by eexists| | |by eexists|by eexists|done].
  - cbn. rewrite Ew. by destruct w; eexists.
  - rewrite Ew. simpl in Hw. destruct Hw as [->| ->]; [by rewrite Ew in Hnr|by eexists].
Qed.

Lemma close_progress n y : jni_inv n y -> workers_started n y -> (forall e, j_host y <> H_CLOSED e) -> exists y', jni_step y y'.
Proof.
  intros Hi (Ht & Hp & Hc) Hno. pose proof (ji_host _ _ Hi) as Hh. unfold host_inv in Hh.
  assert (is_Some (j_cdsi y)) as Hs by (destruct (j_host y); [..|by edestruct Hno]; by destruct Hh).
  destruct Hs as [e E]. destruct (ji_cdsi _ _ Hi e E) as (Hn & Hti & _).
  assert (is_Some (host_step y OE_OK err_SUCCESS) -> exists y', jni_step y y') as Hgo by (intros [y' H]; exists y'; by eapply step_host).
  unfold host_step, nativeEnclaveClose in Hgo. rewrite E in Hgo. destruct (j_host y) as [i| |i err|i err|i|x] eqn:Eh; [by destruct (Hc i)| | | | |by destruct (Hno x)].
  - apply Hgo. by eexists.
  - apply Hgo. destruct (j_workers y !! i) as [[]|]; [by eexists..|]. destruct (negb _); by eexists.
  - destruct Hh as (_ & Hl & Hlt & _). destruct (lookup_lt_is_Some_2 (j_threads y) i) as [t Et]; [lia|]. rewrite Et in Hgo.
    destruct (stop_signalled t) eqn:Est; [apply Hgo; by eexists|].
    apply (thread_progress n y i t); [done|by eexists|done|by intros ->|apply (Hp i); simpl; lia].
  - destruct Hh as (_ & Hl & _). destruct (_ <? _)%nat eqn:C; [|apply Hgo; by eexists]. apply Nat.ltb_lt in C.
    destruct (lookup_lt_is_Some_2 (j_threads y) i) as [t Et]; [lia|]. rewrite Hti, lookup_seq_lt in Hgo by lia. cbn in Hgo. rewrite Et in Hgo.
    destruct (decide (t = T_DONE)) as [->|]; [apply Hgo; by eexists|].
    apply (thread_progress n y i t); [done|by eexists|done|done|by apply (Hp i)].
Qed.

Lemma working_steps l : Forall (fun t => t = T_WORKING) l -> sum_list_with thread_steps l = (3 * length l)%nat.
Proof. induction 1 as [|t l -> _ IH]; simpl; lia. Qed.

(** ** Native functions *)

Lemma visible_all out : Z.of_nat (length out) <= INT_MAX -> visible out = out.
Proof.
  intros H. unfold visible, limit_buffer, INT_MAX in *. case_cond; breflect; [lia|]. rewrite to_i32_small by lia. rewrite Nat2Z.id. by apply take_ge.
Qed.

Lemma jlong_id x : is_u64 x -> wrap64 (to_i64 x) = x.
Proof. unfold is_u64, to_i64, wrap64. intros. case_cond; breflect; dlia. Qed.

Section Native.
Context {RAM : Type} `{ObliviousRam RAM} {handshake cipher : Type} `{!NoiseLibrary cipher} `{!EnclaveLibrary handshake cipher}.
Local Notation State := (enclave RAM handshake cipher).

(** A native function that returns, with its exception.  The arguments of clients
    are words as Java has them. *)
Inductive native_call (s : State) : option jni_exception -> State -> Prop :=
  | native_load oe a d r s' : nativeLoadData oe a d s = Some (r, s') -> native_call s (pending r) s'
  | native_create stray oe a id e n r s' : g_clients s !! id = None -> nativeClientCreate stray oe a id e n s = Some (r, s') -> native_call s (pending r) s'
  | native_handshake stray oe cli i n r s' : nativeClientHandshake stray oe cli i n s = Some (r, s') -> native_call s (pending r) s'
  | native_rate stray oe a ws x cli i n o m r s' : nativeClientRate stray oe a ws x cli i n o m s = Some (r, s') -> native_call s (pending r) s'
  | native_run stray oe a pa rnd k mem st cli p i n r s' : nativeClientRun stray oe a pa rnd k mem st cli p i n s = Some (r, s') -> native_call s (pending r) s'
  | native_close stray oe cli r s' : nativeClientClose stray oe cli s = Some (r, s') -> native_call s (pending r) s'
  | native_attest oe a k r s' : nativeEnclaveAttest oe a k s = Some (r, s') -> native_call s (pending r) s'
  | native_statistics oe a st n r s' : nativeEnclaveTableStatistics oe a st n s = Some (r, s') -> native_call s (pending r) s'.

(** The call was made and its error is the exception, or it was not made. *)
Lemma native_cases {A B} func oe (m : M State A) (failed : B) k s r s' : native func oe m failed k s = Some (r, s') ->
  (exists a, m s = Some (Ok a, s') /\ r = JniResult (k a) None) \/
  (exists e, m s = Some (Err e, s') /\ r = JniResult failed (Some (CdsiEnclaveException (error_code e)))) \/
  (oe <> OE_OK /\ s' = s /\ r = JniResult failed (Some (OpenEnclaveException func oe))).
Proof.
  unfold native. destruct (Z.eqb_spec oe OE_OK) as [_|Hne]; simpl.
  - destruct (m s) as [[[a|e] s1]|]; [|by intros [= <- <-]; right; left; eexists|done]. intros [= <- <-]. left. by eexists.
  - intros [= <- <-]. by right; right.
Qed.

Lemma native_enclave_call {A B} func oe (m : M State A) (failed : B) k s r s' :
  (forall x s', m s = Some (x, s') -> enclave_call s s') -> native func oe m failed k s = Some (r, s') ->
  enclave_call s s' \/ (s' = s /\ exists f c, pending r = Some (OpenEnclaveException f c)).
Proof. intros Hm [(a & E & _)|[(e & E & _)|(_ & -> & ->)]]%native_cases; [left; by eapply Hm..|right]. split; [done|]. by eexists _, _. Qed.

Lemma native_call_enclave s e s' : native_call s e s' -> enclave_call s s' \/ (s' = s /\ exists f c, e = Some (OpenEnclaveException f c)).
Proof.
  intros Hc. destruct Hc as [? ? ? ? ? Hr|? ? ? ? ? ? ? ? Hn Hr|? ? ? ? ? ? ? Hr|? ? ? ? ? ? ? ? ? ? ? ? Hr|? ? ? ? ? ? ? ? ? ? ? ? ? ? Hr|? ? ? ? ? Hr|? ? ? ? ? Hr|? ? ? ? ? ? Hr];
    (eapply native_enclave_call; [|exact Hr]); intros ? ? E; [by eapply call_load|by eapply call_new_client|by eapply call_handshake|by eapply call_rate_limit|
    by eapply call_run|by eapply call_close_client|by eapply call_attest|by eapply call_statistics].
Qed.
End Native.

(** ** Properties *)

(** C28. Whatever native functions Java calls, in any order and with any arguments, the
    enclave's state stays one that calls of the host reach and well formed.  A
    client that is created without an exception is named by the signed word that
    Java got, and Java reads the whole handshake data; with an exception Java gets
    zero and no client was added. *)
Theorem native_calls_well_formed {RAM} `{ObliviousRam RAM} {handshake cipher} `{!NoiseLibrary cipher} `{!EnclaveLibrary handshake cipher}
    `{!HandshakeLaws handshake cipher} (s0 s s' : enclave RAM handshake cipher) stray oe alloc id en n r :
  enclave_reachable s0 -> rtc (fun s s' => exists e, native_call s e s') s0 s ->
  g_clients s !! id = None -> is_u64 id -> Z.of_nat (length (g_handshakestart s)) <= INT_MAX ->
  nativeClientCreate stray oe alloc id en n s = Some (r, s') ->
  enclave_reachable s' /\ enclave_inv None s' /\
  ((pending r = None /\ wrap64 (returned r).1 = id /\ (returned r).2 = g_handshakestart s /\ is_Some (g_clients s' !! wrap64 (returned r).1)) \/
   (is_Some (pending r) /\ returned r = (0, []) /\ s' = s)).
Proof.
  intros H0 Hs Hnew Hid Hlen Hr.
  assert (Hstep : forall s e s', enclave_reachable s -> native_call s e s' -> enclave_reachable s').
  { intros s1 e s2 H1 [Hc|[-> _]]%native_call_enclave; [by eapply enclave_reach_call|done]. }
  assert (enclave_reachable s) as Hreach by (induction Hs as [|s1 s2 s3 [e He] _ IH]; [done|apply IH; by eauto]).
  assert (enclave_reachable s') as Hreach' by (by eapply Hstep, native_create).
  split_and!; [done|by apply enclave_reachable_inv|].
  apply native_cases in Hr as [(a & E & ->)|[(e & E & ->)|(_ & -> & ->)]]; [left|right; cbn..]; [| |by split_and!; [eexists|..]].
  - destruct (new_client_run _ _ _ _ _ _ _ _ Hnew E) as [(e & ? & _)|(Ha & _ & ->)]; [done|]. injection Ha as ->. cbn.
    rewrite (jlong_id id Hid), (visible_all _ Hlen), lookup_insert_eq. split_and!; [done..|by eexists].
  - destruct (new_client_run _ _ _ _ _ _ _ _ Hnew E) as [(e' & _ & ->)|(? & _)]; [|done]. by split_and!; [eexists|..].
Qed.

(** C26. The count that the service monitors is, in every interleaving of the host with
    the threads, the number of threads between the two updates of the counter; the
    int does not overflow.  When the close returns without an exception every
    thread has finished and the enclave is gone, and a thread can reach the freed
    struct only after a close that threw because [enclave_stop_shards] was not called
    or returned an error. *)
Theorem shard_threads_accounted n y : Z.of_nat n < 2 ^ 31 -> jni_reachable n y ->
  (forall e, j_cdsi y = Some e -> nativeGetRunningShardThreadCount e = Z.of_nat (sum_list_with counted (j_threads y)) /\
     0 <= nativeGetRunningShardThreadCount e <= Z.of_nat n) /\
  (j_host y = H_CLOSED None -> length (j_threads y) = n /\ all_done y /\ j_enclave y = false) /\
  (uses_freed y -> exists x, j_host y = H_CLOSED (Some x) /\
     ((exists code, x = OpenEnclaveException "enclave_stop_shards" code) \/ exists code, x = CdsiEnclaveException code /\ code <> 0)).
Proof.
  intros Hn Hr. pose proof (jni_reachable_inv n y Hn Hr) as Hi. pose proof (ji_host _ _ Hi) as Hh. unfold host_inv in Hh. split_and!.
  - intros e E. destruct (ji_cdsi _ _ Hi e E) as (_ & _ & Hc). unfold nativeGetRunningShardThreadCount. rewrite Hc.
    pose proof (counted_bound (j_threads y)). destruct (ji_workers _ _ Hi). lia.
  - intros E. rewrite E in Hh. destruct Hh as (_ & ? & ? & ?). done.
  - intros [Hnone (i & Hi')]. assert (~ all_done y) as Hnd by (intros Ha; destruct Hi' as [E|E]; by specialize (Ha i _ E)).
    destruct (j_host y) as [| | | | |[[c|f code]|]]; try (destruct Hh as [Hs _]; rewrite Hnone in Hs; by destruct Hs).
    + destruct Hh as (_ & _ & Hc). eexists. split; [done|]. right. by exists c.
    + destruct Hh as (_ & _ & [->|?]); [|done]. eexists. split; [done|]. left. by exists code.
    + by destruct Hh as (_ & _ & ? & _).
Qed.

(** C27. When the workers of all shards run, a close comes to its end whatever the
    order of the threads' steps: every execution from there is finite, with at most
    six steps per shard and four more, and where it cannot go on the close has
    returned. *)
Theorem close_completes n y k y' : Z.of_nat n < 2 ^ 31 -> jni_reachable n y -> j_host y = H_SERVE ->
  (forall i t, j_threads y !! i = Some t -> t = T_WORKING) -> nsteps jni_step k y y' ->
  (k <= 6 * n + 4)%nat /\ ((exists y2, jni_step y' y2) \/ exists e, j_host y' = H_CLOSED e).
Proof.
  intros Hn Hr Hh Hw Hs. pose proof (jni_reachable_inv n y Hn Hr) as Hi. split.
  - pose proof (jni_bound n y k y' Hn Hi Hs) as Hb. unfold steps_left at 2 in Hb. rewrite Hh in Hb. simpl in Hb.
    pose proof (working_steps (j_threads y) (proj2 (Forall_lookup _ _) Hw)). destruct (ji_workers _ _ Hi). lia.
  - assert (workers_started n y) as Hst by (split_and!; [intros i t ->%Hw; done|by rewrite Hh|by rewrite Hh]).
    assert (jni_inv n y' /\ workers_started n y') as [Hi' Hst'].
    { clear Hr Hh Hw. induction Hs as [|k y1 y2 y3 H _ IH]; [done|]. apply IH; [by eapply jni_steps_inv|].
      destruct H as [y1 i oe y2 H|y1 oe code y2 H]; [by eapply thread_step_started|by eapply host_step_started]. }
    destruct (j_host y') as [| | | | |e] eqn:E; [..|right; by exists e]; left; (apply (close_progress n); [done|done|by rewrite E]).
Qed.

(** ** Executions *)

(** A step of the host or of a thread, with the results of its calls. *)
Inductive move := HostMove (oe : Z) (code : error_t) | ThreadMove (i : nat) (oe : Z).

Definition make_move (m : move) (y : jni_system) : option jni_system :=
  match m with HostMove oe code => host_step y oe code | ThreadMove i oe => shard_thread_fn y i oe end.

Definition run_schedule (moves : list move) (y : jni_system) : option jni_system :=
  foldl (fun y m => y ≫= make_move m) (Some y) moves.

Lemma schedule_none moves : foldl (fun y m => y ≫= make_move m) None moves = None.
Proof. by induction moves. Qed.

Lemma schedule_nsteps moves y y' : run_schedule moves y = Some y' -> nsteps jni_step (length moves) y y'.
Proof.
  revert y. induction moves as [|m moves IH]; intros y; [intros [= ->]; constructor|]. unfold run_schedule in *. cbn.
  destruct (make_move m y) as [y1|] eqn:E; [|by rewrite schedule_none]. intros H. econstructor; [|by apply IH].
  destruct m; [by eapply step_host|by eapply step_thread].
Qed.

Lemma schedule_reachable n y0 moves y : nativeEnclaveInit OE_OK OE_OK err_SUCCESS n = inr y0 -> run_schedule moves y0 = Some y -> jni_reachable n y.
Proof.
  intros H0 H%schedule_nsteps. assert (jni_reachable n y0) as Hr by (by eapply jni_reach_init). clear H0.
  revert Hr. induction H as [|k y1 y2 y3 Hs _ IH]; [done|]. intros Hr. apply IH. by eapply jni_reach_step.
Qed.

Definition host : move := HostMove OE_OK err_SUCCESS.
Definition thread (i : nat) : move := ThreadMove i OE_OK.

Definition shim (cdsi : option cdsi_enclave_t) (loaded : bool) (ts : list shard_thread) (ws : list shard_worker_state) (h : host_pc) : jni_system :=
  {| j_cdsi := cdsi; j_enclave := loaded; j_threads := ts; j_workers := ws; j_host := h |}.
Definition shim_start (n : nat) : jni_system :=
  shim (Some {| ce_num_shards := n; tids := []; running_shard_threads := 0 |}) true [] (replicate n SHARD_WORKER_IDLE) (H_CREATE 0).

(** A close that begins before a shard's thread has entered the enclave finds no
    worker to stop there; the thread then starts one, which nobody stops, and the
    close waits for the thread for ever. *)
Theorem close_can_hang : exists y, jni_reachable 1 y /\ j_host y = H_JOIN 0 /\ forall y', ~ jni_step y y'.
Proof.
  exists (shim (Some {| ce_num_shards := 1; tids := [0%nat]; running_shard_threads := 1 |}) true [T_WORKING] [SHARD_WORKER_RUNNING] (H_JOIN 0)).
  split_and!; [|done|].
  - by apply (schedule_reachable 1 (shim_start 1) [host; host; host; host; host; thread 0; thread 0]).
  - intros y' Hs. inversion Hs as [? i oe ? H|? oe code ? H]; subst; [|done]. by destruct i as [|i].
Qed.

(** When the call that stops the shards fails, because it is not made or with an
    error of the enclave, the struct is freed under threads that still run and that
    will update its counter. *)
Theorem close_frees_in_use oe code : oe <> OE_OK \/ is_success code = false ->
  exists y x, jni_reachable 1 y /\ j_host y = H_CLOSED (Some x) /\ uses_freed y.
Proof.
  intros Hc. set (x := if oe =? OE_OK then CdsiEnclaveException (error_code code) else OpenEnclaveException "enclave_stop_shards" oe).
  exists (shim None true [T_STARTED] [SHARD_WORKER_IDLE] (H_CLOSED (Some x))), x.
  split_and!; [|done|split; [done|by exists 0%nat; left]].
  apply (schedule_reachable 1 (shim_start 1) [host; host; HostMove oe code]); [done|]. cbn. unfold nativeEnclaveClose, x. cbn.
  destruct (Z.eqb_spec oe OE_OK) as [->|]; simpl; [|done]. by destruct Hc as [?| ->].
Qed.

(** ** Witnesses *)

(** Two shards at work: three steps of the host and two of each thread. *)
Definition two_working : jni_system :=
  shim (Some {| ce_num_shards := 2; tids := [0%nat; 1%nat]; running_shard_threads := 2 |}) true [T_WORKING; T_WORKING]
    [SHARD_WORKER_RUNNING; SHARD_WORKER_RUNNING] H_SERVE.
Definition to_working : list move :=
  [host; thread 0; host; thread 0; thread 1; host; thread 1].
(** The close that follows. *)
Definition to_closed : list move :=
  [host; host; thread 0; host; host; thread 1; thread 0; host; thread 0; host;
   host; thread 1; thread 1; host; host].

Lemma shard_threads_accounted_witness : exists e, j_cdsi two_working = Some e /\ nativeGetRunningShardThreadCount e = 2.
Proof.
  assert (jni_reachable 2 two_working) as Hr by (by apply (schedule_reachable 2 (shim_start 2) to_working)).
  eexists. split; [reflexivity|]. exact (proj1 (proj1 (shard_threads_accounted 2 two_working ltac:(lia) Hr) _ eq_refl)).
Defined.

Lemma close_completes_witness : exists y', run_schedule to_closed two_working = Some y' /\ (length to_closed <= 16)%nat /\
  ((exists y2, jni_step y' y2) \/ exists e, j_host y' = H_CLOSED e).
Proof.
  assert (jni_reachable 2 two_working) as Hr by (by apply (schedule_reachable 2 (shim_start 2) to_working)).
  eexists. split; [reflexivity|]. apply (close_completes 2 two_working); [lia|exact Hr|reflexivity| |].
  - intros [|[|i]] t; [by intros [= <-]..|done].
  - by apply schedule_nsteps.
Defined.

Lemma close_frees_in_use_witness : exists y x, jni_reachable 1 y /\ j_host y = H_CLOSED (Some x) /\ uses_freed y.
Proof. apply (close_frees_in_use OE_OK err_SHARD__DESTROYING). right. reflexivity. Defined.

Lemma native_after {A B} f (m : M toy_state A) (x : B) k s a : fst <$> m s = Some (Ok a) ->
  native f OE_OK m x k s = Some (JniResult (k a) None, after m s).
Proof. intros E. unfold native. by rewrite (after_run _ _ _ E). Qed.

(** The address of the client is a negative word for Java. *)
Lemma native_calls_well_formed_witness : exists r s', nativeClientCreate (fun _ => 0) OE_OK true (2 ^ 63 + 4096) [] 1000 toy_s2 = Some (r, s') /\
  (returned r).1 < 0 /\ enclave_reachable s' /\ enclave_inv None s'.
Proof.
  eexists _, _. assert (nativeClientCreate (fun _ => 0) OE_OK true (2 ^ 63 + 4096) [] 1000 toy_s2 = Some (JniResult (to_i64 (2 ^ 63 + 4096), visible (g_handshakestart toy_s2)) None,
    after (enclave_new_client (fun _ => 0) true (2 ^ 63 + 4096) [] 1000) toy_s2)) as E.
  { apply (native_after "enclave_new_client" _ (0, []) (fun r => (to_i64 r.1, visible r.2)) _ (2 ^ 63 + 4096, g_handshakestart toy_s2)). vm_compute. reflexivity. }
  split; [exact E|]. split; [reflexivity|].
  assert (g_clients toy_s2 !! (2 ^ 63 + 4096) = None) as Hnew by (vm_compute; reflexivity).
  assert (is_u64 (2 ^ 63 + 4096)) as Hid by (unfold is_u64; lia).
  assert (Z.of_nat (length (g_handshakestart toy_s2)) <= INT_MAX) as Hlen by (vm_compute; discriminate).
  destruct (native_calls_well_formed (RAM := inner_oram) (handshake := nat) (cipher := nat) _ _ _ _ _ _ _ _ _ _ toy_s2_reachable (rtc_refl _ _) Hnew Hid Hlen E) as (Hr & Hi & _).
  exact (conj Hr Hi).
Defined.
